(* ===== verification/_CoqProject ===== *)
-Q . S2P
Prelude.v
Kernel.v
SimKernel.v
Nodes.v
AutoRelease.v
Pipeline.v
Stages.v
Sinks.v
Sources.v
Batch.v
Mapped.v
Lines.v
Regex.v
WriteLock.v
TreeSitter.v
Cat.v
Traverse.v
Dirents.v
Processor.v
Termination.v
Grep.v
GrepRun.v
GrepThreads.v
GrepOutput.v
Main.v
Omnipp.v
RequestPool.v
EventLoop.v
Accounting.v
Descriptors.v
RegexHandler.v
RegexThreads.v
Uring.v
UringCalls.v
UringSim.v
UringLoop.v
