(* ===== verification/Prelude.v ===== *)
(** * omnipp: a verification development

    omnipp (src/src) is a small collection of command line tools, [cat] and
    [grep], built from pipelines of nodes: a source reads a file, transforms
    change what passes through, a sink puts it on the standard output. The
    binary looks at the name it was started with and runs one of the commands.
    This library models that program and proves what its parts promise to each
    other and to the user.

    ** The program and its model

    - utils/auto_release.h, utils/fd_closer.h, utils/auto_map.h: owning
      handles. AutoRelease.v models the class as operations on a store of
      objects with a log of what was released; [finally] and [unwinding] run
      the destructor of a local owner when its scope is left.
    - concepts/concepts.h, pipeline/pipeline.h: how stages are composed and run.
      Pipeline.v has the stages, [pipe] for [operator|], [get] and [execute];
      Stages.v lists every stage with the call operators of its node and
      computes whether a call of a pipeline compiles. Nodes.v has, as classes,
      the call operators through which nodes call each other, and the laws a
      successor promises: a byte consumer keeps every byte ([LawfulSpan],
      [LawfulView], [LawfulLine]), a descriptor consumer drains pipes
      ([LawfulDrain]).
    - sink/*.h: Sinks.v, one Module per sink ([Write], [EventLoopWrite], [Cout],
      [NullSink], [SpliceSink], [SendFile]). WriteLock.v has the [Write] sink
      called by many threads, with its mutex.
    - source/*.h: Sources.v ([CopyFileRange], [DirectSplice], [ReadFile],
      [SpliceSource]), Mapped.v (the memory-mapped and zero-copy sources) and
      Traverse.v (the directory source, over [std::filesystem] as a parameter).
    - transform/*.h: Batch.v, Regex.v (Vectorscan, RE2 and [std::regex]; Lines.v
      has the searching in texts they share) and TreeSitter.v.
    - commands/cat.h, config/config.h: Cat.v, from [open_file] to [cat].
    - commands/grep.h: Processor.v models the threads, the queue, the mutex, the
      condition variable and the counters of class [Processor] as a machine
      whose steps are single accesses to the shared state, and Termination.v has
      its measure; Dirents.v the records of [getdents64]; Grep.v what a worker
      does with them and with the files; GrepRun.v the whole of [run] and
      [worker] on a system with directories, as they run with one hardware
      thread; GrepThreads.v connects the two, and GrepOutput.v joins the threads,
      their pipelines and the sink.
    - main.cpp: Main.v; Omnipp.v puts the commands of Cat.v and GrepRun.v into it.
    - utils/request_pool.h, utils/event_loop.h, utils/regex_handler.h: an
      io_uring engine that no command uses yet. RequestPool.v has the requests
      and their pools (a pointer to a request is its place), EventLoop.v the
      queueing operations, the directory reference counts and the phases of
      [pump], Accounting.v what [in_flight_] counts, Descriptors.v who holds
      each descriptor while [pump] runs, RegexHandler.v what one search worker
      does and prints, RegexThreads.v all the search threads, from the
      constructor to the destructor, as a machine.
    - third_party/liburing: Uring.v has the rings under that engine, as arrays
      with wrapping 32-bit indices, and the computation of their sizes;
      UringCalls.v submitting, peeking and waiting, over a kernel of which only
      the manual page of [io_uring_enter] is known; UringSim.v such a kernel;
      UringLoop.v shows that all this is what the event loop relies on.

    ** How it is modelled

    Code runs in the monad [M W] of this file: from a world [W] to an [outcome]
    (a value, an exception, a call that never returns, undefined behaviour, or
    fuel used up) and a new world. [std::expected] is the type [expected], a
    plain value. [std::size_t] is [Z] with its wrap-around written out ([+ₛ],
    [-ₛ]); bytes are [Byte.byte].

    The operating system is a parameter: Kernel.v lists the system calls as the
    class [Kernel] and states in [LawfulKernel] what their manual pages promise,
    with short transfers and errors allowed everywhere, over a [view] of the
    output, the descriptors, the pipes and the files, and of the directories
    that descriptors stand for ([object], [directory]; GrepRun.v has the laws
    about them, [LawfulDirs]). SimKernel.v has two executable systems that
    satisfy all of the laws; the witnesses of the theorems run on them.
    Vectorscan, RE2, [std::regex] and tree-sitter are parameters too, each a
    class of calls with the documented facts the code relies on; so is io_uring
    ([Ring], [LawfulRing], [RingQueue], [LawfulQueue]), over the requests whose
    completion is still to come, with the descriptors it has given and closed
    ([RingHistory]); UringLoop.v has liburing's rings as instances of the first
    four.

    Loops get [fuel] rounds, a parameter ([Class Fuel]). A theorem that says a
    call returns asks for more rounds than there are bytes (of the file, or of
    the output where a loop writes the output), and for [grep] more than there
    are entries in the tree: every loop of the program moves at least one byte,
    or takes one batch of records or one directory, in each round it does not
    leave, which is the measure of the proofs. The machines of the threads need
    no fuel: a run is a list of steps, and its length is bounded by a theorem. The
    calls of liburing need two rounds, and the walk over its completions as many
    as the completion ring has entries.
    The calculus is [wp]: total correctness, with [wp_loop] for an invariant and
    a measure.

    ** What is proved

    - cat: for every kind of output the content of the file and nothing else is
      delivered, or an exception is thrown after a first part of it, and all
      descriptors are closed; in colour, a terminal shows exactly the text.
    - grep: with one hardware thread the whole command prints one line for each
      match in each chunk of each regular file below the directory, and nothing
      else, and closes all it opened; for any number of threads and any
      interleaving each file is searched exactly once, they are the files the
      single thread searches, the output is made of pieces of single threads that
      together are the lines each of them found, no work is left behind and the
      number of steps is bounded; the walk over directory records visits each once.
    - the process: started as [cat] or [grep] it ends with status 0 after printing
      what the command promises, or a first part of it and a message.
    - the [Write] sink among threads: calls do not mix, whatever the interleaving
      and however short the writes.
    - the directory source sends each regular file below the directory once, in
      the order of the walk.
    - the types: whether a call of a pipeline compiles can be read off its
      stages in the order they are written.
    - the io_uring engine: a pool never hands out a request that is in use;
      [in_flight_] is exact, so that a successful [pump] has completed all it
      submitted, and has closed exactly the descriptors it was given, each once,
      a directory with its last reference; a search
      worker prints the matches of exactly the requests it gave back, whatever
      the other threads do; for any number of workers every request is in
      exactly one place, no request is left behind while the handler lives, and
      the threads take a bounded number of steps.
    - liburing's rings: the submission ring is a bounded queue and the walk over
      completions visits each once, also across the wrap of the indices;
      submitting and waiting lose no request, and waiting ends with a completion
      or an error; so, when the event loop succeeds over liburing, the rings and
      the kernel have nothing left.
    - the parts: ownership ([AutoRelease] releases exactly once), composition
      order, batching is transparent, what each regular expression transform
      prints and when two of them agree, colouring keeps the text, the mapped
      source, the program name.
    - what goes wrong, as theorems too: the stop signal of the threads of [grep]
      and of the search threads can be lost, a line of [grep] can be torn, the
      middleman splice hangs on a short file, terminals are never coloured,
      colours bleed into plain text, [sendfile] repeats bytes, a failed [mmap]
      is not seen, a low hard limit disables the program, a newline is not
      checked, an empty line breaks the [Cout] sink, and an unknown number of
      hardware threads starts them without end; in the io_uring engine a failed
      read is never given back, a waiting write is dropped, the rest of a short
      write is read from outside its buffer, queued searches are dropped at the
      end and a short write loses text.

    ** What is not modelled

    - The rest of liburing: the mapping of the rings' memory (src/setup.c,
      [io_uring_queue_init] and [io_uring_queue_exit]), of which a ring in order
      is the starting point, and everything the event loop does not call.
    - utils/memcpy_override.cpp: one call of a vendored routine.
    - Everything else under third_party, the build files, and the copying of a
      buffer that the language does behind the scenes. *)

From stdpp Require Export prelude strings pretty gmap list.
From Stdlib Require Export Strings.Byte.
#[global] Open Scope Z_scope.

(** ** Bytes and [size_t] *)

#[global] Instance byte_eq_decision : EqDecision byte := Byte.byte_eq_dec.

Abbreviation bytes := (list byte).

(** The bytes of a C string literal. *)
Definition str (s : string) : bytes := String.list_byte_of_string s.

(** ['\n'] and ['\r']. *)
Definition nl : byte := x0a.

Definition cr : byte := x0d.

(** [std::size_t] is 64 bits wide on the only target the build knows
    (x86_64-linux-musl); its arithmetic wraps. *)
Definition size_max : Z := 2 ^ 64.

Definition wrap64 (z : Z) : Z := z mod size_max.

(** [a + b], [a - b] on [std::size_t]. *)
Definition size_add (a b : Z) : Z := wrap64 (a + b).

Definition size_sub (a b : Z) : Z := wrap64 (a - b).

(** The length of a range as a machine integer. *)
Definition lenZ {A} (l : list A) : Z := Z.of_nat (length l).

(** First [n] elements and the rest, with [n] a machine integer. The count is
    capped before it becomes a [nat], so a 10 MiB bound costs nothing on a
    short list. *)
Definition takeZ {A} (n : Z) (l : list A) : list A :=
  take (Z.to_nat (n `min` lenZ l)) l.

Definition dropZ {A} (n : Z) (l : list A) : list A :=
  drop (Z.to_nat (n `min` lenZ l)) l.

Declare Scope omnipp_scope.
Delimit Scope omnipp_scope with om.
Notation "a +ₛ b" := (size_add a b) (at level 50, left associativity) : omnipp_scope.
Notation "a -ₛ b" := (size_sub a b) (at level 50, left associativity) : omnipp_scope.
#[global] Open Scope omnipp_scope.

Create HintDb om.
Create Rewrite HintDb om_len.

(** ** Outcomes and the effect monad

    A call of the program either returns, throws a [std::runtime_error],
    blocks forever in a system call, has undefined behaviour (or a violated
    contract), or is still looping when the fuel of the model is used up. *)
Inductive outcome (A : Type) : Type :=
  | Done (a : A)
  | Throws (what : string)
  | Blocked
  | NoFuel
  | UB.
Arguments Done {A} _.
Arguments Throws {A} _.
Arguments Blocked {A}.
Arguments NoFuel {A}.
Arguments UB {A}.

(** [std::string_view::npos] *)
Definition npos : Z := size_max - 1.

(** [std::expected<T, std::string>]: a value of the language, not an effect. *)
Inductive expected (A : Type) : Type :=
  | Value (a : A)
  | Unexpected (e : string).
Arguments Value {A} _.
Arguments Unexpected {A} _.

(** Computations over a world [W] (the operating system). *)
Definition M (W A : Type) : Type := W → outcome A * W.

Definition outcome_bind {W A B} (f : A → M W B) (r : outcome A * W) : outcome B * W :=
  match r with
  | (Done a, w) => f a w
  | (Throws e, w) => (Throws e, w)
  | (Blocked, w) => (Blocked, w)
  | (NoFuel, w) => (NoFuel, w)
  | (UB, w) => (UB, w)
  end.

#[global] Instance M_ret {W} : MRet (M W) := λ A a w, (Done a, w).

#[global] Instance M_bind {W} : MBind (M W) := λ A B f m w, outcome_bind f (m w).

Definition throw {W A} (e : string) : M W A := λ w, (Throws e, w).

(** [try { m } catch (const std::exception &e) { handler(e.what()) }] *)
Definition catching {W A} (m : M W A) (handler : string → M W A) : M W A := λ w,
  match m w with
  | (Throws e, w') => handler e w'
  | r => r
  end.

Definition undefined {W A} : M W A := λ w, (UB, w).

(** [for (;;)] and [while]: the body returns [inl s] to go round again with
    loop variables [s], or [inr a] to leave the loop with [a]. *)
Fixpoint loop {W S A} (fuel : nat) (body : S → M W (S + A)) (s : S) : M W A :=
  match fuel with
  | O => λ w, (NoFuel, w)
  | Datatypes.S fuel' =>
      r ← body s;
      match r with
      | inl s' => loop fuel' body s'
      | inr a => mret a
      end
  end.

(** The number of rounds the loops of the program are given. It is a
    parameter of every definition with a loop, and every theorem that says a
    call returns says how much is enough. *)
Class Fuel := fuel : nat.

(** ** A weakest-precondition calculus for the monad *)

Definition wp {W A} (m : M W A) (w : W) (Q : outcome A → W → Prop) : Prop :=
  Q (m w).1 (m w).2.

(** The call returns, and what it returns satisfies [P]. *)
Definition returns {W A} (P : A → W → Prop) : outcome A → W → Prop :=
  λ o w, match o with Done a => P a w | _ => False end.

(** If the call returns, what it returns satisfies [P]: for invariants of code
    whose calls may also fail. *)
Definition upon {W A} (P : A → W → Prop) : outcome A → W → Prop :=
  λ o w, match o with Done a => P a w | _ => True end.

(** A normal return is checked against [P], every other outcome passes to
    the enclosing computation's postcondition. *)
Definition lift {W A B} (P : A → W → Prop) (Q : outcome B → W → Prop)
    : outcome A → W → Prop :=
  λ o w, match o with
         | Done a => P a w
         | Throws e => Q (Throws e) w
         | Blocked => Q Blocked w
         | NoFuel => Q NoFuel w
         | UB => Q UB w
         end.

Section wp_lemmas.
Context {W : Type}.

Lemma wp_unfold {A} (m : M W A) w o w' Q : m w = (o, w') → wp m w Q ↔ Q o w'.
Proof. unfold wp. by intros ->. Qed.

(** A call that does what another does elsewhere. *)
Lemma wp_eq {A} (m m' : M W A) w w' Q : m w = m' w' → wp m' w' Q → wp m w Q.
Proof. unfold wp. by intros ->. Qed.

Lemma wp_mono {A} (m : M W A) w (P Q : outcome A → W → Prop) :
  wp m w P → (∀ o w', P o w' → Q o w') → wp m w Q.
Proof. unfold wp. auto. Qed.

Lemma wp_returns_and {A} (m : M W A) w (P Q : A → W → Prop) :
  wp m w (returns P) → wp m w (returns Q) → wp m w (returns (λ a w', P a w' ∧ Q a w')).
Proof. unfold wp. destruct (m w) as [[] w']; simpl; auto. Qed.

Lemma wp_ret {A} (a : A) w (Q : outcome A → W → Prop) : Q (Done a) w → wp (mret a) w Q.
Proof. done. Qed.

Lemma wp_throw {A} e w (Q : outcome A → W → Prop) : Q (Throws e) w → wp (throw e) w Q.
Proof. done. Qed.

Lemma wp_bind {A B} (m : M W A) (f : A → M W B) w Q :
  wp m w (lift (λ a w', wp (f a) w' Q) Q) → wp (m ≫= f) w Q.
Proof.
  unfold wp, mbind, M_bind. destruct (m w) as [[] w']; simpl; auto.
Qed.

Lemma wp_catching {A} (m : M W A) h w (P : A → W → Prop) :
  wp m w (returns P) → wp (catching m h) w (returns P).
Proof. unfold wp, catching. by destruct (m w) as [[] w']. Qed.

Lemma returns_lift {A B} (P : A → W → Prop) (Q : outcome B → W → Prop) o w :
  returns P o w → lift P Q o w.
Proof. by destruct o. Qed.

Lemma wp_bind_returns {A B} (m : M W A) (f : A → M W B) w Q :
  wp m w (returns (λ a w', wp (f a) w' Q)) → wp (m ≫= f) w Q.
Proof. intros H. apply wp_bind. eapply wp_mono; [done|]. intros; by apply returns_lift. Qed.

Lemma wp_returns_mono {A} (m : M W A) w (P Q : A → W → Prop) :
  wp m w (returns P) → (∀ a w', P a w' → Q a w') → wp m w (returns Q).
Proof. intros H HPQ. eapply wp_mono; [done|]. intros [] w'; simpl; auto. Qed.

Lemma wp_returns_inv {A} (m : M W A) w (P : A → W → Prop) :
  wp m w (returns P) → ∃ a w', m w = (Done a, w') ∧ P a w'.
Proof. unfold wp. destruct (m w) as [[] w']; simpl; naive_solver. Qed.

(** Total correctness of a loop: an invariant, and a measure that goes down
    in every round that stays in the loop. *)
Lemma wp_loop {S A} (body : S → M W (S + A)) (I : S → W → Prop) (μ : S → W → nat)
    (Q : outcome A → W → Prop) :
  (∀ s w, I s w →
     wp (body s) w (lift (λ r w', match r with
                                  | inl s' => I s' w' ∧ (μ s' w' < μ s w)%nat
                                  | inr a => Q (Done a) w'
                                  end) Q)) →
  ∀ n s w, I s w → (μ s w < n)%nat → wp (loop n body s) w Q.
Proof.
  intros Hbody n. induction n as [|n IH]; intros s w HI Hn; [lia|].
  simpl. apply wp_bind. eapply wp_mono; [by apply Hbody|].
  intros [[s'|a]| | | |] w'; simpl; auto.
  intros [HI' Hlt]. apply IH; [done|lia].
Qed.

(** The same with an invariant about something that is not in the program. *)
Lemma wp_loop_ghost {S A G} (body : S → M W (S + A)) (I : G → S → W → Prop) (μ : G → nat)
    (Q : outcome A → W → Prop) :
  (∀ g s w, I g s w →
     wp (body s) w (lift (λ r w', match r with
                                  | inl s' => ∃ g', (μ g' < μ g)%nat ∧ I g' s' w'
                                  | inr a => Q (Done a) w'
                                  end) Q)) →
  ∀ n g s w, I g s w → (μ g < n)%nat → wp (loop n body s) w Q.
Proof.
  intros Hbody n. induction n as [|n IH]; intros g s w HI Hn; [lia|].
  simpl. apply wp_bind. eapply wp_mono; [by apply (Hbody g)|].
  intros [[s'|a]| | | |] w'; simpl; auto.
  intros (g' & Hlt & HI'). apply (IH g'); [done|lia].
Qed.

(** The rules for [upon]. *)
Lemma wp_returns_upon {A} (m : M W A) w (P Q : A → W → Prop) :
  wp m w (returns P) → (∀ a w', P a w' → Q a w') → wp m w (upon Q).
Proof. intros Hm HPQ. eapply wp_mono; [done|]. intros [] w'; simpl; naive_solver. Qed.

Lemma wp_upon_mono {A} (m : M W A) w (P Q : A → W → Prop) :
  wp m w (upon P) → (∀ a w', P a w' → Q a w') → wp m w (upon Q).
Proof. intros Hm HPQ. eapply wp_mono; [done|]. intros [] w'; simpl; auto. Qed.

Lemma wp_upon_and {A} (m : M W A) w (P Q : A → W → Prop) :
  wp m w (upon P) → wp m w (upon Q) → wp m w (upon (λ a w', P a w' ∧ Q a w')).
Proof. unfold wp. by destruct (m w) as [[] w']. Qed.

Lemma wp_bind_upon {A B} (m : M W A) (f : A → M W B) w (Q : B → W → Prop) :
  wp m w (upon (λ a w', wp (f a) w' (upon Q))) → wp (m ≫= f) w (upon Q).
Proof. unfold wp, mbind, M_bind. by destruct (m w) as [[] w']. Qed.

Lemma wp_loop_upon {S A} (body : S → M W (S + A)) (I : S → W → Prop) (Q : A → W → Prop) :
  (∀ s w, I s w → wp (body s) w (upon (λ r w', match r with inl s' => I s' w' | inr a => Q a w' end))) →
  ∀ n s w, I s w → wp (loop n body s) w (upon Q).
Proof.
  intros Hbody n. induction n as [|n IH]; intros s w HI; [done|].
  simpl. apply wp_bind_upon. eapply wp_upon_mono; [by apply Hbody|]. intros [s'|a] w' Hr; auto.
Qed.

(** A loop that is left in its first round. *)
Lemma wp_loop_once {S A} (body : S → M W (S + A)) (Q : outcome A → W → Prop) n s w :
  (0 < n)%nat →
  wp (body s) w (lift (λ r w', match r with inl _ => False | inr a => Q (Done a) w' end) Q) →
  wp (loop n body s) w Q.
Proof.
  destruct n as [|n]; [lia|]. intros _ Hb. simpl. apply wp_bind. eapply wp_mono; [done|].
  by intros [[]| | | |] w'.
Qed.

End wp_lemmas.

#[export] Hint Resolve wp_ret wp_throw : om.

(** ** Machine integers and ranges *)

Lemma wrap64_small z : 0 ≤ z < size_max → wrap64 z = z.
Proof. intros. unfold wrap64. by apply Z.mod_small. Qed.

Lemma size_add_small a b : 0 ≤ a + b < size_max → a +ₛ b = a + b.
Proof. apply wrap64_small. Qed.

Lemma size_sub_small a b : 0 ≤ a - b < size_max → a -ₛ b = a - b.
Proof. apply wrap64_small. Qed.

Lemma size_add_range a b : 0 ≤ a +ₛ b < size_max.
Proof. apply Z.mod_pos_bound. done. Qed.

Section ranges.
Context {A : Type}.
Implicit Types l k : list A.

Lemma lenZ_nonneg l : 0 ≤ lenZ l.
Proof. unfold lenZ. lia. Qed.

Lemma lenZ_app l k : lenZ (l ++ k) = lenZ l + lenZ k.
Proof. unfold lenZ. rewrite length_app. lia. Qed.

Lemma lenZ_cons x l : lenZ (x :: l) = 1 + lenZ l.
Proof. unfold lenZ. simpl. lia. Qed.

Lemma lenZ_nil : lenZ (@nil A) = 0.
Proof. done. Qed.

Lemma lenZ_nil_inv l : lenZ l = 0 → l = [].
Proof. unfold lenZ. destruct l; [done|simpl; lia]. Qed.

Lemma takeZ_take n l : takeZ n l = take (Z.to_nat n) l.
Proof.
  unfold takeZ, lenZ. destruct (decide (n ≤ Z.of_nat (length l))).
  - by rewrite Z.min_l.
  - rewrite Z.min_r, Nat2Z.id, !take_ge by lia. done.
Qed.

Lemma dropZ_drop n l : dropZ n l = drop (Z.to_nat n) l.
Proof.
  unfold dropZ, lenZ. destruct (decide (n ≤ Z.of_nat (length l))).
  - by rewrite Z.min_l.
  - rewrite Z.min_r, Nat2Z.id, !drop_ge by lia. done.
Qed.

Lemma takeZ_dropZ n l : takeZ n l ++ dropZ n l = l.
Proof. unfold takeZ, dropZ. apply take_drop. Qed.

Lemma lenZ_takeZ n l : 0 ≤ n → lenZ (takeZ n l) = n `min` lenZ l.
Proof. intros. rewrite takeZ_take. unfold lenZ. rewrite length_take. lia. Qed.

Lemma lenZ_dropZ n l : 0 ≤ n → lenZ (dropZ n l) = 0 `max` (lenZ l - n).
Proof. intros. rewrite dropZ_drop. unfold lenZ. rewrite length_drop. lia. Qed.

Lemma takeZ_all n l : lenZ l ≤ n → takeZ n l = l.
Proof. intros. rewrite takeZ_take. apply take_ge. unfold lenZ in *. lia. Qed.

Lemma dropZ_all n l : lenZ l ≤ n → dropZ n l = [].
Proof. intros. rewrite dropZ_drop. apply drop_ge. unfold lenZ in *. lia. Qed.

Lemma takeZ_0 l : takeZ 0 l = [].
Proof. by rewrite takeZ_take. Qed.

Lemma dropZ_0 l : dropZ 0 l = l.
Proof. by rewrite dropZ_drop. Qed.

Lemma takeZ_nil n : takeZ n (@nil A) = [].
Proof. by rewrite takeZ_take, take_nil. Qed.

Lemma dropZ_dropZ n m l : 0 ≤ n → 0 ≤ m → dropZ m (dropZ n l) = dropZ (n + m) l.
Proof. intros. rewrite !dropZ_drop, drop_drop. f_equal. lia. Qed.

Lemma takeZ_add n m l :
  0 ≤ n → 0 ≤ m → takeZ (n + m) l = takeZ n l ++ takeZ m (dropZ n l).
Proof.
  intros. rewrite !takeZ_take, dropZ_drop, Z2Nat.inj_add by lia.
  by rewrite take_take_drop.
Qed.

Lemma takeZ_app l k : takeZ (lenZ l) (l ++ k) = l.
Proof. rewrite takeZ_take. unfold lenZ. by rewrite Nat2Z.id, take_app_length. Qed.

Lemma dropZ_app l k : dropZ (lenZ l) (l ++ k) = k.
Proof. rewrite dropZ_drop. unfold lenZ. by rewrite Nat2Z.id, drop_app_length. Qed.

Lemma takeZ_prefix n l : takeZ n l `prefix_of` l.
Proof. rewrite takeZ_take. apply prefix_take. Qed.

Lemma dropZ_nil_inv n l : 0 ≤ n → dropZ n l = [] → lenZ l ≤ n.
Proof. intros ? H. pose proof (lenZ_dropZ n l) as Hl. rewrite H, lenZ_nil in Hl. lia. Qed.

End ranges.

#[export] Hint Rewrite @lenZ_app @lenZ_cons @lenZ_nil : om_len.
#[export] Hint Resolve lenZ_nonneg takeZ_prefix : om.

(** ** Sums over the elements of a list

    The invariants of the thread machines are statements about sums over the
    threads, so that a step of one thread changes them by the difference of two
    summands. *)

Lemma sum_insert {A} (f : A → nat) (l : list A) t x y :
  l !! t = Some x →
  (sum_list_with f (<[t := y]> l) + f x = sum_list_with f l + f y)%nat.
Proof.
  revert t. induction l as [|z l IH]; intros [|t] Ht; simplify_eq/=; [lia|].
  specialize (IH t Ht). lia.
Qed.

Lemma sum_lookup {A} (f : A → nat) (l : list A) t x :
  l !! t = Some x → (f x ≤ sum_list_with f l)%nat.
Proof.
  revert t. induction l as [|z l IH]; intros [|t] Ht; simplify_eq/=; [lia|].
  specialize (IH t Ht). lia.
Qed.

Lemma sum_zero {A} (f : A → nat) (l : list A) t x :
  sum_list_with f l = O → l !! t = Some x → f x = O.
Proof. intros H Ht. apply (sum_lookup f) in Ht. lia. Qed.

Lemma sum_pos {A} (f : A → nat) (l : list A) :
  (0 < sum_list_with f l)%nat → ∃ t x, l !! t = Some x ∧ (0 < f x)%nat.
Proof.
  induction l as [|z l IH]; simpl; [lia|]. intros H. destruct (decide (0 < f z)%nat).
  - by exists O, z.
  - destruct IH as (t & x & ? & ?); [lia|]. by exists (S t), x.
Qed.

Lemma sum_le {A} (f g : A → nat) (l : list A) :
  (∀ x, f x ≤ g x)%nat → (sum_list_with f l ≤ sum_list_with g l)%nat.
Proof. intros H. induction l as [|z l IH]; simpl; [lia|]. specialize (H z). lia. Qed.

(** Range arithmetic: normalise lengths, bring in their signs, and decide. *)
Ltac range :=
  autorewrite with om_len in *;
  repeat match goal with
         | |- context [lenZ ?l] =>
             lazymatch goal with
             | _ : 0 ≤ lenZ l |- _ => fail
             | _ => pose proof (lenZ_nonneg l)
             end
         | _ : context [lenZ ?l] |- _ =>
             lazymatch goal with
             | _ : 0 ≤ lenZ l |- _ => fail
             | _ => pose proof (lenZ_nonneg l)
             end
         end;
  try lia.

(** Step through the monadic structure of a goal [wp m w Q]. *)
Ltac wp_step :=
  lazymatch goal with
  | |- wp (mret _) _ _ => apply wp_ret
  | |- wp (throw _) _ _ => apply wp_throw
  | |- wp (_ ≫= _) _ _ => apply wp_bind
  end.

(** Unroll one round of a loop whose body is the constant [body]. *)
Ltac unroll body :=
  cbn [loop];
  lazymatch goal with
  | |- (_ ≫= ?f) _ = _ =>
      let k := fresh "k" in set (k := f); unfold body; subst k
  end.
