(* ===== verification/Kernel.v ===== *)
(** The operating system as the program sees it.

    The system calls the sources make are the methods of the class [Kernel];
    they are parameters of every definition that calls them. [LawfulKernel]
    states what their manual pages promise, over an abstract [view] of the
    system: the bytes the standard output has received, the open descriptors,
    the contents of the pipes, and the files that can be opened. Short
    transfers, errors and end of file are all allowed by the laws. *)

From S2P Require Import Prelude.

Definition STDOUT_FILENO : Z := 1.

Definition AT_FDCWD : Z := -100.

(** The [O_*] flags of [openat] on x86_64. *)
Definition O_RDONLY : Z := 0.

Definition O_DIRECTORY : Z := 65536.

Definition O_NOFOLLOW : Z := 131072.

Definition O_NOATIME : Z := 262144.

Definition POSIX_FADV_SEQUENTIAL : Z := 2.

Definition POSIX_FADV_WILLNEED : Z := 3.

(** [S_ISREG], [S_ISCHR] and [S_ISFIFO] of <sys/stat.h>. *)
Definition S_IFMT (mode : Z) : Z := Z.land mode 61440.

Definition S_ISREG (mode : Z) : bool := S_IFMT mode =? 32768.

Definition S_ISCHR (mode : Z) : bool := S_IFMT mode =? 8192.

Definition S_ISFIFO (mode : Z) : bool := S_IFMT mode =? 4096.

(** [MAP_FAILED], that is [(void * ) -1]. *)
Definition MAP_FAILED : Z := size_max - 1.

(** The two fields of [struct statx] the sources ask for. *)
Record statx := Statx { stx_size : Z; stx_mode : Z }.

Class Kernel (W : Type) := {
  (** [write(fd, data, size)] *)
  sys_write : Z → bytes → M W Z;
  (** [pread(fd, buffer, count, offset)], with the bytes put in the buffer *)
  sys_pread : Z → Z → Z → M W (Z * bytes);
  (** [splice(in, nullptr, out, nullptr, len, SPLICE_F_MORE)] *)
  sys_splice : Z → Z → Z → M W Z;
  (** [copy_file_range(in, nullptr, out, nullptr, len, 0)] *)
  sys_copy_file_range : Z → Z → Z → M W Z;
  (** [sendfile(out, in, &offset, count)] *)
  sys_sendfile : Z → Z → Z → Z → M W Z;
  (** [pipe(fds)], with the two descriptors *)
  sys_pipe : M W (Z * (Z * Z));
  (** [fcntl(fd, F_SETPIPE_SZ, size)] *)
  sys_setpipe_sz : Z → Z → M W Z;
  sys_openat : Z → string → Z → M W Z;
  sys_close : Z → M W Z;
  (** [statx(fd, "", AT_EMPTY_PATH, mask, &stx)] *)
  sys_statx : Z → M W (Z * statx);
  (** [posix_fadvise(fd, offset, len, advice)] *)
  sys_fadvise : Z → Z → Z → Z → M W Z;
  sys_isatty : Z → M W Z;
  (** [mmap(nullptr, size, PROT_READ, MAP_PRIVATE, fd, 0)]: the address, and
      the bytes found there *)
  sys_mmap : Z → Z → M W (Z * bytes);
  sys_munmap : Z → Z → M W Z;
  (** [std::cout << data] *)
  std_cout : bytes → M W unit;
  errno : W → Z;
  strerror : Z → string
}.

(** ** The view *)

(** What the entries of a directory name: a regular file with its content, a
    directory, or anything else. A directory is the batches of entries that
    successive calls of [getdents64] return. Opening may be refused. *)
Inductive object :=
  | RegularFile (opens : bool) (content : bytes)
  | Directory (opens : bool) (batches : list (list (string * object)))
  | Special.

Abbreviation directory := (list (list (string * object))).

(** What a descriptor stands for; an open directory has the batches that are
    still to be read beside all its entries. *)
Inductive fdobj :=
  | OFile (content : bytes) (pos : Z)
  | OPipeR (p : Z)
  | OPipeW (p : Z)
  | ODir (all rest : directory).

(** What opening an object gives. *)
Definition open_object (o : object) : option fdobj :=
  match o with
  | RegularFile true c => Some (OFile c 0)
  | Directory true d => Some (ODir d d)
  | _ => None
  end.

Record view := View {
  v_out : bytes;
  v_out_mode : Z;
  v_fds : gmap Z fdobj;
  v_pipes : gmap Z bytes;
  v_fs : gmap string bytes
}.

(** What can be read from a descriptor without waiting. *)
Definition avail (fd : Z) (v : view) : option bytes :=
  match v_fds v !! fd with
  | Some (OFile c p) => Some (dropZ p c)
  | Some (OPipeR p) => v_pipes v !! p
  | _ => None
  end.

Definition set_fds (f : gmap Z fdobj → gmap Z fdobj) (v : view) : view :=
  View (v_out v) (v_out_mode v) (f (v_fds v)) (v_pipes v) (v_fs v).

Definition set_pipes (f : gmap Z bytes → gmap Z bytes) (v : view) : view :=
  View (v_out v) (v_out_mode v) (v_fds v) (f (v_pipes v)) (v_fs v).

Definition emit (bs : bytes) (v : view) : view :=
  View (v_out v ++ bs) (v_out_mode v) (v_fds v) (v_pipes v) (v_fs v).

(** Reading [n] bytes from [fd], and writing [bs] to [fd]. *)
Definition consume (fd n : Z) (v : view) : view :=
  match v_fds v !! fd with
  | Some (OFile c p) => set_fds (insert fd (OFile c (p + n))) v
  | Some (OPipeR p) => set_pipes (alter (dropZ n) p) v
  | _ => v
  end.

Definition deliver (fd : Z) (bs : bytes) (v : view) : view :=
  if fd =? STDOUT_FILENO then emit bs v
  else match v_fds v !! fd with
       | Some (OPipeW p) => set_pipes (alter (λ b, b ++ bs) p) v
       | _ => v
       end.

(** A call that moves up to [len] of the available bytes [a] from [i] to [o]
    without waiting: an error and nothing moved, or at least one byte unless
    there is none. *)
Definition moved (i o len : Z) (a : bytes) (v : view) (n : Z) (v' : view) : Prop :=
  (n = -1 ∧ v' = v) ∨
  (0 ≤ n ≤ len `min` lenZ a ∧ (n = 0 → a = []) ∧
   v' = deliver o (takeZ n a) (consume i n v)).

(** A descriptor of a regular file, with its content and position. *)
Definition is_file (fd : Z) (c : bytes) (p : Z) (v : view) : Prop :=
  v_fds v !! fd = Some (OFile c p) ∧ 0 ≤ p ∧ fd ≠ STDOUT_FILENO.

(** The two ends of an open pipe that holds [b]. *)
Definition is_pipe (r w : Z) (b : bytes) (v : view) : Prop :=
  ∃ p, v_fds v !! r = Some (OPipeR p) ∧ v_fds v !! w = Some (OPipeW p) ∧
       v_pipes v !! p = Some b ∧ w ≠ STDOUT_FILENO.

Class LawfulKernel (W : Type) `{Kernel W} := {
  view_of : W → view;
  write_law d w :
    d ≠ [] →
    wp (sys_write STDOUT_FILENO d) w (returns (λ n w',
      (n = -1 ∧ view_of w' = view_of w) ∨
      (1 ≤ n ≤ lenZ d ∧ view_of w' = emit (takeZ n d) (view_of w))));
  pread_law fd count off c p w :
    is_file fd c p (view_of w) → 0 < count → 0 ≤ off →
    wp (sys_pread fd count off) w (returns (λ '(n, bs) w',
      view_of w' = view_of w ∧
      (n = -1 ∨
       (0 ≤ n ≤ count ∧ n = lenZ bs ∧ bs = takeZ n (dropZ off c) ∧
        (n = 0 → dropZ off c = [])))));
  splice_file_out_law fd c p len w :
    is_file fd c p (view_of w) → 0 < len →
    wp (sys_splice fd STDOUT_FILENO len) w (returns (λ n w',
      moved fd STDOUT_FILENO len (dropZ p c) (view_of w) n (view_of w')));
  splice_file_pipe_law fd c p r q len w :
    is_file fd c p (view_of w) → is_pipe r q [] (view_of w) → 0 < len →
    wp (sys_splice fd q len) w (returns (λ n w',
      moved fd q len (dropZ p c) (view_of w) n (view_of w')));
  splice_pipe_out_law r q b len w :
    is_pipe r q b (view_of w) → b ≠ [] → 0 < len →
    wp (sys_splice r STDOUT_FILENO len) w (returns (λ n w',
      moved r STDOUT_FILENO len b (view_of w) n (view_of w')));
  (** Reading an empty pipe whose write end is open waits. *)
  splice_empty_pipe_law r q len w :
    is_pipe r q [] (view_of w) → 0 < len →
    wp (sys_splice r STDOUT_FILENO len) w (λ o w',
      view_of w' = view_of w ∧ (o = Blocked ∨ o = Done (-1)));
  copy_file_range_law fd c p len w :
    is_file fd c p (view_of w) → 0 < len →
    wp (sys_copy_file_range fd STDOUT_FILENO len) w (returns (λ n w',
      moved fd STDOUT_FILENO len (dropZ p c) (view_of w) n (view_of w')));
  sendfile_law fd c p off count w :
    is_file fd c p (view_of w) → 0 < count → 0 ≤ off →
    wp (sys_sendfile STDOUT_FILENO fd off count) w (returns (λ n w',
      (n = -1 ∧ view_of w' = view_of w) ∨
      (0 ≤ n ≤ count `min` lenZ (dropZ off c) ∧ (n = 0 → dropZ off c = []) ∧
       view_of w' = emit (takeZ n (dropZ off c)) (view_of w))));
  pipe_law w :
    wp sys_pipe w (returns (λ '(n, (r, q)) w',
      (n = -1 ∧ view_of w' = view_of w) ∨
      (n = 0 ∧ 0 ≤ r ∧ 0 ≤ q ∧ r ≠ q ∧ r ≠ STDOUT_FILENO ∧ q ≠ STDOUT_FILENO ∧
       v_fds (view_of w) !! r = None ∧ v_fds (view_of w) !! q = None ∧
       ∃ p, v_pipes (view_of w) !! p = None ∧
            view_of w' = set_pipes (insert p [])
                           (set_fds (λ m, <[r := OPipeR p]> (<[q := OPipeW p]> m))
                              (view_of w)))));
  (** On success the capacity is at least what was asked for. *)
  setpipe_sz_law fd sz w :
    0 < sz < 2 ^ 31 →
    wp (sys_setpipe_sz fd sz) w (returns (λ n w',
      view_of w' = view_of w ∧ (n = -1 ∨ sz ≤ n < 2 ^ 31)));
  (** Opening a regular file; nothing is promised for other paths. *)
  openat_law path flags c w :
    v_fs (view_of w) !! path = Some c →
    wp (sys_openat AT_FDCWD path flags) w (returns (λ n w',
      (n = -1 ∧ view_of w' = view_of w) ∨
      (0 ≤ n ∧ n ≠ STDOUT_FILENO ∧ v_fds (view_of w) !! n = None ∧
       view_of w' = set_fds (insert n (OFile c 0)) (view_of w))));
  close_law fd w :
    wp (sys_close fd) w (returns (λ _ w',
      view_of w' = set_fds (delete fd) (view_of w)));
  statx_file_law fd c p w :
    is_file fd c p (view_of w) →
    wp (sys_statx fd) w (returns (λ '(n, st) w',
      view_of w' = view_of w ∧
      (n = 0 → stx_size st = lenZ c ∧ S_ISREG (stx_mode st) = true)));
  statx_out_law w :
    wp (sys_statx STDOUT_FILENO) w (returns (λ '(n, st) w',
      view_of w' = view_of w ∧ (n = 0 → stx_mode st = v_out_mode (view_of w))));
  fadvise_law fd off len advice w :
    wp (sys_fadvise fd off len advice) w (returns (λ _ w', view_of w' = view_of w));
  (** A terminal is a character device. *)
  isatty_law w :
    wp (sys_isatty STDOUT_FILENO) w (returns (λ n w',
      view_of w' = view_of w ∧
      (n = 0 ∨ n = 1 ∧ S_ISCHR (v_out_mode (view_of w)) = true)));
  mmap_law fd c p size w :
    is_file fd c p (view_of w) →
    wp (sys_mmap size fd) w (returns (λ '(ptr, bs) w',
      view_of w' = view_of w ∧
      (ptr = MAP_FAILED ∨ (0 < ptr < MAP_FAILED ∧ 0 < size ∧ bs = takeZ size c))));
  munmap_law ptr size w :
    wp (sys_munmap ptr size) w (returns (λ _ w', view_of w' = view_of w));
  cout_law d w :
    wp (std_cout d) w (returns (λ _ w', view_of w' = emit d (view_of w)))
}.

(** ** Facts about views *)

Section view_facts.
Implicit Types v : view.

Lemma emit_nil v : emit [] v = v.
Proof. destruct v. unfold emit. simpl. by rewrite app_nil_r. Qed.

Lemma emit_emit a b v : emit b (emit a v) = emit (a ++ b) v.
Proof. destruct v. unfold emit. simpl. by rewrite app_assoc. Qed.

Lemma v_out_emit bs v : v_out (emit bs v) = v_out v ++ bs.
Proof. done. Qed.

Lemma v_out_consume fd n v : v_out (consume fd n v) = v_out v.
Proof. unfold consume. by destruct (v_fds v !! fd) as [[]|]. Qed.

Lemma deliver_out bs v : deliver STDOUT_FILENO bs v = emit bs v.
Proof. done. Qed.

Lemma consume_file fd c p n v :
  v_fds v !! fd = Some (OFile c p) →
  consume fd n v = set_fds (insert fd (OFile c (p + n))) v.
Proof. unfold consume. by intros ->. Qed.

Lemma consume_0 fd c p v : v_fds v !! fd = Some (OFile c p) → consume fd 0 v = v.
Proof.
  intros H. rewrite (consume_file _ c p) by done. destruct v. unfold set_fds. simpl in *.
  by rewrite Z.add_0_r, insert_id.
Qed.

Lemma consume_consume fd c p n m v :
  v_fds v !! fd = Some (OFile c p) →
  consume fd m (consume fd n v) = consume fd (n + m) v.
Proof.
  intros H. rewrite (consume_file _ c p n), (consume_file _ c p (n + m)) by done.
  rewrite (consume_file _ c (p + n)) by (simpl; by rewrite lookup_insert_eq).
  unfold set_fds. simpl. by rewrite insert_insert_eq, Z.add_assoc.
Qed.

Lemma consume_emit fd n bs v : consume fd n (emit bs v) = emit bs (consume fd n v).
Proof. unfold consume. simpl. by destruct (v_fds v !! fd) as [[]|]. Qed.

Lemma is_file_consume fd c p n v :
  is_file fd c p v → 0 ≤ n → is_file fd c (p + n) (consume fd n v).
Proof.
  intros (H & ? & ?) ?. rewrite (consume_file _ c p) by done.
  split_and!; [|lia|done]. simpl. by rewrite lookup_insert_eq.
Qed.

Lemma is_file_emit fd c p bs v : is_file fd c p v → is_file fd c p (emit bs v).
Proof. done. Qed.

Lemma is_pipe_emit r w b bs v : is_pipe r w b v → is_pipe r w b (emit bs v).
Proof. done. Qed.

End view_facts.

#[export] Hint Resolve is_file_consume is_file_emit is_pipe_emit : om.

(** ** Pipes *)

Section pipe_facts.
Implicit Types v : view.

(** Moving the first [n] bytes of a pipe to the standard output. *)
Lemma is_pipe_drain r q b n v :
  is_pipe r q b v →
  is_pipe r q (dropZ n b) (deliver STDOUT_FILENO (takeZ n b) (consume r n v)).
Proof.
  intros (p & Hr & Hq & Hp & Hne). exists p.
  rewrite deliver_out. unfold consume. rewrite Hr. simpl.
  rewrite lookup_alter_eq, Hp. done.
Qed.

(** Filling an empty pipe from a file. *)
Lemma is_pipe_fill fd c p r q bs n v :
  is_file fd c p v → is_pipe r q [] v →
  is_pipe r q bs (deliver q bs (consume fd n v)) ∧
  v_fds (deliver q bs (consume fd n v)) = <[fd := OFile c (p + n)]> (v_fds v) ∧
  v_out (deliver q bs (consume fd n v)) = v_out v.
Proof.
  intros (Hf & _ & _) (pp & Hr & Hq & Hp & Hne).
  rewrite (consume_file _ c p) by done.
  assert (fd ≠ r ∧ fd ≠ q) as [Hfr Hfq] by (split; intros ->; congruence).
  unfold deliver. rewrite (proj2 (Z.eqb_neq _ _)) by done. simpl.
  rewrite lookup_insert_ne, Hq by done. simpl. split; [|done].
  exists pp. simpl. rewrite !lookup_insert_ne, lookup_alter_eq, Hp by done. done.
Qed.

Lemma v_fds_drain r q b bs n v :
  is_pipe r q b v → v_fds (deliver STDOUT_FILENO bs (consume r n v)) = v_fds v.
Proof. intros (p & Hr & _). rewrite deliver_out. unfold consume. by rewrite Hr. Qed.

Lemma v_out_drain r bs n v :
  v_out (deliver STDOUT_FILENO bs (consume r n v)) = v_out v ++ bs.
Proof. rewrite deliver_out, v_out_emit. by rewrite v_out_consume. Qed.

End pipe_facts.
