(* ===== verification/SimKernel.v ===== *)
(** A concrete kernel.

    [sim] is a small executable operating system whose state is the abstract
    view itself and a script of limits: every transfer takes the next limit,
    moves at most that many bytes (at least one), and fails when the limit is
    [-1]; an exhausted script means full transfers. It satisfies every law of
    [LawfulKernel], so the hypotheses of the development can be met, and the
    concrete runs of the program are evaluated on it. *)

From S2P Require Import Prelude Kernel.

Record sim := Sim { s_view : view; s_limits : list Z; s_errno : Z; s_tty : Z }.

Definition set_view (f : view → view) (s : sim) : sim :=
  Sim (f (s_view s)) (s_limits s) (s_errno s) (s_tty s).

(** Take the next limit. *)
Definition next_limit : M sim Z := λ s,
  match s_limits s with
  | [] => (Done (size_max - 1), s)
  | l :: ls => (Done l, Sim (s_view s) ls (s_errno s) (s_tty s))
  end.

Definition set_errno (e : Z) : M sim unit := λ s,
  (Done (), Sim (s_view s) (s_limits s) e (s_tty s)).

Definition get_view : M sim view := λ s, (Done (s_view s), s).

Definition update (f : view → view) : M sim unit := λ s, (Done (), set_view f s).

(** How many of [n] bytes a transfer with limit [l] moves. *)
Definition granted (l n : Z) : Z := (1 `max` l) `min` n.

(** Move up to [len] of the bytes [a], telling [k] how many. *)
Definition transfer (len : Z) (a : bytes) (k : Z → view → view) : M sim Z :=
  l ← next_limit;
  if l =? -1 then _ ← set_errno 5; mret (-1)
  else
    let n := granted l (len `min` lenZ a) in
    _ ← update (k n); mret n.

Definition sim_move (i o len : Z) : M sim Z :=
  v ← get_view;
  match avail i v with
  | None => _ ← set_errno 9; mret (-1)
  | Some a =>
      match v_fds v !! i, a with
      | Some (OPipeR _), [] => λ s, (Blocked, s)
      | _, _ => transfer len a (λ n v, deliver o (takeZ n a) (consume i n v))
      end
  end.

Definition next_key {A} (m : gmap Z A) : Z := 1 + foldr Z.max 2 (map_to_list m).*1.

(** The object a path names: a file of the system, or an entry of an open
    directory; the descriptor [AT_FDCWD] is the working directory. *)
Definition entry_named (name : string) (d : directory) : option object :=
  snd <$> List.find (λ e, bool_decide (e.1 = name)) (concat d).

Definition named_at (dir : Z) (path : string) (v : view) : option fdobj :=
  match (if dir =? AT_FDCWD then v_fs v !! path else None), v_fds v !! dir with
  | Some c, _ => Some (OFile c 0)
  | None, Some (ODir all _) => entry_named path all ≫= open_object
  | None, _ => None
  end.

#[global] Instance sim_kernel : Kernel sim := {|
  sys_write fd d :=
    if fd =? STDOUT_FILENO then transfer (lenZ d) d (λ n, emit (takeZ n d))
    else (_ ← set_errno 9; mret (-1));
  sys_pread fd count off :=
    v ← get_view;
    match v_fds v !! fd with
    | Some (OFile c _) =>
        l ← next_limit;
        if l =? -1 then _ ← set_errno 5; mret (-1, [])
        else let bs := takeZ (granted l (count `min` lenZ (dropZ off c))) (dropZ off c) in
             mret (lenZ bs, bs)
    | _ => _ ← set_errno 9; mret (-1, [])
    end;
  sys_splice i o len := sim_move i o len;
  sys_copy_file_range i o len := sim_move i o len;
  sys_sendfile o i off count :=
    v ← get_view;
    match v_fds v !! i with
    | Some (OFile c _) =>
        transfer count (dropZ off c) (λ n, deliver o (takeZ n (dropZ off c)))
    | _ => _ ← set_errno 9; mret (-1)
    end;
  sys_pipe :=
    v ← get_view;
    let r := next_key (v_fds v) in
    let p := next_key (v_pipes v) in
    _ ← update (λ v, set_pipes (insert p [])
                  (set_fds (λ m, <[r := OPipeR p]> (<[r + 1 := OPipeW p]> m)) v));
    mret (0, (r, r + 1));
  sys_setpipe_sz fd sz := mret (if (0 <? sz) && (sz <? 2 ^ 31) then sz else -1);
  sys_openat dir path flags :=
    v ← get_view;
    match named_at dir path v with
    | Some o =>
        let fd := next_key (v_fds v) in
        _ ← update (set_fds (insert fd o)); mret fd
    | None => _ ← set_errno 2; mret (-1)
    end;
  sys_close fd := _ ← update (set_fds (delete fd)); mret 0;
  sys_statx fd :=
    v ← get_view;
    if fd =? STDOUT_FILENO then mret (0, Statx 0 (v_out_mode v))
    else match v_fds v !! fd with
         | Some (OFile c _) => mret (0, Statx (lenZ c) 33188)
         | _ => _ ← set_errno 9; mret (-1, Statx 0 0)
         end;
  sys_fadvise fd off len advice := mret 0;
  sys_isatty fd := λ s,
    (Done (if (s_tty s =? 1) && S_ISCHR (v_out_mode (s_view s)) then 1 else 0), s);
  sys_mmap size fd :=
    v ← get_view;
    match v_fds v !! fd with
    | Some (OFile c _) =>
        l ← next_limit;
        if (l =? -1) || (size <=? 0) then _ ← set_errno 22; mret (MAP_FAILED, [])
        else mret (4096, takeZ size c)
    | _ => _ ← set_errno 9; mret (MAP_FAILED, [])
    end;
  sys_munmap ptr size := mret 0;
  std_cout d := update (emit d);
  errno := s_errno;
  strerror e := "errno " +:+ pretty e
|}.

Lemma next_key_fresh {A} (m : gmap Z A) k : next_key m ≤ k → m !! k = None ∧ 3 ≤ k.
Proof.
  intros Hk.
  assert (Hmax : ∀ l x, x ∈ l → x ≤ foldr Z.max 2 l).
  { intros l. induction l as [|y l IH]; intros x; [by rewrite elem_of_nil|].
    rewrite elem_of_cons. simpl. intros [->|?%IH]; lia. }
  assert (H2 : ∀ l, 2 ≤ foldr Z.max 2 l).
  { intros l. induction l; simpl; lia. }
  unfold next_key in Hk. split.
  - destruct (m !! k) as [a|] eqn:E; [|done].
    assert (k ∈ (map_to_list m).*1) as Hin.
    { apply list_elem_of_fmap. exists (k, a). by rewrite elem_of_map_to_list. }
    apply Hmax in Hin. lia.
  - specialize (H2 (map_to_list m).*1). lia.
Qed.

Lemma transfer_law len a k (s : sim) :
  0 < len →
  wp (transfer len a k) s (returns (λ n s',
    (n = -1 ∧ s_view s' = s_view s) ∨
    (0 ≤ n ≤ len `min` lenZ a ∧ (n = 0 → a = []) ∧ s_view s' = k n (s_view s)))).
Proof.
  intros Hlen. unfold transfer, wp, mbind, M_bind, next_limit, granted.
  destruct s as [v [|l ls] e t]; simpl; [|destruct (Z.eqb_spec l (-1)); simpl; [auto|]];
    right; pose proof (lenZ_nonneg a); (split_and!; [lia|lia| |done]);
    intros; apply lenZ_nil_inv; lia.
Qed.

Lemma sim_move_law i o len a (s : sim) :
  avail i (s_view s) = Some a → 0 < len →
  (a ≠ [] ∨ ∃ c p, v_fds (s_view s) !! i = Some (OFile c p)) →
  wp (sim_move i o len) s (returns (λ n s', moved i o len a (s_view s) n (s_view s'))).
Proof.
  intros Ha Hlen Hne. unfold sim_move, wp, mbind, M_bind, get_view. simpl. rewrite Ha.
  pose proof (transfer_law len a (λ n v, deliver o (takeZ n a) (consume i n v)) s Hlen) as Ht.
  destruct (v_fds (s_view s) !! i) as [[]|], a; try exact Ht.
  destruct Hne as [|(c & q & ?)]; congruence.
Qed.

#[global] Instance sim_lawful : LawfulKernel sim.
Proof.
  refine (Build_LawfulKernel _ _ s_view _ _ _ _ _ _ _ _ _ _ _ _ _ _ _ _ _ _ _).
  - intros d s Hd. simpl. eapply wp_returns_mono.
    { apply transfer_law. destruct d; [done|range]. }
    intros n s' [?|(Hn & H0 & ?)]; [auto|].
    right. split; [|done]. destruct (decide (n = 0)) as [->|]; [by destruct (Hd (H0 eq_refl))|lia].
  - intros fd count off c p s [Hf _] Hcount Hoff. simpl.
    unfold wp, mbind, M_bind, get_view, next_limit. simpl. rewrite Hf.
    pose proof (lenZ_nonneg (dropZ off c)).
    destruct s as [v [|l ls] e t]; simpl in *;
      [|destruct (Z.eqb_spec l (-1)); simpl; [auto|]]; (split; [done|right]).
    all: unfold granted; rewrite lenZ_takeZ by lia; split_and!; try lia; [f_equal; lia|].
    all: intros; apply lenZ_nil_inv; lia.
  - intros fd c p len s [Hf ?] Hlen. apply sim_move_law; [unfold avail; by rewrite Hf|done|eauto].
  - intros fd c p r q len s [Hf ?] _ Hlen.
    apply sim_move_law; [unfold avail; by rewrite Hf|done|eauto].
  - intros r q b len s (p & Hr & _ & Hb & _) Hne Hlen.
    apply sim_move_law; [unfold avail; by rewrite Hr|done|auto].
  - intros r q len s (p & Hr & _ & Hb & _) Hlen. simpl.
    unfold sim_move, wp, mbind, M_bind, get_view, avail. simpl. rewrite Hr, Hb. auto.
  - intros fd c p len s [Hf ?] Hlen. apply sim_move_law; [unfold avail; by rewrite Hf|done|eauto].
  - intros fd c p off count s [Hf _] Hc Hoff. simpl.
    unfold wp, mbind, M_bind, get_view. simpl. rewrite Hf.
    apply (transfer_law count (dropZ off c)
             (λ n, deliver STDOUT_FILENO (takeZ n (dropZ off c))) s Hc).
  - intros s. unfold wp. simpl. right.
    pose proof (next_key_fresh (v_fds (s_view s)) _ (Z.le_refl _)) as [? ?].
    pose proof (next_key_fresh (v_fds (s_view s)) (next_key (v_fds (s_view s)) + 1)
                  ltac:(lia)) as [? ?].
    pose proof (next_key_fresh (v_pipes (s_view s)) _ (Z.le_refl _)) as [? ?].
    unfold STDOUT_FILENO. split_and!; try done; try lia. eauto.
  - intros fd sz s Hsz. simpl. apply wp_ret. simpl. split; [done|].
    destruct (Z.ltb_spec 0 sz), (Z.ltb_spec sz (2 ^ 31)); simpl; auto with lia.
  - intros path flags c s Hc. unfold wp. simpl. unfold mbind, M_bind, get_view. simpl.
    unfold named_at. simpl. rewrite Hc. simpl. right.
    pose proof (next_key_fresh (v_fds (s_view s)) _ (Z.le_refl _)) as [? ?].
    unfold STDOUT_FILENO. split_and!; try done; try lia.
  - done.
  - intros fd c p s (Hf & _ & Hne). unfold wp. simpl. unfold mbind, M_bind, get_view. simpl.
    destruct (Z.eqb_spec fd STDOUT_FILENO); [done|]. by rewrite Hf.
  - done.
  - done.
  - intros s. unfold wp. simpl. split; [done|].
    destruct (s_tty s =? 1), (S_ISCHR (v_out_mode (s_view s))); simpl; auto.
  - intros fd c p size s [Hf _]. unfold wp. simpl.
    unfold mbind, M_bind, get_view, next_limit. simpl. rewrite Hf.
    destruct s as [v [|l ls] e t]; simpl in *.
    + destruct (Z.leb_spec size 0); simpl; (split; [done|]); [auto|]. right. done.
    + destruct (Z.eqb_spec l (-1)), (Z.leb_spec size 0); simpl; (split; [done|]); auto.
      right. done.
  - done.
  - done.
Defined.

(** ** A kernel without short transfers

    The same operating system with its script of limits thrown away before
    every call: every transfer is as large as the data allows. *)
Record eager := Eager { e_sim : sim }.

Definition unlimited (s : sim) : sim := Sim (s_view s) [] (s_errno s) (s_tty s).

Definition eagerly {A} (m : M sim A) : M eager A := λ e,
  ((m (unlimited (e_sim e))).1, Eager (m (unlimited (e_sim e))).2).

#[global] Instance eager_kernel : Kernel eager := {|
  sys_write fd d := eagerly (sys_write fd d);
  sys_pread fd count off := eagerly (sys_pread fd count off);
  sys_splice i o len := eagerly (sys_splice i o len);
  sys_copy_file_range i o len := eagerly (sys_copy_file_range i o len);
  sys_sendfile o i off count := eagerly (sys_sendfile o i off count);
  sys_pipe := eagerly sys_pipe;
  sys_setpipe_sz fd sz := eagerly (sys_setpipe_sz fd sz);
  sys_openat dir path flags := eagerly (sys_openat dir path flags);
  sys_close fd := eagerly (sys_close fd);
  sys_statx fd := eagerly (sys_statx fd);
  sys_fadvise fd off len advice := eagerly (sys_fadvise fd off len advice);
  sys_isatty fd := eagerly (sys_isatty fd);
  sys_mmap size fd := eagerly (sys_mmap size fd);
  sys_munmap ptr size := eagerly (sys_munmap ptr size);
  std_cout d := eagerly (std_cout d);
  errno e := s_errno (e_sim e);
  strerror e := strerror (W := sim) e
|}.

Lemma wp_eagerly {A} (m : M sim A) e (P : A → eager → Prop) :
  wp m (unlimited (e_sim e)) (returns (λ a s, P a (Eager s))) → wp (eagerly m) e (returns P).
Proof. unfold wp, eagerly. simpl. by destruct (m _) as [[] s]. Qed.

(** A law of [sim] is a law of [eager]. *)
Ltac eager_law H :=
  apply wp_eagerly; eapply wp_returns_mono; [by apply H
    |let a := fresh in let Ha := fresh in intros a ? Ha;
     repeat match type of a with (_ * _)%type => destruct a as [? a] end; exact Ha].

#[global] Instance eager_lawful : LawfulKernel eager.
Proof.
  refine (Build_LawfulKernel _ _ (λ e, s_view (e_sim e)) _ _ _ _ _ _ _ _ _ _ _ _ _ _ _ _ _ _ _);
    intros.
  - eager_law (write_law d (unlimited (e_sim w))).
  - eager_law (pread_law fd count off c p (unlimited (e_sim w))).
  - eager_law (splice_file_out_law fd c p len (unlimited (e_sim w))).
  - eager_law (splice_file_pipe_law fd c p r q len (unlimited (e_sim w))).
  - eager_law (splice_pipe_out_law r q b len (unlimited (e_sim w))).
  - exact (splice_empty_pipe_law r q len (unlimited (e_sim w)) H H0).
  - eager_law (copy_file_range_law fd c p len (unlimited (e_sim w))).
  - eager_law (sendfile_law fd c p off count (unlimited (e_sim w))).
  - eager_law (pipe_law (unlimited (e_sim w))).
  - eager_law (setpipe_sz_law fd sz (unlimited (e_sim w))).
  - eager_law (openat_law path flags c (unlimited (e_sim w))).
  - eager_law (close_law fd (unlimited (e_sim w))).
  - eager_law (statx_file_law fd c p (unlimited (e_sim w))).
  - eager_law (statx_out_law (unlimited (e_sim w))).
  - eager_law (fadvise_law fd off len advice (unlimited (e_sim w))).
  - eager_law (isatty_law (unlimited (e_sim w))).
  - eager_law (mmap_law fd c p size (unlimited (e_sim w))).
  - eager_law (munmap_law ptr size (unlimited (e_sim w))).
  - eager_law (cout_law d (unlimited (e_sim w))).
Defined.

Lemma eager_splice fd c p q len (w : eager) :
  is_file fd c p (view_of w) → 0 < len → lenZ c < size_max →
  wp (sys_splice fd q len) w (returns (λ n _, n = len `min` lenZ (dropZ p c))).
Proof.
  intros (Hf & Hp & _) Hlen Hc. apply wp_eagerly. simpl.
  unfold wp, sim_move, mbind, M_bind, get_view, avail. simpl in *. rewrite Hf.
  pose proof (lenZ_dropZ p c Hp). pose proof (lenZ_nonneg c).
  simpl. unfold granted. unfold size_max in *. lia.
Qed.
