(* ===== verification/Nodes.v ===== *)
(** How the nodes of a pipeline call each other.

    A node of the C++ pipelines is a struct with call operators; the template
    parameter [Next] is the node it passes its output on to. Each overload a
    node calls on its [Next] is a class here, so a transform is defined and
    verified against the interface of its successor, and the sinks discharge
    it. A call may change the node (the batch buffer), so it returns the new
    node beside its [std::expected<std::size_t, std::string>]. *)

From S2P Require Import Prelude Kernel.

(** [next(std::span<const std::byte>)] *)
Class SpanConsumer (W N : Type) := call_span : N → bytes → M W (N * expected Z).

(** [next(std::string_view)] *)
Class ViewConsumer (W N : Type) := call_view : N → bytes → M W (N * expected Z).

(** [next(std::string_view, bool force_newline)] *)
Class LineConsumer (W N : Type) := call_line : N → bytes → bool → M W (N * expected Z).

(** [next(int fd, std::size_t size, std::size_t offset)] *)
Class FdConsumer (W N : Type) := call_fd : N → Z → Z → Z → M W (N * expected Z).

(** The bytes a node has accepted and not yet passed on. *)
Class Pending (N : Type) := pending : N → bytes.

(** A stage that keeps every byte it is given: what a call puts on the
    standard output, followed by what the node still holds, is what it held
    before followed by the data. When the call fails, the standard output has
    received a prefix of that. *)
Definition appends {W N} `{LawfulKernel W} `{Pending N} (n : N) (d : bytes) (w : W)
    (r : N * expected Z) (w' : W) : Prop :=
  ∃ bs, view_of w' = emit bs (view_of w) ∧
        match r.2 with
        | Value _ => bs ++ pending r.1 = pending n ++ d
        | Unexpected _ => bs `prefix_of` pending n ++ d
        end.

(** Enough rounds for one call of a byte consumer. *)
Definition enough {N} `{Pending N} {F : Fuel} (n : N) (d : bytes) : Prop :=
  (length (pending n) + length d < fuel)%nat ∧ lenZ (pending n) + lenZ d < size_max.

Class LawfulSpan (W N : Type) `{LawfulKernel W} `{SpanConsumer W N} `{Pending N} {F : Fuel} :=
  call_span_law (n : N) (d : bytes) (w : W) :
    enough n d → wp (call_span n d) w (returns (appends n d w)).

Class LawfulView (W N : Type) `{LawfulKernel W} `{ViewConsumer W N} `{Pending N} {F : Fuel} :=
  call_view_law (n : N) (d : bytes) (w : W) :
    enough n d → wp (call_view n d) w (returns (appends n d w)).

(** The two-argument overload, when no newline is asked for. *)
Class LawfulLine (W N : Type) `{LawfulKernel W} `{LineConsumer W N} `{Pending N} {F : Fuel} :=
  call_line_law (n : N) (d : bytes) (w : W) :
    enough n d → wp (call_line n d false) w (returns (appends n d w)).

(** ** Draining a pipe

    The middleman source fills a pipe and asks its successor to move the
    bytes on. A successor that drains pipes moves everything a pipe holds to
    the standard output when it is asked for exactly that much; asked for
    more than the pipe holds, it never reports success. *)
Definition drained (r q : Z) (b : bytes) (v v' : view) : Prop :=
  is_pipe r q [] v' ∧ v_out v' = v_out v ++ b ∧ v_fds v' = v_fds v.

Class LawfulDrain (W N : Type) `{LawfulKernel W} `{FdConsumer W N} {F : Fuel} := {
  call_fd_exact (n : N) (r q : Z) (b : bytes) (off : Z) (w : W) :
    is_pipe r q b (view_of w) → (length b < fuel)%nat → lenZ b < size_max →
    wp (call_fd n r (lenZ b) off) w (returns (λ '(n', res) w',
      match res with
      | Value k => k = lenZ b ∧ drained r q b (view_of w) (view_of w')
      | Unexpected _ =>
          ∃ k, v_out (view_of w') = v_out (view_of w) ++ takeZ k b ∧
               v_fds (view_of w') = v_fds (view_of w)
      end));
  call_fd_short (n : N) (r q : Z) (b : bytes) (size off : Z) (w : W) :
    is_pipe r q b (view_of w) → (length b < fuel)%nat → lenZ b < size < size_max →
    wp (call_fd n r size off) w (λ o w', ∀ n' k, o ≠ Done (n', Value k))
}.
