(* ===== verification/AutoRelease.v ===== *)
(** utils/auto_release.h, utils/fd_closer.h and utils/auto_map.h: owners that
    release what they own when they go out of scope.

    [AutoRelease<T, D, Invalid>] is modelled as objects in a store: a live
    object is an address with its [obj_]. Every special member function is an
    operation on the store, undefined ([None]) on a dead object, and the calls
    of the deleter are recorded in order. *)

From S2P Require Import Prelude Kernel.

Section owners.
Context {T : Type} `{EqDecision T} (Invalid : T).

Record store := Store { objs : gmap Z T; deleted : list T }.

(** [deleter_(obj_)], guarded by [obj_ != Invalid]. *)
Definition release (obj : T) (s : store) : store :=
  if decide (obj = Invalid) then s else Store (objs s) (deleted s ++ [obj]).

Definition set_obj (l : Z) (obj : T) (s : store) : store :=
  Store (<[l := obj]> (objs s)) (deleted s).

Definition erase (l : Z) (s : store) : store := Store (delete l (objs s)) (deleted s).

(** [AutoRelease(T obj)] at a new address. *)
Definition ctor (l : Z) (obj : T) (s : store) : option store :=
  match objs s !! l with
  | Some _ => None
  | None => Some (set_obj l obj s)
  end.

(** [AutoRelease()] *)
Definition default_ctor (l : Z) (s : store) : option store := ctor l Invalid s.

(** [~AutoRelease()] *)
Definition dtor (l : Z) (s : store) : option store :=
  obj ← objs s !! l;
  Some (erase l (release obj s)).

(** [swap(AutoRelease &other)] *)
Definition swap (l other : Z) (s : store) : option store :=
  a ← objs s !! l;
  b ← objs s !! other;
  Some (set_obj other a (set_obj l b s)).

(** [AutoRelease(AutoRelease &&other)]: delegate to the default constructor,
    then swap. *)
Definition move_ctor (l other : Z) (s : store) : option store :=
  s ← default_ctor l s;
  swap l other s.

(** An address no live object has, for the temporary of the assignment. *)
Definition fresh_loc (s : store) : Z := fresh (dom (objs s)).

(** [operator=(AutoRelease &&other)] *)
Definition move_assign (l other : Z) (s : store) : option store :=
  let new_obj := fresh_loc s in
  s ← move_ctor new_obj other s;
  s ← swap l new_obj s;
  dtor new_obj s.

(** [reset(T obj)] *)
Definition reset (l : Z) (obj : T) (s : store) : option store :=
  old ← objs s !! l;
  Some (set_obj l obj (release old s)).

(** [get()] and [operator T()] *)
Definition get (l : Z) (s : store) : option T := objs s !! l.

(** [explicit operator bool()] *)
Definition to_bool (l : Z) (s : store) : option bool :=
  obj ← objs s !! l;
  Some (bool_decide (obj ≠ Invalid)).

(** A store through the pointer [operator&] hands out. *)
Definition store_through (l : Z) (obj : T) (s : store) : option store :=
  _ ← objs s !! l;
  Some (set_obj l obj s).

(** The operations as data, to talk about whole programs. *)
Inductive op :=
  | Ctor (l : Z) (obj : T)
  | DefaultCtor (l : Z)
  | Dtor (l : Z)
  | Swap (l other : Z)
  | MoveCtor (l other : Z)
  | MoveAssign (l other : Z)
  | Reset (l : Z) (obj : T).

Definition exec (o : op) (s : store) : option store :=
  match o with
  | Ctor l obj => ctor l obj s
  | DefaultCtor l => default_ctor l s
  | Dtor l => dtor l s
  | Swap l other => swap l other s
  | MoveCtor l other => move_ctor l other s
  | MoveAssign l other => move_assign l other s
  | Reset l obj => reset l obj s
  end.

Fixpoint run (os : list op) (s : store) : option store :=
  match os with
  | [] => Some s
  | o :: os => s ← exec o s; run os s
  end.

(** What an operation hands over to the owners. *)
Definition valid (objs : list T) : list T := filter (λ obj, obj ≠ Invalid) objs.

Definition taken (o : op) : list T :=
  match o with
  | Ctor _ obj | Reset _ obj => valid [obj]
  | _ => []
  end.

Definition acquired (os : list op) : list T := os ≫= taken.

(** What the live objects own. *)
Definition owned (s : store) : list T := valid (map_to_list (objs s)).*2.

Definition init : store := Store ∅ [].

(** *** Ownership is conserved *)

Lemma valid_app a b : valid (a ++ b) = valid a ++ valid b.
Proof. apply filter_app. Qed.

#[local] Instance valid_proper : Proper ((≡ₚ) ==> (≡ₚ)) valid.
Proof. intros a b Hab. unfold valid. by rewrite Hab. Qed.

Lemma owned_insert l obj m d :
  m !! l = None → owned (Store (<[l := obj]> m) d) ≡ₚ valid [obj] ++ owned (Store m d).
Proof.
  intros Hl. unfold owned. simpl. rewrite map_to_list_insert by done.
  simpl. by rewrite <- valid_app.
Qed.

Lemma owned_lookup l obj m d :
  m !! l = Some obj → owned (Store m d) ≡ₚ valid [obj] ++ owned (Store (delete l m) d).
Proof.
  intros Hl. rewrite <- (owned_insert l obj) by apply lookup_delete_eq.
  by rewrite insert_delete_id.
Qed.

Lemma owned_set l obj old s :
  objs s !! l = Some old →
  valid [old] ++ owned (set_obj l obj s) ≡ₚ valid [obj] ++ owned s.
Proof.
  destruct s as [m d]. unfold set_obj. simpl. intros Hl.
  rewrite <- insert_delete_eq, owned_insert by apply lookup_delete_eq.
  rewrite (owned_lookup l old m) by done.
  by rewrite !(assoc_L (++)), (Permutation_app_comm (valid [old])).
Qed.

Lemma deleted_release obj s : deleted (release obj s) = deleted s ++ valid [obj].
Proof.
  unfold release, valid. case_decide; simpl.
  - rewrite filter_cons_False by naive_solver. by rewrite app_nil_r.
  - by rewrite filter_cons_True by done.
Qed.

Lemma objs_release obj s : objs (release obj s) = objs s.
Proof. unfold release. by case_decide. Qed.

(** Everything the owners have been given and have not yet released, beside
    what they have released. *)
Definition holdings (s : store) : list T := owned s ++ deleted s.

Lemma valid_Invalid : valid [Invalid] = [].
Proof. unfold valid. rewrite filter_cons_False; naive_solver. Qed.

Lemma ctor_holdings l obj s s' :
  ctor l obj s = Some s' → holdings s' ≡ₚ valid [obj] ++ holdings s.
Proof.
  unfold ctor. destruct (objs s !! l) eqn:E; [done|]. intros [= <-].
  unfold holdings, set_obj. simpl. destruct s as [m d]. simpl in *.
  by rewrite owned_insert, (assoc_L (++)).
Qed.

Lemma dtor_holdings l s s' : dtor l s = Some s' → holdings s' ≡ₚ holdings s.
Proof.
  unfold dtor. destruct (objs s !! l) as [obj|] eqn:E; simpl; [|done]. intros [= <-].
  unfold holdings. simpl. rewrite deleted_release.
  destruct s as [m d]. simpl in *. rewrite (owned_lookup l obj m) by done.
  unfold erase. rewrite objs_release. simpl.
  assert (∀ d', owned (Store (delete l m) d') = owned (Store (delete l m) d)) as -> by done.
  by rewrite (Permutation_app_comm (valid [obj])), (Permutation_app_comm d), !(assoc_L (++)).
Qed.

Lemma swap_holdings l k s s' : swap l k s = Some s' → holdings s' ≡ₚ holdings s.
Proof.
  unfold swap. destruct (objs s !! l) as [a|] eqn:Ea; simpl; [|done].
  destruct (objs s !! k) as [b|] eqn:Eb; simpl; [|done]. intros [= <-].
  unfold holdings. simpl. apply Permutation_app; [|done].
  pose proof (owned_set l b a s Ea) as H1.
  assert (objs (set_obj l b s) !! k = Some b) as Hk.
  { simpl. rewrite lookup_insert. case_decide; by simplify_eq. }
  pose proof (owned_set k a b (set_obj l b s) Hk) as H2.
  apply (Permutation_app_inv_l (valid [b])). by rewrite H2, H1.
Qed.

Lemma move_ctor_holdings l k s s' : move_ctor l k s = Some s' → holdings s' ≡ₚ holdings s.
Proof.
  unfold move_ctor. destruct (default_ctor l s) as [s1|] eqn:E1; simpl; [|done].
  intros ->%swap_holdings. apply ctor_holdings in E1. by rewrite E1, valid_Invalid.
Qed.

Lemma move_assign_holdings l k s s' :
  move_assign l k s = Some s' → holdings s' ≡ₚ holdings s.
Proof.
  unfold move_assign. destruct (move_ctor _ k s) as [s1|] eqn:E1; simpl; [|done].
  destruct (swap l _ s1) as [s2|] eqn:E2; simpl; [|done].
  intros ->%dtor_holdings. apply move_ctor_holdings in E1. apply swap_holdings in E2.
  by rewrite E2.
Qed.

Lemma reset_holdings l obj s s' :
  reset l obj s = Some s' → holdings s' ≡ₚ valid [obj] ++ holdings s.
Proof.
  unfold reset. destruct (objs s !! l) as [old|] eqn:E; simpl; [|done]. intros [= <-].
  unfold holdings, set_obj. simpl. rewrite deleted_release, objs_release.
  pose proof (owned_set l obj old s E) as H1. unfold set_obj, owned in *. simpl in *.
  rewrite (Permutation_app_comm (deleted s)), !(assoc_L (++)), <- H1.
  by rewrite (Permutation_app_comm (valid [old])).
Qed.

Lemma exec_holdings o s s' :
  exec o s = Some s' → holdings s' ≡ₚ taken o ++ holdings s.
Proof.
  destruct o; simpl.
  - apply ctor_holdings.
  - intros ->%ctor_holdings. by rewrite valid_Invalid.
  - apply dtor_holdings.
  - apply swap_holdings.
  - apply move_ctor_holdings.
  - apply move_assign_holdings.
  - apply reset_holdings.
Qed.

Lemma run_holdings os s s' :
  run os s = Some s' → holdings s' ≡ₚ acquired os ++ holdings s.
Proof.
  revert s. induction os as [|o os IH]; intros s; simpl; [by intros [= ->]|].
  destruct (exec o s) as [s1|] eqn:E; simpl; [|done].
  intros ->%IH. rewrite (exec_holdings _ _ _ E). unfold acquired. simpl.
  by rewrite (assoc_L (++)), (Permutation_app_comm _ (taken o)).
Qed.

Lemma fresh_loc_fresh s : objs s !! fresh_loc s = None.
Proof. apply not_elem_of_dom. unfold fresh_loc. apply is_fresh. Qed.

Lemma swap_eq l k a b s :
  objs s !! l = Some a → objs s !! k = Some b →
  swap l k s = Some (set_obj k a (set_obj l b s)).
Proof. intros Hl Hk. unfold swap. rewrite Hl. simpl. by rewrite Hk. Qed.

Lemma move_ctor_eq l k b s :
  objs s !! l = None → objs s !! k = Some b →
  move_ctor l k s = Some (set_obj k Invalid (set_obj l b (set_obj l Invalid s))).
Proof.
  intros Hl Hk. unfold move_ctor, default_ctor, ctor. rewrite Hl. simpl.
  apply swap_eq; simpl; [apply lookup_insert_eq|].
  rewrite lookup_insert_ne by congruence. done.
Qed.

Lemma dtor_eq l a s : objs s !! l = Some a → dtor l s = Some (erase l (release a s)).
Proof. intros Hl. unfold dtor. by rewrite Hl. Qed.

Lemma set_obj_lookup l k a s :
  objs (set_obj l a s) !! k = if decide (l = k) then Some a else objs s !! k.
Proof. simpl. apply lookup_insert. Qed.

(** The store a move assignment leaves, for any two live objects. *)
Lemma move_assign_eq l k a b s :
  objs s !! l = Some a → objs s !! k = Some b →
  move_assign l k s =
    Some (if decide (l = k) then s
          else Store (<[l := b]> (<[k := Invalid]> (objs s))) (deleted s ++ valid [a])).
Proof.
  intros Hl Hk. pose proof (fresh_loc_fresh s) as Hn. unfold move_assign.
  set (n := fresh_loc s) in *. clearbody n.
  assert (n ≠ l ∧ n ≠ k) as [Hnl Hnk] by (split; intros ->; congruence).
  rewrite (move_ctor_eq n k b) by done. cbn [mbind option_bind].
  rewrite (swap_eq l n (if decide (k = l) then Invalid else a) b).
  2: { rewrite !set_obj_lookup. repeat case_decide; simplify_eq; done. }
  2: { rewrite !set_obj_lookup. repeat case_decide; simplify_eq; done. }
  cbn [mbind option_bind].
  rewrite (dtor_eq n (if decide (k = l) then Invalid else a)).
  2: { rewrite !set_obj_lookup. repeat case_decide; simplify_eq; done. }
  f_equal. unfold erase. rewrite deleted_release, objs_release. cbn [set_obj deleted].
  destruct s as [m d]. simpl in *.
  destruct (decide (k = l)) as [Heq|Hne].
  - subst k. simplify_eq. rewrite decide_True by done. f_equal.
    2: by rewrite valid_Invalid, app_nil_r.
    apply map_eq; intros i; rewrite lookup_delete, !lookup_insert;
      repeat case_decide; by simplify_eq.
  - rewrite decide_False by congruence. f_equal. apply map_eq; intros i; rewrite lookup_delete, !lookup_insert;
    repeat case_decide; by simplify_eq.
Qed.

End owners.

(** ** Owners as local variables

    A local [AutoRelease<int, FdCloser, -1>] or [AutoMap] runs its destructor
    when its scope is left, by a return or by an exception. *)
Section scopes.
Context {W : Type} `{Kernel W}.

Definition finally {A} (m : M W A) (cleanup : M W unit) : M W A := λ w,
  match m w with
  | (Done a, w') => (_ ← cleanup; mret a) w'
  | (Throws e, w') => (_ ← cleanup; throw e) w'
  | r => r
  end.

(** The same for an owner that is moved into the result: only an exception
    finds it still holding the resource. *)
Definition unwinding {A} (m : M W A) (cleanup : M W unit) : M W A := λ w,
  match m w with
  | (Throws e, w') => (_ ← cleanup; throw e) w'
  | r => r
  end.

(** [FdCloser::operator()] *)
Definition FdCloser (fd : Z) : M W unit := _ ← sys_close fd; mret ().

(** The destructor of [AutoRelease<int, FdCloser, -1>]. *)
Definition fd_dtor (fd : Z) : M W unit := if fd =? -1 then mret () else FdCloser fd.

(** The destructor of [AutoMap]. *)
Definition AutoMap_dtor (map size : Z) : M W unit :=
  if map =? 0 then mret () else _ ← sys_munmap map size; mret ().

Lemma wp_finally {A} (m : M W A) cleanup w (Q : outcome A → W → Prop) :
  wp m w (λ o w', match o with
                  | Done _ | Throws _ => wp cleanup w' (returns (λ _ w'', Q o w''))
                  | _ => Q o w'
                  end) →
  wp (finally m cleanup) w Q.
Proof.
  unfold wp, finally. destruct (m w) as [[a|e| | |] w']; simpl; try done;
    unfold mbind, M_bind; by destruct (cleanup w') as [[] w''].
Qed.

Lemma wp_unwinding {A} (m : M W A) cleanup w (Q : outcome A → W → Prop) :
  wp m w (λ o w', match o with
                  | Throws _ => wp cleanup w' (returns (λ _ w'', Q o w''))
                  | _ => Q o w'
                  end) →
  wp (unwinding m cleanup) w Q.
Proof.
  unfold wp, unwinding. destruct (m w) as [[a|e| | |] w']; simpl; try done;
    unfold mbind, M_bind; by destruct (cleanup w') as [[] w''].
Qed.

End scopes.

Lemma fd_dtor_law {W} `{LawfulKernel W} fd (w : W) :
  0 ≤ fd → wp (fd_dtor fd) w (returns (λ _ w', view_of w' = set_fds (delete fd) (view_of w))).
Proof.
  intros Hfd. unfold fd_dtor. destruct (Z.eqb_spec fd (-1)); [lia|].
  unfold FdCloser. apply wp_bind_returns. eapply wp_returns_mono; [apply close_law|].
  intros; by apply wp_ret.
Qed.


