(* ===== verification/Pipeline.v ===== *)
(** concepts/concepts.h and pipeline/pipeline.h: how stages are composed into
    a pipeline of nodes, and how a pipeline is run.

    The C++ types are a tree of templates; here a stage is a value of [stage]
    and the node it builds a value of [node]. The [label] of a node says which
    template it is and carries its state, so the model covers every pipeline
    the templates can express. *)

From S2P Require Import Prelude Kernel Nodes.

Section pipeline.
Context {label : Type}.

(** The tag types [impl::Source], [impl::Transform] and [impl::Sink]. *)
Inductive kind := KSource | KTransform | KSink.

(** A node with its [next] member; a sink has none. *)
Inductive node := mkNode (l : label) (next : option node).

(** [BaseNode<T, Node, State>] with its tag and state, and
    [impl::Composed<L, R>]. *)
Inductive stage :=
  | Base (k : kind) (l : label)
  | Composed (lhs rhs : stage).

(** The concepts [IsSource], [IsTransform], [IsSink] and [Composable];
    [Composed] derives from both [Source] and [Transform]. *)
Definition IsSource (s : stage) : bool :=
  match s with Base KSource _ | Composed _ _ => true | _ => false end.

Definition IsTransform (s : stage) : bool :=
  match s with Base KTransform _ | Composed _ _ => true | _ => false end.

Definition IsSink (s : stage) : bool :=
  match s with Base KSink _ => true | _ => false end.

Definition Composable (s : stage) : bool := IsSource s || IsTransform s || IsSink s.

(** [operator()(Next next)] of [BaseNode] and of [Composed]. *)
Fixpoint attach (s : stage) (next : node) : node :=
  match s with
  | Base _ l => mkNode l (Some next)
  | Composed lhs rhs => attach lhs (attach rhs next)
  end.

(** [operator()()], which only sinks have. *)
Definition make_sink (s : stage) : option node :=
  match s with
  | Base KSink l => Some (mkNode l None)
  | _ => None
  end.

(** [left | right]: a finished pipeline when [right] is a sink, a stage
    otherwise. *)
Definition pipe (lhs rhs : stage) : stage + node :=
  match make_sink rhs with
  | Some sink => inr (attach lhs sink)
  | None => inl (Composed lhs rhs)
  end.

(** A chain [s | s1 | ... | sn], grouped to the left; a finished pipeline is not
    [Composable], so nothing can follow it. *)
Fixpoint chain (s : stage) (ss : list stage) : option (stage + node) :=
  match ss with
  | [] => Some (inl s)
  | s' :: ss =>
      match pipe s s', ss with
      | inl t, _ => chain t ss
      | inr n, [] => Some (inr n)
      | inr n, _ :: _ => None
      end
  end.

(** [get<Index>(node)] *)
Fixpoint get (index : nat) (n : node) : option node :=
  match index, n with
  | O, _ => Some n
  | S index, mkNode _ (Some next) => get index next
  | S _, mkNode _ None => None
  end.

Definition label_of (n : node) : label := match n with mkNode l _ => l end.

(** The stages in the order they are written, whatever their grouping. *)
Fixpoint written (s : stage) : list label :=
  match s with
  | Base _ l => [l]
  | Composed lhs rhs => written lhs ++ written rhs
  end.

(** Walking past a whole stage. *)
Lemma get_attach_past s next i :
  get (length (written s) + i) (attach s next) = get i next.
Proof.
  revert next i. induction s as [k l|lhs IHl rhs IHr]; intros next i; simpl; [done|].
  by rewrite length_app, <- Nat.add_assoc, IHl, IHr.
Qed.

Lemma get_attach s next i :
  (i < length (written s))%nat → label_of <$> get i (attach s next) = written s !! i.
Proof.
  revert next i. induction s as [k l|lhs IHl rhs IHr]; intros next i; simpl.
  - intros Hi. destruct i; [done|lia].
  - rewrite length_app. intros Hi. destruct (decide (i < length (written lhs))%nat).
    + by rewrite IHl, lookup_app_l by done.
    + rewrite lookup_app_r by lia.
      replace i with (length (written lhs) + (i - length (written lhs)))%nat at 1 by lia.
      rewrite get_attach_past. apply IHr. lia.
Qed.

(** A chain of stages that ends in a sink is a pipeline, and its nodes are the
    stages in the order they are written. *)
Lemma chain_nodes s ss l :
  Forall (λ s, IsSink s = false) ss →
  ∃ n, chain s (ss ++ [Base KSink l]) = Some (inr n) ∧
       ∀ i, label_of <$> get i n = ((written s ++ (ss ≫= written)) ++ [l]) !! i.
Proof.
  intros Hss. revert s. induction Hss as [|s' ss Hs' _ IH]; intros s.
  - simpl. eexists. split; [done|]. intros i. rewrite app_nil_r.
    destruct (decide (i < length (written s))%nat).
    + by rewrite get_attach, lookup_app_l by done.
    + replace i with (length (written s) + (i - length (written s)))%nat at 1 by lia.
      rewrite get_attach_past, lookup_app_r by lia.
      by destruct (i - length (written s))%nat as [|[]].
  - destruct (IH (Composed s s')) as (n & Hn & Hget). exists n. split.
    + simpl. destruct s' as [[]|]; simpl in *; done.
    + intros i. rewrite Hget. simpl. by rewrite <- !(assoc_L (++)).
Qed.

End pipeline.
Arguments node : clear implicits.
Arguments stage : clear implicits.

(** C31. The nodes of a finished pipeline are its stages in the order they are
    written: for any chain that ends in a sink and has no sink before it,
    however its parts were grouped with [|] beforehand, composing succeeds and
    [get<i>] is the node of the [i]-th stage, and nothing past the sink. *)
Theorem pipeline_get_in_written_order {label} (s : stage label) (ss : list (stage label))
    (l : label) :
  Forall (λ s, IsSink s = false) ss →
  ∃ n, chain s (ss ++ [Base KSink l]) = Some (inr n) ∧
       ∀ i, label_of <$> get i n = (written s ++ (ss ≫= written) ++ [l]) !! i.
Proof.
  intros Hss. destruct (chain_nodes s ss l Hss) as (n & Hn & Hget).
  exists n. split; [done|]. intros i. by rewrite Hget, <- (assoc_L (++)).
Qed.

(** Witness: the pipeline of grep, with two of its stages composed first. *)
Lemma pipeline_get_in_written_order_witness :
  ∃ n, chain (Base KSource "ReadFile"%string)
         [Composed (Base KTransform "VectorScan"%string) (Base KTransform "Batch"%string);
          Base KSink "Write"%string] = Some (inr n) ∧
       label_of <$> get 2 n = Some "Batch"%string.
Proof.
  destruct (pipeline_get_in_written_order (Base KSource "ReadFile"%string)
    [Composed (Base KTransform "VectorScan"%string) (Base KTransform "Batch"%string)]
    "Write"%string) as (n & Hn & Hget).
  - repeat constructor.
  - exists n. split; [exact Hn|]. rewrite (Hget 2%nat). reflexivity.
Defined.

(** ** Running a pipeline *)

(** [execute(pipeline, args...)]: an unexpected result becomes an exception. *)
Definition execute {W N} (call : M W (N * expected Z)) : M W N :=
  '(pipeline, res) ← call;
  match res with
  | Unexpected e => throw e
  | Value _ => mret pipeline
  end.

Lemma wp_execute {W N} (call : M W (N * expected Z)) (w : W) (Q : outcome N → W → Prop) :
  wp call w (lift (λ '(n, r) w', match r with
                                 | Value _ => Q (Done n) w'
                                 | Unexpected e => Q (Throws e) w'
                                 end) Q) →
  wp (execute call) w Q.
Proof.
  intros Hc. unfold execute. apply wp_bind. eapply wp_mono; [done|].
  intros [[n [k|e]]| | | |] w'; simpl; auto.
Qed.
