(* ===== verification/Stages.v ===== *)
(** The stages of src/source, src/transform and src/sink as the compiler sees
    them: which call operators the node of a stage has, whether they are
    [const], and which calls their bodies make on [next].

    A member function of a class template is only compiled when it is used, so
    whether a call of a pipeline compiles depends on the calls it leads to.
    [callable] is that check. Pipeline.v has the composition. *)

From S2P Require Import Prelude Nodes Pipeline.

(** The argument lists the nodes are called with. *)
Inductive signature :=
  | CallDir    (* beman::cstring_view *)
  | CallFile   (* int, std::size_t *)
  | CallPipe   (* int, std::size_t, std::size_t *)
  | CallSpan   (* a range of bytes *)
  | CallView   (* std::string_view *)
  | CallLine   (* std::string_view, bool *)
  | CallFlush. (* nothing *)

#[global] Instance signature_eq_decision : EqDecision signature.
Proof. solve_decision. Defined.

(** A call operator: what it can be called with, whether it is [const], and the
    calls of [next] in its body. *)
Record operator := Operator {
  op_accepts : list signature;
  op_const : bool;
  op_calls : list signature
}.

Record template := Template { t_name : string; t_operators : list operator }.

(** ** The stages *)

Definition CopyFileRange_node : template :=
  Template "CopyFileRange" [Operator [CallFile] true []].

Definition CopyFileRange : stage template := Base KSource CopyFileRange_node.

Definition DirectSplice_node : template :=
  Template "DirectSplice" [Operator [CallFile] true []].

Definition DirectSplice : stage template := Base KSource DirectSplice_node.

Definition ReadFile_node : template :=
  Template "ReadFile" [Operator [CallFile] false [CallSpan]].

Definition ReadFile : stage template := Base KSource ReadFile_node.

Definition SourceSplice_node : template :=
  Template "Splice" [Operator [CallFile] true [CallPipe]].

Definition SourceSplice : stage template := Base KSource SourceSplice_node.

Definition MappedFile_node : template :=
  Template "MappedFile" [Operator [CallFile] true [CallSpan]].

Definition MappedFile : stage template := Base KSource MappedFile_node.

Definition DirectoryTraverse_node : template :=
  Template "DirectoryTraverse" [Operator [CallDir] true [CallFile]].

Definition DirectoryTraverse : stage template := Base KSource DirectoryTraverse_node.

Definition VectorScan_node : template :=
  Template "VectorScan" [Operator [CallSpan] false [CallView; CallView]].

Definition VectorScan : stage template := Base KTransform VectorScan_node.

Definition Re2Regex_node : template :=
  Template "Re2Regex" [Operator [CallSpan] false [CallView; CallView]].

Definition Re2Regex : stage template := Base KTransform Re2Regex_node.

Definition SimpleRegex_node : template :=
  Template "SimpleRegex" [Operator [CallSpan] true [CallLine]].

Definition SimpleRegex : stage template := Base KTransform SimpleRegex_node.

Definition TreeSitter_node : template :=
  Template "TreeSitter" [Operator [CallSpan] false [CallSpan]].

Definition TreeSitter : stage template := Base KTransform TreeSitter_node.

Definition Batch_node : template :=
  Template "Batch" [Operator [CallView] false [CallLine]; Operator [CallFlush] false [CallLine]].

Definition Batch : stage template := Base KTransform Batch_node.

Definition Write_node : template :=
  Template "Write" [Operator [CallSpan] true []; Operator [CallView; CallLine] true []].

Definition Write : stage template := Base KSink Write_node.

Definition Cout_node : template :=
  Template "Cout" [Operator [CallSpan] true []; Operator [CallView; CallLine] true []].

Definition Cout : stage template := Base KSink Cout_node.

(** [operator()(auto &&...)] *)
Definition NullSink_node : template :=
  Template "NullSink"
    [Operator [CallDir; CallFile; CallPipe; CallSpan; CallView; CallLine; CallFlush] true []].

Definition NullSink : stage template := Base KSink NullSink_node.

Definition SinkSplice_node : template :=
  Template "Splice" [Operator [CallPipe] true []].

Definition SinkSplice : stage template := Base KSink SinkSplice_node.

(** ** Does a call compile? *)

(** The operator a call chooses: on a [const] node only a [const] one. *)
Definition operator_for (is_const : bool) (t : template) (s : signature) : option operator :=
  List.find (λ op, bool_decide (s ∈ op_accepts op) && (negb is_const || op_const op))
    (t_operators t).

(** A call of a node; the member [next] of a [const] node is [const]. *)
Fixpoint callable (is_const : bool) (n : node template) (s : signature) : bool :=
  match n with
  | mkNode t next =>
      match operator_for is_const t s with
      | None => false
      | Some op =>
          forallb (λ s', match next with
                         | Some next => callable (op_const op) next s'
                         | None => false
                         end) (op_calls op)
      end
  end.

(** The same on the stages as they are written. *)
Fixpoint checks (is_const : bool) (ts : list template) (s : signature) : bool :=
  match ts with
  | [] => false
  | t :: ts =>
      match operator_for is_const t s with
      | None => false
      | Some op => forallb (checks (op_const op) ts) (op_calls op)
      end
  end.

(** ** Calls in progress *)

(** A call of a node as the compiler instantiates it. *)
Abbreviation instance := (bool * node template * signature)%type.

(** The body of one operator makes a call on [next]. *)
Inductive leads_to : instance → instance → Prop :=
  | leads_next c t next s op s' :
      operator_for c t s = Some op → s' ∈ op_calls op →
      leads_to (c, mkNode t (Some next), s) (op_const op, next, s').

(** There is no operator for the call, or its body needs a [next] that the node
    does not have. *)
Inductive ill_formed : instance → Prop :=
  | no_operator c t next s : operator_for c t s = None → ill_formed (c, mkNode t next, s)
  | no_next c t s op :
      operator_for c t s = Some op → op_calls op ≠ [] → ill_formed (c, mkNode t None, s).

(** The labels of the nodes from a node on. *)
Fixpoint labels (n : node template) : list template :=
  match n with
  | mkNode t next => t :: match next with Some next => labels next | None => [] end
  end.

(** Induction over the nodes of a pipeline. *)
Lemma node_chain_ind (P : node template → Prop) :
  (∀ t, P (mkNode t None)) → (∀ t next, P next → P (mkNode t (Some next))) → ∀ n, P n.
Proof.
  intros Hsink Hnext. fix IH 1. intros [t [next|]]; [apply Hnext, IH|apply Hsink].
Qed.

Lemma callable_checks n : ∀ c s, callable c n s = checks c (labels n) s.
Proof.
  induction n as [t|t next IH] using node_chain_ind; intros c s; simpl;
    destruct (operator_for c t s) as [op|]; try done.
  induction (op_calls op) as [|s' ss IHs]; simpl; [done|]. by rewrite IH, IHs.
Qed.

Lemma labels_attach (s : stage template) next : labels (attach s next) = written s ++ labels next.
Proof.
  revert next. induction s as [k l|lhs IHl rhs IHr]; intros next; simpl; [done|].
  by rewrite IHl, IHr, (assoc_L (++)).
Qed.

Lemma labels_chain (s : stage template) ss t :
  Forall (λ s, IsSink s = false) ss →
  ∃ n, chain s (ss ++ [Base KSink t]) = Some (inr n) ∧
       labels n = written s ++ (ss ≫= written) ++ [t].
Proof.
  intros Hss. revert s. induction Hss as [|s' ss Hs' _ IH]; intros s; simpl.
  - eexists. split; [done|]. apply labels_attach.
  - destruct (IH (Composed s s')) as (n & Hn & Hl). exists n. split.
    + by destruct s' as [[]|].
    + rewrite Hl. simpl. by rewrite <- !(assoc_L (++)).
Qed.

(** A call that compiles leads to calls that compile. *)
Lemma callable_leads_to c n s i :
  callable c n s = true → leads_to (c, n, s) i → callable i.1.1 i.1.2 i.2 = true.
Proof.
  intros Hc Hl. inversion Hl as [c' t next s0 op s' Hop Hs']; subst; simpl in *.
  rewrite Hop in Hc. by eapply forallb_forall in Hc; [|by apply list_elem_of_In].
Qed.

Lemma callable_well_formed c n s : callable c n s = true → ¬ ill_formed (c, n, s).
Proof.
  intros Hc Hi. inversion Hi as [c' t next s' Hop|c' t s' op Hop Hne]; subst; simpl in Hc;
    rewrite Hop in Hc; [done|]. by destruct (op_calls op).
Qed.

Lemma callable_sound c n s i :
  callable c n s = true → rtc leads_to (c, n, s) i → ¬ ill_formed i.
Proof.
  intros Hc Hr. assert (callable i.1.1 i.1.2 i.2 = true) as Hi.
  { revert Hc. change (callable c n s) with
      (callable (c, n, s).1.1 (c, n, s).1.2 (c, n, s).2).
    induction Hr as [x|x y z Hxy _ IH]; [done|]. destruct x as [[c' n'] s']. simpl.
    intros Hx. apply IH. by eapply callable_leads_to. }
  destruct i as [[c' n'] s']. by apply callable_well_formed.
Qed.

Lemma callable_complete n : ∀ c s,
  (∀ i, rtc leads_to (c, n, s) i → ¬ ill_formed i) → callable c n s = true.
Proof.
  induction n as [t|t next IH] using node_chain_ind; intros c s Hall; simpl;
    (destruct (operator_for c t s) as [op|] eqn:Hop;
      [|by destruct (Hall _ (rtc_refl _ _)); constructor]).
  - destruct (op_calls op) eqn:Hcalls; [done|]. destruct (Hall _ (rtc_refl _ _)).
    by apply (no_next _ _ _ op); [|rewrite Hcalls].
  - apply forallb_forall. intros s' Hs'%list_elem_of_In. apply IH. intros i Hi.
    apply Hall. eapply rtc_l; [|exact Hi]. by constructor.
Qed.


