(* ===== verification/Sinks.v ===== *)
(** The sinks of src/sink: the last node of a pipeline. *)

From S2P Require Import Prelude Kernel SimKernel Nodes.

Definition get_errno {W} `{Kernel W} : M W Z := λ w, (Done (errno w), w).

(** ** sink/write.h *)
Module Write.
Section write.
Context {W : Type} `{Kernel W} {F : Fuel}.

(** The struct has no members. *)
Inductive WriteNode := mkWriteNode.

(** [std::format("failed to write: [{}/{} bytes] {}", ...)] *)
Definition failed_to_write (write_amount size : Z) (err : Z) : string :=
  "failed to write: [" +:+ pretty write_amount +:+ "/" +:+ pretty size +:+ " bytes] "
    +:+ strerror err.

(** One round of the loop over the data. *)
Definition write_round (data : bytes) (write_amount : Z) : M W (Z + expected Z) :=
  if write_amount <? lenZ data then
    written_this_iter ← sys_write STDOUT_FILENO (dropZ write_amount data);
    if written_this_iter =? -1 then
      err ← get_errno;
      mret (inr (Unexpected (failed_to_write write_amount (lenZ data) err)))
    else mret (inl (write_amount +ₛ written_this_iter))
  else mret (inr (Value write_amount)).

(** [operator()(std::string_view data, bool force_newline)] *)
Definition write_data (data : bytes) (force_newline : bool) : M W (expected Z) :=
  r ← loop fuel (write_round data) 0;
  match r with
  | Unexpected e => mret (Unexpected e)
  | Value write_amount =>
      if force_newline then
        _ ← sys_write STDOUT_FILENO [nl];
        mret (Value (write_amount +ₛ 1))
      else mret (Value write_amount)
  end.

#[global] Instance WriteNode_line : LineConsumer W WriteNode :=
  λ n data force_newline, r ← write_data data force_newline; mret (n, r).

(** The default argument: [force_newline = false]. *)
#[global] Instance WriteNode_view : ViewConsumer W WriteNode :=
  λ n data, call_line n data false.

(** [operator()(std::span<const std::byte> data)] *)
#[global] Instance WriteNode_span : SpanConsumer W WriteNode :=
  λ n data, call_view n data.

#[global] Instance WriteNode_pending : Pending WriteNode := λ _, [].

End write.

Section write_laws.
Context {W : Type} `{LawfulKernel W} {F : Fuel}.

(** What the loop has done after some rounds. *)
Lemma write_round_law (data : bytes) (k : Z) (v0 : view) (w : W) :
  lenZ data < size_max →
  0 ≤ k ≤ lenZ data → view_of w = emit (takeZ k data) v0 →
  wp (write_round data k) w (returns (λ r w',
    match r with
    | inl k' => k < k' ≤ lenZ data ∧ view_of w' = emit (takeZ k' data) v0
    | inr (Value k') => k' = lenZ data ∧ view_of w' = emit data v0
    | inr (Unexpected _) => view_of w' = emit (takeZ k data) v0
    end)).
Proof.
  intros Hsz Hk Hv. unfold write_round. destruct (Z.ltb_spec k (lenZ data)) as [Hlt|Hge].
  - apply wp_bind_returns. eapply wp_returns_mono.
    { apply write_law. intros Hd. apply dropZ_nil_inv in Hd; lia. }
    intros n w' [[-> Hw]|[Hn Hw]].
    + simpl. unfold wp. simpl. by rewrite Hw.
    + destruct (Z.eqb_spec n (-1)) as [->|]; [lia|].
      rewrite lenZ_dropZ in Hn by lia.
      apply wp_ret. simpl. rewrite size_add_small by lia.
      split; [lia|]. rewrite Hw, Hv, emit_emit. f_equal. by rewrite takeZ_add by lia.
  - apply wp_ret. simpl. split; [lia|]. by rewrite Hv, takeZ_all.
Qed.

Lemma write_loop_law (data : bytes) (w : W) :
  (length data < fuel)%nat → lenZ data < size_max →
  wp (loop fuel (write_round data) 0) w (returns (λ r w',
    match r with
    | Value k => k = lenZ data ∧ view_of w' = emit data (view_of w)
    | Unexpected _ => ∃ k, view_of w' = emit (takeZ k data) (view_of w)
    end)).
Proof.
  intros Hf Hsz.
  eapply (wp_loop _ (λ k w', 0 ≤ k ≤ lenZ data ∧ view_of w' = emit (takeZ k data) (view_of w))
            (λ k _, Z.to_nat (lenZ data - k))).
  - intros k w1 [Hk Hv]. eapply wp_mono; [by eapply write_round_law|].
    intros o w2 Ho. destruct o as [[k'|[k'|e]]| | | |]; simpl in *; try done; [|by eauto].
    destruct Ho. split; [split; [lia|done]|lia].
  - split; [range|]. by rewrite takeZ_0, emit_nil.
  - unfold lenZ. lia.
Qed.

Lemma write_data_law (data : bytes) (w : W) :
  (length data < fuel)%nat → lenZ data < size_max →
  wp (write_data data false) w (returns (λ r w',
    match r with
    | Value k => k = lenZ data ∧ view_of w' = emit data (view_of w)
    | Unexpected _ => ∃ k, view_of w' = emit (takeZ k data) (view_of w)
    end)).
Proof.
  intros Hf Hsz. unfold write_data. apply wp_bind_returns.
  eapply wp_returns_mono; [by apply write_loop_law|].
  intros [k|e] w1 Hr; by apply wp_ret.
Qed.

#[global] Instance WriteNode_line_lawful : LawfulLine W WriteNode.
Proof.
  intros n d w [Hf Hsz]. unfold call_line, WriteNode_line. apply wp_bind_returns.
  eapply wp_returns_mono; [apply write_data_law|].
  { simpl in *. lia. }
  { unfold lenZ in *. simpl in *. lia. }
  intros [k|e] w'; simpl; intros Hr; apply wp_ret; simpl; unfold appends; simpl.
  - destruct Hr as [_ Hr]. exists d. by rewrite app_nil_r.
  - destruct Hr as [k Hr]. exists (takeZ k d). auto with om.
Qed.

#[global] Instance WriteNode_view_lawful : LawfulView W WriteNode.
Proof. intros n d w Hn. unfold call_view, WriteNode_view. by apply call_line_law. Qed.

#[global] Instance WriteNode_span_lawful : LawfulSpan W WriteNode.
Proof. intros n d w Hn. unfold call_span, WriteNode_span. by apply call_view_law. Qed.

End write_laws.
End Write.

(** ** sink/event_loop_write.h

    The same loop as [WriteNode] without its lock; the node also keeps a
    reference to the event loop, which it never uses. *)
Module EventLoopWrite.
Section event_loop_write.
Context {W EV : Type} `{Kernel W} {F : Fuel}.

Record EventLoopWriteState := { ev : EV }.

Record EventLoopWriteNode := { state : EventLoopWriteState }.

Definition ev_write_round (data : bytes) (write_amount : Z) : M W (Z + expected Z) :=
  if write_amount <? lenZ data then
    written_this_iter ← sys_write STDOUT_FILENO (dropZ write_amount data);
    if written_this_iter =? -1 then
      err ← get_errno;
      mret (inr (Unexpected (Write.failed_to_write write_amount (lenZ data) err)))
    else mret (inl (write_amount +ₛ written_this_iter))
  else mret (inr (Value write_amount)).

Definition ev_call_data (data : bytes) (force_newline : bool) : M W (expected Z) :=
  r ← loop fuel (ev_write_round data) 0;
  match r with
  | Unexpected e => mret (Unexpected e)
  | Value write_amount =>
      if force_newline then
        _ ← sys_write STDOUT_FILENO [nl];
        mret (Value (write_amount +ₛ 1))
      else mret (Value write_amount)
  end.

#[global] Instance EventLoopWriteNode_line : LineConsumer W EventLoopWriteNode :=
  λ n data force_newline, r ← ev_call_data data force_newline; mret (n, r).

#[global] Instance EventLoopWriteNode_span : SpanConsumer W EventLoopWriteNode :=
  λ n data, call_line n data false.

End event_loop_write.
End EventLoopWrite.

(** ** sink/cout.h *)
Module Cout.
Section cout.
Context {W : Type} `{Kernel W}.

Inductive CoutNode := mkCoutNode.

(** [operator()(std::string_view, bool)]: [data.back()] on an empty view has
    no defined behaviour. *)
#[global] Instance CoutNode_line : LineConsumer W CoutNode :=
  λ n data force_newline,
    _ ← std_cout data;
    if force_newline then
      match last data with
      | None => undefined
      | Some b =>
          if bool_decide (b = nl) then mret (n, Value (lenZ data))
          else _ ← std_cout [nl]; mret (n, Value (lenZ data))
      end
    else mret (n, Value (lenZ data)).

#[global] Instance CoutNode_view : ViewConsumer W CoutNode := λ n data, call_line n data false.

#[global] Instance CoutNode_span : SpanConsumer W CoutNode := λ n data, call_view n data.

#[global] Instance CoutNode_pending : Pending CoutNode := λ _, [].

End cout.

#[global] Instance CoutNode_line_lawful {W} `{LawfulKernel W} {F : Fuel} : LawfulLine W CoutNode.
Proof.
  intros n d w _. unfold call_line, CoutNode_line. apply wp_bind_returns.
  eapply wp_returns_mono; [apply cout_law|]. intros [] w' Hw. apply wp_ret. simpl.
  exists d. by rewrite app_nil_r.
Qed.

#[global] Instance CoutNode_view_lawful {W} `{LawfulKernel W} {F : Fuel} : LawfulView W CoutNode.
Proof. intros n d w Hn. unfold call_view, CoutNode_view. by apply call_line_law. Qed.

#[global] Instance CoutNode_span_lawful {W} `{LawfulKernel W} {F : Fuel} : LawfulSpan W CoutNode.
Proof. intros n d w Hn. unfold call_span, CoutNode_span. by apply call_view_law. Qed.
End Cout.

(** ** sink/null_sink.h *)
Module NullSink.
Section null_sink.
Context {W : Type}.

Inductive NullSinkNode := mkNullSinkNode.

(** [operator()(auto &&...)]: any arguments, nothing done. *)
#[global] Instance NullSinkNode_span : SpanConsumer W NullSinkNode := λ n _, mret (n, Value 0).

#[global] Instance NullSinkNode_view : ViewConsumer W NullSinkNode := λ n _, mret (n, Value 0).

#[global] Instance NullSinkNode_line : LineConsumer W NullSinkNode := λ n _ _, mret (n, Value 0).

#[global] Instance NullSinkNode_fd : FdConsumer W NullSinkNode := λ n _ _ _, mret (n, Value 0).

End null_sink.
End NullSink.

(** ** sink/splice.h *)
Module SpliceSink.
Section splice.
Context {W : Type} `{Kernel W} {F : Fuel}.

Inductive SinkSpliceNode := mkSinkSpliceNode.

(** One round of the loop: the request is always for [size] bytes. *)
Definition splice_out_round (fd size : Z) (write_amount : Z) : M W (Z + expected Z) :=
  if write_amount <? size then
    written_this_iter ← sys_splice fd STDOUT_FILENO size;
    if written_this_iter =? -1 then mret (inr (Unexpected "failed to splice"))
    else if written_this_iter =? 0 then mret (inr (Value write_amount))
    else mret (inl (write_amount +ₛ written_this_iter))
  else mret (inr (Value write_amount)).

(** [operator()(int fd, std::size_t size, std::size_t)] *)
#[global] Instance SinkSpliceNode_fd : FdConsumer W SinkSpliceNode :=
  λ n fd size _, r ← loop fuel (splice_out_round fd size) 0; mret (n, r).

End splice.

Section splice_laws.
Context {W : Type} `{LawfulKernel W} {F : Fuel}.

(** The pipe after [k] of the bytes [b] it held went to the standard output. *)
Definition drained_to (r q : Z) (b : bytes) (v0 : view) (k : Z) (v : view) : Prop :=
  0 ≤ k ≤ lenZ b ∧ is_pipe r q (dropZ k b) v ∧
  v_out v = v_out v0 ++ takeZ k b ∧ v_fds v = v_fds v0.

Lemma splice_out_round_law r q b size v0 k (w : W) :
  0 < size → lenZ b ≤ size < size_max → k < lenZ b →
  drained_to r q b v0 k (view_of w) →
  wp (splice_out_round r size k) w (returns (λ res w',
    match res with
    | inl k' => k < k' ∧ drained_to r q b v0 k' (view_of w')
    | inr (Value _) => False
    | inr (Unexpected _) =>
        v_out (view_of w') = v_out v0 ++ takeZ k b ∧ v_fds (view_of w') = v_fds v0
    end)).
Proof.
  intros Hpos Hsz Hlt (Hk & Hp & Hout & Hfds). unfold splice_out_round.
  destruct (Z.ltb_spec k size) as [_|]; [|lia].
  apply wp_bind_returns. eapply wp_returns_mono.
  { eapply splice_pipe_out_law; [done| |done].
    intros Hd. apply dropZ_nil_inv in Hd; lia. }
  intros n w' [[-> Hw]|(Hn & Hz & Hw)].
  { apply wp_ret. simpl. by rewrite Hw. }
  rewrite lenZ_dropZ in Hn by lia.
  destruct (Z.eqb_spec n (-1)); [lia|].
  destruct (Z.eqb_spec n 0) as [->|Hn0].
  { specialize (Hz eq_refl). apply dropZ_nil_inv in Hz; lia. }
  apply wp_ret. simpl. rewrite size_add_small by lia. split; [lia|].
  rewrite Hw. split_and!; [lia|lia| | |].
  - rewrite <- dropZ_dropZ by lia. by apply is_pipe_drain.
  - rewrite v_out_drain, Hout, <- app_assoc. f_equal. by rewrite takeZ_add by lia.
  - erewrite v_fds_drain; done.
Qed.

Lemma splice_out_loop_exact r q b (w : W) :
  is_pipe r q b (view_of w) → (length b < fuel)%nat → lenZ b < size_max →
  wp (loop fuel (splice_out_round r (lenZ b)) 0) w (returns (λ res w',
    match res with
    | Value k => k = lenZ b ∧ drained r q b (view_of w) (view_of w')
    | Unexpected _ =>
        ∃ k, v_out (view_of w') = v_out (view_of w) ++ takeZ k b ∧
             v_fds (view_of w') = v_fds (view_of w)
    end)).
Proof.
  intros Hp Hf Hsz.
  eapply (wp_loop _ (λ k w', drained_to r q b (view_of w) k (view_of w'))
            (λ k _, Z.to_nat (lenZ b - k))).
  - intros k w1 Hk. pose proof Hk as (Hk' & Hp' & Hout & Hfds).
    destruct (decide (k < lenZ b)) as [Hlt|Hge].
    + eapply wp_mono; [apply (splice_out_round_law r q b _ (view_of w)); [lia|lia|done|done]|].
      intros [[k'|[k'|e]]| | | |] w2; simpl; try done.
      * intros [? Hd]. pose proof Hd as (? & _). split; [done|lia].
      * eauto.
    + unfold splice_out_round. rewrite (proj2 (Z.ltb_ge _ _)) by lia. apply wp_ret. simpl.
      rewrite dropZ_all in Hp' by lia. rewrite takeZ_all in Hout by lia.
      split; [lia|by split_and!].
  - split_and!; [lia|range|by rewrite dropZ_0|by rewrite takeZ_0, app_nil_r|done].
  - unfold lenZ. lia.
Qed.

(** Asked for more than the pipe holds, the loop comes back to an empty pipe
    whose write end is still open. *)
Lemma splice_out_loop_short r q b size (w : W) :
  is_pipe r q b (view_of w) → (length b < fuel)%nat → lenZ b < size < size_max →
  wp (loop fuel (splice_out_round r size) 0) w (λ o _, ∀ k, o ≠ Done (Value k)).
Proof.
  intros Hp Hf Hsz.
  eapply (wp_loop _ (λ k w', drained_to r q b (view_of w) k (view_of w'))
            (λ k _, Z.to_nat (lenZ b - k))).
  - intros k w1 Hk. pose proof Hk as (Hk' & Hp' & Hout & Hfds).
    destruct (decide (k < lenZ b)) as [Hlt|Hge].
    + eapply wp_mono; [apply (splice_out_round_law r q b _ (view_of w)); [lia|lia|done|done]|].
      intros [[k'|[k'|e]]| | | |] w2; simpl; try done.
      intros [? Hd]. pose proof Hd as (? & _). split; [done|lia].
    + unfold splice_out_round. rewrite (proj2 (Z.ltb_lt _ _)) by lia.
      rewrite dropZ_all in Hp' by lia. apply wp_bind.
      eapply wp_mono; [eapply splice_empty_pipe_law; [done|lia]|].
      intros o w2 [_ [->| ->]]; simpl; [done|]. apply wp_ret. by simpl.
  - split_and!; [lia|range|by rewrite dropZ_0|by rewrite takeZ_0, app_nil_r|done].
  - unfold lenZ. lia.
Qed.

#[global] Instance SinkSpliceNode_drain : LawfulDrain W SinkSpliceNode.
Proof.
  split; intros; unfold call_fd, SinkSpliceNode_fd; apply wp_bind.
  - eapply wp_mono; [by eapply splice_out_loop_exact|].
    intros [[k|e]| | | |] w'; simpl; intros Hr; try done; apply wp_ret; done.
  - eapply wp_mono; [by eapply splice_out_loop_short|].
    intros [[k'|e]| | | |] w'; simpl; intros Hr; try (intros; congruence).
    + by destruct (Hr k').
    + apply wp_ret. intros; congruence.
Qed.

End splice_laws.
End SpliceSink.

(** ** sink/send_file.h *)
Module SendFile.
Section send_file.
Context {W : Type} `{Kernel W} {F : Fuel}.

Inductive SendFileSink := mkSendFile.

(** [std::format("failed to write: [{} {} ", size, offset)] *)
Definition send_failed (size offset : Z) : string :=
  "failed to write: [" +:+ pretty size +:+ " " +:+ pretty offset +:+ " ".

(** One round: [off] is a fresh copy of [offset] every time. *)
Definition send_round (fd size offset : Z) (write_amount : Z) : M W (Z + expected Z) :=
  if write_amount <? size then
    written_this_iter ← sys_sendfile STDOUT_FILENO fd offset size;
    if written_this_iter =? -1 then mret (inr (Unexpected (send_failed size offset)))
    else if written_this_iter =? 0 then mret (inr (Value write_amount))
    else mret (inl (write_amount +ₛ written_this_iter))
  else mret (inr (Value write_amount)).

(** [operator()(int fd, std::size_t size, std::size_t offset)] *)
#[global] Instance SendFile_fd : FdConsumer W SendFileSink :=
  λ n fd size offset, r ← loop fuel (send_round fd size offset) 0; mret (n, r).

End send_file.
End SendFile.

(** The newline of the [Write] sink is not checked: asked for a newline, a
    call that has written its data always reports one byte more than the data,
    but the newline has been written or not. *)
Theorem write_newline_is_not_checked {W} `{LawfulKernel W} {F : Fuel} (data : bytes) (w : W) :
  (length data < fuel)%nat → lenZ data + 1 < size_max →
  wp (Write.write_data data true) w (returns (λ r w',
    match r with
    | Value k =>
        k = lenZ data + 1 ∧
        (view_of w' = emit (data ++ [nl]) (view_of w) ∨ view_of w' = emit data (view_of w))
    | Unexpected _ => ∃ k, view_of w' = emit (takeZ k data) (view_of w)
    end)).
Proof.
  intros Hf Hsz. pose proof (Write.write_loop_law data w Hf ltac:(lia)) as Hloop.
  unfold Write.write_data. apply wp_bind_returns. eapply wp_returns_mono; [exact Hloop|].
  intros [k|e] w1; simpl; [|by intros; apply wp_ret]. intros [-> Hv].
  apply wp_bind_returns. eapply wp_returns_mono; [by apply write_law|].
  intros n w2 Hn. apply wp_ret. simpl. pose proof (lenZ_nonneg data).
  rewrite size_add_small by lia. split; [done|]. destruct Hn as [[_ ->]|[Hn ->]]; [auto|].
  left. rewrite takeZ_all by (unfold lenZ; simpl; lia). by rewrite Hv, emit_emit.
Qed.

(** Witness: the disk is full after the data. *)
Lemma write_newline_is_not_checked_witness :
  let F := 100%nat : Fuel in
  let w := Sim (View [] 32768 ∅ ∅ ∅) [99; -1] 0 0 in
  ∃ w', Write.write_data (str "abc") true w = (Done (Value 4), w') ∧
        (view_of w' = emit (str "abc" ++ [nl]) (view_of w) ∨ view_of w' = emit (str "abc") (view_of w)) ∧
        v_out (view_of w') = str "abc".
Proof.
  intros F w. pose proof (write_newline_is_not_checked (F := F) (str "abc") w) as Hw.
  destruct (Write.write_data (str "abc") true w) as [o w'] eqn:Hrun.
  assert (o = Done (Value 4) ∧ v_out (view_of w') = str "abc") as [-> Hv]
    by (vm_compute in Hrun; injection Hrun as <- <-; split; reflexivity).
  exists w'. split; [reflexivity|]. split; [|exact Hv].
  unfold wp in Hw. rewrite Hrun in Hw. apply Hw; [unfold fuel, F; vm_compute; lia|].
  vm_compute. reflexivity.
Defined.
