(* ===== verification/Sources.v ===== *)
(** The sources of src/source: the first node of a pipeline. *)

From S2P Require Import Prelude Kernel Nodes Sinks AutoRelease.

(** [node(int fd, std::size_t size)]: how [execute] starts a pipeline. *)
Class FdSource (W N : Type) := call_source : N → Z → Z → M W (N * expected Z).

(** ** source/copy_file_range.h and source/direct_splice.h

    Both sources move bytes from the file to the standard output inside the
    kernel; they differ in the system call, the largest chunk and the error
    message, and never call [next]. *)
Section in_kernel.
Context {W : Type} `{Kernel W} {F : Fuel}.

(** One round of [while (offset != size)]. *)
Definition transfer_round (move : Z → M W Z) (max_chunk : Z) (error : string)
    (size offset : Z) : M W (Z + expected Z) :=
  if offset =? size then mret (inr (Value offset))
  else
    let chunk_size := max_chunk `min` (size -ₛ offset) in
    moved_this_iter ← move chunk_size;
    if moved_this_iter =? -1 then mret (inr (Unexpected error))
    else if moved_this_iter =? 0 then mret (inr (Value offset))
    else mret (inl (offset +ₛ moved_this_iter)).

End in_kernel.

Module CopyFileRange.
Section copy_file_range.
Context {W Next : Type} `{Kernel W} {F : Fuel}.

Record CopyFileRangeNode := mk { next : Next }.

Definition max_chunk : Z := 1024 * 1024 * 1024.

(** [operator()(int fd, std::size_t size)] *)
#[global] Instance CopyFileRangeNode_source : FdSource W CopyFileRangeNode :=
  λ n fd size,
    r ← loop fuel (transfer_round (sys_copy_file_range fd STDOUT_FILENO) max_chunk
                     "failed to copy_file_range" size) 0;
    mret (n, r).

End copy_file_range.
Arguments CopyFileRangeNode : clear implicits.
End CopyFileRange.

Module DirectSplice.
Section direct_splice.
Context {W Next : Type} `{Kernel W} {F : Fuel}.

Record DirectSpliceNode := mk { next : Next }.

(** [operator()(int fd, std::size_t size)] *)
#[global] Instance DirectSpliceNode_source : FdSource W DirectSpliceNode :=
  λ n fd size,
    pipe_size ← sys_setpipe_sz STDOUT_FILENO (1024 * 1024);
    if pipe_size <? 0 then
      err ← get_errno;
      mret (n, Unexpected ("failed to get out pipe size: " +:+ strerror err))
    else
      r ← loop fuel (transfer_round (sys_splice fd STDOUT_FILENO) (wrap64 pipe_size)
                       "failed to splice data" size) 0;
      mret (n, r).

End direct_splice.
Arguments DirectSpliceNode : clear implicits.
End DirectSplice.

(** ** source/read_file.h *)
Module ReadFile.
Section read_file.
Context {W Next : Type} `{Kernel W} `{SpanConsumer W Next} {F : Fuel}.

Record ReadFileNode := mk { next : Next }.

Definition max_size : Z := 10 * 1024 * 1024.

(** [std::format("failed to read: [{}/{} bytes]", read_amount, size)] *)
Definition failed_to_read (read_amount size : Z) : string :=
  "failed to read: [" +:+ pretty read_amount +:+ "/" +:+ pretty size +:+ " bytes]".

(** The loop variables: the successor, [read_amount] and [bytes_output]. *)
Record vars := Vars { v_next : Next; read_amount : Z; bytes_output : Z }.

Definition read_round (fd size : Z) (s : vars) : M W (vars + (Next * expected Z)) :=
  '(read_this_iter, buffer) ← sys_pread fd max_size (read_amount s);
  if read_this_iter =? -1 then
    mret (inr (v_next s, Unexpected (failed_to_read (read_amount s) size)))
  else if read_this_iter =? 0 then mret (inr (v_next s, Value (bytes_output s)))
  else
    '(next', processed) ← call_span (v_next s) (takeZ read_this_iter buffer);
    match processed with
    | Unexpected e => mret (inr (next', Unexpected e))
    | Value k =>
        mret (inl (Vars next' (read_amount s +ₛ read_this_iter) (bytes_output s +ₛ k)))
    end.

(** [operator()(int fd, std::size_t size)] *)
#[global] Instance ReadFileNode_source : FdSource W ReadFileNode :=
  λ n fd size,
    '(next', r) ← loop fuel (read_round fd size) (Vars (next n) 0 0);
    mret (mk next', r).

End read_file.
Arguments ReadFileNode : clear implicits.
Arguments vars : clear implicits.
End ReadFile.

(** ** source/splice.h *)
Module SpliceSource.
Section splice.
Context {W Next : Type} `{Kernel W} `{FdConsumer W Next} {F : Fuel}.

Record SourceSpliceNode := mk { next : Next }.

(** The loop variables: the successor, [offset] and [bytes_output]. *)
Record vars := Vars { v_next : Next; offset : Z; bytes_output : Z }.

Definition splice_in_round (fd in_pipe out_pipe pipe_size size : Z) (s : vars)
    : M W (vars + (Next * expected Z)) :=
  if offset s =? size then mret (inr (v_next s, Value (bytes_output s)))
  else
    let chunk_size := wrap64 pipe_size `min` (size -ₛ offset s) in
    sent_this_iter ← sys_splice fd in_pipe chunk_size;
    if sent_this_iter =? -1 then mret (inr (v_next s, Unexpected "failed to splice data in"))
    else if sent_this_iter =? 0 then mret (inr (v_next s, Value (bytes_output s)))
    else
      '(next', processed) ← call_fd (v_next s) out_pipe chunk_size 0;
      match processed with
      | Unexpected e => mret (inr (next', Unexpected e))
      | Value k => mret (inl (Vars next' (offset s +ₛ sent_this_iter) (bytes_output s +ₛ k)))
      end.

(** [operator()(int fd, std::size_t size)]; the two ends of the pipe are
    closed in the reverse order of their declarations. *)
#[global] Instance SourceSpliceNode_source : FdSource W SourceSpliceNode :=
  λ n fd size,
    '(res, (pipe0, pipe1)) ← sys_pipe;
    if negb (res =? 0) then
      err ← get_errno;
      mret (n, Unexpected ("failed to create pipes: " +:+ strerror err))
    else
      let in_pipe := pipe1 in
      let out_pipe := pipe0 in
      finally (finally
        (pipe_size ← sys_setpipe_sz out_pipe (1024 * 1024);
         if pipe_size <? 0 then
           err ← get_errno;
           mret (n, Unexpected ("failed to get out pipe size: " +:+ strerror err))
         else
           '(next', r) ← loop fuel (splice_in_round fd in_pipe out_pipe pipe_size size)
                           (Vars (next n) 0 0);
           mret (mk next', r))
        (fd_dtor out_pipe)) (fd_dtor in_pipe).

End splice.
Arguments SourceSpliceNode : clear implicits.
Arguments vars : clear implicits.
End SpliceSource.

(** ** What the sources guarantee *)

Section in_kernel_laws.
Context {W : Type} `{LawfulKernel W} {F : Fuel}.
Context (move : Z → M W Z) (fd max_chunk : Z) (error : string).
Hypothesis Hchunk : 0 < max_chunk.
Hypothesis move_law : ∀ c p len (w : W),
  is_file fd c p (view_of w) → 0 < len →
  wp (move len) w (returns (λ n w',
    moved fd STDOUT_FILENO len (dropZ p c) (view_of w) n (view_of w'))).

(** The view after the first [k] of the available bytes went out. *)
Definition sent (c : bytes) (p : Z) (v0 : view) (k : Z) : view :=
  emit (takeZ k (dropZ p c)) (consume fd k v0).

Lemma sent_add c p v0 k n :
  is_file fd c p v0 → 0 ≤ k → 0 ≤ n →
  emit (takeZ n (dropZ (p + k) c)) (consume fd n (sent c p v0 k)) = sent c p v0 (k + n).
Proof.
  intros (Hf & ? & _) Hk Hn. unfold sent. rewrite consume_emit, emit_emit.
  rewrite (consume_consume _ c p) by done. rewrite takeZ_add by lia.
  by rewrite dropZ_dropZ by lia.
Qed.

Lemma is_file_sent c p v0 k :
  is_file fd c p v0 → 0 ≤ k → is_file fd c (p + k) (sent c p v0 k).
Proof. intros. unfold sent. apply is_file_emit. auto with om. Qed.

Lemma transfer_round_law c p v0 size k (w : W) :
  is_file fd c p v0 → 0 ≤ size < size_max →
  0 ≤ k ≤ size `min` lenZ (dropZ p c) → view_of w = sent c p v0 k →
  wp (transfer_round move max_chunk error size k) w (returns (λ r w',
    match r with
    | inl k' => k < k' ≤ size `min` lenZ (dropZ p c) ∧ view_of w' = sent c p v0 k'
    | inr (Value n) => n = k ∧ n = size `min` lenZ (dropZ p c) ∧ view_of w' = sent c p v0 n
    | inr (Unexpected e) => e = error ∧ view_of w' = sent c p v0 k
    end)).
Proof.
  intros Hf Hsz Hk Hv. unfold transfer_round. destruct (Z.eqb_spec k size) as [->|Hne].
  { apply wp_ret. simpl. split_and!; [done|lia|done]. }
  rewrite size_sub_small by lia. apply wp_bind_returns.
  eapply wp_returns_mono.
  { apply (move_law c (p + k)); [|lia]. rewrite Hv. apply is_file_sent; [done|lia]. }
  assert (0 ≤ p) as Hp by apply Hf.
  intros n w' [[-> Hw]|(Hn & Hz & Hw)].
  { apply wp_ret. simpl. by rewrite Hw. }
  rewrite <- dropZ_dropZ, lenZ_dropZ in Hn by lia.
  destruct (Z.eqb_spec n (-1)); [lia|]. destruct (Z.eqb_spec n 0) as [->|].
  - apply wp_ret. simpl. specialize (Hz eq_refl).
    rewrite <- dropZ_dropZ in Hz by lia. apply dropZ_nil_inv in Hz; [|lia].
    rewrite deliver_out, Hv, sent_add, Z.add_0_r in Hw by (done || lia).
    split_and!; [done|lia|done].
  - apply wp_ret. simpl. rewrite size_add_small by lia. split; [lia|].
    rewrite deliver_out, Hv, sent_add in Hw by (done || lia). done.
Qed.

Lemma transfer_loop_law c p size (w : W) :
  is_file fd c p (view_of w) → 0 ≤ size < size_max → (length c < fuel)%nat →
  wp (loop fuel (transfer_round move max_chunk error size) 0) w (returns (λ r w',
    match r with
    | Value n => n = size `min` lenZ (dropZ p c) ∧ view_of w' = sent c p (view_of w) n
    | Unexpected e => e = error ∧ ∃ k, 0 ≤ k ∧ view_of w' = sent c p (view_of w) k
    end)).
Proof.
  intros Hf Hsz Hfuel. assert (0 ≤ p) as Hp by apply Hf.
  pose proof (lenZ_dropZ p c Hp) as Hlen. pose proof (lenZ_nonneg c).
  eapply (wp_loop _ (λ k w', 0 ≤ k ≤ size `min` lenZ (dropZ p c) ∧
                             view_of w' = sent c p (view_of w) k)
            (λ k _, Z.to_nat (lenZ (dropZ p c) - k))).
  - intros k w1 [Hk Hv]. eapply wp_mono; [by eapply transfer_round_law|].
    intros [[k'|[n|e]]| | | |] w2; simpl; try done.
    + intros [? ?]. split; [split; [lia|done]|lia].
    + intros [<- ?]. done.
    + intros [-> ?]. split; [done|]. exists k. split; [lia|done].
  - split; [lia|]. unfold sent.
    destruct Hf as [Hf _]. by rewrite takeZ_0, emit_nil, (consume_0 _ c p).
  - unfold lenZ in *. lia.
Qed.

End in_kernel_laws.

Section node_laws.
Context {W Next : Type} `{LawfulKernel W} {F : Fuel}.

(** What [copy_file_range] and the direct splice report: all of the file that
    the caller asked for has gone to the standard output, or an error and a
    first part of it. *)
Definition copied (fd : Z) (c : bytes) (p size : Z) (w : W) (r : expected Z) (w' : W) : Prop :=
  match r with
  | Value n => n = size `min` lenZ (dropZ p c) ∧ view_of w' = sent fd c p (view_of w) n
  | Unexpected _ => ∃ k, 0 ≤ k ∧ view_of w' = sent fd c p (view_of w) k
  end.

Lemma copied_out fd c p size w r w' :
  copied fd c p size w r w' →
  match r with
  | Value _ => v_out (view_of w') = v_out (view_of w) ++ takeZ size (dropZ p c)
  | Unexpected _ =>
      ∃ k, 0 ≤ k ∧ v_out (view_of w') = v_out (view_of w) ++ takeZ k (dropZ p c)
  end.
Proof.
  destruct r as [n|e]; simpl.
  - intros [-> ->]. unfold sent. rewrite v_out_emit, v_out_consume. f_equal.
    destruct (Z.min_spec size (lenZ (dropZ p c))) as [[? ->]|[? ->]]; [done|].
    by rewrite !takeZ_all by lia.
  - intros (k & Hk & ->). exists k. unfold sent. by rewrite v_out_emit, v_out_consume.
Qed.

Lemma copy_file_range_node_law (n : CopyFileRange.CopyFileRangeNode Next) fd c p size (w : W) :
  is_file fd c p (view_of w) → 0 ≤ size < size_max → (length c < fuel)%nat →
  wp (call_source n fd size) w (returns (λ '(_, r) w', copied fd c p size w r w')).
Proof.
  intros. unfold call_source, CopyFileRange.CopyFileRangeNode_source.
  apply wp_bind_returns. eapply wp_returns_mono.
  { eapply (transfer_loop_law _ fd); [done| |done..].
    intros; by apply copy_file_range_law. }
  intros [k|e] w' Hr; apply wp_ret; simpl; [done|]. by destruct Hr.
Qed.

Lemma direct_splice_node_law (n : DirectSplice.DirectSpliceNode Next) fd c p size (w : W) :
  is_file fd c p (view_of w) → 0 ≤ size < size_max → (length c < fuel)%nat →
  wp (call_source n fd size) w (returns (λ '(_, r) w', copied fd c p size w r w')).
Proof.
  intros Hf Hsz Hfuel. unfold call_source, DirectSplice.DirectSpliceNode_source.
  apply wp_bind_returns. eapply wp_returns_mono; [by apply setpipe_sz_law|].
  intros pipe_size w1 [Hv [->|Hps]]; simpl.
  { apply wp_bind_returns. unfold wp. simpl. exists 0. split; [lia|].
    unfold sent. destruct Hf as [Hf _].
    by rewrite takeZ_0, emit_nil, (consume_0 _ c p), Hv. }
  rewrite (proj2 (Z.ltb_ge _ _)) by lia.
  rewrite wrap64_small by (unfold size_max; lia).
  apply wp_bind_returns. eapply wp_returns_mono.
  { eapply (transfer_loop_law _ fd _ _ _ _ c p); [by rewrite Hv|done|done]. Unshelve.
    - lia.
    - intros; by apply splice_file_out_law. }
  intros [k|e] w' Hr; apply wp_ret; simpl; rewrite <- Hv; [done|]. by destruct Hr.
Qed.

End node_laws.

(** ** Reading a file in chunks

    The successor of [ReadFile] sees the content of the file cut into
    non-empty chunks, in order and without loss. [J d n k v] says what holds
    when the successor has become [n] after the bytes [d], with [k] the sum of
    what it reported; [X d n v] what holds when it has failed on the last
    chunk of [d]. *)
Section read_file_law.
Context {W Next : Type} `{LawfulKernel W} `{SpanConsumer W Next} {F : Fuel}.
Context (fd : Z) (c : bytes) (p : Z).
Context (J : bytes → Next → Z → view → Prop) (X : bytes → Next → view → Prop).

Hypothesis J_file : ∀ d n k v, J d n k v → is_file fd c p v.
Hypothesis J_step : ∀ d chunk n k (w : W),
  J d n k (view_of w) → chunk ≠ [] → lenZ chunk ≤ ReadFile.max_size →
  d ++ chunk `prefix_of` c →
  wp (call_span n chunk) w (returns (λ '(n', r) w',
    match r with
    | Value k' => J (d ++ chunk) n' (k +ₛ k') (view_of w')
    | Unexpected _ => X (d ++ chunk) n' (view_of w')
    end)).

Definition read_to (s : ReadFile.vars Next) (w : W) : Prop :=
  0 ≤ ReadFile.read_amount s ≤ lenZ c ∧
  J (takeZ (ReadFile.read_amount s) c) (ReadFile.v_next s) (ReadFile.bytes_output s)
    (view_of w).

Lemma read_round_law size (s : ReadFile.vars Next) (w : W) :
  lenZ c < size_max → read_to s w →
  wp (ReadFile.read_round fd size s) w (returns (λ r w',
    match r with
    | inl s' => read_to s' w' ∧ ReadFile.read_amount s < ReadFile.read_amount s'
    | inr (n', Value k) => J c n' k (view_of w')
    | inr (n', Unexpected _) =>
        ∃ d, d `prefix_of` c ∧ ((∃ k, J d n' k (view_of w')) ∨ X d n' (view_of w'))
    end)).
Proof.
  intros Hc [Hr HJ]. unfold ReadFile.read_round. apply wp_bind_returns.
  set (a := ReadFile.read_amount s) in *.
  eapply wp_returns_mono; [eapply pread_law; [by eapply J_file|done|lia]|].
  intros [n bs] w1 [Hv [->|(Hn & Hlen & Hbs & Hz)]]; simpl.
  { apply wp_ret. simpl. exists (takeZ a c). split; [auto with om|]. left. rewrite Hv. eauto. }
  destruct (Z.eqb_spec n (-1)); [lia|].
  assert (Hn' : n ≤ lenZ c - a).
  { rewrite Hlen, Hbs, lenZ_takeZ, lenZ_dropZ by lia. lia. }
  destruct (Z.eqb_spec n 0) as [->|Hne].
  { apply wp_ret. simpl. specialize (Hz eq_refl). apply dropZ_nil_inv in Hz; [|lia].
    rewrite Hv. by rewrite takeZ_all in HJ by lia. }
  rewrite Hlen, takeZ_all, Hbs by lia.
  assert (takeZ a c ++ takeZ n (dropZ a c) = takeZ (a + n) c) as Heq.
  { by rewrite takeZ_add by lia. }
  apply wp_bind_returns. eapply wp_returns_mono.
  { apply (J_step (takeZ a c) _ _ (ReadFile.bytes_output s)); [by rewrite Hv| | |].
    - intros Hnil. rewrite Hnil in Hbs. subst bs. by rewrite lenZ_nil in Hlen.
    - rewrite <- Hbs, <- Hlen. apply Hn.
    - rewrite Heq. auto with om. }
  intros [n' [k|e]] w2; simpl; rewrite Heq; intros Hpost; apply wp_ret; simpl.
  - unfold read_to. simpl. fold a. rewrite <- Hbs, <- Hlen.
    rewrite size_add_small by lia. split; [split; [lia|done]|lia].
  - exists (takeZ (a + n) c). split; [auto with om|auto].
Qed.

Lemma read_file_node_law (n : ReadFile.ReadFileNode Next) size (w : W) :
  lenZ c < size_max → (length c < fuel)%nat →
  J [] (ReadFile.next n) 0 (view_of w) →
  wp (call_source n fd size) w (returns (λ '(n', r) w',
    match r with
    | Value k => J c (ReadFile.next n') k (view_of w')
    | Unexpected _ =>
        ∃ d, d `prefix_of` c ∧ ((∃ k, J d (ReadFile.next n') k (view_of w')) ∨
                                X d (ReadFile.next n') (view_of w'))
    end)).
Proof.
  intros Hc Hf HJ. unfold call_source, ReadFile.ReadFileNode_source.
  apply wp_bind_returns.
  eapply (wp_loop _ read_to (λ s _, Z.to_nat (lenZ c - ReadFile.read_amount s))).
  - intros s w1 Hs. eapply wp_mono; [by apply read_round_law|].
    intros [[s'|[n' [k|e]]]| | | |] w2; simpl; try done; intros Hpost.
    destruct Hpost as [Hs' ?]. split; [done|]. destruct Hs' as [? _]. lia.
  - split; simpl; [range|]. by rewrite takeZ_0.
  - simpl. unfold lenZ. lia.
Qed.

End read_file_law.

(** [ReadFile | Write] puts the whole file on the standard output. *)
Lemma read_file_write_law {W} `{LawfulKernel W} {F : Fuel}
    (n : ReadFile.ReadFileNode Write.WriteNode) fd c p size (w : W) :
  is_file fd c p (view_of w) → lenZ c < size_max → (length c < fuel)%nat →
  wp (call_source n fd size) w (returns (λ '(_, r) w',
    match r with
    | Value k => k = lenZ c ∧ view_of w' = emit c (view_of w)
    | Unexpected _ => ∃ d, d `prefix_of` c ∧ view_of w' = emit d (view_of w)
    end)).
Proof.
  intros Hf Hc Hfuel.
  eapply wp_returns_mono.
  { apply (read_file_node_law fd c p
      (λ d _ k v, d `prefix_of` c ∧ k = lenZ d ∧ v = emit d (view_of w))
      (λ d _ v, ∃ e, e `prefix_of` d ∧ v = emit e (view_of w))); [| |done|done|].
    - intros d _ k v (_ & _ & ->). auto with om.
    - intros d chunk m k w1 (Hd & -> & Hv) Hne _ Hpre.
      pose proof (prefix_length _ _ Hpre) as Hlen. rewrite length_app in Hlen.
      unfold call_span, Write.WriteNode_span, call_view, Write.WriteNode_view, call_line,
        Write.WriteNode_line.
      apply wp_bind_returns. eapply wp_returns_mono; [apply Write.write_data_law|].
      { lia. } { unfold lenZ in *. lia. }
      intros [k|e] w2; simpl; intros Hr; apply wp_ret; simpl.
      + destruct Hr as [-> ->]. rewrite size_add_small by (unfold lenZ in *; lia).
        by rewrite lenZ_app, Hv, emit_emit.
      + destruct Hr as [k ->]. rewrite Hv, emit_emit. exists (d ++ takeZ k chunk).
        split; [|done]. apply prefix_app. auto with om.
    - split_and!; [apply prefix_nil|done|by rewrite emit_nil]. }
  intros [n' [k|e]] w' Hr; simpl in *.
  - by destruct Hr as (_ & -> & ->).
  - destruct Hr as (d & Hd & [(k & _ & _ & ->)|(e' & He & ->)]); [eauto|].
    exists e'. split; [by etrans|done].
Qed.

(** ** The middleman splice

    The loop passes the size it asked for, not the size it got, on to its
    successor. *)
Section splice_law.
Context {W Next : Type} `{LawfulKernel W} `{FdConsumer W Next} {F : Fuel} `{!LawfulDrain W Next}.

(** A kernel that moves all it is asked for from a file to an empty pipe. *)
Definition FullSplice : Prop := ∀ fd c p r q len (w : W),
  is_file fd c p (view_of w) → is_pipe r q [] (view_of w) → 0 < len → lenZ c < size_max →
  wp (sys_splice fd q len) w (returns (λ n _, n = -1 ∨ n = len `min` lenZ (dropZ p c))).

(** The state of the system after [k] bytes of the file came out. *)
Definition spliced_to (fd : Z) (c : bytes) (p r q : Z) (v1 : view) (k : Z) (v : view) : Prop :=
  is_file fd c (p + k) v ∧ is_pipe r q [] v ∧
  v_out v = v_out v1 ++ takeZ k (dropZ p c) ∧
  v_fds v = <[fd := OFile c (p + k)]> (v_fds v1).

(** The state of the system when the loop gives up. *)
Definition splice_failed (fd : Z) (c : bytes) (p : Z) (v1 v : view) : Prop :=
  ∃ k p', v_out v = v_out v1 ++ takeZ k (dropZ p c) ∧
          v_fds v = <[fd := OFile c p']> (v_fds v1).

Context (fd : Z) (c : bytes) (p r q pipe_size size : Z) (v1 : view).
Hypothesis Hp : 0 ≤ p.
Hypothesis Hps : 0 < pipe_size < 2 ^ 31.
Hypothesis Hfuel : (length c < fuel)%nat.
Hypothesis Hc : lenZ c < size_max.
Hypothesis Hfd : fd ≠ STDOUT_FILENO.

Lemma length_dropZ_le n : (length (dropZ n c) ≤ length c)%nat.
Proof. unfold dropZ. rewrite length_drop. lia. Qed.

Lemma lenZ_avail n : lenZ (takeZ n (dropZ p c)) ≤ lenZ c.
Proof.
  rewrite takeZ_take. unfold lenZ. rewrite length_take.
  pose proof (length_dropZ_le p). lia.
Qed.

(** A chunk [b] of the file was in the pipe when the sink failed: the output has
    a first part of it. *)
Lemma splice_failed_chunk k chunk m (v v2 : view) :
  0 ≤ k → 0 ≤ chunk → v_out v = v_out v1 ++ takeZ k (dropZ p c) →
  v_out v2 = v_out v ++ takeZ m (takeZ chunk (dropZ (p + k) c)) →
  v_fds v2 = <[fd := OFile c (p + k + chunk)]> (v_fds v1) → splice_failed fd c p v1 v2.
Proof.
  intros Hk Hch Hout Hout2 Hfds2. destruct (decide (0 ≤ m)).
  - exists (k + m `min` chunk), (p + k + chunk). split; [|done].
    rewrite Hout2, Hout, <- app_assoc. f_equal. rewrite (takeZ_add k) by lia.
    rewrite dropZ_dropZ by lia. f_equal. rewrite !takeZ_take, take_take. f_equal. lia.
  - exists k, (p + k + chunk). split; [|done].
    rewrite Hout2, Hout, (takeZ_take m), Z2Nat.nonpos by lia. by rewrite take_0, app_nil_r.
Qed.

Lemma splice_round_full (s : SpliceSource.vars Next) (w : W) :
  FullSplice → 0 ≤ SpliceSource.offset s ≤ size → size ≤ lenZ (dropZ p c) →
  SpliceSource.bytes_output s = SpliceSource.offset s →
  spliced_to fd c p r q v1 (SpliceSource.offset s) (view_of w) →
  wp (SpliceSource.splice_in_round fd q r pipe_size size s) w (returns (λ res w',
    match res with
    | inl s' =>
        SpliceSource.offset s < SpliceSource.offset s' ≤ size ∧
        SpliceSource.bytes_output s' = SpliceSource.offset s' ∧
        spliced_to fd c p r q v1 (SpliceSource.offset s') (view_of w')
    | inr (_, Value n) => n = size ∧ spliced_to fd c p r q v1 size (view_of w')
    | inr (_, Unexpected _) => splice_failed fd c p v1 (view_of w')
    end)).
Proof.
  intros Hfull Hk Hsz Hbo (Hfile & Hpipe & Hout & Hfds). unfold SpliceSource.splice_in_round.
  set (k := SpliceSource.offset s) in *.
  assert (Ha : lenZ (dropZ p c) ≤ lenZ c) by (rewrite lenZ_dropZ by lia; range).
  destruct (Z.eqb_spec k size) as [Heq|Hne].
  { apply wp_ret. simpl. rewrite Hbo, Heq. split; [done|]. rewrite <- Heq. done. }
  rewrite wrap64_small by (unfold size_max; lia).
  rewrite size_sub_small by lia. set (chunk := pipe_size `min` (size - k)).
  assert (0 < chunk) as Hch by lia.
  apply wp_bind_returns. eapply wp_returns_mono.
  { apply wp_returns_and; [by apply (splice_file_pipe_law fd c (p + k) r)|].
    by apply (Hfull fd c (p + k) r). }
  intros n w1 [[[-> Hw]|(Hn & Hz & Hw)] Hn'].
  { apply wp_ret. simpl. exists k, (p + k). by rewrite Hw. }
  rewrite <- dropZ_dropZ, lenZ_dropZ in Hn, Hn' by lia.
  assert (n = chunk) as -> by lia.
  destruct (Z.eqb_spec chunk (-1)); [lia|]. destruct (Z.eqb_spec chunk 0); [lia|].
  pose proof (is_pipe_fill fd c (p + k) r q (takeZ chunk (dropZ (p + k) c)) chunk _
                Hfile Hpipe) as (Hpipe1 & Hfds1 & Hout1).
  rewrite <- Hw in Hpipe1, Hfds1, Hout1.
  set (b := takeZ chunk (dropZ (p + k) c)) in *.
  assert (Hb : lenZ b = chunk).
  { unfold b. rewrite <- dropZ_dropZ, lenZ_takeZ, lenZ_dropZ by lia. lia. }
  rewrite <- Hb at 1. apply wp_bind_returns. eapply wp_returns_mono.
  { apply (call_fd_exact _ r q); [done|unfold lenZ in *; lia|lia]. }
  intros [n' [m|e]] w2; simpl.
  - intros [-> (Hpipe2 & Hout2 & Hfds2)]. apply wp_ret. simpl. fold k.
    rewrite Hbo, Hb, size_add_small by lia. split; [lia|]. split; [done|].
    split_and!; [|done| |].
    + split_and!; [|lia|done]. rewrite Hfds2, Hfds1, lookup_insert_eq. do 2 f_equal. lia.
    + rewrite Hout2, Hout1, Hout, <- app_assoc. f_equal. rewrite takeZ_add by lia.
      unfold b. by rewrite dropZ_dropZ by lia.
    + rewrite Hfds2, Hfds1, Hfds, insert_insert_eq. do 2 f_equal. lia.
  - intros (m & Hout2 & Hfds2). apply wp_ret. simpl.
    rewrite Hfds1, Hfds, insert_insert_eq in Hfds2.
    apply (splice_failed_chunk k chunk m (view_of w)); try done; [lia|lia|by rewrite <- Hout1].
Qed.

Lemma splice_loop_full (n : Next) (w : W) :
  FullSplice → 0 ≤ size ≤ lenZ (dropZ p c) →
  spliced_to fd c p r q v1 0 (view_of w) →
  wp (loop fuel (SpliceSource.splice_in_round fd q r pipe_size size) (SpliceSource.Vars n 0 0)) w
    (returns (λ res w',
      match res with
      | (_, Value n) => n = size ∧ spliced_to fd c p r q v1 size (view_of w')
      | (_, Unexpected _) => splice_failed fd c p v1 (view_of w')
      end)).
Proof.
  intros Hfull Hsz Hinit.
  eapply (wp_loop _ (λ s w', 0 ≤ SpliceSource.offset s ≤ size ∧
                       SpliceSource.bytes_output s = SpliceSource.offset s ∧
                       spliced_to fd c p r q v1 (SpliceSource.offset s) (view_of w'))
            (λ s _, Z.to_nat (size - SpliceSource.offset s))).
  - intros s w1 (Hk & Hbo & Hs). eapply wp_mono; [apply splice_round_full; (done || lia)|].
    intros [[s'|[n' [m|e]]]| | | |] w2; simpl; try done. intros (? & ? & ?).
    split_and!; try done; lia.
  - simpl. split_and!; [lia|lia|done|done].
  - simpl. assert (lenZ (dropZ p c) ≤ lenZ c) by (rewrite lenZ_dropZ by lia; range).
    unfold lenZ in *. lia.
Qed.

End splice_law.

Section splice_node.
Context {W Next : Type} `{LawfulKernel W} `{FdConsumer W Next} {F : Fuel} `{!LawfulDrain W Next}.

(** A fresh pipe beside an open file. *)
Lemma pipe_beside_file fd c p r q pp v :
  is_file fd c p v → r ≠ q → q ≠ STDOUT_FILENO →
  v_fds v !! r = None → v_fds v !! q = None →
  let v1 := set_pipes (insert pp [])
              (set_fds (λ m, <[r := OPipeR pp]> (<[q := OPipeW pp]> m)) v) in
  is_file fd c p v1 ∧ is_pipe r q [] v1 ∧ fd ≠ r ∧ fd ≠ q.
Proof.
  intros (Hf & ? & ?) Hrq Hq1 Hr Hq.
  assert (fd ≠ r ∧ fd ≠ q) as [? ?] by (split; intros ->; congruence).
  simpl. split_and!; [split_and!| |done|done].
  - simpl. by rewrite !lookup_insert_ne.
  - done.
  - done.
  - exists pp. simpl. rewrite !lookup_insert_eq, lookup_insert_ne, lookup_insert_eq by done.
    done.
Qed.

(** Closing both ends leaves the descriptors as they were. *)
Lemma close_pipe_fds {r q fd : Z} {a b o : fdobj} {m : gmap Z fdobj} :
  m !! r = None → m !! q = None → fd ≠ r → fd ≠ q →
  delete q (delete r (<[fd := o]> (<[r := a]> (<[q := b]> m)))) = <[fd := o]> m.
Proof.
  intros. apply map_eq. intros i. rewrite !lookup_delete, !lookup_insert.
  repeat case_decide; simplify_eq; try done.
Qed.

(** A computation inside the scope of the two ends of a pipe. *)
Lemma wp_scoped_pipe {A} (m : M W A) r q w (Q : outcome A → W → Prop) :
  0 ≤ r → 0 ≤ q →
  wp m w (returns (λ a w', ∀ w'',
    view_of w'' = set_fds (delete q) (set_fds (delete r) (view_of w')) → Q (Done a) w'')) →
  wp (finally (finally m (fd_dtor r)) (fd_dtor q)) w Q.
Proof.
  intros Hr Hq Hm. apply wp_finally, wp_finally. eapply wp_mono; [done|].
  intros [a| | | |] w1; simpl; try done. intros Ha.
  eapply wp_returns_mono; [by apply fd_dtor_law|]. intros [] w2 Hv2.
  eapply wp_returns_mono; [by apply fd_dtor_law|]. intros [] w3 Hv3.
  apply Ha. by rewrite Hv3, Hv2.
Qed.

Lemma spliced_to_0 fd c p r q v :
  is_file fd c p v → is_pipe r q [] v → spliced_to fd c p r q v 0 v.
Proof.
  intros Hf Hp. unfold spliced_to. rewrite Z.add_0_r. split_and!; try done.
  - by rewrite takeZ_0, app_nil_r.
  - by rewrite insert_id by apply Hf.
Qed.

(** With full splices the node copies the file and closes its pipe. *)
Lemma splice_node_full (n : SpliceSource.SourceSpliceNode Next) fd c p size (w : W) :
  FullSplice (W := W) →
  is_file fd c p (view_of w) → 0 ≤ size ≤ lenZ (dropZ p c) →
  lenZ c < size_max → (length c < fuel)%nat →
  wp (call_source n fd size) w (returns (λ '(_, r) w',
    match r with
    | Value k =>
        k = size ∧ v_out (view_of w') = v_out (view_of w) ++ takeZ size (dropZ p c) ∧
        v_fds (view_of w') = <[fd := OFile c (p + size)]> (v_fds (view_of w))
    | Unexpected _ => splice_failed fd c p (view_of w) (view_of w')
    end)).
Proof.
  intros Hfull Hf Hsz Hc Hfuel. pose proof Hf as (Hlk & Hp & Hfd1).
  unfold call_source, SpliceSource.SourceSpliceNode_source.
  apply wp_bind_returns. eapply wp_returns_mono; [apply pipe_law|].
  intros [res [r q]] w1 [[-> Hv1]|(-> & Hr0 & Hq0 & Hrq & Hr1 & Hq1 & Hr & Hq & pp & Hpp & Hv1)].
  { simpl. apply wp_bind_returns. unfold wp. simpl. exists 0, p.
    rewrite takeZ_0, app_nil_r, Hv1. by rewrite insert_id. }
  simpl negb. cbv iota. destruct (pipe_beside_file fd c p r q pp _ Hf Hrq Hq1 Hr Hq)
    as (Hf1 & Hpipe1 & Hfr & Hfq).
  rewrite <- Hv1 in Hf1, Hpipe1.
  assert (v_out (view_of w1) = v_out (view_of w)) as Hout1 by by rewrite Hv1.
  assert (v_fds (view_of w1) = <[r := OPipeR pp]> (<[q := OPipeW pp]> (v_fds (view_of w))))
    as Hfds1 by by rewrite Hv1.
  apply wp_scoped_pipe; [done..|]. apply wp_bind_returns.
  eapply wp_returns_mono; [by apply setpipe_sz_law|].
  intros ps w2 [Hv2 [->|Hps]]; cbn [Z.ltb Z.compare].
  - apply wp_bind_returns. unfold wp. simpl. intros w5 Hv5.
    exists 0, p. rewrite Hv5, Hv2. simpl. rewrite Hout1, takeZ_0, app_nil_r.
    split; [done|]. rewrite Hfds1, <- (close_pipe_fds (a := OPipeR pp) (b := OPipeW pp)
      (o := OFile c p) Hr Hq Hfr Hfq).
    rewrite <- Hfds1, insert_id; [done|apply Hf1].
  - rewrite (proj2 (Z.ltb_ge _ _)) by lia. apply wp_bind_returns.
    eapply wp_returns_mono.
    { apply (splice_loop_full fd c p r q ps size (view_of w1)); try done; [lia|].
      rewrite Hv2. by apply spliced_to_0. }
    intros [n' [k|e]] w3 Hr3; apply wp_ret; simpl; intros w5 Hv5; rewrite Hv5; simpl.
    + destruct Hr3 as (-> & _ & _ & Hout3 & Hfds3).
      split; [done|]. rewrite Hout3, Hout1. split; [done|].
      rewrite Hfds3, Hfds1. by apply close_pipe_fds.
    + destruct Hr3 as (k & p' & Hout3 & Hfds3). exists k, p'. simpl. rewrite Hout3, Hout1.
      split; [done|]. rewrite Hfds3, Hfds1. by apply close_pipe_fds.
Qed.

(** The first round on a file that has fewer bytes than [size]. *)
Lemma splice_round_short (n : Next) fd c p r q ps size (w : W) :
  is_file fd c p (view_of w) → is_pipe r q [] (view_of w) →
  0 < lenZ (dropZ p c) < size → size ≤ ps < 2 ^ 31 → (length c < fuel)%nat →
  wp (SpliceSource.splice_in_round fd q r ps size (SpliceSource.Vars n 0 0)) w
    (λ o _, match o with Done (inl _) | Done (inr (_, Value _)) => False | _ => True end).
Proof.
  intros Hf Hpipe Ha Hps Hfuel. unfold SpliceSource.splice_in_round.
  cbn [SpliceSource.v_next SpliceSource.offset SpliceSource.bytes_output].
  rewrite (proj2 (Z.eqb_neq 0 size)) by lia.
  rewrite wrap64_small, size_sub_small by (unfold size_max; lia).
  rewrite Z.sub_0_r, Z.min_r by lia.
  apply wp_bind_returns. eapply wp_returns_mono.
  { apply (splice_file_pipe_law fd c p r); [done|done|lia]. }
  intros m w1 [[-> Hw]|(Hm & Hz & Hw)]; [done|].
  destruct (Z.eqb_spec m (-1)); [lia|]. destruct (Z.eqb_spec m 0) as [->|].
  { rewrite (Hz eq_refl) in Ha. unfold lenZ in Ha. simpl in Ha. lia. }
  pose proof (is_pipe_fill fd c p r q (takeZ m (dropZ p c)) m _ Hf Hpipe) as (Hpipe1 & _).
  rewrite <- Hw in Hpipe1. apply wp_bind. eapply wp_mono.
  { apply (call_fd_short n r q _ size 0 w1 Hpipe1).
    - pose proof (lenZ_takeZ m (dropZ p c)) as Hl.
      assert (0 ≤ p) by apply Hf.
      assert (lenZ (dropZ p c) ≤ lenZ c) by (rewrite lenZ_dropZ by lia; range).
      unfold lenZ in *. lia.
    - rewrite lenZ_takeZ by lia. unfold size_max. lia. }
  intros [[n' [k|e]]| | | |] w2; simpl; try done. intros Hne. by destruct (Hne n' k).
Qed.

Lemma splice_node_short (n : SpliceSource.SourceSpliceNode Next) fd c p size (w : W) :
  is_file fd c p (view_of w) → 0 < lenZ (dropZ p c) < size → size ≤ 1024 * 1024 →
  (length c < fuel)%nat →
  wp (call_source n fd size) w (λ o _, ∀ n' k, o ≠ Done (n', Value k)).
Proof.
  intros Hf Ha Hsz Hfuel. unfold call_source, SpliceSource.SourceSpliceNode_source.
  apply wp_bind_returns. eapply wp_returns_mono; [apply pipe_law|].
  intros [res [r q]] w1 [[-> Hv1]|(-> & Hr0 & Hq0 & Hrq & Hr1 & Hq1 & Hr & Hq & pp & Hpp & Hv1)];
    [by simpl; unfold wp; simpl|].
  simpl negb. cbv iota. destruct (pipe_beside_file fd c p r q pp _ Hf Hrq Hq1 Hr Hq)
    as (Hf1 & Hpipe1 & _ & _).
  rewrite <- Hv1 in Hf1, Hpipe1.
  apply wp_finally, wp_finally. eapply wp_mono.
  { apply wp_bind_returns. eapply wp_returns_mono; [by apply setpipe_sz_law|].
    intros ps w2 [Hv2 [->|Hps]];
      [instantiate (1 := λ o _, ∀ n' k, o ≠ Done (n', Value k)); done|].
    rewrite (proj2 (Z.ltb_ge _ _)) by lia. apply wp_bind.
    apply wp_loop_once; [lia|]. rewrite <- Hv2 in Hf1, Hpipe1.
    eapply wp_mono; [apply (splice_round_short _ fd c p r q ps size); try done; lia|].
    intros [[s|[n' [k|e]]]| | | |] w3; simpl; done. }
  intros [[n' [k|e]]| | | |] w3 Hr3; try done; [by destruct (Hr3 n' k)| |].
  all: eapply wp_returns_mono; [by apply fd_dtor_law|]; intros [] w4 Hv4;
    eapply wp_returns_mono; [by apply fd_dtor_law|]; done.
Qed.

End splice_node.
