(* ===== verification/Batch.v ===== *)
(** transform/batch.h: collect small writes into 64 KiB ones. *)

From S2P Require Import Prelude Kernel SimKernel Nodes Sinks.

Definition buffer_size : Z := 64 * 1024.

Section batch.
Context {W Next : Type} `{LineConsumer W Next}.

Record BatchNode := mkBatchNode { b_next : Next; buffer_ : bytes }.

(** [BatchNode(Next next)]: the buffer starts empty (and reserved). *)
Definition BatchNode_new (next : Next) : BatchNode := mkBatchNode next [].

(** [operator()(std::string_view data)] *)
#[global] Instance BatchNode_view : ViewConsumer W BatchNode :=
  λ n data,
    let buffer := buffer_ n ++ data in
    if buffer_size <=? lenZ buffer then
      '(next', res) ← call_line (b_next n) buffer false;
      match res with
      | Unexpected e => mret (mkBatchNode next' buffer, Unexpected e)
      | Value k => mret (mkBatchNode next' [], Value (0 +ₛ k))
      end
    else mret (mkBatchNode (b_next n) buffer, Value 0).

(** [operator()()]: pass on what is left; the buffer keeps its content. *)
Definition BatchNode_flush (n : BatchNode) : M W (BatchNode * expected Z) :=
  '(next', res) ← call_line (b_next n) (buffer_ n) false;
  match res with
  | Unexpected e => mret (mkBatchNode next' (buffer_ n), Unexpected e)
  | Value _ => mret (mkBatchNode next' (buffer_ n), Value (lenZ (buffer_ n)))
  end.

#[global] Instance BatchNode_pending `{Pending Next} : Pending BatchNode :=
  λ n, pending (b_next n) ++ buffer_ n.

End batch.
Arguments BatchNode : clear implicits.

(** A client that passes on several pieces and stops at the first error. *)
Fixpoint feed {W N} `{ViewConsumer W N} (n : N) (ds : list bytes) : M W (N * option string) :=
  match ds with
  | [] => mret (n, None)
  | d :: ds =>
      '(n', r) ← call_view n d;
      match r with
      | Unexpected e => mret (n', Some e)
      | Value _ => feed n' ds
      end
  end.

(** ** The batch keeps every byte *)
Section batch_laws.
Context {W Next : Type} `{LawfulKernel W} `{LineConsumer W Next} `{Pending Next} {F : Fuel}
  `{!LawfulLine W Next}.

#[global] Instance BatchNode_lawful : LawfulView W (BatchNode Next).
Proof.
  intros n d w [Hf Hsz]. unfold pending, BatchNode_pending in Hf, Hsz.
  rewrite length_app in Hf. rewrite lenZ_app in Hsz.
  unfold call_view, BatchNode_view. destruct (Z.leb_spec buffer_size (lenZ (buffer_ n ++ d))).
  - apply wp_bind_returns. eapply wp_returns_mono.
    { apply call_line_law. split; [rewrite length_app; lia|rewrite lenZ_app; lia]. }
    intros [next' [k|e]] w' (bs & Hv & Hbs); simpl in Hbs; apply wp_ret; simpl;
      exists bs; (split; [done|]).
    + change (bs ++ pending next' ++ [] = (pending (b_next n) ++ buffer_ n) ++ d).
      by rewrite app_nil_r, Hbs, app_assoc.
    + change (bs `prefix_of` (pending (b_next n) ++ buffer_ n) ++ d).
      by rewrite <- app_assoc.
  - apply wp_ret. simpl. exists []. split; [by rewrite emit_nil|].
    change (pending (b_next n) ++ buffer_ n ++ d = (pending (b_next n) ++ buffer_ n) ++ d).
    by rewrite app_assoc.
Qed.

(** Any sequence of pieces through a node that keeps every byte. *)
Lemma feed_law {N} `{ViewConsumer W N} `{Pending N} `{!LawfulView W N} (n : N) (ds : list bytes)
    (w : W) :
  enough n (concat ds) →
  wp (feed n ds) w (returns (λ '(n', r) w',
    ∃ bs, view_of w' = emit bs (view_of w) ∧
          match r with
          | None => bs ++ pending n' = pending n ++ concat ds
          | Some _ => bs `prefix_of` pending n ++ concat ds
          end)).
Proof.
  revert n w. induction ds as [|d ds IH]; intros n w [Hf Hsz].
  { apply wp_ret. exists []. split; [by rewrite emit_nil|]. simpl. by rewrite app_nil_r. }
  simpl in *. rewrite length_app in Hf. rewrite lenZ_app in Hsz.
  apply wp_bind_returns. eapply wp_returns_mono.
  { apply call_view_law. split; [lia|range]. }
  intros [n' [k|e]] w1 (bs & Hv & Hbs); simpl in Hbs.
  - pose proof (f_equal length Hbs) as Hlen. rewrite !length_app in Hlen.
    eapply wp_returns_mono.
    { apply IH. split; [lia|]. unfold lenZ in *. lia. }
    intros [n2 r] w2 (bs2 & Hv2 & Hbs2). exists (bs ++ bs2).
    split; [by rewrite Hv2, Hv, emit_emit|].
    rewrite (app_assoc (pending n)), <- Hbs, <- !app_assoc.
    destruct r; [by apply prefix_app|by f_equal].
  - apply wp_ret. exists bs. split; [done|]. rewrite (app_assoc (pending n)).
    by apply prefix_app_r.
Qed.

Lemma flush_law (n : BatchNode Next) (w : W) :
  enough (b_next n) (buffer_ n) →
  wp (BatchNode_flush n) w (returns (λ '(n', r) w',
    ∃ bs, view_of w' = emit bs (view_of w) ∧
          match r with
          | Value k => k = lenZ (buffer_ n) ∧ bs ++ pending (b_next n') = pending n
          | Unexpected _ => bs `prefix_of` pending n
          end)).
Proof.
  intros Hn. unfold BatchNode_flush. apply wp_bind_returns.
  eapply wp_returns_mono; [by apply call_line_law|].
  intros [next' [k|e]] w' (bs & Hv & Hbs); simpl in Hbs; apply wp_ret; exists bs; done.
Qed.

(** The buffer never reaches its limit between two calls. *)
Lemma batch_bound (n : BatchNode Next) (d : bytes) (w : W) :
  enough n d →
  wp (call_view n d) w (returns (λ '(n', r) _,
    match r with Value _ => lenZ (buffer_ n') < buffer_size | Unexpected _ => True end)).
Proof.
  intros [Hf Hsz]. unfold pending, BatchNode_pending in Hf, Hsz.
  rewrite length_app in Hf. rewrite lenZ_app in Hsz.
  unfold call_view, BatchNode_view. destruct (Z.leb_spec buffer_size (lenZ (buffer_ n ++ d))).
  - apply wp_bind_returns. eapply wp_returns_mono.
    { apply call_line_law. split; [rewrite length_app; lia|rewrite lenZ_app; lia]. }
    intros [next' [k|e]] w' _; apply wp_ret; done.
  - by apply wp_ret.
Qed.

End batch_laws.

(** C7. Batching is transparent: whatever pieces a fresh [Batch | Write] node is
    given, in whatever sizes the kernel takes them, once every call and the
    final flush have succeeded the standard output has received exactly the
    pieces in order; after an error it has received a prefix of them. *)
Theorem batch_write_transparent {W} `{LawfulKernel W} {F : Fuel} (ds : list bytes) (w : W) :
  (length (concat ds) < fuel)%nat → lenZ (concat ds) < size_max →
  wp ('(n, r) ← feed (BatchNode_new Write.mkWriteNode) ds;
      match r with
      | None => '(_, res) ← BatchNode_flush n; mret res
      | Some e => mret (Unexpected e)
      end) w (returns (λ res w',
    match res with
    | Value _ => v_out (view_of w') = v_out (view_of w) ++ concat ds
    | Unexpected _ => ∃ bs, bs `prefix_of` concat ds ∧ v_out (view_of w') = v_out (view_of w) ++ bs
    end)).
Proof.
  intros Hf Hsz. apply wp_bind_returns. eapply wp_returns_mono; [by apply feed_law|].
  intros [n [e|]] w1 (bs & Hv & Hbs); simpl in Hbs.
  { apply wp_ret. simpl. exists bs. split; [done|]. by rewrite Hv. }
  pose proof (f_equal length Hbs) as Hlen. rewrite length_app in Hlen.
  unfold pending, BatchNode_pending in Hlen. simpl in Hlen.
  apply wp_bind_returns. eapply wp_returns_mono; [apply flush_law|].
  { unfold pending, Write.WriteNode_pending. split; [simpl; lia|]. unfold lenZ in *. simpl. lia. }
  intros [n' [k|e]] w2 (bs2 & Hv2 & Hbs2); simpl in Hbs2; apply wp_ret; simpl.
  - destruct Hbs2 as [_ Hbs2]. rewrite Hv2, Hv, emit_emit, v_out_emit, <- Hbs. do 2 f_equal.
    rewrite <- Hbs2. by rewrite app_nil_r.
  - exists (bs ++ bs2). rewrite Hv2, Hv, emit_emit, v_out_emit. split; [|done].
    rewrite <- Hbs. by apply prefix_app.
Qed.

Definition empty_view (mode : Z) : view := View [] mode ∅ ∅ ∅.

(** Witness: two pieces, and a kernel that first takes two bytes, then one. *)
Lemma batch_write_transparent_witness :
  let w0 := Sim (empty_view 8192) [2; 1] 0 0 in
  let F := 100%nat : Fuel in
  ∃ w', ('(n, r) ← feed (W := sim) (BatchNode_new Write.mkWriteNode) [str "ab"; str "cde"];
         match r with
         | None => '(_, res) ← BatchNode_flush n; mret res
         | Some e => mret (Unexpected e)
         end) w0 = (Done (Value 5), w') ∧ v_out (view_of w') = str "abcde".
Proof.
  intros w0 F.
  pose proof (batch_write_transparent (F := F) [str "ab"; str "cde"] w0) as Hb.
  eexists. split; [vm_compute; reflexivity|].
  refine (Hb _ _); vm_compute; [lia|reflexivity].
Defined.
