(* ===== verification/Mapped.v ===== *)
(** The sources that no command uses at the moment: source/mapped_file.h,
    source/mapped_chunk_file.h, source/zero_copy_read.h (with the
    [sendfile] sink of sink/send_file.h). *)

From S2P Require Import Prelude Kernel SimKernel Nodes AutoRelease Sinks Sources Batch.

(** ** source/mapped_file.h *)
Section mapped_file.
Context {W Next : Type} `{Kernel W} `{SpanConsumer W Next}.

Record MappedFileNode := mkMappedFileNode { mf_next : Next }.

(** A span of [size] bytes at [map_ptr], where [mapped] is found: memory at
    [MAP_FAILED] is not mapped, and reading it has no defined behaviour. *)
Definition span_at (map_ptr size : Z) (mapped : bytes) : M W bytes :=
  if (map_ptr =? MAP_FAILED) && (0 <? size) then undefined else mret (takeZ size mapped).

(** [operator()(int fd, std::size_t size)]: the result of [mmap] is compared
    with the null pointer. *)
#[global] Instance MappedFileNode_source : FdSource W MappedFileNode :=
  λ n fd size,
    '(map_ptr, mapped) ← sys_mmap size fd;
    if map_ptr =? 0 then
      err ← get_errno;
      mret (n, Unexpected ("failed to map file: " +:+ strerror err))
    else
      finally
        (data ← span_at map_ptr size mapped;
         '(next', r) ← call_span (mf_next n) data;
         mret (mkMappedFileNode next', r))
        (AutoMap_dtor map_ptr size).

End mapped_file.
Arguments MappedFileNode : clear implicits.

(** ** source/mapped_chunk_file.h *)
Section mapped_chunk_file.
Context {W Next : Type} `{Kernel W} `{SpanConsumer W Next}.

Inductive MappedChunkFile := mkMappedChunkFile.

Definition mapped_chunk_size : Z := 10 * 1024 * 1024.

(** [map_span | std::views::chunk(n)] *)
Fixpoint chunks_of (rounds : nat) (n : Z) (s : bytes) : list bytes :=
  match rounds, s with
  | S rounds, _ :: _ => takeZ n s :: chunks_of rounds n (dropZ n s)
  | _, _ => []
  end.

(** Touch one byte of every page: [dummy += chunk[i]] for [i += 4096]. *)
Fixpoint touch_pages (dummy : Z) (pages : list bytes) : Z :=
  match pages with
  | [] => dummy
  | page :: pages => touch_pages ((dummy + Z.of_N (Byte.to_N (hd x00 page))) mod 256) pages
  end.

(** The loop over the chunks; every chunk goes to a new [N{}]. *)
Fixpoint map_chunks (new_next : Next) (chunks : list bytes) (dummy bytes_output : Z)
    : M W (expected Z) :=
  match chunks with
  | [] => mret (Value bytes_output)
  | chunk :: chunks =>
      let dummy := touch_pages dummy (chunks_of (length chunk) 4096 chunk) in
      '(_, processed) ← call_span new_next chunk;
      match processed with
      | Unexpected e => mret (Unexpected e)
      | Value k => map_chunks new_next chunks dummy (bytes_output +ₛ k)
      end
  end.

(** [operator()<N>(int fd, std::size_t size)] *)
Definition MappedChunkFile_call (new_next : Next) (fd size : Z) : M W (expected Z) :=
  '(map_ptr, mapped) ← sys_mmap size fd;
  if map_ptr =? MAP_FAILED then
    err ← get_errno;
    mret (Unexpected ("failed to map file: " +:+ strerror err))
  else
    finally
      (map_chunks new_next
         (chunks_of (length (takeZ size mapped)) mapped_chunk_size (takeZ size mapped)) 0 0)
      (AutoMap_dtor map_ptr size).

End mapped_chunk_file.

(** ** source/zero_copy_read.h *)
Section zero_copy_read.
Context {W Next : Type} `{FdConsumer W Next} {F : Fuel}.

Definition zero_copy_chunk_size : Z := 10 * 1024 * 1024.

(** One round of [while (offset != size)]; the variables are [offset] and
    [bytes_output]. *)
Definition zero_copy_round (new_next : Next) (fd size : Z) (v : Z * Z) : M W (Z * Z + expected Z) :=
  let '(offset, bytes_output) := v in
  if offset =? size then mret (inr (Value bytes_output))
  else
    let read_this_iter := zero_copy_chunk_size `min` (size -ₛ offset) in
    '(_, processed) ← call_fd new_next fd read_this_iter offset;
    match processed with
    | Unexpected e => mret (inr (Unexpected e))
    | Value k => mret (inl (offset +ₛ read_this_iter, bytes_output +ₛ k))
    end.

(** [operator()<N>(int fd, std::size_t size)] *)
Definition ZeroCopyRead_call (new_next : Next) (fd size : Z) : M W (expected Z) :=
  loop fuel (zero_copy_round new_next fd size) (0, 0).

End zero_copy_read.

(** ** Laws *)

Section mapped_laws.
Context {W : Type} `{LawfulKernel W} {F : Fuel}.

Lemma AutoMap_dtor_law map_ptr size (w : W) :
  wp (AutoMap_dtor map_ptr size) w (returns (λ _ w', view_of w' = view_of w)).
Proof.
  unfold AutoMap_dtor. case_match; [by apply wp_ret|].
  apply wp_bind_returns. eapply wp_returns_mono; [apply munmap_law|]. intros; by apply wp_ret.
Qed.

(** Chunks put back together. *)
Lemma concat_chunks_of rounds n (s : bytes) :
  0 < n → (length s ≤ rounds)%nat → concat (chunks_of rounds n s) = s.
Proof.
  intros Hn. revert s. induction rounds as [|rounds IH]; intros s Hs.
  { destruct s; [done|simpl in Hs; lia]. }
  destruct s as [|x s]; [done|].
  change (takeZ n (x :: s) ++ concat (chunks_of rounds n (dropZ n (x :: s))) = x :: s).
  rewrite IH; [apply takeZ_dropZ|]. rewrite dropZ_drop, length_drop. simpl in *. lia.
Qed.

(** The chunks through a stateless sink that keeps every byte. *)
Lemma map_chunks_law (chunks : list bytes) dummy k (w : W) :
  (length (concat chunks) < fuel)%nat → lenZ (concat chunks) < size_max →
  0 ≤ k → k + lenZ (concat chunks) < size_max →
  wp (map_chunks Write.mkWriteNode chunks dummy k) w (returns (λ r w',
    match r with
    | Value n => n = k + lenZ (concat chunks) ∧ view_of w' = emit (concat chunks) (view_of w)
    | Unexpected _ => ∃ bs, bs `prefix_of` concat chunks ∧ view_of w' = emit bs (view_of w)
    end)).
Proof.
  revert dummy k w. induction chunks as [|c cs IH]; intros dummy k w Hf Hsz Hk Hksz; simpl in *.
  { apply wp_ret. simpl. rewrite emit_nil. split; [|done]. unfold lenZ. simpl. lia. }
  rewrite length_app in Hf. autorewrite with om_len in *.
  pose proof (lenZ_nonneg c). pose proof (lenZ_nonneg (concat cs)).
  apply wp_bind_returns. unfold call_span, Write.WriteNode_span, call_view, Write.WriteNode_view,
    call_line, Write.WriteNode_line. apply wp_bind_returns.
  eapply wp_returns_mono; [apply Write.write_data_law; lia|].
  intros [n|e] w1 Hr; apply wp_ret; simpl.
  - destruct Hr as [-> Hv]. rewrite size_add_small by lia.
    eapply wp_returns_mono; [apply IH; lia|].
    intros [m|e] w2; simpl.
    + intros [-> Hv2]. split; [lia|]. by rewrite Hv2, Hv, emit_emit.
    + intros (bs & Hbs & Hv2). exists (c ++ bs).
      split; [by apply prefix_app|]. by rewrite Hv2, Hv, emit_emit.
  - destruct Hr as [j Hv]. apply wp_ret. simpl. exists (takeZ j c).
    split; [apply prefix_app_r; auto with om|done].
Qed.

End mapped_laws.

(** C32. [MappedChunkFile | Write] on a regular file, when it is asked for the
    size of the file: either the whole content goes to the standard output and
    its length is reported, or an error is reported and a first part of the
    content has gone out; it never reads outside the mapping. *)
Theorem mapped_chunk_delivers_file {W} `{LawfulKernel W} {F : Fuel} fd c p (w : W) :
  is_file fd c p (view_of w) → (length c < fuel)%nat → lenZ c < size_max →
  wp (MappedChunkFile_call Write.mkWriteNode fd (lenZ c)) w (returns (λ r w',
    match r with
    | Value n => n = lenZ c ∧ view_of w' = emit c (view_of w)
    | Unexpected _ => ∃ bs, bs `prefix_of` c ∧ view_of w' = emit bs (view_of w)
    end)).
Proof.
  intros Hf Hfuel Hsz. unfold MappedChunkFile_call. apply wp_bind_returns.
  eapply wp_returns_mono; [by apply (mmap_law fd c p)|].
  intros [ptr bs] w1 [Hv [->|(Hptr & Hpos & ->)]].
  { rewrite Z.eqb_refl. apply wp_bind_returns. unfold wp. simpl.
    exists []. split; [apply prefix_nil|]. by rewrite emit_nil. }
  rewrite (proj2 (Z.eqb_neq _ _)) by lia. rewrite !(takeZ_all (lenZ c) c) by lia.
  assert (concat (chunks_of (length c) mapped_chunk_size c) = c) as Hcat
    by by apply concat_chunks_of.
  apply wp_finally. eapply wp_mono; [apply map_chunks_law; rewrite ?Hcat; lia|].
  intros [[n|e]| | | |] w2; simpl; try done; rewrite Hcat; intros Hr;
    (eapply wp_returns_mono; [apply AutoMap_dtor_law|]; intros [] w3 Hv3; simpl).
  - destruct Hr as [-> Hv2]. by rewrite Hv3, Hv2, Hv.
  - destruct Hr as (bs & Hbs & Hv2). exists bs. by rewrite Hv3, Hv2, Hv.
Qed.

(** A failed [mmap] is not detected: whatever the kernel and the successor,
    when [mmap] of a non-empty file returns [MAP_FAILED], [MappedFile] does not
    report the failure but reads the address [MAP_FAILED]. *)
Theorem mapped_file_misses_failure {W Next} `{Kernel W} `{SpanConsumer W Next}
    (n : MappedFileNode Next) (fd size : Z) (bs : bytes) (w w' : W) :
  0 < size → sys_mmap size fd w = (Done (MAP_FAILED, bs), w') →
  call_source n fd size w = (UB, w').
Proof.
  intros Hsz Hmmap. unfold call_source, MappedFileNode_source, mbind, M_bind.
  rewrite Hmmap. simpl. unfold finally, span_at. rewrite Z.eqb_refl.
  by rewrite (proj2 (Z.ltb_lt 0 size)) by done.
Qed.

Definition file_view (content : bytes) (mode : Z) : view :=
  View [] mode {[3 := OFile content 0]} ∅ {["f"%string := content]}.

Lemma mapped_file_misses_failure_witness :
  let F := 100%nat : Fuel in
  let w0 := Sim (file_view (str "abc") 8192) [-1] 0 0 in
  (call_source (mkMappedFileNode Write.mkWriteNode) 3 3 w0).1 = UB.
Proof.
  intros F w0.
  rewrite (mapped_file_misses_failure (mkMappedFileNode Write.mkWriteNode) 3 3 [] w0
             (Sim (file_view (str "abc") 8192) [] 22 0)); reflexivity.
Defined.

(** The [sendfile] sink starts every round at the same offset: when the
    kernel takes two of five bytes in the first round, the two bytes are sent
    again and the sink reports seven bytes written. *)
Theorem send_file_repeats_after_short_transfer :
  let F := 100%nat : Fuel in
  let w0 := Sim (file_view (str "abcde") 8192) [2] 0 0 in
  ∃ w', call_fd (W := sim) SendFile.mkSendFile 3 5 0 w0
          = (Done (SendFile.mkSendFile, Value 7), w') ∧
        v_out (view_of w') = str "ababcde".
Proof. intros F w0. eexists. split; vm_compute; reflexivity. Qed.

(** Witness: three bytes, of which the kernel first writes one. *)
Lemma mapped_chunk_delivers_file_witness :
  let F := 100%nat : Fuel in
  let w := Sim (file_view (str "abc") 8192) [99; 1] 0 0 in
  ∃ w', MappedChunkFile_call Write.mkWriteNode 3 3 w = (Done (Value 3), w') ∧
        view_of w' = emit (str "abc") (view_of w).
Proof.
  intros F w. pose proof (mapped_chunk_delivers_file (F := F) 3 (str "abc") 0 w) as Hm.
  destruct (MappedChunkFile_call Write.mkWriteNode 3 3 w) as [o w'] eqn:Hrun.
  assert (o = Done (Value 3)) as -> by (vm_compute in Hrun; injection Hrun as <- <-; reflexivity).
  exists w'. split; [reflexivity|]. unfold wp in Hm.
  change (lenZ (str "abc")) with 3 in Hm. rewrite Hrun in Hm.
  apply Hm; [|unfold fuel, F; vm_compute; lia|reflexivity].
  split_and!; [vm_compute; reflexivity|lia|vm_compute; congruence].
Defined.
