(* ===== verification/Lines.v ===== *)
(** [std::string_view] searching, and texts as sequences of lines. *)

From S2P Require Import Prelude.

(** ** The [std::string_view] members the transforms use; [None] is [npos] *)

Fixpoint index_of (c : byte) (s : bytes) : option Z :=
  match s with
  | [] => None
  | x :: s => if decide (x = c) then Some 0 else Z.succ <$> index_of c s
  end.

(** [s.find(c, pos)] *)
Definition sv_find (c : byte) (pos : Z) (s : bytes) : option Z :=
  Z.add pos <$> index_of c (dropZ pos s).

(** [s.find_last_of(c)] *)
Definition sv_find_last_of (c : byte) (s : bytes) : option Z :=
  (λ i, lenZ s - 1 - i) <$> index_of c (reverse s).

(** [s.substr(pos, n)]; [pos > size()] throws [std::out_of_range]. *)
Definition sv_substr {W} (pos n : Z) (s : bytes) : M W bytes :=
  if lenZ s <? pos then throw "basic_string_view::substr" else mret (takeZ n (dropZ pos s)).

(** [while (!line.empty() && (line.front() == '\n' || line.front() == '\r'))
      line.remove_prefix(1);] *)
Fixpoint trim_front (line : bytes) : bytes :=
  match line with
  | [] => []
  | x :: rest => if bool_decide (x = nl) || bool_decide (x = cr) then trim_front rest else line
  end.

Lemma index_of_None c s : index_of c s = None ↔ c ∉ s.
Proof.
  induction s as [|x s IH]; simpl; [set_solver|].
  case_decide; [set_solver|]. rewrite fmap_None, IH. set_solver.
Qed.

Lemma index_of_Some c s i :
  index_of c s = Some i ↔ ∃ a b, s = a ++ c :: b ∧ lenZ a = i ∧ c ∉ a.
Proof.
  revert i. induction s as [|x s IH]; intros i; simpl.
  { split; [done|]. by intros ([|y a] & r & ? & _). }
  case_decide as Hx.
  - subst x. split.
    + intros [= <-]. exists [], s. split_and!; [done|done|set_solver].
    + intros (a & b & Heq & <- & Ha). destruct a; [done|]. simplify_eq/=. set_solver.
  - split.
    + intros (j & Hj & ->)%fmap_Some. apply IH in Hj as (a & b & -> & <- & Ha).
      exists (x :: a), b. split_and!; [done|range|set_solver].
    + intros (a & b & Heq & <- & Ha). destruct a as [|y a]; simplify_eq/=.
      apply fmap_Some. exists (lenZ a). rewrite lenZ_cons. split; [|lia].
      apply IH. exists a, b. set_solver.
Qed.

Lemma sv_find_None c pos s : sv_find c pos s = None ↔ c ∉ dropZ pos s.
Proof. unfold sv_find. by rewrite fmap_None, index_of_None. Qed.

(** The first occurrence of [c] after a given prefix. *)
Lemma sv_find_Some c a s i :
  sv_find c (lenZ a) (a ++ s) = Some i ↔
  ∃ l b, s = l ++ c :: b ∧ i = lenZ a + lenZ l ∧ c ∉ l.
Proof.
  unfold sv_find. rewrite dropZ_app, fmap_Some. split.
  - intros (j & (l & b & -> & <- & Hl)%index_of_Some & ->). eauto.
  - intros (l & b & -> & -> & Hl). exists (lenZ l). split; [|done]. apply index_of_Some. eauto.
Qed.

Lemma sv_find_last_of_None c s : sv_find_last_of c s = None ↔ c ∉ s.
Proof. unfold sv_find_last_of. by rewrite fmap_None, index_of_None, elem_of_reverse. Qed.

Lemma sv_find_last_of_Some c s i :
  sv_find_last_of c s = Some i ↔ ∃ a l, s = a ++ c :: l ∧ lenZ a = i ∧ c ∉ l.
Proof.
  unfold sv_find_last_of. rewrite fmap_Some. split.
  - intros (j & (l & a & Heq & <- & Hl)%index_of_Some & ->).
    exists (reverse a), (reverse l).
    apply (f_equal reverse) in Heq. rewrite reverse_involutive in Heq.
    rewrite reverse_app, reverse_cons, <- (assoc_L (++)) in Heq. simpl in Heq.
    split_and!; [done| |by rewrite elem_of_reverse]. rewrite Heq.
    autorewrite with om_len. unfold lenZ. rewrite !length_reverse. lia.
  - intros (a & l & -> & <- & Hl). exists (lenZ l). split.
    + apply index_of_Some. exists (reverse l), (reverse a).
      rewrite reverse_app, reverse_cons, <- (assoc_L (++)). simpl.
      split_and!; [done| |by rewrite elem_of_reverse]. unfold lenZ. by rewrite length_reverse.
    + range.
Qed.

(** ** Lines *)

(** The lines of a text; a last line need not be terminated. *)
Fixpoint lines (s : bytes) : list bytes :=
  match s with
  | [] => []
  | x :: s =>
      if decide (x = nl) then [] :: lines s
      else match lines s with
           | [] => [[x]]
           | l :: ls => (x :: l) :: ls
           end
  end.

(** Lines printed one after the other. *)
Definition unlines (ls : list bytes) : bytes := ls ≫= λ l, l ++ [nl].

Lemma lines_end l : nl ∉ l → l ≠ [] → lines l = [l].
Proof.
  induction l as [|x l IH]; [done|]. intros Hl _. simpl.
  rewrite decide_False by set_solver. destruct l; [done|]. by rewrite IH by set_solver.
Qed.

Lemma lines_cons l s : nl ∉ l → lines (l ++ nl :: s) = l :: lines s.
Proof.
  induction l as [|x l IH]; intros Hl; simpl; [done|].
  rewrite decide_False by set_solver. by rewrite IH by set_solver.
Qed.

Lemma unlines_app ls ks : unlines (ls ++ ks) = unlines ls ++ unlines ks.
Proof. apply bind_app. Qed.

Lemma unlines_cons l ls : unlines (l :: ls) = l ++ nl :: unlines ls.
Proof. unfold unlines. simpl. by rewrite <- (assoc_L (++)). Qed.

(** Printing lines and splitting them again. *)
Lemma lines_unlines ls : Forall (λ l, nl ∉ l) ls → lines (unlines ls) = ls.
Proof.
  induction 1 as [|l ls Hl _ IH]; [done|]. by rewrite unlines_cons, lines_cons, IH.
Qed.

Lemma lines_no_newline s : Forall (λ l, nl ∉ l) (lines s).
Proof.
  induction s as [|x s IH]; simpl; [constructor|].
  case_decide; [constructor; [set_solver|done]|].
  destruct (lines s); inversion_clear IH; repeat constructor; set_solver.
Qed.

Lemma lines_length s : (length (lines s) ≤ length s)%nat.
Proof.
  induction s as [|x s IH]; simpl; [done|].
  case_decide; simpl; [lia|]. destruct (lines s); simpl in *; lia.
Qed.

(** The text itself, up to the newline the last line may lack. *)
Lemma unlines_lines s : s = [] ∨ last s = Some nl → unlines (lines s) = s.
Proof.
  induction s as [|x s IH]; [done|]. intros Hs. simpl.
  assert (s = [] ∧ x = nl ∨ s ≠ [] ∧ last s = Some nl) as [[-> ->]|[Hne Hl]].
  { destruct s as [|y s]; destruct Hs as [|Hs]; simplify_eq/=; auto. }
  - done.
  - specialize (IH (or_intror Hl)). case_decide as Hx.
    + subst x. by rewrite unlines_cons, IH.
    + destruct (lines s) as [|l ls] eqn:E; [by subst s|].
      rewrite unlines_cons in *. simpl. by rewrite IH.
Qed.

(** ** The line around a position

    [line_around s e l]: [l] is a whole line of [s], without its terminator,
    and the position [e] is in it or at its end. *)
Definition line_around (s : bytes) (e : Z) (l : bytes) : Prop :=
  ∃ pre post, s = pre ++ l ++ post ∧ nl ∉ l ∧
    (pre = [] ∨ last pre = Some nl) ∧ (post = [] ∨ head post = Some nl) ∧
    lenZ pre ≤ e ≤ lenZ pre + lenZ l.

(** Where the line around [e] starts and ends. *)
Definition line_start (s : bytes) (e : Z) : Z :=
  match sv_find_last_of nl (takeZ e s) with None => 0 | Some i => i +ₛ 1 end.

Definition line_end (s : bytes) (e : Z) : Z :=
  match sv_find nl e s with None => lenZ s | Some i => i end.

Definition line_of (s : bytes) (e : Z) : bytes :=
  takeZ (line_end s e -ₛ line_start s e) (dropZ (line_start s e) s).

(** What lies before the line, and the part of the line before [e]. *)
Lemma line_start_spec a b :
  lenZ (a ++ b) < size_max →
  ∃ pre l, a = pre ++ l ∧ nl ∉ l ∧ (pre = [] ∨ last pre = Some nl) ∧
           line_start (a ++ b) (lenZ a) = lenZ pre.
Proof.
  intros Hsz. unfold line_start. rewrite takeZ_app.
  destruct (sv_find_last_of nl a) as [i|] eqn:E.
  - apply sv_find_last_of_Some in E as (pre & l & -> & <- & Hl).
    exists (pre ++ [nl]), l. rewrite <- (assoc_L (++)). split_and!; [done|done| |].
    + right. by rewrite last_snoc.
    + rewrite size_add_small by range. range.
  - apply sv_find_last_of_None in E. exists [], a. split_and!; auto.
Qed.

Lemma line_end_spec a b :
  ∃ l post, b = l ++ post ∧ nl ∉ l ∧ (post = [] ∨ head post = Some nl) ∧
            line_end (a ++ b) (lenZ a) = lenZ a + lenZ l.
Proof.
  unfold line_end. destruct (sv_find nl (lenZ a) (a ++ b)) as [i|] eqn:E.
  - apply sv_find_Some in E as (l & post & -> & -> & Hl).
    exists l, (nl :: post). split_and!; auto.
  - apply sv_find_None in E. rewrite dropZ_app in E. exists b, []. rewrite app_nil_r.
    split_and!; auto. range.
Qed.

Lemma line_of_around s e :
  0 ≤ e ≤ lenZ s → lenZ s < size_max →
  line_around s e (line_of s e) ∧ 0 ≤ line_start s e ≤ lenZ s.
Proof.
  intros He Hsz. rewrite <- (takeZ_dropZ e s) in *.
  set (a := takeZ e s) in *. set (b := dropZ e s) in *.
  assert (lenZ a = e) as Ha.
  { unfold a. rewrite lenZ_takeZ by lia. unfold a, b in He. rewrite takeZ_dropZ in He. lia. }
  rewrite <- Ha in *. clearbody a b.
  destruct (line_start_spec a b Hsz) as (pre & l1 & -> & Hl1 & Hpre & Hs).
  destruct (line_end_spec (pre ++ l1) b) as (l2 & post & -> & Hl2 & Hpost & Hend).
  assert (line_of ((pre ++ l1) ++ l2 ++ post) (lenZ (pre ++ l1)) = l1 ++ l2) as ->.
  { unfold line_of. rewrite Hs, Hend. rewrite <- (assoc_L (++) pre), dropZ_app.
    rewrite size_sub_small by range.
    replace (lenZ (pre ++ l1) + lenZ l2 - lenZ pre) with (lenZ (l1 ++ l2)) by range.
    by rewrite (assoc_L (++) l1), takeZ_app. }
  rewrite Hs. split; [|range].
  exists pre, post. split_and!; [by rewrite <- !(assoc_L (++))| |done|done|range..].
  set_solver.
Qed.

(** Only one line is around a position. *)
Lemma line_around_pre s e l1 l2 pre1 pre2 post1 post2 :
  s = pre1 ++ l1 ++ post1 → s = pre2 ++ l2 ++ post2 → nl ∉ l1 →
  pre2 = [] ∨ last pre2 = Some nl →
  lenZ pre1 ≤ e ≤ lenZ pre1 + lenZ l1 → lenZ pre2 ≤ e →
  lenZ pre2 ≤ lenZ pre1.
Proof.
  intros H1 H2 Hl1 [->|Hlast] He He2; [range|].
  apply last_Some in Hlast as [pre ->]. destruct (decide (lenZ pre < lenZ pre1)); [range|].
  destruct Hl1. apply (list_elem_of_lookup_2 _ (length pre - length pre1)).
  assert (s !! length pre = Some nl) as Hs.
  { rewrite H2, <- !(assoc_L (++)). simpl. by rewrite list_lookup_middle. }
  unfold lenZ in *. rewrite length_app in *. simpl in *.
  rewrite H1, lookup_app_r, lookup_app_l in Hs by lia. done.
Qed.

Lemma line_around_unique s e l1 l2 : line_around s e l1 → line_around s e l2 → l1 = l2.
Proof.
  intros (pre1 & post1 & H1 & Hl1 & Hpre1 & Hpost1 & He1)
    (pre2 & post2 & H2 & Hl2 & Hpre2 & Hpost2 & He2).
  assert (lenZ pre1 = lenZ pre2) as Hlen.
  { pose proof (line_around_pre _ _ _ _ _ _ _ _ H1 H2 Hl1 Hpre2 He1 (proj1 He2)).
    pose proof (line_around_pre _ _ _ _ _ _ _ _ H2 H1 Hl2 Hpre1 He2 (proj1 He1)). lia. }
  rewrite H1 in H2. apply app_inj_1 in H2 as [-> H2]; [|unfold lenZ in Hlen; lia].
  clear H1 Hpre1 Hpre2 He1 He2 Hlen. revert l2 H2 Hl2.
  induction l1 as [|x l1 IH]; intros [|y l2] H2 Hl2; simplify_eq/=.
  - done.
  - destruct Hpost1 as [Hp|Hp]; simplify_eq/=. set_solver.
  - destruct Hpost2 as [Hp|Hp]; simplify_eq/=. set_solver.
  - f_equal. apply IH; set_solver.
Qed.

Lemma lines_app a rest : lines (a ++ nl :: rest) = lines (a ++ [nl]) ++ lines rest.
Proof.
  induction a as [|x a IH]; simpl; [done|]. rewrite IH. case_decide; [done|].
  destruct (lines (a ++ [nl])) as [|l ls] eqn:E; [|done].
  exfalso. clear -E. destruct a as [|y a]; simpl in E; [done|].
  case_decide; [done|]. by destruct (lines (a ++ [nl])).
Qed.

(** The smallest run of whole lines that covers [len] bytes at [pos]. *)
Definition lines_around (s : bytes) (pos len : Z) (l : bytes) : Prop :=
  ∃ pre post, s = pre ++ l ++ post ∧
    (pre = [] ∨ last pre = Some nl) ∧ (post = [] ∨ head post = Some nl) ∧
    lenZ pre ≤ pos ∧ pos + len ≤ lenZ pre + lenZ l ∧
    nl ∉ takeZ (pos - lenZ pre) l ∧ nl ∉ dropZ (pos + len - lenZ pre) l.

Lemma lines_around_cut (a m b : bytes) :
  lenZ (a ++ m ++ b) < size_max →
  let s := a ++ m ++ b in
  let start := line_start s (lenZ a) in
  let stop := line_end s (lenZ a + lenZ m) in
  lines_around s (lenZ a) (lenZ m) (takeZ (stop - start) (dropZ start s)).
Proof.
  intros Hsz s start stop.
  destruct (line_start_spec a (m ++ b) Hsz) as (pre & l1 & -> & Hl1 & Hpre & Hs).
  fold s start in Hs.
  destruct (line_end_spec ((pre ++ l1) ++ m) b) as (l2 & post & -> & Hl2 & Hpost & Hend).
  rewrite <- (assoc_L (++) (pre ++ l1)), (lenZ_app _ m) in Hend. fold s stop in Hend.
  assert (takeZ (stop - start) (dropZ start s) = l1 ++ m ++ l2) as ->.
  { rewrite Hs, Hend. unfold s. rewrite <- (assoc_L (++) pre), dropZ_app.
    replace (lenZ (pre ++ l1) + lenZ m + lenZ l2 - lenZ pre)
      with (lenZ (l1 ++ m ++ l2)) by range.
    replace (l1 ++ m ++ l2 ++ post) with ((l1 ++ m ++ l2) ++ post)
      by (by rewrite <- !(assoc_L (++))).
    by rewrite takeZ_app. }
  exists pre, post. split_and!; [|done|done|range|range| |].
  - unfold s. by rewrite <- !(assoc_L (++)).
  - replace (lenZ (pre ++ l1) - lenZ pre) with (lenZ l1) by range. by rewrite takeZ_app.
  - replace (lenZ (pre ++ l1) + lenZ m - lenZ pre) with (lenZ (l1 ++ m)) by range.
    by rewrite (assoc_L (++) l1), dropZ_app.
Qed.
