(* ===== verification/Regex.v ===== *)
(** The regular-expression transforms: transform/vectorscan_regex.h,
    transform/re2_regex.h and transform/simple_regex.h.

    The matching engines (Vectorscan, RE2 and [std::regex]) are parameters;
    what is modelled is how the transforms turn their answers into lines. *)

From S2P Require Import Prelude Kernel SimKernel Nodes Sinks Batch Lines.

(** ** transform/vectorscan_regex.h *)

Definition HS_SUCCESS : Z := 0.

Definition HS_FLAG_MULTILINE : Z := 4.

Definition HS_FLAG_SOM_LEFTMOST : Z := 256.

Definition HS_MODE_BLOCK : Z := 1.

(** The calls of the Hyperscan API, with what they return through pointers:
    the database or the message of a compile error, the scratch space, and the
    [(from, to)] of the match callbacks in order. *)
Class Hyperscan (DB Scratch : Type) := {
  hs_compile : string → Z → Z → Z * option DB * string;
  hs_alloc_scratch : option DB → Z * option Scratch;
  hs_scan : option DB → bytes → option Scratch → Z * list (Z * Z)
}.

(** A reported match lies inside the scanned data. *)
Class LawfulHyperscan (DB Scratch : Type) `{Hyperscan DB Scratch} :=
  hs_scan_law db data scratch :
    Forall (λ m, 0 ≤ m.1 ≤ m.2 ∧ m.2 ≤ lenZ data) (hs_scan db data scratch).2.

Section vectorscan.
Context {W Next DB Scratch : Type} `{Hyperscan DB Scratch} `{ViewConsumer W Next}.

(** [struct Match { std::size_t end; }] and [struct Context]. *)
Record Match := { m_end : Z }.

Record Context := { matches : list Match }.

(** The match callback: keep the end offset. *)
Definition on_match (ctx : Context) (from_to : Z * Z) : Context :=
  {| matches := matches ctx ++ [{| m_end := from_to.2 |}] |}.

Record VectorScanState := { vs_db : option DB; vs_scratch : option Scratch }.

(** [VectorScanState(cstring_view regex)] *)
Definition VectorScanState_new (regex : string) : M W VectorScanState :=
  let '(res, db, message) := hs_compile regex HS_FLAG_MULTILINE HS_MODE_BLOCK in
  if negb (res =? HS_SUCCESS) then
    throw ("failed to compile regex: " +:+ regex +:+ " [" +:+ message +:+ "]")
  else
    let '(res, scratch) := hs_alloc_scratch db in
    if negb (res =? HS_SUCCESS) then
      throw ("failed to create scratch space: " +:+ pretty res)
    else mret {| vs_db := db; vs_scratch := scratch |}.

Record VectorScanNode := mkVectorScanNode { vs_next : Next; vs_state : VectorScanState }.

(** The line the body of the loop cuts out for a match. *)
Definition match_line (str : bytes) (match_end : Z) : M W bytes :=
  before ← sv_substr 0 match_end str;
  let start := match sv_find_last_of nl before with None => 0 | Some i => i +ₛ 1 end in
  let stop := match sv_find nl match_end str with None => lenZ str | Some i => i end in
  sv_substr start (stop -ₛ start) str.

(** [for (const auto &match : ctx.matches)] *)
Fixpoint emit_matches (next : Next) (str : bytes) (ms : list Match) (count : Z)
    : M W (Next * expected Z) :=
  match ms with
  | [] => mret (next, Value count)
  | m :: ms =>
      line ← match_line str (m_end m);
      '(next, next_res) ← call_view next line;
      match next_res with
      | Unexpected e => mret (next, Unexpected e)
      | Value _ =>
          '(next, next_res) ← call_view next [nl];
          match next_res with
          | Unexpected e => mret (next, Unexpected e)
          | Value _ => emit_matches next str ms count
          end
      end
  end.

(** [operator()(std::span<const std::byte> data)] *)
#[global] Instance VectorScanNode_span : SpanConsumer W VectorScanNode :=
  λ n data,
    let '(res, events) := hs_scan (vs_db (vs_state n)) data (vs_scratch (vs_state n)) in
    let ctx := foldl on_match {| matches := [] |} events in
    if negb (res =? HS_SUCCESS) then mret (n, Unexpected "failed to parse input")
    else
      '(next', r) ← catching (emit_matches (vs_next n) data (matches ctx) (lenZ (matches ctx)))
                      (λ e, mret (vs_next n, Unexpected e));
      mret (mkVectorScanNode next' (vs_state n), r).

End vectorscan.
Arguments VectorScanState : clear implicits.
Arguments VectorScanNode : clear implicits.

(** What a transform hands to its successor for a list of lines: each line,
    then a newline. *)
Definition pieces (ls : list bytes) : list bytes := ls ≫= λ l, [l; [nl]].

Lemma pieces_cons l ls : pieces (l :: ls) = l :: [nl] :: pieces ls.
Proof. done. Qed.

Lemma concat_pieces ls : concat (pieces ls) = unlines ls.
Proof. induction ls as [|l ls IH]; [done|]. by rewrite pieces_cons, unlines_cons, <- IH. Qed.

(** The end of a run over lines, as the transforms report it. *)
Definition reported {N} (count : Z) (r : N * option string) : N * expected Z :=
  (r.1, match r.2 with None => Value count | Some e => Unexpected e end).

Section vectorscan_laws.
Context {W Next DB Scratch : Type} `{Hyperscan DB Scratch} `{ViewConsumer W Next}.

Lemma match_line_eq (str : bytes) (e : Z) (w : W) :
  0 ≤ e ≤ lenZ str → lenZ str < size_max → match_line str e w = (Done (line_of str e), w).
Proof.
  intros He Hsz. destruct (line_of_around str e He Hsz) as [_ Hs].
  unfold match_line, sv_substr, line_of, line_start, line_end in *.
  rewrite (proj2 (Z.ltb_ge _ 0)) by lia. unfold mbind, M_bind. simpl. rewrite dropZ_0.
  by rewrite (proj2 (Z.ltb_ge _ _)) by lia.
Qed.

(** The loop over the matches is a run over the lines around their ends. *)
Lemma emit_matches_feed (next : Next) (str : bytes) (ms : list Match) count (w : W) :
  Forall (λ m, 0 ≤ m_end m ≤ lenZ str) ms → lenZ str < size_max →
  emit_matches next str ms count w =
    (r ← feed next (pieces (line_of str ∘ m_end <$> ms)); mret (reported count r)) w.
Proof.
  intros Hms Hsz. revert next w. induction Hms as [|m ms Hm _ IH]; intros next w; [done|].
  rewrite fmap_cons, pieces_cons. simpl. unfold mbind, M_bind in *.
  rewrite match_line_eq by done. simpl.
  destruct (call_view next _ w) as [[[n1 [k1|e1]]| | | |] w1]; simpl; try done.
  destruct (call_view n1 [nl] w1) as [[[n2 [k2|e2]]| | | |] w2]; simpl; try done.
Qed.

Lemma on_match_ends (events : list (Z * Z)) :
  m_end <$> matches (foldl on_match {| matches := [] |} events) = events.*2.
Proof.
  assert (∀ ctx, m_end <$> matches (foldl on_match ctx events)
                 = (m_end <$> matches ctx) ++ events.*2) as Hev.
  { induction events as [|ev events IH]; intros ctx; simpl; [by rewrite app_nil_r|].
    rewrite IH. simpl. by rewrite fmap_app, <- (assoc_L (++)). }
  apply Hev.
Qed.

(** A call of the node is a run over the lines around the ends of the matches. *)
Lemma vectorscan_span_feed `{!LawfulHyperscan DB Scratch} (n : VectorScanNode Next DB Scratch)
    (data : bytes) (w : W) :
  let scan := hs_scan (vs_db (vs_state n)) data (vs_scratch (vs_state n)) in
  scan.1 = HS_SUCCESS → lenZ data < size_max →
  call_span n data w =
    ('(next', r) ← catching (r ← feed (vs_next n) (pieces (line_of data <$> scan.2.*2));
                             mret (reported (lenZ scan.2) r))
                     (λ e, mret (vs_next n, Unexpected e));
     mret (mkVectorScanNode next' (vs_state n), r)) w.
Proof.
  intros scan Hres Hsz. unfold call_span, VectorScanNode_span. fold scan.
  destruct scan as [res events] eqn:Escan. simpl in Hres. subst res. simpl.
  pose proof (on_match_ends events) as Hends.
  set (ms := matches (foldl on_match {| matches := [] |} events)) in *.
  assert (lenZ ms = lenZ events) as Hlen.
  { apply (f_equal length) in Hends. rewrite !length_fmap in Hends. unfold lenZ. lia. }
  assert (Forall (λ m, 0 ≤ m_end m ≤ lenZ data) ms) as Hms.
  { rewrite <- (Forall_fmap m_end (λ e, 0 ≤ e ≤ lenZ data)). unfold compose.
    rewrite Hends, Forall_fmap.
    pose proof (hs_scan_law (vs_db (vs_state n)) data (vs_scratch (vs_state n))) as Hl.
    fold scan in Hl. rewrite Escan in Hl. eapply Forall_impl; [done|]. simpl. lia. }
  unfold mbind at 1, M_bind at 1, catching at 1. rewrite emit_matches_feed by done.
  by rewrite list_fmap_compose, Hends, Hlen.
Qed.

End vectorscan_laws.

(** ** transform/re2_regex.h *)

(** RE2: compiling a pattern, and [RE2::PartialMatch]. *)
Class RE2 (R : Type) := {
  re2_compile : string → R;
  PartialMatch : bytes → R → bool
}.

Section re2.
Context {W Next R : Type} `{RE2 R} `{ViewConsumer W Next} {F : Fuel}.

Record Re2State := { regex : R }.

(** [Re2State(cstring_view pattern)] *)
Definition Re2State_new (pattern : string) : Re2State :=
  {| regex := re2_compile ("(?m)" +:+ pattern) |}.

Record Re2RegexNode := mkRe2RegexNode { re2_next : Next; re2_state : Re2State }.

(** The loop variables: the successor, [remaining] and [found]. *)
Record re2_vars := Re2Vars { r_next : Next; remaining : bytes; r_found : Z }.

(** Pass a matching line and a newline on. *)
Definition pass_line (next : Next) (line : bytes) : M W (Next * expected Z) :=
  '(next, next_res) ← call_view next line;
  match next_res with
  | Unexpected e => mret (next, Unexpected e)
  | Value _ => call_view next [nl]
  end.

(** One round of [while (!remaining.empty())]. *)
Definition re2_round (re : R) (s : re2_vars) : M W (re2_vars + (Next * expected Z)) :=
  if bool_decide (remaining s = []) then mret (inr (r_next s, Value (r_found s)))
  else
    let newline_pos := sv_find nl 0 (remaining s) in
    line ← sv_substr 0 (default npos newline_pos) (remaining s);
    '(next, found) ←
      (if bool_decide (line ≠ []) && PartialMatch line re then
         '(next, next_res) ← pass_line (r_next s) line;
         match next_res with
         | Unexpected e => mret (next, Unexpected e)
         | Value _ => mret (next, Value (r_found s +ₛ 1))
         end
       else mret (r_next s, Value (r_found s)));
    match found with
    | Unexpected e => mret (inr (next, Unexpected e))
    | Value found =>
        match newline_pos with
        | None => mret (inr (next, Value found))
        | Some i =>
            rest ← sv_substr (i +ₛ 1) npos (remaining s);
            mret (inl (Re2Vars next rest found))
        end
    end.

(** [operator()(std::span<const std::byte> data)] *)
#[global] Instance Re2RegexNode_span : SpanConsumer W Re2RegexNode :=
  λ n data,
    '(next', r) ← catching (loop fuel (re2_round (regex (re2_state n)))
                              (Re2Vars (re2_next n) data 0))
                    (λ e, mret (re2_next n, Unexpected e));
    mret (mkRe2RegexNode next' (re2_state n), r).

(** The reference: the non-empty lines the pattern matches. *)
Definition re2_lines (re : R) (data : bytes) : list bytes :=
  filter (λ l, l ≠ [] ∧ PartialMatch l re = true) (lines data).

End re2.
Arguments Re2State : clear implicits.
Arguments Re2RegexNode : clear implicits.
Arguments re2_vars : clear implicits.

Section re2_laws.
Context {W Next R : Type} `{RE2 R} `{ViewConsumer W Next} {F : Fuel}.

(** The first line of a text, as the loop finds it. *)
Lemma first_line (s : bytes) :
  s ≠ [] → lenZ s < npos →
  (∃ l rest, s = l ++ nl :: rest ∧ nl ∉ l ∧ sv_find nl 0 s = Some (lenZ l)) ∨
  (nl ∉ s ∧ sv_find nl 0 s = None).
Proof.
  intros Hs Hsz. destruct (sv_find nl 0 s) as [i|] eqn:E.
  - left. apply (sv_find_Some nl []) in E as (l & b & -> & -> & Hl).
    exists l, b. by rewrite Z.add_0_l.
  - right. apply sv_find_None in E. by rewrite dropZ_0 in E.
Qed.

Lemma re2_lines_cons (re : R) l rest :
  nl ∉ l → re2_lines re (l ++ nl :: rest) =
    (if bool_decide (l ≠ []) && PartialMatch l re then [l] else []) ++ re2_lines re rest.
Proof.
  intros Hl. unfold re2_lines. rewrite lines_cons, filter_cons by done.
  repeat case_decide; destruct (PartialMatch l re); simpl; case_bool_decide; naive_solver.
Qed.

Lemma re2_lines_end (re : R) l :
  nl ∉ l → l ≠ [] → re2_lines re l = if PartialMatch l re then [l] else [].
Proof.
  intros Hl Hne. unfold re2_lines. rewrite lines_end, filter_cons by done.
  case_decide; destruct (PartialMatch l re); naive_solver.
Qed.

Lemma re2_lines_length (re : R) s : (length (re2_lines re s) ≤ length s)%nat.
Proof.
  unfold re2_lines. etrans; [apply length_filter|]. apply lines_length.
Qed.

(** The loop is a run over the matching lines. *)
Lemma re2_loop_feed (re : R) n (next : Next) (s : bytes) (found : Z) (w : W) :
  (length s < n)%nat → 0 ≤ found → found + lenZ s < npos →
  loop n (re2_round re) (Re2Vars next s found) w =
    (r ← feed next (pieces (re2_lines re s));
     mret (reported (found + lenZ (re2_lines re s)) r)) w.
Proof.
  revert next s found w.
  induction n as [|n IH]; intros next s found w Hn Hf Hsz; [lia|].
  unroll @re2_round. cbn [r_next remaining r_found]. case_bool_decide as Hs.
  { subst s. unfold mbind, M_bind. simpl. unfold reported. simpl. by rewrite Z.add_0_r. }
  assert (lenZ s < npos) as Hs' by range.
  destruct (first_line s Hs Hs') as [(l & rest & Heq & Hl & Hfind)|[Hnl Hfind]]; rewrite Hfind.
  1: rewrite Heq in *; clear Hfind Hs' Hs.
  - rewrite re2_lines_cons by done. simpl default.
    unfold sv_substr. autorewrite with om_len in *.
    rewrite (proj2 (Z.ltb_ge _ 0)) by range.
    rewrite dropZ_0, takeZ_app.
    unfold npos in *. rewrite (size_add_small (lenZ l) 1) by range.
    rewrite (proj2 (Z.ltb_ge _ (lenZ l + 1))) by range.
    assert (takeZ (size_max - 1) (dropZ (lenZ l + 1) (l ++ nl :: rest)) = rest) as Hrest.
    { rewrite <- dropZ_dropZ, dropZ_app by range. unfold lenZ.
      rewrite (dropZ_drop 1). simpl. apply takeZ_all. range. }
    assert (Hlen : (length rest < n)%nat) by (rewrite length_app in Hn; simpl in Hn; lia).
    unfold pass_line, mbind, M_bind in *. simpl. rewrite Hrest.
    destruct (bool_decide (l ≠ []) && PartialMatch l re) eqn:E; simpl; unfold mbind, M_bind.
    + destruct (call_view next l w) as [[[n1 [k1|e1]]| | | |] w1]; simpl; try done.
      destruct (call_view n1 [nl] w1) as [[[n2 [k2|e2]]| | | |] w2]; simpl; try done.
      rewrite size_add_small by range. rewrite IH by range.
      by rewrite Z.add_assoc.
    + by rewrite IH by range.
  - rewrite re2_lines_end by done. simpl default.
    unfold sv_substr. rewrite (proj2 (Z.ltb_ge _ 0)) by range.
    rewrite dropZ_0, takeZ_all by lia. unfold pass_line, mbind, M_bind in *. simpl.
    rewrite (bool_decide_true (s ≠ [])) by done. simpl.
    destruct (PartialMatch s re) eqn:E; simpl; unfold mbind, M_bind.
    + destruct (call_view next s w) as [[[n1 [k1|e1]]| | | |] w1]; simpl; try done.
      destruct (call_view n1 [nl] w1) as [[[n2 [k2|e2]]| | | |] w2]; simpl; try done.
      unfold npos in *. by rewrite size_add_small by range.
    + unfold reported. simpl. by rewrite Z.add_0_r.
Qed.

End re2_laws.

(** ** transform/simple_regex.h *)

(** [std::regex] and [std::regex_search]: position and length of the first
    match. *)
Class StdRegex (R : Type) := {
  regex_compile : string → expected R;
  regex_search : bytes → R → option (Z * Z)
}.

Class LawfulStdRegex (R : Type) `{StdRegex R} :=
  regex_search_law s re pos len :
    regex_search s re = Some (pos, len) → 0 ≤ pos ∧ 0 ≤ len ∧ pos + len ≤ lenZ s.

Section simple.
Context {W Next R : Type} `{StdRegex R} `{LineConsumer W Next} {F : Fuel}.

(** [struct State]: the compiled expression. *)
Record SimpleState := { simple_regex : R }.

(** [State(regex_str)]: a malformed expression throws [std::regex_error]. *)
Definition SimpleState_new (regex_str : string) : M W SimpleState :=
  match regex_compile regex_str with
  | Value re => mret {| simple_regex := re |}
  | Unexpected what => throw what
  end.

Record SimpleRegexNode := mkSimpleRegexNode { simple_next : Next; simple_state : SimpleState }.

(** The loop variables: the successor, [str] and [found]. *)
Record simple_vars := SimpleVars { s_next : Next; s_str : bytes; s_found : Z }.

(** The text the loop prints for a match of [len] bytes at [pos]. *)
Definition simple_line (s : bytes) (pos len : Z) : bytes :=
  let previous_newline := sv_find_last_of nl (takeZ pos s) in
  let start := match previous_newline with None => 0 | Some i => i +ₛ 1 end in
  let out_end := match sv_find nl (pos + len) s with None => lenZ s | Some i => i end in
  trim_front (takeZ (out_end - start) (dropZ start s)).

(** One round of [while (std::regex_search(...))]. *)
Definition simple_round (re : R) (v : simple_vars) : M W (simple_vars + (Next * expected Z)) :=
  match regex_search (s_str v) re with
  | None => mret (inr (s_next v, Value (s_found v)))
  | Some (pos, len) =>
      '(next, res) ← call_line (s_next v) (simple_line (s_str v) pos len) true;
      match res with
      | Unexpected e => mret (inr (next, Unexpected e))
      | Value _ =>
          let found := s_found v +ₛ 1 in
          match sv_find nl (pos + len) (s_str v) with
          | None => mret (inr (next, Value found))
          | Some i => mret (inl (SimpleVars next (dropZ (i +ₛ 1) (s_str v)) found))
          end
      end
  end.

(** [operator()(std::span<const std::byte> data)] *)
#[global] Instance SimpleRegexNode_span : SpanConsumer W SimpleRegexNode :=
  λ n data,
    '(next', r) ← catching (loop fuel (simple_round (simple_regex (simple_state n)))
                              (SimpleVars (simple_next n) data 0))
                    (λ e, mret (simple_next n, Unexpected e));
    mret (mkSimpleRegexNode next' (simple_state n), r).

(** The reference: the texts printed for [s], match by match. After a match the
    search goes on behind the next newline. *)
Inductive simple_run (re : R) : bytes → list bytes → Prop :=
  | run_none s : regex_search s re = None → simple_run re s []
  | run_last s pos len l :
      regex_search s re = Some (pos, len) → lines_around s pos len l →
      nl ∉ dropZ (pos + len) s → simple_run re s [trim_front l]
  | run_more a rest pos len l ls :
      regex_search (a ++ nl :: rest) re = Some (pos, len) →
      lines_around (a ++ nl :: rest) pos len l →
      pos + len ≤ lenZ a → nl ∉ dropZ (pos + len) a →
      simple_run re rest ls → simple_run re (a ++ nl :: rest) (trim_front l :: ls).

End simple.
Arguments SimpleState : clear implicits.
Arguments SimpleRegexNode : clear implicits.
Arguments simple_vars : clear implicits.

(** Several lines through the two-argument overload, with forced newlines. *)
Fixpoint feed_lines {W N} `{LineConsumer W N} (n : N) (ls : list bytes)
    : M W (N * option string) :=
  match ls with
  | [] => mret (n, None)
  | l :: ls =>
      '(n', r) ← call_line n l true;
      match r with
      | Unexpected e => mret (n', Some e)
      | Value _ => feed_lines n' ls
      end
  end.

Section simple_laws.
Context {W Next R : Type} `{LawfulStdRegex R} `{LineConsumer W Next} {F : Fuel}.

(** Cutting a text at a match. *)
Lemma match_cut (s : bytes) (pos len : Z) :
  0 ≤ pos → 0 ≤ len → pos + len ≤ lenZ s →
  ∃ a m b, s = a ++ m ++ b ∧ lenZ a = pos ∧ lenZ m = len.
Proof.
  intros Hp Hl Hs. exists (takeZ pos s), (takeZ len (dropZ pos s)), (dropZ len (dropZ pos s)).
  rewrite !takeZ_dropZ, !lenZ_takeZ, lenZ_dropZ by lia. split_and!; [done|lia|lia].
Qed.

Lemma simple_line_around (s : bytes) (pos len : Z) :
  0 ≤ pos → 0 ≤ len → pos + len ≤ lenZ s → lenZ s < size_max →
  ∃ l, simple_line s pos len = trim_front l ∧ lines_around s pos len l.
Proof.
  intros Hp Hl Hs Hsz. destruct (match_cut s pos len Hp Hl Hs) as (a & m & b & -> & <- & <-).
  eexists. split; [reflexivity|]. by apply lines_around_cut.
Qed.

Lemma simple_loop_run (re : R) n (s : bytes) :
  (length s < n)%nat → lenZ s < size_max →
  ∃ ls, simple_run re s ls ∧
    ∀ (next : Next) found (w : W), 0 ≤ found → found + lenZ ls < size_max →
      loop n (simple_round re) (SimpleVars next s found) w =
        (r ← feed_lines next ls; mret (reported (found + lenZ ls) r)) w.
Proof.
  revert s. induction n as [|n IH]; intros s Hn Hsz; [lia|].
  destruct (regex_search s re) as [[pos len]|] eqn:E.
  2: { exists []. split; [by constructor|]. intros next found w _ _. unroll @simple_round.
       unfold mbind, M_bind. simpl. rewrite E. unfold reported. simpl.
       by rewrite Z.add_0_r. }
  pose proof (regex_search_law _ _ _ _ E) as (Hp & Hl & Hpl).
  destruct (simple_line_around s pos len Hp Hl Hpl Hsz) as (l & Hline & Haround).
  destruct (sv_find nl (pos + len) s) as [i|] eqn:Efind.
  - assert (∃ a rest, s = a ++ nl :: rest ∧ i = lenZ a ∧ pos + len ≤ lenZ a ∧
                      nl ∉ dropZ (pos + len) a) as (a & rest & -> & -> & Ha & Hnl).
    { rewrite <- (takeZ_dropZ (pos + len) s) in Efind.
      assert (Hlen : lenZ (takeZ (pos + len) s) = pos + len) by (rewrite lenZ_takeZ; lia).
      rewrite <- Hlen in Efind at 1.
      apply sv_find_Some in Efind as (l' & b & Heq & -> & Hl').
      exists (takeZ (pos + len) s ++ l'), b.
      rewrite <- (takeZ_dropZ (pos + len) s) at 1. rewrite Heq.
      split_and!; [by rewrite <- (assoc_L (++))|by rewrite lenZ_app|range|].
      rewrite <- Hlen at 1. by rewrite dropZ_app. }
    rewrite length_app in Hn. simpl in Hn.
    destruct (IH rest) as (ls & Hrun & Heq); [lia|range|].
    exists (trim_front l :: ls). split; [by eapply run_more|].
    intros next found w Hf Hb. rewrite lenZ_cons in *. unroll @simple_round.
    unfold mbind, M_bind in *. simpl. rewrite E, Hline. simpl.
    rewrite Efind. unfold mbind, M_bind.
    destruct (call_line next (trim_front l) true w) as [[[n1 [k1|e1]]| | | |] w1]; simpl; try done.
    assert (dropZ (lenZ a +ₛ 1) (a ++ nl :: rest) = rest) as ->.
    { rewrite size_add_small by range. rewrite <- dropZ_dropZ, dropZ_app by range.
      by rewrite dropZ_drop. }
    rewrite size_add_small by range. rewrite Heq by range. by rewrite Z.add_assoc.
  - exists [trim_front l]. split.
    + eapply run_last; [done..|]. by apply sv_find_None.
    + intros next found w Hf Hb. rewrite lenZ_cons, lenZ_nil in *. unroll @simple_round.
      unfold mbind, M_bind. simpl. rewrite E, Hline. simpl.
      rewrite Efind. unfold mbind, M_bind.
      destruct (call_line next (trim_front l) true w) as [[[n1 [k1|e1]]| | | |] w1];
        simpl; try done.
      by rewrite size_add_small by range.
Qed.

Lemma simple_run_length (re : R) (s : bytes) (ls : list bytes) :
  simple_run re s ls → (length ls ≤ S (length (lines s)))%nat.
Proof.
  induction 1 as [| |a rest pos len l ls _ _ _ _ _ IH]; simpl; [lia|lia|].
  rewrite lines_app, length_app.
  assert (0 < length (lines (a ++ [nl])))%nat; [|lia].
  destruct a as [|x a]; simpl; [lia|]. case_decide; simpl; [lia|].
  destruct (lines (a ++ [nl])); simpl; lia.
Qed.

End simple_laws.

(** ** What the transforms print *)

(** The lines [ls] and a newline after each have gone through the successor
    [n], which reported no error, and the transform reports [k]; or they have
    in part, and the transform reports the error. *)
Definition printed {W N} `{LawfulKernel W} `{Pending N} (n : N) (ls : list bytes) (k : Z) (w : W)
    (r : N * expected Z) (w' : W) : Prop :=
  ∃ bs, view_of w' = emit bs (view_of w) ∧
        match r.2 with
        | Value k' => k' = k ∧ bs ++ pending r.1 = pending n ++ unlines ls
        | Unexpected _ => bs `prefix_of` pending n ++ unlines ls
        end.

Section print_laws.
Context {W Next : Type} `{LawfulKernel W} `{ViewConsumer W Next} `{Pending Next} {F : Fuel}
  `{!LawfulView W Next}.

Lemma run_lines_law (n : Next) (ls : list bytes) (k : Z) (w : W) :
  enough n (unlines ls) →
  wp (r ← feed n (pieces ls); mret (reported k r)) w (returns (printed n ls k w)).
Proof.
  intros Hn. rewrite <- concat_pieces in Hn. apply wp_bind_returns.
  eapply wp_returns_mono; [by apply feed_law|].
  intros [n' [e|]] w' (bs & Hv & Hbs); rewrite concat_pieces in Hbs; apply wp_ret;
    exists bs; done.
Qed.

Lemma vectorscan_node_law {DB Scratch} `{LawfulHyperscan DB Scratch}
    (n : VectorScanNode Next DB Scratch) (data : bytes) (w : W) :
  let scan := hs_scan (vs_db (vs_state n)) data (vs_scratch (vs_state n)) in
  let ls := line_of data <$> scan.2.*2 in
  scan.1 = HS_SUCCESS → lenZ data < size_max → enough (vs_next n) (unlines ls) →
  wp (call_span n data) w (returns (λ '(n', r) w',
    vs_state n' = vs_state n ∧ printed (vs_next n) ls (lenZ scan.2) w (vs_next n', r) w')).
Proof.
  intros scan ls Hres Hsz Hn. eapply wp_eq; [by apply vectorscan_span_feed|].
  apply wp_bind_returns. eapply wp_returns_mono; [by apply wp_catching, run_lines_law|].
  intros [next' r] w' Hp. by apply wp_ret.
Qed.

Lemma re2_node_law {R} `{RE2 R} (n : Re2RegexNode Next R) (data : bytes) (w : W) :
  let ls := re2_lines (regex (re2_state n)) data in
  lenZ data < npos → (length data < fuel)%nat → enough (re2_next n) (unlines ls) →
  wp (call_span n data) w (returns (λ '(n', r) w',
    re2_state n' = re2_state n ∧ printed (re2_next n) ls (lenZ ls) w (re2_next n', r) w')).
Proof.
  intros ls Hsz Hf Hn. unfold call_span, Re2RegexNode_span.
  apply wp_bind_returns. eapply wp_returns_mono.
  { apply wp_catching. unfold wp. rewrite re2_loop_feed by (done || lia).
    by apply run_lines_law. }
  intros [next' r] w' Hp. by apply wp_ret.
Qed.

End print_laws.

(** C5. The Vectorscan transform prints, for every match the engine reports and
    in the order of the reports, the whole line around the end of the match
    and a newline, and returns how many matches there were; the successor
    loses nothing, and after an error the standard output has received a
    prefix of that text. *)
Theorem vectorscan_prints_matched_lines {W Next DB Scratch} `{LawfulKernel W}
    `{ViewConsumer W Next} `{Pending Next} {F : Fuel} `{!LawfulView W Next}
    `{LawfulHyperscan DB Scratch}
    (n : VectorScanNode Next DB Scratch) (data : bytes) (w : W) :
  let scan := hs_scan (vs_db (vs_state n)) data (vs_scratch (vs_state n)) in
  scan.1 = HS_SUCCESS → lenZ data < size_max →
  enough (vs_next n) (unlines (line_of data <$> scan.2.*2)) →
  ∃ ls, Forall2 (line_around data) scan.2.*2 ls ∧
    wp (call_span n data) w (returns (λ '(n', r) w',
      printed (vs_next n) ls (lenZ scan.2) w (vs_next n', r) w')).
Proof.
  intros scan Hres Hsz Hn. exists (line_of data <$> scan.2.*2). split.
  - rewrite Forall2_fmap_r. unfold compose.
    pose proof (hs_scan_law (vs_db (vs_state n)) data (vs_scratch (vs_state n))) as Hl.
    fold scan in Hl. apply Forall_Forall2_diag, Forall_fmap.
    eapply Forall_impl; [done|]. intros m Hm. simpl in *. apply line_of_around; [lia|done].
  - eapply wp_returns_mono; [by apply vectorscan_node_law|]. by intros [n' r] w' [_ ?].
Qed.

(** C18. The two engines' transforms are interchangeable where both are given
    the same lines: when Vectorscan reports one match end in each non-empty
    line that RE2 matches, in order, and no others, the two transforms do the
    same to their successor and to the world and return the same result. *)
Theorem vectorscan_agrees_with_re2 {W Next DB Scratch R} `{ViewConsumer W Next} {F : Fuel}
    `{LawfulHyperscan DB Scratch} `{RE2 R}
    (vs : VectorScanState DB Scratch) (re : Re2State R) (next : Next) (data : bytes) (w : W) :
  let scan := hs_scan (vs_db vs) data (vs_scratch vs) in
  scan.1 = HS_SUCCESS → lenZ data < npos → (length data < fuel)%nat →
  Forall2 (line_around data) scan.2.*2 (re2_lines (regex re) data) →
  ('(n, r) ← call_span (mkVectorScanNode next vs) data; mret (vs_next n, r)) w =
  ('(n, r) ← call_span (mkRe2RegexNode next re) data; mret (re2_next n, r)) w.
Proof.
  intros scan Hres Hsz Hf Hagree.
  assert (lenZ data < size_max) as Hsz' by (unfold npos in Hsz; lia).
  pose proof (hs_scan_law (vs_db vs) data (vs_scratch vs)) as Hl.
  assert (line_of data <$> scan.2.*2 = re2_lines (regex re) data) as Hls.
  { assert (Forall (λ e, 0 ≤ e ≤ lenZ data) scan.2.*2) as Hr.
    { apply Forall_fmap. eapply Forall_impl; [exact Hl|]. simpl. lia. }
    clear -Hagree Hr Hsz'. induction Hagree as [|e l es ls Hel _ IH]; [done|].
    apply Forall_cons in Hr as [He Hr]. rewrite fmap_cons. f_equal; [|by apply IH].
    eapply line_around_unique; [|done]. by apply line_of_around. }
  unfold call_span, VectorScanNode_span, Re2RegexNode_span. simpl. fold scan.
  destruct scan as [res events] eqn:Escan. simpl in Hres. subst res. simpl in *.
  pose proof (on_match_ends events) as Hends.
  set (ms := matches (foldl on_match {| matches := [] |} events)) in *.
  assert (lenZ ms = lenZ (re2_lines (regex re) data)) as Hlen.
  { rewrite <- Hls, <- Hends. unfold lenZ. by rewrite !length_fmap. }
  assert (Forall (λ m, 0 ≤ m_end m ≤ lenZ data) ms) as Hms.
  { rewrite <- (Forall_fmap m_end (λ e, 0 ≤ e ≤ lenZ data)). unfold compose.
    rewrite Hends, Forall_fmap. unfold scan in Escan. rewrite Escan in Hl.
    eapply Forall_impl; [exact Hl|]. simpl. lia. }
  unfold mbind, M_bind, catching.
  rewrite emit_matches_feed by done. rewrite re2_loop_feed by (done || lia).
  rewrite list_fmap_compose, Hends, Hls, Hlen, Z.add_0_l.
  by destruct ((feed next _ ≫= _) w) as [[[n' r]| | | |] w'].
Qed.

(** C19. The RE2 transform is grep by lines: it prints exactly the non-empty
    lines of the chunk that the pattern matches, in order, each with a
    newline, and returns their number. *)
Theorem re2_prints_matching_lines {W Next R} `{LawfulKernel W} `{ViewConsumer W Next}
    `{Pending Next} {F : Fuel} `{!LawfulView W Next} `{RE2 R}
    (n : Re2RegexNode Next R) (data : bytes) (w : W) :
  let ls := filter (λ l, l ≠ [] ∧ PartialMatch l (regex (re2_state n)) = true) (lines data) in
  lenZ data < npos → (length data < fuel)%nat → enough (re2_next n) (unlines ls) →
  wp (call_span n data) w (returns (λ '(n', r) w',
    printed (re2_next n) ls (lenZ ls) w (re2_next n', r) w')).
Proof.
  intros ls Hsz Hf Hn. eapply wp_returns_mono; [by apply re2_node_law|].
  by intros [n' r] w' [_ ?].
Qed.

(** *** Engines for a single byte

    Vectorscan reports the end of every occurrence; RE2 asks whether there is
    one. *)
Definition occurrences (c : byte) (s : bytes) : list (Z * Z) :=
  imap (λ i x, (x, Z.of_nat i + 1)) s ≫= λ '(x, e), if decide (x = c) then [(0, e)] else [].

#[global] Instance byte_hyperscan : Hyperscan byte unit := {|
  hs_compile pattern _ _ :=
    match str pattern with
    | [c] => (0, Some c, ""%string)
    | _ => (-4, None, "not a byte"%string)
    end;
  hs_alloc_scratch _ := (0, Some ());
  hs_scan db data _ :=
    match db with Some c => (0, occurrences c data) | None => (-1, []) end
|}.

#[global] Instance byte_hyperscan_lawful : LawfulHyperscan byte unit.
Proof.
  intros [c|] data scratch; simpl; [|constructor]. apply Forall_forall. intros [f e] Hin.
  unfold occurrences in Hin. apply list_elem_of_bind in Hin as ([x e'] & Hin & Himap).
  apply elem_of_lookup_imap in Himap as (i & y & [= -> ->] & Hy).
  apply lookup_lt_Some in Hy. case_decide; [|set_solver].
  apply list_elem_of_singleton in Hin as [= -> ->]. simpl. unfold lenZ. lia.
Qed.

#[global] Instance byte_re2 : RE2 byte := {|
  re2_compile pattern := match str pattern with _ :: _ :: _ :: _ :: c :: _ => c | _ => nl end;
  PartialMatch l c := bool_decide (c ∈ l)
|}.

(** *** Concrete runs *)

Definition sample : bytes := str "banana" ++ [nl] ++ str "xyz" ++ [nl] ++ str "cat".

Definition scan_for (c : byte) (next : BatchNode Write.WriteNode)
    : VectorScanNode (BatchNode Write.WriteNode) byte unit :=
  mkVectorScanNode next {| vs_db := Some c; vs_scratch := Some () |}.

(** The line with three matches is handed on three times. *)
Lemma vectorscan_prints_matched_lines_witness :
  let w0 := Sim (empty_view 8192) [] 0 0 in
  let F := 100%nat : Fuel in
  let scan := hs_scan (Some "a"%byte) sample (Some ()) in
  scan.2.*2 = [2; 4; 6; 13] ∧
  ∃ ls, Forall2 (line_around sample) scan.2.*2 ls ∧
    wp (call_span (W := sim) (scan_for "a"%byte (BatchNode_new Write.mkWriteNode)) sample) w0
      (returns (λ '(n', r) w',
         printed (BatchNode_new Write.mkWriteNode) ls (lenZ scan.2) w0 (vs_next n', r) w')).
Proof.
  intros w0 F scan. split; [reflexivity|].
  apply (vectorscan_prints_matched_lines (W := sim)
           (scan_for "a"%byte (BatchNode_new Write.mkWriteNode)) sample w0).
  - reflexivity.
  - vm_compute. reflexivity.
  - split; vm_compute; [lia|reflexivity].
Defined.

(** One match per line: the two transforms agree. *)
Lemma vectorscan_agrees_with_re2_witness :
  let w0 := Sim (empty_view 8192) [] 0 0 in
  let F := 100%nat : Fuel in
  let next := BatchNode_new Write.mkWriteNode in
  ('(n, r) ← call_span (W := sim) (scan_for "t"%byte next) sample; mret (vs_next n, r)) w0 =
  ('(n, r) ← call_span (W := sim) (mkRe2RegexNode next {| regex := "t"%byte |}) sample;
   mret (re2_next n, r)) w0.
Proof.
  intros w0 F next.
  apply (vectorscan_agrees_with_re2 (W := sim) {| vs_db := Some "t"%byte; vs_scratch := Some () |}
           {| regex := "t"%byte |} next sample w0).
  - reflexivity.
  - vm_compute. reflexivity.
  - vm_compute. lia.
  - vm_compute hs_scan. vm_compute re2_lines. simpl. constructor; [|constructor].
    exists (str "banana" ++ [nl] ++ str "xyz" ++ [nl]), [].
    split_and!; [reflexivity| |right; reflexivity|left; reflexivity|vm_compute; congruence..].
    apply (bool_decide_unpack _). vm_compute. exact I.
Defined.

Lemma re2_prints_matching_lines_witness :
  let w0 := Sim (empty_view 8192) [] 0 0 in
  let F := 100%nat : Fuel in
  let next := BatchNode_new Write.mkWriteNode in
  wp (call_span (W := sim) (mkRe2RegexNode next {| regex := "a"%byte |}) sample) w0
    (returns (λ '(n', r) w',
       printed next (re2_lines "a"%byte sample) (lenZ (re2_lines "a"%byte sample)) w0
         (re2_next n', r) w')) ∧
  re2_lines "a"%byte sample = [str "banana"; str "cat"].
Proof.
  intros w0 F next. split; [|vm_compute; reflexivity].
  apply (re2_prints_matching_lines (W := sim) (mkRe2RegexNode next {| regex := "a"%byte |})
           sample w0).
  - vm_compute. reflexivity.
  - vm_compute. lia.
  - split; vm_compute; [lia|reflexivity].
Defined.


#[global] Instance byte_regex : StdRegex byte := {|
  regex_compile pattern :=
    match str pattern with [c] => Value c | _ => Unexpected "not a byte" end;
  regex_search s c := (λ i, (i, 1)) <$> index_of c s
|}.

#[global] Instance byte_regex_lawful : LawfulStdRegex byte.
Proof.
  intros s c pos len (i & (a & b & -> & <- & _)%index_of_Some & [= -> ->])%fmap_Some. range.
Qed.


(** [SimpleRegex | Cout] has no defined behaviour on a match of a line
    break alone: the text that is left after trimming is empty, and the sink
    looks at its last byte. *)
Theorem simple_regex_cout_empty_line_undefined (w : sim) :
  let F := 100%nat : Fuel in
  (SimpleRegexNode_span (mkSimpleRegexNode Cout.mkCoutNode {| simple_regex := nl |}) [nl] w).1
    = UB.
Proof. reflexivity. Qed.
