(* ===== verification/WriteLock.v ===== *)
(** sink/write.h: the lock of the [Write] sink.

    Sinks.v has a call of the sink in one thread. Here any number of threads
    call it at the same time, each of them one call after the other, and every
    system call is a step of its own; between two steps the rest of the program
    may do whatever leaves the standard output alone. *)

From S2P Require Import Prelude Kernel SimKernel Nodes Sinks Batch Lines Regex.

#[local] Arguments view_of _ _ _ _ : simpl never.

(** A call of [operator()(std::string_view data, bool force_newline)] *)
Record call := Call { c_data : bytes; c_newline : bool }.

(** Where a thread is. *)
Inductive write_pc :=
  | Between                                 (* in none of the calls *)
  | Rounds (c : call) (write_amount : Z)    (* in the loop, holding the mutex *)
  | Newline (c : call) (write_amount : Z)   (* behind it: [if (force_newline)] *)
  | Return (c : call) (r : expected Z).     (* the destructor of [lock] *)

(** A thread, with the calls it has still to make. *)
Record writer := Writer { todo : list call; at_pc : write_pc }.

(** [impl::mutex] with the thread that has locked it, and beside the system and
    the threads the calls that have returned, in that order. *)
Record writers (W : Type) := Writers {
  world : W;
  mutex : option nat;
  threads : list writer;
  returned : list (nat * call * expected Z)
}.

Arguments Writers {W}.
Arguments world {W}.
Arguments mutex {W}.
Arguments threads {W}.
Arguments returned {W}.

Section machine.
Context {W : Type} `{Kernel W}.

(** Thread [t] goes on to [p] with the system as it is now. *)
Definition goto (t : nat) (cs : list call) (p : write_pc) (w : W) (s : writers W) : writers W :=
  Writers w (mutex s) (<[t := Writer cs p]> (threads s)) (returned s).

Definition writer_step (t : nat) (s : writers W) : option (writers W) :=
  '(Writer cs p) ← threads s !! t;
  match p with
  | Between =>
      match cs, mutex s with
      | c :: cs, None =>
          Some (Writers (world s) (Some t) (<[t := Writer cs (Rounds c 0)]> (threads s)) (returned s))
      | _, _ => None
      end
  | Rounds c write_amount =>
      match Write.write_round (c_data c) write_amount (world s) with
      | (Done (inl write_amount), w) => Some (goto t cs (Rounds c write_amount) w s)
      | (Done (inr (Value write_amount)), w) => Some (goto t cs (Newline c write_amount) w s)
      | (Done (inr (Unexpected e)), w) => Some (goto t cs (Return c (Unexpected e)) w s)
      | _ => None
      end
  | Newline c write_amount =>
      if c_newline c then
        match sys_write STDOUT_FILENO [nl] (world s) with
        | (Done _, w) => Some (goto t cs (Return c (Value (write_amount +ₛ 1))) w s)
        | _ => None
        end
      else Some (goto t cs (Return c (Value write_amount)) (world s) s)
  | Return c r =>
      Some (Writers (world s) None (<[t := Writer cs Between]> (threads s)) (returned s ++ [(t, c, r)]))
  end.

(** The threads before their first call. *)
Definition writers_init (scripts : list (list call)) (w : W) : writers W :=
  Writers w None (map (λ cs, Writer cs Between) scripts) [].

End machine.

(** A step of one of the threads, or of the rest of the program. *)
Inductive writers_step {W} `{LawfulKernel W} : writers W → writers W → Prop :=
  | step_thread t s s' : writer_step t s = Some s' → writers_step s s'
  | step_elsewhere s w :
      v_out (view_of w) = v_out (view_of (world s)) →
      writers_step s (Writers w (mutex s) (threads s) (returned s)).

(** ** What a call leaves on the standard output *)

Definition piece (c : call) (r : expected Z) (bs : bytes) : Prop :=
  match r with
  | Value n =>
      if c_newline c then n = lenZ (c_data c) + 1 ∧ (bs = c_data c ++ [nl] ∨ bs = c_data c)
      else n = lenZ (c_data c) ∧ bs = c_data c
  | Unexpected _ => bs `prefix_of` c_data c
  end.

(** What a thread in a call has written of it. *)
Definition written_so_far (p : write_pc) (bs : bytes) : Prop :=
  match p with
  | Between => False
  | Rounds c k => 0 ≤ k ≤ lenZ (c_data c) ∧ bs = takeZ k (c_data c)
  | Newline c k => k = lenZ (c_data c) ∧ bs = c_data c
  | Return c r => piece c r bs
  end.

(** The call a thread is in. *)
Definition current (p : write_pc) : list call :=
  match p with Between => [] | Rounds c _ | Newline c _ | Return c _ => [c] end.

(** The calls of one thread among those that have returned. *)
Definition calls_of (t : nat) (l : list (nat * call * expected Z)) : list call :=
  (λ e, e.1.2) <$> filter (λ e, e.1.1 = t) l.

Lemma calls_of_snoc t l t' c r :
  calls_of t (l ++ [(t', c, r)]) = calls_of t l ++ (if decide (t' = t) then [c] else []).
Proof.
  unfold calls_of. rewrite filter_app, fmap_app. f_equal. simpl.
  by destruct (decide (t' = t)) as [Ht|Ht]; [rewrite filter_cons_True|rewrite filter_cons_False].
Qed.

(** ** The invariant *)

Section invariant.
Context {W : Type} `{LawfulKernel W}.
Context (scripts : list (list call)) (out0 : bytes).

(** While the mutex is free, the output is made of whole calls; the thread that
    has locked it, and no other, is in the middle of one. *)
Record writers_inv (s : writers W) : Prop := {
  wi_outside t wr : threads s !! t = Some wr → mutex s ≠ Some t → at_pc wr = Between;
  wi_output : ∃ pieces bs,
    Forall2 (λ e, piece e.1.2 e.2) (returned s) pieces ∧
    v_out (view_of (world s)) = out0 ++ concat pieces ++ bs ∧
    match mutex s with
    | None => bs = []
    | Some t => ∃ wr, threads s !! t = Some wr ∧ written_so_far (at_pc wr) bs
    end;
  wi_order t script : scripts !! t = Some script →
    ∃ wr, threads s !! t = Some wr ∧
          calls_of t (returned s) ++ current (at_pc wr) ++ todo wr = script;
  wi_threads : length (threads s) = length scripts;
  wi_known t : (length scripts ≤ t)%nat → calls_of t (returned s) = []
}.

Lemma writers_init_inv (w : W) : v_out (view_of w) = out0 → writers_inv (writers_init scripts w).
Proof.
  intros Hw. split; simpl.
  - intros t wr Ht _. apply list_lookup_fmap_Some in Ht as (cs & -> & _). done.
  - exists [], []. simpl. by rewrite app_nil_r.
  - intros t script Ht. exists (Writer script Between). by rewrite list_lookup_fmap, Ht.
  - by rewrite length_map.
  - done.
Qed.

(** A step from one state of a thread to another keeps the order of the calls. *)
Lemma order_step t cs p cs' p' (l' : list (nat * call * expected Z)) (s : writers W) :
  writers_inv s → threads s !! t = Some (Writer cs p) →
  calls_of t l' ++ current p' ++ cs' = calls_of t (returned s) ++ current p ++ cs →
  (∀ t', t' ≠ t → calls_of t' l' = calls_of t' (returned s)) →
  ∀ t' script, scripts !! t' = Some script →
  ∃ wr, <[t := Writer cs' p']> (threads s) !! t' = Some wr ∧
        calls_of t' l' ++ current (at_pc wr) ++ todo wr = script.
Proof.
  intros Hinv Ht Hsame Hothers t' script Hs. destruct (wi_order _ Hinv t' script Hs) as (wr & Hwr & Ho).
  destruct (decide (t' = t)) as [->|Hne].
  - rewrite Ht in Hwr. simplify_eq. exists (Writer cs' p').
    rewrite list_lookup_insert_eq by by eapply lookup_lt_Some. split; [done|exact Hsame].
  - exists wr. rewrite list_lookup_insert_ne by done. split; [done|]. by rewrite Hothers.
Qed.

(** Only the thread that holds the mutex is in a call. *)
Lemma in_call_holds t cs p (s : writers W) :
  writers_inv s → threads s !! t = Some (Writer cs p) → p ≠ Between → mutex s = Some t.
Proof.
  intros Hinv Ht Hp. destruct (decide (mutex s = Some t)) as [|Hne]; [done|].
  by destruct Hp; apply (wi_outside _ Hinv t (Writer cs p)).
Qed.

(** The thread that holds the mutex goes on in its call. *)
Lemma goto_inv t cs p p' w (s : writers W) :
  writers_inv s → threads s !! t = Some (Writer cs p) → p ≠ Between → current p' = current p →
  (∀ base bs, v_out (view_of (world s)) = base ++ bs → written_so_far p bs →
     ∃ bs', v_out (view_of w) = base ++ bs' ∧ written_so_far p' bs') →
  writers_inv (goto t cs p' w s).
Proof.
  intros Hinv Ht Hp Hcur Hstep. pose proof (in_call_holds t cs p s Hinv Ht Hp) as Hm.
  pose proof (lookup_lt_Some _ _ _ Ht) as Hlt. split; simpl.
  - rewrite Hm. intros t' wr Hwr Hne. rewrite list_lookup_insert_ne in Hwr by congruence.
    apply (wi_outside _ Hinv t' wr Hwr). congruence.
  - destruct (wi_output _ Hinv) as (pieces & bs & Hpieces & Hout & Hbs). rewrite Hm in Hbs.
    destruct Hbs as (wr & Hwr & Hbs). rewrite Ht in Hwr. simplify_eq. simpl in Hbs.
    rewrite (assoc_L (++)) in Hout. destruct (Hstep _ _ Hout Hbs) as (bs' & Hout' & Hbs').
    exists pieces, bs'. rewrite Hm, (assoc_L (++)). split_and!; [done|done|].
    exists (Writer cs p'). by rewrite list_lookup_insert_eq.
  - apply (order_step t cs p cs p' (returned s) s); [done|done|by rewrite Hcur|done].
  - rewrite length_insert. apply Hinv.
  - apply Hinv.
Qed.

(** A thread locks the mutex, and unlocks it. *)
Lemma lock_inv t c cs (s : writers W) :
  writers_inv s → threads s !! t = Some (Writer (c :: cs) Between) → mutex s = None →
  writers_inv (Writers (world s) (Some t) (<[t := Writer cs (Rounds c 0)]> (threads s)) (returned s)).
Proof.
  intros Hinv Ht Hm. split; simpl.
  - intros t' wr Hwr Hne. rewrite list_lookup_insert_ne in Hwr by congruence.
    apply (wi_outside _ Hinv t' wr Hwr). by rewrite Hm.
  - destruct (wi_output _ Hinv) as (pieces & bs & Hpieces & Hout & Hbs). rewrite Hm in Hbs. subst bs.
    exists pieces, []. split_and!; [done|done|]. exists (Writer cs (Rounds c 0)).
    rewrite list_lookup_insert_eq by by eapply lookup_lt_Some. split; [done|]. simpl.
    rewrite takeZ_0. split; [range|done].
  - by apply (order_step t (c :: cs) Between cs (Rounds c 0) (returned s) s).
  - rewrite length_insert. apply Hinv.
  - apply Hinv.
Qed.

Lemma unlock_inv t c r cs (s : writers W) :
  writers_inv s → threads s !! t = Some (Writer cs (Return c r)) →
  writers_inv (Writers (world s) None (<[t := Writer cs Between]> (threads s))
                 (returned s ++ [(t, c, r)])).
Proof.
  intros Hinv Ht. pose proof (in_call_holds t cs _ s Hinv Ht ltac:(done)) as Hm. split; simpl.
  - intros t' wr Hwr _. destruct (decide (t' = t)) as [->|Hne].
    + rewrite list_lookup_insert_eq in Hwr by by eapply lookup_lt_Some. by simplify_eq.
    + rewrite list_lookup_insert_ne in Hwr by done. apply (wi_outside _ Hinv t' wr Hwr). congruence.
  - destruct (wi_output _ Hinv) as (pieces & bs & Hpieces & Hout & Hbs). rewrite Hm in Hbs.
    destruct Hbs as (wr & Hwr & Hbs). rewrite Ht in Hwr. simplify_eq. simpl in Hbs.
    exists (pieces ++ [bs]), []. split_and!; [by apply Forall2_app; auto| |done].
    rewrite Hout, concat_app. simpl. by rewrite !app_nil_r.
  - apply (order_step t cs (Return c r) cs Between _ s); [done|done| |].
    + rewrite calls_of_snoc, decide_True by done. simpl. by rewrite <- app_assoc.
    + intros t' Hne. rewrite calls_of_snoc, decide_False by done. by rewrite app_nil_r.
  - rewrite length_insert. apply Hinv.
  - intros t' Hlt. rewrite calls_of_snoc, (wi_known _ Hinv t' Hlt), decide_False; [done|].
    apply lookup_lt_Some in Ht. rewrite (wi_threads _ Hinv) in Ht. lia.
Qed.

End invariant.

(** A thread decides on more calls, and a new thread starts. *)
Lemma more_calls_inv {W} `{LawfulKernel W} scripts out0 (s : writers W) t cs p script calls :
  writers_inv scripts out0 s → threads s !! t = Some (Writer cs p) → scripts !! t = Some script →
  writers_inv (<[t := script ++ calls]> scripts) out0
    (Writers (world s) (mutex s) (<[t := Writer (cs ++ calls) p]> (threads s)) (returned s)).
Proof.
  intros Hinv Ht Hscript. pose proof (lookup_lt_Some _ _ _ Ht) as Hlt. split; simpl.
  - intros t' wr Hwr Hne. apply list_lookup_insert_Some in Hwr as [(<- & <- & _)|[_ Hwr]].
    + by apply (wi_outside _ _ _ Hinv t (Writer cs p)).
    + by apply (wi_outside _ _ _ Hinv t' wr).
  - destruct (wi_output _ _ _ Hinv) as (pieces & bs & Hp & Hv & Hbs). exists pieces, bs.
    split_and!; [done|done|]. destruct (mutex s) as [t'|]; [|done]. destruct Hbs as (wr & Hwr & Hbs).
    destruct (decide (t' = t)) as [->|Hne].
    + rewrite Ht in Hwr. simplify_eq. exists (Writer (cs ++ calls) p).
      by rewrite list_lookup_insert_eq.
    + exists wr. by rewrite list_lookup_insert_ne.
  - intros t' script' Hs. apply list_lookup_insert_Some in Hs as [(<- & <- & _)|[Hne Hs]].
    + destruct (wi_order _ _ _ Hinv t script Hscript) as (wr & Hwr & Ho). rewrite Ht in Hwr.
      simplify_eq. exists (Writer (cs ++ calls) p). rewrite list_lookup_insert_eq by done.
      split; [done|]. simpl. by rewrite <- !app_assoc.
    + destruct (wi_order _ _ _ Hinv t' script' Hs) as (wr & Hwr & Ho). exists wr.
      by rewrite list_lookup_insert_ne.
  - rewrite !length_insert. apply Hinv.
  - rewrite length_insert. apply Hinv.
Qed.

Lemma new_writer_inv {W} `{LawfulKernel W} scripts out0 (s : writers W) :
  writers_inv scripts out0 s →
  writers_inv (scripts ++ [[]]) out0
    (Writers (world s) (mutex s) (threads s ++ [Writer [] Between]) (returned s)).
Proof.
  intros Hinv. pose proof (wi_threads _ _ _ Hinv) as Hlen. split; simpl.
  - intros t wr [Hwr|[_ [_ <-]%list_lookup_singleton_Some]]%lookup_app_Some Hne; [|done].
    by apply (wi_outside _ _ _ Hinv t wr).
  - destruct (wi_output _ _ _ Hinv) as (pieces & bs & Hp & Hv & Hbs). exists pieces, bs.
    split_and!; [done|done|]. destruct (mutex s) as [t|]; [|done]. destruct Hbs as (wr & Hwr & Hbs).
    exists wr. by rewrite (lookup_app_l_Some _ _ _ _ Hwr).
  - intros t script [Hs|[Ht Hs]]%lookup_app_Some.
    + destruct (wi_order _ _ _ Hinv t script Hs) as (wr & Hwr & Ho). exists wr.
      by rewrite (lookup_app_l_Some _ _ _ _ Hwr).
    + apply list_lookup_singleton_Some in Hs as [Hs <-]. exists (Writer [] Between).
      rewrite lookup_app_r by lia. rewrite Hlen, Hs. split; [done|]. simpl.
      by rewrite (wi_known _ _ _ Hinv t Ht).
  - rewrite !length_app. simpl. lia.
  - intros t Ht. apply (wi_known _ _ _ Hinv). rewrite length_app in Ht. simpl in Ht. lia.
Qed.

(** ** The steps *)

Section steps.
Context {W : Type} `{LawfulKernel W}.
Context (scripts : list (list call)) (out0 : bytes).

(** No text is as long as the address space. *)
Hypothesis sizes : Forall (Forall (λ c, lenZ (c_data c) + 1 < size_max)) scripts.

Lemma write_round_out data k base (w : W) :
  lenZ data < size_max → 0 ≤ k ≤ lenZ data → v_out (view_of w) = base ++ takeZ k data →
  wp (Write.write_round data k) w (returns (λ r w',
    match r with
    | inl k' => 0 ≤ k' ≤ lenZ data ∧ v_out (view_of w') = base ++ takeZ k' data
    | inr (Value k') => k' = lenZ data ∧ v_out (view_of w') = base ++ data
    | inr (Unexpected _) => v_out (view_of w') = base ++ takeZ k data
    end)).
Proof.
  intros Hsz Hk Hv. set (v := view_of w) in *.
  set (v0 := View base (v_out_mode v) (v_fds v) (v_pipes v) (v_fs v)).
  eapply wp_returns_mono.
  - apply (Write.write_round_law data k v0); [done|done|]. fold v. unfold emit. simpl.
    rewrite <- Hv. by destruct v.
  - intros [k'|[k'|e]] w'; [intros [? ->]|intros [? ->]|intros ->]; simpl; [split; [lia|done]|done..].
Qed.

Lemma newline_out base (w : W) :
  v_out (view_of w) = base →
  wp (sys_write STDOUT_FILENO [nl]) w (returns (λ _ w',
    v_out (view_of w') = base ++ [nl] ∨ v_out (view_of w') = base)).
Proof.
  intros Hv. eapply wp_returns_mono; [by apply write_law|].
  intros n w' [[_ ->]|[Hn ->]]; [by right|left]. cbn [emit v_out]. rewrite Hv, takeZ_all; [done|].
  unfold lenZ. simpl. lia.
Qed.

(** The text of the call a thread is in. *)
Lemma current_size t cs p (s : writers W) c :
  writers_inv scripts out0 s → threads s !! t = Some (Writer cs p) → c ∈ current p →
  lenZ (c_data c) + 1 < size_max.
Proof.
  intros Hinv Ht Hc. pose proof (lookup_lt_Some _ _ _ Ht) as Hlt.
  rewrite (wi_threads _ _ _ Hinv) in Hlt. apply lookup_lt_is_Some_2 in Hlt as [script Hs].
  destruct (wi_order _ _ _ Hinv t script Hs) as (wr & Hwr & Ho). rewrite Ht in Hwr. simplify_eq.
  rewrite Forall_lookup in sizes. specialize (sizes _ _ Hs). rewrite Forall_forall in sizes.
  apply sizes. simpl. set_solver.
Qed.

Lemma writer_step_inv t (s s' : writers W) :
  writers_inv scripts out0 s → writer_step t s = Some s' → writers_inv scripts out0 s'.
Proof.
  intros Hinv Hstep. unfold writer_step in Hstep.
  destruct (threads s !! t) as [[cs p]|] eqn:Ht; [|done]. simpl in Hstep.
  pose proof (current_size t cs p s) as Hsize.
  destruct p as [|c k|c k|c r].
  - destruct cs as [|c cs]; [done|]. destruct (mutex s) eqn:Hm; [done|]. simplify_eq.
    by apply lock_inv.
  - specialize (Hsize c Hinv Ht ltac:(simpl; set_solver)).
    destruct (Write.write_round (c_data c) k (world s)) as [o w] eqn:E.
    assert (Hround : ∀ base bs, v_out (view_of (world s)) = base ++ bs →
              written_so_far (Rounds c k) bs → wp (Write.write_round (c_data c) k) (world s) _)
      by (intros base bs Hv [Hk ->]; apply (write_round_out (c_data c) k base); [lia|done|done]).
    destruct o as [[k'|[k'|e]]| | | |]; simplify_eq; (eapply goto_inv; [done|done|done|done|]);
      intros base bs Hv Hbs; specialize (Hround base bs Hv Hbs);
      rewrite (wp_unfold _ _ _ _ _ E) in Hround; simpl in Hround.
    + destruct Hround as [Hk' Hv']. by exists (takeZ k' (c_data c)).
    + destruct Hround as [-> Hv']. by exists (c_data c).
    + exists (takeZ k (c_data c)). split; [done|]. apply takeZ_prefix.
  - specialize (Hsize c Hinv Ht ltac:(simpl; set_solver)).
    destruct (c_newline c) eqn:Hnl.
    + destruct (sys_write STDOUT_FILENO [nl] (world s)) as [o w] eqn:E.
      destruct o as [n| | | |]; simplify_eq. eapply goto_inv; [done|done|done|done|].
      intros base bs Hv [-> ->]. pose proof (newline_out _ (world s) Hv) as Hw.
      rewrite (wp_unfold _ _ _ _ _ E) in Hw. simpl in Hw. simpl. unfold piece.
      rewrite Hnl, size_add_small by range. rewrite <- app_assoc in Hw. destruct Hw; eauto 10.
    + simplify_eq. eapply goto_inv; [done|done|done|done|].
      intros base bs Hv [-> ->]. exists (c_data c). split; [done|]. simpl. by rewrite Hnl.
  - simplify_eq. by apply unlock_inv.
Qed.

Lemma writers_reach_inv (s s' : writers W) :
  writers_inv scripts out0 s → rtc writers_step s s' → writers_inv scripts out0 s'.
Proof.
  intros Hinv Hr. induction Hr as [s|s s1 s' Hs _ IH]; [done|]. apply IH. clear IH.
  destruct Hs as [t s s1 Hs|s w Hw]; [by eapply writer_step_inv|].
  destruct Hinv as [Hout Hv Hord Hlen Hknown]. split; simpl; [done| |done..]. by rewrite Hw.
Qed.

(** A thread that cannot take a step is in no call, and has none to make or
    waits for the mutex. *)
Lemma writer_stuck t cs p (s : writers W) :
  writers_inv scripts out0 s → threads s !! t = Some (Writer cs p) → writer_step t s = None →
  p = Between ∧ (mutex s = None → cs = []).
Proof.
  intros Hinv Ht Hstep. unfold writer_step in Hstep. rewrite Ht in Hstep. simpl in Hstep.
  pose proof (current_size t cs p s) as Hsize.
  destruct p as [|c k|c k|c r]; [by destruct cs, (mutex s)| | |done]; exfalso;
    specialize (Hsize c Hinv Ht ltac:(simpl; set_solver));
    pose proof (in_call_holds _ _ t cs _ s Hinv Ht ltac:(done)) as Hm;
    destruct (wi_output _ _ _ Hinv) as (pieces & bs & _ & Hv & Hbs); rewrite Hm in Hbs;
    destruct Hbs as (wr & Hwr & Hbs); rewrite Ht in Hwr; simplify_eq; simpl in Hbs.
  - destruct Hbs as [Hk ->]. rewrite (assoc_L (++)) in Hv.
    pose proof (write_round_out (c_data c) k _ (world s) ltac:(lia) Hk Hv) as Hw. unfold wp in Hw.
    by destruct (Write.write_round (c_data c) k (world s)) as [[[k'|[k'|e]]| | | |] w].
  - pose proof (newline_out _ (world s) Hv) as Hw. unfold wp in Hw.
    destruct (c_newline c); [|done].
    by destruct (sys_write STDOUT_FILENO [nl] (world s)) as [[n| | | |] w].
Qed.

Lemma all_stuck (s : writers W) :
  writers_inv scripts out0 s → (∀ t, writer_step t s = None) →
  mutex s = None ∧ ∀ t wr, threads s !! t = Some wr → wr = Writer [] Between.
Proof.
  intros Hinv Hstuck.
  assert (Hm : mutex s = None).
  { destruct (mutex s) as [t|] eqn:Hm; [|done].
    destruct (wi_output _ _ _ Hinv) as (pieces & bs & _ & _ & Hbs). rewrite Hm in Hbs.
    destruct Hbs as ([cs p] & Ht & Hbs). destruct (writer_stuck t cs p s Hinv Ht (Hstuck t)) as [-> _].
    done. }
  split; [done|]. intros t [cs p] Ht.
  destruct (writer_stuck t cs p s Hinv Ht (Hstuck t)) as [-> Hcs]. by rewrite (Hcs Hm).
Qed.

End steps.

(** C11. The lock keeps the calls of the [Write] sink apart. For any number of
    threads, any interleaving and any short or failed writes: whenever the mutex
    is free, what has been added to the standard output is made of one piece for
    each call that has returned, in the order in which they did; a piece is the
    text of its call, its newline too if one was asked for and could be written,
    and a first part of the text after an error. Each thread's calls return in
    the order it makes them, and the threads can only all be stuck when all the
    calls have been made. *)
Theorem write_calls_do_not_mix {W} `{LawfulKernel W} (scripts : list (list call)) (w : W)
    (s : writers W) :
  Forall (Forall (λ c, lenZ (c_data c) + 1 < size_max)) scripts →
  rtc writers_step (writers_init scripts w) s →
  (mutex s = None →
     ∃ pieces, Forall2 (λ e, piece e.1.2 e.2) (returned s) pieces ∧
               v_out (view_of (world s)) = v_out (view_of w) ++ concat pieces) ∧
  (∀ t script, scripts !! t = Some script → calls_of t (returned s) `prefix_of` script) ∧
  ((∀ t, writer_step t s = None) →
     mutex s = None ∧ ∀ t script, scripts !! t = Some script → calls_of t (returned s) = script).
Proof.
  intros Hsizes Hreach. set (out0 := v_out (view_of w)).
  assert (Hinv : writers_inv scripts out0 s)
    by (by eapply writers_reach_inv; [done|by apply writers_init_inv|done]).
  split_and!.
  - intros Hm. destruct (wi_output _ _ _ Hinv) as (pieces & bs & Hp & Hv & Hbs).
    rewrite Hm in Hbs. subst bs. rewrite app_nil_r in Hv. by exists pieces.
  - intros t script Hs. destruct (wi_order _ _ _ Hinv t script Hs) as (wr & _ & <-).
    by apply prefix_app_r.
  - intros Hstuck. destruct (all_stuck _ _ Hsizes s Hinv Hstuck) as [Hm Hall]. split; [done|].
    intros t script Hs. destruct (wi_order _ _ _ Hinv t script Hs) as (wr & Hwr & <-).
    rewrite (Hall t wr Hwr). simpl. by rewrite app_nil_r.
Qed.

(** ** Concrete runs *)

(** The threads take steps in the given order. *)
Fixpoint writers_run {W} `{Kernel W} (ts : list nat) (s : writers W) : option (writers W) :=
  match ts with
  | [] => Some s
  | t :: ts => s ← writer_step t s; writers_run ts s
  end.

Lemma writers_run_cons {W} `{Kernel W} t ts (s s1 : writers W) :
  writer_step t s = Some s1 → writers_run (t :: ts) s = writers_run ts s1.
Proof. simpl. by intros ->. Qed.

Lemma writers_run_app {W} `{Kernel W} ts ts' (s s1 : writers W) :
  writers_run ts s = Some s1 → writers_run (ts ++ ts') s = writers_run ts' s1.
Proof.
  revert s. induction ts as [|t ts IH]; intros s; simpl; [by intros [= ->]|].
  destruct (writer_step t s) as [s2|]; simpl; [apply IH|done].
Qed.

Lemma writers_run_reach {W} `{LawfulKernel W} (ts : list nat) (s s' : writers W) :
  writers_run ts s = Some s' → rtc writers_step s s'.
Proof.
  revert s. induction ts as [|t ts IH]; intros s Hrun; simpl in *; [by simplify_eq|].
  destruct (writer_step t s) as [s1|] eqn:Hs; [|done].
  eapply rtc_l; [by eapply step_thread|by apply IH].
Qed.

(** Witness: two threads, and a system that writes two bytes at a time. The
    second thread waits while the first one is in its call. *)
Lemma write_calls_do_not_mix_witness :
  let w := Sim (empty_view 8192) [2; 2; 2; 2; 2; 2; 2] 0 0 in
  let scripts := [[Call (str "abc") true]; [Call (str "xyz") false]] in
  ∃ s, writers_run [0; 0; 0; 0; 0; 0; 1; 1; 1; 1; 1; 1]%nat (writers_init scripts w) = Some s ∧
       writer_step 1 (Writers w (Some 0%nat) (threads (writers_init scripts w)) []) = None ∧
       v_out (view_of (world s)) = str "abc" ++ [nl] ++ str "xyz" ∧
       ∃ pieces, Forall2 (λ e, piece e.1.2 e.2) (returned s) pieces ∧
                 v_out (view_of (world s)) = [] ++ concat pieces.
Proof.
  intros w scripts. eexists. split; [vm_compute; reflexivity|].
  split; [reflexivity|]. split; [vm_compute; reflexivity|].
  refine (proj1 (write_calls_do_not_mix scripts w _ _ _) _).
  - repeat constructor.
  - apply (writers_run_reach [0; 0; 0; 0; 0; 0; 1; 1; 1; 1; 1; 1]%nat). vm_compute. reflexivity.
  - reflexivity.
Defined.

(** ** Lines of [grep] *)

(** A sink that remembers how it was called. *)
#[local] Instance recorder {W} : LineConsumer W (list call) :=
  λ n data force_newline, mret (n ++ [Call data force_newline], Value (lenZ data)).

(** An engine that finds one match, at the end of the data. *)
#[local] Instance match_at_end : Hyperscan unit unit := {|
  hs_compile _ _ _ := (HS_SUCCESS, Some (), ""%string);
  hs_alloc_scratch _ := (HS_SUCCESS, Some ());
  hs_scan _ data _ := (HS_SUCCESS, [(0, lenZ data)])
|}.

(** The calls of the sink that a worker makes for a chunk of a file and for its
    last flush. *)
Definition worker_calls {W} (data : bytes) : M W (list call) :=
  '(n, _) ← call_span (mkVectorScanNode (BatchNode_new []) {| vs_db := Some (); vs_scratch := Some () |})
              data;
  '(n, _) ← BatchNode_flush (vs_next n);
  mret (b_next n).

Lemma line_of_whole (l : bytes) : nl ∉ l → lenZ l < size_max → line_of l (lenZ l) = l.
Proof.
  intros Hl Hsz. apply (line_around_unique l (lenZ l)).
  - apply line_of_around; range.
  - exists [], []. rewrite app_nil_r. split_and!; auto; range.
Qed.

(** A line that fills the buffer goes to the sink without its line break. *)
Lemma worker_calls_long {W} (line : bytes) (w : W) :
  nl ∉ line → buffer_size ≤ lenZ line < size_max →
  worker_calls line w = (Done [Call line false; Call [nl] false], w).
Proof.
  intros Hnl Hlen. unfold worker_calls, call_span, VectorScanNode_span. simpl.
  unfold catching, mbind, M_bind. rewrite match_line_eq by range. rewrite line_of_whole by (done || lia).
  unfold call_view, BatchNode_view. cbn [outcome_bind buffer_ BatchNode_new b_next app].
  by rewrite (proj2 (Z.leb_le buffer_size (lenZ line))) by lia.
Qed.

Lemma worker_calls_short {W} (line : bytes) (w : W) :
  nl ∉ line → lenZ line + 1 < buffer_size →
  worker_calls line w = (Done [Call (line ++ [nl]) false], w).
Proof.
  intros Hnl Hlen. unfold buffer_size in Hlen. unfold worker_calls, call_span, VectorScanNode_span. simpl.
  unfold catching, mbind, M_bind. rewrite match_line_eq by (unfold size_max; range).
  rewrite line_of_whole by (done || (unfold size_max; lia)).
  unfold call_view, BatchNode_view. cbn [outcome_bind buffer_ BatchNode_new b_next app].
  rewrite (proj2 (Z.leb_gt buffer_size (lenZ line))) by (unfold buffer_size; lia).
  cbn [outcome_bind buffer_ mret M_ret b_next].
  by rewrite (proj2 (Z.leb_gt buffer_size (lenZ (line ++ [nl])))) by (unfold buffer_size; range).
Qed.

(** The simulated system without limits writes everything at once. *)
Definition full_sim (v : view) : sim := Sim v [] 0 0.

Lemma full_sim_write (d : bytes) (v : view) :
  lenZ d < size_max → sys_write STDOUT_FILENO d (full_sim v) = (Done (lenZ d), full_sim (emit d v)).
Proof.
  intros Hd. simpl. unfold transfer, mbind, M_bind, granted, full_sim. simpl.
  assert ((1 `max` (size_max - 1)) `min` (lenZ d `min` lenZ d) = lenZ d) as -> by range.
  unfold set_view. simpl. by rewrite takeZ_all.
Qed.

(** There, a whole call is five steps. *)
Lemma full_sim_call t c cs ths v l :
  ths !! t = Some (Writer (c :: cs) Between) → c_newline c = false →
  0 < lenZ (c_data c) < size_max →
  writers_run [t; t; t; t; t] (Writers (full_sim v) None ths l)
    = Some (Writers (full_sim (emit (c_data c) v)) None (<[t := Writer cs Between]> ths)
              (l ++ [(t, c, Value (lenZ (c_data c)))])).
Proof.
  intros Ht Hnl Hd. pose proof (lookup_lt_Some _ _ _ Ht) as Hlt.
  erewrite writers_run_cons; [|unfold writer_step; simpl; by rewrite Ht].
  erewrite writers_run_cons.
  2: { unfold writer_step. cbn [threads world]. rewrite list_lookup_insert_eq by done. simpl.
       unfold Write.write_round. rewrite (proj2 (Z.ltb_lt 0 _)) by lia. rewrite dropZ_0.
       unfold mbind, M_bind. rewrite full_sim_write by lia. cbn [outcome_bind].
       rewrite (proj2 (Z.eqb_neq (lenZ (c_data c)) (-1))) by lia. simpl. reflexivity. }
  unfold goto. cbn [mutex threads returned]. rewrite list_insert_insert_eq, size_add_small, Z.add_0_l by lia.
  erewrite writers_run_cons.
  2: { unfold writer_step. cbn [threads world]. rewrite list_lookup_insert_eq by done. simpl.
       unfold Write.write_round. rewrite Z.ltb_irrefl. reflexivity. }
  unfold goto. cbn [mutex threads returned]. rewrite list_insert_insert_eq.
  erewrite writers_run_cons.
  2: { unfold writer_step. cbn [threads world]. rewrite list_lookup_insert_eq by done. simpl.
       rewrite Hnl. reflexivity. }
  unfold goto. cbn [mutex threads returned]. rewrite list_insert_insert_eq.
  erewrite writers_run_cons.
  2: { unfold writer_step. cbn [threads world]. rewrite list_lookup_insert_eq by done. reflexivity. }
  cbn [mutex threads returned world]. by rewrite list_insert_insert_eq.
Qed.

(** C40. The lock is not enough for the lines of [grep]: a worker hands a line
    and its line break to the batch one after the other, and the batch may pass
    on what it has in between. For any line that fills the buffer and any short
    line of another thread there is a run in which the second comes out between
    the first and its line break. *)
Theorem grep_lines_can_be_torn (line other : bytes) :
  nl ∉ line → buffer_size ≤ lenZ line < size_max → nl ∉ other → lenZ other + 1 < buffer_size →
  let w := full_sim (empty_view 8192) in
  ∃ calls calls' s,
    worker_calls line w = (Done calls, w) ∧ worker_calls other w = (Done calls', w) ∧
    rtc writers_step (writers_init [calls; calls'] w) s ∧ (∀ t, writer_step t s = None) ∧
    v_out (view_of (world s)) = line ++ (other ++ [nl]) ++ [nl].
Proof.
  intros Hline Hlen Hother Hshort w. unfold buffer_size in *. eexists _, _, _.
  split; [by apply worker_calls_long|]. split; [by apply worker_calls_short|].
  split; [apply (writers_run_reach ([0; 0; 0; 0; 0] ++ [1; 1; 1; 1; 1] ++ [0; 0; 0; 0; 0])%nat)|].
  - unfold writers_init, w. simpl map.
    erewrite writers_run_app; [|apply full_sim_call; [reflexivity|reflexivity|simpl; lia]].
    erewrite writers_run_app;
      [|apply full_sim_call; [reflexivity|reflexivity|simpl; unfold size_max; range]].
    apply full_sim_call; [reflexivity|reflexivity|done].
  - split; [by intros [|[|t]]|]. unfold view_of; simpl. by rewrite <- app_assoc.
Qed.

(** Witness: a line of 64 KiB. *)
Lemma grep_lines_can_be_torn_witness :
  let line := replicate (Z.to_nat buffer_size) "x"%byte in
  let w := full_sim (empty_view 8192) in
  ∃ calls calls' s,
    worker_calls line w = (Done calls, w) ∧ worker_calls (str "y") w = (Done calls', w) ∧
    rtc writers_step (writers_init [calls; calls'] w) s ∧ (∀ t, writer_step t s = None) ∧
    v_out (view_of (world s)) = line ++ (str "y" ++ [nl]) ++ [nl].
Proof.
  intros line w. apply (grep_lines_can_be_torn line (str "y")).
  - unfold line. intros [H _]%elem_of_replicate. discriminate.
  - unfold line, lenZ. rewrite length_replicate, Z2Nat.id; [split; [lia|reflexivity]|discriminate].
  - apply (bool_decide_eq_true_1 (nl ∉ str "y")). vm_compute. reflexivity.
  - reflexivity.
Defined.
