(* ===== verification/TreeSitter.v ===== *)
(** transform/tree_sitter.h: colour C++ source with the captures of a
    tree-sitter query.

    The tree-sitter library is a parameter: what its calls return for a given
    input. Modelled from the source are the capture colours, the colour mask,
    the cutting of the mask into chunks and the formatted output. *)

From S2P Require Import Prelude Kernel SimKernel Nodes Sinks Batch.

(** ** Escape sequences *)

Definition esc : byte := x1b.

Definition sgr (s : string) : bytes := esc :: str s.

(** [reset] and [colours] *)
Definition reset : bytes := sgr "[0m".

Definition colours : list bytes := [[]; sgr "[35m"; sgr "[34m"; sgr "[33m"; sgr "[36m"].

(** ** The library calls

    A query is its capture names in index order; the captures of a query on a
    tree are triples of capture index, first byte and end byte, in the order
    [ts_query_cursor_next_capture] returns them. *)
Class TreeSitterApi (Parser Query Cursor Tree : Type) := {
  ts_parser_new : option Parser;
  ts_parser_set_language : Parser → bool;
  (** the query, and the error type ([TSQueryErrorNone] is 0) *)
  ts_query_new : option Query * Z;
  ts_query_cursor_new : option Cursor;
  ts_query_capture_names : Query → list string;
  ts_parser_parse_string : Parser → bytes → option Tree;
  ts_query_captures : Cursor → Query → Tree → list (Z * Z * Z)
}.

(** The captures of a parsed text lie inside the text. *)
Class LawfulTreeSitter (Parser Query Cursor Tree : Type)
    `{TreeSitterApi Parser Query Cursor Tree} :=
  ts_query_captures_law parser cursor query data tree :
    ts_parser_parse_string parser data = Some tree →
    Forall (λ '(index, b, e), 0 ≤ index ∧ 0 ≤ b ≤ e ∧ e ≤ lenZ data)
      (ts_query_captures cursor query tree).

(** ** Colours and masks *)

(** The lambda of [capture_colour]. *)
Definition colour_of_name (name : string) : Z :=
  if String.eqb name "keyword" then 1
  else if String.eqb name "function" then 2
  else if String.eqb name "string" then 3
  else if String.eqb name "variable" then 4
  else 0.

(** [capture.index < size(capture_colour) ? capture_colour[capture.index] : 0] *)
Definition capture_colour_id (capture_colour : list Z) (index : Z) : Z :=
  if index <? lenZ capture_colour then nth (Z.to_nat index) capture_colour 0 else 0.

(** [std::memset(mask + b, colour_id, e - b)] with 32-bit [e - b]; writing
    outside the mask has no defined behaviour. *)
Definition memset (b colour_id e : Z) (mask : list Z) : option (list Z) :=
  let n := (e - b) mod 2 ^ 32 in
  if b + n <=? lenZ mask
  then Some (takeZ b mask ++ replicate (Z.to_nat n) colour_id ++ dropZ (b + n) mask)
  else None.

(** The loop over the captures. *)
Fixpoint paint (capture_colour : list Z) (captures : list (Z * Z * Z)) (mask : list Z)
    : option (list Z) :=
  match captures with
  | [] => Some mask
  | (index, b, e) :: captures =>
      let colour_id := capture_colour_id capture_colour index in
      if colour_id =? 0 then paint capture_colour captures mask
      else mask ← memset b colour_id e mask; paint capture_colour captures mask
  end.

(** [colour_mask | std::views::chunk_by(std::equal_to{})] *)
Fixpoint chunk_by (mask : list Z) : list (list Z) :=
  match mask with
  | [] => []
  | x :: mask =>
      match chunk_by mask with
      | (y :: chunk) :: chunks =>
          if x =? y then (x :: y :: chunk) :: chunks else [x] :: (y :: chunk) :: chunks
      | _ => [[x]]
      end
  end.

(** The loop over the chunks. *)
Fixpoint format_chunks (data : bytes) (chunks : list (list Z)) (index : Z)
    (formatted_buffer : bytes) : expected bytes :=
  match chunks with
  | [] => Value (formatted_buffer ++ reset)
  | chunk :: chunks =>
      let colour_id := hd 0 chunk in
      if lenZ colours <=? colour_id then
        Unexpected ("unknown colour id: " +:+ pretty colour_id)
      else
        format_chunks data chunks (index +ₛ lenZ chunk)
          (formatted_buffer ++ nth (Z.to_nat colour_id) colours []
             ++ takeZ (lenZ chunk) (dropZ index data))
  end.

Section tree_sitter.
Context {W Next Parser Query Cursor Tree : Type} `{TreeSitterApi Parser Query Cursor Tree}
  `{SpanConsumer W Next}.

Record TreeSitterNode := mkTreeSitterNode { ts_next : Next }.

(** [operator()(std::span<const std::byte> data)] *)
#[global] Instance TreeSitterNode_span : SpanConsumer W TreeSitterNode :=
  λ n data,
    match ts_parser_new with
    | None => mret (n, Unexpected "failed to create parser")
    | Some parser =>
        if negb (ts_parser_set_language parser) then
          mret (n, Unexpected "failed to set language")
        else
          let '(query, error_type) := ts_query_new in
          match query with
          | Some query =>
              if negb (error_type =? 0) then
                mret (n, Unexpected ("failed to create query: " +:+ pretty error_type))
              else
                match ts_query_cursor_new with
                | None => mret (n, Unexpected "failed to create cursor")
                | Some cursor =>
                    let capture_colour := colour_of_name <$> ts_query_capture_names query in
                    match ts_parser_parse_string parser data with
                    | None => mret (n, Unexpected "failed to parse string")
                    | Some tree =>
                        match paint capture_colour (ts_query_captures cursor query tree)
                                (replicate (length data) 0) with
                        | None => undefined
                        | Some colour_mask =>
                            match format_chunks data (chunk_by colour_mask) 0 [] with
                            | Unexpected e => mret (n, Unexpected e)
                            | Value formatted_buffer =>
                                '(next', r) ← call_span (ts_next n) formatted_buffer;
                                mret (mkTreeSitterNode next', r)
                            end
                        end
                    end
                end
          | None => mret (n, Unexpected ("failed to create query: " +:+ pretty error_type))
          end
    end.

End tree_sitter.
Arguments TreeSitterNode : clear implicits.

(** ** A terminal

    The part of ECMA-48 the output uses: [CSI n m] with one decimal parameter
    sets the foreground colour; other bytes are shown in the current colour.
    Colour 0 is the default. *)
Inductive tstate := Text | Esc | Csi (n : Z).

Definition digit (b : byte) : option Z :=
  let n := Z.of_N (Byte.to_N b) in
  if (48 <=? n) && (n <=? 57) then Some (n - 48) else None.

Definition select_graphic (n cur : Z) : Z :=
  if n =? 0 then 0 else if (30 <=? n) && (n <=? 37) then n else cur.

Fixpoint terminal (st : tstate) (cur : Z) (s : bytes) : list (byte * Z) :=
  match s with
  | [] => []
  | b :: s =>
      match st with
      | Text => if decide (b = esc) then terminal Esc cur s else (b, cur) :: terminal Text cur s
      | Esc => if decide (b = "["%byte) then terminal (Csi 0) cur s else terminal Text cur s
      | Csi n =>
          match digit b with
          | Some d => terminal (Csi (10 * n + d)) cur s
          | None => if decide (b = "m"%byte) then terminal Text (select_graphic n cur) s
                    else terminal Text cur s
          end
      end
  end.

(** The foreground colour of a mask value, and the colours in which the bytes
    under a mask are shown: a zero in the mask keeps the colour that is on. *)
Definition foreground (cur colour_id : Z) : Z :=
  nth (Z.to_nat colour_id) [cur; 35; 34; 33; 36] cur.

Fixpoint sticky (cur : Z) (mask : list Z) : list Z :=
  match mask with
  | [] => []
  | id :: mask => foreground cur id :: sticky (foreground cur id) mask
  end.

(** ** Masks hold colour numbers *)

Definition colour_number (id : Z) : Prop := 0 ≤ id < lenZ colours.

Lemma colour_of_name_number name : colour_number (colour_of_name name).
Proof. unfold colour_number, colour_of_name. repeat case_match; vm_compute; split; congruence. Qed.

Lemma capture_colour_number cc index :
  Forall colour_number cc → colour_number (capture_colour_id cc index).
Proof.
  intros Hcc. unfold capture_colour_id. case_match; [|by vm_compute].
  destruct (nth_in_or_default (Z.to_nat index) cc 0) as [Hin| ->]; [|by vm_compute].
  rewrite Forall_forall in Hcc. by apply Hcc, list_elem_of_In.
Qed.

Lemma memset_some b id e (mask : list Z) :
  0 ≤ b ≤ e → e ≤ lenZ mask → lenZ mask < 2 ^ 32 → colour_number id → Forall colour_number mask →
  ∃ mask', memset b id e mask = Some mask' ∧ length mask' = length mask ∧
           Forall colour_number mask'.
Proof.
  intros Hb He Hsz Hid Hm. unfold memset. rewrite Z.mod_small by lia.
  rewrite (proj2 (Z.leb_le _ _)) by lia. eexists. split; [done|].
  rewrite takeZ_take, dropZ_drop. split.
  - rewrite !length_app, length_take, length_replicate, length_drop. unfold lenZ in *. lia.
  - rewrite !Forall_app. split_and!; [by apply Forall_take|by apply Forall_replicate|].
    by apply Forall_drop.
Qed.

Lemma paint_some cc captures (mask : list Z) :
  Forall colour_number cc → lenZ mask < 2 ^ 32 →
  Forall (λ '(index, b, e), 0 ≤ index ∧ 0 ≤ b ≤ e ∧ e ≤ lenZ mask) captures →
  Forall colour_number mask →
  ∃ mask', paint cc captures mask = Some mask' ∧ length mask' = length mask ∧
           Forall colour_number mask'.
Proof.
  intros Hcc Hsz Hcap. revert mask Hsz Hcap.
  induction captures as [|[[index b] e] captures IH]; intros mask Hsz Hcap Hm; simpl; [eauto|].
  apply Forall_cons in Hcap as [(Hi & Hb & He) Hcap]. case_match; [by apply IH|].
  destruct (memset_some b (capture_colour_id cc index) e mask) as (m1 & -> & Hlen & Hm1);
    [done..|by apply capture_colour_number|done|].
  simpl. rewrite <- Hlen. assert (lenZ m1 = lenZ mask) as Hz by (unfold lenZ; lia).
  apply IH; [lia|by rewrite Hz|done].
Qed.

(** ** Chunks *)

(** A chunk is a non-empty run of one value. *)
Definition run_of (chunk : list Z) : Prop := ∃ id n, chunk = replicate (S n) id.

Lemma chunk_by_runs mask : Forall run_of (chunk_by mask).
Proof.
  induction mask as [|x mask IH]; simpl; [constructor|].
  assert (run_of [x]) by by exists x, 0%nat.
  destruct (chunk_by mask) as [|[|y c] cs]; [by constructor..|].
  case_match eqn:E; [|by constructor].
  apply Z.eqb_eq in E as ->. apply Forall_cons in IH as [(id & n & Heq) IH].
  constructor; [|done]. injection Heq as -> ->. by exists id, (S n).
Qed.

Lemma concat_chunk_by mask : concat (chunk_by mask) = mask.
Proof.
  induction mask as [|x mask IH]; simpl; [done|].
  pose proof (chunk_by_runs mask) as Hr.
  destruct (chunk_by mask) as [|[|y c] cs]; simpl in *; subst; [done| |by case_match].
  apply Forall_cons in Hr as [(id & n & Heq) _]. done.
Qed.

(** Neighbouring chunks have different values: no escape sequence is written
    twice in a row. *)
Fixpoint heads_differ (chunks : list (list Z)) : Prop :=
  match chunks with
  | a :: (b :: _) as rest => hd 0 a ≠ hd 0 b ∧ heads_differ rest
  | _ => True
  end.

Lemma chunk_by_heads_differ mask : heads_differ (chunk_by mask).
Proof.
  induction mask as [|x mask IH]; simpl; [done|].
  destruct (chunk_by mask) as [|[|y c] cs] eqn:E; simpl; [done..|].
  case_match eqn:Exy; simpl.
  - apply Z.eqb_eq in Exy as ->. destruct cs; simpl in *; done.
  - split; [|exact IH]. by apply Z.eqb_neq.
Qed.

(** ** What a terminal shows *)

Lemma terminal_colour id cur s :
  colour_number id →
  terminal Text cur (nth (Z.to_nat id) colours [] ++ s) = terminal Text (foreground cur id) s.
Proof.
  intros [H0 H5]. unfold lenZ in H5. simpl in H5.
  assert (id = 0 ∨ id = 1 ∨ id = 2 ∨ id = 3 ∨ id = 4) as [->|[->|[->|[->| ->]]]] by lia; done.
Qed.

Lemma terminal_text cur (seg s : bytes) :
  esc ∉ seg → terminal Text cur (seg ++ s) = ((., cur) <$> seg) ++ terminal Text cur s.
Proof.
  induction seg as [|b seg IH]; intros Hseg; [done|]. simpl.
  rewrite decide_False by set_solver. by rewrite IH by set_solver.
Qed.

Lemma terminal_reset cur : terminal Text cur reset = [].
Proof. done. Qed.

Lemma foreground_idemp cur id :
  colour_number id → foreground (foreground cur id) id = foreground cur id.
Proof.
  intros [H0 H5]. unfold lenZ in H5. simpl in H5.
  assert (id = 0 ∨ id = 1 ∨ id = 2 ∨ id = 3 ∨ id = 4) as [->|[->|[->|[->| ->]]]] by lia; done.
Qed.

Lemma sticky_same cur id n mask :
  foreground cur id = cur →
  sticky cur (replicate n id ++ mask) = replicate n cur ++ sticky cur mask.
Proof. intros Hid. induction n as [|n IH]; [done|]. simpl. by rewrite Hid, IH. Qed.

Lemma sticky_run cur id n mask :
  colour_number id →
  sticky cur (replicate (S n) id ++ mask) =
    replicate (S n) (foreground cur id) ++ sticky (foreground cur id) mask.
Proof. intros Hid. simpl. by rewrite sticky_same by by apply foreground_idemp. Qed.

Lemma colour_length id : (length (nth (Z.to_nat id) colours []) ≤ 5)%nat.
Proof.
  destruct (nth_in_or_default (Z.to_nat id) colours []) as [Hin| ->]; [|simpl; lia].
  assert (Hall : Forall (λ c, (length c ≤ 5)%nat) colours) by (repeat constructor; simpl; lia).
  rewrite Stdlib.Lists.List.Forall_forall in Hall. auto.
Qed.

Lemma format_chunks_law (data : bytes) (chunks : list (list Z)) (index : Z) (acc : bytes) :
  Forall run_of chunks → Forall colour_number (concat chunks) →
  0 ≤ index → index + lenZ (concat chunks) = lenZ data → lenZ data < size_max →
  ∃ out, format_chunks data chunks index acc = Value (acc ++ out ++ reset) ∧
    (length out ≤ 6 * length (concat chunks))%nat ∧
    (esc ∉ data → ∀ cur s, terminal Text cur (out ++ reset ++ s) =
       zip (dropZ index data) (sticky cur (concat chunks)) ++ terminal Text 0 s).
Proof.
  intros Hruns. revert index acc.
  induction Hruns as [|chunk chunks (id & n & ->) _ IH]; intros index acc Hcn Hi Hlen Hsz.
  { exists []. split; [done|]. split; [done|]. intros _ cur s. simpl in *.
    unfold lenZ in Hlen at 1. simpl in Hlen. by rewrite dropZ_all by lia. }
  change (concat (replicate (S n) id :: chunks))
    with (replicate (S n) id ++ concat chunks) in *.
  apply Forall_app in Hcn as [Hrep Hcn].
  assert (colour_number id) as Hid by (simpl in Hrep; by apply Forall_cons in Hrep as [? _]).
  rewrite lenZ_app in Hlen.
  assert (lenZ (replicate (S n) id) = Z.of_nat (S n)) as Hrl.
  { unfold lenZ. by rewrite length_replicate. }
  pose proof (lenZ_nonneg (concat chunks)).
  destruct (IH (index + Z.of_nat (S n))
              (acc ++ nth (Z.to_nat id) colours []
                 ++ takeZ (Z.of_nat (S n)) (dropZ index data))) as (out & Hout & Hol & Hterm);
    [done|lia|lia|done|].
  exists (nth (Z.to_nat id) colours [] ++ takeZ (Z.of_nat (S n)) (dropZ index data) ++ out).
  assert (length (takeZ (Z.of_nat (S n)) (dropZ index data)) = S n) as Hseg.
  { pose proof (lenZ_takeZ (Z.of_nat (S n)) (dropZ index data)) as Hl.
    rewrite lenZ_dropZ in Hl by lia. unfold lenZ in *. lia. }
  split_and!.
  - cbn [format_chunks]. change (hd 0 (replicate (S n) id)) with id.
    rewrite (proj2 (Z.leb_gt _ _)) by apply Hid. rewrite Hrl.
    rewrite size_add_small by lia. rewrite Hout. by rewrite <- !(assoc_L (++)).
  - rewrite !length_app, Hseg, length_replicate.
    pose proof (colour_length id). lia.
  - intros Hesc cur s. rewrite <- !(assoc_L (++)), terminal_colour by done.
    assert (esc ∉ dropZ index data) as Hesc'.
    { rewrite <- (takeZ_dropZ index data) in Hesc. set_solver. }
    assert (esc ∉ takeZ (Z.of_nat (S n)) (dropZ index data)) as Hesc''.
    { rewrite <- (takeZ_dropZ (Z.of_nat (S n)) (dropZ index data)) in Hesc'. set_solver. }
    rewrite terminal_text, Hterm, sticky_run by done.
    rewrite <- (takeZ_dropZ (Z.of_nat (S n)) (dropZ index data)) at 2.
    rewrite dropZ_dropZ by lia.
    rewrite zip_with_app, <- (assoc_L (++)) by (by rewrite length_replicate). f_equal.
    by rewrite zip_with_replicate_r by lia.
Qed.

Lemma length_sticky cur mask : length (sticky cur mask) = length mask.
Proof. revert cur. induction mask; intros; simpl; auto. Qed.

(** The mask of a text, formatted: the terminal shows the text. *)
Lemma format_mask_law (data : bytes) (mask : list Z) :
  length mask = length data → Forall colour_number mask → lenZ data < size_max →
  ∃ out, format_chunks data (chunk_by mask) 0 [] = Value out ∧
    (length out ≤ 6 * length data + 4)%nat ∧
    (esc ∉ data → ∀ cur s, terminal Text cur (out ++ s) =
       zip data (sticky cur mask) ++ terminal Text 0 s).
Proof.
  intros Hlen Hcn Hsz.
  destruct (format_chunks_law data (chunk_by mask) 0 []) as (out & Hout & Hol & Hterm).
  - apply chunk_by_runs.
  - by rewrite concat_chunk_by.
  - done.
  - rewrite concat_chunk_by. unfold lenZ. lia.
  - done.
  - exists (out ++ reset). rewrite concat_chunk_by in Hol. split_and!; [done| |].
    + rewrite length_app. simpl. lia.
    + intros Hesc cur s. rewrite <- (assoc_L (++)), Hterm by done.
      by rewrite dropZ_0, concat_chunk_by.
Qed.

(** The calls of the library that set up a parser, a query and a tree. *)
Definition set_up {Parser Query Cursor Tree} `{TreeSitterApi Parser Query Cursor Tree}
    (data : bytes) (parser : Parser) (query : Query) (cursor : Cursor) (tree : Tree) : Prop :=
  ts_parser_new = Some parser ∧ ts_parser_set_language parser = true ∧
  ts_query_new = (Some query, 0) ∧ ts_query_cursor_new = Some cursor ∧
  ts_parser_parse_string parser data = Some tree.

Lemma tree_sitter_formats {W Next Parser Query Cursor Tree}
    `{LawfulTreeSitter Parser Query Cursor Tree} `{SpanConsumer W Next}
    (n : TreeSitterNode Next) (data : bytes) parser query cursor tree :
  set_up data parser query cursor tree → lenZ data < 2 ^ 32 →
  ∃ mask out,
    paint (colour_of_name <$> ts_query_capture_names query)
      (ts_query_captures cursor query tree) (replicate (length data) 0) = Some mask ∧
    length mask = length data ∧
    (∀ w : W, call_span n data w =
       ('(next', r) ← call_span (ts_next n) out; mret (mkTreeSitterNode next', r)) w) ∧
    (length out ≤ 6 * length data + 4)%nat ∧
    (esc ∉ data → ∀ cur s, terminal Text cur (out ++ s) =
       zip data (sticky cur mask) ++ terminal Text 0 s).
Proof.
  intros (Hp & Hl & Hq & Hc & Ht) Hsz.
  destruct (paint_some (colour_of_name <$> ts_query_capture_names query)
              (ts_query_captures cursor query tree) (replicate (length data) 0))
    as (mask & Hmask & Hlen & Hcn).
  - apply Forall_fmap, Forall_true. intros. apply colour_of_name_number.
  - unfold lenZ in *. by rewrite length_replicate.
  - unfold lenZ. rewrite length_replicate. by eapply ts_query_captures_law.
  - apply Forall_replicate. by vm_compute.
  - rewrite length_replicate in Hlen.
    destruct (format_mask_law data mask Hlen Hcn) as (out & Hout & Hol & Hterm);
      [unfold size_max; lia|].
    exists mask, out. split_and!; [done|done| |done|done].
    intros w. unfold call_span at 1, TreeSitterNode_span. rewrite Hp, Hl, Hq, Hc, Ht, Hmask.
    simpl. by rewrite Hout.
Qed.


(** Text after a coloured capture is not shown in the default colour: the
    entry of [colours] for plain text is empty, so a byte without a colour
    that follows a coloured byte keeps that byte's colour until the next
    capture or the final reset. *)
Theorem tree_sitter_colour_bleeds (data out : bytes) (mask : list Z) (i : nat) (id : Z) (b : byte) :
  length mask = length data → Forall colour_number mask → lenZ data < size_max → esc ∉ data →
  format_chunks data (chunk_by mask) 0 [] = Value out →
  mask !! i = Some id → id ≠ 0 → mask !! S i = Some 0 → data !! S i = Some b →
  ∃ colour, terminal Text 0 out !! S i = Some (b, colour) ∧ colour ≠ 0.
Proof.
  intros Hlen Hcn Hsz Hesc Hout Hi Hid Hi' Hb.
  destruct (format_mask_law data mask Hlen Hcn Hsz) as (out' & Hout' & _ & Hterm).
  rewrite Hout in Hout'. injection Hout' as <-.
  rewrite <- (app_nil_r out), (Hterm Hesc), app_nil_r.
  assert (Hst : ∃ colour, sticky 0 mask !! S i = Some colour ∧ colour ≠ 0).
  { clear -Hi Hi' Hid Hcn. generalize 0 at 1. intros cur. revert cur i Hi Hi'.
    induction mask as [|x mask IH]; intros cur i Hi Hi'; [done|].
    apply Forall_cons in Hcn as [[Hx0 Hx5] Hcn]. unfold lenZ in Hx5. simpl in Hx5.
    destruct i as [|i]; simplify_eq/=; [|by apply IH].
    destruct mask as [|y mask]; simplify_eq/=. exists (foreground cur id).
    split; [done|].
    assert (id = 1 ∨ id = 2 ∨ id = 3 ∨ id = 4) as [->|[->|[->| ->]]] by lia; by vm_compute. }
  destruct Hst as (colour & Hst & Hne). exists colour. split; [|done].
  by rewrite lookup_zip_with, Hb, Hst.
Qed.

(** ** A concrete library

    One capture name, [keyword], and one capture: the first three bytes. *)
#[local] Instance demo_tree_sitter : TreeSitterApi unit unit unit Z := {|
  ts_parser_new := Some ();
  ts_parser_set_language _ := true;
  ts_query_new := (Some (), 0);
  ts_query_cursor_new := Some ();
  ts_query_capture_names _ := ["keyword"%string];
  ts_parser_parse_string _ data := Some (lenZ data);
  ts_query_captures _ _ tree := if 3 <=? tree then [(0, 0, 3)] else []
|}.

#[local] Instance demo_tree_sitter_lawful : LawfulTreeSitter unit unit unit Z.
Proof.
  intros parser cursor query data tree [= <-]. simpl.
  destruct (Z.leb_spec 3 (lenZ data)); repeat constructor; lia.
Qed.


Lemma tree_sitter_colour_bleeds_witness :
  ∃ colour,
    terminal Text 0 (sgr "[35mint x" ++ reset) !! 3%nat = Some (" "%byte, colour) ∧ colour ≠ 0.
Proof.
  apply (tree_sitter_colour_bleeds (str "int x") (sgr "[35mint x" ++ reset)
           [1; 1; 1; 0; 0] 2 1 " "%byte); try reflexivity; try (vm_compute; congruence).
  - repeat constructor; vm_compute; congruence.
  - apply (bool_decide_unpack _). vm_compute. exact I.
Defined.
