(* ===== verification/Cat.v ===== *)
(** commands/cat.h and config/config.h: the [cat] command.

    [cat] opens its first argument, asks what the standard output is, and runs
    the pipeline that suits it: [copy_file_range] into a regular file, a direct
    splice into a pipe, a splice through a middleman pipe into a character
    device, and reads and writes, with or without colours, into anything
    else. *)

From S2P Require Import Prelude Kernel SimKernel Nodes AutoRelease.
From S2P Require Import Pipeline Sinks Sources TreeSitter.

(** ** config/config.h *)

Record Config := mkConfig { colour_output : bool }.

(** [load_config()]; [getenv] is the environment of the process. *)
Definition load_config (getenv : string → option string) : Config :=
  mkConfig (negb (bool_decide (is_Some (getenv "NO_COLOUR"))
                  || bool_decide (is_Some (getenv "NO_COLOR")))).

(** ** commands/cat.h *)

Definition can_copy_file_range (in_mode out_mode : Z) : bool := S_ISREG in_mode && S_ISREG out_mode.

Definition can_middleman_splice (out_mode : Z) : bool := S_ISCHR out_mode || S_ISREG out_mode.

Definition can_direct_pipe (out_mode : Z) : bool := S_ISFIFO out_mode.

Record File := mkFile { file_fd : Z; file_size : Z; file_mode : Z }.

Section cat.
Context {W : Type} `{Kernel W} {F : Fuel}.
Context {Parser Query Cursor Tree : Type} `{TreeSitterApi Parser Query Cursor Tree}.

Definition is_terminal_output : M W bool :=
  res ← sys_isatty STDOUT_FILENO; mret (res =? 1).

(** [open_file(path)]: the local owner closes the descriptor when the function
    throws, and is moved into the result when it returns. *)
Definition open_file (path : string) : M W File :=
  fd ← sys_openat AT_FDCWD path (Z.lor O_RDONLY O_NOATIME);
  if fd =? -1 then throw ("failed to open: " +:+ path)
  else
    unwinding
      ('(res, stx) ← sys_statx fd;
       if negb (res =? 0) then
         err ← get_errno; throw ("failed to statx file: " +:+ strerror err)
       else
         advised ← sys_fadvise fd 0 (stx_size stx)
                     (Z.lor POSIX_FADV_SEQUENTIAL POSIX_FADV_WILLNEED);
         if negb (advised =? 0) then
           err ← get_errno; throw ("failed to advise: " +:+ strerror err)
         else mret (mkFile fd (stx_size stx) (stx_mode stx)))
      (fd_dtor fd).

(** [execute(pipeline, file.fd.get(), file.size)] *)
Definition execute_file {N} `{FdSource W N} (pipeline : N) (file : File) : M W unit :=
  _ ← execute (call_source pipeline (file_fd file) (file_size file)); mret ().

(** The pipelines of the five branches. *)
Definition copy_pipeline : CopyFileRange.CopyFileRangeNode NullSink.NullSinkNode :=
  CopyFileRange.mk NullSink.mkNullSinkNode.

Definition direct_pipeline : DirectSplice.DirectSpliceNode NullSink.NullSinkNode :=
  DirectSplice.mk NullSink.mkNullSinkNode.

Definition splice_pipeline : SpliceSource.SourceSpliceNode SpliceSink.SinkSpliceNode :=
  SpliceSource.mk SpliceSink.mkSinkSpliceNode.

Definition colour_pipeline : ReadFile.ReadFileNode (TreeSitterNode Write.WriteNode) :=
  ReadFile.mk (mkTreeSitterNode Write.mkWriteNode).

Definition plain_pipeline : ReadFile.ReadFileNode Write.WriteNode :=
  ReadFile.mk Write.mkWriteNode.

(** [cat], once the file is open: the choice of the pipeline. All branches
    return, so the statements after them are never reached. *)
Definition cat_file (config : Config) (file : File) : M W unit :=
  '(res, out_stx) ← sys_statx STDOUT_FILENO;
  if negb (res =? 0) then throw "failed to statx stdout"
  else if can_copy_file_range (file_mode file) (stx_mode out_stx) then
    execute_file copy_pipeline file
  else if can_direct_pipe (stx_mode out_stx) then execute_file direct_pipeline file
  else if can_middleman_splice (stx_mode out_stx) then execute_file splice_pipeline file
  else
    coloured ← (if colour_output config then mret true else is_terminal_output);
    if (coloured : bool) then execute_file colour_pipeline file
    else execute_file plain_pipeline file.

(** [cat(config, args)] *)
Definition cat (config : Config) (args : list string) : M W unit :=
  match args with
  | [] => undefined
  | path :: _ =>
      file ← open_file path;
      finally (cat_file config file) (fd_dtor (file_fd file))
  end.

End cat.

(** ** What the pipelines deliver *)

Section cat_laws.
Context {W : Type} `{LawfulKernel W} {F : Fuel}.
Context {Parser Query Cursor Tree : Type} `{TreeSitterApi Parser Query Cursor Tree}.

(** A run on an open file puts bytes [out] on the standard output, with
    [P out] when it returns and [X out] when it throws; in the table of
    descriptors nothing but the position of the file has changed. *)
Definition ran (P X : bytes → Prop) (fd : Z) (c : bytes) (w : W) (o : outcome unit) (w' : W)
    : Prop :=
  (∃ p, v_fds (view_of w') = <[fd := OFile c p]> (v_fds (view_of w))) ∧
  ∃ out, v_out (view_of w') = v_out (view_of w) ++ out ∧
         match o with Done _ => P out | Throws _ => X out | _ => False end.

(** The content itself, or a first part of it. *)
Definition whole (c out : bytes) : Prop := out = c.

Definition part (c out : bytes) : Prop := out `prefix_of` c.

Lemma execute_file_law {N} `{FdSource W N} (P X : bytes → Prop) (n : N) (file : File) c (w : W) :
  wp (call_source n (file_fd file) (file_size file)) w (returns (λ '(_, r) w',
    (∃ p, v_fds (view_of w') = <[file_fd file := OFile c p]> (v_fds (view_of w))) ∧
    ∃ out, v_out (view_of w') = v_out (view_of w) ++ out ∧
           match r with Value _ => P out | Unexpected _ => X out end)) →
  wp (execute_file n file) w (ran P X (file_fd file) c w).
Proof.
  intros Hc. unfold execute_file. apply wp_bind, wp_execute. eapply wp_mono; [done|].
  intros [[n' [k|e]]| | | |] w'; simpl; done.
Qed.

(** An open file at its start, as [open_file] describes it. *)
Definition opened (file : File) (c : bytes) (w : W) : Prop :=
  is_file (file_fd file) c 0 (view_of w) ∧ file_size file = lenZ c.

Section on_file.
Context (file : File) (c : bytes) (w : W).
Hypothesis Hopen : opened file c w.
Hypothesis Hc : lenZ c < size_max.
Hypothesis Hfuel : (length c < fuel)%nat.

(** In-kernel copies. *)
Lemma copied_ran (r : expected Z) (w' : W) :
  copied (file_fd file) c 0 (file_size file) w r w' →
  (∃ p, v_fds (view_of w') = <[file_fd file := OFile c p]> (v_fds (view_of w))) ∧
  ∃ out, v_out (view_of w') = v_out (view_of w) ++ out ∧
         match r with Value _ => whole c out | Unexpected _ => part c out end.
Proof.
  destruct Hopen as [(Hf & _ & _) Hsz]. intros Hr. split.
  - destruct r as [n|e]; simpl in Hr; [destruct Hr as [_ ->]|destruct Hr as (n & _ & ->)];
      exists n; unfold sent; rewrite (consume_file _ c 0) by done; done.
  - apply copied_out in Hr. rewrite dropZ_0, Hsz in Hr. destruct r as [n|e].
    + exists c. rewrite takeZ_all in Hr by lia. done.
    + destruct Hr as (k & _ & Hr). exists (takeZ k c). split; [done|]. apply takeZ_prefix.
Qed.

Lemma copy_pipeline_ran :
  wp (execute_file copy_pipeline file) w (ran (whole c) (part c) (file_fd file) c w).
Proof.
  apply execute_file_law. eapply wp_returns_mono.
  { apply copy_file_range_node_law; [apply Hopen| |done]. destruct Hopen as [_ ->]. range. }
  intros [n r] w' Hr. by apply copied_ran.
Qed.

Lemma direct_pipeline_ran :
  wp (execute_file direct_pipeline file) w (ran (whole c) (part c) (file_fd file) c w).
Proof.
  apply execute_file_law. eapply wp_returns_mono.
  { apply direct_splice_node_law; [apply Hopen| |done]. destruct Hopen as [_ ->]. range. }
  intros [n r] w' Hr. by apply copied_ran.
Qed.

Lemma splice_pipeline_ran :
  FullSplice (W := W) →
  wp (execute_file splice_pipeline file) w (ran (whole c) (part c) (file_fd file) c w).
Proof.
  intros Hfull. destruct Hopen as [Hf Hsz]. apply execute_file_law. eapply wp_returns_mono.
  { apply (splice_node_full _ _ c 0); [done|done| |done|done]. rewrite Hsz, dropZ_0. range. }
  intros [n [k|e]] w'; simpl.
  - intros (_ & Hout & Hfds). split; [eauto|]. exists c.
    by rewrite dropZ_0, Hsz, takeZ_all in Hout by lia.
  - intros (k & p' & Hout & Hfds). rewrite dropZ_0 in Hout. split; [eauto|].
    exists (takeZ k c). split; [done|]. apply takeZ_prefix.
Qed.

Lemma fds_same (out : bytes) (w' : W) :
  view_of w' = emit out (view_of w) →
  (∃ p, v_fds (view_of w') = <[file_fd file := OFile c p]> (v_fds (view_of w))) ∧
  v_out (view_of w') = v_out (view_of w) ++ out.
Proof.
  intros ->. split; [|done]. exists 0. destruct Hopen as [(Hf & _) _]. simpl.
  by rewrite insert_id.
Qed.

Lemma plain_pipeline_ran :
  wp (execute_file plain_pipeline file) w (ran (whole c) (part c) (file_fd file) c w).
Proof.
  apply execute_file_law. eapply wp_returns_mono.
  { apply (read_file_write_law _ _ c 0); [apply Hopen|done|done]. }
  intros [n [k|e]] w'; simpl.
  - intros [_ Hv]. apply fds_same in Hv as [? ?]. split; [done|]. by exists c.
  - intros (d & Hd & Hv). apply fds_same in Hv as [? ?]. split; [done|]. by exists d.
Qed.

(** ** Colours *)

(** The library can always set up its parser, query and cursor, and parses
    every text. *)
Definition ts_ready : Prop :=
  ∀ data, ∃ (parser : Parser) (query : Query) (cursor : Cursor) (tree : Tree),
    set_up data parser query cursor tree.

(** A terminal that shows [out] shows the text [d], and is back in its initial
    state afterwards. *)
Definition shows (d out : bytes) : Prop :=
  ∀ s, (terminal Text 0 (out ++ s)).*1 = d ++ (terminal Text 0 s).*1.

Lemma shows_app d e out out' : shows d out → shows e out' → shows (d ++ e) (out ++ out').
Proof. intros Hd He s. by rewrite <- !(assoc_L (++)), Hd, He. Qed.

Lemma colour_step `{!LawfulTreeSitter Parser Query Cursor Tree}
    (n : TreeSitterNode Write.WriteNode) (chunk : bytes) (w1 : W) :
  ts_ready → esc ∉ chunk → lenZ chunk ≤ ReadFile.max_size → (6 * length chunk + 4 < fuel)%nat →
  wp (call_span n chunk) w1 (returns (λ '(_, r) w',
    ∃ out, view_of w' = emit out (view_of w1) ∧
           match r with Value _ => shows chunk out | Unexpected _ => True end)).
Proof.
  intros Hready Hesc Hlen Hf. destruct (Hready chunk) as (parser & query & cursor & tree & Hset).
  unfold ReadFile.max_size in Hlen.
  destruct (tree_sitter_formats (W := W) n chunk parser query cursor tree Hset)
    as (mask & out & _ & Hml & Hcall & Hol & Hterm); [lia|].
  unfold wp. rewrite Hcall. apply wp_bind_returns. eapply wp_returns_mono.
  { apply call_span_law. unfold enough. simpl. unfold lenZ, size_max in *. simpl. lia. }
  intros [n' r] w' (bs & Hv & Hbs). apply wp_ret. simpl in *. exists bs. split; [done|].
  destruct r as [k|e]; [|done]. rewrite app_nil_r in Hbs. subst bs. intros s.
  rewrite Hterm by done. rewrite fmap_app. f_equal. rewrite fst_zip; [done|].
  rewrite length_sticky. lia.
Qed.

Lemma colour_pipeline_ran `{!LawfulTreeSitter Parser Query Cursor Tree} :
  ts_ready → esc ∉ c → (6 * length c + 4 < fuel)%nat →
  wp (execute_file colour_pipeline file) w
    (ran (shows c) (λ _, True) (file_fd file) c w).
Proof.
  intros Hready Hesc Hf. apply execute_file_law. eapply wp_returns_mono.
  { apply (read_file_node_law (file_fd file) c 0
      (λ d _ _ v, ∃ out, v = emit out (view_of w) ∧ shows d out)
      (λ _ _ v, ∃ out, v = emit out (view_of w))); [| |done|done|].
    - intros d _ k v (out & -> & _). apply is_file_emit, Hopen.
    - intros d chunk n k w1 (out & Hv & Hd) _ Hlen Hpre.
      eapply wp_returns_mono; [apply colour_step; [done| |done|]|].
      + destruct Hpre as [e He]. rewrite He in Hesc. set_solver.
      + apply prefix_length in Hpre. rewrite length_app in Hpre. lia.
      + intros [n' r] w' (out' & Hv' & Hr). rewrite Hv', Hv, emit_emit.
        destruct r; [|eauto]. exists (out ++ out'). split; [done|]. by apply shows_app.
    - exists []. by rewrite emit_nil. }
  intros [n [k|e]] w'; simpl.
  - intros (out & Hv & Hd). apply fds_same in Hv as [? ?]. split; [done|]. by exists out.
  - intros (d & _ & [(k & out & Hv & _)|(out & Hv)]); apply fds_same in Hv as [? ?];
      (split; [done|]; by exists out).
Qed.

End on_file.

(** ** Opening and closing *)

Lemma close_opened fd o (v : view) :
  v_fds v !! fd = None → set_fds (delete fd) (set_fds (insert fd o) v) = v.
Proof. destruct v. unfold set_fds. simpl. intros. by rewrite delete_insert_id. Qed.

Lemma open_file_law path c (w : W) :
  v_fs (view_of w) !! path = Some c →
  wp (open_file path) w (λ o w',
    match o with
    | Done file =>
        opened file c w' ∧ S_ISREG (file_mode file) = true ∧ 0 ≤ file_fd file ∧
        v_fds (view_of w) !! file_fd file = None ∧
        view_of w' = set_fds (insert (file_fd file) (OFile c 0)) (view_of w)
    | Throws _ => view_of w' = view_of w
    | _ => False
    end).
Proof.
  intros Hfs. unfold open_file. apply wp_bind_returns.
  eapply wp_returns_mono; [by apply openat_law|].
  intros fd w1 [[-> Hv1]|(Hfd & Hne & Hfresh & Hv1)]; [by apply wp_throw|].
  destruct (Z.eqb_spec fd (-1)); [lia|]. apply wp_unwinding.
  assert (is_file fd c 0 (view_of w1)) as Hf.
  { rewrite Hv1. split_and!; [simpl; apply lookup_insert_eq|lia|done]. }
  assert (Hclose : ∀ w2, view_of w2 = view_of w1 →
            wp (fd_dtor fd) w2 (returns (λ _ w3, view_of w3 = view_of w))).
  { intros w2 Hv2. eapply wp_returns_mono; [by apply fd_dtor_law|].
    intros _ w3 ->. rewrite Hv2, Hv1. by apply close_opened. }
  apply wp_bind_returns. eapply wp_returns_mono; [by eapply statx_file_law|].
  intros [res st] w2 [Hv2 Hst]. destruct (Z.eqb_spec res 0) as [->|]; simpl;
    [|by apply Hclose].
  apply wp_bind_returns. eapply wp_returns_mono; [apply fadvise_law|].
  intros adv w3 Hv3. destruct (adv =? 0); simpl; [|apply Hclose; simpl; congruence].
  apply wp_ret. simpl. destruct (Hst eq_refl) as [Hsz Hmode].
  split_and!; [|done|done|done|congruence]. split; [|done]. simpl. congruence.
Qed.

(** [cat] as a whole: the file is closed again in every outcome. *)
Definition cat_post (P X : bytes → Prop) (w : W) (o : outcome unit) (w' : W) : Prop :=
  v_fds (view_of w') = v_fds (view_of w) ∧
  ∃ out, v_out (view_of w') = v_out (view_of w) ++ out ∧
         match o with Done _ => P out | Throws _ => X out | _ => False end.

Lemma cat_scope (P X : bytes → Prop) config path rest c (w : W) :
  v_fs (view_of w) !! path = Some c → X [] →
  (∀ file (w1 : W), opened file c w1 → S_ISREG (file_mode file) = true →
     v_out_mode (view_of w1) = v_out_mode (view_of w) →
     wp (cat_file config file) w1 (ran P X (file_fd file) c w1)) →
  wp (cat config (path :: rest)) w (cat_post P X w).
Proof.
  intros Hfs HX Hbody. unfold cat. apply wp_bind.
  eapply wp_mono; [by apply open_file_law|].
  intros [file|e| | |] w1; simpl; try done.
  2: { intros Hv. split; [by rewrite Hv|]. exists []. by rewrite Hv, app_nil_r. }
  intros (Hopen & Hreg & Hfd & Hfresh & Hv1). apply wp_finally.
  eapply wp_mono; [apply Hbody; [done|done|by rewrite Hv1]|].
  intros o w2 [[p Hfds] (out & Hout & Ho)].
  assert (Hclose : wp (fd_dtor (file_fd file)) w2 (returns (λ _ w3,
            v_fds (view_of w3) = v_fds (view_of w) ∧
            v_out (view_of w3) = v_out (view_of w) ++ out))).
  { eapply wp_returns_mono; [by apply fd_dtor_law|]. intros _ w3 ->. simpl.
    rewrite Hfds, Hout, Hv1. simpl. by rewrite insert_insert_eq, delete_insert_id. }
  destruct o; try done; (eapply wp_returns_mono; [exact Hclose|]);
    intros _ w3 [? ?]; (split; [done|]); by exists out.
Qed.

(** The choice of the pipeline, by the mode of the standard output. *)
Lemma cat_file_law (P X : bytes → Prop) config file c (w : W) :
  X [] → opened file c w → S_ISREG (file_mode file) = true →
  (∀ w1 : W, view_of w1 = view_of w →
     let mode := v_out_mode (view_of w) in
     let Q := ran P X (file_fd file) c w1 in
     if S_ISREG mode then wp (execute_file copy_pipeline file) w1 Q
     else if S_ISFIFO mode then wp (execute_file direct_pipeline file) w1 Q
     else if S_ISCHR mode then wp (execute_file splice_pipeline file) w1 Q
     else if colour_output config then wp (execute_file colour_pipeline file) w1 Q
     else wp (execute_file plain_pipeline file) w1 Q) →
  wp (cat_file config file) w (ran P X (file_fd file) c w).
Proof.
  intros HX [Hf Hsz] Hreg Hrun. unfold cat_file.
  assert (Hview : ∀ (w1 : W) o w2, view_of w1 = view_of w →
            ran P X (file_fd file) c w1 o w2 → ran P X (file_fd file) c w o w2).
  { intros w1 o w2 Hv. unfold ran. by rewrite Hv. }
  apply wp_bind_returns. eapply wp_returns_mono; [apply statx_out_law|].
  intros [res st] w1 [Hv Hst]. destruct (Z.eqb_spec res 0) as [->|]; simpl.
  2: { apply wp_throw. split; [exists 0|exists []]; rewrite Hv, ?app_nil_r; [|done].
       by rewrite insert_id by apply Hf. }
  specialize (Hst eq_refl). cbv zeta in Hrun. rewrite <- Hst in Hrun.
  unfold can_copy_file_range, can_direct_pipe, can_middleman_splice. rewrite Hreg. simpl.
  destruct (S_ISREG (stx_mode st)); [eapply wp_mono; eauto|].
  destruct (S_ISFIFO (stx_mode st)); [eapply wp_mono; eauto|].
  destruct (S_ISCHR (stx_mode st)) eqn:Echr; simpl; [eapply wp_mono; eauto|].
  destruct (colour_output config) eqn:Ecol; simpl.
  - apply wp_bind, wp_ret. simpl. eapply wp_mono; eauto.
  - unfold is_terminal_output. apply wp_bind_returns, wp_bind_returns.
    eapply wp_returns_mono; [apply isatty_law|].
    intros n w2 [Hv2 Hn]. apply wp_ret. simpl.
    rewrite Hv, <- Hst, Echr in Hn. destruct Hn as [->|[_ ?]]; [|done].
    eapply wp_mono; [apply Hrun; congruence|]. intros o w3. apply Hview. congruence.
Qed.

End cat_laws.

(** ** Concrete runs *)

(** A system whose standard output has the given mode and where [path] names a
    file. *)
Definition cat_world (mode : Z) (path : string) (content : bytes) (limits : list Z) : sim :=
  Sim (View [] mode ∅ ∅ {[ path := content ]}) limits 0 1.

Definition S_IFIFO : Z := 4096.

Definition S_IFCHR : Z := 8192.

Definition S_IFSOCK : Z := 49152.

Lemma eager_full : FullSplice (W := eager).
Proof.
  intros fd c p r q len w Hf _ Hlen Hc. eapply wp_returns_mono; [by eapply eager_splice|].
  intros n w' ->. auto.
Qed.

#[local] Instance no_tree_sitter : TreeSitterApi unit unit unit unit := {|
  ts_parser_new := None;
  ts_parser_set_language _ := false;
  ts_query_new := (None, 1);
  ts_query_cursor_new := None;
  ts_query_capture_names _ := [];
  ts_parser_parse_string _ _ := None;
  ts_query_captures _ _ _ := []
|}.

(** What [cat] does with an open file, without colours. *)
Lemma cat_file_delivers {W} `{LawfulKernel W} {F : Fuel} {Parser Query Cursor Tree}
    `{TreeSitterApi Parser Query Cursor Tree} (config : Config) (file : File) (c : bytes) (w : W) :
  let mode := v_out_mode (view_of w) in
  opened file c w → S_ISREG (file_mode file) = true → lenZ c < size_max → (length c < fuel)%nat →
  (S_ISCHR mode = true → FullSplice (W := W)) →
  S_ISREG mode || S_ISFIFO mode || S_ISCHR mode || negb (colour_output config) = true →
  wp (cat_file config file) w (ran (whole c) (part c) (file_fd file) c w).
Proof.
  intros mode Hopen Hreg Hc Hfuel Hfull Hmode. apply cat_file_law; [apply prefix_nil|done|done|].
  intros w2 Hv. assert (opened file c w2) as Hopen2 by (unfold opened in *; by rewrite Hv).
  fold mode. simpl.
  destruct (S_ISREG mode); [by apply copy_pipeline_ran|].
  destruct (S_ISFIFO mode); [by apply direct_pipeline_ran|].
  destruct (S_ISCHR mode); [by apply splice_pipeline_ran; auto|].
  destruct (colour_output config); [done|by apply plain_pipeline_ran].
Qed.




(** A library that colours the first byte of every text. *)
#[local] Instance first_byte_tree_sitter : TreeSitterApi unit unit unit Z := {|
  ts_parser_new := Some ();
  ts_parser_set_language _ := true;
  ts_query_new := (Some (), 0);
  ts_query_cursor_new := Some ();
  ts_query_capture_names _ := ["string"%string];
  ts_parser_parse_string _ data := Some (lenZ data);
  ts_query_captures _ _ tree := if 1 <=? tree then [(0, 0, 1)] else []
|}.

#[local] Instance first_byte_lawful : LawfulTreeSitter unit unit unit Z.
Proof.
  intros parser cursor query data tree [= <-]. simpl.
  destruct (Z.leb_spec 1 (lenZ data)); repeat constructor; lia.
Qed.


Lemma cat_file_config {W} `{LawfulKernel W} {F : Fuel} {Parser Query Cursor Tree}
    `{TreeSitterApi Parser Query Cursor Tree} (config config' : Config) file (w : W) :
  let mode := v_out_mode (view_of w) in
  S_ISREG mode || S_ISFIFO mode || S_ISCHR mode = true →
  cat_file config file w = cat_file config' file w.
Proof.
  intros mode Hmode. unfold cat_file, mbind, M_bind.
  destruct (wp_returns_inv _ _ _ (statx_out_law w)) as ([res st] & w1 & -> & [_ Hst]). simpl.
  destruct (Z.eqb_spec res 0) as [->|]; [|done]. simpl. specialize (Hst eq_refl).
  fold mode in Hst. rewrite Hst.
  destruct (can_copy_file_range (file_mode file) mode); [done|].
  unfold can_direct_pipe, can_middleman_splice.
  destruct (S_ISFIFO mode), (S_ISCHR mode), (S_ISREG mode); done.
Qed.

(** C35. The colour setting and the terminal test have no effect when the
    standard output is a terminal: a terminal is a character device, for which
    the middleman splice is chosen first, so [cat] behaves the same with and
    without colours, there and for regular files and pipes. *)
Theorem cat_never_colours_a_terminal {W} `{LawfulKernel W} {F : Fuel} {Parser Query Cursor Tree}
    `{TreeSitterApi Parser Query Cursor Tree} path rest (c : bytes) (w : W) :
  let mode := v_out_mode (view_of w) in
  v_fs (view_of w) !! path = Some c →
  S_ISREG mode || S_ISFIFO mode || S_ISCHR mode = true →
  cat (mkConfig true) (path :: rest) w = cat (mkConfig false) (path :: rest) w.
Proof.
  intros mode Hfs Hmode. unfold cat, mbind, M_bind.
  pose proof (open_file_law path c w Hfs) as Hopen. unfold wp in Hopen.
  destruct (open_file path w) as [[file|e| | |] w1]; simpl in *; try done.
  destruct Hopen as (_ & _ & _ & _ & Hv).
  unfold finally. rewrite (cat_file_config (mkConfig true) (mkConfig false)); [done|].
  rewrite Hv. exact Hmode.
Qed.

Lemma cat_never_colours_a_terminal_witness :
  let F := 100%nat : Fuel in
  let w := cat_world S_IFCHR "a.cpp" (str "hello") [] in
  sys_isatty STDOUT_FILENO w = (Done 1, w) ∧
  cat (mkConfig true) ["a.cpp"%string] w = cat (mkConfig false) ["a.cpp"%string] w.
Proof.
  intros F w. split; [vm_compute; reflexivity|].
  apply (cat_never_colours_a_terminal (W := sim) (F := F) "a.cpp" [] (str "hello"));
    vm_compute; reflexivity.
Defined.


