(* ===== verification/Traverse.v ===== *)
(** source/directory_traverse_source.h: a source that walks a directory with
    [std::filesystem] and passes every regular file on to its successor.

    [std::filesystem] is a parameter, the class [Filesystem]; what it promises
    is [LawfulFilesystem]. The successor is called through [FdSource]; the call
    operator of the node is [const], so the successor is one of the sources
    whose call operator is [const] too, and [LawfulFileSource] is what such a
    source promises. *)

From S2P Require Import Prelude Kernel SimKernel Nodes AutoRelease Sinks Sources Cat.

(** The calls of [std::filesystem]; each of them may throw. An iterator is
    past the end when it has no current entry. *)
Class Filesystem (W Iter : Type) := {
  fs_exists : string → M W bool;
  fs_is_directory : string → M W bool;
  (** [std::filesystem::recursive_directory_iterator(root)] *)
  fs_begin : string → M W Iter;
  (** the path of [*it] *)
  fs_entry : Iter → option string;
  (** [++it] *)
  fs_next : Iter → M W Iter;
  fs_is_regular_file : string → M W bool;
  fs_file_size : string → M W Z
}.

(** A [noexcept] function whose body throws calls [std::terminate], and the
    program is over: [None]. *)
Definition noexcept {W A} (m : M W A) : M W (option A) :=
  catching (a ← m; mret (Some a)) (λ _, mret None).

Record DirectoryTraverseNode (Next : Type) := mkTraverse { dt_next : Next }.
Arguments mkTraverse {_} _.
Arguments dt_next {_} _.

Section directory_traverse.
Context {W Iter Next : Type} `{Kernel W} `{Filesystem W Iter} `{FdSource W Next} {F : Fuel}.

(** [std::format("{} not a directory", root)] *)
Definition not_a_directory (root : string) : string := root +:+ " not a directory".

(** [std::format("failed to open file: {}", entry.path())] *)
Definition failed_to_open_file (path : string) : string := "failed to open file: " +:+ path.

(** The body of the loop for a regular file: the owner [fd] goes out of scope
    at its end. *)
Definition traverse_file (next : Next) (path : string) : M W (expected Z) :=
  fd ← sys_openat AT_FDCWD path O_RDONLY;
  finally
    (if fd =? -1 then mret (Unexpected (failed_to_open_file path))
     else
       size ← fs_file_size path;
       '(_, processed) ← call_source next fd size;
       mret processed)
    (fd_dtor fd).

(** One round of [for (const auto &entry : recursive_directory_iterator(root))];
    the loop variables are the iterator and [matches]. *)
Definition traverse_round (next : Next) (s : Iter * Z) : M W (Iter * Z + expected Z) :=
  let '(it, matches) := s in
  match fs_entry it with
  | None => mret (inr (Value matches))
  | Some path =>
      regular ← fs_is_regular_file path;
      if negb regular then
        it ← fs_next it;
        mret (inl (it, matches))
      else
        processed ← traverse_file next path;
        match processed with
        | Unexpected e => mret (inr (Unexpected e))
        | Value k =>
            it ← fs_next it;
            mret (inl (it, matches +ₛ k))
        end
  end.

(** [exists(root) && is_directory(root)] *)
Definition is_existing_directory (root : string) : M W bool :=
  there ← fs_exists root;
  if (there : bool) then fs_is_directory root else mret false.

(** [operator()(beman::cstring_view dir)] *)
Definition DirectoryTraverseNode_call (n : DirectoryTraverseNode Next) (dir : string)
    : M W (option (expected Z)) :=
  noexcept
    (ok ← is_existing_directory dir;
     if negb ok then mret (Unexpected (not_a_directory dir))
     else
       it ← fs_begin dir;
       loop fuel (traverse_round (dt_next n)) (it, 0)).

End directory_traverse.

(** ** What the parts promise *)

(** A call of [std::filesystem] throws or returns; it changes nothing. *)
Definition asks {W A} `{LawfulKernel W} (w : W) (P : A → W → Prop) (o : outcome A) (w' : W)
    : Prop :=
  view_of w' = view_of w ∧
  match o with Done a => P a w' | Throws _ => True | _ => False end.

(** [listing w root] are the paths below a directory in the order of the walk,
    and [remaining it] those the iterator has still to visit, its current entry
    first. *)
Class LawfulFilesystem (W Iter : Type) `{LawfulKernel W} `{Filesystem W Iter} := {
  listing : W → string → option (list string);
  remaining : Iter → list string;
  exists_law root (w : W) :
    wp (fs_exists root) w (asks w (λ b w',
      listing w' root = listing w root ∧ (is_Some (listing w root) → b = true)));
  is_directory_law root (w : W) :
    wp (fs_is_directory root) w (asks w (λ b w',
      listing w' root = listing w root ∧ b = bool_decide (is_Some (listing w root))));
  begin_law root paths (w : W) :
    listing w root = Some paths →
    wp (fs_begin root) w (asks w (λ it _, remaining it = paths));
  entry_law it : fs_entry it = head (remaining it);
  next_law it path paths (w : W) :
    remaining it = path :: paths →
    wp (fs_next it) w (asks w (λ it' _, remaining it' = paths));
  is_regular_file_law path (w : W) :
    wp (fs_is_regular_file path) w (asks w (λ b _,
      b = bool_decide (is_Some (v_fs (view_of w) !! path))));
  file_size_law path c (w : W) :
    v_fs (view_of w) !! path = Some c →
    wp (fs_file_size path) w (asks w (λ n _, n = lenZ c))
}.

(** A source with a [const] call operator that puts a whole file on the
    standard output: it stays as it is, and reports the length of the file or
    an error after a first part of it. *)
Definition file_sent (fd : Z) (c : bytes) (r : expected Z) (v v' : view) : Prop :=
  ∃ p out, v' = emit out (set_fds (insert fd (OFile c p)) v) ∧
           match r with
           | Value k => k = lenZ c ∧ out = c
           | Unexpected _ => out `prefix_of` c
           end.

Class LawfulFileSource (W N : Type) `{LawfulKernel W} `{FdSource W N} {F : Fuel} :=
  file_source_law (n : N) (fd : Z) (c : bytes) (w : W) :
    is_file fd c 0 (view_of w) → lenZ c < size_max → (length c < fuel)%nat →
    wp (call_source n fd (lenZ c)) w (returns (λ '(n', r) w',
      n' = n ∧ file_sent fd c r (view_of w) (view_of w'))).

Section file_sources.
Context {W Next : Type} `{LawfulKernel W} {F : Fuel}.

Lemma copied_file_sent fd c r (w w' : W) :
  is_file fd c 0 (view_of w) → copied fd c 0 (lenZ c) w r w' →
  file_sent fd c r (view_of w) (view_of w').
Proof.
  intros (Hf & _ & _). unfold copied, sent. rewrite dropZ_0.
  destruct r as [n|e]; [intros [-> ->]|intros (k & _ & ->)].
  - rewrite Z.min_id, (consume_file _ c 0), takeZ_all by (done || lia).
    by exists (0 + lenZ c), c.
  - rewrite (consume_file _ c 0) by done. exists (0 + k), (takeZ k c). auto with om.
Qed.

(** A node that is left as it is. *)
Lemma wp_unchanged {N A} (m : M W A) (n : N) (w : W) (P : A → W → Prop) :
  wp (r ← m; mret (n, r)) w (returns (λ '(_, r) w', P r w')) →
  wp (r ← m; mret (n, r)) w (returns (λ '(n', r) w', n' = n ∧ P r w')).
Proof. unfold wp, mbind, M_bind. by destruct (m w) as [[] w']. Qed.

#[global] Instance copy_file_range_file_source :
  LawfulFileSource W (CopyFileRange.CopyFileRangeNode Next).
Proof.
  intros n fd c w Hf Hc Hfuel. apply wp_unchanged.
  eapply wp_returns_mono; [apply (copy_file_range_node_law n fd c 0); [done|range|done]|].
  intros [n' r] w'. by apply copied_file_sent.
Qed.

#[global] Instance direct_splice_file_source :
  LawfulFileSource W (DirectSplice.DirectSpliceNode Next).
Proof.
  intros n fd c w Hf Hc Hfuel.
  pose proof (direct_splice_node_law n fd c 0 (lenZ c) w Hf ltac:(range) Hfuel) as Hl.
  unfold call_source, DirectSplice.DirectSpliceNode_source in *.
  revert Hl. unfold wp, mbind, M_bind. destruct (sys_setpipe_sz _ _ w) as [[z| | | |] w1]; simpl; try done.
  destruct (z <? 0); simpl; [intros Hl; split; [done|]; by apply copied_file_sent|].
  destruct (loop _ _ _ w1) as [[r| | | |] w2]; simpl; try done.
  intros Hl; split; [done|]; by apply copied_file_sent.
Qed.

End file_sources.

(** ** The walk *)
Section walk.
Context {W Iter Next : Type} `{LawfulFilesystem W Iter} `{FdSource W Next} {F : Fuel}.
Context `{!LawfulFileSource W Next}.

(** The contents of the regular files among some paths, one after the other. *)
Definition contents (v : view) (paths : list string) : bytes :=
  concat (omap (λ path, v_fs v !! path) paths).

Lemma contents_app v ps qs : contents v (ps ++ qs) = contents v ps ++ contents v qs.
Proof. unfold contents. by rewrite omap_app, concat_app. Qed.

Lemma contents_file v p c ps : v_fs v !! p = Some c → contents v (p :: ps) = c ++ contents v ps.
Proof. intros Hp. unfold contents. simpl. by rewrite Hp. Qed.

(** Some first part of [d] has gone out, and nothing else has changed. *)
Definition partly (d : bytes) (v v' : view) : Prop :=
  ∃ out, out `prefix_of` d ∧ v' = emit out v.

Lemma partly_emit a b d v v' : a ++ b `prefix_of` d → partly b (emit a v) v' → partly d v v'.
Proof.
  intros Hd (out & Hout & ->). exists (a ++ out). rewrite emit_emit. split; [|done].
  etrans; [|exact Hd]. by apply prefix_app.
Qed.

Lemma partly_all a d v : a `prefix_of` d → partly d v (emit a v).
Proof. intros Ha. by exists a. Qed.

(** Closing a file whose content has been sent. *)
Lemma file_sent_closed fd c o r v v' :
  v_fds v !! fd = None → file_sent fd c r (set_fds (insert fd o) v) v' →
  match r with
  | Value k => k = lenZ c ∧ set_fds (delete fd) v' = emit c v
  | Unexpected _ => partly c v (set_fds (delete fd) v')
  end.
Proof.
  intros Hfd (p & out & -> & Hr).
  assert (set_fds (delete fd) (emit out (set_fds (insert fd (OFile c p)) (set_fds (insert fd o) v)))
          = emit out v) as Heq.
  { destruct v as [vo vm fds vp vf]. unfold set_fds, emit. simpl in *.
    by rewrite insert_insert_eq, delete_insert_id. }
  rewrite Heq. destruct r as [k|e]; [by destruct Hr as [-> ->]|by apply partly_all].
Qed.

Lemma traverse_file_law (next : Next) path c (w : W) :
  v_fs (view_of w) !! path = Some c → lenZ c < size_max → (length c < fuel)%nat →
  wp (traverse_file next path) w (λ o w',
    match o with
    | Done (Value k) => k = lenZ c ∧ view_of w' = emit c (view_of w)
    | Done (Unexpected _) | Throws _ => partly c (view_of w) (view_of w')
    | _ => False
    end).
Proof.
  intros Hfs Hc Hfuel. unfold traverse_file. apply wp_bind_returns.
  assert (partly c (view_of w) (view_of w)) as Hnone.
  { exists []. rewrite emit_nil. split; [apply prefix_nil|done]. }
  eapply wp_returns_mono; [by apply openat_law|].
  intros fd w1 [[-> Hv1]|(Hfd & Hne & Hfresh & Hv1)]; 
    [apply wp_finally; rewrite <- Hv1 in *; exact Hnone|].
  destruct (Z.eqb_spec fd (-1)); [lia|]. apply wp_finally, wp_bind.
  assert (Hclose : ∀ w2, wp (fd_dtor fd) w2 (returns (λ _ w3,
            view_of w3 = set_fds (delete fd) (view_of w2)))) by (intros; by apply fd_dtor_law).
  eapply wp_mono; [apply file_size_law; by rewrite Hv1|].
  intros [sz| | | |] w2 [Hv2 Hn]; simpl; try done.
  2: { eapply wp_returns_mono; [apply Hclose|]. intros _ w3 ->.
       by rewrite Hv2, Hv1, close_opened. }
  subst sz. apply wp_bind_returns. eapply wp_returns_mono.
  { apply file_source_law; [|done|done]. rewrite Hv2, Hv1.
    split_and!; [simpl; apply lookup_insert_eq|lia|done]. }
  intros [n' r] w3 [_ Hsent]. apply wp_ret. rewrite Hv2, Hv1 in Hsent.
  apply file_sent_closed in Hsent; [|done].
  eapply wp_returns_mono; [apply Hclose|]. intros _ w4 ->. by destruct r.
Qed.

Context (paths : list string) (w0 : W).

(** The paths [done] are behind the iterator. *)
Definition walked (s : Iter * Z) (w : W) : Prop :=
  ∃ done, paths = done ++ remaining s.1 ∧ s.2 = lenZ (contents (view_of w0) done) ∧
          view_of w = emit (contents (view_of w0) done) (view_of w0).

(** The iterator moves past a path whose content has gone out. *)
Lemma walk_past it it' path rest k k' (w w' : W) :
  walked (it, k) w → remaining it = path :: rest → remaining it' = rest →
  k' = k + lenZ (contents (view_of w0) [path]) →
  view_of w' = emit (contents (view_of w0) [path]) (view_of w) → walked (it', k') w'.
Proof.
  intros (done & Hps & Hk & Hv) Hit Hit' -> Hv'. simpl in *. exists (done ++ [path]). simpl.
  rewrite Hit', contents_app, lenZ_app, Hv', Hv, emit_emit, <- (assoc_L (++)).
  split_and!; [by rewrite Hps, Hit|lia|done].
Qed.

Lemma contents_one v path : contents v [path] = default [] (v_fs v !! path).
Proof. unfold contents. simpl. destruct (v_fs v !! path); simpl; [apply app_nil_r|done]. Qed.

Context (Hsize : lenZ (contents (view_of w0) paths) < size_max).
Context (Hfuel : (length (contents (view_of w0) paths) < fuel)%nat).

Lemma traverse_round_law (next : Next) (s : Iter * Z) (w : W) :
  walked s w →
  wp (traverse_round next s) w (λ o w',
    match o with
    | Done (inl s') => walked s' w' ∧ (length (remaining s'.1) < length (remaining s.1))%nat
    | Done (inr (Value k)) =>
        k = lenZ (contents (view_of w0) paths) ∧
        view_of w' = emit (contents (view_of w0) paths) (view_of w0)
    | Done (inr (Unexpected _)) | Throws _ =>
        partly (contents (view_of w0) paths) (view_of w0) (view_of w')
    | _ => False
    end).
Proof.
  destruct s as [it k]. intros Hw. pose proof Hw as (done & Hps & Hk & Hv).
  simpl in *. unfold traverse_round.
  rewrite entry_law. destruct (remaining it) as [|path rest] eqn:Hrem; simpl.
  { apply wp_ret. rewrite app_nil_r in Hps. by subst done k. }
  set (v0 := view_of w0) in *.
  assert (Hall : contents v0 paths = contents v0 done ++ contents v0 (path :: rest)).
  { by rewrite Hps, contents_app. }
  assert (Hpart : ∀ w', view_of w' = view_of w → partly (contents v0 paths) v0 (view_of w')).
  { intros w' ->. rewrite Hv. apply partly_all. rewrite Hall. by apply prefix_app_r. }
  apply wp_bind. eapply wp_mono; [apply is_regular_file_law|].
  intros [b| | | |] w1 [Hv1 Hb]; simpl; try done; [|by apply Hpart]. subst b.
  rewrite Hv. simpl. fold v0.
  destruct (v_fs v0 !! path) as [c|] eqn:Hfs; [rewrite bool_decide_eq_true_2 by done
    |rewrite bool_decide_eq_false_2 by (intros []; done)]; simpl.
  - rewrite (contents_file _ _ c) in Hall by done.
    rewrite Hall, lenZ_app, lenZ_app in Hsize. rewrite Hall, !length_app in Hfuel.
    pose proof (lenZ_nonneg (contents v0 done)). pose proof (lenZ_nonneg (contents v0 rest)).
    pose proof (lenZ_nonneg c).
    apply wp_bind. eapply wp_mono; [apply traverse_file_law; [by rewrite Hv1, Hv|lia|lia]|].
    assert (contents v0 done ++ c `prefix_of` contents v0 paths).
    { rewrite Hall, (assoc_L (++)). by apply prefix_app_r. }
    intros [[n|e]| | | |] w2; simpl; try done; rewrite Hv1, Hv;
      [|by intros; apply wp_ret; eapply partly_emit|by eapply partly_emit].
    rewrite emit_emit. intros [-> Hv2].
    apply wp_bind. eapply wp_mono; [by eapply next_law|].
    intros [it'| | | |] w3 [Hv3 Hit]; simpl; try done.
    2: { rewrite Hv3, Hv2. by apply partly_all. }
    apply wp_ret. simpl. rewrite Hit. split; [|lia]. eapply (walk_past it); [done..| |].
    + fold v0. rewrite contents_one, Hfs, Hk, size_add_small by lia. done.
    + fold v0. by rewrite contents_one, Hfs, Hv, emit_emit, Hv3.
  - apply wp_bind. eapply wp_mono; [by eapply next_law|].
    intros [it'| | | |] w2 [Hv2 Hit]; simpl; try done; [|apply Hpart; congruence].
    apply wp_ret. simpl. rewrite Hit. split; [|lia].
    assert (contents v0 [path] = []) as Hnone by (by rewrite contents_one, Hfs).
    eapply (walk_past it); [done..| |]; fold v0; rewrite Hnone.
    + by rewrite lenZ_nil, Z.add_0_r.
    + by rewrite emit_nil, Hv2, Hv1.
Qed.

End walk.

(** What the node does with a directory or with anything else. *)
Definition traversed {W Iter} `{LawfulFilesystem W Iter} (dir : string) (w : W)
    (o : outcome (option (expected Z))) (w' : W) : Prop :=
  match listing w dir with
  | None =>
      view_of w' = view_of w ∧
      (o = Done (Some (Unexpected (not_a_directory dir))) ∨ o = Done None)
  | Some paths =>
      let all := contents (view_of w) paths in
      match o with
      | Done (Some (Value k)) => k = lenZ all ∧ view_of w' = emit all (view_of w)
      | Done (Some (Unexpected _)) | Done None => partly all (view_of w) (view_of w')
      | _ => False
      end
  end.

Section traverse_law.
Context {W Iter Next : Type} `{LawfulFilesystem W Iter} `{FdSource W Next} {F : Fuel}.
Context `{!LawfulFileSource W Next}.

(** The rule for [noexcept]. *)
Lemma wp_noexcept {A} (m : M W A) (w : W) (Q : outcome (option A) → W → Prop) :
  wp m w (λ o w', match o with
                  | Done a => Q (Done (Some a)) w'
                  | Throws _ => Q (Done None) w'
                  | Blocked => Q Blocked w'
                  | NoFuel => Q NoFuel w'
                  | UB => Q UB w'
                  end) →
  wp (noexcept m) w Q.
Proof. unfold wp, noexcept, catching, mbind, M_bind. by destruct (m w) as [[] w']. Qed.

Lemma is_existing_directory_law dir (w : W) :
  wp (is_existing_directory dir) w (asks w (λ b w',
    listing w' dir = listing w dir ∧ b = bool_decide (is_Some (listing w dir)))).
Proof.
  unfold is_existing_directory. apply wp_bind. eapply wp_mono; [apply exists_law|].
  intros [[]| | | |] w1 [Hv Hb]; simpl; try done.
  - destruct Hb as [Hl _]. eapply wp_mono; [apply is_directory_law|].
    intros o w2 [Hv2 Ho]. rewrite Hl in Ho. split; [congruence|done].
  - destruct Hb as [Hl Hb]. apply wp_ret. split; [done|]. split; [done|].
    rewrite bool_decide_eq_false_2; [done|]. by intros ?%Hb.
Qed.

Lemma traverse_loop_law (next : Next) it paths (w0 w : W) :
  remaining it = paths → view_of w = view_of w0 →
  lenZ (contents (view_of w0) paths) < size_max →
  (length paths + length (contents (view_of w0) paths) < fuel)%nat →
  wp (loop fuel (traverse_round next) (it, 0)) w (λ o w',
    match o with
    | Done (Value k) =>
        k = lenZ (contents (view_of w0) paths) ∧
        view_of w' = emit (contents (view_of w0) paths) (view_of w0)
    | Done (Unexpected _) | Throws _ =>
        partly (contents (view_of w0) paths) (view_of w0) (view_of w')
    | _ => False
    end).
Proof.
  intros Hit Hv Hsize Hfuel.
  apply (wp_loop _ (walked paths w0) (λ s _, length (remaining s.1))).
  - intros s w1 Hs. eapply wp_mono; [apply traverse_round_law; [done|lia|done]|].
    by intros [[s'|[k|e]]| | | |] w2.
  - exists []. simpl. rewrite Hit. by rewrite emit_nil.
  - simpl. rewrite Hit. lia.
Qed.

End traverse_law.

(** C16. The directory source in front of a source that sends files to the
    standard output: when [dir] is a directory, the contents of all the regular
    files below it go out in the order of the walk and their total length is
    reported, or there is an error, or an exception of [std::filesystem] ends
    the program, after a first part of those contents; every descriptor is
    closed again. Anything else than a directory is refused, and nothing
    happens. *)
Theorem directory_traverse_delivers {W Iter Next} `{LawfulFilesystem W Iter}
    `{FdSource W Next} {F : Fuel} `{!LawfulFileSource W Next}
    (n : DirectoryTraverseNode Next) (dir : string) (w : W) :
  let paths := default [] (listing w dir) in
  lenZ (contents (view_of w) paths) < size_max →
  (length paths + length (contents (view_of w) paths) < fuel)%nat →
  wp (DirectoryTraverseNode_call n dir) w (traversed dir w).
Proof.
  intros paths Hsize Hfuel. apply wp_noexcept, wp_bind. unfold traversed.
  eapply wp_mono; [apply is_existing_directory_law|].
  intros [ok| | | |] w1 [Hv Hok]; simpl; try done.
  2: { destruct (listing w dir); [|auto]. exists []. rewrite emit_nil, Hv.
       split; [apply prefix_nil|done]. }
  destruct Hok as [Hl ->]. destruct (listing w dir) as [ps|] eqn:Hps; simpl.
  2: { apply wp_ret. auto. }
  apply wp_bind. eapply wp_mono; [apply begin_law; by rewrite Hl|].
  intros [it| | | |] w2 [Hv2 Hit]; simpl; try done.
  2: { exists []. rewrite emit_nil, Hv2, Hv. split; [apply prefix_nil|done]. }
  eapply wp_mono; [apply (traverse_loop_law _ it ps w); [done|congruence|done|done]|].
  by intros [[k|e]| | | |] w3.
Qed.

(** A directory tree as a list of its paths. *)
Definition tree_of (root : string) (paths : list string) (dir : string) : option (list string) :=
  if decide (dir = root) then Some paths else None.

#[local] Instance sim_filesystem : Filesystem sim (list string) := {|
  fs_exists path := λ s, (Done (bool_decide (is_Some (tree_of "d" ["d/a"; "d/e"; "d/e/b"] path)
                                             ∨ is_Some (v_fs (s_view s) !! path))), s);
  fs_is_directory path := mret (bool_decide (is_Some (tree_of "d" ["d/a"; "d/e"; "d/e/b"] path)));
  fs_begin path := mret (default [] (tree_of "d" ["d/a"; "d/e"; "d/e/b"] path));
  fs_entry it := head it;
  fs_next it := mret (tail it);
  fs_is_regular_file path := λ s, (Done (bool_decide (is_Some (v_fs (s_view s) !! path))), s);
  fs_file_size path := λ s,
    match v_fs (s_view s) !! path with
    | Some c => (Done (lenZ c), s)
    | None => (Throws "cannot get file size", s)
    end
|}%string.

#[local] Instance sim_filesystem_lawful : LawfulFilesystem sim (list string).
Proof.
  refine (Build_LawfulFilesystem _ _ _ _ _ (λ _, tree_of "d" ["d/a"; "d/e"; "d/e/b"]%string)
            (λ it, it) _ _ _ _ _ _ _).
  - intros root w. unfold wp, asks. cbn. split; [done|]. split; [done|]. intros ?.
    by apply bool_decide_eq_true_2; left.
  - done.
  - intros root paths w Hr. unfold wp, asks. cbn. by rewrite Hr.
  - done.
  - intros it path paths w ->. done.
  - done.
  - intros path c w Hp. unfold wp, asks. cbn. cbn in Hp. by rewrite Hp.
Defined.

(** Witness: a directory with a file and a subdirectory with another, through
    the pipeline [DirectoryTraverse | CopyFileRange | NullSink]; transfers are
    short. *)
Lemma directory_traverse_delivers_witness :
  let F := 20%nat : Fuel in
  let n := mkTraverse copy_pipeline in
  let w := Sim (View [] 32768 ∅ ∅ {[ "d/a"%string := str "one"; "d/e/b"%string := str "three" ]})
             [2; 1; 3] 0 0 in
  wp (DirectoryTraverseNode_call n "d") w (traversed "d" w) ∧
  (DirectoryTraverseNode_call n "d" w).1 = Done (Some (Value 8)) ∧
  v_out (view_of (DirectoryTraverseNode_call n "d" w).2) = str "onethree" ∧
  (DirectoryTraverseNode_call n "d/a" w).1
    = Done (Some (Unexpected "d/a not a directory")).
Proof.
  intros F n w. split_and!; [|vm_compute; reflexivity..].
  apply (directory_traverse_delivers (W := sim) (F := F) n "d" w).
  - vm_compute. reflexivity.
  - unfold fuel, F. vm_compute. lia.
Defined.
