(* ===== verification/Dirents.v ===== *)
(** The directory records of [getdents64], as utils/event_loop.h declares them
    ([impl::linux_dirent64]) and as the loops of utils/event_loop.h and
    commands/grep.h walk over them. *)

From S2P Require Import Prelude.

(** ** The structure in memory

    [std::uint64_t d_ino; std::int64_t d_off; unsigned short d_reclen;
    unsigned char d_type; char d_name[];], little endian, without padding
    before [d_name]. *)
Record linux_dirent64 := Dirent {
  d_ino : Z;
  d_off : Z;
  d_reclen : Z;
  d_type : Z;
  d_name : bytes
}.

Definition DT_DIR : Z := 4.

Definition DT_REG : Z := 8.

Definition byte_val (b : byte) : Z := Z.of_N (Byte.to_N b).

Fixpoint le_val (bs : bytes) : Z :=
  match bs with
  | [] => 0
  | b :: bs => byte_val b + 256 * le_val bs
  end.

(** A signed 64-bit value from its bits. *)
Definition to_signed64 (z : Z) : Z := if z <? 2 ^ 63 then z else z - 2 ^ 64.

(** [cstring_view{dir->d_name}]: the bytes up to the terminator, which must be
    in the buffer. *)
Fixpoint c_string (bs : bytes) : option bytes :=
  match bs with
  | [] => None
  | b :: bs => if decide (b = x00) then Some [] else cons b <$> c_string bs
  end.

(** [reinterpret_cast<const linux_dirent64 *>(data(res_span))]. Reading past
    the bytes the kernel returned has no meaning. *)
Definition dirent_at (res_span : bytes) : option linux_dirent64 :=
  if 19 <=? lenZ res_span then
    name ← c_string (dropZ 19 res_span);
    Some (Dirent (le_val (takeZ 8 res_span))
            (to_signed64 (le_val (takeZ 8 (dropZ 8 res_span))))
            (le_val (takeZ 2 (dropZ 16 res_span)))
            (le_val (takeZ 1 (dropZ 18 res_span))) name)
  else None.

(** [while (!empty(res_span)) { ...; res_span = res_span.subspan(d_reclen); }]
    with a body that changes loop variables [S]. *)
Section walk.
Context {W S : Type} {F : Fuel} (visit : linux_dirent64 → S → M W S).

Definition dirent_round (v : bytes * S) : M W ((bytes * S) + S) :=
  let '(res_span, s) := v in
  if bool_decide (res_span = []) then mret (inr s)
  else
    match dirent_at res_span with
    | None => undefined
    | Some dir =>
        s' ← visit dir s;
        if d_reclen dir <=? lenZ res_span then mret (inl (dropZ (d_reclen dir) res_span, s'))
        else undefined
    end.

Definition walk_dirents (res_span : bytes) (s : S) : M W S :=
  loop fuel dirent_round (res_span, s).

(** The entries, one after the other. *)
Fixpoint visit_all (es : list linux_dirent64) (s : S) : M W S :=
  match es with
  | [] => mret s
  | e :: es => s' ← visit e s; visit_all es s'
  end.

End walk.

(** ** What the kernel writes

    A record is its header, its name, a terminator and padding; [d_reclen] is
    the length of all that. *)
Fixpoint le_bytes (n : nat) (z : Z) : bytes :=
  match n with
  | O => []
  | Datatypes.S n =>
      default x00 (Byte.of_N (Z.to_N (z mod 256))) :: le_bytes n (z / 256)
  end.

Definition encode_dirent (e : linux_dirent64) (padding : bytes) : bytes :=
  le_bytes 8 (d_ino e) ++ le_bytes 8 (d_off e mod 2 ^ 64) ++ le_bytes 2 (d_reclen e) ++
  le_bytes 1 (d_type e) ++ d_name e ++ [x00] ++ padding.

Definition well_formed (e : linux_dirent64) (padding : bytes) : Prop :=
  0 ≤ d_ino e < 2 ^ 64 ∧ - 2 ^ 63 ≤ d_off e < 2 ^ 63 ∧ 0 ≤ d_type e < 256 ∧
  x00 ∉ d_name e ∧
  d_reclen e = 20 + lenZ (d_name e) + lenZ padding ∧ d_reclen e < 2 ^ 16.

Definition encode (es : list (linux_dirent64 * bytes)) : bytes :=
  concat ((λ '(e, padding), encode_dirent e padding) <$> es).

Lemma byte_round z : 0 ≤ z < 256 → byte_val (default x00 (Byte.of_N (Z.to_N z))) = z.
Proof.
  intros Hz. unfold byte_val. destruct (Byte.of_N (Z.to_N z)) as [b|] eqn:E.
  - apply Byte.to_of_N in E. simpl. rewrite E. lia.
  - apply Byte.of_N_None_iff in E. lia.
Qed.

Lemma le_round n z : 0 ≤ z < 256 ^ Z.of_nat n → le_val (le_bytes n z) = z.
Proof.
  revert z. induction n as [|n IH]; intros z Hz.
  - simpl in *. lia.
  - rewrite Nat2Z.inj_succ, Z.pow_succ_r in Hz by lia. cbn [le_bytes le_val].
    rewrite byte_round by (apply Z.mod_pos_bound; lia). rewrite IH.
    + pose proof (Z.div_mod z 256). lia.
    + split; [apply Z.div_pos; lia|]. apply Z.div_lt_upper_bound; lia.
Qed.

Lemma length_le_bytes n z : length (le_bytes n z) = n.
Proof. revert z. induction n; intros; simpl; auto. Qed.

Lemma c_string_name (name rest : bytes) : x00 ∉ name → c_string (name ++ x00 :: rest) = Some name.
Proof.
  induction name as [|b name IH]; intros Hn; simpl; [done|].
  rewrite not_elem_of_cons in Hn. destruct Hn as [Hb Hn].
  rewrite decide_False by congruence. by rewrite IH.
Qed.

Lemma takeZ_prefix_app {A} n (l k : list A) : lenZ l = n → takeZ n (l ++ k) = l.
Proof. intros <-. apply takeZ_app. Qed.

Lemma dropZ_prefix_app {A} n (l k : list A) : lenZ l = n → dropZ n (l ++ k) = k.
Proof. intros <-. apply dropZ_app. Qed.

Lemma lenZ_le_bytes n z : lenZ (le_bytes n z) = Z.of_nat n.
Proof. unfold lenZ. by rewrite length_le_bytes. Qed.

#[export] Hint Rewrite lenZ_le_bytes : om_len.

Lemma lenZ_encode_dirent e padding :
  lenZ (encode_dirent e padding) = 20 + lenZ (d_name e) + lenZ padding.
Proof. unfold encode_dirent. autorewrite with om_len. lia. Qed.

Lemma signed64_round z : - 2 ^ 63 ≤ z < 2 ^ 63 → to_signed64 (z mod 2 ^ 64) = z.
Proof.
  intros Hz. unfold to_signed64. destruct (Z.ltb_spec (z mod 2 ^ 64) (2 ^ 63)) as [Hl|Hl].
  - destruct (decide (0 ≤ z)); [by rewrite Z.mod_small by lia|].
    rewrite <- (Z_mod_plus_full z 1) in Hl |- *. rewrite Z.mod_small in * by lia. lia.
  - destruct (decide (0 ≤ z)); [rewrite Z.mod_small in Hl by lia; lia|].
    rewrite <- (Z_mod_plus_full z 1). rewrite Z.mod_small by lia. lia.
Qed.

Lemma dirent_at_encoded e padding rest :
  well_formed e padding → dirent_at (encode_dirent e padding ++ rest) = Some e.
Proof.
  intros (Hino & Hoff & Htype & Hname & Hlen & Hmax).
  assert (0 ≤ lenZ (d_name e) ∧ 0 ≤ lenZ padding) as [? ?] by auto with om.
  unfold dirent_at. rewrite lenZ_app, lenZ_encode_dirent.
  rewrite (proj2 (Z.leb_le _ _)) by range.
  unfold encode_dirent. rewrite <- !(assoc_L (++)).
  set (tail := d_name e ++ [x00] ++ padding ++ rest).
  rewrite !(takeZ_prefix_app 8) by by rewrite lenZ_le_bytes.
  replace 19 with (8 + (8 + (2 + 1))) by lia. replace 18 with (8 + (8 + 2)) by lia.
  replace 16 with (8 + 8) by lia. rewrite <- !dropZ_dropZ by lia.
  rewrite !(dropZ_prefix_app 8) by by rewrite lenZ_le_bytes.
  rewrite ?(takeZ_prefix_app 8), ?(dropZ_prefix_app 8) by by rewrite lenZ_le_bytes.
  rewrite !(takeZ_prefix_app 2), !(dropZ_prefix_app 2) by by rewrite lenZ_le_bytes.
  rewrite !(takeZ_prefix_app 1), !(dropZ_prefix_app 1) by by rewrite lenZ_le_bytes.
  unfold tail. change ([x00] ++ padding ++ rest) with (x00 :: padding ++ rest).
  rewrite c_string_name by done. cbn [mbind option_bind].
  rewrite !le_round; rewrite ?signed64_round; try done; try lia; [by destruct e|].
  apply Z.mod_pos_bound. lia.
Qed.

(** The loop visits exactly the records, in their order. *)
Lemma walk_dirents_encoded {W S} {F : Fuel} (visit : linux_dirent64 → S → M W S)
    (es : list (linux_dirent64 * bytes)) (s : S) (w : W) :
  Forall (λ '(e, padding), well_formed e padding) es → (length es < fuel)%nat →
  walk_dirents visit (encode es) s w = visit_all visit es.*1 s w.
Proof.
  unfold walk_dirents. intros Hes. generalize fuel as n. revert s w.
  induction Hes as [|[e padding] es He Hes IH]; intros s w n Hn;
    (destruct n as [|n]; [simpl in Hn; lia|]).
  { done. }
  simpl in Hn. change (encode ((e, padding) :: es)) with (encode_dirent e padding ++ encode es).
  cbn [loop]. unfold mbind at 1, M_bind at 1, dirent_round.
  rewrite bool_decide_eq_false_2 by done.
  rewrite dirent_at_encoded by done. cbn [fmap list_fmap fst visit_all].
  unfold mbind, M_bind. destruct (visit e s w) as [[s'| | | |] w'];
    cbn [outcome_bind]; try done.
  pose proof He as (_ & _ & _ & _ & Hlen & _).
  rewrite lenZ_app, lenZ_encode_dirent, <- Hlen.
  rewrite (proj2 (Z.leb_le _ _)) by range.
  rewrite dropZ_prefix_app by (rewrite lenZ_encode_dirent; lia).
  apply IH. lia.
Qed.
