(* ===== verification/Processor.v ===== *)
(** commands/grep.h, class [Processor]: the worker threads of [grep].

    The threads share a queue of open directories, a mutex, a condition
    variable, the flag [running_] and the counter [pending_]. The model is an
    interleaving machine: [exec] performs one step of one thread, a step being
    one access to the shared state. What [getdents64] and [openat] find is a
    snapshot of the directory tree, given beforehand; what the search of a file
    prints is the subject of Grep.v, here the file is entered in a log. *)

From S2P Require Import Prelude.

(** ** The tree

    A directory is what the successive calls of [getdents64] return for it
    until they return 0 or an error: a list of batches of entries. A
    subdirectory or a file may fail to open, and a search may throw. *)
Inductive verdict := Searched | OpenFails | SearchThrows.

Inductive entry :=
  | EDir (opens : bool) (batches : list (list entry))
  | EDot
  | EFile (name : string) (v : verdict)
  | EOther.

Abbreviation dir := (list (list entry)).

(** The files of an entry and of a directory that can be reached and opened. *)
Fixpoint entry_files (e : entry) : list string :=
  match e with
  | EDir true batches => concat (map (λ es, concat (map entry_files es)) batches)
  | EFile name OpenFails => []
  | EFile name _ => [name]
  | _ => []
  end.

Definition files (d : dir) : list string := entry_files (EDir true d).

(** The number of directories that can be opened in an entry. *)
Fixpoint entry_dirs (e : entry) : nat :=
  match e with
  | EDir true batches => S (sum_list_with (sum_list_with entry_dirs) batches)
  | _ => O
  end.

Definition dirs (d : dir) : nat := entry_dirs (EDir true d).

(** ** The threads *)

(** Where a thread is. Thread 0 is the one that called [run]. *)
Inductive pc :=
  | Spawn (i : Z)                            (* the loop of [run] that starts threads *)
  | Start                                    (* [worker]: build the pipeline *)
  | WhileRunning                             (* [while (running_)] *)
  | Lock                                     (* [std::unique_lock{mutex_}] *)
  | Pred                                     (* in [cv_.wait], about to test the predicate *)
  | Park                                     (* the predicate was false, still holding the lock *)
  | Asleep                                   (* waiting for a notification *)
  | Relock                                   (* woken up, taking the lock again *)
  | Taken                                    (* [cv_.wait] has returned *)
  | Read (d : dir)                           (* the [getdents64] loop on a directory *)
  | Scan (es : list entry) (local : list dir) (d : dir)  (* the loop over a batch *)
  | Add (local : list dir) (d : dir)         (* [pending_.fetch_add] *)
  | Append (local : list dir) (d : dir)      (* [queue_.append_range] under the lock *)
  | Notify (d : dir)                         (* [cv_.notify_one()] *)
  | Close                                    (* [close(dir_fd)], [pending_.fetch_sub] *)
  | Stop                                     (* [running_ = false] *)
  | NotifyAll                                (* [cv_.notify_all()] *)
  | Flush                                    (* [get<2>(pipeline)()] *)
  | Dtor                                     (* [~Processor]: [running_ = false] *)
  | DtorNotify                               (* [~Processor]: [cv_.notify_all()] *)
  | Join                                     (* the members: [threads_] joins *)
  | Exited.

(** The members, and beside them the log of searched files, the thread whose
    exception was thrown, and whether [front()] was called on an empty queue. *)
Record state := St {
  queue_ : list dir;
  mutex_ : option nat;
  running_ : bool;
  pending_ : Z;
  threads_ : list pc;
  searched : list string;
  thrown : option nat;
  bad : bool
}.

Definition set_pc (t : nat) (p : pc) (s : state) : state :=
  St (queue_ s) (mutex_ s) (running_ s) (pending_ s) (<[t := p]> (threads_ s)) (searched s)
     (thrown s) (bad s).

Definition set_threads (f : list pc → list pc) (s : state) : state :=
  St (queue_ s) (mutex_ s) (running_ s) (pending_ s) (f (threads_ s)) (searched s)
     (thrown s) (bad s).

Definition set_queue (q : list dir) (s : state) : state :=
  St q (mutex_ s) (running_ s) (pending_ s) (threads_ s) (searched s) (thrown s) (bad s).

Definition set_mutex (m : option nat) (s : state) : state :=
  St (queue_ s) m (running_ s) (pending_ s) (threads_ s) (searched s) (thrown s) (bad s).

Definition set_running (b : bool) (s : state) : state :=
  St (queue_ s) (mutex_ s) b (pending_ s) (threads_ s) (searched s) (thrown s) (bad s).

Definition set_pending (n : Z) (s : state) : state :=
  St (queue_ s) (mutex_ s) (running_ s) n (threads_ s) (searched s) (thrown s) (bad s).

Definition log (name : string) (s : state) : state :=
  St (queue_ s) (mutex_ s) (running_ s) (pending_ s) (threads_ s) (searched s ++ [name])
     (thrown s) (bad s).

Definition set_bad (s : state) : state :=
  St (queue_ s) (mutex_ s) (running_ s) (pending_ s) (threads_ s) (searched s) (thrown s) true.

(** An exception leaves [worker]. In the thread of [run] the stack unwinds into
    [~Processor]; in any other thread [std::terminate] ends the process. *)
Definition throws (t : nat) (s : state) : state :=
  St (queue_ s) (mutex_ s) (running_ s) (pending_ s)
     (match t with O => <[t := Dtor]> (threads_ s) | _ => threads_ s end)
     (searched s) (Some t) (bad s).

Definition wake (p : pc) : pc := match p with Asleep => Relock | p => p end.

Definition is_asleep (p : pc) : bool := match p with Asleep => true | _ => false end.

Definition is_exited (p : pc) : bool := match p with Exited => true | _ => false end.

Definition acquire (t : nat) (s : state) : option state :=
  match mutex_ s with
  | None => Some (set_pc t Pred (set_mutex (Some t) s))
  | Some _ => None
  end.

(** A step: thread [t] goes on, and if it calls [notify_one] while threads wait,
    [w] is the one that wakes up; or a thread wakes up by itself. *)
Inductive label := Run (t w : nat) | Spurious (t : nat).

Section machine.
(** What [hardware_concurrency()] returns, and whether the regex compiles. *)
Context (hardware_concurrency : Z) (regex_ok : bool).

(** [worker] and the end of [run], one step of thread [t]. *)
Definition exec_thread (t w : nat) (p : pc) (s : state) : option state :=
  match p with
  | Spawn i =>
      Some (if i <? hardware_concurrency -ₛ 1
            then set_threads (λ ts, ts ++ [Start]) (set_pc t (Spawn (i +ₛ 1)) s)
            else set_pc t Start s)
  | Start => Some (if regex_ok then set_pc t WhileRunning s else throws t s)
  | WhileRunning => Some (set_pc t (if running_ s then Lock else Flush) s)
  | Lock | Relock => acquire t s
  | Pred =>
      Some (set_pc t (if negb (bool_decide (queue_ s = [])) || negb (running_ s)
                      then Taken else Park) s)
  | Park => Some (set_pc t Asleep (set_mutex None s))
  | Asleep => None
  | Taken =>
      if running_ s then
        match queue_ s with
        | d :: q => Some (set_pc t (Read d) (set_mutex None (set_queue q s)))
        | [] => Some (set_bad s)
        end
      else Some (set_pc t Flush (set_mutex None s))
  | Read (es :: d) => Some (set_pc t (Scan es [] d) s)
  | Read [] => Some (set_pc t Close s)
  | Scan (EDir true d' :: es) local d => Some (set_pc t (Scan es (local ++ [d']) d) s)
  | Scan (EFile name Searched :: es) local d => Some (log name (set_pc t (Scan es local d) s))
  | Scan (EFile name SearchThrows :: es) local d => Some (throws t s)
  | Scan (_ :: es) local d => Some (set_pc t (Scan es local d) s)
  | Scan [] local d => Some (set_pc t (Add local d) s)
  | Add local d => Some (set_pc t (Append local d) (set_pending (pending_ s +ₛ lenZ local) s))
  | Append local d =>
      match mutex_ s with
      | None => Some (set_pc t (Notify d) (set_queue (queue_ s ++ local) s))
      | Some _ => None
      end
  | Notify d =>
      if existsb is_asleep (threads_ s) then
        match threads_ s !! w with
        | Some Asleep => Some (set_pc t (Read d) (set_pc w Relock s))
        | _ => None
        end
      else Some (set_pc t (Read d) s)
  | Close =>
      Some (set_pc t (if pending_ s =? 1 then Stop else WhileRunning)
              (set_pending (pending_ s -ₛ 1) s))
  | Stop => Some (set_pc t NotifyAll (set_running false s))
  | NotifyAll => Some (set_threads (map wake) (set_pc t WhileRunning s))
  | Flush => Some (set_pc t (match t with O => Dtor | _ => Exited end) s)
  | Dtor => Some (set_pc t DtorNotify (set_running false s))
  | DtorNotify => Some (set_threads (map wake) (set_pc t Join s))
  | Join => if forallb is_exited (tail (threads_ s)) then Some (set_pc t Exited s) else None
  | Exited => None
  end.

Definition terminated (s : state) : bool :=
  match thrown s with Some (S _) => true | _ => false end.

Definition exec (l : label) (s : state) : option state :=
  if terminated s then None
  else match l with
       | Run t w => p ← threads_ s !! t; exec_thread t w p s
       | Spurious t => p ← threads_ s !! t; if is_asleep p then Some (set_pc t Relock s) else None
       end.

(** The state in which [run] starts its loop, with the directory it opened. *)
Definition init (root : dir) : state := St [root] None true 1 [Spawn 0] [] None false.

Fixpoint run_trace (ls : list label) (s : state) : option state :=
  match ls with
  | [] => Some s
  | l :: ls => s' ← exec l s; run_trace ls s'
  end.

Definition reachable (root : dir) (s : state) : Prop := ∃ ls, run_trace ls (init root) = Some s.

(** No thread can take a step. *)
Definition stuck (s : state) : Prop := ∀ t w, exec (Run t w) s = None.

End machine.

(** ** Counting over the threads

    Every invariant is a statement about sums over the threads, so that a step
    of one thread changes it by the difference of two summands. *)

Abbreviation total f s := (sum_list_with f (threads_ s)).

Lemma sum_wake (f : pc → nat) (l : list pc) :
  f Asleep = f Relock → sum_list_with f (map wake l) = sum_list_with f l.
Proof. intros H. induction l as [|[] l IH]; simpl; lia. Qed.

(** What an entry, a directory and a thread weigh, when an entry weighs [g] and
    an open directory [k] on top of its entries. *)
Section weights.
Context (k : nat) (g : entry → nat).

Definition dir_weight (d : dir) : nat := (k + sum_list_with (sum_list_with g) d)%nat.

Definition pc_weight (p : pc) : nat :=
  match p with
  | Read d | Notify d => dir_weight d
  | Scan es local d => (sum_list_with g es + sum_list_with dir_weight local + dir_weight d)%nat
  | Add local d | Append local d => (sum_list_with dir_weight local + dir_weight d)%nat
  | Close => k
  | _ => O
  end.

Definition weight (s : state) : nat :=
  (sum_list_with dir_weight (queue_ s) + total pc_weight s)%nat.

End weights.

Definition holds (p : pc) : nat := match p with Pred | Park | Taken => 1 | _ => 0 end.

Definition parked (p : pc) : nat := match p with Park => 1 | _ => 0 end.

Definition taken (p : pc) : nat := match p with Taken => 1 | _ => 0 end.

(** Directories that [pending_] counts for a thread. *)
Definition owed (p : pc) : nat :=
  match p with
  | Read _ | Scan _ _ _ | Add _ _ | Notify _ | Close => 1
  | Append local _ => S (length local)
  | _ => 0
  end.

Definition stopping (p : pc) : nat := match p with Stop => 1 | _ => 0 end.

Definition leaving (p : pc) : nat :=
  match p with Flush | Dtor | DtorNotify | Join | Exited => 1 | _ => 0 end.

(** Threads that will look at the queue again before they sleep. *)
Definition active (p : pc) : nat :=
  match p with
  | Park | Asleep | Flush | Dtor | DtorNotify | Join | Exited => 0
  | _ => 1
  end.

(** What the log weighs, and how often an entry contains a file. *)
Definition logged (g : entry → nat) (s : state) : nat :=
  sum_list_with (λ name, g (EFile name Searched)) (searched s).

Definition occurs (x : string) (e : entry) : nat := count_occ String.string_dec (entry_files e) x.

(** ** The invariant of a run without exceptions *)

Record inv (root : dir) (s : state) : Prop := {
  inv_mutex : total holds s = match mutex_ s with Some _ => 1%nat | None => 0%nat end;
  inv_parked : (0 < total parked s)%nat → length (queue_ s) = 0%nat;
  inv_taken : (0 < total taken s)%nat → length (queue_ s) = 0%nat → Nat.b2n (running_ s) = 0%nat;
  inv_pending : pending_ s = Z.of_nat (length (queue_ s) + total owed s);
  inv_dirs : (weight 1 entry_dirs s ≤ dirs root)%nat;
  inv_stopped : Nat.b2n (running_ s) = 0%nat ∨ (0 < total stopping s)%nat → pending_ s = 0;
  inv_leaving : (0 < total leaving s)%nat → Nat.b2n (running_ s) = 0%nat;
  inv_active :
    Nat.b2n (running_ s) = 1%nat → (0 < length (queue_ s))%nat → (0 < total active s)%nat;
  inv_bad : bad s = false;
  inv_files x :
    (logged (occurs x) s + weight 0 (occurs x) s)%nat = occurs x (EDir true root)
}.

Lemma occurs_dir x d : occurs x (EDir true d) = dir_weight 0 (occurs x) d.
Proof.
  unfold occurs, dir_weight. simpl. induction d as [|es d IH]; [done|]. simpl in *.
  rewrite count_occ_app, IH. f_equal. clear. induction es as [|e es IH]; [done|].
  simpl. by rewrite count_occ_app, IH.
Qed.

(** ** A step changes the program counter of one thread *)

(** The sums after a step of a thread from [p] to [p'], which may have woken
    other threads up and started [new] ones. *)
Definition moves (s s' : state) (p p' : pc) (new : list pc) : Prop :=
  (∀ f, f Asleep = f Relock →
     total f s' + f p = total f s + f p' + sum_list_with f new)%nat ∧
  (total active s + active p' ≤ total active s' + active p)%nat.

Lemma moves_set_pc s s' t p p' :
  threads_ s !! t = Some p → threads_ s' = <[t := p']> (threads_ s) → moves s s' p p' [].
Proof.
  intros Ht Hs'. split; [intros f _|]; rewrite Hs'.
  - pose proof (sum_insert f _ t p p' Ht). simpl. lia.
  - pose proof (sum_insert active _ t p p' Ht). lia.
Qed.

Lemma moves_spawn s s' t p p' :
  threads_ s !! t = Some p → threads_ s' = <[t := p']> (threads_ s) ++ [Start] →
  moves s s' p p' [Start].
Proof.
  intros Ht Hs'. split; [intros f _|]; rewrite Hs', sum_list_with_app.
  - pose proof (sum_insert f _ t p p' Ht). lia.
  - pose proof (sum_insert active _ t p p' Ht). lia.
Qed.

Lemma active_wake (l : list pc) :
  (sum_list_with active l ≤ sum_list_with active (map wake l))%nat.
Proof. induction l as [|[] l IH]; simpl; lia. Qed.

Lemma moves_notify_all s s' t p p' :
  threads_ s !! t = Some p → threads_ s' = map wake (<[t := p']> (threads_ s)) →
  moves s s' p p' [].
Proof.
  intros Ht Hs'. split; [intros f Hf|]; rewrite Hs'.
  - rewrite sum_wake by done. pose proof (sum_insert f _ t p p' Ht). simpl. lia.
  - pose proof (active_wake (<[t := p']> (threads_ s))).
    pose proof (sum_insert active _ t p p' Ht). lia.
Qed.

Lemma moves_notify_one s s' t w p p' :
  threads_ s !! t = Some p → threads_ s !! w = Some Asleep → p ≠ Asleep →
  threads_ s' = <[t := p']> (<[w := Relock]> (threads_ s)) → moves s s' p p' [].
Proof.
  intros Ht Hw Hp Hs'. assert (w ≠ t) by congruence.
  assert (<[w := Relock]> (threads_ s) !! t = Some p) as Ht'
    by by rewrite list_lookup_insert_ne.
  split; [intros f Hf|]; rewrite Hs'.
  - pose proof (sum_insert f _ t p p' Ht'). pose proof (sum_insert f _ w _ Relock Hw).
    simpl. lia.
  - pose proof (sum_insert active _ t p p' Ht'). pose proof (sum_insert active _ w _ Relock Hw).
    simpl in *. lia.
Qed.

Lemma parked_taken_le s : (total parked s + total taken s ≤ total holds s)%nat.
Proof.
  induction (threads_ s) as [|[] l IH]; simpl; lia.
Qed.

Lemma dir_weight_pos (l : list dir) : (length l ≤ sum_list_with (dir_weight 1 entry_dirs) l)%nat.
Proof.
  induction l as [|d l IH]; [done|]. cbn [sum_list_with length].
  assert (1 ≤ dir_weight 1 entry_dirs d)%nat by (unfold dir_weight; lia). lia.
Qed.

Lemma owed_le_weight (p : pc) : (owed p ≤ pc_weight 1 entry_dirs p)%nat.
Proof.
  assert (∀ d, 1 ≤ dir_weight 1 entry_dirs d)%nat as Hd by (intros; unfold dir_weight; lia).
  destruct p; cbn [owed pc_weight]; try lia; specialize (Hd d);
    try pose proof (dir_weight_pos local); lia.
Qed.

(** What [pending_] counts is a part of the tree, so it cannot wrap. *)
Lemma pending_bound s : (length (queue_ s) + total owed s ≤ weight 1 entry_dirs s)%nat.
Proof.
  unfold weight. pose proof (dir_weight_pos (queue_ s)).
  pose proof (sum_le owed _ (threads_ s) owed_le_weight). lia.
Qed.

(** ** Every step keeps the invariant *)

(** All the ways a thread can take a step. *)
Ltac thread_cases He :=
  repeat match type of He with
         | None = Some _ => discriminate He
         | context [if ?b then _ else _] => destruct b eqn:?; simpl in He
         | context [match ?x with _ => _ end] => destruct x eqn:?; simpl in He
         | Some _ = Some _ => injection He as <-
         end.

(** The sums after the step at hand. *)
Ltac get_moves Ht Hf Ha :=
  match goal with
  | _ : threads_ ?s !! _ = Some ?p |- context [?s'] =>
      lazymatch type of s' with state => idtac end;
      lazymatch s' with s => fail | _ => idtac end;
      let Hm := fresh in
      eassert (moves s s' p _ _) as Hm by
        (first [ eapply moves_set_pc; [exact Ht|reflexivity]
               | eapply moves_spawn; [exact Ht|reflexivity]
               | eapply moves_notify_all; [exact Ht|reflexivity]
               | eapply moves_notify_one; [exact Ht|eassumption|discriminate|reflexivity] ]);
      destruct Hm as [Hf Ha]
  end.

Lemma dir_weight_nil k g : dir_weight k g [] = k.
Proof. unfold dir_weight. simpl. lia. Qed.

Lemma dir_weight_cons k g es d :
  dir_weight k g (es :: d) = (sum_list_with g es + dir_weight k g d)%nat.
Proof. unfold dir_weight. simpl. lia. Qed.

Ltac step_cbn :=
  cbn [queue_ mutex_ pending_ running_ threads_ searched thrown bad set_pc set_queue set_threads
       set_mutex set_running set_pending log set_bad pc_weight sum_list_with] in *.

Section steps.
Context (hardware_concurrency : Z) (regex_ok : bool) (root : dir).

(** The weight of the tree moves from the queue to the threads to the log. *)
Section weight_step.
Context (k : nat) (g : entry → nat).
Hypothesis g_dir : ∀ d, g (EDir true d) = dir_weight k g d.
Hypothesis g_skip : ∀ e, entry_files e = [] → entry_dirs e = O → g e = O.

Lemma weight_step s s' t w p :
  threads_ s !! t = Some p → exec_thread hardware_concurrency regex_ok t w p s = Some s' →
  thrown s = None → thrown s' = None →
  ∃ r, (r ≤ k)%nat ∧
       (logged g s' + weight k g s' + r = logged g s + weight k g s)%nat.
Proof.
  intros Ht He Hthrow Hthrow'. unfold weight, logged.
  destruct p; simpl in He; unfold acquire in He; thread_cases He; simpl in Hthrow';
    try discriminate Hthrow'.
  all: try (get_moves Ht Hf Ha; specialize (Hf (pc_weight k g) eq_refl); clear Ha).
  all: step_cbn.
  all: try rename select (queue_ s = _) into Eq; try rewrite Eq in *.
  all: repeat (rewrite ?sum_list_with_app, ?dir_weight_nil, ?dir_weight_cons, ?g_dir in *; step_cbn).
  all: try match goal with H : context [g ?e] |- _ =>
             lazymatch e with EFile _ Searched => fail | _ => rewrite (g_skip e) in H by done end
           end.
  all: solve [exists O; lia | exists k; lia].
Qed.
End weight_step.

Hypothesis dirs_bound : Z.of_nat (dirs root) < size_max.

(** The sums the invariant is about. *)
Ltac all_sums Hf :=
  pose proof (Hf holds eq_refl); pose proof (Hf parked eq_refl); pose proof (Hf taken eq_refl);
  pose proof (Hf owed eq_refl); pose proof (Hf stopping eq_refl); pose proof (Hf leaving eq_refl);
  clear Hf;
  cbn [holds parked taken owed stopping leaving active sum_list_with] in *.

Ltac at_thread Ht :=
  pose proof (sum_lookup holds _ _ _ Ht); pose proof (sum_lookup parked _ _ _ Ht);
  pose proof (sum_lookup taken _ _ _ Ht); pose proof (sum_lookup owed _ _ _ Ht);
  pose proof (sum_lookup stopping _ _ _ Ht); pose proof (sum_lookup leaving _ _ _ Ht);
  pose proof (sum_lookup active _ _ _ Ht).

Lemma inv_thread_step s s' t w p :
  inv root s → threads_ s !! t = Some p →
  exec_thread hardware_concurrency regex_ok t w p s = Some s' →
  thrown s = None → thrown s' = None → inv root s'.
Proof.
  intros Hinv Ht He Hthrow Hthrow'.
  pose proof (weight_step 1 entry_dirs ltac:(done) ltac:(done) s s' t w p Ht He Hthrow Hthrow')
    as (r & _ & Hdirs).
  assert (Hocc : ∀ x, (logged (occurs x) s' + weight 0 (occurs x) s' =
                       logged (occurs x) s + weight 0 (occurs x) s)%nat).
  { intros x. destruct (weight_step 0 (occurs x) (occurs_dir x)) with s s' t w p
      as (r0 & ? & ?); try done; [|lia]. intros e He0 _. unfold occurs. by rewrite He0. }
  assert (logged entry_dirs s' = O ∧ logged entry_dirs s = O) as [Hl' Hl].
  { unfold logged. split; induction (searched _); simpl; auto. }
  pose proof (pending_bound s) as Hb. pose proof (pending_bound s') as Hb'.
  pose proof (parked_taken_le s) as Hpt.
  destruct Hinv as [Im Ip It Ipend Id Ist Il Ia Ib Ifl].
  assert (Hfiles : ∀ x, (logged (occurs x) s' + weight 0 (occurs x) s' =
                          occurs x (EDir true root))%nat) by (intros; rewrite Hocc; apply Ifl).
  assert (Hd' : (weight 1 entry_dirs s' ≤ dirs root)%nat) by lia.
  assert (Hb0 : (length (queue_ s) + total owed s ≤ dirs root)%nat) by lia.
  assert (Hb1 : (length (queue_ s') + total owed s' ≤ dirs root)%nat) by lia.
  clear Ifl Id Hocc Hdirs Hl Hl' Hb Hb'. at_thread Ht.
  destruct p; simpl in He; unfold acquire in He;
    destruct (queue_ s) as [|d0 q0] eqn:Eq, (running_ s) eqn:Er; simpl in He;
    thread_cases He; simpl in Hthrow'; try discriminate Hthrow'.
  all: try (get_moves Ht Hf Ha; all_sums Hf).
  all: split; [..|exact Hfiles]; try exact Hd'; clear Hfiles Hd'.
  all: step_cbn; try rename select (mutex_ s = _) into Em; rewrite ?Eq, ?Er, ?Em in *; cbn [length Nat.b2n app] in *.
  all: rewrite ?length_app in *; unfold lenZ in *; try assumption; try lia.
  all: try (rewrite ?size_add_small, ?size_sub_small by lia; lia).
  all: try (destruct (mutex_ s); lia).
  all: exfalso; simpl in *; lia.
Qed.

Lemma inv_init : inv root (init root).
Proof.
  split; try done; try (simpl; lia).
  - unfold weight, dir_weight, dirs. simpl. lia.
  - intros x. rewrite occurs_dir. unfold logged, weight. simpl. lia.
Qed.

Lemma thrown_stays l s s' :
  exec hardware_concurrency regex_ok l s = Some s' → thrown s' = None → thrown s = None.
Proof.
  unfold exec, terminated. intros He Hs'. destruct (thrown s) as [[|t0]|] eqn:Eth; [|done|done].
  exfalso. destruct l as [t w|t]; simpl in He; destruct (threads_ s !! t) as [p|]; simpl in He;
    try done.
  - destruct p; simpl in He; unfold acquire in He; thread_cases He; simpl in Hs'; congruence.
  - destruct (is_asleep p); simplify_eq/=; congruence.
Qed.

Lemma inv_exec l s s' :
  inv root s → exec hardware_concurrency regex_ok l s = Some s' → thrown s' = None → inv root s'.
Proof.
  intros Hinv He Hs'. pose proof (thrown_stays l s s' He Hs') as Hs.
  unfold exec in He. destruct (terminated s); [done|]. destruct l as [t w|t].
  - destruct (threads_ s !! t) as [p|] eqn:Ht; simpl in He; [|done].
    by eapply inv_thread_step.
  - destruct (threads_ s !! t) as [p|] eqn:Ht; simpl in He; [|done].
    destruct p; simpl in He; simplify_eq.
    assert (Hsum : ∀ f, f Asleep = f Relock →
              total f (set_pc t Relock s) = total f s).
    { intros f Hf. pose proof (sum_insert f _ t _ Relock Ht). simpl. lia. }
    pose proof (sum_insert active _ t _ Relock Ht) as Ha. simpl in Ha.
    destruct Hinv as [? ? ? ? ? ? ? Iact ? Ifl].
    split; unfold weight in *; rewrite ?Hsum by done; try done.
    + intros Hr Hq. specialize (Iact Hr Hq). simpl. lia.
    + intros x. rewrite Hsum by done. apply Ifl.
Qed.

Lemma inv_reachable s :
  reachable hardware_concurrency regex_ok root s → thrown s = None → inv root s.
Proof.
  intros [ls Hls]. assert (thrown (init root) = None → inv root (init root)) as H0
    by (intros; apply inv_init).
  revert H0 Hls. generalize (init root). induction ls as [|l ls IH]; intros s0 H0 Hls Hs;
    simplify_eq/=; [auto|].
  destruct (exec _ _ l s0) as [s1|] eqn:He; simpl in Hls; [|done].
  apply (IH s1); [|done|done]. intros Hs1. eapply inv_exec; [|done|done].
  apply H0. by eapply thrown_stays.
Qed.

End steps.

(** ** What a run guarantees *)

Lemma logged_count x s : logged (occurs x) s = count_occ String.string_dec (searched s) x.
Proof.
  unfold logged. induction (searched s) as [|y l IH]; [done|]. cbn [sum_list_with count_occ].
  rewrite IH. unfold occurs. simpl. by destruct (String.string_dec y x).
Qed.

Lemma weight_idle k g p : owed p = O → pc_weight k g p = O.
Proof. by destruct p. Qed.

(** When nothing is queued and no thread holds a directory, the log is
    complete. *)
Lemma idle_complete root s :
  inv root s → queue_ s = [] → total owed s = O → searched s ≡ₚ files root.
Proof.
  intros Hinv Hq Ho. apply (Permutation_count_occ String.string_dec). intros x.
  pose proof (inv_files _ _ Hinv x) as Hf. rewrite logged_count in Hf.
  unfold weight in Hf. rewrite Hq in Hf. cbn [sum_list_with Nat.add] in Hf.
  assert (total (pc_weight 0 (occurs x)) s = O) as Hw.
  { revert Ho. clear. induction (threads_ s) as [|p l IH]; simpl; intros Ho; [done|].
    rewrite (weight_idle _ _ p), IH; lia. }
  rewrite Hw, Nat.add_0_r in Hf. exact Hf.
Qed.

Lemma stopped_complete root s :
  inv root s → running_ s = false → searched s ≡ₚ files root.
Proof.
  intros Hinv Hr. pose proof (inv_stopped _ _ Hinv) as Hs. rewrite Hr in Hs.
  specialize (Hs (or_introl eq_refl)). rewrite (inv_pending _ _ Hinv) in Hs.
  apply idle_complete; [done| |lia]. destruct (queue_ s); simpl in *; [done|lia].
Qed.

(** A thread that cannot go on is asleep, has left, or waits for the others. *)
Lemma blocked_thread hc ok s t p :
  mutex_ s = None → (∀ w, exec_thread hc ok t w p s = None) →
  p = Asleep ∨ p = Join ∨ p = Exited.
Proof.
  intros Hm Hb. pose proof (Hb O) as H0.
  destruct p; try (by auto); exfalso; simpl in H0; unfold acquire in *;
    rewrite ?Hm in *; try done.
  - destruct (running_ s), (queue_ s); done.
  - by destruct d.
  - destruct es as [|[[]| |? []|] es]; done.
  - simpl in Hb. destruct (existsb is_asleep (threads_ s)) eqn:Hex; [|done].
    apply existsb_exists in Hex as (q & Hq & Ha). apply list_elem_of_In in Hq.
    apply list_elem_of_lookup in Hq as [w Hw]. specialize (Hb w). rewrite Hw in Hb.
    by destruct q.
Qed.

(** C2. [grep] searches every file exactly once. For any number of threads and
    any interleaving of their steps, spurious wake-ups included: unless a
    search has thrown, the moment [running_] becomes false the log is a
    permutation of the files of the tree that can be opened, nothing is left in
    the queue, and [front()] was never called on an empty queue. *)
Theorem processor_searches_each_file_once hc ok (root : dir) (s : state) :
  reachable hc ok root s → Z.of_nat (dirs root) < size_max → thrown s = None →
  bad s = false ∧ (running_ s = false → queue_ s = [] ∧ searched s ≡ₚ files root).
Proof.
  intros Hreach Hd Hthrow. pose proof (inv_reachable hc ok root Hd s Hreach Hthrow) as Hinv.
  split; [apply Hinv|]. intros Hr. split; [|by apply stopped_complete].
  pose proof (inv_stopped _ _ Hinv) as Hs. rewrite Hr in Hs.
  specialize (Hs (or_introl eq_refl)). rewrite (inv_pending _ _ Hinv) in Hs.
  destruct (queue_ s); simpl in *; [done|lia].
Qed.

(** C8. No work is ever left behind: in a reachable state in which no thread
    can take a step, and no search has thrown, every file has been searched.
    So the workers cannot all fall asleep with directories in the queue. *)
Theorem processor_stuck_only_when_done hc ok (root : dir) (s : state) :
  reachable hc ok root s → Z.of_nat (dirs root) < size_max → thrown s = None →
  stuck hc ok s → searched s ≡ₚ files root.
Proof.
  intros Hreach Hd Hthrow Hstuck.
  pose proof (inv_reachable hc ok root Hd s Hreach Hthrow) as Hinv.
  destruct (running_ s) eqn:Hr; [|by apply stopped_complete].
  assert (Hall : ∀ t p, threads_ s !! t = Some p → ∀ w, exec_thread hc ok t w p s = None).
  { intros t p Ht w. specialize (Hstuck t w). unfold exec, terminated in Hstuck.
    rewrite Hthrow, Ht in Hstuck. exact Hstuck. }
  assert (mutex_ s = None) as Hm.
  { destruct (mutex_ s) as [o|] eqn:Hm; [|done]. exfalso.
    pose proof (inv_mutex _ _ Hinv) as Him. rewrite Hm in Him.
    destruct (sum_pos holds (threads_ s)) as (t & p & Ht & Hp); [lia|].
    specialize (Hall t p Ht O). destruct p; simpl in *; try lia; [done|done|].
    rewrite Hr in Hall. by destruct (queue_ s). }
  assert (Hasleep : ∀ t p, threads_ s !! t = Some p → p = Asleep).
  { intros t p Ht. destruct (blocked_thread hc ok s t p Hm (Hall t p Ht)) as [->|Hp]; [done|].
    pose proof (inv_leaving _ _ Hinv) as Hl. pose proof (sum_lookup leaving _ _ _ Ht) as Hlt.
    rewrite Hr in Hl. destruct Hp as [->| ->]; simpl in *; lia. }
  assert (Hzero : ∀ f : pc → nat, f Asleep = O → total f s = O).
  { intros f Hf. destruct (decide (total f s = O)) as [|Hne]; [done|].
    destruct (sum_pos f (threads_ s)) as (t & p & Ht & Hp); [lia|].
    rewrite (Hasleep t p Ht) in Hp. lia. }
  apply idle_complete; [done| |by apply Hzero].
  pose proof (inv_active _ _ Hinv) as Ha. rewrite Hr, (Hzero active) in Ha by done.
  destruct (queue_ s); simpl in *; [done|lia].
Qed.

(** ** Concrete runs *)

Definition sample_tree : dir :=
  [[EDot; EFile "a" Searched; EDir true [[EFile "b" Searched; EOther]]; EFile "c" OpenFails];
   [EFile "d" Searched; EDir false [[EFile "e" Searched]]]].

Definition only_thread (n : nat) : list label := replicate n (Run 0 0).

(** Witness: one thread, from start to end. *)
Lemma processor_searches_each_file_once_witness :
  ∃ s, run_trace 1 true (only_thread 44) (init sample_tree) = Some s ∧
       running_ s = false ∧ searched s = ["a"; "d"; "b"]%string ∧
       searched s ≡ₚ files sample_tree.
Proof.
  eexists. split; [vm_compute; reflexivity|]. split; [reflexivity|]. split; [reflexivity|].
  refine (proj2 (proj2 (processor_searches_each_file_once 1 true sample_tree _ _ _ _) _)).
  - exists (only_thread 44). vm_compute. reflexivity.
  - vm_compute. reflexivity.
  - reflexivity.
  - reflexivity.
Defined.

(** Witness: the same run has nowhere to go from there. *)
Lemma processor_stuck_only_when_done_witness :
  ∃ s, run_trace 1 true (only_thread 44) (init sample_tree) = Some s ∧
       stuck 1 true s ∧ searched s ≡ₚ files sample_tree.
Proof.
  eexists. split; [vm_compute; reflexivity|]. split; [by intros [] ?|].
  apply (processor_stuck_only_when_done 1 true sample_tree).
  - exists (only_thread 44). vm_compute. reflexivity.
  - vm_compute. reflexivity.
  - reflexivity.
  - by intros [] ?.
Defined.

(** Two threads and an empty directory. The second thread takes the directory
    and closes it; before it stores [running_ = false], the first thread finds
    the queue empty and [running_] still true; the store and the notification
    happen before the first thread goes to sleep. *)
Definition lost_wakeup : list label :=
  [Run 0 0; Run 0 0; Run 0 0;                              (* spawn, build the pipeline *)
   Run 1 0; Run 1 0; Run 1 0; Run 1 0; Run 1 0; Run 1 0;   (* take the directory, read it *)
   Run 1 0;                                                (* fetch_sub reaches zero *)
   Run 0 0; Run 0 0; Run 0 0;                              (* lock, predicate false *)
   Run 1 0; Run 1 0; Run 1 0; Run 1 0;                     (* stop, notify nobody, leave *)
   Run 0 0].                                               (* sleep *)

(** C33. The stop signal can be lost: [running_] is stored and [notify_all] is
    called without the mutex, so both can fall between the moment another
    thread finds the predicate false and the moment it sleeps. There is an
    interleaving of two threads on an empty directory after which the thread
    of [run] sleeps, [running_] is false, and no thread can ever take a step
    again: the program hangs. *)
Theorem processor_can_lose_the_stop_signal :
  ∃ s, run_trace 2 true lost_wakeup (init []) = Some s ∧
       thrown s = None ∧ running_ s = false ∧
       threads_ s = [Asleep; Exited] ∧ stuck 2 true s.
Proof.
  eexists. split; [vm_compute; reflexivity|]. split_and!; try reflexivity.
  by intros [|[|t]] w.
Qed.

(** C37. When the number of hardware threads is unknown, [hardware_concurrency()]
    is 0 and the bound of the loop wraps around: any number of threads below
    2^64 - 1 is started before the first directory is looked at. *)
Theorem processor_unknown_concurrency root (n : nat) :
  Z.of_nat n < size_max - 1 →
  run_trace 0 true (only_thread n) (init root) =
    Some (St [root] None true 1 (Spawn (Z.of_nat n) :: replicate n Start) [] None false).
Proof.
  unfold only_thread, init. intros Hn.
  assert (Hgen : ∀ m i, Z.of_nat (i + m) < size_max - 1 →
    run_trace 0 true (replicate m (Run 0 0))
      (St [root] None true 1 (Spawn (Z.of_nat i) :: replicate i Start) [] None false) =
    Some (St [root] None true 1 (Spawn (Z.of_nat (i + m)) :: replicate (i + m) Start) []
            None false)).
  { intros m. induction m as [|m IH]; intros i Hi; [by rewrite Nat.add_0_r|].
    cbn [replicate run_trace]. unfold exec, terminated. cbn [thrown threads_ lookup].
    simpl. change (0 -ₛ 1) with (size_max - 1).
    rewrite (proj2 (Z.ltb_lt _ _)) by lia. unfold set_threads, set_pc. simpl.
    rewrite size_add_small by lia.
    replace (Z.of_nat i + 1) with (Z.of_nat (S i)) by lia.
    replace (replicate i Start ++ [Start]) with (replicate (S i) Start)
      by (by rewrite replicate_S_end).
    rewrite IH by lia. by rewrite Nat.add_succ_r. }
  apply (Hgen n 0%nat). lia.
Qed.

Lemma processor_unknown_concurrency_witness :
  run_trace 0 true (only_thread 3) (init []) =
    Some (St [[]] None true 1 [Spawn 3; Start; Start; Start] [] None false).
Proof. apply (processor_unknown_concurrency [] 3). vm_compute. reflexivity. Defined.
