(* ===== verification/Termination.v ===== *)
(** The threads of [grep] finish: a bound on the number of steps of the machine
    of Processor.v.

    Every step of a thread uses up some of a finite supply: the entries of the
    tree that are left, the threads that are still to be started, and what each
    thread has to go through before it sleeps or leaves. Only a wake-up nobody
    asked for adds to it. *)

From S2P Require Import Prelude Processor.

Section cost.
Context (hardware_concurrency : Z).

(** The threads [run] starts, and all of them together. *)
Definition extra_threads : nat := Z.to_nat (hardware_concurrency -ₛ 1).

Definition all_threads : nat := S extra_threads.

(** Leaving, with [notify_all] on the way, which wakes every thread at most. *)
Definition leave_cost : nat := 4 + 3 * all_threads.

(** Closing a directory, with the other [notify_all]. *)
Definition close_cost : nat := leave_cost + 8 + 3 * all_threads.

Fixpoint entry_cost (e : entry) : nat :=
  match e with
  | EDir true batches =>
      S (close_cost + sum_list_with (λ es, 8 + sum_list_with entry_cost es) batches)
  | _ => 1
  end%nat.

Definition dir_cost (d : dir) : nat :=
  (close_cost + sum_list_with (λ es, 8 + sum_list_with entry_cost es) d)%nat.

Definition pc_cost (p : pc) : nat :=
  match p with
  | Spawn i => (extra_threads - Z.to_nat i) * (leave_cost + 6) + leave_cost + 6
  | Start => leave_cost + 5
  | WhileRunning => leave_cost + 4
  | Lock | Relock => leave_cost + 3
  | Pred => leave_cost + 2
  | Park | Taken => leave_cost + 1
  | Asleep | Flush => leave_cost
  | Read d => dir_cost d
  | Scan es local d => sum_list_with entry_cost es + sum_list_with dir_cost local + dir_cost d + 7
  | Add local d => sum_list_with dir_cost local + dir_cost d + 6
  | Append local d => sum_list_with dir_cost local + dir_cost d + 5
  | Notify d => dir_cost d + 4
  | Close => close_cost - 1
  | Stop => close_cost - 2
  | NotifyAll => close_cost - 3
  | Dtor => leave_cost - 1
  | DtorNotify => leave_cost - 2
  | Join => 1
  | Exited => 0
  end%nat.

(** What is left to do in a state. *)
Definition work (s : state) : nat :=
  (sum_list_with dir_cost (queue_ s) + total pc_cost s + (if terminated s then 0 else 1))%nat.

(** A thread, and those it is still to start. *)
Definition room (p : pc) : nat :=
  match p with Spawn i => S (extra_threads - Z.to_nat i) | _ => 1 end.

Lemma threads_room s : (length (threads_ s) ≤ total room s)%nat.
Proof. induction (threads_ s) as [|[] l IH]; simpl; lia. Qed.

Lemma cost_wake (l : list pc) :
  (sum_list_with pc_cost (map wake l) ≤ sum_list_with pc_cost l + 3 * length l)%nat.
Proof. induction l as [|[] l IH]; cbn [map wake sum_list_with length pc_cost] in *; lia. Qed.

End cost.

(** ** The lock *)

(** Who holds the mutex, and what a thread knows that has left the wait; this
    holds after exceptions too. *)
Record lock_ok (s : state) : Prop := {
  lock_held : total holds s = match mutex_ s with Some _ => 1%nat | None => 0%nat end;
  lock_taken : (0 < total taken s)%nat → length (queue_ s) = 0%nat → running_ s = false
}.

Section steps.
Context (hc : Z) (ok : bool).

(** The new sums of a step. *)
Ltac sums Ht f :=
  repeat match goal with
  | |- context [sum_list_with f (<[?t := ?p']> ?l)] =>
      lazymatch goal with
      | _ : (sum_list_with f (<[t := p']> l) + _ = _)%nat |- _ => fail
      | _ => pose proof (sum_insert f l t _ p' Ht)
      end
  end.

Lemma taken_le_holds s : (total taken s ≤ total holds s)%nat.
Proof. apply sum_le. intros []; simpl; lia. Qed.

Lemma holds_step s s' t w p :
  threads_ s !! t = Some p → exec_thread hc ok t w p s = Some s' → lock_ok s → lock_ok s'.
Proof.
  intros Ht He [Hm Htk]. pose proof (taken_le_holds s) as Hle.
  pose proof (sum_lookup holds _ _ _ Ht). pose proof (sum_lookup taken _ _ _ Ht).
  destruct p; simpl in He; unfold acquire, throws in He;
    destruct (queue_ s) as [|d0 q0] eqn:Eq, (running_ s) eqn:Er; simpl in He; thread_cases He.
  all: try (get_moves Ht Hf Ha; pose proof (Hf holds eq_refl); pose proof (Hf taken eq_refl); clear Hf Ha).
  all: cbn [holds taken sum_list_with length] in *; split; step_cbn; rewrite ?Eq, ?Er in *.
  all: try rename select (mutex_ s = _) into Em; rewrite ?Em in *; cbn [length] in *.
  all: try done; try lia; try (intros; exfalso; lia).
  all: try (destruct (mutex_ s); lia).
Qed.

(** Only [Spawn] starts threads, and no more than the bound of its loop. *)
Lemma room_step s s' t w p :
  threads_ s !! t = Some p → exec_thread hc ok t w p s = Some s' →
  (∀ i, p = Spawn i → 0 ≤ i < size_max) → (total (room hc) s' ≤ total (room hc) s)%nat.
Proof.
  intros Ht He Hi. pose proof (sum_lookup (room hc) _ _ _ Ht).
  destruct p; simpl in He; unfold acquire, throws in He; thread_cases He.
  all: try (get_moves Ht Hf Ha; pose proof (Hf (room hc) eq_refl); clear Hf Ha).
  all: step_cbn; cbn [room] in *; try lia.
  specialize (Hi i eq_refl). apply Z.ltb_lt in Heqb. pose proof (size_add_range i 1).
  unfold extra_threads in *. assert (hc -ₛ 1 < size_max) by apply Z.mod_pos_bound, eq_refl.
  rewrite size_add_small in * by lia. lia.
Qed.

Lemma dir_cost_nil : dir_cost hc [] = close_cost hc.
Proof. unfold dir_cost. cbn [sum_list_with]. lia. Qed.

Lemma dir_cost_cons es d :
  dir_cost hc (es :: d) = (8 + sum_list_with (entry_cost hc) es + dir_cost hc d)%nat.
Proof. unfold dir_cost. cbn [sum_list_with]. lia. Qed.

Lemma dir_cost_ge d : (close_cost hc ≤ dir_cost hc d)%nat.
Proof. unfold dir_cost. lia. Qed.

Lemma entry_cost_dir d : entry_cost hc (EDir true d) = S (dir_cost hc d).
Proof. done. Qed.

(** Waking threads up. *)
Lemma cost_notify_all s t p p' :
  threads_ s !! t = Some p → (total (room hc) s ≤ all_threads hc)%nat →
  (sum_list_with (pc_cost hc) (map wake (<[t := p']> (threads_ s))) + pc_cost hc p
   ≤ total (pc_cost hc) s + pc_cost hc p' + 3 * all_threads hc)%nat.
Proof.
  intros Ht Hroom. pose proof (cost_wake hc (<[t := p']> (threads_ s))) as Hw.
  pose proof (sum_insert (pc_cost hc) _ t p p' Ht). pose proof (threads_room hc s).
  rewrite length_insert in Hw. lia.
Qed.

Lemma cost_notify_one s t w p p' :
  threads_ s !! t = Some p → threads_ s !! w = Some Asleep → p ≠ Asleep →
  (sum_list_with (pc_cost hc) (<[t := p']> (<[w := Relock]> (threads_ s))) + pc_cost hc p
   = total (pc_cost hc) s + pc_cost hc p' + 3)%nat.
Proof.
  intros Ht Hw Hp. assert (<[w := Relock]> (threads_ s) !! t = Some p) as Ht'.
  { rewrite list_lookup_insert_ne; [done|congruence]. }
  pose proof (sum_insert (pc_cost hc) _ t p p' Ht').
  pose proof (sum_insert (pc_cost hc) _ w _ Relock Hw) as Hr. cbn [pc_cost] in Hr. lia.
Qed.

(** A step of a thread takes from the work that is left. *)
Lemma work_step s s' t w p :
  threads_ s !! t = Some p → exec_thread hc ok t w p s = Some s' → terminated s = false →
  lock_ok s → (total (room hc) s ≤ all_threads hc)%nat → (∀ i, p = Spawn i → 0 ≤ i < size_max) →
  (work hc s' < work hc s)%nat.
Proof.
  intros Ht He Hterm Hlock Hroom Hi. unfold work. rewrite Hterm.
  pose proof (sum_lookup taken _ _ _ Ht) as Htk. pose proof (lock_taken _ Hlock) as Hlt.
  assert (∀ s', thrown s' = thrown s → (if terminated s' then 0 else 1)%nat = 1%nat) as Hth
    by (intros s1 Hs1; unfold terminated in *; by rewrite Hs1, Hterm).
  destruct p; simpl in He; unfold acquire, throws in He; thread_cases He.
  all: first [rewrite Hth by reflexivity|unfold terminated].
  all: step_cbn; try rename select (queue_ s = _) into Eq; rewrite ?Eq, ?sum_list_with_app in *.
  all: try (rewrite Hlt in * by (simpl in *; lia); discriminate).
  all: lazymatch goal with
       | |- context [map wake (<[?t := ?p']> (threads_ ?s))] =>
           pose proof (cost_notify_all s t _ p' Ht Hroom)
       | Hw : threads_ ?s !! ?w = Some Asleep |- context [<[?t := ?p']> (<[?w := _]> _)] =>
           pose proof (cost_notify_one s t w _ p' Ht Hw ltac:(discriminate))
       | _ => sums Ht (pc_cost hc)
       end.
  all: cbn [pc_cost sum_list_with] in *; rewrite ?sum_list_with_app, ?dir_cost_nil, ?dir_cost_cons in *.
  all: cbn [sum_list_with] in *; rewrite ?entry_cost_dir in *; try lia.
  all: cbn [entry_cost] in *; try (unfold close_cost, leave_cost in *; lia).
  - specialize (Hi i eq_refl). apply Z.ltb_lt in Heqb. unfold extra_threads in *.
    assert (hc -ₛ 1 < size_max) by apply Z.mod_pos_bound, eq_refl.
    rewrite size_add_small in * by lia.
    replace (Z.to_nat (hc -ₛ 1) - Z.to_nat i)%nat
      with (S (Z.to_nat (hc -ₛ 1) - Z.to_nat (i + 1))) in * by lia.
    rewrite Nat.mul_succ_l in *. lia.
  - nia.
  - by specialize (Hlt ltac:(simpl in Htk; lia) eq_refl).
  - pose proof (dir_cost_ge d). unfold close_cost, leave_cost in *. lia.
Qed.

(** ** Runs *)

(** The counter of the loop that starts threads is a [size_t]. *)
Definition bad_counter (p : pc) : nat :=
  match p with Spawn i => if decide (0 ≤ i < size_max) then 0 else 1 | _ => 0 end.

Lemma counter_range s t i :
  total bad_counter s = O → threads_ s !! t = Some (Spawn i) → 0 ≤ i < size_max.
Proof. intros Hs Ht. apply (sum_zero bad_counter _ _ _ Hs) in Ht. simpl in Ht. by case_decide. Qed.

Lemma counter_step s s' t w p :
  threads_ s !! t = Some p → exec_thread hc ok t w p s = Some s' →
  total bad_counter s = O → total bad_counter s' = O.
Proof.
  intros Ht He Hs. pose proof (sum_lookup bad_counter _ _ _ Ht).
  destruct p; simpl in He; unfold acquire, throws in He; thread_cases He.
  all: try (get_moves Ht Hf Ha; pose proof (Hf bad_counter eq_refl); clear Hf Ha).
  all: step_cbn; cbn [bad_counter] in *; try lia.
  pose proof (size_add_range i 1). rewrite (decide_True (P := 0 ≤ i +ₛ 1 < size_max)) in * by done. lia.
Qed.

(** [front()] needs an element. *)
Lemma bad_step s s' t w p :
  threads_ s !! t = Some p → exec_thread hc ok t w p s = Some s' → lock_ok s →
  bad s = false → bad s' = false.
Proof.
  intros Ht He Hl Hb. pose proof (lock_taken _ Hl) as Htk. pose proof (sum_lookup taken _ _ _ Ht).
  destruct p; simpl in He; unfold acquire, throws in He; thread_cases He; try done.
  simpl in *. specialize (Htk ltac:(lia) eq_refl). congruence.
Qed.

(** What holds of every state of a run. *)
Record run_ok (s : state) : Prop := {
  run_lock : lock_ok s;
  run_room : (total (room hc) s ≤ all_threads hc)%nat;
  run_counter : total bad_counter s = O;
  run_good : bad s = false
}.

Lemma init_ok root : run_ok (init root).
Proof.
  split; [by split| |by vm_compute|done].
  unfold all_threads. simpl. lia.
Qed.

Definition is_spurious (l : label) : bool := match l with Spurious _ => true | Run _ _ => false end.

(** A step keeps these, and uses up work unless it is a spurious wake-up. *)
Lemma exec_ok l s s' :
  run_ok s → exec hc ok l s = Some s' →
  run_ok s' ∧ (S (work hc s') ≤ work hc s + (if is_spurious l then 4 else 0))%nat.
Proof.
  intros [Hl Hr Hc Hb] He. unfold exec in He. destruct (terminated s) eqn:Hterm; [done|].
  destruct l as [t w|t]; simpl in He; destruct (threads_ s !! t) as [p|] eqn:Ht; simpl in He; try done.
  - assert (∀ i, p = Spawn i → 0 ≤ i < size_max) as Hi.
    { intros i ->. by eapply counter_range. }
    split.
    + split; [by eapply holds_step| |by eapply counter_step|by eapply bad_step].
      etransitivity; [by eapply room_step|done].
    + pose proof (work_step s s' t w p Ht He Hterm Hl Hr Hi). simpl. lia.
  - destruct p; simplify_eq/=.
    assert (∀ f, f Asleep = f Relock → total f (set_pc t Relock s) = total f s) as Hsum.
    { intros f Hf. pose proof (sum_insert f _ t _ Relock Ht). simpl. lia. }
    split; [split; [destruct Hl; split|..]; rewrite ?Hsum by done; done|].
    unfold work, terminated in *. simpl. rewrite Hterm.
    pose proof (sum_insert (pc_cost hc) _ t _ Relock Ht) as Hs. cbn [pc_cost] in Hs. lia.
Qed.

Lemma run_bound ls s s' :
  run_ok s → run_trace hc ok ls s = Some s' →
  run_ok s' ∧
  (length ls + work hc s' ≤ work hc s + 4 * length (filter is_spurious ls))%nat.
Proof.
  revert s. induction ls as [|l ls IH]; intros s Hok Hrun; simpl in Hrun.
  { simplify_eq. simpl. split; [done|lia]. }
  destruct (exec hc ok l s) as [s1|] eqn:He; simpl in Hrun; [|done].
  destruct (exec_ok l s s1 Hok He) as [Hok1 Hw]. destruct (IH s1 Hok1 Hrun) as [Hok' Hlen].
  split; [done|]. rewrite filter_cons. destruct l; simpl in *; lia.
Qed.

End steps.

(** What [grep] has to do for a tree, at most. *)
Definition step_bound (hc : Z) (root : dir) : nat := work hc (init root).

(** C12. The threads of [grep] cannot go on for ever. For any number of
    threads, any tree, any interleaving, exceptions included: a run of the
    machine has at most [step_bound] steps, a number that depends only on the
    tree and on [hardware_concurrency()], and four more for each wake-up that
    no notification caused; and [front()] is never called on an empty queue. *)
Theorem processor_terminates hc ok (root : dir) (ls : list label) (s : state) :
  run_trace hc ok ls (init root) = Some s →
  (length ls ≤ step_bound hc root + 4 * length (filter is_spurious ls))%nat ∧ bad s = false.
Proof.
  intros Hrun. destruct (run_bound hc ok ls _ _ (init_ok hc root) Hrun) as [Hok Hlen].
  unfold step_bound. split; [lia|]. apply Hok.
Qed.

(** Witness: the run of one thread over the sample tree. *)
Lemma processor_terminates_witness :
  ∃ s, run_trace 1 true (only_thread 44) (init sample_tree) = Some s ∧
       step_bound 1 sample_tree = 82%nat ∧ (44 ≤ step_bound 1 sample_tree + 0)%nat ∧ bad s = false.
Proof.
  eexists. split; [vm_compute; reflexivity|]. split; [vm_compute; reflexivity|].
  refine (processor_terminates 1 true sample_tree (only_thread 44) _ _).
  vm_compute. reflexivity.
Defined.
