(* ===== verification/Grep.v ===== *)
(** commands/grep.h: what a worker of [grep] does with the directory it has
    taken from the queue, and the command itself. The threads and their shared
    queue are in Processor.v. *)

From S2P Require Import Prelude Kernel SimKernel Nodes AutoRelease.
From S2P Require Import Pipeline Sinks Sources Batch Lines Regex Dirents Cat.

(** The calls on directories. *)
Class DirKernel (W : Type) := {
  (** [syscall(SYS_getdents64, fd, buffer, size)], with the bytes returned *)
  sys_getdents64 : Z → Z → M W (Z * bytes);
  (** [std::println(std::cerr, ...)] *)
  println_cerr : string → M W unit
}.

Section grep.
Context {W : Type} `{Kernel W} `{DirKernel W} {F : Fuel}.
Context {DB Scratch : Type} `{Hyperscan DB Scratch}.

(** [ReadFile{} | VectorScan{regex} | Batch{} | Write{}] *)
Abbreviation pipeline :=
  (ReadFile.ReadFileNode (VectorScanNode (BatchNode Write.WriteNode) DB Scratch)).

Definition make_pipeline (regex : string) : M W pipeline :=
  state ← VectorScanState_new regex;
  mret (ReadFile.mk (mkVectorScanNode (BatchNode_new Write.mkWriteNode) state)).

Definition open_dir_flags : Z :=
  Z.lor (Z.lor (Z.lor O_RDONLY O_DIRECTORY) O_NOFOLLOW) O_NOATIME.

Definition open_file_flags : Z := Z.lor (Z.lor O_RDONLY O_NOFOLLOW) O_NOATIME.

(** [execute(pipeline, next_file, 0zu); ::close(next_file);] *)
Definition search_file (p : pipeline) (next_file : Z) : M W pipeline :=
  p' ← execute (call_source p next_file 0);
  _ ← sys_close next_file;
  mret p'.

(** A worker's searches, one file after the other, and with the final flush
    [get<2>(pipeline)()]. *)
Fixpoint search_files (p : pipeline) (fds : list Z) : M W pipeline :=
  match fds with
  | [] => mret p
  | fd :: fds => p' ← search_file p fd; search_files p' fds
  end.

Definition search_and_flush (p : pipeline) (fds : list Z) : M W (expected Z) :=
  p' ← search_files p fds;
  '(_, r) ← BatchNode_flush (vs_next (ReadFile.next p'));
  mret r.

(** The body of the loop over the records of a batch; the loop variables are
    [local_dir_queue] and the pipeline. *)
Definition visit_entry (dir_fd : Z) (dir : linux_dirent64) (s : list Z * pipeline)
    : M W (list Z * pipeline) :=
  let '(local_dir_queue, p) := s in
  let name := String.string_of_list_byte (d_name dir) in
  if d_type dir =? DT_DIR then
    if String.eqb name "." || String.eqb name ".." then mret s
    else
      next_dir ← sys_openat dir_fd name open_dir_flags;
      if next_dir <? 0 then mret s else mret (local_dir_queue ++ [next_dir], p)
  else if d_type dir =? DT_REG then
    next_file ← sys_openat dir_fd name open_file_flags;
    if next_file <? 0 then mret s
    else p' ← search_file p next_file; mret (local_dir_queue, p')
  else mret s.

(** [while (!empty(res_span)) { ... }] *)
Definition scan_batch (dir_fd : Z) (res_span : bytes) (p : pipeline) : M W (list Z * pipeline) :=
  walk_dirents (visit_entry dir_fd) res_span ([], p).

(** The [for (;;)] loop on a directory, up to its [close]; [publish] appends
    [local_dir_queue] to the shared queue and notifies. *)
Definition getdent_size : Z := 32 * 1024.

Definition getdents_round (publish : list Z → M W unit) (dir_fd : Z) (p : pipeline)
    : M W (pipeline + pipeline) :=
  '(read, buffer) ← sys_getdents64 dir_fd getdent_size;
  if read <? 0 then
    err ← get_errno;
    _ ← println_cerr ("fd: " +:+ pretty dir_fd +:+ " " +:+ pretty err);
    mret (inr p)
  else if read =? 0 then mret (inr p)
  else
    '(local_dir_queue, p') ← scan_batch dir_fd (takeZ read buffer) p;
    _ ← publish local_dir_queue;
    mret (inl p').

Definition read_directory (publish : list Z → M W unit) (dir_fd : Z) (p : pipeline)
    : M W pipeline :=
  p' ← loop fuel (getdents_round publish dir_fd) p;
  _ ← sys_close dir_fd;
  mret p'.

End grep.

(** ** What a worker prints *)

(** [ReadFile] hands the file on in chunks; each is searched on its own. *)
Definition chunking (c : bytes) (chunks : list bytes) : Prop :=
  concat chunks = c ∧ Forall (λ d, d ≠ [] ∧ lenZ d ≤ ReadFile.max_size) chunks.

Section search_laws.
Context {W : Type} `{LawfulKernel W} `{DirKernel W} {F : Fuel}.
Context {DB Scratch : Type} `{LawfulHyperscan DB Scratch}.

Abbreviation pipeline :=
  (ReadFile.ReadFileNode (VectorScanNode (BatchNode Write.WriteNode) DB Scratch)).

(** The lines the engine finds in a chunk, one for each match it reports. *)
Definition found (st : VectorScanState DB Scratch) (d : bytes) : list bytes :=
  line_of d <$> (hs_scan (vs_db st) d (vs_scratch st)).2.*2.

Definition text (st : VectorScanState DB Scratch) (chunks : list bytes) : bytes :=
  unlines (chunks ≫= found st).

Lemma text_app st a b : text st (a ++ b) = text st a ++ text st b.
Proof. unfold text. by rewrite bind_app, unlines_app. Qed.

Lemma chunking_snoc d chunks chunk :
  chunking d chunks → chunk ≠ [] → lenZ chunk ≤ ReadFile.max_size →
  chunking (d ++ chunk) (chunks ++ [chunk]).
Proof.
  intros [<- Hall] Hne Hle. split; [by rewrite concat_app; simpl; rewrite app_nil_r|].
  apply Forall_app. by repeat constructor.
Qed.

(** How much is printed for one byte of a piece of the file, at most. *)
Definition rate (st : VectorScanState DB Scratch) (c : bytes) (K : nat) : Prop :=
  ∀ a d b, c = a ++ d ++ b → d ≠ [] → (length (text st [d]) ≤ K * length d)%nat.

Lemma text_length st c K chunks a :
  rate st c K → chunking a chunks → a `prefix_of` c → (length (text st chunks) ≤ K * length a)%nat.
Proof.
  intros HK [<- Hall] [b Hb]. revert c b Hb HK. pattern chunks. revert Hall.
  induction chunks as [|d chunks IH] using rev_ind; intros Hall c b Hb HK;
    [simpl; lia|].
  apply Forall_app in Hall as [Hall [Hd _]%Forall_cons].
  rewrite concat_app in *. simpl in *. rewrite app_nil_r in *.
  rewrite text_app, !length_app. specialize (IH Hall c (d ++ b)).
  pose proof (HK (concat chunks) d b ltac:(by rewrite Hb, <- app_assoc) (proj1 Hd)) as Hlen.
  rewrite Nat.mul_add_distr_l. enough (length (text st chunks) ≤ K * length (concat chunks))%nat
    by lia.
  apply IH; [by rewrite Hb, <- app_assoc|done].
Qed.

Section one_worker.
Context (st : VectorScanState DB Scratch).
Hypothesis scan_ok : ∀ d, (hs_scan (vs_db st) d (vs_scratch st)).1 = HS_SUCCESS.

(** The node between [ReadFile] and [Batch]. *)
Definition inner (p : pipeline) := ReadFile.next p.

Definition held (p : pipeline) : bytes := pending (vs_next (inner p)).

(** Searching one file: everything found in its chunks has gone through the
    batch, or a first part of that and an exception. *)
Lemma search_source_law (p : pipeline) fd c pos K (w : W) :
  vs_state (inner p) = st → is_file fd c pos (view_of w) → rate st c K →
  lenZ c < size_max → (length c < fuel)%nat → (length (held p) + K * length c < fuel)%nat →
  Z.of_nat (length (held p) + K * length c) < size_max →
  wp (call_source p fd 0) w (returns (λ '(p', r) w',
    ∃ bs d chunks, d `prefix_of` c ∧ chunking d chunks ∧ view_of w' = emit bs (view_of w) ∧
      match r with
      | Value _ => d = c ∧ vs_state (inner p') = st ∧ bs ++ held p' = held p ++ text st chunks
      | Unexpected _ => bs `prefix_of` held p ++ text st chunks
      end)).
Proof.
  intros Hst Hf HK Hc Hfuel Hfuel2 Hsz.
  eapply wp_returns_mono.
  { apply (read_file_node_law fd c pos
      (λ d n _ v, d `prefix_of` c ∧ vs_state n = st ∧ ∃ bs chunks, chunking d chunks ∧
         v = emit bs (view_of w) ∧ bs ++ pending (vs_next n) = held p ++ text st chunks)
      (λ d n v, ∃ bs chunks, chunking d chunks ∧
         v = emit bs (view_of w) ∧ bs `prefix_of` held p ++ text st chunks)); [| |done|done|].
    - intros d n _ v (_ & _ & bs & chunks & _ & -> & _). auto with om.
    - intros d chunk n k w1 (Hd & Hn & bs & chunks & Hch & Hv & Hbs) Hne Hmax Hpre.
      pose proof (chunking_snoc d chunks chunk Hch Hne Hmax) as Hch'.
      pose proof (text_length st c K _ _ HK Hch' Hpre) as Hlen.
      pose proof (prefix_length _ _ Hpre) as Hpl.
      pose proof (f_equal length Hbs) as Hbl. rewrite !length_app in Hbl.
      rewrite text_app, length_app in Hlen.
      assert (K * length (d ++ chunk) ≤ K * length c)%nat by (apply Nat.mul_le_mono_l; lia).
      assert (text st [chunk] = unlines (found st chunk)) as Htext.
      { unfold text. simpl. by rewrite app_nil_r. }
      eapply wp_returns_mono.
      { apply (vectorscan_node_law n chunk w1); rewrite ?Hn.
        - apply scan_ok.
        - unfold ReadFile.max_size, size_max in *. lia.
        - fold (found st chunk). rewrite <- Htext. unfold enough, lenZ. lia. }
      rewrite Hn. fold (found st chunk).
      intros [n' r] w2 [Hn' (bs2 & Hv2 & Hbs2)]. simpl in Hbs2. rewrite Hv, emit_emit in Hv2.
      rewrite <- Htext in Hbs2. destruct r as [k'|e].
      + destruct Hbs2 as [_ Hbs2]. split; [done|]. split; [congruence|].
        exists (bs ++ bs2), (chunks ++ [chunk]). split_and!; [done|done|].
        by rewrite text_app, <- !app_assoc, Hbs2, !app_assoc, Hbs.
      + exists (bs ++ bs2), (chunks ++ [chunk]). split_and!; [done|done|].
        rewrite text_app, !app_assoc, <- Hbs, <- app_assoc. by apply prefix_app.
    - split; [apply prefix_nil|]. split; [done|]. exists [], []. split_and!; [done| |].
      + by rewrite emit_nil.
      + unfold text. simpl. by rewrite app_nil_r. }
  intros [p' [k|e]] w'.
  - intros (_ & Hst' & bs & chunks & Hch & Hv & Hbs). by exists bs, c, chunks.
  - intros (d & Hd & [(k & _ & _ & bs & chunks & Hch & Hv & Hbs)|(bs & chunks & Hch & Hv & Hbs)]);
      exists bs, d, chunks; split_and!; try done. exists (pending (vs_next (inner p'))). done.
Qed.

(** The files [cs] have been searched up to some point: the whole of the first
    ones, and a first part of the next. *)
Definition searched_in_part (cs ds : list bytes) (chunkss : list (list bytes)) : Prop :=
  Forall2 prefix ds (take (length ds) cs) ∧ Forall2 chunking ds chunkss.

Definition all_text (chunkss : list (list bytes)) : bytes := concat (text st <$> chunkss).

Lemma all_text_length K cs chunkss :
  Forall (λ c, rate st c K) cs → searched_in_part cs cs chunkss →
  (length (all_text chunkss) ≤ K * length (concat cs))%nat.
Proof.
  intros HK [_ Hch]. unfold all_text. induction Hch as [|c chunks cs chunkss Hc _ IH];
    [simpl; lia|].
  rewrite fmap_cons. cbn [concat].
  apply Forall_cons in HK as [HKc HK]. rewrite !length_app, Nat.mul_add_distr_l.
  pose proof (text_length st c K chunks c HKc Hc (reflexivity _)). specialize (IH HK). lia.
Qed.

Lemma search_file_law (p : pipeline) fd c pos K (w : W) :
  vs_state (inner p) = st → is_file fd c pos (view_of w) → rate st c K →
  lenZ c < size_max → (length c < fuel)%nat → (length (held p) + K * length c < fuel)%nat →
  Z.of_nat (length (held p) + K * length c) < size_max →
  wp (search_file p fd) w (λ o w',
    ∃ bs d chunks, d `prefix_of` c ∧ chunking d chunks ∧
      match o with
      | Done p' =>
          d = c ∧ vs_state (inner p') = st ∧ bs ++ held p' = held p ++ text st chunks ∧
          view_of w' = set_fds (delete fd) (emit bs (view_of w))
      | Throws _ => bs `prefix_of` held p ++ text st chunks ∧ view_of w' = emit bs (view_of w)
      | _ => False
      end).
Proof.
  intros Hst Hf HK Hc Hfu Hfu2 Hsz. unfold search_file. apply wp_bind, wp_execute.
  eapply wp_mono; [by apply (search_source_law p fd c pos K w)|].
  intros [[p' [k|e]]| | | |] w1; simpl; try done;
    intros (bs & d & chunks & Hd & Hch & Hv & Hr).
  - destruct Hr as (-> & Hst' & Hbs). apply wp_bind_returns.
    eapply wp_returns_mono; [apply close_law|]. intros z w2 Hv2. apply wp_ret.
    exists bs, c, chunks. by rewrite Hv2, Hv.
  - exists bs, d, chunks. done.
Qed.

Lemma search_files_law (fds : list Z) (cs : list bytes) K (p : pipeline) (w : W) :
  vs_state (inner p) = st → NoDup fds →
  Forall2 (λ fd c, is_file fd c 0 (view_of w)) fds cs → Forall (λ c, rate st c K) cs →
  lenZ (concat cs) < size_max → (length (concat cs) < fuel)%nat →
  (length (held p) + K * length (concat cs) < fuel)%nat →
  Z.of_nat (length (held p) + K * length (concat cs)) < size_max →
  wp (search_files p fds) w (λ o w',
    ∃ bs ds chunkss, searched_in_part cs ds chunkss ∧
      v_out (view_of w') = v_out (view_of w) ++ bs ∧
      match o with
      | Done p' =>
          ds = cs ∧ vs_state (inner p') = st ∧ bs ++ held p' = held p ++ all_text chunkss
      | Throws _ => bs `prefix_of` held p ++ all_text chunkss
      | _ => False
      end).
Proof.
  intros Hst Hnd Hfiles. revert p w Hst Hnd Hfiles. revert cs.
  induction fds as [|fd fds IH]; intros cs p w Hst Hnd Hfiles HK Hc Hfu Hfu2 Hsz.
  { apply Forall2_nil_inv_l in Hfiles as ->. apply wp_ret. exists [], [], [].
    split; [done|]. by rewrite !app_nil_r. }
  apply Forall2_cons_inv_l in Hfiles as (c & cs' & Hf & Hfiles & ->).
  apply NoDup_cons in Hnd as [Hfd Hnd]. apply Forall_cons in HK as [HKc HK]. simpl in *.
  rewrite lenZ_app in Hc. rewrite length_app in *. rewrite Nat.mul_add_distr_l in *.
  pose proof (lenZ_nonneg c). pose proof (lenZ_nonneg (concat cs')).
  apply wp_bind. eapply wp_mono; [apply (search_file_law p fd c 0 K w); (done || lia)|].
  intros [p'|e| | |] w1 (bs & d & chunks & Hd & Hch & Ho); simpl; try done.
  2: { destruct Ho as [Hbs Hv]. exists bs, [d], [chunks]. split_and!.
       - split; (constructor; [done|]); simpl; constructor.
       - by rewrite Hv.
       - unfold all_text. simpl. by rewrite app_nil_r. }
  destruct Ho as (-> & Hst' & Hbs & Hv).
  pose proof (text_length st c K chunks c HKc Hch (reflexivity _)) as Hlen.
  pose proof (f_equal length Hbs) as Hbl. rewrite !length_app in Hbl.
  eapply wp_mono.
  { apply (IH cs' p' w1); try done; try lia.
    rewrite Forall2_lookup in *. intros i. specialize (Hfiles i).
    destruct (fds !! i) as [fd'|] eqn:Hi; inversion Hfiles as [? c' Hf'|]; simplify_eq; constructor.
    destruct Hf' as (Hlk & ? & ?). split_and!; [|done|done]. rewrite Hv. simpl.
    rewrite lookup_delete_ne; [done|]. intros ->. apply Hfd. by eapply list_elem_of_lookup_2. }
  intros o w2 (bs2 & ds & chunkss & [Hds Hchs] & Hout & Ho).
  exists (bs ++ bs2), (c :: ds), (chunks :: chunkss). split_and!.
  - split; by constructor.
  - by rewrite Hout, Hv, app_assoc.
  - destruct o; try done.
    + destruct Ho as (-> & ? & Hbs2). split_and!; [done|done|]. unfold all_text in *. simpl.
      by rewrite <- app_assoc, Hbs2, !app_assoc, Hbs.
    + unfold all_text in *. simpl. rewrite !app_assoc, <- Hbs, <- app_assoc. by apply prefix_app.
Qed.

End one_worker.
End search_laws.

(** C13. What a worker of [grep] prints. It searches its files one after the
    other through one pipeline and flushes the batch at the end: with enough
    rounds this returns or throws. If all goes well the standard output has
    received, file by file and in order, one line for each match the engine
    reports in each chunk of the file; the chunks of a file are non-empty, at
    most 10 MiB long and make up the file, and each is searched on its own.
    After an error, a first part of such an output has been received. *)
Theorem grep_worker_prints_what_it_finds {W} `{LawfulKernel W} {F : Fuel} {DB Scratch}
    `{LawfulHyperscan DB Scratch} (st : VectorScanState DB Scratch) (fds : list Z)
    (cs : list bytes) (K : nat) (w : W) :
  (∀ d, (hs_scan (vs_db st) d (vs_scratch st)).1 = HS_SUCCESS) →
  NoDup fds → Forall2 (λ fd c, is_file fd c 0 (view_of w)) fds cs →
  Forall (λ c, rate st c K) cs → lenZ (concat cs) < size_max → (length (concat cs) < fuel)%nat →
  (K * length (concat cs) < fuel)%nat → Z.of_nat (K * length (concat cs)) < size_max →
  let p := ReadFile.mk (mkVectorScanNode (BatchNode_new Write.mkWriteNode) st) in
  wp (search_and_flush p fds) w (λ o w',
    ∃ bs ds chunkss, searched_in_part cs ds chunkss ∧
      v_out (view_of w') = v_out (view_of w) ++ bs ∧
      match o with
      | Done (Value _) => ds = cs ∧ bs = all_text st chunkss
      | Done (Unexpected _) | Throws _ => bs `prefix_of` all_text st chunkss
      | _ => False
      end).
Proof.
  intros Hok Hnd Hfiles HK Hc Hfu Hfu2 Hsz p. unfold search_and_flush. apply wp_bind.
  eapply wp_mono; [by apply (search_files_law st Hok fds cs K p w)|].
  intros [p'|e| | |] w1 (bs & ds & chunkss & Hpart & Hout & Ho); simpl; try done.
  2: { by exists bs, ds, chunkss. }
  destruct Ho as (-> & _ & Hbs). apply wp_bind_returns. unfold held, inner in Hbs.
  pose proof (f_equal length Hbs) as Hbl. rewrite length_app in Hbl. simpl in Hbl.
  assert (length (all_text st chunkss) ≤ K * length (concat cs))%nat as Hlen.
  { by apply all_text_length. }
  eapply wp_returns_mono; [apply flush_law|].
  { unfold pending, BatchNode_pending, Write.WriteNode_pending in Hbl. simpl in Hbl.
    unfold enough, pending, Write.WriteNode_pending, lenZ. simpl. lia. }
  intros [n' [k|e]] w2 (bs2 & Hv2 & Hbs2); apply wp_ret; exists (bs ++ bs2), cs, chunkss;
    (split; [done|]); (split; [by rewrite Hv2, v_out_emit, Hout, app_assoc|]).
  - destruct Hbs2 as [_ Hbs2]. split; [done|]. rewrite <- Hbs2 in Hbs.
    unfold pending, Write.WriteNode_pending in Hbs. rewrite app_nil_r in Hbs. exact Hbs.
  - simpl in Hbs. rewrite <- Hbs. by apply prefix_app.
Qed.

(** [rate] is decided by looking at every piece of the file. *)
Definition rate_check {DB Scratch} `{Hyperscan DB Scratch} (st : VectorScanState DB Scratch)
    (c : bytes) (K : nat) : bool :=
  forallb (λ i, forallb (λ j,
    let d := take j (drop i c) in (length (text st [d]) <=? K * length d)%nat || bool_decide (d = []))
    (seq 0 (S (length c)))) (seq 0 (S (length c))).

Lemma rate_check_sound {DB Scratch} `{Hyperscan DB Scratch} (st : VectorScanState DB Scratch) c K :
  rate_check st c K = true → rate st c K.
Proof.
  intros Hcheck a d b Hc Hd. unfold rate_check in Hcheck. rewrite forallb_forall in Hcheck.
  assert (length c = length a + (length d + length b))%nat as Hlen
    by by rewrite Hc, !length_app.
  specialize (Hcheck (length a)). rewrite forallb_forall in Hcheck.
  specialize (Hcheck ltac:(apply in_seq; lia) (length d) ltac:(apply in_seq; lia)).
  simpl in Hcheck. rewrite Hc, drop_app_length, take_app_length in Hcheck.
  apply orb_true_iff in Hcheck as [Hle|Hnil].
  - by apply Nat.leb_le in Hle.
  - by apply bool_decide_eq_true in Hnil.
Qed.

(** Witness: two files, of which the first is read in two pieces. *)
Lemma grep_worker_prints_what_it_finds_witness :
  let F := 200%nat : Fuel in
  let a := str "cat" ++ [nl] ++ str "dog" ++ [nl] in
  let b := str "bat" in
  let w := Sim (View [] 8192 {[ 3 := OFile a 0; 4 := OFile b 0 ]} ∅ ∅) [6] 0 0 in
  let st := {| vs_db := Some "a"%byte; vs_scratch := Some () |} in
  let p := ReadFile.mk (mkVectorScanNode (BatchNode_new Write.mkWriteNode) st) in
  ∃ w' chunkss, search_and_flush p [3; 4] w = (Done (Value 8), w') ∧
    Forall2 chunking [a; b] chunkss ∧ v_out (view_of w') = all_text st chunkss ∧
    v_out (view_of w') = str "cat" ++ [nl] ++ str "bat" ++ [nl].
Proof.
  intros F a b w st p.
  pose proof (grep_worker_prints_what_it_finds (F := F) st [3; 4] [a; b] 12 w) as Hg.
  destruct (search_and_flush p [3; 4] w) as [o w'] eqn:Hrun.
  assert (o = Done (Value 8) ∧ v_out (view_of w') = str "cat" ++ [nl] ++ str "bat" ++ [nl])
    as [-> Hv] by (vm_compute in Hrun; injection Hrun as <- <-; split; reflexivity).
  unshelve epose proof (Hg _ _ _ _ _ _ _ _) as Hr.
  - intros d. reflexivity.
  - apply (bool_decide_unpack _). vm_compute. exact I.
  - repeat constructor; vm_compute; try reflexivity; congruence.
  - repeat constructor; apply rate_check_sound; vm_compute; reflexivity.
  - vm_compute. reflexivity.
  - unfold fuel, F. vm_compute. lia.
  - unfold fuel, F. vm_compute. lia.
  - vm_compute. reflexivity.
  - unfold wp in Hr. fold p in Hr. rewrite Hrun in Hr.
    destruct Hr as (bs & ds & chunkss & [_ Hch] & Hout & -> & ->).
    exists w', chunkss. split_and!; [reflexivity|exact Hch|exact Hout|exact Hv].
Defined.

(** C21. The loop over a buffer of [getdents64] does to each record, in order
    and once, what the body of the loop does to it, and reads nothing but the
    records: walking over the records the kernel has encoded is the same as
    visiting the decoded entries one after the other. *)
Theorem grep_scans_every_record {W} `{Kernel W} `{DirKernel W} {F : Fuel} {DB Scratch}
    `{Hyperscan DB Scratch} (dir_fd : Z) (es : list (linux_dirent64 * bytes))
    (p : ReadFile.ReadFileNode (VectorScanNode (BatchNode Write.WriteNode) DB Scratch)) (w : W) :
  Forall (λ '(e, padding), well_formed e padding) es → (length es < fuel)%nat →
  scan_batch dir_fd (encode es) p w = visit_all (visit_entry dir_fd) es.*1 ([], p) w.
Proof. apply walk_dirents_encoded. Qed.

(** A system without directories, for the runs below. *)
#[local] Instance sim_dirs : DirKernel sim := {|
  sys_getdents64 _ _ := mret (0, []);
  println_cerr _ := mret ()
|}.

Definition sample_records : list (linux_dirent64 * bytes) :=
  [(Dirent 1 24 24 DT_DIR (str "."), [x00; x00; x00]);
   (Dirent 2 (-1) 24 DT_REG (str "a.c"), [x00])].

(** Witness: a directory with itself and a file that is searched. *)
Lemma grep_scans_every_record_witness :
  let F := 200%nat : Fuel in
  let w := Sim (View [] 8192 {[ 7 := ODir [[("a.c"%string, RegularFile true (str "cat"))]] [] ]} ∅ ∅)
             [] 0 0 in
  let p := ReadFile.mk (scan_for "a"%byte (BatchNode_new Write.mkWriteNode)) in
  ∃ q w', scan_batch 7 (encode sample_records) p w = (Done ([], q), w') ∧
          held q = str "cat" ++ [nl].
Proof.
  intros F w p.
  pose proof (grep_scans_every_record (F := F) 7 sample_records p w) as Hs.
  eexists _, _. split; [rewrite Hs|].
  - vm_compute. reflexivity.
  - repeat constructor; try (vm_compute; congruence).
    all: apply (bool_decide_unpack _); vm_compute; exact I.
  - unfold fuel, F. vm_compute. lia.
  - vm_compute. reflexivity.
Defined.
