(* ===== verification/GrepRun.v ===== *)
(** commands/grep.h as a whole, on a machine with one hardware thread: [run]
    starts no other thread, and the thread that called it empties the queue.

    Grep.v has what a worker does with one directory. Here the shared members
    of [Processor] are a part of the world, so that a worker can publish the
    directories it finds, and the result is about the whole command: what is
    printed for a tree of directories. Processor.v has any number of threads. *)

From S2P Require Import Prelude Kernel SimKernel Nodes AutoRelease Pipeline Sinks Sources Batch.
From S2P Require Import Lines Regex Dirents Grep.

#[local] Arguments view_of _ _ _ _ : simpl never.

(** ** The members of [Processor] *)

Record shared (W : Type) := Shared {
  os : W;
  p_queue : list Z;
  p_running : bool;
  p_pending : Z
}.
Arguments Shared {_} _ _ _ _.
Arguments os {_} _.
Arguments p_queue {_} _.
Arguments p_running {_} _.
Arguments p_pending {_} _.

Section shared.
Context {W : Type}.

Definition set_os (w : W) (s : shared W) : shared W :=
  Shared w (p_queue s) (p_running s) (p_pending s).

(** A system call leaves the members alone. *)
Definition in_os {A} (m : M W A) : M (shared W) A := λ s,
  ((m (os s)).1, set_os (m (os s)).2 s).

Lemma wp_in_os {A} (m : M W A) (s : shared W) (Q : outcome A → shared W → Prop) :
  wp m (os s) (λ o w, Q o (set_os w s)) → wp (in_os m) s Q.
Proof. done. Qed.

End shared.

(** A law of the operating system is a law of the extended world. *)
Ltac os_law H :=
  intros; apply wp_in_os; eapply wp_mono; [by eapply H|];
  let a := fresh in let Ha := fresh in intros [a| | | |] ? Ha; try exact Ha;
  repeat match type of a with (_ * _)%type => destruct a as [? a] end; exact Ha.

#[global] Instance shared_kernel {W} `{Kernel W} : Kernel (shared W) := {|
  sys_write fd d := in_os (sys_write fd d);
  sys_pread fd count off := in_os (sys_pread fd count off);
  sys_splice i o len := in_os (sys_splice i o len);
  sys_copy_file_range i o len := in_os (sys_copy_file_range i o len);
  sys_sendfile o i off count := in_os (sys_sendfile o i off count);
  sys_pipe := in_os sys_pipe;
  sys_setpipe_sz fd sz := in_os (sys_setpipe_sz fd sz);
  sys_openat dir path flags := in_os (sys_openat dir path flags);
  sys_close fd := in_os (sys_close fd);
  sys_statx fd := in_os (sys_statx fd);
  sys_fadvise fd off len advice := in_os (sys_fadvise fd off len advice);
  sys_isatty fd := in_os (sys_isatty fd);
  sys_mmap size fd := in_os (sys_mmap size fd);
  sys_munmap ptr size := in_os (sys_munmap ptr size);
  std_cout d := in_os (std_cout d);
  errno s := errno (os s);
  strerror := strerror (W := W)
|}.

#[global] Instance shared_dirs {W} `{DirKernel W} : DirKernel (shared W) := {|
  sys_getdents64 fd size := in_os (sys_getdents64 fd size);
  println_cerr msg := in_os (println_cerr msg)
|}.

#[global] Instance shared_lawful {W} `{LawfulKernel W} : LawfulKernel (shared W).
Proof.
  refine (Build_LawfulKernel _ _ (λ s, view_of (os s)) _ _ _ _ _ _ _ _ _ _ _ _ _ _ _ _ _ _ _);
    [ os_law write_law | os_law pread_law | os_law splice_file_out_law
    | os_law splice_file_pipe_law | os_law splice_pipe_out_law | os_law splice_empty_pipe_law
    | os_law copy_file_range_law | os_law sendfile_law | os_law pipe_law | os_law setpipe_sz_law
    | os_law openat_law | os_law close_law | os_law statx_file_law | os_law statx_out_law
    | os_law fadvise_law | os_law isatty_law | os_law mmap_law | os_law munmap_law
    | os_law cout_law ].
Defined.

(** ** [run] and [worker] in one thread *)
Section run.
Context {W : Type} `{Kernel W} `{DirKernel W} {F : Fuel}.
Context {DB Scratch : Type} `{Hyperscan DB Scratch}.

Abbreviation pipeline :=
  (ReadFile.ReadFileNode (VectorScanNode (BatchNode Write.WriteNode) DB Scratch)).

(** [pending_.fetch_add(...)], then [queue_.append_range(...)] under the lock;
    there is nobody to notify. *)
Definition publish (local_dir_queue : list Z) : M (shared W) unit := λ s,
  (Done (), Shared (os s) (p_queue s ++ local_dir_queue) (p_running s)
              (p_pending s +ₛ lenZ local_dir_queue)).

(** [cv_.wait(...)], [if (!running_) break;], [queue_.front()], [pop_front()]:
    [None] is the [break]. With nobody to change the queue, a wait whose
    predicate is false never ends. *)
Definition take_directory : M (shared W) (option Z) := λ s,
  match p_queue s with
  | [] => if p_running s then (Blocked, s) else (Done None, s)
  | dir_fd :: rest =>
      if p_running s
      then (Done (Some dir_fd), Shared (os s) rest (p_running s) (p_pending s))
      else (Done None, s)
  end.

(** [if (pending_.fetch_sub(1) == 1) running_ = false;] *)
Definition finish_directory : M (shared W) unit := λ s,
  (Done (), Shared (os s) (p_queue s) (if p_pending s =? 1 then false else p_running s)
              (p_pending s -ₛ 1)).

(** One round of [while (running_)]. *)
Definition worker_round (p : pipeline) : M (shared W) (pipeline + pipeline) := λ s,
  (if negb (p_running s) then mret (inr p)
   else
     taken ← take_directory;
     match taken with
     | None => mret (inr p)
     | Some dir_fd =>
         p' ← read_directory publish dir_fd p;
         _ ← finish_directory;
         mret (inl p')
     end) s.

(** [worker(regex)]; what the last flush returns is dropped by the code, and is
    the result here. *)
Definition worker (regex : string) : M (shared W) (expected Z) :=
  p ← make_pipeline regex;
  p' ← loop fuel worker_round p;
  '(_, flush) ← BatchNode_flush (vs_next (ReadFile.next p'));
  mret flush.

(** [run(location, regex)], with the members as [Processor{}] leaves them *)
Definition run (location regex : string) : M W (expected Z) := λ w,
  let '(o, s) :=
    (start_dir ← sys_openat AT_FDCWD location open_dir_flags;
     if start_dir <? 0 then throw ("failed to open initial directory: " +:+ location)
     else
       _ ← (λ s, (Done (), Shared (os s) (p_queue s ++ [start_dir]) (p_running s) 1));
       worker regex) (Shared w [] true 0) in
  (o, os s).

End run.

(** ** What the system promises about directories *)

Section directories.

(** The record of an entry: the entries for the directory itself and its parent
    are directories too, and are not part of the tree. *)
Definition is_dot (name : string) : bool := String.eqb name "." || String.eqb name "..".

Definition type_ok (name : string) (o : object) (t : Z) : Prop :=
  match o with
  | RegularFile _ _ => t = DT_REG
  | Directory _ _ => t = DT_DIR ∧ is_dot name = false
  | Special => t ≠ DT_REG ∧ (t = DT_DIR → is_dot name = true)
  end.

Definition record_of (e : string * object) (r : linux_dirent64 * bytes) : Prop :=
  well_formed r.1 r.2 ∧ String.string_of_list_byte (d_name r.1) = e.1 ∧
  type_ok e.1 e.2 (d_type r.1).

(** A name the system can have: no terminator in it, and at most [NAME_MAX]
    bytes. *)
Definition valid_entry (e : string * object) : Prop :=
  x00 ∉ str e.1 ∧ (length (str e.1) ≤ 255)%nat ∧
  match e.2 with Directory _ _ => is_dot e.1 = false | _ => True end.

(** [getdents64] returns one batch after the other, then 0 or an error; names
    are opened below an open directory, if that is allowed. *)
Class LawfulDirs (W : Type) `{LawfulKernel W} `{DirKernel W} := {
  getdents_law fd all rest (w : W) :
    v_fds (view_of w) !! fd = Some (ODir all rest) → Forall valid_entry (concat rest) →
    wp (sys_getdents64 fd getdent_size) w (returns (λ '(n, buffer) w',
      match rest with
      | [] => n ≤ 0 ∧ view_of w' = view_of w
      | batch :: rest =>
          ∃ rs, Forall2 record_of batch rs ∧ n = lenZ (encode rs) ∧
                takeZ n buffer = encode rs ∧
                view_of w' = set_fds (insert fd (ODir all rest)) (view_of w)
      end));
  open_entry_law fd all rest name o flags (w : W) :
    v_fds (view_of w) !! fd = Some (ODir all rest) →
    0 ≤ fd → (name, o) ∈ concat all → NoDup (concat all).*1 → o ≠ Special →
    wp (sys_openat fd name flags) w (returns (λ n w',
      match open_object o with
      | None => n < 0 ∧ view_of w' = view_of w
      | Some obj =>
          0 ≤ n ∧ n ≠ STDOUT_FILENO ∧ v_fds (view_of w) !! n = None ∧
          view_of w' = set_fds (insert n obj) (view_of w)
      end));
  println_law msg (w : W) :
    wp (println_cerr msg) w (returns (λ _ w', view_of w' = view_of w));
  (** The directory a path names. *)
  dir_at : W → string → option directory;
  open_dir_law location d flags (w : W) :
    dir_at w location = Some d →
    wp (sys_openat AT_FDCWD location flags) w (returns (λ n w',
      (n < 0 ∧ view_of w' = view_of w) ∨
      (0 ≤ n ∧ n ≠ STDOUT_FILENO ∧ v_fds (view_of w) !! n = None ∧
       view_of w' = set_fds (insert n (ODir d d)) (view_of w))))
}.

End directories.

#[global] Instance shared_lawful_dirs {W} `{LawfulDirs W} : LawfulDirs (shared W).
Proof.
  refine (Build_LawfulDirs _ _ _ _ _ _ _ (λ s, dir_at (os s)) _);
    [os_law getdents_law|os_law open_entry_law|os_law println_law|os_law open_dir_law].
Defined.

(** ** Trees *)

(** Entries have different and possible names, and a batch is not empty. *)
Inductive wf_object : object → Prop :=
  | wf_file opens c : wf_object (RegularFile opens c)
  | wf_special : wf_object Special
  | wf_directory opens d :
      NoDup (concat d).*1 → Forall valid_entry (concat d) → Forall (λ b, b ≠ []) d →
      Forall (λ e, wf_object e.2) (concat d) → wf_object (Directory opens d).

(** The files and the directories among some entries that can be opened. *)
Definition files_in (es : list (string * object)) : list bytes :=
  omap (λ e, match e.2 with RegularFile true c => Some c | _ => None end) es.

Definition dirs_in (es : list (string * object)) : list directory :=
  omap (λ e, match e.2 with Directory true d => Some d | _ => None end) es.

(** The number of directories, and the size of an object: one for each
    directory, batch and entry. *)
Fixpoint dir_count (o : object) : nat :=
  match o with
  | Directory true d => S (sum_list_with (sum_list_with (λ e, dir_count e.2)) d)
  | _ => O
  end.

Fixpoint tree_size (o : object) : nat :=
  match o with
  | Directory true d => S (sum_list_with (λ b, S (sum_list_with (λ e, S (tree_size e.2)) b)) d)
  | _ => O
  end.

Definition dirs_count (q : list directory) : nat :=
  sum_list_with (λ d, dir_count (Directory true d)) q.

Definition dirs_size (q : list directory) : nat :=
  sum_list_with (λ d, tree_size (Directory true d)) q.

(** The contents of the files in the order in which the queue is worked off. *)
Fixpoint walk (n : nat) (q : list directory) : list bytes :=
  match n, q with
  | S n, d :: q => files_in (concat d) ++ walk n (q ++ dirs_in (concat d))
  | _, _ => []
  end.

Definition walk_all (q : list directory) : list bytes := walk (dirs_count q) q.

Lemma dirs_count_in es :
  dirs_count (dirs_in es) = sum_list_with (λ e, dir_count e.2) es.
Proof.
  unfold dirs_count, dirs_in. induction es as [|[name [[]| []|]] es IH]; simpl in *; auto.
Qed.

Lemma dirs_size_in es :
  (dirs_size (dirs_in es) ≤ sum_list_with (λ e, S (tree_size e.2)) es)%nat.
Proof.
  unfold dirs_size, dirs_in.
  induction es as [|[name [[]| []|]] es IH]; cbn -[tree_size] in *; lia.
Qed.

Lemma sum_concat {A} (f : A → nat) (ls : list (list A)) :
  sum_list_with f (concat ls) = sum_list_with (sum_list_with f) ls.
Proof. induction ls as [|l ls IH]; simpl; [done|]. by rewrite sum_list_with_app, IH. Qed.

Lemma dir_count_size : ∀ o, (dir_count o ≤ tree_size o)%nat.
Proof.
  fix IH 1. intros [|[] d|]; cbn [dir_count tree_size]; try lia. apply le_n_S.
  induction d as [|b d IHd]; cbn [sum_list_with]; [lia|]. apply Nat.add_le_mono; [|exact IHd].
  apply le_S. induction b as [|[name o] b IHb]; cbn [sum_list_with]; [lia|].
  apply Nat.add_le_mono; [apply le_S, IH|exact IHb].
Qed.

(** The files of a tree, whatever the order. *)
Fixpoint object_files (o : object) : list bytes :=
  match o with
  | RegularFile true c => [c]
  | Directory true d => concat (map (λ b, concat (map (λ e, object_files e.2) b)) d)
  | _ => []
  end.

Definition all_files (q : list directory) : list bytes :=
  concat (map (λ d, object_files (Directory true d)) q).

Lemma object_files_in es :
  concat (map (λ e, object_files e.2) es) ≡ₚ files_in es ++ all_files (dirs_in es).
Proof.
  unfold all_files, files_in, dirs_in. induction es as [|[name [[] c|[] d|]] es IH]; cbn -[object_files].
  - done.
  - by rewrite IH.
  - exact IH.
  - rewrite IH. solve_Permutation.
  - exact IH.
  - exact IH.
Qed.

Lemma object_files_dir d :
  object_files (Directory true d) ≡ₚ files_in (concat d) ++ all_files (dirs_in (concat d)).
Proof.
  rewrite <- object_files_in. cbn [object_files]. induction d as [|b d IH]; [done|].
  cbn [map concat]. rewrite map_app, concat_app. by rewrite IH.
Qed.

(** The queue after a directory. *)
Lemma dirs_count_next d q :
  dirs_count (d :: q) = S (dirs_count (q ++ dirs_in (concat d))).
Proof.
  unfold dirs_count at 2. rewrite sum_list_with_app. fold (dirs_count (dirs_in (concat d))).
  rewrite dirs_count_in, sum_concat. unfold dirs_count. simpl. lia.
Qed.

Lemma walk_all_next d q :
  walk_all (d :: q) = files_in (concat d) ++ walk_all (q ++ dirs_in (concat d)).
Proof. unfold walk_all. by rewrite dirs_count_next. Qed.

Lemma tree_size_dir d :
  tree_size (Directory true d) =
    S (length d + sum_list_with (λ e, S (tree_size e.2)) (concat d)).
Proof.
  rewrite sum_concat. cbn [tree_size]. f_equal.
  induction d as [|b d IH]; [done|]. cbn [sum_list_with length]. rewrite IH. lia.
Qed.

(** The walk misses nothing. *)
Lemma walk_all_files q : walk_all q ≡ₚ all_files q.
Proof.
  remember (dirs_count q) as n eqn:Hn. revert q Hn.
  induction n as [|n IH]; intros [|d q] Hn; try done.
  rewrite dirs_count_next in Hn. injection Hn as Hn. rewrite walk_all_next, (IH _ Hn).
  unfold all_files. rewrite map_app, concat_app. cbn [map concat]. rewrite object_files_dir.
  unfold all_files. solve_Permutation.
Qed.

Lemma dirs_size_next d q :
  (length d + dirs_size (q ++ dirs_in (concat d)) < dirs_size (d :: q))%nat.
Proof.
  pose proof (dirs_size_in (concat d)) as Hd. unfold dirs_size in *.
  rewrite sum_list_with_app. cbn [sum_list_with]. rewrite tree_size_dir. lia.
Qed.

Lemma batch_size b d : b ∈ d → (length b < tree_size (Directory true d))%nat.
Proof.
  intros Hb. rewrite tree_size_dir.
  assert (length (concat d) ≤ sum_list_with (λ e : string * object, S (tree_size e.2)) (concat d))%nat.
  { induction (concat d) as [|e l IH]; cbn [sum_list_with length]; lia. }
  apply list_elem_of_split in Hb as (l & k & ->). rewrite concat_app in *. cbn [concat] in *.
  rewrite !length_app in *. lia.
Qed.

(** ** Open directories *)

Definition dirs_map (L : list (Z * directory)) (m : gmap Z fdobj) : gmap Z fdobj :=
  foldl (λ m e, <[e.1 := ODir e.2 e.2]> m) m L.

Definition unused (L : list (Z * directory)) (m : gmap Z fdobj) : Prop :=
  NoDup L.*1 ∧ ∀ fd, fd ∈ L.*1 → 0 ≤ fd ∧ m !! fd = None.

Lemma dirs_map_app L L' m : dirs_map (L ++ L') m = dirs_map L' (dirs_map L m).
Proof. apply foldl_app. Qed.

Lemma dirs_map_lookup L m fd : fd ∉ L.*1 → dirs_map L m !! fd = m !! fd.
Proof.
  revert m. induction L as [|[n d] L IH]; intros m Hfd; simpl in *; [done|].
  rewrite not_elem_of_cons in Hfd. destruct Hfd as [Hne Hfd].
  rewrite IH by done. by rewrite lookup_insert_ne by congruence.
Qed.

Lemma dirs_map_insert L m fd o :
  fd ∉ L.*1 → dirs_map L (<[fd := o]> m) = <[fd := o]> (dirs_map L m).
Proof.
  revert m. induction L as [|[n d] L IH]; intros m Hfd; simpl in *; [done|].
  rewrite not_elem_of_cons in Hfd. destruct Hfd as [Hne Hfd].
  rewrite insert_insert_ne by congruence. by rewrite IH.
Qed.

Lemma unused_app L L' m :
  unused L m → unused L' (dirs_map L m) → (∀ fd, fd ∈ L.*1 → fd ∉ L'.*1) → unused (L ++ L') m.
Proof.
  intros [HL Hm] [HL' Hm'] Hdis. split.
  - rewrite fmap_app. apply NoDup_app. auto.
  - intros fd. rewrite fmap_app, elem_of_app. intros [?|Hfd]; [auto|].
    rewrite <- (dirs_map_lookup L); [auto|]. intros ?. by eapply Hdis.
Qed.

Lemma dirs_map_used L m fd : fd ∈ L.*1 → dirs_map L m !! fd ≠ None.
Proof.
  revert m. induction L as [|[n d] L IH] using rev_ind; intros m Hfd; simpl in *; [set_solver|].
  rewrite dirs_map_app. simpl. rewrite fmap_app, elem_of_app in Hfd.
  destruct (decide (fd = n)) as [->|Hne]; [by rewrite lookup_insert_eq|].
  rewrite lookup_insert_ne by done. apply IH. destruct Hfd as [?|?]; [done|set_solver].
Qed.

Lemma unused_insert L m fd o : is_Some (m !! fd) → unused L m ↔ unused L (<[fd := o]> m).
Proof.
  intros [o' Hfd]. unfold unused. split; intros [Hnd Hm]; (split; [done|]); intros x Hx;
    destruct (Hm x Hx) as [Hpos Hnone]; (split; [done|]).
  - rewrite lookup_insert_ne; [done|]. intros ->. congruence.
  - rewrite lookup_insert in Hnone. by case_decide.
Qed.

Lemma unused_notin L m fd : unused L m → is_Some (m !! fd) → fd ∉ L.*1.
Proof. intros [_ Hm] [o Hfd] Hin. apply Hm in Hin as [_ Hin]. congruence. Qed.

Lemma dirs_map_delete L m fd : fd ∉ L.*1 → dirs_map L (delete fd m) = delete fd (dirs_map L m).
Proof.
  revert m. induction L as [|[n d] L IH]; intros m Hfd; simpl in *; [done|].
  rewrite not_elem_of_cons in Hfd. destruct Hfd as [Hne Hfd].
  rewrite <- delete_insert_ne by congruence. by rewrite IH.
Qed.

(** Closing the first of some directories. *)
Lemma dirs_map_close fd d L m :
  unused ((fd, d) :: L) m → delete fd (dirs_map ((fd, d) :: L) m) = dirs_map L m.
Proof.
  intros [Hnd Hm]. simpl in *. apply NoDup_cons in Hnd as [Hfd _].
  rewrite <- dirs_map_delete, delete_insert_id; [done|apply (Hm fd); set_solver|done].
Qed.

(** ** What is printed on the way *)
Section progress.
Context {DB Scratch : Type} `{LawfulHyperscan DB Scratch}.
Context (st : VectorScanState DB Scratch) (K : nat) {F : Fuel}.

Abbreviation pipeline :=
  (ReadFile.ReadFileNode (VectorScanNode (BatchNode Write.WriteNode) DB Scratch)).

(** The files [cs] have gone through the pipeline, which printed [bs]. *)
Definition went (cs : list bytes) (p p' : pipeline) (bs : bytes) : Prop :=
  vs_state (inner p') = st ∧
  ∃ chunkss, Forall2 chunking cs chunkss ∧ bs ++ held p' = held p ++ all_text st chunkss.

(** The search of the files [cs] was broken off. *)
Definition broke_off (cs : list bytes) (p : pipeline) (v v' : view) : Prop :=
  ∃ bs ds chunkss, searched_in_part cs ds chunkss ∧ v_out v' = v_out v ++ bs ∧
                   bs `prefix_of` held p ++ all_text st chunkss.

(** There are rounds enough for the files [cs]. *)
Definition affordable (p : pipeline) (cs : list bytes) : Prop :=
  Forall (λ c, rate st c K) cs ∧ lenZ (concat cs) < size_max ∧
  (length (concat cs) < fuel)%nat ∧
  (length (held p) + K * length (concat cs) < fuel)%nat ∧
  Z.of_nat (length (held p) + K * length (concat cs)) < size_max.

Lemma all_text_app a b : all_text st (a ++ b) = all_text st a ++ all_text st b.
Proof. unfold all_text. by rewrite fmap_app, concat_app. Qed.

Lemma went_nil p : vs_state (inner p) = st → went [] p p [].
Proof. intros Hst. split; [done|]. exists []. split; [constructor|]. unfold all_text. simpl. by rewrite app_nil_r. Qed.

Lemma went_app cs cs' p p1 p2 bs bs' :
  went cs p p1 bs → went cs' p1 p2 bs' → went (cs ++ cs') p p2 (bs ++ bs').
Proof.
  intros [_ (ch & Hch & Hbs)] [Hst' (ch' & Hch' & Hbs')]. split; [done|]. exists (ch ++ ch').
  split; [by apply Forall2_app|].
  by rewrite <- (assoc_L (++)), Hbs', !(assoc_L (++)), Hbs, all_text_app, (assoc_L (++)).
Qed.

Lemma broke_off_app_l cs cs' p v v' : broke_off cs p v v' → broke_off (cs ++ cs') p v v'.
Proof.
  intros (bs & ds & ch & [Hds Hch] & Hv & Hbs). exists bs, ds, ch. split; [|done]. split; [|done].
  apply Forall2_length in Hds as Hlen. rewrite length_take in Hlen.
  by rewrite take_app_le by lia.
Qed.

Lemma Forall2_prefix_refl (cs : list bytes) : Forall2 prefix cs cs.
Proof. by induction cs; constructor. Qed.

Lemma broke_off_after cs cs' p p1 bs v v1 v' :
  went cs p p1 bs → v_out v1 = v_out v ++ bs → broke_off cs' p1 v1 v' →
  broke_off (cs ++ cs') p v v'.
Proof.
  intros [_ (ch & Hch & Hbs)] Hv (bs' & ds & ch' & [Hds Hch'] & Hv' & Hbs').
  exists (bs ++ bs'), (cs ++ ds), (ch ++ ch'). split; [split|split].
  - rewrite length_app, take_app_add. apply Forall2_app; [apply Forall2_prefix_refl|done].
  - by apply Forall2_app.
  - by rewrite Hv', Hv, (assoc_L (++)).
  - rewrite all_text_app, (assoc_L (++)), <- Hbs, <- (assoc_L (++)). by apply prefix_app.
Qed.

Lemma went_length cs p p' bs :
  Forall (λ c, rate st c K) cs → went cs p p' bs →
  (length bs + length (held p') ≤ length (held p) + K * length (concat cs))%nat.
Proof.
  intros HK [_ (ch & Hch & Hbs)]. apply (f_equal length) in Hbs. rewrite !length_app in Hbs.
  enough (length (all_text st ch) ≤ K * length (concat cs))%nat by lia.
  apply all_text_length; [done|]. split; [|done]. rewrite take_ge by lia. apply Forall2_prefix_refl.
Qed.

Lemma affordable_l p cs cs' : affordable p (cs ++ cs') → affordable p cs.
Proof.
  unfold affordable. rewrite concat_app, lenZ_app, length_app, Forall_app.
  intros ([? _] & ? & ? & ? & ?). pose proof (lenZ_nonneg (concat cs')).
  rewrite Nat.mul_add_distr_l in *. split_and!; [done|lia..].
Qed.

Lemma affordable_after p p' cs cs' bs :
  affordable p (cs ++ cs') → went cs p p' bs → affordable p' cs'.
Proof.
  unfold affordable. rewrite concat_app, lenZ_app, length_app, Forall_app.
  intros ([HK ?] & ? & ? & ? & ?) Hw. apply went_length in Hw; [|done].
  pose proof (lenZ_nonneg (concat cs)). rewrite Nat.mul_add_distr_l in *. split_and!; [done|lia..].
Qed.

End progress.

(** ** What a search leaves alone

    Nothing a search does changes the members of [Processor]. *)
Section keeps.
Context {W : Type}.

Definition keeps {A} (m : M (shared W) A) : Prop := ∀ s, (m s).2 = set_os (os (m s).2) s.

Lemma os_keeps_ret {A} (a : A) : keeps (mret a).
Proof. by intros []. Qed.

Lemma os_keeps_throw {A} e : keeps (throw (A := A) e).
Proof. by intros []. Qed.

Lemma os_keeps_undefined {A} : keeps (undefined (A := A)).
Proof. by intros []. Qed.

Lemma os_keeps_errno `{Kernel W} : keeps get_errno.
Proof. by intros []. Qed.

Lemma os_keeps_in_os {A} (m : M W A) : keeps (in_os m).
Proof. by intros []. Qed.

Lemma os_keeps_bind {A B} (m : M (shared W) A) (f : A → M (shared W) B) :
  keeps m → (∀ a, keeps (f a)) → keeps (m ≫= f).
Proof.
  intros Hm Hf s. unfold mbind, M_bind. specialize (Hm s).
  destruct (m s) as [[a| | | |] s1]; simpl in *; try done. by rewrite (Hf a s1), Hm.
Qed.

Lemma os_keeps_catching {A} (m : M (shared W) A) h :
  keeps m → (∀ e, keeps (h e)) → keeps (catching m h).
Proof.
  intros Hm Hh s. unfold catching. specialize (Hm s).
  destruct (m s) as [[a|e| | |] s1]; simpl in *; try done. by rewrite (Hh e s1), Hm.
Qed.

Lemma os_keeps_loop {S A} n (body : S → M (shared W) (S + A)) (x : S) :
  (∀ x, keeps (body x)) → keeps (loop n body x).
Proof.
  intros Hb. revert x. induction n as [|n IH]; intros x; [by intros []|].
  apply os_keeps_bind; [done|]. intros [x'|a]; [apply IH|apply os_keeps_ret].
Qed.

(** The frame rule. *)
Lemma wp_frame {A} (m : M (shared W) A) s (P Q : outcome A → shared W → Prop) :
  keeps m → wp m s P → (∀ o s', P o s' → s' = set_os (os s') s → Q o s') → wp m s Q.
Proof. intros Hk HP HQ. apply HQ; [exact HP|apply Hk]. Qed.

End keeps.

#[local] Hint Resolve os_keeps_ret os_keeps_throw os_keeps_undefined os_keeps_errno : keeps.
#[local] Hint Extern 9 (keeps _) => exact (os_keeps_in_os _) : keeps.

Ltac keeps :=
  repeat first [ solve [auto with keeps] | apply os_keeps_bind; [|intros ?] | apply os_keeps_loop; intros ?
               | apply os_keeps_catching; [|intros ?] | case_match ].

Section search_keeps.
Context {W : Type} `{Kernel W} `{DirKernel W} {F : Fuel}.
Context {DB Scratch : Type} `{Hyperscan DB Scratch}.

Lemma write_keeps (n : Write.WriteNode) data b : keeps (W := W) (call_line n data b).
Proof. unfold call_line, Write.WriteNode_line, Write.write_data, Write.write_round. keeps. Qed.

#[local] Hint Resolve write_keeps : keeps.

Lemma batch_keeps (n : BatchNode Write.WriteNode) data : keeps (W := W) (call_view n data).
Proof. unfold call_view, BatchNode_view. keeps. Qed.

#[local] Hint Resolve batch_keeps : keeps.

Lemma emit_matches_keeps (n : BatchNode Write.WriteNode) str ms count :
  keeps (W := W) (emit_matches n str ms count).
Proof.
  revert n. induction ms as [|m ms IH]; intros n; simpl; unfold match_line, sv_substr; keeps.
Qed.

#[local] Hint Resolve emit_matches_keeps : keeps.

Lemma vectorscan_keeps (n : VectorScanNode (BatchNode Write.WriteNode) DB Scratch) data :
  keeps (W := W) (call_span n data).
Proof. unfold call_span, VectorScanNode_span. keeps. Qed.

#[local] Hint Resolve vectorscan_keeps : keeps.

Lemma search_keeps (p : ReadFile.ReadFileNode (VectorScanNode (BatchNode Write.WriteNode) DB Scratch))
    fd : keeps (W := W) (search_file p fd).
Proof.
  unfold search_file, execute, call_source, ReadFile.ReadFileNode_source, ReadFile.read_round. keeps.
Qed.

#[local] Hint Resolve search_keeps : keeps.

Lemma scan_keeps dir_fd res_span
    (p : ReadFile.ReadFileNode (VectorScanNode (BatchNode Write.WriteNode) DB Scratch)) :
  keeps (W := W) (scan_batch dir_fd res_span p).
Proof. unfold scan_batch, walk_dirents, dirent_round, visit_entry. keeps. Qed.

End search_keeps.

(** ** Directories *)
Section visiting.
Context {W : Type} `{LawfulDirs W} {F : Fuel}.
Context {DB Scratch : Type} `{LawfulHyperscan DB Scratch}.
Context (st : VectorScanState DB Scratch) (K : nat).
Hypothesis scan_ok : ∀ d, (hs_scan (vs_db st) d (vs_scratch st)).1 = HS_SUCCESS.

Abbreviation pipeline :=
  (ReadFile.ReadFileNode (VectorScanNode (BatchNode Write.WriteNode) DB Scratch)).

(** Entries with the files [cs] and the directories [ds] have been visited: the
    files were searched, the directories are open and in the local queue. *)
Definition visited (cs : list bytes) (ds : list directory) (local : list Z) (p : pipeline) (w : W)
    (o : outcome (list Z * pipeline)) (w' : W) : Prop :=
  match o with
  | Done (local', p') =>
      ∃ new bs, went st cs p p' bs ∧ new.*2 = ds ∧ local' = local ++ new.*1 ∧
                unused new (v_fds (view_of w)) ∧
                view_of w' = emit bs (set_fds (dirs_map new) (view_of w))
  | Throws _ => broke_off st cs p (view_of w) (view_of w')
  | _ => False
  end.

Lemma visited_skip local p (w w' : W) :
  vs_state (inner p) = st → view_of w' = view_of w → visited [] [] local p w (Done (local, p)) w'.
Proof.
  intros Hst Hv. exists [], []. split_and!; [by apply went_nil|done|by rewrite app_nil_r| |].
  - split; [constructor|set_solver].
  - rewrite emit_nil, Hv. by destruct (view_of w).
Qed.

(** Opening a file, searching it and closing it again. *)
Lemma visit_file_law (p : pipeline) local c n (w w1 : W) :
  vs_state (inner p) = st → affordable st K p [c] → n ≠ STDOUT_FILENO →
  v_fds (view_of w) !! n = None → view_of w1 = set_fds (insert n (OFile c 0)) (view_of w) →
  wp (p' ← search_file p n; mret (local, p')) w1 (visited [c] [] local p w).
Proof.
  intros Hst (HK & Hsz & Hf1 & Hf2 & Hsz2) Hn Hfresh Hv1. apply Forall_cons in HK as [HK _].
  simpl in *. rewrite app_nil_r in *. apply wp_bind.
  eapply wp_mono; [apply (search_file_law st scan_ok p n c 0 K w1); try done|].
  { rewrite Hv1. split_and!; [simpl; apply lookup_insert_eq|lia|done]. }
  intros [p'|e| | |] w2 (bs & d & chunks & Hd & Hch & Ho); simpl; try done.
  - destruct Ho as (-> & Hst' & Hbs & Hv2). apply wp_ret. exists [], bs. split_and!.
    + split; [done|]. exists [chunks]. split; [by apply List.Forall2_cons, List.Forall2_nil|].
      unfold all_text. simpl. by rewrite app_nil_r.
    + done.
    + by rewrite app_nil_r.
    + split; [constructor|set_solver].
    + rewrite Hv2, Hv1. destruct (view_of w). unfold set_fds, emit. simpl in *.
      by rewrite delete_insert_id.
  - destruct Ho as [Hbs Hv2]. exists bs, [d], [chunks]. split_and!.
    + split; by apply List.Forall2_cons, List.Forall2_nil.
    + by rewrite Hv2, Hv1.
    + unfold all_text. simpl. by rewrite app_nil_r.
Qed.

Section one_directory.
Context (dir_fd : Z) (all : directory).
Hypothesis dir_fd_ok : 0 ≤ dir_fd.
Hypothesis names : NoDup (concat all).*1.

Definition reading (rest : directory) (w : W) : Prop :=
  v_fds (view_of w) !! dir_fd = Some (ODir all rest).

Lemma visit_entry_law e r local (p : pipeline) rest (w : W) :
  reading rest w → e ∈ concat all → record_of e r → vs_state (inner p) = st →
  affordable st K p (files_in [e]) →
  wp (visit_entry dir_fd r.1 (local, p)) w (visited (files_in [e]) (dirs_in [e]) local p w).
Proof.
  destruct e as [name o]. intros Hdir Hin (_ & Hname & Htype) Hst Haff. unfold visit_entry.
  simpl in Hname, Htype. rewrite Hname.
  destruct o as [opens c|opens d|]; simpl in Htype.
  - rewrite Htype. simpl. apply wp_bind_returns.
    eapply wp_returns_mono; [by apply (open_entry_law dir_fd all rest name (RegularFile opens c))|].
    intros n w1. simpl. destruct opens; simpl.
    + intros (Hn & Hn1 & Hfresh & Hv1). rewrite (proj2 (Z.ltb_ge n 0)) by lia.
      by apply (visit_file_law p local c n w w1).
    + intros [Hn Hv1]. rewrite (proj2 (Z.ltb_lt n 0)) by lia. apply wp_ret. by apply visited_skip.
  - destruct Htype as [-> Hdot]. unfold is_dot in Hdot. rewrite Hdot. simpl. apply wp_bind_returns.
    eapply wp_returns_mono; [by apply (open_entry_law dir_fd all rest name (Directory opens d))|].
    intros n w1. simpl. destruct opens; simpl.
    + intros (Hn & Hn1 & Hfresh & Hv1). rewrite (proj2 (Z.ltb_ge n 0)) by lia. apply wp_ret.
      exists [(n, d)], []. split_and!; [by apply went_nil|done|done| |].
      * split; [apply NoDup_singleton|]. intros fd. simpl. by intros ->%list_elem_of_singleton.
      * by rewrite emit_nil, Hv1.
    + intros [Hn Hv1]. rewrite (proj2 (Z.ltb_lt n 0)) by lia. apply wp_ret. by apply visited_skip.
  - destruct Htype as [Hreg Hdir0]. rewrite (proj2 (Z.eqb_neq (d_type r.1) DT_REG)) by done.
    destruct (Z.eqb_spec (d_type r.1) DT_DIR) as [Heq|].
    + specialize (Hdir0 Heq). unfold is_dot in Hdir0. rewrite Hdir0. apply wp_ret.
      by apply visited_skip.
    + apply wp_ret. by apply visited_skip.
Qed.

(** Visiting some entries and then more of them. *)
Lemma visited_app cs cs' ds ds' local p (w w1 : W) local1 p1 o w' :
  visited cs ds local p w (Done (local1, p1)) w1 → visited cs' ds' local1 p1 w1 o w' →
  visited (cs ++ cs') (ds ++ ds') local p w o w'.
Proof.
  intros (new & bs & Hw & Hds & -> & Hun & Hv1). destruct o as [[local2 p2]|e| | |]; simpl; try done.
  - intros (new' & bs' & Hw' & Hds' & -> & Hun' & Hv'). exists (new ++ new'), (bs ++ bs').
    rewrite Hv1 in Hun'. simpl in Hun'. split_and!.
    + by eapply went_app.
    + by rewrite fmap_app, Hds, Hds'.
    + by rewrite fmap_app, (assoc_L (++)).
    + apply unused_app; [done|done|]. intros fd Hfd Hfd'. apply Hun' in Hfd' as [_ Hfd'].
      by apply (dirs_map_used new (v_fds (view_of w)) fd).
    + rewrite Hv', Hv1. destruct (view_of w). unfold set_fds, emit. simpl.
      by rewrite dirs_map_app, (assoc_L (++)).
  - intros Hb. eapply broke_off_after; [done| |done]. by rewrite Hv1.
Qed.

Lemma files_in_app a b : files_in (a ++ b) = files_in a ++ files_in b.
Proof. apply omap_app. Qed.

Lemma dirs_in_app a b : dirs_in (a ++ b) = dirs_in a ++ dirs_in b.
Proof. apply omap_app. Qed.

(** The directory being read stays as it is when others are opened. *)
Lemma reading_visited rest cs ds local p (w : W) r w' :
  reading rest w → visited cs ds local p w (Done r) w' → reading rest w'.
Proof.
  destruct r as [local' p']. intros Hr (new & bs & _ & _ & _ & [_ Hun] & Hv). unfold reading in *.
  rewrite Hv. simpl. rewrite dirs_map_lookup; [done|]. intros Hin. apply Hun in Hin as [_ Hin]. congruence.
Qed.

Lemma visit_all_law es rs local (p : pipeline) rest (w : W) :
  reading rest w → (∀ e, e ∈ es → e ∈ concat all) → Forall2 record_of es rs →
  vs_state (inner p) = st → affordable st K p (files_in es) →
  wp (visit_all (visit_entry dir_fd) rs.*1 (local, p)) w
    (visited (files_in es) (dirs_in es) local p w).
Proof.
  intros Hr Hin Hrs. revert local p w Hr. induction Hrs as [|e r es rs Her Hrs IH];
    intros local p w Hr Hst Haff.
  { apply wp_ret. by apply visited_skip. }
  change (e :: es) with ([e] ++ es) in *. rewrite files_in_app, dirs_in_app in *.
  cbn [fmap list_fmap visit_all]. apply wp_bind.
  eapply wp_mono; [apply (visit_entry_law e r local p rest w); try done|].
  { set_solver. } { by eapply affordable_l. }
  intros [[local1 p1]|err| | |] w1 Hvis; simpl; try done.
  - pose proof Hvis as (new & bs & Hw & _). eapply wp_mono.
    + apply IH; [set_solver|by eapply reading_visited|by destruct Hw|by eapply affordable_after].
    + intros o w2. by apply (visited_app _ _ _ _ _ _ w w1 local1 p1).
  - simpl in Hvis. by apply broke_off_app_l.
Qed.

End one_directory.
End visiting.

(** The records of a batch. *)
Lemma records_well_formed batch rs :
  Forall2 record_of batch rs → Forall (λ '(r, padding), well_formed r padding) rs.
Proof.
  intros Hrs. apply Forall_forall. intros [r padding] Hin. apply list_elem_of_lookup in Hin as [i Hi].
  destruct (Forall2_lookup_r _ _ _ _ _ Hrs Hi) as (e & _ & Hrec). apply Hrec.
Qed.

Lemma records_pos batch rs : Forall2 record_of batch rs → batch ≠ [] → 0 < lenZ (encode rs).
Proof.
  intros Hrs Hb. inversion Hrs as [|e r es rs' Her]; simplify_eq; try done. destruct r as [r padding].
  change (encode ((r, padding) :: rs')) with (encode_dirent r padding ++ encode rs').
  rewrite lenZ_app, lenZ_encode_dirent. range.
Qed.

(** ** Working off the queue *)
Section working.
Context {W : Type} `{LawfulDirs W} {F : Fuel}.
Context {DB Scratch : Type} `{LawfulHyperscan DB Scratch}.
Context (st : VectorScanState DB Scratch) (K : nat).
Hypothesis scan_ok : ∀ d, (hs_scan (vs_db st) d (vs_scratch st)).1 = HS_SUCCESS.

Abbreviation pipeline :=
  (ReadFile.ReadFileNode (VectorScanNode (BatchNode Write.WriteNode) DB Scratch)).

Section one_directory.
Context (dir_fd : Z) (all : directory) (p0 : pipeline) (s0 : shared W).
Hypothesis dir_fd_ok : 0 ≤ dir_fd.
Hypothesis names : NoDup (concat all).*1.
Hypothesis valid : Forall valid_entry (concat all).
Hypothesis full : Forall (λ b, b ≠ []) all.
Hypothesis opened : v_fds (view_of s0) !! dir_fd = Some (ODir all all).
Hypothesis small : (tree_size (Directory true all) < fuel)%nat.
Hypothesis counter : 0 ≤ p_pending s0 ∧ p_pending s0 + lenZ (dirs_in (concat all)) < size_max.
Hypothesis rounds : affordable st K p0 (files_in (concat all)).

(** The batches [done] have been read. *)
Definition half_read (done rest : directory) (p : pipeline) (s : shared W) : Prop :=
  ∃ new bs, went st (files_in (concat done)) p0 p bs ∧ new.*2 = dirs_in (concat done) ∧
    unused new (v_fds (view_of s0)) ∧
    view_of s = emit bs (set_fds (λ m, dirs_map new (<[dir_fd := ODir all rest]> m)) (view_of s0)) ∧
    p_queue s = p_queue s0 ++ new.*1 ∧ p_running s = p_running s0 ∧
    p_pending s = p_pending s0 + lenZ new.

Lemma half_read_reading done rest p s : half_read done rest p s → reading dir_fd all rest s.
Proof.
  intros (new & bs & _ & _ & Hun & Hv & _). unfold reading. rewrite Hv. simpl.
  rewrite dirs_map_lookup; [apply lookup_insert_eq|]. by eapply unused_notin.
Qed.

(** A batch has been read and visited. *)
Lemma half_read_next done batch rest p s s1 local p' s2 :
  half_read done (batch :: rest) p s →
  view_of s1 = set_fds (insert dir_fd (ODir all rest)) (view_of s) →
  visited st (files_in batch) (dirs_in batch) [] p s1 (Done (local, p')) s2 →
  p_queue s2 = p_queue s → p_running s2 = p_running s → p_pending s2 = p_pending s →
  p_pending s + lenZ local < size_max →
  half_read (done ++ [batch]) rest p' (publish local s2).2.
Proof.
  intros (new & bs & Hw & Hds & Hun & Hv & Hq & Hr & Hp) Hv1
    (new' & bs' & Hw' & Hds' & -> & Hun' & Hv2) Hq2 Hr2 Hp2 Hsz. simpl in Hsz.
  assert (v_fds (view_of s1) = dirs_map new (<[dir_fd := ODir all rest]> (v_fds (view_of s0)))) as Hfds.
  { rewrite Hv1, Hv. simpl. rewrite <- dirs_map_insert, insert_insert_eq; [done|]. by eapply unused_notin. }
  rewrite Hfds in Hun'. apply (unused_insert _ _ dir_fd (ODir all rest)) in Hun as Hun1; [|done].
  exists (new ++ new'), (bs ++ bs'). rewrite !concat_app, files_in_app, dirs_in_app. simpl.
  rewrite !app_nil_r, !fmap_app. split_and!.
  - by eapply went_app.
  - by rewrite Hds, Hds'.
  - apply (unused_insert _ _ dir_fd (ODir all rest)); [done|].
    apply unused_app; [done|done|]. intros fd Hfd Hfd'. apply Hun' in Hfd' as [_ Hfd']. by eapply dirs_map_used.
  - transitivity (view_of s2); [done|]. rewrite Hv2.
    replace (view_of s1) with
      (emit bs (set_fds (λ m, dirs_map new (<[dir_fd := ODir all rest]> m)) (view_of s0))).
    + destruct (view_of s0). unfold emit, set_fds. simpl. by rewrite dirs_map_app, (assoc_L (++)).
    + rewrite Hv1, Hv in *. destruct (view_of s0). unfold emit, set_fds in *. simpl in *. by rewrite Hfds.
  - by rewrite Hq2, Hq, (assoc_L (++)).
  - congruence.
  - rewrite Hp2, Hp. unfold lenZ in *. rewrite length_fmap in *. rewrite length_app.
    rewrite size_add_small by lia. lia.
Qed.

(** Nothing that matters here has changed. *)
Lemma half_read_same done rest p s s' :
  half_read done rest p s → view_of s' = view_of s → s' = set_os (os s') s → half_read done rest p s'.
Proof.
  intros (new & bs & ? & ? & ? & Hv & ? & ? & ?) Hv' Hs'. exists new, bs. rewrite Hs' in *.
  split_and!; try done. by rewrite Hv', Hv.
Qed.

Lemma files_split done batch rest :
  all = done ++ batch :: rest →
  files_in (concat all) = files_in (concat done) ++ files_in batch ++ files_in (concat rest).
Proof. intros ->. rewrite concat_app, files_in_app. simpl. by rewrite files_in_app. Qed.

(** The records of a batch are scanned. *)
Lemma scan_batch_law done batch rest p s (s1 : shared W) rs :
  all = done ++ batch :: rest → half_read done (batch :: rest) p s →
  view_of s1 = set_fds (insert dir_fd (ODir all rest)) (view_of s) → Forall2 record_of batch rs →
  wp (scan_batch dir_fd (encode rs) p) s1
    (visited st (files_in batch) (dirs_in batch) [] p s1).
Proof.
  intros Hall (new & bs & Hw & _) Hv1 Hrs. unfold scan_batch, wp.
  rewrite walk_dirents_encoded; [|by eapply records_well_formed|].
  - apply (visit_all_law st K scan_ok dir_fd all dir_fd_ok names batch rs [] p rest s1); try done.
    + unfold reading. rewrite Hv1. simpl. apply lookup_insert_eq.
    + intros e He. rewrite Hall, concat_app. simpl. set_solver.
    + apply Hw.
    + rewrite (files_split done batch rest Hall) in rounds.
      eapply affordable_l, affordable_after; [done|done].
  - apply Forall2_length in Hrs. rewrite <- Hrs. etrans; [|exact small].
    apply batch_size. rewrite Hall. set_solver.
Qed.

(** What one round of the loop over a directory does: the end of it, *)
Lemma getdents_end n p s s1 :
  half_read all [] p s → n ≤ 0 → view_of s1 = view_of s → s1 = set_os (os s1) s →
  wp (if n <? 0 then
        err ← get_errno;
        _ ← println_cerr ("fd: " +:+ pretty dir_fd +:+ " " +:+ pretty err);
        mret (inr p)
      else mret (inr p)) s1
    (returns (λ (r : pipeline + pipeline) s', r = inr p ∧ half_read all [] p s')).
Proof.
  intros Hhalf Hn Hv1 Hs1. pose proof (half_read_same _ _ _ _ _ Hhalf Hv1 Hs1) as Hhalf1.
  destruct (Z.ltb_spec n 0) as [Hneg|Hpos].
  - change (wp (get_errno ≫= ?f) ?s ?Q) with (wp (f (errno s)) s Q). apply wp_bind.
    eapply wp_frame; [apply os_keeps_in_os|apply (println_law (W := shared W))|].
    intros [[]| | | |] s2 Hv2 Hs2; try done. apply wp_ret. split; [done|].
    by apply (half_read_same _ _ _ s1).
  - by apply wp_ret.
Qed.

(** and a batch in the middle. *)
Lemma getdents_round_law done rest p s :
  all = done ++ rest → half_read done rest p s →
  wp (getdents_round publish dir_fd p) s (λ o s',
    match o with
    | Done (inl p') => ∃ batch rest', rest = batch :: rest' ∧ half_read (done ++ [batch]) rest' p' s'
    | Done (inr p') => rest = [] ∧ half_read done rest p' s'
    | Throws _ => broke_off st (files_in (concat all)) p0 (view_of s0) (view_of s')
    | _ => False
    end).
Proof.
  intros Hall Hhalf. unfold getdents_round.
  pose proof (half_read_reading done rest p s Hhalf) as Hread. apply wp_bind.
  eapply wp_frame; [apply os_keeps_in_os|apply (getdents_law dir_fd all rest s); [done|]|].
  { rewrite Hall, concat_app, Forall_app in valid. apply valid. }
  intros [[n buffer]| | | |] s1 Hg Hs1; try done; cbn [lift returns] in *.
  destruct rest as [|batch rest].
  { destruct Hg as [Hn Hv1]. rewrite app_nil_r in Hall. subst done.
    pose proof (getdents_end n p s s1 Hhalf Hn Hv1 Hs1) as Hend.
    destruct (Z.ltb_spec n 0) as [Hneg|Hpos]; [|rewrite (proj2 (Z.eqb_eq n 0)) by lia];
      (eapply wp_mono; [exact Hend|]; intros [r| | | |] s' Hr; try done; by destruct Hr as [-> ?]). }
  destruct Hg as (rs & Hrs & -> & Hbuf & Hv1).
  assert (0 < lenZ (encode rs)) as Hlen.
  { rewrite Hall in full. apply Forall_app in full as [_ [Hb _]%Forall_cons]. by eapply records_pos. }
  rewrite (proj2 (Z.ltb_ge _ 0)), (proj2 (Z.eqb_neq _ 0)) by lia. rewrite Hbuf.
  apply wp_bind. eapply wp_frame; [apply scan_keeps|by refine (scan_batch_law done batch rest p s s1 rs _ _ _ _)|].
  pose proof Hhalf as (new & bs & Hw & Hds & _ & Hv & _).
  intros [[local p']|e| | |] s2 Hvis Hs2; simpl in Hvis; try done; simpl.
  - apply wp_bind_returns. unfold wp at 1. simpl. apply wp_ret. exists batch, rest.
    split; [done|]. eapply (half_read_next _ _ _ _ s s1 local p' s2);
      [done|done|done|by rewrite Hs2, Hs1..|].
    destruct Hhalf as (new1 & bs1 & _ & Hds1 & _ & _ & _ & _ & Hp).
    destruct Hvis as (new' & bs' & _ & Hds' & -> & _). rewrite Hall, concat_app, dirs_in_app in counter.
    simpl in counter. rewrite dirs_in_app in counter. unfold lenZ in *.
    rewrite !length_app, <- Hds1, <- Hds', !length_fmap in *. simpl. lia.
  - rewrite (files_split done batch rest Hall).
    eapply (broke_off_after st _ _ p0 p bs _ (view_of s1)); [done|by rewrite Hv1, Hv|].
    by apply broke_off_app_l.
Qed.

Lemma read_directory_law :
  vs_state (inner p0) = st →
  wp (read_directory publish dir_fd p0) s0 (λ o s',
    match o with
    | Done p' =>
        ∃ new bs, went st (files_in (concat all)) p0 p' bs ∧ new.*2 = dirs_in (concat all) ∧
          unused new (v_fds (view_of s0)) ∧
          view_of s' = emit bs (set_fds (λ m, dirs_map new (delete dir_fd m)) (view_of s0)) ∧
          p_queue s' = p_queue s0 ++ new.*1 ∧ p_running s' = p_running s0 ∧
          p_pending s' = p_pending s0 + lenZ new
    | Throws _ => broke_off st (files_in (concat all)) p0 (view_of s0) (view_of s')
    | _ => False
    end).
Proof.
  intros Hst. unfold read_directory. apply wp_bind.
  apply (wp_loop_ghost _ (λ (rest : directory) p s, ∃ done, all = done ++ rest ∧ half_read done rest p s)
           length) with all.
  - intros rest p s (done & Hall & Hhalf).
    eapply wp_mono; [by apply (getdents_round_law done rest p s)|].
    intros [[p'|p']|e| | |] s'; cbn [lift]; try done.
    + intros (batch & rest' & -> & Hhalf'). exists rest'. split; [simpl; lia|].
      exists (done ++ [batch]). by rewrite <- (assoc_L (++)).
    + intros [-> (new & bs & Hw & Hds & Hun & Hv & Hq & Hr & Hp)]. rewrite app_nil_r in Hall. subst done.
      apply wp_bind. eapply wp_frame; [apply os_keeps_in_os|apply (close_law (W := shared W))|].
      intros [z| | | |] s2 Hv2 Hs2; try done. apply wp_ret. exists new, bs.
      rewrite Hs2. split_and!; try done. rewrite <- Hs2, Hv2, Hv.
      assert (dir_fd ∉ new.*1) as Hnot by by eapply unused_notin.
      destruct (view_of s0). unfold set_fds, emit. simpl.
      by rewrite <- dirs_map_delete, delete_insert_eq.
  - exists []. split; [done|]. exists [], []. split_and!; try done.
    + by apply went_nil.
    + split; [constructor|set_solver].
    + rewrite emit_nil. destruct (view_of s0). unfold set_fds. simpl in *. by rewrite insert_id.
    + by rewrite app_nil_r.
    + rewrite lenZ_nil. lia.
  - rewrite tree_size_dir in small. lia.
Qed.

End one_directory.
(** *** The whole queue *)

Lemma wf_dirs_in es :
  Forall (λ e, wf_object e.2) es → Forall (λ d, wf_object (Directory true d)) (dirs_in es).
Proof.
  intros Hes. unfold dirs_in.
  induction Hes as [|[name o] es Ho Hes IH]; simpl in *; [constructor|].
  destruct o as [| []|]; simpl; try done. by constructor.
Qed.

Lemma dirs_count_ge (q : list directory) : (length q ≤ dirs_count q)%nat.
Proof. unfold dirs_count. induction q as [|d q IH]; simpl in *; lia. Qed.

Context (cs : list bytes) (p0 : pipeline) (v0 : view).
Hypothesis rounds : affordable st K p0 cs.

(** What holds between two rounds, when the directories [L] are in the queue. *)
Record between (L : list (Z * directory)) (p : pipeline) (s : shared W) : Prop := {
  bt_printed : ∃ done bs, went st done p0 p bs ∧ done ++ walk_all L.*2 = cs ∧
                          view_of s = emit bs (set_fds (dirs_map L) v0);
  bt_unused : unused L (v_fds v0);
  bt_queue : p_queue s = L.*1;
  bt_pending : p_pending s = lenZ L;
  bt_running : p_running s = negb (bool_decide (L = []));
  bt_wf : Forall (λ d, wf_object (Directory true d)) L.*2;
  bt_size : (dirs_size L.*2 < fuel)%nat;
  bt_count : Z.of_nat (dirs_count L.*2) < size_max
}.

Lemma between_next fd d L new p p' s s1 bs :
  between ((fd, d) :: L) p s → went st (files_in (concat d)) p p' bs → new.*2 = dirs_in (concat d) →
  unused new (v_fds (view_of s)) →
  view_of s1 = emit bs (set_fds (λ m, dirs_map new (delete fd m)) (view_of s)) →
  p_queue s1 = L.*1 ++ new.*1 → p_running s1 = true → p_pending s1 = p_pending s + lenZ new →
  between (L ++ new) p' (finish_directory s1).2 ∧
  (dirs_count (L ++ new).*2 < dirs_count ((fd, d) :: L).*2)%nat.
Proof.
  intros [(done & bs0 & Hw0 & Hcs & Hv) Hun Hq Hp Hr Hwf Hsz Hct] Hw Hnew Hun' Hv1 Hq1 Hr1 Hp1.
  change ((fd, d) :: L).*2 with (d :: L.*2) in *. change ((fd, d) :: L).*1 with (fd :: L.*1) in *.
  pose proof (dirs_count_next d L.*2) as Hcn. pose proof (dirs_size_next d L.*2) as Hsn.
  pose proof (dirs_count_ge (L.*2 ++ dirs_in (concat d))) as Hge.
  rewrite fmap_app, Hnew in *. split; [|lia].
  apply Forall_cons in Hwf as [Hwfd Hwf]. inversion Hwfd as [| |op d' Hnames Hvalid Hfull Hall]; simplify_eq.
  assert (Hlen : lenZ (L ++ new) = lenZ (L.*2 ++ dirs_in (concat d))).
  { unfold lenZ. by rewrite <- Hnew, <- fmap_app, length_fmap. }
  assert (Hpend : p_pending s1 = lenZ (L ++ new) + 1).
  { rewrite Hp1, Hp, lenZ_cons, lenZ_app. lia. }
  rewrite Hv in Hun'. simpl in Hun'.
  assert (Hdel : delete fd (dirs_map ((fd, d) :: L) (v_fds v0)) = dirs_map L (v_fds v0))
    by by apply dirs_map_close.
  split; simpl.
  - exists (done ++ files_in (concat d)), (bs0 ++ bs). split_and!.
    + by eapply went_app.
    + rewrite <- (assoc_L (++)), <- Hcs, fmap_app, Hnew. by rewrite walk_all_next.
    + transitivity (view_of s1); [done|]. rewrite Hv1, Hv.
      destruct v0. unfold set_fds, emit. simpl in *. by rewrite Hdel, dirs_map_app, (assoc_L (++)).
  - destruct Hun as [Hnd Hm]. simpl in Hnd. apply NoDup_cons in Hnd as [Hfd Hnd].
    assert (fd ∉ new.*1) as Hfdn.
    { eapply unused_notin; [done|]. simpl. rewrite dirs_map_insert by done. by rewrite lookup_insert_eq. }
    apply unused_app.
    + split; [done|]. intros x Hx. apply Hm. set_solver.
    + rewrite <- Hdel. destruct Hun' as [Hnd' Hm']. split; [done|]. intros x Hx.
      rewrite lookup_delete_ne by congruence. by apply Hm'.
    + intros x Hx Hx'. destruct Hun' as [_ Hm']. destruct (Hm' x Hx') as [_ Hnone].
      apply (dirs_map_used ((fd, d) :: L) (v_fds v0) x); [set_solver|done].
  - by rewrite Hq1, fmap_app.
  - unfold lenZ in *. rewrite Hpend, size_sub_small by lia. lia.
  - rewrite Hpend, Hr1. destruct (Z.eqb_spec (lenZ (L ++ new) + 1) 1) as [Hz|Hz].
    + by rewrite (lenZ_nil_inv (L ++ new)) by lia.
    + rewrite bool_decide_eq_false_2; [done|]. intros Hnil. by rewrite Hnil in Hz.
  - rewrite fmap_app, Hnew. apply Forall_app. split; [done|]. by apply wf_dirs_in.
  - rewrite fmap_app, Hnew. lia.
  - rewrite fmap_app, Hnew. lia.
Qed.

Lemma worker_round_law L p s :
  between L p s →
  wp (worker_round p) s (λ o s',
    match o with
    | Done (inl p') => ∃ L', (dirs_count L'.*2 < dirs_count L.*2)%nat ∧ between L' p' s'
    | Done (inr p') => between [] p' s'
    | Throws _ => broke_off st cs p0 v0 (view_of s')
    | _ => False
    end).
Proof.
  intros Hbt. pose proof Hbt as [(done & bs & Hw & Hcs & Hv) Hun Hq Hp Hr Hwf Hsz Hct].
  destruct L as [|[fd d] L].
  { unfold worker_round, wp. rewrite Hr. exact Hbt. }
  change ((fd, d) :: L).*2 with (d :: L.*2) in *. change ((fd, d) :: L).*1 with (fd :: L.*1) in *.
  assert (Hround : worker_round p s = (p' ← read_directory publish fd p; _ ← finish_directory; mret (inl p'))
            (Shared (os s) L.*1 true (p_pending s))).
  { change (p_running s = true) in Hr. unfold worker_round. rewrite Hr. cbn [negb].
    unfold take_directory, mbind, M_bind. cbv beta. by rewrite Hr, Hq. }
  apply (wp_eq _ _ _ _ _ Hround), wp_bind.
  set (s1 := Shared (os s) L.*1 true (p_pending s)).
  assert (view_of s1 = view_of s) as Hs1 by done.
  apply Forall_cons in Hwf as [Hwfd Hwf]. inversion Hwfd as [| |op d' Hnames Hvalid Hfull Hall]; simplify_eq.
  assert (Hfiles : files_in (concat d) ++ walk_all (L.*2 ++ dirs_in (concat d)) = walk_all (d :: L.*2))
    by by rewrite walk_all_next.
  assert (Hopen : v_fds (view_of s1) !! fd = Some (ODir d d)).
  { rewrite Hs1, Hv. simpl. destruct Hun as [Hnd _]. apply NoDup_cons in Hnd as [Hfd _].
    rewrite dirs_map_insert by done. apply lookup_insert_eq. }
  eapply wp_mono; [apply (read_directory_law fd d p s1); try done|].
  - apply Hun. set_solver.
  - unfold dirs_size in Hsz. cbn [sum_list_with] in Hsz. lia.
  - pose proof (dirs_count_next d L.*2) as Hcn. pose proof (dirs_count_ge (L.*2 ++ dirs_in (concat d))).
    rewrite length_app, length_fmap in *. simpl. rewrite Hp, lenZ_cons. unfold lenZ in *. lia.
  - rewrite <- Hcs, <- Hfiles in rounds. rewrite (assoc_L (++)) in rounds. apply affordable_l in rounds.
    by eapply affordable_after.
  - apply Hw.
  - intros [p'|e| | |] s2; cbn [lift]; try done.
    + intros (new & bs' & Hw' & Hnew & Hun' & Hv' & Hq' & Hr' & Hp').
      exists (L ++ new). apply and_comm. by eapply (between_next fd d L new p p' s s2 bs').
    + intros Hb. rewrite <- Hcs, <- Hfiles, (assoc_L (++)). apply broke_off_app_l.
      eapply (broke_off_after st _ _ p0 p bs v0 (view_of s)); [done|by rewrite Hv|done].
Qed.

Lemma worker_loop_law L p s :
  between L p s →
  wp (loop fuel worker_round p) s (λ o s',
    match o with
    | Done p' => between [] p' s'
    | Throws _ => broke_off st cs p0 v0 (view_of s')
    | _ => False
    end).
Proof.
  intros Hbt. apply (wp_loop_ghost _ between (λ L, dirs_count L.*2)) with L; [|done|].
  - intros L' p' s' Hbt'. eapply wp_mono; [by apply worker_round_law|].
    by intros [[p1|p1]|e| | |] s1.
  - pose proof (bt_size _ _ _ Hbt) as Hsz. eapply Nat.le_lt_trans; [|exact Hsz].
    unfold dirs_count, dirs_size. apply sum_le. intros d. apply dir_count_size.
Qed.

End working.

(** ** The command *)
Section command.
Context {W : Type} `{LawfulDirs W} {F : Fuel}.
Context {DB Scratch : Type} `{LawfulHyperscan DB Scratch}.
Context (st : VectorScanState DB Scratch) (K : nat).
Hypothesis scan_ok : ∀ d, (hs_scan (vs_db st) d (vs_scratch st)).1 = HS_SUCCESS.

(** The pipeline a worker starts with. *)
Definition new_pipeline :=
  ReadFile.mk (mkVectorScanNode (BatchNode_new Write.mkWriteNode) st).

(** What a run over the files [cs] has printed. *)
Definition printed (cs : list bytes) (v : view) (o : outcome (expected Z)) (v' : view) : Prop :=
  match o with
  | Done (Value _) =>
      ∃ chunkss, Forall2 chunking cs chunkss ∧ v' = emit (all_text st chunkss) v
  | Done (Unexpected _) =>
      ∃ chunkss bs, Forall2 chunking cs chunkss ∧ bs `prefix_of` all_text st chunkss ∧
                    v' = emit bs v
  | Throws _ =>
      ∃ bs ds chunkss, searched_in_part cs ds chunkss ∧ v_out v' = v_out v ++ bs ∧
                       bs `prefix_of` all_text st chunkss
  | _ => False
  end.

(** The flush at the end. *)
Lemma last_flush_law cs p bs v0 (s : shared W) :
  affordable st K new_pipeline cs → went st cs new_pipeline p bs → view_of s = emit bs v0 →
  wp ('(_, flush) ← BatchNode_flush (vs_next (ReadFile.next p)); mret flush) s
    (λ o s', printed cs v0 o (view_of s')).
Proof.
  intros (HK & Hsz & Hf1 & Hf2 & Hsz2) Hw Hv. pose proof (went_length st K cs new_pipeline p bs HK Hw) as Hlen.
  destruct Hw as [_ (ch & Hch & Hbs)]. unfold held, inner in *. simpl in *.
  apply wp_bind_returns. eapply wp_returns_mono; [apply flush_law|].
  { unfold pending, BatchNode_pending, Write.WriteNode_pending in Hlen. simpl in Hlen.
    unfold enough, pending, Write.WriteNode_pending, lenZ. simpl. lia. }
  intros [n' r] s2 (bs2 & Hv2 & Hbs2). apply wp_ret. rewrite Hv, emit_emit in Hv2.
  destruct r as [k|e]; simpl in *.
  - destruct Hbs2 as [_ Hbs2]. exists ch. split; [done|]. rewrite Hv2. f_equal. rewrite <- Hbs.
    f_equal. rewrite <- Hbs2. unfold pending, Write.WriteNode_pending. by rewrite app_nil_r.
  - exists ch, (bs ++ bs2). split_and!; [done| |done]. rewrite <- Hbs. by apply prefix_app.
Qed.

Lemma broke_off_printed cs v v' e : broke_off st cs new_pipeline v v' → printed cs v (Throws e) v'.
Proof. done. Qed.

Lemma worker_law cs v0 L regex message (s : shared W) :
  hs_compile regex HS_FLAG_MULTILINE HS_MODE_BLOCK = (HS_SUCCESS, vs_db st, message) →
  hs_alloc_scratch (vs_db st) = (HS_SUCCESS, vs_scratch st) →
  affordable st K new_pipeline cs → between st cs new_pipeline v0 L new_pipeline s →
  wp (worker regex) s (λ o s', printed cs v0 o (view_of s')).
Proof.
  intros Hcompile Hscratch Haff Hbt. unfold worker.
  assert (make_pipeline regex s = (Done new_pipeline, s)) as Hmake.
  { unfold make_pipeline, VectorScanState_new. rewrite Hcompile. simpl. rewrite Hscratch. simpl.
    assert ({| vs_db := vs_db st; vs_scratch := vs_scratch st |} = st) as -> by by destruct st. done. }
  apply wp_bind_returns. rewrite (wp_unfold _ _ _ _ _ Hmake). cbn [returns]. apply wp_bind.
  eapply wp_mono; [by apply (worker_loop_law st K scan_ok cs new_pipeline v0 Haff L)|].
  intros [p'|e| | |] s1; cbn [lift]; try done.
  intros [(done & bs & Hw & Hcs & Hv) _ _ _ _ _ _ _].
  change (walk_all ([] : list (Z * directory)).*2) with (@nil bytes) in Hcs.
  rewrite app_nil_r in Hcs. subst done. eapply last_flush_law; [done|done|].
  rewrite Hv. by destruct v0.
Qed.

(** [run] starts with an empty queue. *)
Lemma wp_run location regex (w : W) (Q : outcome (expected Z) → W → Prop) :
  wp (start_dir ← sys_openat AT_FDCWD location open_dir_flags;
      if start_dir <? 0 then throw ("failed to open initial directory: " +:+ location)
      else
        _ ← (λ s, (Done (), Shared (os s) (p_queue s ++ [start_dir]) (p_running s) 1));
        worker (DB := DB) (Scratch := Scratch) regex) (Shared w [] true 0) (λ o s, Q o (os s)) →
  wp (run (DB := DB) (Scratch := Scratch) location regex) w Q.
Proof. unfold run, wp. by destruct (mbind (M := M (shared W)) _ _ _) as [o s]. Qed.

End command.

(** The tree as a queue with one directory. *)
Lemma run_law {W} `{LawfulDirs W} {F : Fuel} {DB Scratch} `{LawfulHyperscan DB Scratch}
    (st : VectorScanState DB Scratch) (K : nat) (location regex : string) (d : directory)
    (message : string) (w : W) :
  dir_at w location = Some d → wf_object (Directory true d) →
  hs_compile regex HS_FLAG_MULTILINE HS_MODE_BLOCK = (HS_SUCCESS, vs_db st, message) →
  hs_alloc_scratch (vs_db st) = (HS_SUCCESS, vs_scratch st) →
  (∀ data, (hs_scan (vs_db st) data (vs_scratch st)).1 = HS_SUCCESS) →
  affordable st K (new_pipeline st) (walk_all [d]) →
  (tree_size (Directory true d) < fuel)%nat → Z.of_nat (dir_count (Directory true d)) < size_max →
  wp (run location regex) w (λ o w', printed st (walk_all [d]) (view_of w) o (view_of w')).
Proof.
  intros Hdir Hwf Hcompile Hscratch Hok Haff Hts Hdc. set (cs := walk_all [d]) in *.
  assert (Hnone : ∀ v e, printed st cs v (Throws e) v).
  { intros v e. exists [], [], []. rewrite app_nil_r. split_and!; [split; constructor|done|apply prefix_nil]. }
  apply (wp_run location regex w (λ o w', printed st cs (view_of w) o (view_of w'))).
  apply wp_bind. eapply wp_frame;
    [apply os_keeps_in_os|by apply (open_dir_law (W := shared W) location d)|].
  intros [n| | | |] s Hopen Hs; try done; cbn [lift].
  destruct Hopen as [[Hn Hv]|(Hn & Hn1 & Hfresh & Hv)].
  - rewrite (proj2 (Z.ltb_lt n 0)) by lia. apply wp_throw.
    change (view_of (os s)) with (view_of s). rewrite Hv. apply Hnone.
  - rewrite (proj2 (Z.ltb_ge n 0)) by lia. apply wp_bind_returns. unfold wp at 1. cbn [returns fst snd].
    eapply (worker_law st K Hok cs _ [(n, d)]); [done|done|done|]. split.
    + exists [], []. split_and!; [by apply went_nil|done|]. rewrite emit_nil. done.
    + split; [apply NoDup_singleton|]. intros fd. simpl. by intros ->%list_elem_of_singleton.
    + simpl. by rewrite Hs.
    + done.
    + simpl. by rewrite Hs.
    + by apply Forall_singleton.
    + unfold dirs_size. cbn [fmap list_fmap sum_list_with snd]. lia.
    + unfold dirs_count. cbn [fmap list_fmap sum_list_with snd]. lia.
Qed.


(** ** A system with directories *)

Definition type_of (o : object) : Z :=
  match o with RegularFile _ _ => DT_REG | Directory _ _ => DT_DIR | Special => 1 end.

(** The record of an entry, without padding. *)
Definition record_for (e : string * object) : linux_dirent64 * bytes :=
  (Dirent 1 0 (20 + lenZ (str e.1)) (type_of e.2) (str e.1), []).

#[local] Instance sim_dirents : DirKernel sim := {|
  sys_getdents64 fd size :=
    v ← get_view;
    match v_fds v !! fd with
    | Some (ODir all (batch :: rest)) =>
        let bs := encode (record_for <$> batch) in
        _ ← update (set_fds (insert fd (ODir all rest))); mret (lenZ bs, bs)
    | _ => mret (0, [])
    end;
  println_cerr _ := mret ()
|}.

Lemma record_for_ok e : valid_entry e → record_of e (record_for e).
Proof.
  destruct e as [name o]. intros (Hnul & Hlen & Hdot). unfold record_of, record_for. simpl in *.
  split_and!.
  - unfold well_formed. simpl. unfold lenZ. simpl.
    split_and!; try done; try lia; destruct o; simpl; unfold DT_REG, DT_DIR; lia.
  - apply String.string_of_list_byte_of_string.
  - by destruct o.
Qed.

Lemma records_for_ok batch :
  Forall valid_entry batch → Forall2 record_of batch (record_for <$> batch).
Proof.
  induction 1; [apply List.Forall2_nil|]. apply List.Forall2_cons; [by apply record_for_ok|done].
Qed.

Lemma entry_named_in name o (d : directory) :
  (name, o) ∈ concat d → NoDup (concat d).*1 → entry_named name d = Some o.
Proof.
  unfold entry_named. generalize (concat d). clear d. intros es. induction es as [|[n o'] es IH];
    intros Hin Hnd; [by apply elem_of_nil in Hin|].
  simpl in *. apply NoDup_cons in Hnd as [Hn Hnd]. apply elem_of_cons in Hin as [Heq|Hin].
  - simplify_eq. by rewrite bool_decide_eq_true_2.
  - rewrite bool_decide_eq_false_2; [by apply IH|]. intros ->. apply Hn.
    apply list_elem_of_fmap. by exists (name, o).
Qed.

Definition sim_dir_at (s : sim) (location : string) : option directory :=
  match named_at AT_FDCWD location (s_view s) with
  | Some (ODir d _) => Some d
  | _ => None
  end.

#[local] Instance sim_lawful_dirs : LawfulDirs sim.
Proof.
  refine (Build_LawfulDirs _ _ _ _ _ _ _ sim_dir_at _).
  - intros fd all rest w Hfd Hvalid. unfold wp. simpl. unfold mbind, M_bind, get_view. simpl.
    change (view_of w) with (s_view w) in Hfd. rewrite Hfd. destruct rest as [|batch rest]; simpl; [done|].
    exists (record_for <$> batch). split_and!; [|done| |done].
    + simpl in Hvalid. apply Forall_app in Hvalid as [Hvalid _].
      by apply records_for_ok.
    + by rewrite takeZ_all by lia.
  - intros fd all rest name o flags w Hfd Hpos Hin Hnd Ho. unfold wp. simpl.
    unfold mbind, M_bind, get_view. simpl. change (view_of w) with (s_view w) in *.
    pose proof (next_key_fresh (v_fds (s_view w)) _ (Z.le_refl _)) as [Hfresh Hkey].
    unfold named_at. destruct (Z.eqb_spec fd AT_FDCWD) as [->|_]; [done|]. rewrite Hfd.
    rewrite (entry_named_in name o all Hin Hnd). simpl.
    destruct (open_object o) as [obj|]; simpl; [|done].
    unfold STDOUT_FILENO. split_and!; try done; lia.
  - done.
  - intros location d flags w Hd. unfold sim_dir_at in Hd. unfold wp. simpl.
    unfold mbind, M_bind, get_view. simpl. change (view_of w) with (s_view w).
    pose proof (next_key_fresh (v_fds (s_view w)) _ (Z.le_refl _)) as [Hfresh Hkey].
    destruct (named_at AT_FDCWD location (s_view w)) as [[| | |d' r]|] eqn:Hn; simplify_eq.
    assert (r = d) as ->.
    { unfold named_at in Hn. simpl in Hn. destruct (v_fs (s_view w) !! location); [done|].
      destruct (v_fds (s_view w) !! AT_FDCWD) as [[]|]; try done.
      destruct (entry_named location all) as [[[]|[]|]|]; simplify_eq/=. done. }
    simpl. right. unfold STDOUT_FILENO. split_and!; try done; lia.
Defined.

(** A directory with a file, another directory with a file, a file that cannot
    be opened and the entries for itself and its parent. *)
Definition sample_dir : directory :=
  [[(".", Special); ("..", Special); ("a", RegularFile true (str "cat")); ("b", Directory true
       [[("c", RegularFile true (str "bat"))]])];
   [("d", RegularFile false (str "rat"))]]%string.

(** [wf_object] is decided by evaluation. *)
Definition entry_check (e : string * object) : bool :=
  bool_decide (x00 ∉ str e.1) && (length (str e.1) <=? 255)%nat &&
  match e.2 with Directory _ _ => negb (is_dot e.1) | _ => true end.

Fixpoint wf_check (o : object) : bool :=
  match o with
  | Directory _ d =>
      bool_decide (NoDup (concat d).*1) && forallb entry_check (concat d) &&
      forallb (λ b, match b with [] => false | _ => true end) d &&
      forallb (λ b, forallb (λ e, wf_check e.2) b) d
  | _ => true
  end.

Lemma entry_check_sound e : entry_check e = true → valid_entry e.
Proof.
  destruct e as [name o]. unfold entry_check, valid_entry. simpl.
  rewrite !andb_true_iff, Nat.leb_le, bool_decide_eq_true. destruct o; rewrite ?negb_true_iff; tauto.
Qed.

Lemma wf_check_sound : ∀ o, wf_check o = true → wf_object o.
Proof.
  fix IH 1. intros [opens c|opens d|] Hc; [constructor| |constructor].
  cbn [wf_check] in Hc. rewrite !andb_true_iff in Hc. destruct Hc as [[[Hn Hv] Hb] Hrec].
  constructor.
  - by apply bool_decide_eq_true in Hn.
  - apply Forall_forall. intros e He. apply entry_check_sound. rewrite forallb_forall in Hv.
    apply Hv. by apply list_elem_of_In.
  - clear -Hb. induction d as [|b d IHd]; [apply Forall_nil_2|]. simpl in Hb.
    apply andb_true_iff in Hb as [Hb Hd]. apply Forall_cons. split; [by destruct b|by apply IHd].
  - clear -IH Hrec. induction d as [|b d IHd]; [apply Forall_nil_2|]. simpl in *.
    apply andb_true_iff in Hrec as [Hb Hd]. apply Forall_app. split; [|by apply IHd].
    clear -IH Hb. induction b as [|[name o] b IHb]; [apply Forall_nil_2|]. simpl in *.
    apply andb_true_iff in Hb as [Ho Hb]. apply Forall_cons. split; [by apply IH|by apply IHb].
Qed.

