(* ===== verification/GrepThreads.v ===== *)
(** The two views of [grep]: the machine of Processor.v, with any number of
    threads and a log of file names, and the command of GrepRun.v, with one
    thread and what is printed. Both work off the same tree. *)

From S2P Require Import Prelude Kernel GrepRun Processor.

(** A directory as the machine sees it. The machine enters a file into its log
    under a label and does nothing else with it: its name, or its content. *)
Section labels.
Context (label : string → bytes → string).

Fixpoint entry_of (name : string) (o : object) : entry :=
  match o with
  | RegularFile opens c => EFile (label name c) (if opens then Searched else OpenFails)
  | Directory opens d => EDir opens (map (map (λ e, entry_of e.1 e.2)) d)
  | Special => EOther
  end.

Definition dir_of (d : directory) : dir := map (map (λ e, entry_of e.1 e.2)) d.

End labels.

Definition by_name (name : string) (c : bytes) : string := name.

Definition by_content (name : string) (c : bytes) : string := String.string_of_list_byte c.

(** The files of a tree with their names. *)
Fixpoint named_files (name : string) (o : object) : list (string * bytes) :=
  match o with
  | RegularFile true c => [(name, c)]
  | Directory true d => concat (map (λ b, concat (map (λ e, named_files e.1 e.2) b)) d)
  | _ => []
  end.

(** A function of the entries of a directory, from that of its entries. *)
Lemma concat_entries {A B} (f : string → object → list A) (g : string → object → list B)
    (h : list A → list B) (d : directory) :
  (∀ l k, h (l ++ k) = h l ++ h k) → h [] = [] →
  (∀ name o, (name, o) ∈ concat d → h (f name o) = g name o) →
  h (concat (map (λ b, concat (map (λ e, f e.1 e.2) b)) d)) =
  concat (map (λ b, concat (map (λ e, g e.1 e.2) b)) d).
Proof.
  intros Happ Hnil Hfg. induction d as [|b d IHd]; [exact Hnil|]. cbn [map concat] in *.
  rewrite Happ, IHd by set_solver. f_equal.
  assert (∀ name o, (name, o) ∈ b → h (f name o) = g name o) as Hb by set_solver.
  clear -Happ Hnil Hb. induction b as [|[name o] b IHb]; [exact Hnil|]. cbn [map concat fst snd].
  rewrite Happ, IHb, Hb by set_solver. done.
Qed.

Section object_induction.
Context (P : object → Prop).
Hypothesis P_file : ∀ opens c, P (RegularFile opens c).
Hypothesis P_special : P Special.
Hypothesis P_dir : ∀ opens d, (∀ name o, (name, o) ∈ concat d → P o) → P (Directory opens d).

(** Induction over a tree. *)
Lemma object_tree_ind : ∀ o, P o.
Proof.
  fix IH 1. intros [opens c|opens d|]; [apply P_file| |apply P_special].
  assert (Forall (λ e, P e.2) (concat d)) as Hall.
  { induction d as [|b d IHd]; [apply Forall_nil_2|]. apply Forall_app. split; [|exact IHd].
    clear -IH. induction b as [|[name o] b IHb]; [apply Forall_nil_2|].
    apply Forall_cons. split; [apply IH|exact IHb]. }
  apply P_dir. intros name o Hin. rewrite Forall_forall in Hall. exact (Hall (name, o) Hin).
Qed.

End object_induction.

Lemma named_files_contents o : ∀ name, (named_files name o).*2 = object_files o.
Proof.
  induction o as [[] c| |[] d IH] using object_tree_ind; intros name; try done.
  cbn [named_files object_files].
  apply (concat_entries named_files (λ _, object_files) (λ l, l.*2)); [apply fmap_app|done|].
  intros n o Hin. by eapply IH.
Qed.

Lemma named_files_labels label o : ∀ name,
  (λ f, label f.1 f.2) <$> named_files name o = entry_files (entry_of label name o).
Proof.
  induction o as [[] c| |[] d IH] using object_tree_ind; intros name; try done.
  cbn [named_files entry_of entry_files]. rewrite map_map.
  rewrite (concat_entries named_files (λ n o, entry_files (entry_of label n o))
    (fmap (λ f, label f.1 f.2)));
    [|apply fmap_app|done|intros n o Hin; by eapply IH].
  f_equal. apply map_ext. intros b. by rewrite map_map.
Qed.

Lemma dirs_dir_of label o : ∀ name, entry_dirs (entry_of label name o) = dir_count o.
Proof.
  induction o as [[] c| |[] d IH] using object_tree_ind; intros name; try done.
  cbn [entry_of entry_dirs dir_count]. f_equal.
  induction d as [|b d IHd]; [done|]. cbn [map sum_list_with concat] in *.
  rewrite IHd by set_solver. f_equal.
  assert (∀ name o, (name, o) ∈ b → ∀ name, entry_dirs (entry_of label name o) = dir_count o) as Hb
    by set_solver.
  clear -Hb. induction b as [|[n o] b IHb]; [done|]. cbn [map sum_list_with fst snd] in *.
  rewrite IHb by set_solver. by rewrite (Hb n o ltac:(set_solver) n).
Qed.

(** However many threads there are, [grep] searches the files that it
    searches with one: for the same tree, the files in the log of the machine
    when it stops and the contents that the single thread works off are the
    names and the contents of the same files, each exactly once. *)
Theorem grep_threads_search_the_same_files hc ok (d : directory) (s : state) :
  reachable hc ok (dir_of by_name d) s → Z.of_nat (dir_count (Directory true d)) < size_max →
  thrown s = None → running_ s = false →
  searched s ≡ₚ (named_files "" (Directory true d)).*1 ∧
  walk_all [d] ≡ₚ (named_files "" (Directory true d)).*2.
Proof.
  intros Hreach Hd Hthrow Hrun. split.
  - change (@fst string bytes) with (λ f : string * bytes, by_name f.1 f.2).
    rewrite named_files_labels. apply stopped_complete; [|done].
    apply (inv_reachable hc ok (dir_of by_name d)); [|done|done].
    unfold dirs. change (EDir true (dir_of by_name d)) with (entry_of by_name "" (Directory true d)).
    by rewrite dirs_dir_of.
  - rewrite named_files_contents, walk_all_files. unfold all_files. simpl. by rewrite app_nil_r.
Qed.

(** Witness: the directory of the witness of GrepRun.v. *)
Lemma grep_threads_search_the_same_files_witness :
  ∃ s, run_trace 1 true (only_thread 36) (init (dir_of by_name sample_dir)) = Some s ∧
       searched s = ["a"; "c"]%string ∧ walk_all [sample_dir] = [str "cat"; str "bat"] ∧
       searched s ≡ₚ (named_files "" (Directory true sample_dir)).*1 ∧
       walk_all [sample_dir] ≡ₚ (named_files "" (Directory true sample_dir)).*2.
Proof.
  eexists. split; [vm_compute; reflexivity|]. split; [reflexivity|]. split; [reflexivity|].
  refine (grep_threads_search_the_same_files 1 true sample_dir _ _ _ _ _).
  - exists (only_thread 36). vm_compute. reflexivity.
  - vm_compute. reflexivity.
  - reflexivity.
  - reflexivity.
Defined.
