(* ===== verification/GrepOutput.v ===== *)
(** commands/grep.h: what any number of threads print.

    Processor.v has the threads and what they search, WriteLock.v the calls they
    make of the sink, Grep.v the text a worker finds. Here a state has all
    three: the threads of the processor, the sink with its mutex, and for each
    thread the pipeline it owns, whose nodes are those of Regex.v and Batch.v in
    front of a sink that notes the calls. *)

From S2P Require Import Prelude Kernel SimKernel Nodes Sinks Sources Batch Lines Regex WriteLock.
From S2P Require Import Grep GrepRun Processor GrepThreads.

#[local] Arguments view_of _ _ _ _ : simpl never.
#[local] Existing Instance recorder.

(** ** A worker and its pipeline *)

(** The part of the pipeline between [ReadFile] and [Write], with the part of
    the batch that has not been passed on, and what it has led to: the calls of
    the sink, the files searched with the chunks they were read in, and, while
    the calls of a search or of the last flush are being made, the chunks it is
    about. *)
Record local := Local {
  l_buffer : bytes;
  l_now : option (list bytes);
  l_flushed : bool;
  l_calls : list call;
  l_files : list (bytes * list bytes)
}.

Definition new_local : local := Local [] None false [] [].

Section search.
Context {DB Scratch : Type} `{Hyperscan DB Scratch} (st : VectorScanState DB Scratch).

Abbreviation search_node := (VectorScanNode (BatchNode (list call)) DB Scratch).

Definition node_with (buffer : bytes) : search_node :=
  mkVectorScanNode (mkBatchNode [] buffer) st.

(** [ReadFile] hands on the chunks of a file. *)
Fixpoint search_chunks (n : search_node) (chunks : list bytes) : M unit (option search_node) :=
  match chunks with
  | [] => mret (Some n)
  | chunk :: chunks =>
      '(n, r) ← call_span n chunk;
      match r with
      | Unexpected _ => mret None
      | Value _ => search_chunks n chunks
      end
  end.

(** The calls that searching these chunks leads to, and what stays behind. *)
Definition search_calls (buffer : bytes) (chunks : list bytes) : option (list call * bytes) :=
  match search_chunks (node_with buffer) chunks () with
  | (Done (Some n), _) => Some (b_next (vs_next n), buffer_ (vs_next n))
  | _ => None
  end.

(** The calls of the last flush, [get<2>(pipeline)()]. *)
Definition flush_calls (buffer : bytes) : list call :=
  match BatchNode_flush (mkBatchNode [] buffer) () with
  | (Done (n, _), _) => b_next n
  | _ => []
  end.

End search.

(** ** The machine *)

Record grep_state (W : Type) := GrepState {
  proc : state;
  sink : writers W;
  locals : list local;
  failed : bool
}.

Arguments GrepState {W}.
Arguments proc {W}.
Arguments sink {W}.
Arguments locals {W}.
Arguments failed {W}.

(** A step: one of the processor, the search of a file that is read in the given
    chunks, the last flush, or one of a call of the sink. *)
Inductive grep_label :=
  | GRun (l : label)
  | GSearch (t : nat) (chunks : list bytes)
  | GFlush (t : nat)
  | GWrite (t : nat).

Definition label_thread (l : label) : nat := match l with Run t _ | Spurious t => t end.

(** Steps of a worker in which it uses its pipeline. *)
Definition uses_pipeline (p : pc) : bool :=
  match p with Scan (EFile _ Searched :: _) _ _ | Flush => true | _ => false end.

Definition in_no_call (wr : writer) : bool :=
  match wr with Writer [] Between => true | _ => false end.

(** A [std::string] is shorter than the address space. *)
Definition fits (c : call) : bool := lenZ (c_data c) + 1 <? size_max.

(** The search of a file is over. *)
Definition settle (p : pc) (lo : local) : local :=
  match l_now lo, p with
  | Some chunks, Scan (EFile name Searched :: _) _ _ =>
      Local (l_buffer lo) None (l_flushed lo) (l_calls lo) (l_files lo ++ [(str name, chunks)])
  | _, _ => Local (l_buffer lo) None (l_flushed lo) (l_calls lo) (l_files lo)
  end.

Section machine.
Context {W : Type} `{Kernel W}.
Context {DB Scratch : Type} `{Hyperscan DB Scratch} (st : VectorScanState DB Scratch).
Context (hardware_concurrency : Z).

(** A thread that was just started has a pipeline of its own. *)
Definition with_new_thread (s : grep_state W) : grep_state W :=
  if (length (locals s) <? length (threads_ (proc s)))%nat then
    GrepState (proc s)
      (Writers (world (sink s)) (mutex (sink s)) (threads (sink s) ++ [Writer [] Between])
         (returned (sink s)))
      (locals s ++ [new_local]) (failed s)
  else s.

(** The processor goes on; a thread that uses its pipeline has made all its
    calls before. *)
Definition processor_step (l : label) (s : grep_state W) : option (grep_state W) :=
  let t := label_thread l in
  p ← threads_ (proc s) !! t;
  lo ← locals s !! t;
  wr ← threads (sink s) !! t;
  if negb (in_no_call wr) || uses_pipeline p && bool_decide (l_now lo = None) then None
  else
    proc' ← exec hardware_concurrency true l (proc s);
    Some (with_new_thread (GrepState proc' (sink s) (<[t := settle p lo]> (locals s)) (failed s))).

(** Thread [t] decides on the calls [cs]. *)
Definition make_calls (t : nat) (cs : list call) (buffer : bytes) (chunks : list bytes)
    (flushed : bool) (s : grep_state W) : option (grep_state W) :=
  lo ← locals s !! t;
  wr ← threads (sink s) !! t;
  if in_no_call wr && bool_decide (l_now lo = None) && forallb fits cs then
    Some (GrepState (proc s)
            (Writers (world (sink s)) (mutex (sink s)) (<[t := Writer cs Between]> (threads (sink s)))
               (returned (sink s)))
            (<[t := Local buffer (Some chunks) flushed (l_calls lo ++ cs) (l_files lo)]> (locals s))
            (failed s))
  else None.

Definition search_step (t : nat) (chunks : list bytes) (s : grep_state W) : option (grep_state W) :=
  lo ← locals s !! t;
  match threads_ (proc s) !! t with
  | Some (Scan (EFile name Searched :: _) _ _) =>
      if bool_decide (chunking (str name) chunks) then
        '(cs, buffer) ← search_calls st (l_buffer lo) chunks;
        make_calls t cs buffer chunks (l_flushed lo) s
      else None
  | _ => None
  end.

Definition flush_step (t : nat) (s : grep_state W) : option (grep_state W) :=
  lo ← locals s !! t;
  match threads_ (proc s) !! t with
  | Some Flush => make_calls t (flush_calls (l_buffer lo)) (l_buffer lo) [] true s
  | _ => None
  end.

(** A write that fails in a search becomes an exception; the result of the last
    flush is dropped. *)
Definition write_fails (t : nat) (s : grep_state W) : bool :=
  match threads (sink s) !! t, threads_ (proc s) !! t with
  | Some (Writer _ (Return _ (Unexpected _))), Some Flush => false
  | Some (Writer _ (Return _ (Unexpected _))), _ => true
  | _, _ => false
  end.

Definition write_step (t : nat) (s : grep_state W) : option (grep_state W) :=
  sink' ← writer_step t (sink s);
  Some (GrepState (proc s) sink' (locals s) (write_fails t s)).

(** A run is followed up to an exception. *)
Definition grep_exec (l : grep_label) (s : grep_state W) : option (grep_state W) :=
  if failed s then None
  else match l with
       | GRun l => processor_step l s
       | GSearch t chunks => search_step t chunks s
       | GFlush t => flush_step t s
       | GWrite t => write_step t s
       end.

Fixpoint grep_run (ls : list grep_label) (s : grep_state W) : option (grep_state W) :=
  match ls with
  | [] => Some s
  | l :: ls => s ← grep_exec l s; grep_run ls s
  end.

(** [run] has opened the directory [root]. *)
Definition grep_init (root : dir) (w : W) : grep_state W :=
  GrepState (init root) (writers_init [[]] w) [new_local] false.

End machine.

(** A step of the machine, or one of the system calls of the workers that leaves
    the standard output alone. *)
Inductive grep_step {W} `{LawfulKernel W} {DB Scratch} `{Hyperscan DB Scratch}
    (st : VectorScanState DB Scratch) (hc : Z) : grep_state W → grep_state W → Prop :=
  | grep_step_exec l s s' : grep_exec st hc l s = Some s' → grep_step st hc s s'
  | grep_step_elsewhere s w :
      v_out (view_of w) = v_out (view_of (world (sink s))) →
      grep_step st hc s
        (GrepState (proc s) (Writers w (mutex (sink s)) (threads (sink s)) (returned (sink s)))
           (locals s) (failed s)).

(** ** What the pipeline calls *)

(** Calls without a line break of their own, that print [bs]. *)
Definition plain_calls (cs : list call) (bs : bytes) : Prop :=
  Forall (λ c, c_newline c = false) cs ∧ concat (c_data <$> cs) = bs.

Lemma plain_calls_app cs cs' bs bs' :
  plain_calls cs bs → plain_calls cs' bs' → plain_calls (cs ++ cs') (bs ++ bs').
Proof.
  intros [Hcs <-] [Hcs' <-]. split; [by apply Forall_app|]. by rewrite fmap_app, concat_app.
Qed.

(** Everything that goes into the batch comes out in calls or stays in it. *)
Lemma recorder_feed (ds : list bytes) (cs : list call) (buffer : bytes) :
  ∃ cs' bs buffer',
    feed (mkBatchNode cs buffer) ds () = (Done (mkBatchNode (cs ++ cs') buffer', None), ()) ∧
    plain_calls cs' bs ∧ bs ++ buffer' = buffer ++ concat ds.
Proof.
  revert cs buffer. induction ds as [|d ds IH]; intros cs buffer.
  { exists [], [], buffer. simpl. rewrite !app_nil_r. by split_and!. }
  simpl. unfold mbind, M_bind, call_view, BatchNode_view. cbn [buffer_ b_next].
  destruct (buffer_size <=? lenZ (buffer ++ d)).
  - cbn. destruct (IH (cs ++ [Call (buffer ++ d) false]) []) as (cs' & bs & buffer' & Hf & Hp & Hb).
    exists (Call (buffer ++ d) false :: cs'), ((buffer ++ d) ++ bs), buffer'. split_and!.
    + rewrite <- app_assoc in Hf. exact Hf.
    + apply (plain_calls_app [Call (buffer ++ d) false]); [|done]. split; [by constructor|].
      simpl. by rewrite app_nil_r.
    + rewrite <- app_assoc, Hb. simpl. by rewrite <- app_assoc.
  - cbn. destruct (IH cs (buffer ++ d)) as (cs' & bs & buffer' & Hf & Hp & Hb).
    exists cs', bs, buffer'. split_and!; [exact Hf|done|]. by rewrite Hb, <- app_assoc.
Qed.

Section searching.
Context {DB Scratch : Type} `{LawfulHyperscan DB Scratch} (st : VectorScanState DB Scratch).
Hypothesis scan_ok : ∀ d, (hs_scan (vs_db st) d (vs_scratch st)).1 = HS_SUCCESS.

Lemma search_chunks_law (chunks : list bytes) (cs : list call) (buffer : bytes) :
  Forall (λ d, lenZ d < size_max) chunks →
  ∃ cs' bs buffer',
    search_chunks (mkVectorScanNode (mkBatchNode cs buffer) st) chunks () =
      (Done (Some (mkVectorScanNode (mkBatchNode (cs ++ cs') buffer') st)), ()) ∧
    plain_calls cs' bs ∧ bs ++ buffer' = buffer ++ text st chunks.
Proof.
  intros Hsz. revert cs buffer. induction Hsz as [|d chunks Hd _ IH]; intros cs buffer.
  { exists [], [], buffer. simpl. rewrite !app_nil_r. by split_and!. }
  destruct (recorder_feed (pieces (found st d)) cs buffer) as (cs1 & bs1 & buffer1 & Hf & Hp1 & Hb1).
  destruct (IH (cs ++ cs1) buffer1) as (cs2 & bs2 & buffer2 & Hs & Hp2 & Hb2).
  exists (cs1 ++ cs2), (bs1 ++ bs2), buffer2. split_and!.
  - cbn [search_chunks]. unfold mbind at 1, M_bind at 1.
    rewrite vectorscan_span_feed by (done || apply scan_ok). cbn [vs_state vs_next].
    fold (found st d). unfold mbind, M_bind, catching. rewrite Hf. cbn [outcome_bind].
    cbn. rewrite (app_assoc cs cs1 cs2). exact Hs.
  - by apply plain_calls_app.
  - rewrite <- app_assoc, Hb2, app_assoc, Hb1, concat_pieces, <- app_assoc.
    change (d :: chunks) with ([d] ++ chunks). rewrite text_app. unfold text at 2. simpl.
    by rewrite app_nil_r.
Qed.

Lemma search_calls_law (buffer : bytes) (chunks : list bytes) (c : bytes) cs buffer' :
  chunking c chunks → search_calls st buffer chunks = Some (cs, buffer') →
  ∃ bs, plain_calls cs bs ∧ bs ++ buffer' = buffer ++ text st chunks.
Proof.
  intros [_ Hch] Hs. unfold search_calls, node_with in Hs.
  destruct (search_chunks_law chunks [] buffer) as (cs1 & bs & buffer1 & Hc & Hp & Hb).
  { eapply Forall_impl; [done|]. unfold ReadFile.max_size, size_max. simpl. lia. }
  rewrite Hc in Hs. simpl in Hs. simplify_eq. by exists bs.
Qed.

Lemma flush_calls_law (buffer : bytes) : plain_calls (flush_calls buffer) buffer.
Proof. split; [by constructor|]. simpl. by rewrite app_nil_r. Qed.

End searching.

(** ** What a step of the processor does to the threads *)

(** A worker has left its loop, and has flushed. *)
Definition gone (p : pc) : bool :=
  match p with Dtor | DtorNotify | Join | Exited => true | _ => false end.

(** The file a thread is about to search. *)
Definition at_file (p : pc) : list string :=
  match p with Scan (EFile name Searched :: _) _ _ => [name] | _ => [] end.

Section processor_steps.
Context (hc : Z).

(** The thread that takes the step. *)
Lemma exec_own l s s' p :
  exec hc true l s = Some s' → thrown s' = None → threads_ s !! label_thread l = Some p →
  ∃ p', threads_ s' !! label_thread l = Some p' ∧ searched s' = searched s ++ at_file p ∧
        gone p' = gone p || match p with Flush => true | _ => false end.
Proof.
  intros He Hth Hp. pose proof (lookup_lt_Some _ _ _ Hp) as Hlt.
  unfold exec in He. destruct (terminated s); [done|]. destruct l as [t w|t]; simpl in *.
  - rewrite Hp in He. simpl in He.
    destruct p; simpl in He; unfold acquire in He; thread_cases He; simpl in Hth; try done;
      cbn [set_pc set_threads set_queue set_mutex set_running set_pending log set_bad
           threads_ searched at_file gone orb] in *;
      rewrite ?app_nil_r, ?list_lookup_fmap, ?list_lookup_insert_eq by (rewrite ?length_insert; done);
      try (eexists; split_and!; [reflexivity|done|done]).
    + rewrite lookup_app_l by by rewrite length_insert. rewrite list_lookup_insert_eq by done. eauto.
    + eauto.
  - rewrite Hp in He. simpl in He. destruct p; simplify_eq/=. rewrite list_lookup_insert_eq by done.
    eexists. rewrite app_nil_r. by split_and!.
Qed.

(** The others: one may be started, and sleeping ones may wake up. *)
Lemma exec_others l s s' :
  exec hc true l s = Some s' → thrown s' = None →
  (length (threads_ s') = length (threads_ s) ∨
   length (threads_ s') = S (length (threads_ s)) ∧
   threads_ s' !! length (threads_ s) = Some Start) ∧
  ∀ t p, t ≠ label_thread l → threads_ s !! t = Some p →
         threads_ s' !! t = Some p ∨ p = Asleep ∧ threads_ s' !! t = Some Relock.
Proof.
  intros He Hth. unfold exec in He. destruct (terminated s); [done|].
  destruct l as [t w|t]; simpl in *; destruct (threads_ s !! t) as [p|] eqn:Hp; simpl in He; try done.
  - destruct p; simpl in He; unfold acquire in He; thread_cases He; simpl in Hth; try done;
      cbn [set_pc set_threads set_queue set_mutex set_running set_pending log set_bad threads_] in *;
      rewrite ?length_app, ?length_map, ?length_insert;
      (split; [try (by left)|intros t' p' Hne Hp';
        try (left; rewrite ?list_lookup_insert_ne by done; done)]).
    + right. split; [simpl; lia|]. by rewrite lookup_app_r, length_insert, Nat.sub_diag by by rewrite length_insert.
    + left. rewrite lookup_app_l by (rewrite length_insert; by eapply lookup_lt_Some).
      by rewrite list_lookup_insert_ne.
    + rewrite list_lookup_insert_ne by done. destruct (decide (t' = w)) as [->|Hw].
      * right. split; [congruence|]. rewrite list_lookup_insert_eq; [done|by eapply lookup_lt_Some].
      * left. by rewrite list_lookup_insert_ne.
    + rewrite list_lookup_fmap, list_lookup_insert_ne, Hp' by done. destruct p'; auto.
    + rewrite list_lookup_fmap, list_lookup_insert_ne, Hp' by done. destruct p'; auto.
  - destruct p; simplify_eq/=. rewrite length_insert. split; [by left|].
    intros t' p' Hne Hp'. left. by rewrite list_lookup_insert_ne.
Qed.

(** The thread of [run] leaves last. *)
Lemma exec_joined l s s' :
  exec hc true l s = Some s' → thrown s' = None →
  (threads_ s !! 0%nat = Some Exited → Forall (.= Exited) (threads_ s)) →
  threads_ s' !! 0%nat = Some Exited → Forall (.= Exited) (threads_ s').
Proof.
  intros He Hth Hbefore H0. destruct (exec_others l s s' He Hth) as [_ Hothers].
  destruct (decide (label_thread l = 0%nat)) as [Hl|Hl].
  - unfold exec in He. destruct (terminated s); [done|].
    destruct l as [t w|t]; simpl in *; subst t; destruct (threads_ s !! 0%nat) as [p|] eqn:Hp;
      simpl in He; try done.
    + pose proof (lookup_lt_Some _ _ _ Hp) as Hlt.
      destruct p; simpl in He; unfold acquire in He; thread_cases He; simpl in H0, Hth; try done;
        rewrite ?list_lookup_fmap, ?list_lookup_insert_eq in H0 by (rewrite ?length_insert; done);
        try done; rewrite ?Hp in H0; try done.
      * rewrite lookup_app_l, list_lookup_insert_eq in H0 by (rewrite ?length_insert; done). done.
      * simpl. destruct (threads_ s) as [|p ps]; [done|]. simpl in *. constructor; [done|].
        apply Forall_forall. intros q Hq. rewrite forallb_forall in Heqb.
        specialize (Heqb q ltac:(by apply list_elem_of_In)). by destruct q.
    + destruct p; simplify_eq/=. rewrite list_lookup_insert_eq in H0 by by eapply lookup_lt_Some. done.
  - destruct (threads_ s !! 0%nat) as [p|] eqn:Hp.
    + destruct (Hothers 0%nat p ltac:(done) Hp) as [Hp'|[_ Hp']]; rewrite H0 in Hp'; simplify_eq.
      specialize (Hbefore eq_refl). exfalso. rewrite Forall_lookup in Hbefore.
      unfold exec in He. destruct (terminated s); [done|].
      destruct l as [t w|t]; simpl in He; destruct (threads_ s !! t) as [q|] eqn:Hq; simpl in He;
        try done; apply Hbefore in Hq; by subst q.
    + exfalso. assert (threads_ s = []) as Hnil by by destruct (threads_ s).
      unfold exec in He. destruct (terminated s); [done|].
      by destruct l as [t w|t]; simpl in He; rewrite Hnil in He.
Qed.

End processor_steps.

Lemma reachable_exec hc ok root l s s' :
  reachable hc ok root s → exec hc ok l s = Some s' → reachable hc ok root s'.
Proof.
  intros [ls Hls] He. exists (ls ++ [l]). revert Hls. generalize (init root).
  induction ls as [|l' ls IH]; intros s0 Hls; simpl in *; [simplify_eq; by rewrite He|].
  destruct (exec hc ok l' s0) as [s1|]; [by apply IH|done].
Qed.

(** One element of a list gives more than before. *)
Lemma bind_insert {A B} (f : A → list B) (l : list A) t x y extra :
  l !! t = Some x → f y = f x ++ extra → (<[t := y]> l ≫= f) ≡ₚ (l ≫= f) ++ extra.
Proof.
  intros Ht Hf. revert t Ht. induction l as [|z l IH]; intros [|t] Ht; simplify_eq/=.
  - rewrite Hf, <- !app_assoc. f_equiv. apply Permutation_app_comm.
  - by rewrite IH, app_assoc.
Qed.

(** ** The invariant *)

Section invariant.
Context {W : Type} `{LawfulKernel W}.
Context {DB Scratch : Type} `{LawfulHyperscan DB Scratch} (st : VectorScanState DB Scratch).
Hypothesis scan_ok : ∀ d, (hs_scan (vs_db st) d (vs_scratch st)).1 = HS_SUCCESS.
Context (hc : Z) (root : dir) (out0 : bytes).

(** A thread with its calls and its pipeline: what it has found so far is what
    its calls print and what is left in its batch; calls are only made while it
    searches or flushes; and it leaves after the flush. *)
Record local_ok (p : pc) (wr : writer) (lo : local) : Prop := {
  lk_idle : l_now lo = None → in_no_call wr = true;
  lk_now chunks : l_now lo = Some chunks →
    (∃ name, at_file p = [name] ∧ chunking (str name) chunks) ∨
    (p = Flush ∧ chunks = [] ∧ l_flushed lo = true);
  lk_flushed : l_flushed lo = true → p = Flush ∧ l_now lo ≠ None ∨ gone p = true;
  lk_gone : gone p = true → l_flushed lo = true;
  lk_text : ∃ bs, plain_calls (l_calls lo) bs ∧
    bs ++ (if l_flushed lo then [] else l_buffer lo)
      = all_text st ((l_files lo).*2 ++ option_list (l_now lo));
  lk_files : Forall (λ f, chunking f.1 f.2) (l_files lo);
  lk_fits : Forall (λ c, fits c = true) (l_calls lo)
}.

Record grep_inv (s : grep_state W) : Prop := {
  gi_proc : reachable hc true root (proc s);
  gi_joined : threads_ (proc s) !! 0%nat = Some Exited → Forall (.= Exited) (threads_ (proc s));
  gi_sink : writers_inv (l_calls <$> locals s) out0 (sink s);
  gi_length : length (threads_ (proc s)) = length (locals s);
  gi_locals t p wr lo :
    threads_ (proc s) !! t = Some p → threads (sink s) !! t = Some wr → locals s !! t = Some lo →
    local_ok p wr lo;
  gi_log : (locals s ≫= λ lo, (l_files lo).*1) ≡ₚ str <$> searched (proc s)
}.

Lemma new_local_ok : local_ok Start (Writer [] Between) new_local.
Proof. split; try done. by exists []. Qed.

Lemma grep_init_inv (w : W) : v_out (view_of w) = out0 → grep_inv (grep_init root w).
Proof.
  intros Hw. split; try done.
  - by exists [].
  - by apply writers_init_inv.
  - intros [|t] p wr lo; [|done]. simpl. intros [= <-] [= <-] [= <-].
    split; try done. by exists [].
Qed.

(** All three are lists over the same threads. *)
Lemma grep_lookup s t p :
  grep_inv s → threads_ (proc s) !! t = Some p →
  ∃ wr lo, threads (sink s) !! t = Some wr ∧ locals s !! t = Some lo ∧ local_ok p wr lo.
Proof.
  intros Hinv Hp. pose proof (lookup_lt_Some _ _ _ Hp) as Hlt.
  rewrite (gi_length _ Hinv) in Hlt. destruct (lookup_lt_is_Some_2 _ _ Hlt) as [lo Hlo].
  pose proof (wi_threads _ _ _ (gi_sink _ Hinv)) as Hlen. rewrite length_fmap in Hlen.
  destruct (lookup_lt_is_Some_2 (threads (sink s)) t) as [wr Hwr]; [lia|].
  exists wr, lo. split_and!; [done|done|]. by eapply gi_locals.
Qed.

Lemma calls_fit s : grep_inv s →
  Forall (Forall (λ c, lenZ (c_data c) + 1 < size_max)) (l_calls <$> locals s).
Proof.
  intros Hinv. apply Forall_fmap, Forall_lookup. intros t lo Hlo. unfold compose.
  pose proof (lookup_lt_Some _ _ _ Hlo) as Hlt. rewrite <- (gi_length _ Hinv) in Hlt.
  destruct (lookup_lt_is_Some_2 _ _ Hlt) as [p Hp].
  destruct (grep_lookup s t p Hinv Hp) as (wr & lo' & _ & Hlo' & Hok). simplify_eq.
  eapply Forall_impl; [apply Hok|]. intros c Hc. unfold fits in Hc. simpl in Hc. lia.
Qed.

(** ** The steps *)

(** A step of a call. *)
Lemma writer_step_moves t (s s' : writers W) :
  writer_step t s = Some s' →
  ∃ wr wr', threads s !! t = Some wr ∧ in_no_call wr = false ∧ threads s' = <[t := wr']> (threads s).
Proof.
  unfold writer_step. destruct (threads s !! t) as [[cs p]|] eqn:Ht; [|done]. simpl. intros Hs.
  exists (Writer cs p). destruct p as [|c k|c k|c r].
  - destruct cs as [|c cs], (mutex s); simplify_eq. by eexists.
  - destruct (Write.write_round (c_data c) k (world s)) as [[[k'|[k'|e]]| | | |] w];
      simplify_eq; by destruct cs; eexists.
  - destruct (c_newline c); [destruct (sys_write STDOUT_FILENO [nl] (world s)) as [[n| | | |] w]|];
      simplify_eq; by destruct cs; eexists.
  - simplify_eq. by destruct cs; eexists.
Qed.

Lemma write_step_inv t s s' : grep_inv s → write_step t s = Some s' → grep_inv s'.
Proof.
  intros Hinv Hs. unfold write_step in Hs.
  destruct (writer_step t (sink s)) as [sink'|] eqn:Hw; simplify_eq/=.
  destruct (writer_step_moves t (sink s) sink' Hw) as (wr & wr' & Ht & Hidle & Hths).
  pose proof (calls_fit s Hinv) as Hfit. destruct Hinv as [Hproc Hjoin Hsink Hlen Hloc Hlog].
  split; simpl; try done.
  - by eapply writer_step_inv.
  - intros t' p wr1 lo Hp Hwr1 Hlo. rewrite Hths in Hwr1.
    apply list_lookup_insert_Some in Hwr1 as [(<- & <- & _)|[_ Hwr1]]; [|by eapply Hloc].
    pose proof (Hloc t p wr lo Hp Ht Hlo) as Hok. split; try apply Hok.
    intros Hnow. rewrite (lk_idle _ _ _ Hok Hnow) in Hidle. done.
Qed.

Lemma elsewhere_inv s w :
  grep_inv s → v_out (view_of w) = v_out (view_of (world (sink s))) →
  grep_inv (GrepState (proc s) (Writers w (mutex (sink s)) (threads (sink s)) (returned (sink s)))
              (locals s) (failed s)).
Proof.
  intros Hinv Hw. pose proof (calls_fit s Hinv) as Hfit.
  destruct Hinv as [Hproc Hjoin Hsink Hlen Hloc Hlog]. split; simpl; try done.
  eapply writers_reach_inv; [done|done|]. by apply rtc_once, step_elsewhere.
Qed.

(** The calls of a search and of the flush. *)
Lemma make_calls_inv t cs buffer chunks flushed p lo s s' :
  grep_inv s → threads_ (proc s) !! t = Some p → locals s !! t = Some lo →
  make_calls t cs buffer chunks flushed s = Some s' →
  (∀ wr, l_now lo = None → local_ok p wr lo → Forall (λ c, fits c = true) cs →
     local_ok p (Writer cs Between) (Local buffer (Some chunks) flushed (l_calls lo ++ cs) (l_files lo))) →
  grep_inv s'.
Proof.
  intros Hinv Hp Hlo Hs Hok. unfold make_calls in Hs. rewrite Hlo in Hs. simpl in Hs.
  destruct (threads (sink s) !! t) as [wr|] eqn:Hwr; [|done]. simpl in Hs.
  destruct (in_no_call wr) eqn:Hidle; [|done].
  destruct (bool_decide (l_now lo = None)) eqn:Hnow; [|done].
  destruct (forallb fits cs) eqn:Hfits; simplify_eq/=. apply bool_decide_eq_true in Hnow.
  destruct wr as [[|c cs'] [| | |]]; try done.
  assert (Hnew : local_ok p (Writer cs Between)
                   (Local buffer (Some chunks) flushed (l_calls lo ++ cs) (l_files lo))).
  { apply (Hok (Writer [] Between)); [done|by eapply gi_locals|].
    apply Forall_forall. intros c Hc. rewrite forallb_forall in Hfits. apply Hfits.
    by apply list_elem_of_In. }
  destruct Hinv as [Hproc Hjoin Hsink Hlen Hloc Hlog]. split; simpl; try done.
  - rewrite list_fmap_insert. apply (more_calls_inv _ _ _ t [] Between (l_calls lo) cs Hsink Hwr).
    by rewrite list_lookup_fmap, Hlo.
  - by rewrite length_insert.
  - intros t' p' wr' lo' Hp' Hwr' Hlo'.
    apply list_lookup_insert_Some in Hlo' as [(<- & <- & _)|[Hne Hlo']].
    + rewrite list_lookup_insert_eq in Hwr' by by eapply lookup_lt_Some. rewrite Hp in Hp'.
      by simplify_eq.
    + rewrite list_lookup_insert_ne in Hwr' by done. by eapply Hloc.
  - rewrite <- Hlog. rewrite (bind_insert _ _ t lo _ []); [by rewrite app_nil_r|done|].
    simpl. by rewrite app_nil_r.
Qed.

Lemma all_text_snoc chunkss chunks :
  all_text st (chunkss ++ [chunks]) = all_text st chunkss ++ text st chunks.
Proof. unfold all_text. rewrite fmap_app, concat_app. simpl. by rewrite app_nil_r. Qed.

Lemma search_step_inv t chunks s s' : grep_inv s → search_step st t chunks s = Some s' → grep_inv s'.
Proof.
  intros Hinv Hs. unfold search_step in Hs.
  destruct (locals s !! t) as [lo|] eqn:Hlo; [|done]. simpl in Hs.
  destruct (threads_ (proc s) !! t) as [p|] eqn:Hp; [|done].
  assert (∃ name, at_file p = [name] ∧ p ≠ Flush ∧ gone p = false ∧
            (if bool_decide (chunking (str name) chunks)
             then '(cs, buffer) ← search_calls st (l_buffer lo) chunks;
                  make_calls t cs buffer chunks (l_flushed lo) s
             else None) = Some s') as (name & Hname & Hnf & Hng & Hs').
  { destruct p; try done. destruct es as [|[| |name []|] es]; try done. by exists name. }
  case_bool_decide as Hch; [|done].
  destruct (search_calls st (l_buffer lo) chunks) as [[cs buffer]|] eqn:Hcalls; [|done]. simpl in Hs'.
  destruct (search_calls_law st scan_ok _ _ _ _ _ Hch Hcalls) as (bs & Hplain & Hbs).
  eapply make_calls_inv; [done|done|done|exact Hs'|].
  intros wr Hnow Hok Hfits.
  assert (l_flushed lo = false) as Hfl.
  { destruct (l_flushed lo) eqn:Hfl; [|done]. destruct (lk_flushed _ _ _ Hok Hfl) as [[? _]|]; congruence. }
  split; simpl; try done.
  - intros chunks' [= <-]. left. by exists name.
  - by rewrite Hfl.
  - by rewrite Hng.
  - destruct (lk_text _ _ _ Hok) as (bs0 & Hplain0 & Hbs0). rewrite Hfl, Hnow in Hbs0. simpl in Hbs0.
    rewrite app_nil_r in Hbs0. exists (bs0 ++ bs). split; [by apply plain_calls_app|].
    rewrite Hfl, all_text_snoc, <- Hbs0, <- app_assoc, Hbs. by rewrite app_assoc.
  - apply Hok.
  - apply Forall_app. split; [apply Hok|done].
Qed.

Lemma flush_step_inv t s s' : grep_inv s → flush_step t s = Some s' → grep_inv s'.
Proof.
  intros Hinv Hs. unfold flush_step in Hs.
  destruct (locals s !! t) as [lo|] eqn:Hlo; [|done]. simpl in Hs.
  destruct (threads_ (proc s) !! t) as [p|] eqn:Hp; [|done].
  assert (p = Flush ∧ make_calls t (flush_calls (l_buffer lo)) (l_buffer lo) [] true s = Some s')
    as [-> Hs'] by by destruct p.
  eapply make_calls_inv; [done|done|done|exact Hs'|].
  intros wr Hnow Hok Hfits.
  assert (l_flushed lo = false) as Hfl.
  { destruct (l_flushed lo) eqn:Hfl; [|done]. by destruct (lk_flushed _ _ _ Hok Hfl) as [[_ ?]|]. }
  split; try done.
  - intros chunks [= <-]. by right.
  - by left.
  - destruct (lk_text _ _ _ Hok) as (bs0 & Hplain0 & Hbs0). rewrite Hnow, Hfl in Hbs0. simpl in Hbs0.
    rewrite app_nil_r in Hbs0. exists (bs0 ++ l_buffer lo).
    split; [apply plain_calls_app; [done|apply flush_calls_law]|].
    simpl. rewrite all_text_snoc, <- Hbs0, app_nil_r. unfold text. simpl. by rewrite app_nil_r.
  - apply Hok.
  - apply Forall_app. split; [apply Hok|done].
Qed.

(** The processor goes on. *)
Lemma settle_ok p p' wr lo :
  local_ok p wr lo → in_no_call wr = true → uses_pipeline p && bool_decide (l_now lo = None) = false →
  gone p' = gone p || match p with Flush => true | _ => false end →
  local_ok p' wr (settle p lo) ∧ l_calls (settle p lo) = l_calls lo ∧
  (l_files (settle p lo)).*1 = (l_files lo).*1 ++ (str <$> at_file p).
Proof.
  intros Hok Hidle Huse Hgone. destruct (lk_text _ _ _ Hok) as (bs & Hplain & Hbs).
  destruct (l_now lo) as [chunks|] eqn:Hnow.
  - destruct (lk_now _ _ _ Hok chunks Hnow) as [(name & Hname & Hch)|(-> & -> & Hfl)].
    + assert (settle p lo = Local (l_buffer lo) None (l_flushed lo) (l_calls lo)
                              (l_files lo ++ [(str name, chunks)]) ∧ gone p' = false ∧ p ≠ Flush)
        as (-> & Hg & Hnf).
      { unfold settle. rewrite Hnow. destruct p; try done.
        destruct es as [|[| |name' []|] es]; simplify_eq/=; done. }
      rewrite Hname. split_and!; [|done|simpl; by rewrite fmap_app]. split; simpl; try done.
      * intros Hfl. destruct (lk_flushed _ _ _ Hok Hfl) as [[? _]|Hgp]; [done|]. rewrite Hgp in Hgone.
        simpl in Hgone. congruence.
      * by rewrite Hg.
      * exists bs. rewrite fmap_app. simpl. by rewrite app_nil_r.
      * apply Forall_app. split; [apply Hok|by constructor].
      * apply Hok.
    + assert (settle Flush lo = Local (l_buffer lo) None (l_flushed lo) (l_calls lo) (l_files lo)) as ->
        by (unfold settle; by rewrite Hnow).
      split_and!; [|done|simpl; by rewrite app_nil_r]. split; simpl; try done.
      * by right.
      * exists bs. simpl in Hbs. rewrite all_text_snoc in Hbs. unfold text in Hbs. simpl in Hbs.
        by rewrite app_nil_r in Hbs |- *.
      * apply Hok.
      * apply Hok.
  - rewrite bool_decide_true, andb_true_r in Huse by done.
    assert (settle p lo = Local (l_buffer lo) None (l_flushed lo) (l_calls lo) (l_files lo)) as ->
      by (unfold settle; by rewrite Hnow).
    assert (at_file p = [] ∧ gone p' = gone p ∧ p ≠ Flush) as (-> & Hg & Hnf).
    { destruct p; try done; simpl in *; [destruct es as [|[| |name []|] es]; done|..]; done. }
    split_and!; [|done|simpl; by rewrite app_nil_r]. split; simpl; try done.
    + intros Hfl. right. destruct (lk_flushed _ _ _ Hok Hfl) as [[? _]|]; [done|congruence].
    + rewrite Hg. apply Hok.
    + by exists bs.
    + apply Hok.
    + apply Hok.
Qed.

(** What the threads that take no step see of it. *)
Lemma woken_ok wr lo : local_ok Asleep wr lo → local_ok Relock wr lo.
Proof.
  intros Hok. split; try apply Hok; try done.
  - intros chunks Hnow. by destruct (lk_now _ _ _ Hok chunks Hnow) as [(? & ? & _)|[? _]].
  - intros Hfl. by destruct (lk_flushed _ _ _ Hok Hfl) as [[? _]|].
Qed.

(** The threads there were, after thread [t] of the processor took a step. *)
Lemma step_locals_ok t s (proc' : state) p' wr lo :
  grep_inv s → threads_ proc' !! t = Some p' → threads (sink s) !! t = Some wr → local_ok p' wr lo →
  (∀ u q, u ≠ t → threads_ (proc s) !! u = Some q →
     threads_ proc' !! u = Some q ∨ q = Asleep ∧ threads_ proc' !! u = Some Relock) →
  ∀ u q wr1 lo1, threads_ proc' !! u = Some q → threads (sink s) !! u = Some wr1 →
    <[t := lo]> (locals s) !! u = Some lo1 → local_ok q wr1 lo1.
Proof.
  intros Hinv Hp' Hwr Hok Hothers u q wr1 lo1 Hq Hwr1 Hlo1.
  apply list_lookup_insert_Some in Hlo1 as [(<- & <- & _)|[Hne Hlo1]]; [congruence|].
  pose proof (lookup_lt_Some _ _ _ Hlo1) as Hlt. rewrite <- (gi_length _ Hinv) in Hlt.
  destruct (lookup_lt_is_Some_2 _ _ Hlt) as [p0 Hp0].
  pose proof (gi_locals _ Hinv u p0 wr1 lo1 Hp0 Hwr1 Hlo1) as Hok1.
  destruct (Hothers u p0 ltac:(done) Hp0) as [Hsame|[-> Hwoken]]; [congruence|].
  rewrite Hwoken in Hq. simplify_eq. by apply woken_ok.
Qed.

Lemma processor_step_inv l s s' :
  grep_inv s → processor_step hc l s = Some s' → thrown (proc s') = None → grep_inv s'.
Proof.
  intros Hinv Hs Hth. unfold processor_step in Hs. set (t := label_thread l) in *.
  destruct (threads_ (proc s) !! t) as [p|] eqn:Hp; [|done]. simpl in Hs.
  destruct (grep_lookup s t p Hinv Hp) as (wr & lo & Hwr & Hlo & Hok).
  rewrite Hlo, Hwr in Hs. simpl in Hs.
  destruct (in_no_call wr) eqn:Hidle; [|done]. simpl in Hs.
  destruct (uses_pipeline p && bool_decide (l_now lo = None)) eqn:Huse; [done|].
  destruct (exec hc true l (proc s)) as [proc'|] eqn:He; simplify_eq/=.
  assert (Hth' : thrown proc' = None) by (unfold with_new_thread in Hth; by case_match).
  destruct (exec_own hc l _ _ p He Hth' Hp) as (p' & Hp' & Hlog & Hgone).
  destruct (exec_others hc l _ _ He Hth') as [Hlen Hothers].
  destruct (settle_ok p p' wr lo Hok Hidle Huse Hgone) as (Hok' & Hcalls & Hfiles).
  assert (HA : l_calls <$> <[t := settle p lo]> (locals s) = l_calls <$> locals s).
  { rewrite list_fmap_insert, Hcalls. apply list_insert_id. by rewrite list_lookup_fmap, Hlo. }
  assert (HB : ∀ t1 p1 wr1 lo1, threads_ proc' !! t1 = Some p1 → threads (sink s) !! t1 = Some wr1 →
            <[t := settle p lo]> (locals s) !! t1 = Some lo1 → local_ok p1 wr1 lo1).
  { by eapply step_locals_ok. }
  assert (HC : (<[t := settle p lo]> (locals s) ≫= λ lo, (l_files lo).*1) ≡ₚ str <$> searched proc').
  { rewrite (bind_insert _ _ t lo _ (str <$> at_file p) Hlo Hfiles), Hlog, fmap_app.
    f_equiv. apply Hinv. }
  pose proof (reachable_exec _ _ _ _ _ _ (gi_proc _ Hinv) He) as Hreach.
  pose proof (exec_joined hc l _ _ He Hth' (gi_joined _ Hinv)) as Hjoin.
  pose proof (gi_length _ Hinv) as Hlen0. unfold with_new_thread. simpl. rewrite length_insert.
  destruct Hlen as [Hlen|[Hlen Hnew]].
  - rewrite (proj2 (Nat.ltb_ge _ _)) by lia. split; simpl; try done.
    + rewrite HA. apply Hinv.
    + rewrite length_insert. lia.
  - rewrite (proj2 (Nat.ltb_lt _ _)) by lia. split; simpl; try done.
    + rewrite fmap_app, HA. apply new_writer_inv, Hinv.
    + rewrite length_app, length_insert. simpl. lia.
    + pose proof (wi_threads _ _ _ (gi_sink _ Hinv)) as Hths. rewrite length_fmap in Hths.
      intros t1 p1 wr1 lo1 Hp1 Hwr1 [Hlo1|[Hge Hlo1]]%lookup_app_Some.
      * pose proof (lookup_lt_Some _ _ _ Hlo1) as Hlt. rewrite length_insert in Hlt.
        rewrite lookup_app_l in Hwr1 by lia. by eapply HB.
      * apply list_lookup_singleton_Some in Hlo1 as [Hz <-]. rewrite length_insert in Hge, Hz.
        assert (t1 = length (threads_ (proc s))) as -> by lia. rewrite Hnew in Hp1.
        rewrite lookup_app_r in Hwr1 by lia. apply list_lookup_singleton_Some in Hwr1 as [_ <-].
        simplify_eq. apply new_local_ok.
    + rewrite bind_app. simpl. by rewrite app_nil_r.
Qed.

Lemma grep_exec_inv l s s' :
  grep_inv s → grep_exec st hc l s = Some s' → thrown (proc s') = None → grep_inv s'.
Proof.
  intros Hinv Hs Hth. unfold grep_exec in Hs. destruct (failed s); [done|]. destruct l.
  - by eapply processor_step_inv.
  - by eapply search_step_inv.
  - by eapply flush_step_inv.
  - by eapply write_step_inv.
Qed.

(** An exception stays. *)
Lemma make_calls_proc t cs buffer chunks flushed (s s' : grep_state W) :
  make_calls t cs buffer chunks flushed s = Some s' → proc s' = proc s.
Proof.
  unfold make_calls. intros Hs. destruct (locals s !! t) as [lo|]; [|done].
  destruct (threads (sink s) !! t) as [wr|]; [|done]. simpl in Hs. by case_match; simplify_eq.
Qed.

Lemma grep_thrown_stays l s s' :
  grep_exec st hc l s = Some s' → thrown (proc s') = None → thrown (proc s) = None.
Proof.
  unfold grep_exec. intros Hs Hth. destruct (failed s); [done|]. destruct l as [l|t chunks|t|t].
  - unfold processor_step in Hs.
    destruct (threads_ (proc s) !! _); [|done]. destruct (locals s !! _); [|done].
    destruct (threads (sink s) !! _); [|done]. simpl in Hs. case_match; [done|].
    destruct (exec hc true l (proc s)) as [proc'|] eqn:He; simplify_eq/=.
    eapply thrown_stays; [done|]. unfold with_new_thread in Hth. by case_match.
  - unfold search_step in Hs. destruct (locals s !! t); [|done]. simpl in Hs.
    repeat (case_match; try done). destruct (search_calls _ _ _) as [[cs b]|]; [|done].
    simpl in Hs. apply make_calls_proc in Hs. congruence.
  - unfold flush_step in Hs. destruct (locals s !! t); [|done]. simpl in Hs.
    repeat (case_match; try done). apply make_calls_proc in Hs. congruence.
  - unfold write_step in Hs. destruct (writer_step t (sink s)); by simplify_eq/=.
Qed.

Lemma grep_reach_inv s s' :
  grep_inv s → rtc (grep_step st hc) s s' → thrown (proc s') = None → grep_inv s'.
Proof.
  intros Hinv. revert s'. apply (rtc_ind_r (λ s', thrown (proc s') = None → grep_inv s')); [done|].
  intros s1 s2 _ Hs IH Hth.
  destruct Hs as [l s1 s2 Hs|s1 w Hw].
  - eapply grep_exec_inv; [|done|done]. apply IH. by eapply grep_thrown_stays.
  - apply elsewhere_inv; [by apply IH|done].
Qed.

End invariant.

(** ** The end of a run *)

(** What thread [t] has printed, by the pieces of all of them. *)
Definition printed_by (t : nat) (pieces : list (nat * bytes)) : bytes :=
  concat (filter (λ e, e.1 = t) pieces).*2.

Section end_of_run.
Context {W : Type} `{LawfulKernel W}.
Context {DB Scratch : Type} `{LawfulHyperscan DB Scratch} (st : VectorScanState DB Scratch).

(** A worker that has left. *)
Lemma exited_ok wr lo :
  local_ok st Exited wr lo →
  wr = Writer [] Between ∧
  plain_calls (l_calls lo) (all_text st (l_files lo).*2) ∧
  Forall (λ f, chunking f.1 f.2) (l_files lo).
Proof.
  intros Hok. destruct (l_now lo) as [chunks|] eqn:Hnow.
  { by destruct (lk_now _ _ _ _ Hok chunks Hnow) as [(? & ? & _)|[? _]]. }
  pose proof (lk_idle _ _ _ _ Hok Hnow) as Hidle. destruct wr as [[|] []]; try done.
  destruct (lk_text _ _ _ _ Hok) as (bs & Hplain & Hbs).
  rewrite (lk_gone _ _ _ _ Hok eq_refl), Hnow in Hbs. simpl in Hbs. rewrite !app_nil_r in Hbs.
  subst bs. split_and!; [done|done|apply Hok].
Qed.

(** Pieces of calls that have all succeeded. *)
Lemma whole_pieces (l : list (nat * call * expected Z)) pieces :
  Forall2 (λ e, piece e.1.2 e.2) l pieces →
  Forall (λ e, ∃ n, e.2 = Value n) l → Forall (λ e, c_newline e.1.2 = false) l →
  pieces = (λ e, c_data e.1.2) <$> l.
Proof.
  induction 1 as [|e bs l pieces Hp _ IH]; [done|].
  intros [[n Hn] Hok]%Forall_cons [Hnl Hnls]%Forall_cons. simpl. f_equal; [|auto].
  rewrite Hn in Hp. simpl in Hp. rewrite Hnl in Hp. apply Hp.
Qed.

Lemma calls_of_elem (l : list (nat * call * expected Z)) e : e ∈ l → e.1.2 ∈ calls_of e.1.1 l.
Proof.
  intros He. unfold calls_of. apply list_elem_of_fmap. exists e. split; [done|].
  by apply list_elem_of_filter.
Qed.

Lemma printed_by_calls t (l : list (nat * call * expected Z)) :
  printed_by t ((λ e, (e.1.1, c_data e.1.2)) <$> l) = concat (c_data <$> calls_of t l).
Proof.
  unfold printed_by, calls_of. induction l as [|[[t' c] r] l IH]; [done|].
  rewrite fmap_cons, !filter_cons. simpl in *. by case_decide; simpl; [f_equal|].
Qed.

Section over.
Context (hc : Z) (root : dir) (out0 : bytes) (s : grep_state W).
Hypothesis inv : grep_inv st hc root out0 s.
Hypothesis all_left : Forall (.= Exited) (threads_ (proc s)).

Lemma over_local t lo :
  locals s !! t = Some lo →
  threads (sink s) !! t = Some (Writer [] Between) ∧
  plain_calls (l_calls lo) (all_text st (l_files lo).*2) ∧
  Forall (λ f, chunking f.1 f.2) (l_files lo) ∧ calls_of t (returned (sink s)) = l_calls lo.
Proof.
  intros Hlo. pose proof (lookup_lt_Some _ _ _ Hlo) as Hlt.
  rewrite <- (gi_length _ _ _ _ _ inv) in Hlt. destruct (lookup_lt_is_Some_2 _ _ Hlt) as [p Hp].
  destruct (grep_lookup _ _ _ _ s t p inv Hp) as (wr & lo' & Hwr & Hlo' & Hlk).
  rewrite Hlo in Hlo'. simplify_eq. rewrite Forall_lookup in all_left. rewrite (all_left t p Hp) in Hlk.
  destruct (exited_ok wr lo' Hlk) as (-> & Hplain & Hfiles). split_and!; [done|apply Hplain..|done|].
  destruct (wi_order _ _ _ (gi_sink _ _ _ _ _ inv) t (l_calls lo')) as (wr & Hwr' & Ho).
  - by rewrite list_lookup_fmap, Hlo.
  - rewrite Hwr in Hwr'. simplify_eq. simpl in Ho. by rewrite app_nil_r in Ho.
Qed.

Lemma returned_known e : e ∈ returned (sink s) → (e.1.1 < length (locals s))%nat.
Proof.
  intros He%calls_of_elem. destruct (decide (e.1.1 < length (locals s))%nat) as [|Hge]; [done|].
  rewrite (wi_known _ _ _ (gi_sink _ _ _ _ _ inv)) in He; [set_solver|]. rewrite length_fmap. lia.
Qed.

Lemma over_output :
  Forall (λ e, ∃ n, e.2 = Value n) (returned (sink s)) →
  v_out (view_of (world (sink s))) = out0 ++ concat ((λ e, c_data e.1.2) <$> returned (sink s)).
Proof.
  intros Hok. pose proof (gi_sink _ _ _ _ _ inv) as Hsink.
  destruct (wi_output _ _ _ Hsink) as (pieces & bs & Hpieces & Hout & Hbs).
  assert (bs = []) as ->.
  { destruct (mutex (sink s)) as [t|]; [|done]. destruct Hbs as (wr & Hwr & Hbs).
    pose proof (lookup_lt_Some _ _ _ Hwr) as Hlt. rewrite (wi_threads _ _ _ Hsink), length_fmap in Hlt.
    destruct (lookup_lt_is_Some_2 _ _ Hlt) as [lo Hlo]. destruct (over_local t lo Hlo) as [Hidle _].
    rewrite Hwr in Hidle. by simplify_eq. }
  rewrite Hout, app_nil_r. do 2 f_equal. apply whole_pieces; [done|done|].
  apply Forall_forall. intros e He. destruct (lookup_lt_is_Some_2 _ _ (returned_known e He)) as [lo Hlo].
  destruct (over_local _ lo Hlo) as (_ & [Hnl _] & _ & Hcalls). rewrite Forall_forall in Hnl.
  apply Hnl. rewrite <- Hcalls. by apply calls_of_elem.
Qed.

End over.

(** The processor has searched the whole tree. *)
Lemma over_log hc out0 d s :
  grep_inv st hc (dir_of by_content d) out0 s → Z.of_nat (dir_count (Directory true d)) < size_max →
  thrown (proc s) = None → threads_ (proc s) !! 0%nat = Some Exited →
  (concat (l_files <$> locals s)).*1 ≡ₚ object_files (Directory true d).
Proof.
  intros Hinv Hd Hth Hend. set (root := dir_of by_content d) in *.
  assert (Hroot : entry_of by_content "" (Directory true d) = EDir true root) by done.
  assert (Processor.inv root (proc s)) as Hproc.
  { apply (inv_reachable hc true root); [|apply Hinv|done]. unfold dirs.
    by rewrite <- Hroot, dirs_dir_of. }
  assert (running_ (proc s) = false) as Hrun.
  { pose proof (inv_leaving _ _ Hproc) as Hl. pose proof (sum_lookup leaving _ _ _ Hend) as Hlt.
    simpl in Hlt. specialize (Hl ltac:(lia)). by destruct (running_ (proc s)). }
  assert ((concat (l_files <$> locals s)).*1 = (locals s ≫= λ lo, (l_files lo).*1)) as ->.
  { induction (locals s) as [|lo l IH]; [done|]. rewrite fmap_cons. cbn [concat].
    by rewrite fmap_app, IH. }
  rewrite (gi_log _ _ _ _ _ Hinv), (stopped_complete root (proc s) Hproc Hrun). unfold files.
  rewrite <- Hroot, <- named_files_labels, <- list_fmap_compose.
  rewrite <- (named_files_contents (Directory true d) "").
  assert (∀ l : list (string * bytes), str ∘ (λ f, by_content f.1 f.2) <$> l = l.*2) as ->; [|done].
  intros l. apply list_fmap_ext. intros _ [name c] _. unfold compose, by_content, str. simpl.
  apply String.list_byte_of_string_of_list_byte.
Qed.

End end_of_run.


(** ** A concrete run *)

(** The step thread [t] can take, reading files in one chunk. *)
Definition next_step {W} `{Kernel W} {DB Scratch} `{Hyperscan DB Scratch}
    (st : VectorScanState DB Scratch) (hc : Z) (t : nat) (s : grep_state W) : option (grep_state W) :=
  let chunks := match threads_ (proc s) !! t with
                | Some (Scan (EFile name Searched :: _) _ _) => [str name]
                | _ => []
                end in
  let labels := [GWrite t; GFlush t; GSearch t chunks; GRun (Run t 0); GRun (Run t 1)] in
  head (omap (λ l, grep_exec st hc l s) labels).

Fixpoint follow {W} `{Kernel W} {DB Scratch} `{Hyperscan DB Scratch}
    (st : VectorScanState DB Scratch) (hc : Z) (ts : list nat) (s : grep_state W)
    : option (grep_state W) :=
  match ts with
  | [] => Some s
  | t :: ts => s ← next_step st hc t s; follow st hc ts s
  end.

Lemma follow_reach {W} `{LawfulKernel W} {DB Scratch} `{Hyperscan DB Scratch}
    (st : VectorScanState DB Scratch) hc ts (s s' : grep_state W) :
  follow st hc ts s = Some s' → rtc (grep_step st hc) s s'.
Proof.
  revert s. induction ts as [|t ts IH]; intros s Hs; simpl in Hs; [by simplify_eq|].
  destruct (next_step st hc t s) as [s1|] eqn:Hn; [|done]. eapply rtc_l; [|by apply IH].
  unfold next_step in Hn. apply head_Some_elem_of, list_elem_of_omap in Hn as (l & _ & Hl).
  by eapply grep_step_exec.
Qed.

(** Two threads: the first one reads the directory, the second one takes the
    directory below it, and the writes are short. *)
Definition two_threads : list nat :=
  replicate 20 0%nat ++ replicate 18 1%nat ++ replicate 19 0%nat ++ replicate 11 1%nat ++ [0%nat].

