(* ===== verification/Main.v ===== *)
(** main.cpp, and the command [grep] of commands/grep.h as [main] calls it. *)

From S2P Require Import Prelude Kernel SimKernel Nodes Sources Lines TreeSitter Cat.

(** The parts of the environment only [main] uses. *)
Class Host (W : Type) := {
  (** [getrlimit(RLIMIT_NOFILE, &rl)], with [rlim_cur] and [rlim_max] *)
  sys_getrlimit : M W (Z * (Z * Z));
  sys_setrlimit : Z * Z → M W Z;
  getenv : string → option string;
  (** [std::println(...)] to the standard output and to [std::cerr] *)
  println : string → M W unit;
  eprintln : string → M W unit;
  stacktrace : string
}.

(** [setrlimit] refuses a soft limit above the hard limit (EINVAL). *)
Class LawfulHost (W : Type) `{Host W} :=
  setrlimit_law cur max (w : W) :
    max < cur → wp (sys_setrlimit (cur, max)) w (returns (λ n _, n = -1)).

Definition slash : byte := "/"%byte.

(** [exe_trunk(exe)] *)
Definition exe_trunk (exe : bytes) : bytes :=
  match sv_find_last_of slash exe with
  | None => exe
  | Some last_slash => dropZ (last_slash +ₛ 1) exe
  end.

Section main.
Context {W : Type} `{Kernel W} `{Host W} {F : Fuel}.
Context {Parser Query Cursor Tree : Type} `{TreeSitterApi Parser Query Cursor Tree}.

(** [Processor{}.run(location, regex)], with the destructor. *)
Context (processor_run : string → string → M W unit).

(** [convert_raw_args(argc, argv)]; the contract asks for an argument. *)
Definition convert_raw_args (argc : Z) (argv : list bytes) : M W (bytes * list bytes) :=
  if 1 <? argc then
    match takeZ argc argv with
    | [] => undefined
    | exe :: args => mret (exe_trunk exe, args)
    end
  else undefined.

Definition rlimit_target : Z := 524288.

(** [set_rlimit()] *)
Definition set_rlimit : M W unit :=
  '(res, (rlim_cur, rlim_max)) ← sys_getrlimit;
  if res =? 0 then
    if rlim_cur <? rlimit_target then
      r ← sys_setrlimit (rlimit_target, rlim_max);
      if negb (r =? 0) then throw "failed to set rlimit" else mret ()
    else mret ()
  else mret ().

(** [grep(config, args)] *)
Definition grep (config : Config) (args : list string) : M W unit :=
  match args with
  | [regex; location] => processor_run location regex
  | _ => throw "expected args: [regex, location]"
  end.

Definition starts_with (p s : bytes) : bool := bool_decide (takeZ (lenZ p) s = p).

(** The choice of the command. *)
Definition dispatch (name : bytes) (config : Config) (args : list string) : M W unit :=
  if bool_decide (name = str "cat") || starts_with (str "ocat") name then cat config args
  else if bool_decide (name = str "grep") || starts_with (str "ogrep") name then grep config args
  else println "omnipp".

(** [main(argc, argv)]: exceptions are reported, the exit status is 0. *)
Definition main (argc : Z) (argv : list bytes) : M W Z :=
  _ ← catching
        (_ ← set_rlimit;
         '(name, args) ← convert_raw_args argc argv;
         let config := load_config getenv in
         dispatch name config (String.string_of_list_byte <$> args))
        (λ what, _ ← println what; eprintln stacktrace);
  mret 0.

End main.

(** ** The name of the program *)

(** [exe_trunk] is the last component of the path the program was started
    with: what follows the last slash, or the whole path when there is none. *)
Theorem exe_trunk_is_the_last_component (exe : bytes) :
  lenZ exe < size_max →
  ∃ directory, exe = directory ++ exe_trunk exe ∧ slash ∉ exe_trunk exe ∧
    (directory = [] ∨ last directory = Some slash).
Proof.
  intros Hsz. unfold exe_trunk. destruct (sv_find_last_of slash exe) as [i|] eqn:E.
  - apply sv_find_last_of_Some in E as (a & l & -> & <- & Hl). exists (a ++ [slash]).
    rewrite size_add_small by range. rewrite (cons_middle slash a l), app_assoc.
    replace (lenZ a + 1) with (lenZ (a ++ [slash])) by range. rewrite dropZ_app. split_and!; [done|done|].
    right. by rewrite last_snoc.
  - apply sv_find_last_of_None in E. exists []. auto.
Qed.

Lemma exe_trunk_is_the_last_component_witness :
  ∃ directory, str "/usr/bin/ocat" = directory ++ exe_trunk (str "/usr/bin/ocat") ∧
    exe_trunk (str "/usr/bin/ocat") = str "ocat".
Proof.
  destruct (exe_trunk_is_the_last_component (str "/usr/bin/ocat")) as (d & Hd & _);
    [vm_compute; reflexivity|].
  exists d. split; [exact Hd|vm_compute; reflexivity].
Defined.

(** ** Errors *)

Section main_errors.
Context {W : Type} `{Kernel W} `{Host W} {F : Fuel}.
Context {Parser Query Cursor Tree : Type} `{TreeSitterApi Parser Query Cursor Tree}.

(** What [main] does about an exception. *)
Definition report (what : string) : M W Z :=
  _ ← println what; _ ← eprintln stacktrace; mret 0.

Lemma main_throws run argc argv (w : W) what w' :
  (_ ← set_rlimit;
   '(name, args) ← convert_raw_args argc argv;
   dispatch run name (load_config getenv) (String.string_of_list_byte <$> args)) w
    = (Throws what, w') →
  main run argc argv w = report what w'.
Proof.
  intros Hbody. unfold main, catching, mbind at 1, M_bind at 1. rewrite Hbody.
  unfold report, mbind, M_bind. by destruct (println what w') as [[] ?].
Qed.

Lemma set_rlimit_refused `{!LawfulHost W} cur max (w w1 : W) :
  sys_getrlimit w = (Done (0, (cur, max)), w1) → cur < rlimit_target → max < rlimit_target →
  ∃ w2, set_rlimit w = (Throws "failed to set rlimit", w2).
Proof.
  intros Hget Hcur Hmax. unfold set_rlimit, mbind at 1, M_bind at 1. rewrite Hget. simpl.
  rewrite (proj2 (Z.ltb_lt _ _)) by done.
  destruct (wp_returns_inv _ _ _ (setrlimit_law rlimit_target max w1 Hmax)) as (n & w2 & Hs & ->).
  exists w2. unfold mbind, M_bind. by rewrite Hs.
Qed.

End main_errors.

(** C36. The program refuses to work under a low hard limit: [set_rlimit] asks
    for 524288 descriptors whatever the hard limit is, which [setrlimit] must
    refuse when the hard limit is lower; whatever the arguments, [main] then
    only prints the message, and exits with status 0. *)
Theorem main_refuses_low_hard_limit {W} `{Kernel W} `{LawfulHost W} {F : Fuel}
    {Parser Query Cursor Tree} `{TreeSitterApi Parser Query Cursor Tree} run argc argv cur max
    (w w1 : W) :
  sys_getrlimit w = (Done (0, (cur, max)), w1) → cur < rlimit_target → max < rlimit_target →
  ∃ w2, main run argc argv w = report "failed to set rlimit" w2.
Proof.
  intros Hget Hcur Hmax. destruct (set_rlimit_refused cur max w w1 Hget Hcur Hmax) as (w2 & Hset).
  exists w2. apply main_throws. unfold mbind at 1, M_bind at 1. by rewrite Hset.
Qed.

(** A process with a soft limit of 1024 and the given hard limit. *)
#[local] Instance sim_host : Host sim := {|
  sys_getrlimit := mret (0, (1024, 4096));
  sys_setrlimit rl := mret (if rl.2 <? rl.1 then -1 else 0);
  getenv _ := None;
  println s := std_cout (str s ++ [nl]);
  eprintln _ := mret ();
  stacktrace := ""%string
|}.

#[local] Instance sim_host_lawful : LawfulHost sim.
Proof. intros cur max w Hlt. apply wp_ret. simpl. by rewrite (proj2 (Z.ltb_lt _ _)). Qed.

#[local] Instance no_parser : TreeSitterApi unit unit unit unit := {|
  ts_parser_new := None;
  ts_parser_set_language _ := false;
  ts_query_new := (None, 1);
  ts_query_cursor_new := None;
  ts_query_capture_names _ := [];
  ts_parser_parse_string _ _ := None;
  ts_query_captures _ _ _ := []
|}.

(** Witness: [ocat a.txt] where the hard limit is 4096. *)
Lemma main_refuses_low_hard_limit_witness :
  let F := 100%nat : Fuel in
  let w := cat_world S_IFCHR "a.txt" (str "hello") [] in
  let run := main (λ _ _, mret ()) 2 [str "/bin/ocat"; str "a.txt"] in
  (∃ w2, run w = report "failed to set rlimit" w2) ∧
  ∃ w2, run w = (Done 0, w2) ∧ v_out (view_of w2) = str "failed to set rlimit" ++ [nl].
Proof.
  intros F w run. split.
  - apply (main_refuses_low_hard_limit _ _ _ 1024 4096 w w); [reflexivity|reflexivity|reflexivity].
  - eexists. split; vm_compute; reflexivity.
Defined.
