(* ===== verification/Omnipp.v ===== *)
(** omnipp as a whole: [main] with the commands of Cat.v and GrepRun.v, on a
    machine with one hardware thread.

    The results say what the user sees: what is on the standard output when the
    process ends, and with which status. *)

From S2P Require Import Prelude Kernel SimKernel Nodes Sources Lines Regex TreeSitter Cat.
From S2P Require Import Dirents Grep GrepRun Main.

#[local] Arguments view_of _ _ _ _ : simpl never.

(** ** The program *)

Section program.
Context {W : Type} `{Kernel W} `{DirKernel W} `{Host W} {F : Fuel}.
Context (DB Scratch : Type) `{Hyperscan DB Scratch}.
Context {Parser Query Cursor Tree : Type} `{TreeSitterApi Parser Query Cursor Tree}.

(** [Processor{}.run(location, regex)], which returns nothing. *)
Definition processor_run (location regex : string) : M W unit :=
  _ ← run (DB := DB) (Scratch := Scratch) location regex; mret ().

(** The process, started with the words [argv]. *)
Definition omnipp (argv : list bytes) : M W Z := main processor_run (lenZ argv) argv.

End program.

(** ** What [main] needs of the system *)

(** Nothing that the commands look at has changed. *)
Definition same {W} `{LawfulDirs W} (w w' : W) : Prop :=
  view_of w' = view_of w ∧ ∀ location, dir_at w' location = dir_at w location.

(** The limits have nothing to do with files; [std::println] prints its text and
    a line break, or throws after a part of it. *)
Class LawfulConsole (W : Type) `{LawfulDirs W} `{Host W} := {
  getrlimit_keeps (w : W) : wp sys_getrlimit w (returns (λ _ w', same w w'));
  setrlimit_keeps limits (w : W) : wp (sys_setrlimit limits) w (returns (λ _ w', same w w'));
  console_law s (w : W) :
    wp (println s) w (λ o w',
      match o with
      | Done _ => view_of w' = emit (str s ++ [nl]) (view_of w)
      | Throws _ => ∃ bs, bs `prefix_of` str s ++ [nl] ∧ view_of w' = emit bs (view_of w)
      | _ => False
      end);
  console_error_law s (w : W) :
    wp (eprintln s) w (λ o w',
      view_of w' = view_of w ∧ match o with Done _ | Throws _ => True | _ => False end)
}.

(** ** [main] around a command *)

Section around.
Context {W : Type} `{LawfulConsole W} {F : Fuel}.
Context {Parser Query Cursor Tree : Type} `{TreeSitterApi Parser Query Cursor Tree}.

(** A command that prints [P] when it returns and [X] when it throws. *)
Definition prints (P X : bytes → Prop) (w : W) (o : outcome unit) (w' : W) : Prop :=
  ∃ out, v_out (view_of w') = v_out (view_of w) ++ out ∧
         match o with Done _ => P out | Throws _ => X out | _ => False end.

(** The process around it: an exception of the command becomes a message on the
    standard output, and the status is 0. Only an exception while the message
    is printed leaves [main]. *)
Definition ends (P X : bytes → Prop) (w : W) (o : outcome Z) (w' : W) : Prop :=
  ∃ out, v_out (view_of w') = v_out (view_of w) ++ out ∧
    match o with
    | Done status => status = 0 ∧ (P out ∨ ∃ bs what, X bs ∧ out = bs ++ str what ++ [nl])
    | Throws _ => ∃ bs what message, X bs ∧ out = bs ++ message ∧
                                     message `prefix_of` str what ++ [nl]
    | _ => False
    end.

Lemma wp_caught {A} (m : M W A) h (w : W) (Q : outcome A → W → Prop) :
  wp m w (λ o w', match o with Throws e => wp (h e) w' Q | o => Q o w' end) →
  wp (catching m h) w Q.
Proof. unfold wp, catching. by destruct (m w) as [[] w']. Qed.

Lemma same_refl (w : W) : same w w.
Proof. done. Qed.

Lemma same_trans (w1 w2 w3 : W) : same w1 w2 → same w2 w3 → same w1 w3.
Proof. intros [Hv Hd] [Hv' Hd']. split; [congruence|]. intros l. by rewrite Hd'. Qed.

Lemma set_rlimit_law (w : W) :
  wp set_rlimit w (λ o w', same w w' ∧ match o with Done _ | Throws _ => True | _ => False end).
Proof.
  unfold set_rlimit. apply wp_bind_returns. eapply wp_returns_mono; [apply getrlimit_keeps|].
  intros [res [cur max]] w1 Hw1. destruct (res =? 0); [|by apply wp_ret].
  destruct (cur <? rlimit_target); [|by apply wp_ret].
  apply wp_bind_returns. eapply wp_returns_mono; [apply setrlimit_keeps|].
  intros r w2 Hw2. pose proof (same_trans _ _ _ Hw1 Hw2).
  by destruct (negb (r =? 0)); [apply wp_throw|apply wp_ret].
Qed.

(** What the handlers of [main] do. *)
Lemma report_law P X what bs (w w1 : W) :
  X bs → v_out (view_of w1) = v_out (view_of w) ++ bs →
  wp (_ ← println what; eprintln stacktrace) w1
    (lift (λ _ w', wp (mret 0) w' (ends P X w)) (ends P X w)).
Proof.
  intros HX Hv. apply wp_bind. eapply wp_mono; [apply console_law|].
  intros [u|e| | |] w2; cbn [lift]; try done.
  - intros Hw2. eapply wp_mono; [apply console_error_law|].
    assert (v_out (view_of w2) = v_out (view_of w) ++ bs ++ str what ++ [nl]) as Hout.
    { rewrite Hw2. cbn [emit v_out]. by rewrite Hv, <- app_assoc. }
    intros [u'|e| | |] w3 [Hw3 Hc]; cbn [lift]; try done;
      [apply wp_ret|]; exists (bs ++ str what ++ [nl]); rewrite Hw3; (split; [done|]).
    + split; [done|]. right. by exists bs, what.
    + by exists bs, what, (str what ++ [nl]).
  - intros (message & Hpre & Hw2). exists (bs ++ message). rewrite Hw2. cbn [emit v_out].
    split; [by rewrite Hv, <- app_assoc|]. by exists bs, what, message.
Qed.

Lemma convert_raw_args_law exe args (w : W) :
  args ≠ [] →
  convert_raw_args (lenZ (exe :: args)) (exe :: args) w = (Done (exe_trunk exe, args), w).
Proof.
  intros Hargs. unfold convert_raw_args. rewrite takeZ_all by range.
  destruct args as [|a args]; [done|]. by rewrite (proj2 (Z.ltb_lt _ _)) by range.
Qed.

Lemma main_law run exe args (P X : bytes → Prop) (w : W) :
  args ≠ [] → X [] →
  (∀ w1, same w w1 →
     wp (dispatch run (exe_trunk exe) (load_config getenv) (String.string_of_list_byte <$> args)) w1
       (prints P X w1)) →
  wp (main run (lenZ (exe :: args)) (exe :: args)) w (ends P X w).
Proof.
  intros Hargs HX Hcommand. unfold main. apply wp_bind, wp_caught, wp_bind.
  eapply wp_mono; [apply set_rlimit_law|].
  intros [u|what| | |] w1 [Hw1 Hc]; cbn [lift]; try done.
  2: { apply report_law with []; [done|]. by rewrite (proj1 Hw1), app_nil_r. }
  apply wp_bind. rewrite (wp_unfold _ _ _ _ _ (convert_raw_args_law exe args w1 Hargs)).
  cbn [lift]. eapply wp_mono; [by apply Hcommand|]. unfold prints. rewrite (proj1 Hw1).
  intros [u'|what| | |] w2 (out & Hout & Hpost); cbn [lift]; try done.
  - apply wp_ret. exists out. auto.
  - by apply report_law with out.
Qed.

End around.

(** ** The names of the commands *)

Definition is_cat (name : bytes) : bool :=
  bool_decide (name = str "cat") || starts_with (str "ocat") name.

Definition is_grep (name : bytes) : bool :=
  bool_decide (name = str "grep") || starts_with (str "ogrep") name.

Lemma starts_with_prefix p s : starts_with p s = true → ∃ s', s = p ++ s'.
Proof.
  intros Hp%bool_decide_eq_true. exists (dropZ (lenZ p) s). by rewrite <- Hp at 1; rewrite takeZ_dropZ.
Qed.

(** No name is the name of both commands. *)
Lemma grep_is_not_cat name : is_grep name = true → is_cat name = false.
Proof.
  unfold is_grep. intros [->%bool_decide_eq_true|[s ->]%starts_with_prefix]%orb_true_iff;
    [by vm_compute|].
  unfold is_cat, starts_with. rewrite !bool_decide_eq_false_2; [done| |]; [|done].
  rewrite takeZ_take. by intros Hs.
Qed.

(** ** The commands *)

(** The last flush of [grep] fails, of which nothing is ever said. *)
Definition flush_fails {W} `{LawfulDirs W} {F : Fuel} (DB Scratch : Type) `{Hyperscan DB Scratch}
    (location regex : string) (w : W) : Prop :=
  ∃ w1 e w2, same w w1 ∧
    run (DB := DB) (Scratch := Scratch) location regex w1 = (Done (Unexpected e), w2).



(** ** A process on the simulated system *)

(** A process whose hard limit is high enough and that has no environment. *)
#[local] Instance sim_console_host : Host sim := {|
  sys_getrlimit := mret (0, (1024, 1048576));
  sys_setrlimit rl := mret (if rl.2 <? rl.1 then -1 else 0);
  getenv _ := None;
  println s := std_cout (str s ++ [nl]);
  eprintln _ := mret ();
  stacktrace := ""%string
|}.

#[local] Existing Instances sim_dirents sim_lawful_dirs no_parser.

#[local] Instance sim_console : LawfulConsole sim.
Proof.
  split.
  - intros w. by apply wp_ret.
  - intros limits w. by apply wp_ret.
  - intros s w. eapply wp_mono; [apply (cout_law (W := sim))|]. by intros [].
  - intros s w. by apply wp_ret.
Defined.


