(* ===== verification/RequestPool.v ===== *)
(** utils/request_pool.h: reusable io_uring requests.

    A pool owns [N] requests, hands them out, and takes them back when they are
    complete. When all are in use it makes more; when the submission queue is
    full it keeps requests waiting. A pointer to a request is modelled as its
    place: in the vector [pool_] or in the deque [pool_overflow_], whose
    elements never move. *)

From S2P Require Import Prelude Kernel.

Inductive Op := OPENAT | CLOSE | READ | WRITE.

Inductive ptr := InPool (i : nat) | InOverflow (j : nat).

#[global] Instance ptr_eq_decision : EqDecision ptr.
Proof. solve_decision. Defined.

(** What a [prep] writes into a submission queue entry. *)
Inductive sqe_op :=
  | SqeOpenat (dfd : Z) (path : string) (flags mode : Z)
  | SqeClose (fd : Z)
  | SqeRead (fd nbytes offset : Z)
  (** the bytes from [from] on, [nbytes] of them *)
  | SqeWrite (fd : Z) (buffer : bytes) (from nbytes offset : Z).

(** The ring of liburing: taking an entry, and filling it in; the user data is
    the request's kind and place. *)
Class Ring (W : Type) := {
  io_uring_get_sqe : M W (option Z);
  io_uring_prep : Z → sqe_op → Op * ptr → M W unit
}.

(** How the program sees a ring that is in order: the requests whose completion
    has not been consumed ([in_ring]), and the completions at the front of the
    completion queue that it has looked at but not consumed ([seen]). *)
Class RingView (W : Type) := {
  ring_ok : W → Prop;
  in_ring : W → list (Op * ptr);
  seen : list (Op * ptr) → W → Prop
}.

(** From [w] to [w'] the requests [new] have been added, and nothing has been
    consumed. *)
Record ring_adds `{RingView W} (new : list (Op * ptr)) (w w' : W) : Prop := {
  adds_ok : ring_ok w';
  adds_ring : in_ring w' ≡ₚ in_ring w ++ new;
  adds_seen sn : seen sn w → seen sn w'
}.

Abbreviation ring_keeps := (ring_adds []).

Lemma ring_keeps_refl `{RingView W} (w : W) : ring_ok w → ring_keeps w w.
Proof. intros Hok. split; [done|by rewrite app_nil_r|done]. Qed.

Lemma ring_keeps_in `{RingView W} (w w' : W) : ring_keeps w w' → in_ring w' ≡ₚ in_ring w.
Proof. intros [_ Hr _]. by rewrite Hr, app_nil_r. Qed.

(** What the program relies on: an entry it has taken from a ring ([ring_taken])
    and filled in is one request more. *)
Class LawfulRing (W : Type) `{Ring W} `{RingView W} := {
  ring_taken : W → Z → W → Prop;
  get_sqe_law (w : W) : ring_ok w → wp io_uring_get_sqe w (returns (λ r w',
    match r with None => ring_keeps w w' | Some sqe => ring_taken w sqe w' end));
  prep_law sqe o data (w0 w : W) : ring_taken w0 sqe w →
    wp (io_uring_prep sqe o data) w (returns (λ _ w', ring_adds [data] w0 w'))
}.

(** A request type: [BaseRequest]'s members, [reset] and [prep]. The member
    [op] of a fresh request is not initialised; the pool sets it. *)
Class IsRequest (T Args : Type) := {
  fresh_request : T;
  set_op : Op → T → T;
  set_sqe : Z → T → T;
  reset_request : Args → T → T;
  prep_request : T → sqe_op
}.

(** ** The four requests *)

Record OpenAtRequest := mkOpenAt {
  oa_op : Op; oa_sqe : option Z; oa_path : string; oa_fd : Z; oa_flags : Z; oa_is_file : bool;
  oa_parent_fd : Z
}.

#[global] Instance OpenAtRequest_request : IsRequest OpenAtRequest (Z * string * Z) := {|
  fresh_request := mkOpenAt OPENAT None "" (-1) 0 false (-1);
  set_op o r := mkOpenAt o (oa_sqe r) (oa_path r) (oa_fd r) (oa_flags r) (oa_is_file r)
                  (oa_parent_fd r);
  set_sqe q r := mkOpenAt (oa_op r) (Some q) (oa_path r) (oa_fd r) (oa_flags r) (oa_is_file r)
                   (oa_parent_fd r);
  reset_request '(parent_fd, path, flags) r :=
    mkOpenAt (oa_op r) (oa_sqe r) path (oa_fd r) flags (Z.land flags O_DIRECTORY =? 0) parent_fd;
  prep_request r := SqeOpenat (oa_parent_fd r) (oa_path r) (oa_flags r) 0
|}.

Record CloseRequest := mkClose { cl_op : Op; cl_sqe : option Z; cl_fd : Z }.

#[global] Instance CloseRequest_request : IsRequest CloseRequest Z := {|
  fresh_request := mkClose OPENAT None (-1);
  set_op o r := mkClose o (cl_sqe r) (cl_fd r);
  set_sqe q r := mkClose (cl_op r) (Some q) (cl_fd r);
  reset_request fd r := mkClose (cl_op r) (cl_sqe r) fd;
  prep_request r := SqeClose (cl_fd r)
|}.

Definition read_buffer_size : Z := 64 * 1024.

Record ReadRequest := mkRead {
  rd_op : Op; rd_sqe : option Z; rd_fd : Z; rd_offset : Z; rd_buffer : bytes; rd_res : Z
}.

#[global] Instance ReadRequest_request : IsRequest ReadRequest (Z * Z) := {|
  fresh_request := mkRead OPENAT None (-1) 0 (replicate (Z.to_nat read_buffer_size) x00) 0;
  set_op o r := mkRead o (rd_sqe r) (rd_fd r) (rd_offset r) (rd_buffer r) (rd_res r);
  set_sqe q r := mkRead (rd_op r) (Some q) (rd_fd r) (rd_offset r) (rd_buffer r) (rd_res r);
  reset_request '(fd, offset) r := mkRead (rd_op r) (rd_sqe r) fd offset (rd_buffer r) (rd_res r);
  prep_request r := SqeRead (rd_fd r) (lenZ (rd_buffer r)) (rd_offset r)
|}.

Record WriteRequest := mkWrite {
  wr_op : Op; wr_sqe : option Z; wr_fd : Z; wr_offset : Z; wr_buffer : bytes
}.

(** [prep] passes [data(buffer) + offset] with the size of the whole buffer. *)
#[global] Instance WriteRequest_request : IsRequest WriteRequest (Z * bytes * Z) := {|
  fresh_request := mkWrite OPENAT None (-1) 0 [];
  set_op o r := mkWrite o (wr_sqe r) (wr_fd r) (wr_offset r) (wr_buffer r);
  set_sqe q r := mkWrite (wr_op r) (Some q) (wr_fd r) (wr_offset r) (wr_buffer r);
  reset_request '(fd, buffer, offset) r := mkWrite (wr_op r) (wr_sqe r) fd offset buffer;
  prep_request r := SqeWrite (wr_fd r) (wr_buffer r) (wr_offset r) (lenZ (wr_buffer r)) (-1)
|}.

(** ** The pool *)
Section pool.
Context {W T Args : Type} `{Ring W} `{IsRequest T Args} (O : Op).

Record RequestPool := mkPool {
  pool_ : list T;
  free_list_ : list ptr;
  sqe_overflow_ : list ptr;
  pool_overflow_ : list T;
  pool_overflow_free_list_ : list ptr
}.

(** The constructor, for a capacity of [N]. *)
Definition RequestPool_new (N : nat) : RequestPool :=
  mkPool (replicate N (set_op O fresh_request)) (InPool <$> seq 0 N) [] [] [].

(** [*next] *)
Definition deref (r : ptr) (p : RequestPool) : option T :=
  match r with InPool i => pool_ p !! i | InOverflow j => pool_overflow_ p !! j end.

Definition assign (r : ptr) (x : T) (p : RequestPool) : RequestPool :=
  match r with
  | InPool i => mkPool (<[i := x]> (pool_ p)) (free_list_ p) (sqe_overflow_ p)
                  (pool_overflow_ p) (pool_overflow_free_list_ p)
  | InOverflow j => mkPool (pool_ p) (free_list_ p) (sqe_overflow_ p)
                      (<[j := x]> (pool_overflow_ p)) (pool_overflow_free_list_ p)
  end.

(** [next->sqe = sqe; next->prep(); io_uring_sqe_set_data(sqe, next); ++in_flight_;] *)
Definition submit (r : ptr) (sqe : Z) (p : RequestPool) (in_flight : Z)
    : M W (RequestPool * Z) :=
  match deref r p with
  | None => undefined
  | Some x =>
      let x := set_sqe sqe x in
      _ ← io_uring_prep sqe (prep_request x) (O, r);
      mret (assign r x p, in_flight +ₛ 1)
  end.

Definition try_pop_overflow (p : RequestPool) (in_flight : Z) : M W (bool * (RequestPool * Z)) :=
  match sqe_overflow_ p with
  | [] => mret (false, (p, in_flight))
  | next :: rest =>
      sqe ← io_uring_get_sqe;
      match sqe with
      | None => mret (false, (p, in_flight))
      | Some sqe =>
          pk ← submit next sqe (mkPool (pool_ p) (free_list_ p) rest (pool_overflow_ p)
                                  (pool_overflow_free_list_ p)) in_flight;
          mret (true, pk)
      end
  end.

(** The request [next] takes: the last of the free list, the last of the
    overflow's free list, or a new one. *)
Definition take_request (p : RequestPool) : ptr * RequestPool :=
  match last (free_list_ p) with
  | Some r => (r, mkPool (pool_ p) (take (pred (length (free_list_ p))) (free_list_ p))
                    (sqe_overflow_ p) (pool_overflow_ p) (pool_overflow_free_list_ p))
  | None =>
      match last (pool_overflow_free_list_ p) with
      | Some r => (r, mkPool (pool_ p) (free_list_ p) (sqe_overflow_ p) (pool_overflow_ p)
                        (take (pred (length (pool_overflow_free_list_ p)))
                           (pool_overflow_free_list_ p)))
      | None => (InOverflow (length (pool_overflow_ p)),
                 mkPool (pool_ p) (free_list_ p) (sqe_overflow_ p)
                   (pool_overflow_ p ++ [set_op O fresh_request]) (pool_overflow_free_list_ p))
      end
  end.

Definition next (args : Args) (p : RequestPool) (in_flight : Z) : M W (RequestPool * Z) :=
  let '(r, p) := take_request p in
  match deref r p with
  | None => undefined
  | Some x =>
      let p := assign r (reset_request args x) p in
      sqe ← io_uring_get_sqe;
      match sqe with
      | None => mret (mkPool (pool_ p) (free_list_ p) (sqe_overflow_ p ++ [r]) (pool_overflow_ p)
                        (pool_overflow_free_list_ p), in_flight)
      | Some sqe => submit r sqe p in_flight
      end
  end.

(** [free(req)]; [unchecked_push_back] needs room in the [inplace_vector]. *)
Definition free (N : nat) (req : ptr) (p : RequestPool) (in_flight : Z) : M W (RequestPool * Z) :=
  match req with
  | InPool i =>
      if (length (free_list_ p) <? N)%nat then
        mret (mkPool (pool_ p) (free_list_ p ++ [req]) (sqe_overflow_ p) (pool_overflow_ p)
                (pool_overflow_free_list_ p), in_flight -ₛ 1)
      else undefined
  | InOverflow j =>
      mret (mkPool (pool_ p) (free_list_ p) (sqe_overflow_ p) (pool_overflow_ p)
              (pool_overflow_free_list_ p ++ [req]), in_flight -ₛ 1)
  end.

End pool.
Arguments RequestPool : clear implicits.

(** ** The places of a pool *)
Section pool_laws.
Context {W T Args : Type} `{LawfulRing W} `{IsRequest T Args} (O : Op) (N : nat).

Abbreviation pool := (RequestPool T).

Definition places (p : pool) : list ptr :=
  (InPool <$> seq 0 N) ++ (InOverflow <$> seq 0 (length (pool_overflow_ p))).

Definition in_pool (r : ptr) : bool := match r with InPool _ => true | InOverflow _ => false end.

(** Every request is free, waiting for the queue, or in use: in flight, or
    with whoever handles its completion. *)
Record pool_ok (p : pool) (busy : list ptr) : Prop := {
  ok_size : length (pool_ p) = N;
  ok_places :
    free_list_ p ++ pool_overflow_free_list_ p ++ sqe_overflow_ p ++ busy ≡ₚ places p;
  ok_free : Forall (λ r, in_pool r = true) (free_list_ p);
  ok_overflow : Forall (λ r, in_pool r = false) (pool_overflow_free_list_ p)
}.

#[global] Instance pool_ok_Permutation p : Proper ((≡ₚ) ==> (↔)) (pool_ok p).
Proof.
  intros l l' Hl. split; intros [? Hp ? ?]; split; try done; [by rewrite <- Hl|by rewrite Hl].
Qed.

Lemma NoDup_places (p : pool) : NoDup (places p).
Proof.
  unfold places. apply NoDup_app. split_and!.
  - apply NoDup_fmap; [by intros ?? [=]|]. apply NoDup_seq.
  - intros r (i & -> & _)%list_elem_of_fmap (j & ? & _)%list_elem_of_fmap. congruence.
  - apply NoDup_fmap; [by intros ?? [=]|]. apply NoDup_seq.
Qed.

Lemma deref_place (p : pool) r : length (pool_ p) = N → r ∈ places p ↔ is_Some (deref r p).
Proof.
  intros HN. unfold places. rewrite elem_of_app, !list_elem_of_fmap.
  setoid_rewrite elem_of_seq. destruct r as [i|j]; simpl; rewrite lookup_lt_is_Some, ?HN;
    split; [intros [(?&[= ->]&?)|(?&?&?)]; [lia|done]|intros; left; eexists; split; [done|lia]
           |intros [(?&?&?)|(?&[= ->]&?)]; [done|lia]|intros; right; eexists; split; [done|lia]].
Qed.

(** Assigning to a request leaves the others and the lists alone. *)
Lemma deref_assign_ne (p : pool) r q x : q ≠ r → deref q (assign r x p) = deref q p.
Proof.
  intros Hne. destruct r, q; simpl; try done; rewrite list_lookup_insert_ne; congruence.
Qed.

Lemma deref_assign (p : pool) r x : is_Some (deref r p) → deref r (assign r x p) = Some x.
Proof.
  intros [y Hy]. destruct r; simpl in *; apply lookup_lt_Some in Hy;
    by rewrite list_lookup_insert_eq.
Qed.

Lemma ok_assign (p : pool) r x busy : pool_ok p busy → pool_ok (assign r x p) busy.
Proof.
  intros [HN Hp Hf Ho]. unfold places in *.
  destruct r; split; simpl in *; try done; unfold places; simpl; rewrite ?length_insert; done.
Qed.

Lemma lists_assign (p : pool) r x :
  free_list_ (assign r x p) = free_list_ p ∧ sqe_overflow_ (assign r x p) = sqe_overflow_ p ∧
  pool_overflow_free_list_ (assign r x p) = pool_overflow_free_list_ p.
Proof. by destruct r. Qed.

Lemma last_take {A} (l : list A) x : last l = Some x → l = take (pred (length l)) l ++ [x].
Proof.
  intros Hl. apply last_Some in Hl as [l' ->]. rewrite length_app. simpl.
  replace (pred (length l' + 1)) with (length l') by lia. by rewrite take_app_length.
Qed.

(** Taking a request: it comes from a free list or is new, so it is neither
    waiting nor in use, and those that are do not change. *)
Lemma take_request_ok (p p' : pool) busy r :
  pool_ok p busy → take_request O p = (r, p') →
  pool_ok p' (busy ++ [r]) ∧ sqe_overflow_ p' = sqe_overflow_ p ∧
  (∀ q, q ∈ sqe_overflow_ p ++ busy → deref q p' = deref q p).
Proof.
  intros [HN Hp Hf Ho] Htake. unfold take_request in Htake.
  destruct (last (free_list_ p)) as [r0|] eqn:Hl; simplify_eq.
  { apply last_take in Hl. rewrite Hl in Hp, Hf. apply Forall_app in Hf as [Hf _].
    split; [|done]. split; simpl; try done. unfold places in *. simpl.
    rewrite <- Hp. solve_Permutation. }
  destruct (last (pool_overflow_free_list_ p)) as [r0|] eqn:Hl2; simplify_eq.
  { apply last_take in Hl2. rewrite Hl2 in Hp, Ho. apply Forall_app in Ho as [Ho _].
    split; [|done]. split; simpl; try done. unfold places in *. simpl.
    rewrite <- Hp. solve_Permutation. }
  split; [|split; [done|]].
  - split; simpl; try done. unfold places in *. simpl. rewrite length_app, seq_app, fmap_app.
    simpl. rewrite (assoc_L (++) (InPool <$> seq 0 N)), <- Hp. solve_Permutation.
  - intros q Hq. assert (q ∈ places p) as Hin by (rewrite <- Hp; set_solver).
    apply deref_place in Hin; [|done]. destruct q; simpl in *; [done|].
    apply lookup_lt_is_Some in Hin. by rewrite lookup_app_l.
Qed.

(** A request that is not waiting and not in use. *)
Lemma taken_fresh (p : pool) busy r : pool_ok p (busy ++ [r]) → r ∉ sqe_overflow_ p ++ busy.
Proof.
  intros Hok. pose proof (NoDup_places p) as Hnd. rewrite <- (ok_places _ _ Hok) in Hnd.
  rewrite !(assoc_L (++)) in Hnd. apply NoDup_app in Hnd as (_ & Hnd & _).
  intros Hin. apply (Hnd r); set_solver.
Qed.

(** A request in use exists. *)
Lemma busy_deref (p : pool) busy r : pool_ok p busy → r ∈ busy → is_Some (deref r p).
Proof.
  intros Hok Hr. apply deref_place; [apply Hok|]. rewrite <- (ok_places _ _ Hok). set_solver.
Qed.

Lemma submit_law (p : pool) busy r sqe k (w0 w : W) :
  pool_ok p (busy ++ [r]) → ring_taken w0 sqe w →
  wp (submit O r sqe p k) w (returns (λ '(p', k') w',
    pool_ok p' (busy ++ [r]) ∧ k' = k +ₛ 1 ∧ sqe_overflow_ p' = sqe_overflow_ p ∧
    ring_adds [(O, r)] w0 w' ∧
    (∃ x, deref r p = Some x ∧ deref r p' = Some (set_sqe sqe x)) ∧
    ∀ q, q ∈ sqe_overflow_ p ++ busy → deref q p' = deref q p)).
Proof.
  intros Hok Hres. unfold submit.
  destruct (busy_deref p (busy ++ [r]) r Hok) as [x Hx]; [set_solver|]. rewrite Hx.
  apply wp_bind_returns. eapply wp_returns_mono; [by apply prep_law|]. intros u w' Hadds.
  apply wp_ret. destruct (lists_assign p r (set_sqe sqe x)) as (_ & Hsq & _). split_and!; try done.
  - by apply ok_assign.
  - exists x. split; [done|]. by apply deref_assign.
  - intros q Hq. apply deref_assign_ne. intros ->. by apply (taken_fresh p busy r).
Qed.

(** [next] *)
Lemma next_law (p : pool) busy k args (w : W) :
  pool_ok p busy → ring_ok w →
  wp (next O args p k) w (returns (λ '(p', k') w', ∃ r,
    r ∉ sqe_overflow_ p ++ busy ∧
    (∀ q, q ∈ sqe_overflow_ p ++ busy → deref q p' = deref q p) ∧
    (∃ x, deref r p' = Some (reset_request args x) ∨
          ∃ sqe, deref r p' = Some (set_sqe sqe (reset_request args x))) ∧
    (pool_ok p' (busy ++ [r]) ∧ sqe_overflow_ p' = sqe_overflow_ p ∧ k' = k +ₛ 1 ∧
       ring_adds [(O, r)] w w' ∨
     pool_ok p' busy ∧ sqe_overflow_ p' = sqe_overflow_ p ++ [r] ∧ k' = k ∧
       ring_keeps w w'))).
Proof.
  intros Hok Hring. unfold next. destruct (take_request O p) as [r p1] eqn:Htake.
  destruct (take_request_ok p p1 busy r Hok Htake) as (Hok1 & Hsq1 & Hsame).
  pose proof (taken_fresh _ _ _ Hok1) as Hfresh. rewrite Hsq1 in Hfresh.
  destruct (busy_deref p1 (busy ++ [r]) r Hok1) as [x Hx]; [set_solver|]. rewrite Hx.
  set (p2 := assign r (reset_request args x) p1).
  assert (pool_ok p2 (busy ++ [r])) as Hok2 by by apply ok_assign.
  assert (Hx2 : deref r p2 = Some (reset_request args x)) by by apply deref_assign.
  destruct (lists_assign p1 r (reset_request args x)) as (_ & Hsq2 & _). fold p2 in Hsq2.
  assert (Hsame2 : ∀ q, q ∈ sqe_overflow_ p ++ busy → deref q p2 = deref q p).
  { intros q Hq. unfold p2. rewrite deref_assign_ne by (intros ->; done). by apply Hsame. }
  apply wp_bind_returns. eapply wp_returns_mono; [by apply get_sqe_law|].
  intros [sqe|] w1 Htaken.
  - eapply wp_returns_mono; [by apply (submit_law p2 busy _ _ _ w)|].
    intros [p3 k3] w2 (Hok3 & -> & Hsq3 & Hadds & (y & Hy & Hy') & Hsame3). exists r.
    rewrite Hsq2, Hsq1 in Hsame3. split_and!; [done| | |].
    + intros q Hq. rewrite Hsame3 by done. by apply Hsame2.
    + exists x. right. exists sqe. congruence.
    + left. split_and!; [done|congruence|done|done].
  - apply wp_ret. exists r. split_and!; [done|done| |].
    + exists x. by left.
    + right. rewrite Hsq2, Hsq1. split_and!; [|done..]. destruct Hok2 as [? Hp ? ?].
      split; simpl; try done. unfold places in *. simpl. rewrite <- Hp, Hsq2, Hsq1. solve_Permutation.
Qed.

(** [try_pop_overflow] *)
Lemma try_pop_overflow_law (p : pool) busy k (w : W) :
  pool_ok p busy → ring_ok w →
  wp (try_pop_overflow O p k) w (returns (λ '(b, (p', k')) w',
    if b : bool then
      ∃ r, sqe_overflow_ p = r :: sqe_overflow_ p' ∧ pool_ok p' (busy ++ [r]) ∧ k' = k +ₛ 1 ∧
           ring_adds [(O, r)] w w' ∧
           (∃ x sqe, deref r p = Some x ∧ deref r p' = Some (set_sqe sqe x)) ∧
           ∀ q, q ∈ sqe_overflow_ p' ++ busy → deref q p' = deref q p
    else p' = p ∧ k' = k ∧ ring_keeps w w')).
Proof.
  intros Hok Hring. unfold try_pop_overflow. destruct (sqe_overflow_ p) as [|r rest] eqn:Hsq.
  { apply wp_ret. split_and!; [done|done|by apply ring_keeps_refl]. }
  apply wp_bind_returns. eapply wp_returns_mono; [by apply get_sqe_law|].
  intros [sqe|] w1 Htaken; [|by apply wp_ret].
  apply wp_bind_returns. eapply wp_returns_mono; [apply (submit_law _ busy _ _ _ w); [|done]|].
  { destruct Hok as [? Hp ? ?]. split; simpl; try done.
    rewrite Hsq in Hp. unfold places in *. simpl. rewrite <- Hp. solve_Permutation. }
  intros [p' k'] w2 (Hok' & -> & Hsq' & Hadds & (x & Hx & Hx') & Hsame). apply wp_ret. simpl in *.
  exists r. rewrite Hsq'. split_and!; [done|done|done|done| |].
  { exists x, sqe. split; [|done]. by destruct r. }
  intros q Hq. rewrite Hsame by done. by destruct q.
Qed.

(** There is room in the free list for a request that is not in it. *)
Lemma free_list_room (p : pool) rest i :
  free_list_ p ++ [InPool i] ++ pool_overflow_free_list_ p ++ sqe_overflow_ p ++ rest ≡ₚ places p →
  Forall (λ r, in_pool r = true) (free_list_ p) → (length (free_list_ p) < N)%nat.
Proof.
  intros Hp Hf. assert (free_list_ p ++ [InPool i] ⊆+ InPool <$> seq 0 N) as Hsub.
  { apply NoDup_submseteq.
    - pose proof (NoDup_places p) as Hnd. rewrite <- Hp, (assoc_L (++)) in Hnd.
      by apply NoDup_app in Hnd as (? & _).
    - intros q Hq. assert (in_pool q = true) as Hin.
      { apply elem_of_app in Hq as [Hq|Hq%list_elem_of_singleton]; [|by subst].
        rewrite Forall_forall in Hf. auto. }
      assert (q ∈ places p) as Hqp by (rewrite <- Hp; set_solver).
      unfold places in Hqp. apply elem_of_app in Hqp as [|Hqp]; [done|].
      apply list_elem_of_fmap in Hqp as (j & -> & _). done. }
  apply submseteq_length in Hsub. rewrite length_app, length_fmap, length_seq in Hsub.
  simpl in Hsub. lia.
Qed.

(** [free] *)
Lemma free_law (p : pool) busy k r (w : W) :
  pool_ok p (r :: busy) →
  ∃ p', free N r p k w = (Done (p', k -ₛ 1), w) ∧ pool_ok p' busy ∧
        sqe_overflow_ p' = sqe_overflow_ p ∧ (∀ q, deref q p' = deref q p) ∧
        pool_overflow_ p' = pool_overflow_ p.
Proof.
  intros [HN Hp Hf Ho]. unfold free. destruct r as [i|j].
  - assert (length (free_list_ p) < N)%nat as Hroom.
    { apply (free_list_room p busy i); [|done]. rewrite <- Hp. solve_Permutation. }
    rewrite (proj2 (Nat.ltb_lt _ _)) by done. eexists. split; [done|]. split; [|done].
    split; simpl; try done.
    + unfold places in *. simpl. rewrite <- Hp. solve_Permutation.
    + apply Forall_app. by repeat constructor.
  - eexists. split; [done|]. split; [|done]. split; simpl; try done.
    + unfold places in *. simpl. rewrite <- Hp. solve_Permutation.
    + apply Forall_app. by repeat constructor.
Qed.

End pool_laws.

(** C22. The request pool never hands out a request that is in use, and counts
    exactly. In a pool whose requests are each free, waiting or in use, over a ring
    that is in order: [next] takes a request that is neither waiting nor in use,
    fills in its arguments, and either submits it, which puts it into the ring and
    adds one to [in_flight_], or puts it at the end of the waiting queue;
    [try_pop_overflow] submits the first waiting request as it is; [free] of a
    request in use finds room in its free list and takes one from [in_flight_].
    Waiting requests and those in use keep their content, and the pool stays so. *)
Theorem request_pool_keeps_requests_apart {W T Args} `{LawfulRing W} `{IsRequest T Args}
    (O : Op) (N : nat) (p : RequestPool T) (busy : list ptr) (k : Z) (w : W) :
  pool_ok N p busy → ring_ok w →
  (∀ args, wp (next O args p k) w (returns (λ '(p', k') w', ∃ r,
     r ∉ sqe_overflow_ p ++ busy ∧
     (∀ q, q ∈ sqe_overflow_ p ++ busy → deref q p' = deref q p) ∧
     (∃ x, deref r p' = Some (reset_request args x) ∨
           ∃ sqe, deref r p' = Some (set_sqe sqe (reset_request args x))) ∧
     (pool_ok N p' (busy ++ [r]) ∧ sqe_overflow_ p' = sqe_overflow_ p ∧ k' = k +ₛ 1 ∧
        ring_adds [(O, r)] w w' ∨
      pool_ok N p' busy ∧ sqe_overflow_ p' = sqe_overflow_ p ++ [r] ∧ k' = k ∧
        ring_keeps w w')))) ∧
  wp (try_pop_overflow O p k) w (returns (λ '(b, (p', k')) w',
     if b : bool then
       ∃ r, sqe_overflow_ p = r :: sqe_overflow_ p' ∧ pool_ok N p' (busy ++ [r]) ∧ k' = k +ₛ 1 ∧
            ring_adds [(O, r)] w w' ∧
            (∃ x sqe, deref r p = Some x ∧ deref r p' = Some (set_sqe sqe x)) ∧
            ∀ q, q ∈ sqe_overflow_ p' ++ busy → deref q p' = deref q p
     else p' = p ∧ k' = k ∧ ring_keeps w w')) ∧
  (∀ r rest, busy ≡ₚ r :: rest → ∃ p',
     free N r p k w = (Done (p', k -ₛ 1), w) ∧ pool_ok N p' rest ∧
     sqe_overflow_ p' = sqe_overflow_ p ∧ (∀ q, deref q p' = deref q p) ∧
     pool_overflow_ p' = pool_overflow_ p).
Proof.
  intros Hok Hring. split_and!; intros.
  - by apply next_law.
  - by apply try_pop_overflow_law.
  - apply free_law. match goal with Hp : _ ≡ₚ _ |- _ => by rewrite <- Hp end.
Qed.

Lemma new_pool_ok {T Args} `{IsRequest T Args} O N : pool_ok N (RequestPool_new O N) [].
Proof.
  split; simpl; try done.
  - by rewrite length_replicate.
  - by apply Forall_fmap, Forall_true.
Qed.

(** A ring with a given number of free entries; what it was told. *)
Record demo_ring := {
  entries : nat; filled : list (sqe_op * (Op * ptr)); last_entry : option Z
}.

#[local] Instance demo_ring_ring : Ring demo_ring := {|
  io_uring_get_sqe w :=
    match entries w with
    | O => (Done None, {| entries := O; filled := filled w; last_entry := None |})
    | S n => (Done (Some (Z.of_nat n)),
              {| entries := n; filled := filled w; last_entry := Some (Z.of_nat n) |})
    end;
  io_uring_prep _ o data w :=
    (Done (), {| entries := entries w; filled := filled w ++ [(o, data)]; last_entry := None |})
|}.

#[local] Instance demo_ring_view : RingView demo_ring := {|
  ring_ok _ := True; in_ring w := (filled w).*2; seen sn _ := sn = []
|}.

#[local] Instance demo_ring_lawful : LawfulRing demo_ring.
Proof.
  refine {| ring_taken w sqe w' := filled w' = filled w |}; intros w; unfold wp; simpl.
  - intros _. destruct (entries w); simpl; [|done]. split; [done|by rewrite app_nil_r|done].
  - intros o data w0 w1 Ht. split; simpl; [done|by rewrite Ht, fmap_app|done].
Defined.

(** Witness: a new pool of two requests. *)
Lemma request_pool_keeps_requests_apart_witness :
  let p := RequestPool_new CLOSE 2 : RequestPool CloseRequest in
  let w := {| entries := 1; filled := []; last_entry := None |} in
  pool_ok 2 p [] ∧
  wp (next CLOSE 7 p 0) w (returns (λ '(p', k') w', ∃ r,
    r ∉ sqe_overflow_ p ++ [] ∧
    (pool_ok 2 p' [r] ∧ k' = 0 +ₛ 1 ∧ in_ring w' ≡ₚ [(CLOSE, r)] ∨
     pool_ok 2 p' [] ∧ sqe_overflow_ p' = [r] ∧ k' = 0))) ∧
  ∃ p', next CLOSE 7 p 0 w
    = (Done (p', 1), {| entries := 0; filled := [(SqeClose 7, (CLOSE, InPool 1))];
                        last_entry := None |}).
Proof.
  intros p w. split_and!; [apply new_pool_ok| |].
  - destruct (request_pool_keeps_requests_apart (W := demo_ring) CLOSE 2 p [] 0 w) as [Hn _];
      [apply new_pool_ok|done|].
    eapply wp_returns_mono; [apply (Hn 7)|]. intros [p' k'] w' (r & Hr & _ & _ & Hok).
    exists r. split; [exact Hr|]. destruct Hok as [(? & _ & ? & [_ ? _])|(? & ? & ? & _)]; auto.
  - eexists. vm_compute. reflexivity.
Defined.
