(* ===== verification/EventLoop.v ===== *)
(** utils/event_loop.h: the io_uring event loop.

    The loop keeps four request pools over one ring, a queue of directories to
    read, a reference count for each directory that openings still need, and
    the number of requests in flight. The handlers are parameters: they get the
    loop and may queue more work. *)

From S2P Require Import Prelude Kernel Sinks Dirents RequestPool Grep.

Definition queue_size : nat := 4096.

Definition safe_min : Z := 524288.

(** [max_fd()]; the argument is what [getrlimit] returns and [rlim_cur]. *)
Definition max_fd (res rlim_cur : Z) : Z :=
  if negb (res =? 0) then safe_min else rlim_cur `min` safe_min.

Definition IORING_SETUP_COOP_TASKRUN : Z := 2 ^ 8.

Definition IORING_SETUP_SINGLE_ISSUER : Z := 2 ^ 12.

(** The calls on the ring beside taking and filling entries: setting it up
    (entries and flags), submitting, the completions that can be seen once at
    least one is there, each with its result and the request, and consuming
    them. *)
Class RingQueue (W : Type) := {
  io_uring_queue_init : Z → Z → M W Z;
  io_uring_submit : M W Z;
  io_uring_completions : M W (list (Z * (Op * ptr)));
  io_uring_cq_advance : Z → M W unit
}.

Record EventLoop := mkEventLoop {
  in_flight_ : Z;
  openat_request_pool_ : RequestPool OpenAtRequest;
  close_request_pool_ : RequestPool CloseRequest;
  read_request_pool_ : RequestPool ReadRequest;
  write_request_pool_ : RequestPool WriteRequest;
  getdents_queue_ : list Z;
  dir_ref_count_ : gmap Z Z;
  read_free_queue_ : list ptr
}.

(** The members as the constructor initialises them, for pools of [capacity]. *)
Definition EventLoop_members (capacity : nat) : EventLoop :=
  mkEventLoop 0 (RequestPool_new OPENAT capacity) (RequestPool_new CLOSE capacity)
    (RequestPool_new READ capacity) (RequestPool_new WRITE capacity) [] ∅ [].

Definition set_in_flight (k : Z) (ev : EventLoop) : EventLoop :=
  mkEventLoop k (openat_request_pool_ ev) (close_request_pool_ ev) (read_request_pool_ ev)
    (write_request_pool_ ev) (getdents_queue_ ev) (dir_ref_count_ ev) (read_free_queue_ ev).

Definition set_openat (pk : RequestPool OpenAtRequest * Z) (ev : EventLoop) : EventLoop :=
  mkEventLoop pk.2 pk.1 (close_request_pool_ ev) (read_request_pool_ ev)
    (write_request_pool_ ev) (getdents_queue_ ev) (dir_ref_count_ ev) (read_free_queue_ ev).

Definition set_close (pk : RequestPool CloseRequest * Z) (ev : EventLoop) : EventLoop :=
  mkEventLoop pk.2 (openat_request_pool_ ev) pk.1 (read_request_pool_ ev)
    (write_request_pool_ ev) (getdents_queue_ ev) (dir_ref_count_ ev) (read_free_queue_ ev).

Definition set_read (pk : RequestPool ReadRequest * Z) (ev : EventLoop) : EventLoop :=
  mkEventLoop pk.2 (openat_request_pool_ ev) (close_request_pool_ ev) pk.1
    (write_request_pool_ ev) (getdents_queue_ ev) (dir_ref_count_ ev) (read_free_queue_ ev).

Definition set_write (pk : RequestPool WriteRequest * Z) (ev : EventLoop) : EventLoop :=
  mkEventLoop pk.2 (openat_request_pool_ ev) (close_request_pool_ ev) (read_request_pool_ ev)
    pk.1 (getdents_queue_ ev) (dir_ref_count_ ev) (read_free_queue_ ev).

Definition set_getdents (q : list Z) (ev : EventLoop) : EventLoop :=
  mkEventLoop (in_flight_ ev) (openat_request_pool_ ev) (close_request_pool_ ev)
    (read_request_pool_ ev) (write_request_pool_ ev) q (dir_ref_count_ ev) (read_free_queue_ ev).

Definition set_refs (m : gmap Z Z) (ev : EventLoop) : EventLoop :=
  mkEventLoop (in_flight_ ev) (openat_request_pool_ ev) (close_request_pool_ ev)
    (read_request_pool_ ev) (write_request_pool_ ev) (getdents_queue_ ev) m (read_free_queue_ ev).

Definition set_read_free (q : list ptr) (ev : EventLoop) : EventLoop :=
  mkEventLoop (in_flight_ ev) (openat_request_pool_ ev) (close_request_pool_ ev)
    (read_request_pool_ ev) (write_request_pool_ ev) (getdents_queue_ ev) (dir_ref_count_ ev) q.

Section event_loop.
Context {W : Type} `{Kernel W} `{DirKernel W} `{Ring W} `{RingQueue W} {F : Fuel}.
(** The capacity of the pools, [impl::queue_size]. *)
Context (capacity : nat).

Record handlers := mkHandlers {
  openat_handler : EventLoop → Z → bool → M W EventLoop;
  getdents_handler : EventLoop → Z → bool → bytes → M W EventLoop;
  close_handler : EventLoop → M W EventLoop;
  read_handler : EventLoop → ptr → M W (EventLoop * expected Z);
  write_handler : EventLoop → Z → Z → M W EventLoop
}.

(** [EventLoop(...)] *)
Definition EventLoop_new : M W EventLoop :=
  res ← io_uring_queue_init (Z.of_nat capacity)
          (Z.lor IORING_SETUP_COOP_TASKRUN IORING_SETUP_SINGLE_ISSUER);
  if negb (res =? 0) then throw "failed to initialise queue"
  else mret (EventLoop_members capacity).

(** ** Queueing *)

Definition queue_getdents (fd : Z) (ev : EventLoop) : M W EventLoop :=
  mret (set_getdents (getdents_queue_ ev ++ [fd]) ev).

Definition queue_close (fd : Z) (ev : EventLoop) : M W EventLoop :=
  pk ← next CLOSE fd (close_request_pool_ ev) (in_flight_ ev); mret (set_close pk ev).

Definition queue_read (fd offset : Z) (ev : EventLoop) : M W EventLoop :=
  pk ← next READ (fd, offset) (read_request_pool_ ev) (in_flight_ ev); mret (set_read pk ev).

Definition queue_write (fd : Z) (buffer : bytes) (offset : Z) (ev : EventLoop) : M W EventLoop :=
  pk ← next WRITE (fd, buffer, offset) (write_request_pool_ ev) (in_flight_ ev);
  mret (set_write pk ev).

Definition free_read_request (req : ptr) (ev : EventLoop) : M W EventLoop :=
  mret (set_read_free (read_free_queue_ ev ++ [req]) ev).

(** [increase_dir_ref(fd)] and [decrease_dir_ref(fd)], with their contracts *)
Definition increase_dir_ref (fd : Z) (ev : EventLoop) : M W EventLoop :=
  match dir_ref_count_ ev !! fd with
  | None => undefined
  | Some n => mret (set_refs (<[fd := n +ₛ 1]> (dir_ref_count_ ev)) ev)
  end.

Definition decrease_dir_ref (fd : Z) (ev : EventLoop) : M W EventLoop :=
  match dir_ref_count_ ev !! fd with
  | None => undefined
  | Some n =>
      if n =? 0 then undefined
      else if n -ₛ 1 =? 0 then
        ev ← queue_close fd ev; mret (set_refs (delete fd (dir_ref_count_ ev)) ev)
      else mret (set_refs (<[fd := n -ₛ 1]> (dir_ref_count_ ev)) ev)
  end.

(** [queue_openat(parent_fd, path, flags)] with its precondition; the overload
    without a parent passes [AT_FDCWD]. *)
Definition queue_openat (parent_fd : Z) (path : string) (flags : Z) (ev : EventLoop)
    : M W EventLoop :=
  if (parent_fd =? AT_FDCWD) || (wrap64 parent_fd <? safe_min) then
    ev ← (if negb (parent_fd =? AT_FDCWD) then increase_dir_ref parent_fd ev else mret ev);
    pk ← next OPENAT (parent_fd, path, flags) (openat_request_pool_ ev) (in_flight_ ev);
    mret (set_openat pk ev)
  else undefined.

(** ** The phases of a round of [pump] *)

(** One record of a directory that is being read. *)
Definition visit_dirent (h : handlers) (fd : Z) (dir : linux_dirent64) (ev : EventLoop)
    : M W EventLoop :=
  if (d_type dir =? DT_REG) || (d_type dir =? DT_DIR) then
    getdents_handler h ev fd (d_type dir =? DT_REG) (d_name dir)
  else mret ev.

Definition getdents_step (h : handlers) (fd : Z) (ev : EventLoop) : M W (EventLoop + EventLoop) :=
  '(read, buffer) ← sys_getdents64 fd (32 * 1024);
  if read <? 0 then
    err ← get_errno;
    _ ← println_cerr ("fd: " +:+ pretty fd +:+ " " +:+ pretty err);
    mret (inr ev)
  else if read =? 0 then mret (inr ev)
  else ev ← walk_dirents (visit_dirent h fd) (takeZ read buffer) ev; mret (inl ev).

Fixpoint read_directories (h : handlers) (fds : list Z) (ev : EventLoop) : M W EventLoop :=
  match fds with
  | [] => mret ev
  | fd :: fds =>
      ev ← loop fuel (getdents_step h fd) (set_refs (<[fd := 1]> (dir_ref_count_ ev)) ev);
      ev ← decrease_dir_ref fd ev;
      read_directories h fds ev
  end.

(** [do { check_overflow = ... || ... || ...; } while (check_overflow);] The
    write pool is not asked. *)
Definition overflow_step (ev : EventLoop) : M W (EventLoop + EventLoop) :=
  '(popped, pk) ← try_pop_overflow OPENAT (openat_request_pool_ ev) (in_flight_ ev);
  let ev := set_openat pk ev in
  if (popped : bool) then mret (inl ev)
  else
    '(popped, pk) ← try_pop_overflow CLOSE (close_request_pool_ ev) (in_flight_ ev);
    let ev := set_close pk ev in
    if (popped : bool) then mret (inl ev)
    else
      '(popped, pk) ← try_pop_overflow READ (read_request_pool_ ev) (in_flight_ ev);
      let ev := set_read pk ev in
      if (popped : bool) then mret (inl ev) else mret (inr ev).

(** [for (auto *req : read_free_queue) { free(req); ++in_flight_; }] *)
Fixpoint free_reads (reqs : list ptr) (ev : EventLoop) : M W EventLoop :=
  match reqs with
  | [] => mret ev
  | req :: reqs =>
      '(pool, k) ← free capacity req (read_request_pool_ ev) (in_flight_ ev);
      free_reads reqs (set_read (pool, k +ₛ 1) ev)
  end.

(** [std::to_underlying(base_req->op)] *)
Definition to_underlying (o : Op) : Z :=
  match o with OPENAT => 0 | CLOSE => 1 | READ => 2 | WRITE => 3 end.

(** The body of [io_uring_for_each_cqe]: an error ends [pump]. *)
Definition complete (h : handlers) (res : Z) (data : Op * ptr) (ev : EventLoop)
    : M W (EventLoop * expected unit) :=
  _ ← (if res <? 0 then println_cerr (pretty (- res) +:+ " " +:+ pretty (to_underlying data.1))
       else mret ());
  match data with
  | (OPENAT, r) =>
      match deref r (openat_request_pool_ ev) with
      | None => undefined
      | Some req =>
          ev ← (if 0 <=? res then openat_handler h ev res (oa_is_file req) else mret ev);
          match deref r (openat_request_pool_ ev) with
          | None => undefined
          | Some req =>
              ev ← (if negb (oa_parent_fd req =? AT_FDCWD)
                    then decrease_dir_ref (oa_parent_fd req) ev else mret ev);
              pk ← free capacity r (openat_request_pool_ ev) (in_flight_ ev);
              mret (set_openat pk ev, Value ())
          end
      end
  | (CLOSE, r) =>
      ev ← close_handler h ev;
      pk ← free capacity r (close_request_pool_ ev) (in_flight_ ev);
      mret (set_close pk ev, Value ())
  | (READ, r) =>
      match deref r (read_request_pool_ ev) with
      | None => undefined
      | Some req =>
          if res =? 0 then
            ev ← queue_close (rd_fd req) ev;
            pk ← free capacity r (read_request_pool_ ev) (in_flight_ ev);
            mret (set_read pk ev, Value ())
          else if 0 <? res then
            let req := mkRead (rd_op req) (rd_sqe req) (rd_fd req) (rd_offset req) (rd_buffer req) res in
            let ev := set_read (assign r req (read_request_pool_ ev), in_flight_ ev -ₛ 1) ev in
            '(ev, handled) ← read_handler h ev r;
            match handled with
            | Unexpected e => mret (ev, Unexpected e)
            | Value _ =>
                match deref r (read_request_pool_ ev) with
                | None => undefined
                | Some req =>
                    ev ← queue_read (rd_fd req) (rd_offset req +ₛ res) ev;
                    mret (ev, Value ())
                end
            end
          else mret (ev, Value ())
      end
  | (WRITE, r) =>
      match deref r (write_request_pool_ ev) with
      | None => undefined
      | Some req =>
          ev ← write_handler h ev (wr_fd req) res;
          match deref r (write_request_pool_ ev) with
          | None => undefined
          | Some req =>
              ev ← (if negb (wr_offset req +ₛ res =? lenZ (wr_buffer req)) then
                      queue_write (wr_fd req) (wr_buffer req) (wr_offset req +ₛ res) ev
                    else mret ev);
              pk ← free capacity r (write_request_pool_ ev) (in_flight_ ev);
              mret (set_write pk ev, Value ())
          end
      end
  end.

Fixpoint complete_all (h : handlers) (cqes : list (Z * (Op * ptr))) (ev : EventLoop)
    : M W (EventLoop * expected unit) :=
  match cqes with
  | [] => mret (ev, Value ())
  | (res, data) :: cqes =>
      '(ev, r) ← complete h res data ev;
      match r with
      | Unexpected e => mret (ev, Unexpected e)
      | Value _ => complete_all h cqes ev
      end
  end.

(** One round of [for (;;)] in [pump]. *)
Definition pump_round (h : handlers) (ev : EventLoop)
    : M W (EventLoop + (EventLoop * expected unit)) :=
  ev ← read_directories h (getdents_queue_ ev) (set_getdents [] ev);
  ev ← loop fuel overflow_step ev;
  ev ← free_reads (read_free_queue_ ev) (set_read_free [] ev);
  if in_flight_ ev =? 0 then mret (inr (ev, Value ()))
  else
    res ← io_uring_submit;
    if res <? 0 then
      mret (inr (ev, Unexpected ("failed to submit pending requests: " +:+ pretty (- res))))
    else
      cqes ← io_uring_completions;
      '(ev, r) ← complete_all h cqes ev;
      match r with
      | Unexpected e => mret (inr (ev, Unexpected e))
      | Value _ => _ ← io_uring_cq_advance (lenZ cqes); mret (inl ev)
      end.

Definition pump (h : handlers) (ev : EventLoop) : M W (EventLoop * expected unit) :=
  loop fuel (pump_round h) ev.

End event_loop.

(** ** Reference counts of directories *)

Inductive ref_op := Inc | Dec.

Section refs.
Context {W : Type} `{Ring W}.

Fixpoint run_refs (fd : Z) (ops : list ref_op) (ev : EventLoop) : M W EventLoop :=
  match ops with
  | [] => mret ev
  | Inc :: ops => ev ← increase_dir_ref fd ev; run_refs fd ops ev
  | Dec :: ops => ev ← decrease_dir_ref fd ev; run_refs fd ops ev
  end.

(** The count after [ops], if it reaches zero at the very end or not at all. *)
Fixpoint balance (n : Z) (ops : list ref_op) : option Z :=
  match ops with
  | [] => Some n
  | Inc :: ops => balance (n + 1) ops
  | Dec :: ops =>
      if n =? 1 then match ops with [] => Some 0 | _ => None end else balance (n - 1) ops
  end.

Lemma queue_close_refs fd m (ev : EventLoop) (w : W) :
  queue_close fd (set_refs m ev) w = (ev' ← queue_close fd ev; mret (set_refs m ev')) w.
Proof.
  unfold queue_close, mbind, M_bind. simpl.
  by destruct (next CLOSE fd (close_request_pool_ ev) (in_flight_ ev) w) as [[] w'].
Qed.

(** What a run of increments and decrements does. *)
Definition refs_done (fd m : Z) (ev : EventLoop) : M W EventLoop :=
  if m =? 0 then
    ev' ← queue_close fd ev; mret (set_refs (delete fd (dir_ref_count_ ev)) ev')
  else mret (set_refs (<[fd := m]> (dir_ref_count_ ev)) ev).

Lemma refs_done_set fd m n (ev : EventLoop) (w : W) :
  refs_done fd m (set_refs (<[fd := n]> (dir_ref_count_ ev)) ev) w = refs_done fd m ev w.
Proof.
  unfold refs_done. destruct (m =? 0); simpl.
  - unfold mbind, M_bind. rewrite queue_close_refs. unfold mbind, M_bind.
    destruct (queue_close fd ev w) as [[] w']; simpl; try done. by rewrite delete_insert_eq.
  - unfold set_refs. simpl. by rewrite insert_insert_eq.
Qed.

Lemma run_refs_law fd ops n m (ev : EventLoop) (w : W) :
  dir_ref_count_ ev !! fd = Some n → 0 < n → n + lenZ ops < size_max → balance n ops = Some m →
  run_refs fd ops ev w = refs_done fd m ev w.
Proof.
  revert n ev w. induction ops as [|[] ops IH]; intros n ev w Hn Hpos Hsz Hb; simpl in Hb;
    rewrite ?lenZ_cons in Hsz; try pose proof (lenZ_nonneg ops).
  - simplify_eq. unfold refs_done. rewrite (proj2 (Z.eqb_neq _ _)) by lia. simpl.
    rewrite insert_id by done. by destruct ev.
  - cbn [run_refs]. unfold increase_dir_ref. rewrite Hn. rewrite size_add_small by lia.
    unfold mbind, M_bind, mret, M_ret. cbn [outcome_bind].
    rewrite (IH (n + 1)); [apply refs_done_set| |lia|lia|done].
    simpl. by rewrite lookup_insert_eq.
  - cbn [run_refs]. unfold decrease_dir_ref. rewrite Hn. rewrite (proj2 (Z.eqb_neq n 0)) by lia.
    rewrite size_sub_small by lia. destruct (Z.eqb_spec n 1) as [->|Hne].
    + destruct ops; simplify_eq. simpl. unfold refs_done. simpl. unfold mbind, M_bind.
      unfold queue_close, mbind, M_bind.
      by destruct (next CLOSE fd (close_request_pool_ ev) (in_flight_ ev) w) as [[] w'].
    + rewrite (proj2 (Z.eqb_neq (n - 1) 0)) by lia.
      unfold mbind, M_bind, mret, M_ret. cbn [outcome_bind].
      rewrite (IH (n - 1)); [apply refs_done_set| |lia|lia|done].
      simpl. by rewrite lookup_insert_eq.
Qed.

End refs.

(** A directory is closed exactly once, when its last reference goes. For a
    directory with [n] references and any sequence of increments and
    decrements whose count reaches zero at its end or not at all: the contracts
    hold, and the whole sequence does nothing but store the new count, or, when
    it is zero, forget the directory and queue a single close of it. *)
Theorem event_loop_closes_directory_once {W} `{Ring W} fd ops n m (ev : EventLoop) (w : W) :
  dir_ref_count_ ev !! fd = Some n → 0 < n → n + lenZ ops < size_max → balance n ops = Some m →
  run_refs fd ops ev w =
    (if m =? 0 then
       ev' ← queue_close fd ev; mret (set_refs (delete fd (dir_ref_count_ ev)) ev')
     else mret (set_refs (<[fd := m]> (dir_ref_count_ ev)) ev)) w.
Proof. apply run_refs_law. Qed.

(** ** A small world *)

(** Free entries, the entries filled in, those whose completions have been
    looked at, the entry that was taken last, and a log of what was done. *)
Record demo := Demo {
  d_entries : nat; d_filled : list (sqe_op * (Op * ptr)); d_seen : list (sqe_op * (Op * ptr));
  d_reserved : option Z; d_log : list sqe_op
}.

#[global] Instance demo_kernel : Kernel demo := {|
  sys_write _ _ := undefined; sys_pread _ _ _ := undefined; sys_splice _ _ _ := undefined;
  sys_copy_file_range _ _ _ := undefined; sys_sendfile _ _ _ _ := undefined;
  sys_pipe := undefined; sys_setpipe_sz _ _ := undefined; sys_openat _ _ _ := undefined;
  sys_close _ := undefined; sys_statx _ := undefined; sys_fadvise _ _ _ _ := undefined;
  sys_isatty _ := undefined; sys_mmap _ _ := undefined; sys_munmap _ _ := undefined;
  std_cout _ := undefined; errno _ := 0; strerror _ := ""%string
|}.

#[global] Instance demo_dirs : DirKernel demo := {|
  sys_getdents64 _ _ := mret (0, []);
  println_cerr _ := mret ()
|}.

#[global] Instance demo_ring : Ring demo := {|
  io_uring_get_sqe w :=
    match d_entries w with
    | O => (Done None, Demo 0 (d_filled w) (d_seen w) None (d_log w))
    | S n => (Done (Some (Z.of_nat n)), Demo n (d_filled w) (d_seen w) (Some (Z.of_nat n)) (d_log w))
    end;
  io_uring_prep _ o data w :=
    (Done (), Demo (d_entries w) (d_filled w ++ [(o, data)]) (d_seen w) None (d_log w))
|}.

(** Opening gives descriptor 5, a file has three bytes, and every write is
    performed in full. *)
Definition demo_result (o : sqe_op) : Z :=
  match o with
  | SqeOpenat _ _ _ _ => 5
  | SqeClose _ => 0
  | SqeRead _ _ offset => 3 - offset
  | SqeWrite _ _ _ n _ => n
  end.

#[global] Instance demo_queue : RingQueue demo := {|
  io_uring_queue_init _ _ := mret 0;
  io_uring_submit w := (Done (Z.of_nat (length (d_filled w))), w);
  io_uring_completions w :=
    (Done ((λ e, (demo_result e.1, e.2)) <$> d_seen w ++ d_filled w),
     Demo (d_entries w) [] (d_seen w ++ d_filled w) (d_reserved w) (d_log w));
  io_uring_cq_advance n w :=
    (Done (), Demo (d_entries w + Z.to_nat n) (d_filled w) (dropZ n (d_seen w)) (d_reserved w)
                (d_log w ++ (takeZ n (d_seen w)).*1))
|}.

Definition idle_handlers {W} : handlers (W := W) :=
  mkHandlers (λ ev _ _, mret ev) (λ ev _ _ _, mret ev) (λ ev, mret ev)
    (λ ev _, mret (ev, Value 1)) (λ ev _ _, mret ev).

Lemma event_loop_closes_directory_once_witness :
  let ev := set_refs {[ 7 := 1 ]} (EventLoop_members 2) in
  let w := Demo 4 [] [] None [] in
  run_refs 7 [Inc; Inc; Dec; Dec; Dec] ev w =
    (ev' ← queue_close 7 ev; mret (set_refs (delete 7 {[ 7 := 1 ]}) ev')) w ∧
  d_filled (run_refs 7 [Inc; Inc; Dec; Dec; Dec] ev w).2 = [(SqeClose 7, (CLOSE, InPool 1))].
Proof.
  intros ev w. split; [|vm_compute; reflexivity].
  apply (event_loop_closes_directory_once 7 [Inc; Inc; Dec; Dec; Dec] 1 0 ev w);
    vm_compute; reflexivity.
Defined.

(** ** What the loop loses *)

(** A read that fails is never given back: when a completion reports an
    error for a read request, the loop prints it and goes on with everything
    as it was, the request still in use and still counted in [in_flight_], so
    that [pump], which returns only when nothing is in flight, cannot return. *)
Theorem event_loop_failed_read_is_kept {W} `{Kernel W} `{DirKernel W} `{Ring W} capacity
    (h : handlers (W := W)) res r req (ev : EventLoop) (w : W) :
  res < 0 → deref r (read_request_pool_ ev) = Some req →
  complete capacity h res (READ, r) ev w =
    (_ ← println_cerr (pretty (- res) +:+ " " +:+ pretty 2); mret (ev, Value ())) w.
Proof.
  intros Hres Hr. unfold complete. rewrite (proj2 (Z.ltb_lt res 0)) by done.
  rewrite Hr, (proj2 (Z.eqb_neq res 0)), (proj2 (Z.ltb_ge 0 res)) by lia. reflexivity.
Qed.

Lemma event_loop_failed_read_is_kept_witness :
  let ev := set_in_flight 1 (EventLoop_members 2) in
  let w := Demo 4 [] [] None [] in
  complete 2 idle_handlers (-5) (READ, InPool 0) ev w
    = (_ ← println_cerr (pretty (- (-5)) +:+ " " +:+ pretty 2); mret (ev, Value ())) w.
Proof.
  intros ev w.
  refine (event_loop_failed_read_is_kept 2 idle_handlers (-5) (InPool 0) _ ev w _ _);
    [reflexivity|reflexivity].
Defined.

(** A write that had to wait can be lost: the requests that wait for the
    submission queue are taken up again in every pool but the write pool. With
    one free entry, a close and then a write, [pump] performs the close, finds
    nothing in flight and returns success, with the write still waiting. *)
Theorem event_loop_drops_waiting_write :
  let F := 20%nat : Fuel in
  let run : M demo (EventLoop * expected unit) :=
    ev ← queue_close 7 (EventLoop_members 2);
    ev ← queue_write 1 (str "abc") 0 ev;
    pump 2 idle_handlers ev in
  let '(o, w') := run (Demo 1 [] [] None []) in
  d_log w' = [SqeClose 7] ∧
  match o with
  | Done (ev, Value _) => sqe_overflow_ (write_request_pool_ ev) = [InPool 1]
  | _ => False
  end.
Proof. vm_compute. split; reflexivity. Qed.

(** The rest of a short write is read from outside its buffer: a write
    request that starts at a non-zero offset still asks for as many bytes as the
    whole buffer has. *)
Theorem write_request_reads_past_its_buffer fd (buffer : bytes) offset (req : WriteRequest) :
  0 < offset →
  ∃ n, prep_request (reset_request (fd, buffer, offset) req) = SqeWrite fd buffer offset n (-1) ∧
       lenZ buffer < offset + n.
Proof. intros Ho. exists (lenZ buffer). split; [done|lia]. Qed.

Lemma write_request_reads_past_its_buffer_witness :
  ∃ n, prep_request (reset_request (1, str "abc", 2) fresh_request) = SqeWrite 1 (str "abc") 2 n (-1) ∧
       lenZ (str "abc") < 2 + n.
Proof. apply (write_request_reads_past_its_buffer 1 (str "abc") 2). reflexivity. Defined.
