(* ===== verification/Accounting.v ===== *)
(** What [in_flight_] of the event loop counts.

    The loop of utils/event_loop.h runs until [in_flight_] is zero. This file
    states which requests the number stands for, shows that every phase of
    [pump] keeps it exact for any handlers that only use the loop's own
    operations, and concludes what a successful return of [pump] means. *)

From S2P Require Import Prelude Kernel Sinks Dirents RequestPool Grep EventLoop.

#[global] Instance Op_eq_decision : EqDecision Op.
Proof. solve_decision. Defined.

(** What the loop relies on of the ring and of the system calls it makes. *)
Class LawfulQueue (W : Type) `{LawfulRing W} `{RingQueue W} `{DirKernel W} := {
  submit_ring (w : W) : ring_ok w → wp io_uring_submit w (upon (λ _, ring_keeps w));
  completions_ring (w : W) : ring_ok w →
    wp io_uring_completions w (upon (λ cqes w',
      ring_keeps w w' ∧ seen (cqes.*2) w' ∧ cqes.*2 ⊆+ in_ring w'));
  advance_ring sn (w : W) : ring_ok w → seen sn w →
    wp (io_uring_cq_advance (lenZ sn)) w (upon (λ _ w',
      ring_ok w' ∧ in_ring w ≡ₚ sn ++ in_ring w' ∧ seen [] w'));
  getdents_ring fd size (w : W) :
    ring_ok w → wp (sys_getdents64 fd size) w (upon (λ _, ring_keeps w));
  println_ring line (w : W) : ring_ok w → wp (println_cerr line) w (upon (λ _, ring_keeps w))
}.

(** The requests of one kind. *)
Definition ptrs (o : Op) (fl : list (Op * ptr)) : list ptr :=
  omap (λ d, if decide (d.1 = o) then Some d.2 else None) fl.

Lemma ptrs_app o fl fl' : ptrs o (fl ++ fl') = ptrs o fl ++ ptrs o fl'.
Proof. apply omap_app. Qed.

#[global] Instance ptrs_Permutation o : Proper ((≡ₚ) ==> (≡ₚ)) (ptrs o).
Proof. unfold ptrs. solve_proper. Qed.

Create HintDb account.

Section accounting.
Context {W : Type} `{Kernel W} `{LawfulQueue W} {F : Fuel} (N : nat).
Implicit Types (ev : EventLoop) (w : W) (fl done sn : list (Op * ptr)) (kept lost : list ptr).

(** Of the requests in the ring, [done] have been dealt with in this batch and
    [fl] have not; [kept] are reads whose data a handler has or has given back;
    [lost] are reads that failed. [in_flight_] counts [fl] and [lost]. *)
Record accounted ev w done fl kept lost sn : Prop := {
  a_open : pool_ok N (openat_request_pool_ ev) (ptrs OPENAT fl);
  a_close : pool_ok N (close_request_pool_ ev) (ptrs CLOSE fl);
  a_read : pool_ok N (read_request_pool_ ev) (ptrs READ fl ++ kept ++ lost);
  a_write : pool_ok N (write_request_pool_ ev) (ptrs WRITE fl);
  a_count : in_flight_ ev = wrap64 (lenZ fl + lenZ lost);
  a_free : ∃ held, kept ≡ₚ held ++ read_free_queue_ ev;
  a_ok : ring_ok w;
  a_ring : in_ring w ≡ₚ done ++ fl;
  a_seen : seen sn w
}.

(** More requests may have been started. *)
Definition accounted_more ev w done fl kept lost sn : Prop :=
  ∃ d, accounted ev w done (fl ++ d) kept lost sn.

Lemma accounted_more_here ev w done fl kept lost sn :
  accounted ev w done fl kept lost sn → accounted_more ev w done fl kept lost sn.
Proof. exists []. by rewrite app_nil_r. Qed.

Lemma accounted_more_trans ev w done fl d kept lost sn :
  accounted_more ev w done (fl ++ d) kept lost sn → accounted_more ev w done fl kept lost sn.
Proof. intros [d' Ha]. exists (d ++ d'). by rewrite (assoc_L (++)). Qed.

Lemma accounted_world ev w w' done fl kept lost sn :
  ring_keeps w w' →
  accounted ev w done fl kept lost sn → accounted ev w' done fl kept lost sn.
Proof.
  intros Hk []. split; try done; [apply Hk|by rewrite (ring_keeps_in _ _ Hk)|by apply Hk].
Qed.

Lemma accounted_flying ev w done fl fl' kept lost sn :
  fl ≡ₚ fl' → accounted ev w done fl kept lost sn → accounted ev w done fl' kept lost sn.
Proof.
  intros Hp []. split; try done; try by rewrite <- Hp.
  unfold lenZ in *. by rewrite <- Hp.
Qed.

Lemma count_submitted fl lost r k :
  k = wrap64 (lenZ fl + lenZ lost) → k +ₛ 1 = wrap64 (lenZ (fl ++ [r]) + lenZ lost).
Proof.
  intros ->. unfold size_add, wrap64. rewrite lenZ_app. cbn [length lenZ].
  rewrite Zplus_mod_idemp_l. f_equal. unfold lenZ. simpl. lia.
Qed.

Lemma count_freed fl lost d k :
  k = wrap64 (lenZ (d :: fl) + lenZ lost) → k -ₛ 1 = wrap64 (lenZ fl + lenZ lost).
Proof.
  intros ->. unfold size_sub, wrap64. rewrite Zminus_mod_idemp_l. f_equal. rewrite lenZ_cons. lia.
Qed.

(** ** Queueing keeps the account *)

(** A request [r] has been submitted. *)
Ltac started :=
  intros [Ho Hc Hr Hw Hn Hf _ Hring Hseen] Hok Hadds ->;
  split; simpl; rewrite ?ptrs_app; simpl; rewrite ?app_nil_r; try done;
  lazymatch goal with
  | |- ring_ok _ => apply Hadds
  | |- seen _ _ => by apply Hadds
  | |- _ = wrap64 _ => by apply count_submitted
  | |- in_ring _ ≡ₚ _ => by rewrite (adds_ring _ _ _ Hadds), Hring, <- (assoc_L (++))
  | |- pool_ok _ _ _ => eapply pool_ok_Permutation; [|exact Hok]; solve_Permutation
  end.

Lemma open_started ev w done fl kept lost sn r p' k' w' :
  accounted ev w done fl kept lost sn → pool_ok N p' (ptrs OPENAT fl ++ [r]) →
  ring_adds [(OPENAT, r)] w w' → k' = in_flight_ ev +ₛ 1 →
  accounted (set_openat (p', k') ev) w' done (fl ++ [(OPENAT, r)]) kept lost sn.
Proof. started. Qed.

Lemma close_started ev w done fl kept lost sn r p' k' w' :
  accounted ev w done fl kept lost sn → pool_ok N p' (ptrs CLOSE fl ++ [r]) →
  ring_adds [(CLOSE, r)] w w' → k' = in_flight_ ev +ₛ 1 →
  accounted (set_close (p', k') ev) w' done (fl ++ [(CLOSE, r)]) kept lost sn.
Proof. started. Qed.

Lemma read_started ev w done fl kept lost sn r p' k' w' :
  accounted ev w done fl kept lost sn → pool_ok N p' ((ptrs READ fl ++ kept ++ lost) ++ [r]) →
  ring_adds [(READ, r)] w w' → k' = in_flight_ ev +ₛ 1 →
  accounted (set_read (p', k') ev) w' done (fl ++ [(READ, r)]) kept lost sn.
Proof. started. Qed.

Lemma write_started ev w done fl kept lost sn r p' k' w' :
  accounted ev w done fl kept lost sn → pool_ok N p' (ptrs WRITE fl ++ [r]) →
  ring_adds [(WRITE, r)] w w' → k' = in_flight_ ev +ₛ 1 →
  accounted (set_write (p', k') ev) w' done (fl ++ [(WRITE, r)]) kept lost sn.
Proof. started. Qed.

(** A request of the pool waits. *)
Ltac waits := intros [] Hk Hok; eapply accounted_world; [exact Hk|]; by split.

Lemma open_waits ev w done fl kept lost sn p' w' :
  accounted ev w done fl kept lost sn → ring_keeps w w' → pool_ok N p' (ptrs OPENAT fl) →
  accounted (set_openat (p', in_flight_ ev) ev) w' done fl kept lost sn.
Proof. waits. Qed.

Lemma close_waits ev w done fl kept lost sn p' w' :
  accounted ev w done fl kept lost sn → ring_keeps w w' → pool_ok N p' (ptrs CLOSE fl) →
  accounted (set_close (p', in_flight_ ev) ev) w' done fl kept lost sn.
Proof. waits. Qed.

Lemma read_waits ev w done fl kept lost sn p' w' :
  accounted ev w done fl kept lost sn → ring_keeps w w' →
  pool_ok N p' (ptrs READ fl ++ kept ++ lost) →
  accounted (set_read (p', in_flight_ ev) ev) w' done fl kept lost sn.
Proof. waits. Qed.

Lemma write_waits ev w done fl kept lost sn p' w' :
  accounted ev w done fl kept lost sn → ring_keeps w w' → pool_ok N p' (ptrs WRITE fl) →
  accounted (set_write (p', in_flight_ ev) ev) w' done fl kept lost sn.
Proof. waits. Qed.

#[local] Hint Resolve open_started close_started read_started write_started : account.
#[local] Hint Resolve open_waits close_waits read_waits write_waits : account.

(** The members of the account, for the side conditions of the pools' laws. *)
Ltac accounts Ha := pose proof Ha as [Ho Hc Hr Hw Hn Hf Hok0 Hring Hseen].

(** [queue_...]: the request is submitted, or it waits. *)
Ltac queued :=
  let Ha := fresh "Ha" in
  intros Ha; accounts Ha; apply wp_bind_returns;
  eapply wp_returns_mono; [by apply next_law|];
  intros [p' k'] w' (r & _ & _ & _ & [(Hok & _ & -> & Hadds)|(Hok & _ & -> & Hadds)]);
  apply wp_ret; (split; [|done]);
  [eexists|apply accounted_more_here]; by eauto with account.

Lemma queue_close_accounted fd ev w done fl kept lost sn :
  accounted ev w done fl kept lost sn →
  wp (queue_close fd ev) w (returns (λ ev' w', accounted_more ev' w' done fl kept lost sn ∧
    read_free_queue_ ev' = read_free_queue_ ev)).
Proof. queued. Qed.

Lemma queue_read_accounted fd offset ev w done fl kept lost sn :
  accounted ev w done fl kept lost sn →
  wp (queue_read fd offset ev) w (returns (λ ev' w', accounted_more ev' w' done fl kept lost sn ∧
    read_free_queue_ ev' = read_free_queue_ ev)).
Proof. queued. Qed.

Lemma queue_write_accounted fd buffer offset ev w done fl kept lost sn :
  accounted ev w done fl kept lost sn →
  wp (queue_write fd buffer offset ev) w (returns (λ ev' w', accounted_more ev' w' done fl kept lost sn ∧
    read_free_queue_ ev' = read_free_queue_ ev)).
Proof. queued. Qed.

Lemma next_openat_accounted args ev w done fl kept lost sn :
  accounted ev w done fl kept lost sn →
  wp ((λ ev, pk ← next OPENAT args (openat_request_pool_ ev) (in_flight_ ev);
             mret (set_openat pk ev)) ev) w (returns (λ ev' w', accounted_more ev' w' done fl kept lost sn ∧
    read_free_queue_ ev' = read_free_queue_ ev)).
Proof. queued. Qed.

(** An operation of the loop keeps the account. *)
Definition keeps (m : EventLoop → M W EventLoop) : Prop :=
  ∀ ev w done fl kept lost sn, accounted ev w done fl kept lost sn →
    wp (m ev) w (upon (λ ev' w', accounted_more ev' w' done fl kept lost sn)).

(** [keeps], from where more requests may have been started already. *)
Lemma keeps_more m ev w done fl kept lost sn :
  keeps m → accounted_more ev w done fl kept lost sn →
  wp (m ev) w (upon (λ ev' w', accounted_more ev' w' done fl kept lost sn)).
Proof.
  intros Hm [d Ha]. eapply wp_upon_mono; [by apply Hm|]. intros ev' w'. apply accounted_more_trans.
Qed.

Lemma keeps_ret : keeps mret.
Proof. intros ev w done fl kept lost sn Ha. by apply wp_ret, accounted_more_here. Qed.

Lemma keeps_bind m f : keeps m → keeps f → keeps (λ ev, m ev ≫= f).
Proof.
  intros Hm Hf ev w done fl kept lost sn Ha. apply wp_bind_upon.
  eapply wp_upon_mono; [by apply Hm|]. intros ev' w'. by apply keeps_more.
Qed.

Lemma keeps_undefined : keeps (λ _, undefined).
Proof. done. Qed.

(** Members that are not part of the account. *)
Lemma keeps_refs (f : EventLoop → gmap Z Z) : keeps (λ ev, mret (set_refs (f ev) ev)).
Proof. intros ev w done fl kept lost sn []. by apply wp_ret, accounted_more_here. Qed.

Lemma keeps_queue_getdents fd : keeps (queue_getdents fd).
Proof. intros ev w done fl kept lost sn []. by apply wp_ret, accounted_more_here. Qed.

Lemma keeps_queue_close fd : keeps (queue_close fd).
Proof.
  intros ev w done fl kept lost sn Ha.
  eapply wp_returns_upon; [by apply queue_close_accounted|]. by intros ev' w' [? _].
Qed.

Lemma keeps_queue_read fd offset : keeps (queue_read fd offset).
Proof.
  intros ev w done fl kept lost sn Ha.
  eapply wp_returns_upon; [by apply queue_read_accounted|]. by intros ev' w' [? _].
Qed.

Lemma keeps_queue_write fd buffer offset : keeps (queue_write fd buffer offset).
Proof.
  intros ev w done fl kept lost sn Ha.
  eapply wp_returns_upon; [by apply queue_write_accounted|]. by intros ev' w' [? _].
Qed.

Lemma keeps_increase fd : keeps (increase_dir_ref fd).
Proof.
  intros ev w done fl kept lost sn Ha. unfold increase_dir_ref. case_match; [|done].
  by apply (keeps_refs (λ ev, _ (dir_ref_count_ ev))).
Qed.

Lemma keeps_decrease fd : keeps (decrease_dir_ref fd).
Proof.
  intros ev w done fl kept lost sn Ha. unfold decrease_dir_ref.
  destruct (dir_ref_count_ ev !! fd) as [n|]; [|done].
  destruct (n =? 0); [done|]. destruct (_ =? 0).
  - apply (keeps_bind _ _ (keeps_queue_close fd)); [|done].
    by apply (keeps_refs (λ ev', delete fd (dir_ref_count_ ev'))).
  - by apply (keeps_refs (λ ev, _ (dir_ref_count_ ev))).
Qed.

Lemma keeps_if (b : bool) m m' : keeps m → keeps m' → keeps (λ ev, if b then m ev else m' ev).
Proof. by destruct b. Qed.

Lemma keeps_queue_openat parent_fd path flags : keeps (queue_openat parent_fd path flags).
Proof.
  unfold queue_openat. apply keeps_if; [|apply keeps_undefined]. apply keeps_bind.
  - apply keeps_if; [apply keeps_increase|apply keeps_ret].
  - intros ev w done fl kept lost sn Ha.
    eapply wp_returns_upon; [by apply next_openat_accounted|]. by intros ev' w' [? _].
Qed.

(** Loops and walks keep what their steps keep. *)
Lemma keeps_walk (visit : linux_dirent64 → EventLoop → M W EventLoop) data :
  (∀ e, keeps (visit e)) → keeps (walk_dirents visit data).
Proof.
  intros Hv ev w done fl kept lost sn Ha. unfold walk_dirents.
  apply (wp_loop_upon _ (λ s w, accounted_more s.2 w done fl kept lost sn));
    [|by apply accounted_more_here].
  clear ev w Ha. intros [span ev] w Ha. unfold dirent_round. simpl.
  case_bool_decide; [by apply wp_ret|]. destruct (dirent_at span) as [e|]; [|done].
  apply wp_bind_upon. eapply wp_upon_mono; [by apply keeps_more|]. intros ev' w' Ha'.
  case_match; [by apply wp_ret|done].
Qed.

Lemma keeps_loop (step : EventLoop → M W (EventLoop + EventLoop)) :
  (∀ ev w done fl kept lost sn, accounted ev w done fl kept lost sn →
    wp (step ev) w (upon (λ r w', match r with inl ev' | inr ev' =>
      accounted_more ev' w' done fl kept lost sn end))) →
  keeps (loop fuel step).
Proof.
  intros Hstep ev w done fl kept lost sn Ha.
  apply (wp_loop_upon _ (λ ev w, accounted_more ev w done fl kept lost sn));
    [|by apply accounted_more_here].
  clear ev w Ha. intros ev w [d Ha]. eapply wp_upon_mono; [by apply Hstep|].
  intros [ev'|ev'] w'; apply accounted_more_trans.
Qed.

(** ** Handlers *)

(** Handlers that keep the account, as any do that only call the operations of
    the loop. The read handler gets a request that is neither in flight nor
    given back, and may give it back. *)
Record handlers_keep (h : handlers (W := W)) : Prop := {
  openat_keeps fd is_file : keeps (λ ev, openat_handler h ev fd is_file);
  getdents_keeps fd is_file name : keeps (λ ev, getdents_handler h ev fd is_file name);
  close_keeps : keeps (close_handler h);
  read_keeps r ev w done fl kept lost sn held :
    accounted ev w done fl kept lost sn → kept ≡ₚ r :: held ++ read_free_queue_ ev →
    wp (read_handler h ev r) w (upon (λ '(ev', _) w', accounted_more ev' w' done fl kept lost sn));
  write_keeps fd res : keeps (λ ev, write_handler h ev fd res)
}.

Context (h : handlers (W := W)) (Hh : handlers_keep h).

Lemma keeps_getdents_step fd ev w done fl kept lost sn :
  accounted ev w done fl kept lost sn →
  wp (getdents_step h fd ev) w (upon (λ r w', match r with inl ev' | inr ev' =>
    accounted_more ev' w' done fl kept lost sn end)).
Proof.
  intros Ha. unfold getdents_step. apply wp_bind_upon. eapply wp_upon_mono; [apply getdents_ring, Ha|].
  intros [n data] w1 Hk1. apply (accounted_world _ _ w1) in Ha; [|done].
  destruct (n <? 0).
  - apply wp_bind_upon. unfold wp. simpl. apply wp_bind_upon.
    eapply wp_upon_mono; [apply println_ring, Ha|]. intros u w2 Hk2.
    apply wp_ret, accounted_more_here. by apply (accounted_world _ w1).
  - destruct (n =? 0); [by apply wp_ret, accounted_more_here|]. apply wp_bind_upon.
    eapply wp_upon_mono; [apply keeps_walk; [|done]|by intros ev' w' Ha'; apply wp_ret].
    intros e. unfold visit_dirent. apply keeps_if; [apply Hh|apply keeps_ret].
Qed.

Lemma keeps_read_directories fds : keeps (read_directories h fds).
Proof.
  induction fds as [|fd fds IH]; [apply keeps_ret|]. cbn [read_directories].
  apply (keeps_bind (λ ev, loop fuel (getdents_step h fd)
                             (set_refs (<[fd := 1]> (dir_ref_count_ ev)) ev))).
  - intros ev w done fl kept lost sn []. apply keeps_loop; [apply keeps_getdents_step|done].
  - apply (keeps_bind (decrease_dir_ref fd)); [apply keeps_decrease|done].
Qed.

(** ** Overflow and frees *)

(** [try_pop_overflow] of one pool: a waiting request is submitted, or nothing
    happens. *)
Ltac popped :=
  let Ha := fresh "Ha" in
  intros Ha; accounts Ha;
  eapply wp_returns_upon; [by apply try_pop_overflow_law|];
  intros [[] [p' k']] w'; simpl;
  [intros (r & _ & Hok & -> & Hadds & _); eexists
  |intros (-> & -> & Hadds); apply accounted_more_here]; by eauto with account.

Lemma pop_openat ev w done fl kept lost sn :
  accounted ev w done fl kept lost sn →
  wp (try_pop_overflow OPENAT (openat_request_pool_ ev) (in_flight_ ev)) w (upon (λ '(_, pk) w',
    accounted_more (set_openat pk ev) w' done fl kept lost sn)).
Proof. popped. Qed.

Lemma pop_close ev w done fl kept lost sn :
  accounted ev w done fl kept lost sn →
  wp (try_pop_overflow CLOSE (close_request_pool_ ev) (in_flight_ ev)) w (upon (λ '(_, pk) w',
    accounted_more (set_close pk ev) w' done fl kept lost sn)).
Proof. popped. Qed.

Lemma pop_read ev w done fl kept lost sn :
  accounted ev w done fl kept lost sn →
  wp (try_pop_overflow READ (read_request_pool_ ev) (in_flight_ ev)) w (upon (λ '(_, pk) w',
    accounted_more (set_read pk ev) w' done fl kept lost sn)).
Proof. popped. Qed.

Lemma keeps_overflow_step ev w done fl kept lost sn :
  accounted ev w done fl kept lost sn →
  wp (overflow_step ev) w (upon (λ r w', match r with inl ev' | inr ev' =>
    accounted_more ev' w' done fl kept lost sn end)).
Proof.
  intros Ha. unfold overflow_step.
  apply wp_bind_upon. eapply wp_upon_mono; [by apply pop_openat|].
  intros [[] pk1] w1 [d1 Ha1]; [by apply wp_ret; exists d1|].
  apply wp_bind_upon. eapply wp_upon_mono; [by apply pop_close|].
  intros [b2 pk2] w2 Ha2. apply accounted_more_trans in Ha2.
  destruct b2; [by apply wp_ret|]. destruct Ha2 as [d2 Ha2].
  apply wp_bind_upon. eapply wp_upon_mono; [by apply pop_read|].
  intros [b3 pk3] w3 Ha3. apply accounted_more_trans in Ha3. by destruct b3; apply wp_ret.
Qed.

(** A read that was given back is freed; [in_flight_] does not change. *)
Lemma read_freed r p' ev w done fl kept kept' lost sn :
  accounted ev w done fl kept lost sn → read_free_queue_ ev = [] → kept ≡ₚ r :: kept' →
  pool_ok N p' (ptrs READ fl ++ kept' ++ lost) →
  accounted (set_read (p', in_flight_ ev -ₛ 1 +ₛ 1) ev) w done fl kept' lost sn.
Proof.
  intros [Ho Hc Hr Hw Hn Hf Hok Hring Hseen] Hq Hk Hok'. split; simpl; try done.
  - rewrite Hn. unfold size_sub, size_add, wrap64. rewrite Zminus_mod_idemp_l, Zplus_mod_idemp_l.
    f_equal. lia.
  - exists kept'. by rewrite Hq, app_nil_r.
Qed.

Lemma free_given_back r kept' ev w done fl kept lost sn :
  accounted ev w done fl kept lost sn → kept ≡ₚ r :: kept' →
  ∃ p', free N r (read_request_pool_ ev) (in_flight_ ev) w = (Done (p', in_flight_ ev -ₛ 1), w) ∧
    pool_ok N p' (ptrs READ fl ++ kept' ++ lost) ∧
    sqe_overflow_ p' = sqe_overflow_ (read_request_pool_ ev) ∧
    (∀ q, deref q p' = deref q (read_request_pool_ ev)) ∧
    pool_overflow_ p' = pool_overflow_ (read_request_pool_ ev).
Proof.
  intros Ha Hk. apply free_law. eapply pool_ok_Permutation; [|exact (a_read _ _ _ _ _ _ _ Ha)].
  rewrite Hk. solve_Permutation.
Qed.

Lemma free_reads_accounted reqs ev w done fl kept lost sn held :
  accounted ev w done fl kept lost sn → read_free_queue_ ev = [] → kept ≡ₚ held ++ reqs →
  wp (free_reads N reqs ev) w (upon (λ ev' w', accounted ev' w' done fl held lost sn)).
Proof.
  revert ev w kept. induction reqs as [|r reqs IH]; intros ev w kept Ha Hq Hk.
  { rewrite app_nil_r in Hk. apply wp_ret. destruct Ha as [Ho Hc Hr Hw Hn Hf Hok Hring Hseen].
    split; try done; [by rewrite <- Hk|]. exists held. by rewrite Hq, app_nil_r. }
  cbn [free_reads]. rewrite <- Permutation_middle in Hk.
  destruct (free_given_back r (held ++ reqs) _ _ _ _ _ _ _ Ha Hk) as (p' & Hfree & Hok & _).
  apply wp_bind_upon. unfold wp. rewrite Hfree. simpl. apply (IH _ _ (held ++ reqs)); [|done..].
  by eapply read_freed.
Qed.

(** ** Completions *)

(** The account after a completion has been dealt with. *)
Definition after done d fl kept lost sn (res : EventLoop * expected unit) w : Prop :=
  match res.2 with
  | Value _ => ∃ kept' lost', accounted_more res.1 w (done ++ [d]) fl kept' lost' sn
  | Unexpected _ => True
  end.

(** A pool with the same requests. *)
Definition same_requests {T} (p p' : RequestPool T) : Prop :=
  sqe_overflow_ p' = sqe_overflow_ p ∧ (∀ q, deref q p' = deref q p) ∧
  pool_overflow_ p' = pool_overflow_ p.

(** The request of a completion is freed at the end. *)
Ltac freed :=
  intros [Ho Hc Hr Hw Hn Hf Hok Hring Hseen];
  match goal with Hp : pool_ok _ ?p _ |- ∃ _, free _ ?r ?p ?k ?w = _ ∧ _ =>
    let p' := fresh "p" in let Hfree := fresh in
    destruct (free_law N p _ k r w Hp) as (p' & Hfree & ? & ? & ? & ?);
    exists p'; split; [exact Hfree|split; [|by split_and!]]
  end;
  split; simpl; try done;
  [by eapply count_freed|by rewrite Hring, <- (assoc_L (++))].

Lemma open_completed r ev w done fl kept lost sn :
  accounted ev w done ((OPENAT, r) :: fl) kept lost sn → ∃ p',
  free N r (openat_request_pool_ ev) (in_flight_ ev) w = (Done (p', in_flight_ ev -ₛ 1), w) ∧
  accounted (set_openat (p', in_flight_ ev -ₛ 1) ev) w (done ++ [(OPENAT, r)]) fl kept lost sn ∧
  same_requests (openat_request_pool_ ev) p'.
Proof. freed. Qed.

Lemma close_completed r ev w done fl kept lost sn :
  accounted ev w done ((CLOSE, r) :: fl) kept lost sn → ∃ p',
  free N r (close_request_pool_ ev) (in_flight_ ev) w = (Done (p', in_flight_ ev -ₛ 1), w) ∧
  accounted (set_close (p', in_flight_ ev -ₛ 1) ev) w (done ++ [(CLOSE, r)]) fl kept lost sn ∧
  same_requests (close_request_pool_ ev) p'.
Proof. freed. Qed.

Lemma read_completed r ev w done fl kept lost sn :
  accounted ev w done ((READ, r) :: fl) kept lost sn → ∃ p',
  free N r (read_request_pool_ ev) (in_flight_ ev) w = (Done (p', in_flight_ ev -ₛ 1), w) ∧
  accounted (set_read (p', in_flight_ ev -ₛ 1) ev) w (done ++ [(READ, r)]) fl kept lost sn ∧
  same_requests (read_request_pool_ ev) p'.
Proof. freed. Qed.

Lemma write_completed r ev w done fl kept lost sn :
  accounted ev w done ((WRITE, r) :: fl) kept lost sn → ∃ p',
  free N r (write_request_pool_ ev) (in_flight_ ev) w = (Done (p', in_flight_ ev -ₛ 1), w) ∧
  accounted (set_write (p', in_flight_ ev -ₛ 1) ev) w (done ++ [(WRITE, r)]) fl kept lost sn ∧
  same_requests (write_request_pool_ ev) p'.
Proof. freed. Qed.

Ltac completed law :=
  let Ha := fresh in let Hfree := fresh in
  intros Ha; destruct (law _ _ _ _ _ _ _ _ Ha) as (? & Hfree & ? & _);
  apply wp_bind_upon; unfold wp; rewrite Hfree; simpl; do 2 eexists; by apply accounted_more_here.

Lemma free_open r ev w done fl kept lost sn :
  accounted ev w done ((OPENAT, r) :: fl) kept lost sn →
  wp (pk ← free N r (openat_request_pool_ ev) (in_flight_ ev); mret (set_openat pk ev, Value ())) w
    (upon (after done (OPENAT, r) fl kept lost sn)).
Proof. completed open_completed. Qed.

Lemma free_close r ev w done fl kept lost sn :
  accounted ev w done ((CLOSE, r) :: fl) kept lost sn →
  wp (pk ← free N r (close_request_pool_ ev) (in_flight_ ev); mret (set_close pk ev, Value ())) w
    (upon (after done (CLOSE, r) fl kept lost sn)).
Proof. completed close_completed. Qed.

Lemma free_read r ev w done fl kept lost sn :
  accounted ev w done ((READ, r) :: fl) kept lost sn →
  wp (pk ← free N r (read_request_pool_ ev) (in_flight_ ev); mret (set_read pk ev, Value ())) w
    (upon (after done (READ, r) fl kept lost sn)).
Proof. completed read_completed. Qed.

Lemma free_write r ev w done fl kept lost sn :
  accounted ev w done ((WRITE, r) :: fl) kept lost sn →
  wp (pk ← free N r (write_request_pool_ ev) (in_flight_ ev); mret (set_write pk ev, Value ())) w
    (upon (after done (WRITE, r) fl kept lost sn)).
Proof. completed write_completed. Qed.

Lemma after_trans done d fl fl' kept lost sn r w :
  after done d (fl ++ fl') kept lost sn r w → after done d fl kept lost sn r w.
Proof.
  unfold after. destruct r.2; [|done]. intros (kept' & lost' & Ha). exists kept', lost'.
  by eapply accounted_more_trans.
Qed.

(** An operation that keeps the account, then the end of a completion. *)
Lemma keeps_then m f ev w done d fl kept lost sn :
  keeps m → accounted ev w done (d :: fl) kept lost sn →
  (∀ ev' w' fl', accounted ev' w' done (d :: fl') kept lost sn →
     wp (f ev') w' (upon (after done d fl' kept lost sn))) →
  wp (m ev ≫= f) w (upon (after done d fl kept lost sn)).
Proof.
  intros Hm Ha Hf. apply wp_bind_upon. eapply wp_upon_mono; [by apply Hm|].
  intros ev' w' [fl' Ha']. eapply wp_upon_mono; [by apply (Hf _ _ (fl ++ fl'))|].
  intros r w2. apply after_trans.
Qed.

(** A read that brought data is no longer in flight, and its handler has it. *)
Lemma read_arrived r req ev w done fl kept lost sn :
  accounted ev w done ((READ, r) :: fl) kept lost sn →
  accounted (set_read (assign r req (read_request_pool_ ev), in_flight_ ev -ₛ 1) ev) w
    (done ++ [(READ, r)]) fl (r :: kept) lost sn.
Proof.
  intros [Ho Hc Hr Hw Hn (held & Hk) Hok Hring Hseen]. split; simpl; try done.
  - apply ok_assign. eapply pool_ok_Permutation; [|exact Hr]. simpl. solve_Permutation.
  - by eapply count_freed.
  - exists (r :: held). by rewrite Hk.
  - by rewrite Hring, <- (assoc_L (++)).
Qed.

(** A read that failed stays counted. *)
Lemma read_failed r ev w done fl kept lost sn :
  accounted ev w done ((READ, r) :: fl) kept lost sn →
  accounted ev w (done ++ [(READ, r)]) fl kept (r :: lost) sn.
Proof.
  intros [Ho Hc Hr Hw Hn Hf Hok Hring Hseen]. split; simpl; try done.
  - eapply pool_ok_Permutation; [|exact Hr]. simpl. solve_Permutation.
  - rewrite Hn. f_equal. rewrite !lenZ_cons. lia.
  - by rewrite Hring, <- (assoc_L (++)).
Qed.

Lemma complete_read_accounted res r ev w done fl kept lost sn :
  0 < res → accounted ev w done ((READ, r) :: fl) kept lost sn → ∀ req,
  wp ('(ev, handled) ← read_handler h
        (set_read (assign r req (read_request_pool_ ev), in_flight_ ev -ₛ 1) ev) r;
      match handled with
      | Unexpected e => mret (ev, Unexpected e)
      | Value _ =>
          match deref r (read_request_pool_ ev) with
          | None => undefined
          | Some req =>
              ev ← queue_read (rd_fd req) (rd_offset req +ₛ res) ev;
              mret (ev, Value ())
          end
      end) w (upon (after done (READ, r) fl kept lost sn)).
Proof.
  intros Hres Ha req. pose proof (read_arrived r req _ _ _ _ _ _ _ Ha) as Ha1.
  destruct (a_free _ _ _ _ _ _ _ Ha) as [held Hk].
  apply wp_bind_upon. eapply wp_upon_mono.
  { apply (read_keeps h Hh r _ w _ _ _ _ _ held Ha1). simpl. by rewrite Hk. }
  intros [ev2 [n|e]] w2 Ha2; [|by apply wp_ret]. destruct (deref _ _) as [req2|]; [|done].
  apply wp_bind_upon. eapply wp_upon_mono; [eapply keeps_more; [apply keeps_queue_read|done]|].
  intros ev3 w3 Ha3. apply wp_ret. by exists (r :: kept), lost.
Qed.

Lemma complete_accounted res d ev w done fl kept lost sn :
  accounted ev w done (d :: fl) kept lost sn →
  wp (complete N h res d ev) w (upon (after done d fl kept lost sn)).
Proof.
  intros Ha. unfold complete. apply wp_bind_upon.
  eapply (wp_upon_mono _ _ (λ _, ring_keeps w)).
  { destruct (res <? 0); [apply println_ring, Ha|apply wp_ret, ring_keeps_refl, Ha]. }
  intros u w1 Hk1. apply (accounted_world _ _ w1) in Ha; [|done]. destruct d as [[] r].
  - destruct (deref r _) as [req|]; [|done].
    apply (keeps_then (λ ev, if 0 <=? res then openat_handler h ev res (oa_is_file req) else mret ev));
      [apply keeps_if; [apply Hh|apply keeps_ret]|done|]. intros ev2 w2 fl2 Ha2.
    destruct (deref r _) as [req2|]; [|done].
    apply (keeps_then (λ ev, if negb (oa_parent_fd req2 =? AT_FDCWD)
                             then decrease_dir_ref (oa_parent_fd req2) ev else mret ev));
      [apply keeps_if; [apply keeps_decrease|apply keeps_ret]|done|]. intros. by apply free_open.
  - apply keeps_then; [apply Hh|done|]. intros. by apply free_close.
  - destruct (deref r _) as [req|]; [|done]. destruct (res =? 0).
    { apply keeps_then; [apply keeps_queue_close|done|]. intros. by apply free_read. }
    destruct (Z.ltb_spec 0 res); [by apply complete_read_accounted|].
    apply wp_ret. do 2 eexists. by apply accounted_more_here, read_failed.
  - destruct (deref r _) as [req|]; [|done].
    apply (keeps_then (λ ev, write_handler h ev (wr_fd req) res)); [apply Hh|done|].
    intros ev2 w2 fl2 Ha2. destruct (deref r _) as [req2|]; [|done].
    apply (keeps_then (λ ev, if negb (wr_offset req2 +ₛ res =? lenZ (wr_buffer req2)) then
                        queue_write (wr_fd req2) (wr_buffer req2) (wr_offset req2 +ₛ res) ev
                      else mret ev)); [apply keeps_if; [apply keeps_queue_write|apply keeps_ret]|done|].
    intros. by apply free_write.
Qed.

Lemma complete_all_accounted cqes ev w done fl kept lost sn :
  accounted ev w done (cqes.*2 ++ fl) kept lost sn →
  wp (complete_all N h cqes ev) w (upon (λ '(ev', r) w', match r with
    | Value _ => ∃ kept' lost', accounted_more ev' w' (done ++ cqes.*2) fl kept' lost' sn
    | Unexpected _ => True end)).
Proof.
  revert ev w done fl kept lost. induction cqes as [|[res d] cqes IH];
    intros ev w done fl kept lost Ha; cbn [complete_all].
  { apply wp_ret. simpl. rewrite app_nil_r. exists kept, lost. by apply accounted_more_here. }
  apply wp_bind_upon.
  eapply wp_upon_mono;
    [exact (complete_accounted res d ev w done (cqes.*2 ++ fl) kept lost sn Ha)|].
  intros [ev1 [[]|e]] w1 Ha1; [|by apply wp_ret]. destruct Ha1 as (kept1 & lost1 & d1 & Ha1).
  simpl in Ha1. rewrite <- (assoc_L (++)) in Ha1.
  eapply wp_upon_mono; [by eapply IH|]. intros [ev2 [[]|e]] w2; [|done].
  intros (kept2 & lost2 & Ha2). exists kept2, lost2. rewrite fmap_cons, cons_middle, (assoc_L (++)).
  by eapply accounted_more_trans.
Qed.

(** One round of [pump]. *)
Lemma pump_round_accounted ev w fl kept lost sn :
  accounted ev w [] fl kept lost sn →
  wp (pump_round N h ev) w (upon (λ r w', match r with
    | inl ev' => ∃ fl' kept' lost' sn', accounted ev' w' [] fl' kept' lost' sn'
    | inr (ev', Value _) => in_flight_ ev' = 0 ∧
        ∃ fl' kept' lost' sn', accounted ev' w' [] fl' kept' lost' sn'
    | inr (_, Unexpected _) => True
    end)).
Proof.
  intros Ha. unfold pump_round. apply wp_bind_upon.
  eapply wp_upon_mono; [apply keeps_read_directories with (ev := set_getdents [] ev)|].
  { destruct Ha. by split. }
  intros ev1 w1 [d1 Ha1]. apply wp_bind_upon.
  eapply wp_upon_mono; [by apply keeps_loop; [apply keeps_overflow_step|]|].
  intros ev2 w2 [d2 Ha2]. destruct (a_free _ _ _ _ _ _ _ Ha2) as [held Hk]. apply wp_bind_upon.
  eapply wp_upon_mono.
  { apply (free_reads_accounted _ (set_read_free [] ev2) w2 [] ((fl ++ d1) ++ d2) kept lost sn held);
      [|done|done]. destruct Ha2. split; try done. exists kept. by rewrite app_nil_r. }
  intros ev3 w3 Ha3. destruct (Z.eqb_spec (in_flight_ ev3) 0) as [Hz|Hz].
  { apply wp_ret. split; [done|]. exists ((fl ++ d1) ++ d2), held, lost, sn. exact Ha3. }
  apply wp_bind_upon. eapply wp_upon_mono; [apply submit_ring, Ha3|]. intros res w4 Hk4.
  apply (accounted_world _ _ w4) in Ha3; [|done]. destruct (res <? 0); [by apply wp_ret|].
  apply wp_bind_upon. eapply wp_upon_mono; [apply completions_ring, Ha3|].
  intros cqes w5 (Hk5 & Hs5 & [rest Hrest]%submseteq_Permutation).
  apply (accounted_world _ _ w5) in Ha3; [|done].
  rewrite (a_ring _ _ _ _ _ _ _ Ha3) in Hrest. simpl in Hrest.
  assert (accounted ev3 w5 [] (cqes.*2 ++ rest) held lost (cqes.*2)) as Ha5.
  { eapply accounted_flying; [done|]. destruct Ha3. by split. }
  apply wp_bind_upon. eapply wp_upon_mono; [by eapply complete_all_accounted|].
  intros [ev6 [[]|e]] w6; [|by intros; apply wp_ret].
  intros (kept6 & lost6 & d6 & Ha6). apply wp_bind_upon.
  assert (lenZ cqes = lenZ cqes.*2) as -> by (unfold lenZ; by rewrite length_fmap).
  eapply wp_upon_mono; [apply advance_ring; apply Ha6|]. intros u w7 (Hok7 & Hring7 & Hseen7).
  apply wp_ret. exists (rest ++ d6), kept6, lost6, []. destruct Ha6 as [? ? ? ? ? ? _ Hring6 _].
  split; try done. rewrite Hring6 in Hring7. symmetry. by apply Permutation_app_inv_l in Hring7.
Qed.

(** The whole loop. *)
Lemma pump_accounted ev w fl kept lost sn :
  accounted ev w [] fl kept lost sn →
  wp (pump N h ev) w (upon (λ '(ev', r) w', match r with
    | Value _ => in_flight_ ev' = 0 ∧ ∃ fl' kept' lost' sn',
        accounted ev' w' [] fl' kept' lost' sn' ∧
        (lenZ fl' + lenZ lost' < size_max → fl' = [] ∧ lost' = [] ∧ in_ring w' = [])
    | Unexpected _ => True
    end)).
Proof.
  intros Ha.
  apply (wp_loop_upon _ (λ ev w, ∃ fl kept lost sn, accounted ev w [] fl kept lost sn));
    [|by exists fl, kept, lost, sn].
  clear fl kept lost sn ev w Ha. intros ev w (fl & kept & lost & sn & Ha).
  eapply wp_upon_mono; [by eapply pump_round_accounted|]. intros [ev'|[ev' [u|e]]] w'; [done| |done].
  intros (Hz & fl' & kept' & lost' & sn' & Ha'). split; [done|].
  exists fl', kept', lost', sn'. split; [done|]. intros Hsz.
  destruct Ha' as [_ _ _ _ Hn _ _ Hring _]. assert (0 ≤ lenZ fl' ∧ 0 ≤ lenZ lost') as [? ?] by auto with om.
  rewrite wrap64_small in Hn by lia. assert (fl' = []) as -> by (apply lenZ_nil_inv; lia).
  assert (lost' = []) as -> by (apply lenZ_nil_inv; lia). split_and!; [done|done|].
  by apply Permutation_nil_r in Hring.
Qed.

(** A new loop over an empty ring. *)
Lemma new_loop_accounted w :
  ring_ok w → in_ring w = [] → seen [] w → accounted (EventLoop_members N) w [] [] [] [] [].
Proof.
  intros Hok Hring Hseen. split; simpl; try apply new_pool_ok; try done; [by exists []|].
  by rewrite Hring.
Qed.

End accounting.


(** ** An example *)

#[local] Instance demo_view : RingView demo := {|
  ring_ok _ := True; in_ring w := (d_seen w ++ d_filled w).*2;
  seen sn w := sn `prefix_of` (d_seen w).*2
|}.

#[local] Instance demo_ring_lawful : LawfulRing demo.
Proof.
  refine {| ring_taken w sqe w' := d_filled w' = d_filled w ∧ d_seen w' = d_seen w |};
    intros w; unfold wp; simpl.
  - intros _. destruct (d_entries w); simpl; [|done]. split; [done|by rewrite app_nil_r|done].
  - intros o data w0 w1 [Hf Hs]. split; simpl; [done| |by rewrite Hs].
    by rewrite Hf, Hs, !fmap_app, (assoc_L (++)).
Defined.

#[local] Instance demo_queue_lawful : LawfulQueue demo.
Proof.
  split; intros; unfold wp; simpl; try by apply ring_keeps_refl.
  - assert (((λ e, (demo_result e.1, e.2)) <$> d_seen w ++ d_filled w).*2
              = (d_seen w ++ d_filled w).*2) as ->.
    { rewrite <- list_fmap_compose. by apply list_fmap_ext. }
    split_and!; [|done|by rewrite app_nil_r]. split; simpl; [done|by rewrite !app_nil_r|].
    intros sn [l Hl]. exists (l ++ (d_filled w).*2). by rewrite fmap_app, Hl, (assoc_L (++)).
  - match goal with Hs : seen _ _ |- _ => destruct Hs as [l Hl] end.
    split_and!; [done| |apply prefix_nil]. rewrite dropZ_drop, !fmap_app, fmap_drop, Hl.
    unfold lenZ. by rewrite Nat2Z.id, drop_app_length, <- (assoc_L (++)).
Defined.

(** Handlers that read what has been opened and give every read back. *)
Definition reading_handlers {W} `{Ring W} : handlers (W := W) :=
  mkHandlers (λ ev fd is_file, if is_file then queue_read fd 0 ev else queue_getdents fd ev)
    (λ ev fd is_file name, queue_close fd ev) (λ ev, mret ev)
    (λ ev r, ev ← free_read_request r ev; mret (ev, Value 1)) (λ ev _ _, mret ev).

Lemma reading_handlers_keep {W} `{LawfulRing W} N : handlers_keep N (reading_handlers (W := W)).
Proof.
  split; simpl; intros.
  - apply keeps_if; [apply keeps_queue_read|apply keeps_queue_getdents].
  - apply keeps_queue_close.
  - apply keeps_ret.
  - apply wp_ret, accounted_more_here.
    match goal with Ha : accounted _ _ _ _ _ _ _ _, Hk : _ ≡ₚ _ |- _ =>
      destruct Ha; split; simpl; try done; exists held; rewrite Hk end.
    solve_Permutation.
  - apply keeps_ret.
Qed.

