(* ===== verification/Descriptors.v ===== *)
(** The descriptors of the event loop.

    The loop of utils/event_loop.h gets descriptors from the openings it has
    asked for and closes them itself: a file when its end has been read, a
    directory when it has been read and everything opened below it has been
    dealt with. This file states who holds each descriptor at every point of
    [pump], as an extension of the account of Accounting.v, and concludes that
    a successful [pump] has closed exactly what has been opened. *)

From S2P Require Import Prelude Kernel Sinks Dirents RequestPool Grep EventLoop Accounting.

(** ** The history of the ring *)

(** The descriptor an entry closes. *)
Definition close_of (o : sqe_op) : list Z := match o with SqeClose fd => [fd] | _ => [] end.

(** The descriptors that completions bring. *)
Definition opens (cqes : list (Z * (Op * ptr))) : list Z :=
  omap (λ c, if decide (c.2.1 = OPENAT) then if 0 <=? c.1 then Some c.1 else None else None) cqes.

(** What the loop relies on of the system beside the laws of the ring: the
    descriptors it has been given so far, those whose closing it has asked for,
    and the completions it has looked at and not consumed. A ring is full only
    when it holds requests, and the descriptor of an opening is none that is
    open. *)
Class RingHistory (W : Type) `{LawfulQueue W} := {
  opened : W → list Z;
  closes : W → list Z;
  looked : W → list (Op * ptr);
  get_sqe_history (w : W) : ring_ok w → wp RequestPool.io_uring_get_sqe w (upon (λ r w',
    opened w' = opened w ∧ closes w' = closes w ∧ looked w' = looked w ∧
    (r = None → in_ring w ≠ [])));
  prep_history sqe o data (w : W) : wp (io_uring_prep sqe o data) w (upon (λ _ w',
    opened w' = opened w ∧ closes w' = closes w ++ close_of o ∧ looked w' = looked w));
  submit_history (w : W) : ring_ok w → wp io_uring_submit w (upon (λ _ w',
    opened w' = opened w ∧ closes w' = closes w ∧ looked w' = looked w));
  completions_history (w : W) : ring_ok w → looked w = [] →
    wp io_uring_completions w (upon (λ cqes w',
      opened w' = opened w ++ opens cqes ∧ closes w' = closes w ∧ looked w' = cqes.*2 ∧
      ∀ live, NoDup live → opened w ≡ₚ live ++ closes w → NoDup (live ++ opens cqes)));
  advance_history (w : W) : ring_ok w →
    wp (io_uring_cq_advance (lenZ (looked w))) w (upon (λ _ w',
      opened w' = opened w ∧ closes w' = closes w ∧ looked w' = []));
  getdents_history fd size (w : W) : ring_ok w → wp (sys_getdents64 fd size) w (upon (λ _ w',
    opened w' = opened w ∧ closes w' = closes w ∧ looked w' = looked w));
  println_history line (w : W) : ring_ok w → wp (println_cerr line) w (upon (λ _ w',
    opened w' = opened w ∧ closes w' = closes w ∧ looked w' = looked w))
}.

(** ** What requests hold *)

(** A member of each of some requests of a pool. *)
Definition members {T X} (f : T → option X) (p : RequestPool T) (l : list ptr) : list X :=
  omap (λ r, deref r p ≫= f) l.

Arguments members : simpl never.

Lemma members_cons {T X} (f : T → option X) p r l :
  members f p (r :: l) = option_list (deref r p ≫= f) ++ members f p l.
Proof. unfold members. simpl. by destruct (deref r p ≫= f). Qed.

Lemma length_members_le {T X} (f : T → option X) p l : (length (members f p l) ≤ length l)%nat.
Proof.
  induction l as [|r l IH]; [done|]. rewrite members_cons, length_app.
  destruct (deref r p ≫= f); simpl in *; lia.
Qed.

Lemma members_app {T X} (f : T → option X) p l l' :
  members f p (l ++ l') = members f p l ++ members f p l'.
Proof. apply omap_app. Qed.

#[global] Instance members_Permutation {T X} (f : T → option X) p :
  Proper ((≡ₚ) ==> (≡ₚ)) (members f p).
Proof. unfold members. solve_proper. Qed.

Lemma members_same {T X} (f : T → option X) p p' l :
  (∀ q, q ∈ l → deref q p' = deref q p) → members f p' l = members f p l.
Proof.
  intros Hs. apply list_omap_ext, Forall_Forall2_diag, Forall_forall. intros q Hq. by rewrite Hs.
Qed.

(** A member that an assignment keeps. *)
Lemma members_assign {T X} (f : T → option X) p r x y l :
  deref r p = Some y → f x = f y → members f (assign r x p) l = members f p l.
Proof.
  intros Hy Hf. apply list_omap_ext, Forall_Forall2_diag, Forall_forall. intros q _.
  destruct (decide (q = r)) as [->|Hne]; [|by rewrite deref_assign_ne].
  rewrite deref_assign, Hy by eauto. exact Hf.
Qed.

Section pools.
Context {W : Type} `{RingHistory W} {T Args : Type} `{IsRequest T Args} (O : Op) (N : nat).
Implicit Types (p : RequestPool T) (w : W).

(** A request with its arguments filled in. *)
Definition filled (args : Args) (x : T) : Prop :=
  ∃ y, x = reset_request args y ∨ ∃ sqe, x = set_sqe sqe (reset_request args y).

Lemma take_request_overflow p p' r :
  take_request O p = (r, p') →
  sqe_overflow_ p' = sqe_overflow_ p ∧ (length (pool_overflow_ p) ≤ length (pool_overflow_ p'))%nat.
Proof.
  unfold take_request. repeat case_match; intros; simplify_eq/=; try done.
  rewrite length_app. auto with lia.
Qed.

Lemma assign_overflow p r x :
  sqe_overflow_ (assign r x p) = sqe_overflow_ p ∧
  length (pool_overflow_ (assign r x p)) = length (pool_overflow_ p).
Proof. destruct r; simpl; by rewrite ?length_insert. Qed.

(** What [submit] and [next] do to the history and to the overflow of the
    pool. *)
Lemma submit_pool_history p k r sqe w :
  wp (submit O r sqe p k) w (upon (λ '(p', k') w',
    opened w' = opened w ∧ looked w' = looked w ∧
    sqe_overflow_ p' = sqe_overflow_ p ∧ length (pool_overflow_ p') = length (pool_overflow_ p) ∧
    ∃ x, deref r p = Some x ∧ closes w' = closes w ++ close_of (prep_request (set_sqe sqe x)))).
Proof.
  unfold submit. destruct (deref r p) as [x|] eqn:Hx; [|done]. apply wp_bind_upon.
  eapply wp_upon_mono; [apply prep_history|]. intros _ w' (Ho & Hc & Hl). apply wp_ret.
  destruct (assign_overflow p r (set_sqe sqe x)) as [Hs Hov].
  split_and!; [done..|]. by exists x.
Qed.

Lemma next_history p k args w :
  ring_ok w →
  wp (next O args p k) w (upon (λ '(p', k') w',
    opened w' = opened w ∧ looked w' = looked w ∧
    (length (pool_overflow_ p) ≤ length (pool_overflow_ p'))%nat ∧
    (sqe_overflow_ p' = sqe_overflow_ p ∧
       (∃ y sqe, closes w' = closes w ++ close_of (prep_request (set_sqe sqe (reset_request args y)))) ∨
     (∃ r, sqe_overflow_ p' = sqe_overflow_ p ++ [r]) ∧ closes w' = closes w))).
Proof.
  intros Hok. unfold next. destruct (take_request O p) as [r p1] eqn:Htake.
  destruct (take_request_overflow _ _ _ Htake) as [Hs1 Hov1].
  destruct (deref r p1) as [x|] eqn:Hx; [|done].
  destruct (assign_overflow p1 r (reset_request args x)) as [Hs2 Hov2].
  apply wp_bind_upon. eapply wp_upon_mono; [by apply get_sqe_history|].
  intros [sqe|] w1 (Ho1 & Hc1 & Hl1 & _).
  - eapply wp_upon_mono; [apply submit_pool_history|].
    intros [p' k'] w' (Ho' & Hl' & Hs' & Hov' & z & Hz & Hc').
    rewrite deref_assign in Hz by eauto. simplify_eq.
    split_and!; [congruence|congruence|lia|]. left. split; [congruence|].
    exists x, sqe. by rewrite Hc', Hc1.
  - apply wp_ret. simpl. split_and!; [done|done|lia|]. right. rewrite Hs2, Hs1. eauto.
Qed.

Lemma pop_history p k w :
  ring_ok w →
  wp (try_pop_overflow O p k) w (upon (λ '(b, (p', k')) w',
    opened w' = opened w ∧ looked w' = looked w ∧
    length (pool_overflow_ p') = length (pool_overflow_ p) ∧
    if b : bool then
      ∃ r rest x sqe, sqe_overflow_ p = r :: rest ∧ deref r p = Some x ∧
        closes w' = closes w ++ close_of (prep_request (set_sqe sqe x))
    else closes w' = closes w ∧ (sqe_overflow_ p = [] ∨ in_ring w ≠ []))).
Proof.
  intros Hok. unfold try_pop_overflow. destruct (sqe_overflow_ p) as [|r rest] eqn:Hsq.
  { apply wp_ret. split_and!; auto. }
  apply wp_bind_upon. eapply wp_upon_mono; [by apply get_sqe_history|].
  intros [sqe|] w1 (Ho1 & Hc1 & Hl1 & Hroom); [|apply wp_ret; split_and!; auto].
  apply wp_bind_upon. eapply wp_upon_mono; [apply submit_pool_history|].
  intros [p' k'] w' (Ho' & Hl' & _ & Hov' & x & Hx & Hc'). apply wp_ret.
  split_and!; [congruence|congruence|done|]. exists r, rest, x, sqe. rewrite Hc', Hc1.
  split_and!; [done| |done]. by destruct r.
Qed.

(** The two views of [next] together. *)
Lemma next_full p busy k args w :
  pool_ok N p busy → ring_ok w →
  wp (next O args p k) w (upon (λ '(p', k') w', ∃ r x,
    r ∉ sqe_overflow_ p ++ busy ∧ deref r p' = Some x ∧ filled args x ∧
    (∀ q, q ∈ sqe_overflow_ p ++ busy → deref q p' = deref q p) ∧
    opened w' = opened w ∧ looked w' = looked w ∧
    (length (pool_overflow_ p) ≤ length (pool_overflow_ p'))%nat ∧
    (pool_ok N p' (busy ++ [r]) ∧ sqe_overflow_ p' = sqe_overflow_ p ∧ k' = k +ₛ 1 ∧
       ring_adds [(O, r)] w w' ∧
       (∃ y sqe, closes w' = closes w ++ close_of (prep_request (set_sqe sqe (reset_request args y)))) ∨
     pool_ok N p' busy ∧ sqe_overflow_ p' = sqe_overflow_ p ++ [r] ∧ k' = k ∧ ring_keeps w w' ∧
       closes w' = closes w))).
Proof.
  intros Hok Hring. eapply wp_upon_mono.
  { eapply wp_upon_and; [eapply wp_returns_upon; [by apply next_law|]; intros ? ? HH; exact HH|].
    by apply next_history. }
  intros [p' k'] w' [(r & Hr & Hsame & (x & Hx) & Hcase) (Ho & Hl & Hov & Hhist)].
  assert (∃ x', deref r p' = Some x' ∧ filled args x') as (x' & Hx' & Hfill).
  { destruct Hx as [?|[sqe ?]]; eexists; (split; [done|]); exists x; eauto. }
  exists r, x'. split_and!; try done. destruct Hcase as [(? & Hs & ? & ?)|(? & Hs & ? & ?)].
  - left. destruct Hhist as [[_ ?]|[[r' Hs'] _]]; [eauto 6|].
    rewrite Hs in Hs'. apply (f_equal length) in Hs'. rewrite length_app in Hs'. simpl in Hs'. lia.
  - right. destruct Hhist as [[Hs' _]|[_ ?]]; [|eauto 6].
    rewrite Hs in Hs'. apply (f_equal length) in Hs'. rewrite length_app in Hs'. simpl in Hs'. lia.
Qed.

(** The two views of [try_pop_overflow] together. *)
Lemma pop_full p busy k w :
  pool_ok N p busy → ring_ok w →
  wp (try_pop_overflow O p k) w (upon (λ '(b, (p', k')) w',
    opened w' = opened w ∧ looked w' = looked w ∧
    length (pool_overflow_ p') = length (pool_overflow_ p) ∧
    if b : bool then
      ∃ r x sqe, sqe_overflow_ p = r :: sqe_overflow_ p' ∧ pool_ok N p' (busy ++ [r]) ∧ k' = k +ₛ 1 ∧
        ring_adds [(O, r)] w w' ∧ deref r p = Some x ∧ (∃ s', deref r p' = Some (set_sqe s' x)) ∧
        (∀ q, q ∈ sqe_overflow_ p' ++ busy → deref q p' = deref q p) ∧
        closes w' = closes w ++ close_of (prep_request (set_sqe sqe x))
    else p' = p ∧ k' = k ∧ ring_keeps w w' ∧ closes w' = closes w ∧
         (sqe_overflow_ p = [] ∨ in_ring w ≠ []))).
Proof.
  intros Hok Hring. eapply wp_upon_mono.
  { eapply wp_upon_and; [eapply wp_returns_upon; [by apply try_pop_overflow_law|]; intros ? ? HH; exact HH|].
    by apply pop_history. }
  intros [b [p' k']] w' [Hlaw (Ho & Hl & Hov & Hhist)]. split_and!; [done..|]. destruct b.
  - destruct Hlaw as (r & Hs & Hok' & Hk & Hadds & (x & s' & Hx & Hx') & Hsame).
    destruct Hhist as (r0 & rest & x0 & sqe & Hs0 & Hx0 & Hc). rewrite Hs in Hs0. simplify_eq.
    exists r0, x, sqe. split_and!; try done. by exists s'.
  - destruct Hlaw as (-> & -> & Hk). destruct Hhist. auto 6.
Qed.

End pools.

(** ** Who holds a descriptor *)

(** How often a directory is counted. *)
Definition count (fd : Z) (l : list Z) : Z := lenZ (filter (.= fd) l).

#[global] Instance count_Permutation fd : Proper ((≡ₚ) ==> (=)) (count fd).
Proof. intros l l' Hl. unfold count, lenZ. by rewrite Hl. Qed.

(** The reference counts stand for these references. *)
Definition counts (m : gmap Z Z) (refs : list Z) : Prop :=
  ∀ fd, m !! fd = if count fd refs =? 0 then None else Some (count fd refs).

#[global] Instance counts_Permutation m : Proper ((≡ₚ) ==> (↔)) (counts m).
Proof. intros l l' Hl. split; intros Hc fd; rewrite (Hc fd); by rewrite (count_Permutation fd _ _ Hl). Qed.

Section descriptors.
Context {W : Type} `{Kernel W} `{RingHistory W} {F : Fuel} (N : nat).
Implicit Types (ev : EventLoop) (w : W) (fl : list (Op * ptr)) (lost : list ptr) (fd : Z).

(** The directory an opening starts from. *)
Definition parent_of (req : OpenAtRequest) : option Z :=
  if oa_parent_fd req =? AT_FDCWD then None else Some (oa_parent_fd req).

Definition parents ev fl : list Z :=
  members parent_of (openat_request_pool_ ev)
    (ptrs OPENAT fl ++ sqe_overflow_ (openat_request_pool_ ev)).

(** The files that are being read, whose reads have failed, or wait to be read. *)
Definition reading ev fl lost : list Z :=
  members (λ x, Some (rd_fd x)) (read_request_pool_ ev)
    (ptrs READ fl ++ lost ++ sqe_overflow_ (read_request_pool_ ev)).

Definition waiting_closes ev : list Z :=
  members (λ x, Some (cl_fd x)) (close_request_pool_ ev) (sqe_overflow_ (close_request_pool_ ev)).

Definition dirs ev : list Z := elements (dom (dir_ref_count_ ev)).

(** The descriptors the loop has to close. *)
Definition owed ev fl lost : list Z :=
  reading ev fl lost ++ getdents_queue_ ev ++ dirs ev ++ waiting_closes ev.

(** The state of a proof: the account's [g_done], requests being dealt with
    ([g_hold]) and the rest; the descriptors in the hands of the code that is
    running ([g_pend]) and the references it holds ([g_extra]); what is known
    of requests it will look at again; and the queue of directories, when it
    must not change. *)
Record ghost := Ghost {
  g_done : list (Op * ptr); g_hold : list (Op * ptr); g_fl : list (Op * ptr);
  g_kept : list ptr; g_lost : list ptr; g_sn : list (Op * ptr);
  g_pend : list Z; g_extra : list Z;
  g_opens : list (ptr * Z); g_reads : list (ptr * Z); g_queue : option (list Z)
}.

Implicit Types g : ghost.

Definition g_more (d : list (Op * ptr)) g : ghost :=
  Ghost (g_done g) (g_hold g) (g_fl g ++ d) (g_kept g) (g_lost g) (g_sn g) (g_pend g) (g_extra g)
    (g_opens g) (g_reads g) (g_queue g).

(** With a descriptor, or a reference, in hand. *)
Definition with_fd fd g : ghost :=
  Ghost (g_done g) (g_hold g) (g_fl g) (g_kept g) (g_lost g) (g_sn g) (fd :: g_pend g) (g_extra g)
    (g_opens g) (g_reads g) (g_queue g).

Definition with_ref fd g : ghost :=
  Ghost (g_done g) (g_hold g) (g_fl g) (g_kept g) (g_lost g) (g_sn g) (g_pend g) (fd :: g_extra g)
    (g_opens g) (g_reads g) (g_queue g).

(** Every open descriptor, once. *)
Definition live g ev : list Z := g_pend g ++ owed ev (g_fl g) (g_lost g).

Definition ledger g ev w : Prop := opened w ≡ₚ live g ev ++ closes w ∧ NoDup (live g ev).

(** The counts cannot have wrapped around. *)
Definition small ev : Prop :=
  Z.of_nat N + lenZ (pool_overflow_ (openat_request_pool_ ev)) + 2 < size_max.

Record owned g ev w : Prop := {
  ow_account : accounted N ev w (g_done g) (g_hold g ++ g_fl g) (g_kept g) (g_lost g) (g_sn g);
  ow_ledger : ledger g ev w;
  ow_refs : small ev → counts (dir_ref_count_ ev) (parents ev (g_fl g) ++ g_extra g);
  ow_looked : looked w = g_sn g;
  ow_opens r z : (r, z) ∈ g_opens g → (OPENAT, r) ∈ g_hold g ∧
    oa_parent_fd <$> deref r (openat_request_pool_ ev) = Some z;
  ow_reads r z : (r, z) ∈ g_reads g → r ∈ g_kept g ∧
    rd_fd <$> deref r (read_request_pool_ ev) = Some z;
  ow_queue q : g_queue g = Some q → getdents_queue_ ev = q
}.

(** [owned], when more requests may have been started. *)
Definition holds g ev w : Prop := ∃ d, owned (g_more d g) ev w.

(** An operation of the loop takes the state from [g] to [g']. *)
Definition moves (m : EventLoop → M W EventLoop) g g' : Prop :=
  ∀ ev w, holds g ev w → wp (m ev) w (upon (holds g')).

Lemma ledger_moves g g' ev ev' w w' c :
  ledger g ev w → live g' ev' ++ c ≡ₚ live g ev → opened w' = opened w →
  closes w' ≡ₚ closes w ++ c → ledger g' ev' w'.
Proof.
  intros [Hl Hnd] Hp Ho Hc. split.
  - rewrite Ho, Hl, Hc, <- Hp. solve_Permutation.
  - rewrite <- Hp in Hnd. by apply NoDup_app in Hnd as (? & _).
Qed.

(** What is open has not changed. *)
Lemma ledger_same g g' ev ev' w w' :
  ledger g ev w → live g' ev' ≡ₚ live g ev → opened w' = opened w → closes w' = closes w →
  ledger g' ev' w'.
Proof. intros [Hl Hnd] Hp Ho Hc. split; [by rewrite Ho, Hc, Hp|by rewrite Hp]. Qed.

Ltac same_ledger :=
  eapply ledger_same; [eassumption| |done|];
  [|first [done|match goal with Hc : closes _ = _ |- _ => rewrite Hc; done || apply app_nil_r end]].

(** The history has not changed. *)
Lemma owned_world g ev w w' :
  ring_keeps w w' → opened w' = opened w → closes w' = closes w → looked w' = looked w →
  owned g ev w → owned g ev w'.
Proof.
  intros Hk Ho Hc Hl [Hacc Hled Hrefs Hlk Hop Hrd Hq]. split; try done; [..|congruence].
  - by eapply accounted_world.
  - by same_ledger.
Qed.

Lemma holds_world g ev w w' :
  ring_keeps w w' → opened w' = opened w → closes w' = closes w → looked w' = looked w →
  holds g ev w → holds g ev w'.
Proof. intros ? ? ? ? [d ?]. exists d. by eapply owned_world. Qed.

(** ** Queueing *)

Lemma members_one {T X} (f : T → option X) p r x : deref r p = Some x → members f p [r] = option_list (f x).
Proof. intros Hx. rewrite members_cons, Hx. apply app_nil_r. Qed.

Lemma filled_read fd offset x : filled (fd, offset) x → rd_fd x = fd.
Proof. by intros (y & [->|[sqe ->]]). Qed.

Lemma filled_close fd x : filled fd x → cl_fd x = fd.
Proof. by intros (y & [->|[sqe ->]]). Qed.

Lemma filled_open parent path flags x : filled (parent, path, flags) x → oa_parent_fd x = parent.
Proof. by intros (y & [->|[sqe ->]]). Qed.

(** A request of one kind is none of another. *)
Lemma ptrs_other o o' r fl d : o' ≠ o → ptrs o (fl ++ d ++ [(o', r)]) = ptrs o (fl ++ d).
Proof. intros Hne. rewrite !ptrs_app. simpl. by rewrite decide_False, !app_nil_r. Qed.

Lemma app_assoc3 {X} (a b c d : list X) : a ++ b ++ c ++ d = (a ++ b ++ c) ++ d.
Proof. by rewrite !(assoc_L (++)). Qed.

(** A read that was queued holds its descriptor. *)
Lemma queue_read_moves fd offset g : moves (queue_read fd offset) (with_fd fd g) g.
Proof.
  intros ev w [d Ho]. pose proof Ho as [Hacc Hled Hrefs Hlk Hop Hrd Hq]. simpl in *.
  unfold queue_read. apply wp_bind_upon.
  eapply wp_upon_mono; [eapply next_full; apply Hacc|].
  intros [p' k'] w' (r & x & Hr & Hx & Hfill & Hsame & Hop' & Hlk' & _ & Hcase); apply wp_ret.
  assert (Hone : members (λ x, Some (rd_fd x)) p' [r] = [fd]).
  { rewrite (members_one _ _ _ _ Hx). simpl. by rewrite (filled_read _ _ _ Hfill). }
  assert (Hold : members (λ x, Some (rd_fd x)) p'
            (ptrs READ (g_fl g ++ d) ++ g_lost g ++ sqe_overflow_ (read_request_pool_ ev))
            = reading ev (g_fl g ++ d) (g_lost g)).
  { apply members_same. intros q Hql. apply Hsame. rewrite ptrs_app. set_solver. }
  assert (Hrd' : ∀ r z, (r, z) ∈ g_reads g → r ∈ g_kept g ∧ rd_fd <$> deref r p' = Some z).
  { intros q z Hqz. destruct (Hrd q z Hqz) as [Hk Hz]. split; [done|]. rewrite Hsame; [done|set_solver]. }
  destruct Hcase as [(Hok & Hs & -> & Hadds & (y & sqe & Hcl))|(Hok & Hs & -> & Hk & Hcl)].
  - exists (d ++ [(READ, r)]). split; simpl; try done.
    + rewrite app_assoc3. by eapply read_started.
    + same_ledger.
      unfold live, owed, reading, waiting_closes, dirs in *. simpl. rewrite Hs, !ptrs_app in *.
      simpl. rewrite <- Hold. rewrite !members_app, Hone. solve_Permutation.
    + unfold parents. simpl. by rewrite ptrs_other.
    + congruence.
  - exists d. split; simpl; try done.
    + by eapply read_waits.
    + same_ledger.
      unfold live, owed, reading, waiting_closes, dirs in *. simpl. rewrite Hs.
      rewrite <- Hold, !members_app, Hone. solve_Permutation.
    + congruence.
Qed.

(** A close that was queued is submitted or waits. *)
Lemma queue_close_moves fd g : moves (queue_close fd) (with_fd fd g) g.
Proof.
  intros ev w [d Ho]. pose proof Ho as [Hacc Hled Hrefs Hlk Hop Hrd Hq]. simpl in *.
  unfold queue_close. apply wp_bind_upon.
  eapply wp_upon_mono; [eapply next_full; apply Hacc|].
  intros [p' k'] w' (r & x & Hr & Hx & Hfill & Hsame & Hop' & Hlk' & _ & Hcase); apply wp_ret.
  assert (Hone : members (λ x, Some (cl_fd x)) p' [r] = [fd]).
  { rewrite (members_one _ _ _ _ Hx). simpl. by rewrite (filled_close _ _ Hfill). }
  assert (Hold : members (λ x, Some (cl_fd x)) p' (sqe_overflow_ (close_request_pool_ ev))
            = waiting_closes ev).
  { apply members_same. intros q Hql. apply Hsame. set_solver. }
  destruct Hcase as [(Hok & Hs & -> & Hadds & (y & sqe & Hcl))|(Hok & Hs & -> & Hk & Hcl)].
  - exists (d ++ [(CLOSE, r)]). split; simpl; try done.
    + rewrite app_assoc3. by eapply close_started.
    + eapply (ledger_moves _ _ _ _ _ _ [fd]); [exact Hled| |done|by rewrite Hcl].
      unfold live, owed, reading, dirs, waiting_closes in *. simpl.
      rewrite Hs, Hold, ptrs_other by done. solve_Permutation.
    + unfold parents. simpl. by rewrite ptrs_other.
    + congruence.
  - exists d. split; simpl; try done.
    + by eapply close_waits.
    + same_ledger.
      unfold live, owed, reading, dirs, waiting_closes in *. simpl.
      rewrite Hs, !members_app, Hold, Hone. solve_Permutation.
    + congruence.
Qed.

Lemma queue_getdents_moves fd g : g_queue g = None → moves (queue_getdents fd) (with_fd fd g) g.
Proof.
  intros Hg ev w [d [Hacc Hled Hrefs Hlk Hop Hrd Hq]]. apply wp_ret. exists d.
  split; simpl in *; try done; [by destruct Hacc| |by rewrite Hg].
  same_ledger.
  unfold live, owed, reading, dirs, waiting_closes. simpl. solve_Permutation.
Qed.

(** The references fit into their counts. *)
Lemma parents_bound g ev w :
  owned g ev w → lenZ (parents ev (g_fl g)) ≤ Z.of_nat N + lenZ (pool_overflow_ (openat_request_pool_ ev)).
Proof.
  intros [Hacc _ _ _ _ _ _]. destruct (a_open _ _ _ _ _ _ _ _ Hacc) as [_ Hp _ _].
  apply Permutation_length in Hp. unfold places in Hp. rewrite ptrs_app in Hp.
  rewrite !length_app, !length_fmap, !length_seq in Hp.
  pose proof (length_members_le parent_of (openat_request_pool_ ev)
    (ptrs OPENAT (g_fl g) ++ sqe_overflow_ (openat_request_pool_ ev))) as Hle.
  rewrite length_app in Hle. unfold lenZ, parents. lia.
Qed.

Lemma count_bound fd l : 0 ≤ count fd l ≤ lenZ l.
Proof. unfold count, lenZ. pose proof (length_filter (.= fd) l). lia. Qed.

Lemma count_cons fd fd' l : count fd (fd' :: l) = (if decide (fd' = fd) then 1 else 0) + count fd l.
Proof. unfold count. rewrite filter_cons. case_decide; [rewrite lenZ_cons|]; lia. Qed.

(** One reference more, and one less. *)
Lemma counts_increase m refs fd n :
  counts m refs → m !! fd = Some n → n + 1 < size_max → counts (<[fd := n +ₛ 1]> m) (fd :: refs).
Proof.
  intros Hc Hn Hsz fd'. pose proof (Hc fd) as Hfd. rewrite Hn in Hfd. pose proof (count_bound fd refs).
  destruct (Z.eqb_spec (count fd refs) 0); simplify_eq. rewrite count_cons.
  destruct (decide (fd = fd')) as [<-|Hne].
  - rewrite lookup_insert_eq. rewrite (proj2 (Z.eqb_neq _ _)) by lia. f_equal.
    rewrite size_add_small by lia. lia.
  - rewrite lookup_insert_ne by done. by rewrite (Hc fd').
Qed.

Lemma counts_decrease m refs fd n :
  counts m (fd :: refs) → m !! fd = Some n → n < size_max →
  counts (if n -ₛ 1 =? 0 then delete fd m else <[fd := n -ₛ 1]> m) refs.
Proof.
  intros Hc Hn Hsz fd'. pose proof (Hc fd) as Hfd. rewrite Hn, count_cons, decide_True in Hfd by done.
  pose proof (count_bound fd refs). destruct (Z.eqb_spec (1 + count fd refs) 0); simplify_eq.
  rewrite size_sub_small by lia. replace (1 + count fd refs - 1) with (count fd refs) by lia.
  pose proof (Hc fd') as Hfd'. rewrite count_cons in Hfd'. destruct (decide (fd = fd')) as [<-|Hne].
  - destruct (Z.eqb_spec (count fd refs) 0) as [Hz|Hz]; [by rewrite lookup_delete_eq|].
    by rewrite lookup_insert_eq.
  - destruct (Z.eqb_spec (count fd refs) 0); [rewrite lookup_delete_ne|rewrite lookup_insert_ne]; done.
Qed.

(** Changing the counts. *)
Lemma holds_refs g g' m d ev w :
  owned (g_more d g) ev w →
  g' = Ghost (g_done g) (g_hold g) (g_fl g) (g_kept g) (g_lost g) (g_sn g) (g_pend g') (g_extra g')
         (g_opens g) (g_reads g) (g_queue g) →
  g_pend g' ++ elements (dom m) ≡ₚ g_pend g ++ dirs ev →
  (small ev → counts m (parents ev (g_fl g ++ d) ++ g_extra g')) →
  holds g' (set_refs m ev) w.
Proof.
  intros [Hacc Hled Hrefs Hlk Hop Hrd Hq] -> Hp Hm. exists d.
  split; simpl in *; try done; [by destruct Hacc|].
  same_ledger.
  unfold live, owed, reading, waiting_closes. unfold dirs at 1. simpl.
  transitivity ((g_pend g' ++ elements (dom m)) ++ reading ev (g_fl g ++ d) (g_lost g) ++
    getdents_queue_ ev ++ waiting_closes ev);
    [unfold reading, waiting_closes; solve_Permutation|].
  rewrite Hp. unfold reading, waiting_closes. solve_Permutation.
Qed.

Lemma increase_moves fd g : lenZ (g_extra g) ≤ 1 → moves (increase_dir_ref fd) g (with_ref fd g).
Proof.
  intros Hextra ev w [d Ho]. unfold increase_dir_ref.
  destruct (dir_ref_count_ ev !! fd) as [n|] eqn:Hn; [|done]. apply wp_ret.
  eapply holds_refs; [done|done|simpl; by rewrite dom_insert_lookup_L by eauto|].
  intros Hsm. pose proof (ow_refs _ _ _ Ho Hsm) as Hc. pose proof (parents_bound _ _ _ Ho) as Hb.
  simpl in *. rewrite <- Permutation_middle. apply counts_increase; [done|done|].
  pose proof (Hc fd) as Hfd. rewrite Hn in Hfd.
  destruct (Z.eqb_spec (count fd (parents ev (g_fl g ++ d) ++ g_extra g)) 0); simplify_eq.
  pose proof (count_bound fd (parents ev (g_fl g ++ d) ++ g_extra g)) as Hcb.
  rewrite lenZ_app in Hcb. unfold small in Hsm. lia.
Qed.

(** The queued close does not look at the counts. *)
Lemma close_then_forget fd ev w :
  (ev' ← queue_close fd ev; mret (set_refs (delete fd (dir_ref_count_ ev')) ev')) w =
  queue_close fd (set_refs (delete fd (dir_ref_count_ ev)) ev) w.
Proof.
  rewrite queue_close_refs. unfold queue_close, mbind, M_bind.
  by destruct (next CLOSE fd (close_request_pool_ ev) (in_flight_ ev) w) as [[] w'].
Qed.

Lemma dirs_delete fd ev :
  is_Some (dir_ref_count_ ev !! fd) →
  dirs ev ≡ₚ fd :: elements (dom (delete fd (dir_ref_count_ ev))).
Proof.
  intros Hfd. unfold dirs. rewrite dom_delete_L.
  rewrite (union_difference_singleton_L fd (dom (dir_ref_count_ ev))) at 1 by by apply elem_of_dom.
  apply elements_union_singleton. set_solver.
Qed.

Lemma decrease_moves fd g : lenZ (g_extra g) ≤ 1 → moves (decrease_dir_ref fd) (with_ref fd g) g.
Proof.
  intros Hextra ev w [d Ho]. unfold decrease_dir_ref.
  destruct (dir_ref_count_ ev !! fd) as [n|] eqn:Hn; [|done].
  destruct (n =? 0); [done|].
  assert (Hcounts : small ev →
    counts (if n -ₛ 1 =? 0 then delete fd (dir_ref_count_ ev) else <[fd:=n -ₛ 1]> (dir_ref_count_ ev))
      (parents ev (g_fl g ++ d) ++ g_extra g)).
  { intros Hsm. pose proof (ow_refs _ _ _ Ho Hsm) as Hc. pose proof (parents_bound _ _ _ Ho) as Hb.
    simpl in *. rewrite <- Permutation_middle in Hc. apply counts_decrease; [done|done|].
    pose proof (Hc fd) as Hfd. rewrite Hn in Hfd.
    pose proof (count_bound fd (fd :: parents ev (g_fl g ++ d) ++ g_extra g)) as Hcb.
    rewrite lenZ_cons, lenZ_app in Hcb. unfold small in Hsm. destruct (_ =? 0); simplify_eq. lia. }
  destruct (n -ₛ 1 =? 0).
  - eapply wp_eq; [apply close_then_forget|]. apply (queue_close_moves fd g).
    eapply holds_refs; [exact Ho|done| |done]. simpl. rewrite dirs_delete by eauto. solve_Permutation.
  - apply wp_ret. eapply holds_refs;
      [exact Ho|by destruct g|simpl; by rewrite dom_insert_lookup_L by eauto|done].
Qed.

(** An opening that was queued holds a reference to its directory. *)
Definition parent_ref (parent : Z) : list Z := if parent =? AT_FDCWD then [] else [parent].

Definition with_parent (parent : Z) g : ghost :=
  Ghost (g_done g) (g_hold g) (g_fl g) (g_kept g) (g_lost g) (g_sn g) (g_pend g)
    (parent_ref parent ++ g_extra g) (g_opens g) (g_reads g) (g_queue g).

Lemma elem_of_ptrs o r fl : r ∈ ptrs o fl ↔ (o, r) ∈ fl.
Proof.
  unfold ptrs. rewrite list_elem_of_omap. split.
  - intros ([o' r'] & Hin & Hr). simpl in Hr. case_decide; by simplify_eq.
  - intros Hin. exists (o, r). simpl. by rewrite decide_True.
Qed.

Lemma next_openat_moves parent path flags g :
  moves (λ ev, pk ← next OPENAT (parent, path, flags) (openat_request_pool_ ev) (in_flight_ ev);
               mret (set_openat pk ev)) (with_parent parent g) g.
Proof.
  intros ev w [d Ho]. pose proof Ho as [Hacc Hled Hrefs Hlk Hop Hrd Hq]. simpl in *.
  apply wp_bind_upon. eapply wp_upon_mono; [eapply next_full; apply Hacc|].
  intros [p' k'] w' (r & x & Hr & Hx & Hfill & Hsame & Hop' & Hlk' & Hov & Hcase); apply wp_ret.
  assert (Hone : members parent_of p' [r] = parent_ref parent).
  { rewrite (members_one _ _ _ _ Hx). unfold parent_of, parent_ref.
    rewrite (filled_open _ _ _ _ Hfill). by case_match. }
  assert (Hold : members parent_of p'
            (ptrs OPENAT (g_fl g ++ d) ++ sqe_overflow_ (openat_request_pool_ ev))
            = parents ev (g_fl g ++ d)).
  { apply members_same. intros q Hql. apply Hsame. rewrite ptrs_app. set_solver. }
  assert (Hop2 : ∀ r z, (r, z) ∈ g_opens g → (OPENAT, r) ∈ g_hold g ∧
            oa_parent_fd <$> deref r p' = Some z).
  { intros q z Hqz. destruct (Hop q z Hqz) as [Hk Hz]. split; [done|]. rewrite Hsame; [done|].
    rewrite ptrs_app. apply elem_of_ptrs in Hk. set_solver. }
  assert (small (set_openat (p', k') ev) → small ev) as Hsmall by (unfold small, lenZ; simpl; lia).
  destruct Hcase as [(Hok & Hs & -> & Hadds & (y & sqe & Hcl))|(Hok & Hs & -> & Hk & Hcl)].
  - exists (d ++ [(OPENAT, r)]). split; simpl; try done.
    + rewrite app_assoc3. by eapply open_started.
    + same_ledger.
      unfold live, owed, reading. simpl. by rewrite ptrs_other.
    + intros Hsm. specialize (Hrefs (Hsmall Hsm)). rewrite <- Hold in Hrefs. unfold parents. simpl.
      rewrite Hs, !ptrs_app in *. simpl. rewrite !members_app, Hone in *.
      eapply counts_Permutation; [|exact Hrefs]. solve_Permutation.
    + congruence.
  - exists d. split; simpl; try done.
    + by eapply open_waits.
    + by same_ledger.
    + intros Hsm. specialize (Hrefs (Hsmall Hsm)). rewrite <- Hold in Hrefs. unfold parents. simpl.
      rewrite Hs. rewrite !members_app, Hone in *.
      eapply counts_Permutation; [|exact Hrefs]. solve_Permutation.
    + congruence.
Qed.

Lemma moves_ret g : moves mret g g.
Proof. intros ev w Hh. by apply wp_ret. Qed.

Lemma queue_openat_moves parent path flags g :
  lenZ (g_extra g) ≤ 1 → moves (queue_openat parent path flags) g g.
Proof.
  intros Hextra ev w Hh. unfold queue_openat. destruct (_ || _); [|done].
  apply wp_bind_upon. apply (wp_upon_mono _ _ (holds (with_parent parent g))).
  - unfold with_parent, parent_ref. destruct (parent =? AT_FDCWD); simpl.
    + apply wp_ret. by destruct g.
    + by apply increase_moves.
  - apply next_openat_moves.
Qed.

(** Writes hold no descriptor. *)
Lemma queue_write_moves fd buffer offset g : moves (queue_write fd buffer offset) g g.
Proof.
  intros ev w [d Ho]. pose proof Ho as [Hacc Hled Hrefs Hlk Hop Hrd Hq]. simpl in *.
  unfold queue_write. apply wp_bind_upon. eapply wp_upon_mono; [eapply next_full; apply Hacc|].
  intros [p' k'] w' (r & x & Hr & Hx & Hfill & Hsame & Hop' & Hlk' & Hov & Hcase); apply wp_ret.
  destruct Hcase as [(Hok & Hs & -> & Hadds & (y & sqe & Hcl))|(Hok & Hs & -> & Hk & Hcl)].
  - exists (d ++ [(WRITE, r)]). split; simpl; try done.
    + rewrite app_assoc3. by eapply write_started.
    + same_ledger.
      unfold live, owed, reading. simpl. by rewrite ptrs_other.
    + unfold parents. simpl. by rewrite ptrs_other.
    + congruence.
  - exists d. split; simpl; try done.
    + by eapply write_waits.
    + by same_ledger.
    + congruence.
Qed.

(** ** Overflow *)

(** Nothing was taken up. *)
Lemma nothing_popped g d ev w w' (full : Prop) :
  ring_keeps w w' → opened w' = opened w → closes w' = closes w → looked w' = looked w →
  owned (g_more d g) ev w → full →
  holds g ev w' ∧ (false = false → ev = ev ∧ in_ring w' ≡ₚ in_ring w ∧ full).
Proof.
  intros Hk Ho Hc Hl How Hfull. split; [exists d; by eapply owned_world|].
  by rewrite (ring_keeps_in _ _ Hk).
Qed.

(** A waiting opening holds the same reference when it is submitted. *)
Lemma pop_openat_holds g ev w :
  holds g ev w →
  wp (try_pop_overflow OPENAT (openat_request_pool_ ev) (in_flight_ ev)) w (upon (λ '(b, pk) w',
    holds g (set_openat pk ev) w' ∧
    (b = false → set_openat pk ev = ev ∧
       in_ring w' ≡ₚ in_ring w ∧ (sqe_overflow_ (openat_request_pool_ ev) = [] ∨ in_ring w ≠ [])))).
Proof.
  intros [d Ho]. pose proof Ho as [Hacc Hled Hrefs Hlk Hop Hrd Hq]. simpl in *.
  eapply wp_upon_mono; [eapply pop_full; apply Hacc|].
  intros [[] [p' k']] w' (Hop' & Hlk' & Hov & Hcase).
  - split; [|done].
    destruct Hcase as (r & x & sqe & Hs & Hok & -> & Hadds & Hx & (s' & Hx') & Hsame & Hcl).
    assert (Hold : ∀ l, (∀ q, q ∈ l → q ∈ sqe_overflow_ p' ++ ptrs OPENAT (g_hold g ++ g_fl g ++ d)) →
              members parent_of p' l = members parent_of (openat_request_pool_ ev) l).
    { intros l Hl. apply members_same. intros q Hql. by apply Hsame, Hl. }
    exists (d ++ [(OPENAT, r)]). split; simpl; try done.
    + rewrite app_assoc3. by eapply open_started.
    + same_ledger.
      unfold live, owed, reading. simpl. by rewrite ptrs_other.
    + intros Hsm. assert (small ev) as Hsm' by (unfold small, lenZ in *; simpl in *; lia).
      specialize (Hrefs Hsm'). eapply counts_Permutation; [|exact Hrefs]. apply Permutation_app_tail.
      unfold parents. simpl. rewrite Hs, !ptrs_app. simpl.
      rewrite !members_app, !(members_cons _ _ r), Hx, Hx', !Hold by (rewrite !ptrs_app; set_solver).
      simpl. solve_Permutation.
    + congruence.
    + intros q z Hqz. destruct (Hop q z Hqz) as [Hk Hz]. split; [done|]. rewrite Hsame; [done|].
      rewrite ptrs_app. apply elem_of_ptrs in Hk. set_solver.
  - destruct Hcase as (-> & -> & Hk & Hcl & Hfull).
    assert (set_openat (openat_request_pool_ ev, in_flight_ ev) ev = ev) as -> by by destruct ev.
    by apply (nothing_popped g d ev w).
Qed.

(** A waiting close is submitted. *)
Lemma pop_close_holds g ev w :
  holds g ev w →
  wp (try_pop_overflow CLOSE (close_request_pool_ ev) (in_flight_ ev)) w (upon (λ '(b, pk) w',
    holds g (set_close pk ev) w' ∧
    (b = false → set_close pk ev = ev ∧
       in_ring w' ≡ₚ in_ring w ∧ (sqe_overflow_ (close_request_pool_ ev) = [] ∨ in_ring w ≠ [])))).
Proof.
  intros [d Ho]. pose proof Ho as [Hacc Hled Hrefs Hlk Hop Hrd Hq]. simpl in *.
  eapply wp_upon_mono; [eapply pop_full; apply Hacc|].
  intros [[] [p' k']] w' (Hop' & Hlk' & Hov & Hcase).
  - split; [|done].
    destruct Hcase as (r & x & sqe & Hs & Hok & -> & Hadds & Hx & (s' & Hx') & Hsame & Hcl).
    exists (d ++ [(CLOSE, r)]). split; simpl; try done.
    + rewrite app_assoc3. by eapply close_started.
    + eapply (ledger_moves _ _ _ _ _ _ [cl_fd x]); [exact Hled| |done|by rewrite Hcl].
      unfold live, owed, reading, dirs, waiting_closes in *. simpl. rewrite ptrs_other by done.
      rewrite Hs, members_cons, Hx. simpl.
      rewrite (members_same _ _ p') by (intros q Hql; apply Hsame; set_solver). solve_Permutation.
    + unfold parents. simpl. by rewrite ptrs_other.
    + congruence.
  - destruct Hcase as (-> & -> & Hk & Hcl & Hfull).
    assert (set_close (close_request_pool_ ev, in_flight_ ev) ev = ev) as -> by by destruct ev.
    by apply (nothing_popped g d ev w).
Qed.

(** A waiting read holds the same descriptor when it is submitted. *)
Lemma pop_read_holds g ev w :
  holds g ev w →
  wp (try_pop_overflow READ (read_request_pool_ ev) (in_flight_ ev)) w (upon (λ '(b, pk) w',
    holds g (set_read pk ev) w' ∧
    (b = false → set_read pk ev = ev ∧
       in_ring w' ≡ₚ in_ring w ∧ (sqe_overflow_ (read_request_pool_ ev) = [] ∨ in_ring w ≠ [])))).
Proof.
  intros [d Ho]. pose proof Ho as [Hacc Hled Hrefs Hlk Hop Hrd Hq]. simpl in *.
  eapply wp_upon_mono; [eapply pop_full; apply Hacc|].
  intros [[] [p' k']] w' (Hop' & Hlk' & Hov & Hcase).
  - split; [|done].
    destruct Hcase as (r & x & sqe & Hs & Hok & -> & Hadds & Hx & (s' & Hx') & Hsame & Hcl).
    assert (Hold : ∀ l, (∀ q, q ∈ l → q ∈ sqe_overflow_ p' ++ ptrs READ (g_hold g ++ g_fl g ++ d) ++
                                          g_kept g ++ g_lost g) →
              members (λ x, Some (rd_fd x)) p' l
              = members (λ x, Some (rd_fd x)) (read_request_pool_ ev) l).
    { intros l Hl. apply members_same. intros q Hql. by apply Hsame, Hl. }
    exists (d ++ [(READ, r)]). split; simpl; try done.
    + rewrite app_assoc3. by eapply read_started.
    + same_ledger.
      unfold live, owed, reading, dirs, waiting_closes in *. simpl. rewrite Hs, !ptrs_app. simpl.
      rewrite !members_app, !(members_cons _ _ r), Hx, Hx', !Hold by (rewrite !ptrs_app; set_solver).
      simpl. solve_Permutation.
    + unfold parents. simpl. by rewrite ptrs_other.
    + congruence.
    + intros q z Hqz. destruct (Hrd q z Hqz) as [Hk Hz]. split; [done|]. rewrite Hsame; [done|set_solver].
  - destruct Hcase as (-> & -> & Hk & Hcl & Hfull).
    assert (set_read (read_request_pool_ ev, in_flight_ ev) ev = ev) as -> by by destruct ev.
    by apply (nothing_popped g d ev w).
Qed.

(** No request waits, or the ring has requests. *)
Definition overflow_done ev w : Prop :=
  in_ring w = [] →
  sqe_overflow_ (openat_request_pool_ ev) = [] ∧ sqe_overflow_ (close_request_pool_ ev) = [] ∧
  sqe_overflow_ (read_request_pool_ ev) = [].

Lemma overflow_step_holds g ev w :
  holds g ev w →
  wp (overflow_step ev) w (upon (λ r w', match r with
    | inl ev' => holds g ev' w'
    | inr ev' => holds g ev' w' ∧ overflow_done ev' w'
    end)).
Proof.
  intros Hh. unfold overflow_step. apply wp_bind_upon.
  eapply wp_upon_mono; [by apply pop_openat_holds|]. intros [b1 pk1] w1 [Hh1 Hf1].
  destruct b1; [by apply wp_ret|]. destruct (Hf1 eq_refl) as (Hev1 & Hr1 & Hs1). rewrite Hev1 in *.
  apply wp_bind_upon. eapply wp_upon_mono; [by apply pop_close_holds|].
  intros [b2 pk2] w2 [Hh2 Hf2].
  destruct b2; [by apply wp_ret|]. destruct (Hf2 eq_refl) as (Hev2 & Hr2 & Hs2). rewrite Hev2 in *.
  apply wp_bind_upon. eapply wp_upon_mono; [by apply pop_read_holds|].
  intros [b3 pk3] w3 [Hh3 Hf3].
  destruct b3; [by apply wp_ret|]. destruct (Hf3 eq_refl) as (Hev3 & Hr3 & Hs3). rewrite Hev3 in *.
  apply wp_ret. split; [done|]. intros Hz. rewrite Hz in Hr3. apply Permutation_nil_l in Hr3.
  rewrite <- Hr3 in Hr2, Hs3. apply Permutation_nil_l in Hr2. rewrite <- Hr2 in Hr1, Hs2.
  apply Permutation_nil_l in Hr1. rewrite <- Hr1 in Hs1. split_and!; naive_solver.
Qed.

Lemma overflow_holds g ev w :
  holds g ev w →
  wp (loop fuel overflow_step ev) w (upon (λ ev' w', holds g ev' w' ∧ overflow_done ev' w')).
Proof.
  intros Hh. apply (wp_loop_upon _ (holds g)); [|done]. intros ev' w'. apply overflow_step_holds.
Qed.

(** ** Handlers *)

Lemma holds_ok g ev w : holds g ev w → ring_ok w.
Proof. intros [d Ho]. apply (a_ok _ _ _ _ _ _ _ _ (ow_account _ _ _ Ho)). Qed.

(** A call that is not about the loop. *)
Lemma holds_call {X} (m : M W X) g ev w :
  (ring_ok w → wp m w (upon (λ _, ring_keeps w))) →
  (ring_ok w → wp m w (upon (λ _ w',
     opened w' = opened w ∧ closes w' = closes w ∧ looked w' = looked w))) →
  holds g ev w → wp m w (upon (λ _, holds g ev)).
Proof.
  intros Hk Hs Hh. pose proof (holds_ok _ _ _ Hh) as Hok.
  eapply wp_upon_mono; [apply wp_upon_and; [by apply Hk|by apply Hs]|].
  intros x w' [Hkeep (Ho & Hc & Hl)]. by eapply holds_world.
Qed.

(** Handlers that hand on what they get: the descriptor of an opening goes to
    one of the loop's operations, and reading a directory does not put
    directories into the queue. They keep the descriptors of the loop, as all
    do that only call its operations. *)
Record handlers_hand_on (h : handlers (W := W)) : Prop := {
  openat_hands fd is_file g :
    g_queue g = None → lenZ (g_extra g) ≤ 1 →
    moves (λ ev, openat_handler h ev fd is_file) (with_fd fd g) g;
  getdents_hands fd is_file name g :
    lenZ (g_extra g) ≤ 1 → moves (λ ev, getdents_handler h ev fd is_file name) g g;
  close_hands g : g_queue g = None → lenZ (g_extra g) ≤ 1 → moves (close_handler h) g g;
  read_hands r g ev w held :
    g_queue g = None → lenZ (g_extra g) ≤ 1 →
    holds g ev w → g_kept g ≡ₚ r :: held ++ read_free_queue_ ev →
    wp (read_handler h ev r) w (upon (λ '(ev', _), holds g ev'));
  write_hands fd res g :
    g_queue g = None → lenZ (g_extra g) ≤ 1 → moves (λ ev, write_handler h ev fd res) g g
}.

Context (h : handlers (W := W)) (Hh : handlers_hand_on h).

(** ** Reading directories *)

Lemma visit_moves fd e g : lenZ (g_extra g) ≤ 1 → moves (visit_dirent h fd e) g g.
Proof.
  intros Hextra ev w Ho. unfold visit_dirent. destruct (_ || _); [by apply Hh|by apply wp_ret].
Qed.

Lemma walk_moves (visit : linux_dirent64 → EventLoop → M W EventLoop) data g :
  (∀ e, moves (visit e) g g) → moves (walk_dirents visit data) g g.
Proof.
  intros Hv ev w Ho. unfold walk_dirents. apply (wp_loop_upon _ (λ s w, holds g s.2 w)); [|done].
  clear ev w Ho. intros [span ev] w Ho. unfold dirent_round. simpl.
  case_bool_decide; [by apply wp_ret|]. destruct (dirent_at span) as [e|]; [|done].
  apply wp_bind_upon. eapply wp_upon_mono; [by apply Hv|]. intros ev' w' Ho'.
  case_match; [by apply wp_ret|done].
Qed.

Lemma getdents_step_holds fd g ev w :
  lenZ (g_extra g) ≤ 1 → holds g ev w →
  wp (getdents_step h fd ev) w (upon (λ r w', match r with inl ev' | inr ev' => holds g ev' w' end)).
Proof.
  intros Hextra Ho. unfold getdents_step. apply wp_bind_upon.
  eapply wp_upon_mono; [eapply holds_call; [apply getdents_ring|apply getdents_history|exact Ho]|].
  intros [n data] w1 Ho1. destruct (n <? 0).
  - apply wp_bind_upon. unfold wp. simpl. apply wp_bind_upon.
    eapply wp_upon_mono; [eapply holds_call; [apply println_ring|apply println_history|exact Ho1]|].
    intros ? w2 Ho2. by apply wp_ret.
  - destruct (n =? 0); [by apply wp_ret|]. apply wp_bind_upon.
    eapply wp_upon_mono; [apply walk_moves; [|done]|by intros ev' w' Ho'; apply wp_ret].
    intros e. by apply visit_moves.
Qed.

Lemma counts_insert m refs fd : counts m refs → m !! fd = None → counts (<[fd := 1]> m) (fd :: refs).
Proof.
  intros Hc Hn fd'. pose proof (Hc fd) as Hfd. rewrite Hn in Hfd. rewrite count_cons.
  destruct (Z.eqb_spec (count fd refs) 0) as [Hz|]; [|done]. destruct (decide (fd = fd')) as [<-|Hne].
  - by rewrite lookup_insert_eq, Hz.
  - rewrite lookup_insert_ne by done. apply Hc.
Qed.

(** With descriptors in hand. *)
Definition with_fds (fds : list Z) g : ghost :=
  Ghost (g_done g) (g_hold g) (g_fl g) (g_kept g) (g_lost g) (g_sn g) (fds ++ g_pend g) (g_extra g)
    (g_opens g) (g_reads g) (g_queue g).

(** A directory that is about to be read is counted once. *)
Lemma first_reference fd g ev w :
  holds (with_fd fd g) ev w → holds (with_ref fd g) (set_refs (<[fd := 1]> (dir_ref_count_ ev)) ev) w.
Proof.
  intros [d Ho]. assert (dir_ref_count_ ev !! fd = None) as Hnone.
  { apply not_elem_of_dom. intros Hin. pose proof (ow_ledger _ _ _ Ho) as [_ Hnd].
    unfold live, owed, dirs in Hnd. simpl in Hnd. apply NoDup_cons in Hnd as [Hnd _]. apply Hnd.
    rewrite !elem_of_app, elem_of_elements. auto. }
  eapply holds_refs; [exact Ho|done| |].
  - simpl. rewrite dom_insert_L, elements_union_singleton by by apply not_elem_of_dom.
    unfold dirs. solve_Permutation.
  - intros Hsm. pose proof (ow_refs _ _ _ Ho Hsm) as Hc. simpl in *.
    rewrite <- Permutation_middle. by apply counts_insert.
Qed.

Lemma read_directories_moves fds g : g_extra g = [] → moves (read_directories h fds) (with_fds fds g) g.
Proof.
  intros Hextra. induction fds as [|fd fds IH]; intros ev w Ho; cbn [read_directories].
  { apply wp_ret. by destruct g. }
  apply first_reference with (g := with_fds fds g) in Ho. apply wp_bind_upon.
  eapply wp_upon_mono.
  { apply (wp_loop_upon _ (holds (with_ref fd (with_fds fds g)))); [|exact Ho].
    intros ev' w' Ho'. eapply wp_upon_mono; [apply getdents_step_holds; [|exact Ho']|].
    - simpl. by rewrite Hextra.
    - by intros [] w2. }
  intros ev1 w1 Ho1. apply wp_bind_upon. eapply wp_upon_mono; [apply decrease_moves; [|exact Ho1]|].
  - simpl. by rewrite Hextra.
  - apply IH.
Qed.

(** ** Reads that were given back *)

Lemma free_reads_holds reqs g g' ev w held :
  holds g ev w → read_free_queue_ ev = [] → g_kept g ≡ₚ held ++ reqs → g_reads g = [] →
  g' = Ghost (g_done g) (g_hold g) (g_fl g) held (g_lost g) (g_sn g) (g_pend g) (g_extra g)
         (g_opens g) [] (g_queue g) →
  wp (free_reads N reqs ev) w (upon (λ ev' w', holds g' ev' w' ∧
    (overflow_done ev w → overflow_done ev' w'))).
Proof.
  intros Ho Hfree Hk Hr ->. revert g ev w Ho Hfree Hk Hr.
  induction reqs as [|r reqs IH]; intros g ev w [d Ho] Hfree Hk Hr.
  { rewrite app_nil_r in Hk. apply wp_ret. split; [|done]. exists d.
    destruct Ho as [Hacc Hled Hrefs Hlk Hop Hrd Hq]. simpl in *. split; simpl; try done.
    - destruct Hacc. split; try done; [by rewrite <- Hk|]. exists held. by rewrite Hfree, app_nil_r.
    - intros ? ? []%not_elem_of_nil. }
  cbn [free_reads]. rewrite <- Permutation_middle in Hk.
  destruct Ho as [Hacc Hled Hrefs Hlk Hop Hrd Hq]. simpl in *.
  destruct (free_given_back N r (held ++ reqs) _ _ _ _ _ _ _ Hacc Hk) as (p' & Hf & Hok' & Hs & Hsame & _).
  apply wp_bind_upon. unfold wp at 1. rewrite Hf. simpl.
  set (ev1 := set_read (p', in_flight_ ev -ₛ 1 +ₛ 1) ev).
  set (g1 := Ghost (g_done g) (g_hold g) (g_fl g) (held ++ reqs) (g_lost g) (g_sn g) (g_pend g) (g_extra g)
               (g_opens g) (g_reads g) (g_queue g)).
  assert (holds g1 ev1 w) as Ho1.
  { exists d. split; simpl; try done; [by eapply read_freed| |by rewrite Hr; intros ? ? []%not_elem_of_nil].
    same_ledger.
    unfold live, owed, reading, waiting_closes, dirs. simpl. rewrite Hs.
    by rewrite (members_same _ (read_request_pool_ ev) p') by (intros; apply Hsame). }
  eapply wp_upon_mono; [by apply (IH g1 ev1 w Ho1)|]. intros ev' w' [Ho' Hov]. split; [exact Ho'|].
  intros Hdone. apply Hov. unfold overflow_done in *. simpl. by rewrite Hs.
Qed.

(** ** Completions *)

(** Nothing is in hand but descriptors. *)
Definition base done fl kept lost sn pend : ghost :=
  Ghost done [] fl kept lost sn pend [] [] [] None.

(** One request is being dealt with. *)
Definition taking d done fl kept lost sn pend extra watched : ghost :=
  Ghost done [d] fl kept lost sn pend extra watched [] None.

(** A request that holds neither a reference nor a descriptor is taken. *)
Lemma take_other o r done fl kept lost sn pend ev w :
  o ≠ OPENAT → o ≠ READ → holds (base done ((o, r) :: fl) kept lost sn pend) ev w →
  holds (taking (o, r) done fl kept lost sn pend [] []) ev w.
Proof.
  intros Hno Hnr [d [Hacc Hled Hrefs Hlk Hop Hrd Hq]]. simpl in *.
  exists d. split; simpl; try done; [|..|by intros ? ? []%not_elem_of_nil].
  - unfold ledger, live, owed, reading in *. simpl in *. by rewrite decide_False in Hled.
  - unfold parents in *. simpl in Hrefs. by rewrite decide_False in Hrefs.
Qed.

(** An opening that is taken leaves its reference. *)
Lemma take_open r req done fl kept lost sn pend ev w :
  deref r (openat_request_pool_ ev) = Some req →
  holds (base done ((OPENAT, r) :: fl) kept lost sn pend) ev w →
  holds (taking (OPENAT, r) done fl kept lost sn pend (parent_ref (oa_parent_fd req))
           [(r, oa_parent_fd req)]) ev w.
Proof.
  intros Hr [d [Hacc Hled Hrefs Hlk Hop Hrd Hq]]. simpl in *. exists d. split; simpl; try done.
  - intros Hsm. specialize (Hrefs Hsm). unfold parents in Hrefs. simpl in Hrefs.
    rewrite members_cons, Hr in Hrefs. eapply counts_Permutation; [|exact Hrefs].
    unfold parents, parent_ref. simpl. unfold parent_of at 2. case_match; simpl; solve_Permutation.
  - intros q z ?%list_elem_of_singleton. simplify_eq. rewrite Hr. split; [apply list_elem_of_here|done].
Qed.

(** A read that is taken leaves its descriptor. *)
Lemma live_read r req done fl kept lost sn pend ev d :
  deref r (read_request_pool_ ev) = Some req →
  live (g_more d (base done ((READ, r) :: fl) kept lost sn pend)) ev ≡ₚ
  rd_fd req :: pend ++ owed ev (fl ++ d) lost.
Proof.
  intros Hr. unfold live, owed, reading. simpl. rewrite members_cons, Hr. simpl. solve_Permutation.
Qed.

Lemma take_read r req done fl kept lost sn pend ev w :
  deref r (read_request_pool_ ev) = Some req →
  holds (base done ((READ, r) :: fl) kept lost sn pend) ev w →
  holds (taking (READ, r) done fl kept lost sn (rd_fd req :: pend) [] []) ev w.
Proof.
  intros Hr [d [Hacc Hled Hrefs Hlk Hop Hrd Hq]]. simpl in *.
  exists d. split; simpl; try done; [|by intros ? ? []%not_elem_of_nil].
  same_ledger.
  by rewrite (live_read _ _ _ _ _ _ _ _ _ _ Hr).
Qed.

(** The descriptor of a read that brought data is in hand again. *)
Lemma holds_arrived r req n done fl kept lost sn pend ev w :
  deref r (read_request_pool_ ev) = Some req →
  holds (base done ((READ, r) :: fl) kept lost sn pend) ev w →
  holds (Ghost (done ++ [(READ, r)]) [] fl (r :: kept) lost sn (rd_fd req :: pend) [] []
           [(r, rd_fd req)] None)
    (set_read (assign r (mkRead (rd_op req) (rd_sqe req) (rd_fd req) (rd_offset req) (rd_buffer req) n)
                 (read_request_pool_ ev), in_flight_ ev -ₛ 1) ev) w.
Proof.
  intros Hr [d [Hacc Hled Hrefs Hlk Hop Hrd Hq]]. simpl in *.
  exists d. split; simpl; try done; [by apply read_arrived| |].
  - same_ledger.
    rewrite (live_read _ _ _ _ _ _ _ _ _ _ Hr). unfold live, owed, reading. simpl.
    destruct (assign_overflow (read_request_pool_ ev) r
      (mkRead (rd_op req) (rd_sqe req) (rd_fd req) (rd_offset req) (rd_buffer req) n)) as [-> _].
    by rewrite (members_assign _ _ _ _ _ _ Hr).
  - intros q z ?%list_elem_of_singleton. simplify_eq. split; [apply list_elem_of_here|].
    by rewrite deref_assign by eauto.
Qed.

(** A read that failed keeps its descriptor. *)
Lemma holds_failed r done fl kept lost sn pend ev w :
  holds (base done ((READ, r) :: fl) kept lost sn pend) ev w →
  holds (base (done ++ [(READ, r)]) fl kept (r :: lost) sn pend) ev w.
Proof.
  intros [d [Hacc Hled Hrefs Hlk Hop Hrd Hq]]. simpl in *.
  exists d. split; simpl; try done; [by apply read_failed|].
  same_ledger.
  unfold live, owed, reading. simpl. by rewrite (Permutation_middle (ptrs READ (fl ++ d)) _ r).
Qed.

(** Requests are not watched any longer. *)
Lemma holds_unwatched g ev w :
  holds g ev w →
  holds (Ghost (g_done g) (g_hold g) (g_fl g) (g_kept g) (g_lost g) (g_sn g) (g_pend g) (g_extra g)
           [] [] (g_queue g)) ev w.
Proof.
  intros [d []]. exists d. by split; simpl in *; try done; intros ? ? []%not_elem_of_nil.
Qed.

(** What is held after a completion. *)
Definition handed d done fl sn pend (res : EventLoop * expected unit) w : Prop :=
  match res.2 with
  | Value _ => ∃ kept' lost', holds (base (done ++ [d]) fl kept' lost' sn pend) res.1 w
  | Unexpected _ => True
  end.

(** A request of the pool is freed at the end. *)
Ltac freeing law :=
  intros [d [Hacc Hled Hrefs Hlk Hop Hrd Hq]]; simpl in *;
  destruct (law _ _ _ _ _ _ _ _ _ Hacc) as (p' & Hf & Ha & Hs & Hd & Hov);
  apply wp_bind_upon; unfold wp; rewrite Hf; simpl;
  do 2 eexists; exists d; split; simpl; try done;
  unfold ledger, live, owed, reading, waiting_closes, dirs, parents, small in *; simpl;
  rewrite ?Hs, ?Hov; rewrite ?(members_same _ _ p') by (intros; apply Hd); try done;
  by intros ? ? []%not_elem_of_nil.

Lemma free_open_holds r done fl kept lost sn pend watched ev w :
  holds (taking (OPENAT, r) done fl kept lost sn pend [] watched) ev w →
  wp (pk ← free N r (openat_request_pool_ ev) (in_flight_ ev); mret (set_openat pk ev, Value ())) w
    (upon (handed (OPENAT, r) done fl sn pend)).
Proof. freeing open_completed. Qed.

Lemma free_close_holds r done fl kept lost sn pend watched ev w :
  holds (taking (CLOSE, r) done fl kept lost sn pend [] watched) ev w →
  wp (pk ← free N r (close_request_pool_ ev) (in_flight_ ev); mret (set_close pk ev, Value ())) w
    (upon (handed (CLOSE, r) done fl sn pend)).
Proof. freeing close_completed. Qed.

Lemma free_read_holds r done fl kept lost sn pend watched ev w :
  holds (taking (READ, r) done fl kept lost sn pend [] watched) ev w →
  wp (pk ← free N r (read_request_pool_ ev) (in_flight_ ev); mret (set_read pk ev, Value ())) w
    (upon (handed (READ, r) done fl sn pend)).
Proof. freeing read_completed. Qed.

Lemma free_write_holds r done fl kept lost sn pend watched ev w :
  holds (taking (WRITE, r) done fl kept lost sn pend [] watched) ev w →
  wp (pk ← free N r (write_request_pool_ ev) (in_flight_ ev); mret (set_write pk ev, Value ())) w
    (upon (handed (WRITE, r) done fl sn pend)).
Proof. freeing write_completed. Qed.

Lemma parent_ref_short parent : lenZ (parent_ref parent) ≤ 1.
Proof. unfold parent_ref. by case_match. Qed.

(** The end of an opening: its directory is needed once less. *)
Lemma complete_open_holds res r done fl kept lost sn pend ev w :
  holds (base done ((OPENAT, r) :: fl) kept lost sn (opens [(res, (OPENAT, r))] ++ pend)) ev w →
  wp (match deref r (openat_request_pool_ ev) with
      | None => undefined
      | Some req =>
          ev ← (if 0 <=? res then openat_handler h ev res (oa_is_file req) else mret ev);
          match deref r (openat_request_pool_ ev) with
          | None => undefined
          | Some req =>
              ev ← (if negb (oa_parent_fd req =? AT_FDCWD)
                    then decrease_dir_ref (oa_parent_fd req) ev else mret ev);
              pk ← free N r (openat_request_pool_ ev) (in_flight_ ev);
              mret (set_openat pk ev, Value ())
          end
      end) w (upon (handed (OPENAT, r) done fl sn pend)).
Proof.
  intros Ho. destruct (deref r _) as [req|] eqn:Hr; [|done]. apply (take_open _ _ _ _ _ _ _ _ _ _ Hr) in Ho.
  set (z := oa_parent_fd req) in *. apply wp_bind_upon.
  apply (wp_upon_mono _ _ (holds (taking (OPENAT, r) done fl kept lost sn pend (parent_ref z) [(r, z)]))).
  { simpl in Ho. destruct (0 <=? res); [|by apply wp_ret].
    apply (openat_hands h Hh res (oa_is_file req)
             (taking (OPENAT, r) done fl kept lost sn pend (parent_ref z) [(r, z)]));
      [done|apply parent_ref_short|exact Ho]. }
  intros ev1 w1 Ho1. destruct (deref r (openat_request_pool_ ev1)) as [req1|] eqn:Hr1; [|done].
  assert (oa_parent_fd req1 = z) as ->.
  { destruct Ho1 as [d [_ _ _ _ Hop _ _]]. destruct (Hop r z) as [_ Hz]; [apply list_elem_of_here|].
    rewrite Hr1 in Hz. by simplify_eq/=. }
  apply wp_bind_upon.
  apply (wp_upon_mono _ _ (holds (taking (OPENAT, r) done fl kept lost sn pend [] [(r, z)]))).
  { unfold parent_ref in Ho1. destruct (z =? AT_FDCWD); [by apply wp_ret|].
    by apply (decrease_moves z (taking (OPENAT, r) done fl kept lost sn pend [] [(r, z)])). }
  intros ev2 w2. apply free_open_holds.
Qed.

(** A read that brought data goes to its handler and is followed by the next. *)
Lemma complete_arrived_holds res r req done fl kept lost sn pend ev w :
  deref r (read_request_pool_ ev) = Some req →
  holds (base done ((READ, r) :: fl) kept lost sn pend) ev w →
  wp ('(ev, handled) ← read_handler h
        (set_read (assign r (mkRead (rd_op req) (rd_sqe req) (rd_fd req) (rd_offset req)
                               (rd_buffer req) res) (read_request_pool_ ev), in_flight_ ev -ₛ 1) ev) r;
      match handled with
      | Unexpected e => mret (ev, Unexpected e)
      | Value _ =>
          match deref r (read_request_pool_ ev) with
          | None => undefined
          | Some req =>
              ev ← queue_read (rd_fd req) (rd_offset req +ₛ res) ev;
              mret (ev, Value ())
          end
      end) w (upon (handed (READ, r) done fl sn pend)).
Proof.
  intros Hr Ho. pose proof Ho as [d [Hacc _ _ _ _ _ _]].
  destruct (a_free _ _ _ _ _ _ _ _ Hacc) as [held Hheld]. simpl in Hheld.
  apply (holds_arrived _ _ res _ _ _ _ _ _ _ _ Hr) in Ho. apply wp_bind_upon.
  eapply wp_upon_mono.
  { eapply (read_hands h Hh r _ _ _ held); [| |exact Ho|]; simpl; [done|done|by rewrite Hheld]. }
  intros [ev1 [n|e]] w1 Ho1; [|by apply wp_ret].
  destruct (deref r (read_request_pool_ ev1)) as [req1|] eqn:Hr1; [|done].
  assert (rd_fd req1 = rd_fd req) as ->.
  { destruct Ho1 as [d1 [_ _ _ _ _ Hrd _]].
    destruct (Hrd r (rd_fd req)) as [_ Hz]; [apply list_elem_of_here|].
    rewrite Hr1 in Hz. by simplify_eq/=. }
  apply holds_unwatched in Ho1. apply wp_bind_upon.
  eapply wp_upon_mono;
    [by apply (queue_read_moves _ _ (base (done ++ [(READ, r)]) fl (r :: kept) lost sn pend))|].
  intros ev2 w2 Ho2. apply wp_ret. by exists (r :: kept), lost.
Qed.

Lemma complete_holds res d done fl kept lost sn pend ev w :
  holds (base done (d :: fl) kept lost sn (opens [(res, d)] ++ pend)) ev w →
  wp (complete N h res d ev) w (upon (handed d done fl sn pend)).
Proof.
  intros Ho. unfold complete. apply wp_bind_upon.
  apply (wp_upon_mono _ _ (λ _, holds (base done (d :: fl) kept lost sn (opens [(res, d)] ++ pend)) ev)).
  { destruct (res <? 0); [|by apply wp_ret].
    eapply holds_call; [apply println_ring|apply println_history|exact Ho]. }
  clear w Ho. intros _ w Ho. destruct d as [[] r].
  - by apply (complete_open_holds res r done fl kept lost sn pend).
  - apply take_other in Ho; [|done..]. apply wp_bind_upon.
    eapply wp_upon_mono; [by apply (close_hands h Hh); [..|exact Ho]|].
    intros ev1 w1. apply free_close_holds.
  - destruct (deref r _) as [req|] eqn:Hr; [|done]. destruct (res =? 0).
    { apply (take_read _ _ _ _ _ _ _ _ _ _ Hr) in Ho. apply wp_bind_upon.
      eapply wp_upon_mono;
        [by apply (queue_close_moves _ (taking (READ, r) done fl kept lost sn pend [] []))|].
      intros ev1 w1. apply free_read_holds. }
    destruct (0 <? res); [by apply (complete_arrived_holds res r req done fl kept lost sn pend)|].
    apply wp_ret. do 2 eexists. by apply holds_failed.
  - destruct (deref r _) as [req|]; [|done]. apply take_other in Ho; [|done..]. apply wp_bind_upon.
    eapply wp_upon_mono; [by apply (write_hands h Hh); [..|exact Ho]|].
    intros ev1 w1 Ho1. destruct (deref r _) as [req1|]; [|done]. apply wp_bind_upon.
    apply (wp_upon_mono _ _ (holds (taking (WRITE, r) done fl kept lost sn pend [] [])));
      [|intros ev2 w2; apply free_write_holds].
    destruct (negb _); [by apply queue_write_moves|by apply wp_ret].
Qed.

Lemma opens_cons c cqes : opens (c :: cqes) = opens [c] ++ opens cqes.
Proof. apply (omap_app _ [c]). Qed.

Lemma complete_all_holds cqes done fl kept lost sn ev w :
  holds (base done (cqes.*2 ++ fl) kept lost sn (opens cqes)) ev w →
  wp (complete_all N h cqes ev) w (upon (λ '(ev', r) w', match r with
    | Value _ => ∃ kept' lost', holds (base (done ++ cqes.*2) fl kept' lost' sn []) ev' w'
    | Unexpected _ => True end)).
Proof.
  revert ev w done kept lost. induction cqes as [|[res d] cqes IH];
    intros ev w done kept lost Ho; cbn [complete_all].
  { apply wp_ret. simpl. rewrite app_nil_r. by exists kept, lost. }
  rewrite opens_cons in Ho. apply wp_bind_upon.
  eapply wp_upon_mono; [exact (complete_holds res d done (cqes.*2 ++ fl) kept lost sn _ ev w Ho)|].
  intros [ev1 [[]|e]] w1 Ho1; [|by apply wp_ret]. destruct Ho1 as (kept1 & lost1 & Ho1).
  eapply wp_upon_mono; [by eapply IH|]. intros [ev2 [[]|e]] w2; [|done].
  by rewrite <- (assoc_L (++)).
Qed.

(** ** The loop *)

(** Between rounds nothing is in hand. *)
Definition at_rest ev w : Prop := ∃ fl kept lost, holds (base [] fl kept lost [] []) ev w.

(** The queue of directories is taken whole. *)
Definition reading_dirs fl kept lost pend : ghost :=
  Ghost [] [] fl kept lost [] pend [] [] [] (Some []).

Lemma take_directories fl kept lost ev w :
  holds (base [] fl kept lost [] []) ev w →
  holds (with_fds (getdents_queue_ ev) (reading_dirs fl kept lost [])) (set_getdents [] ev) w.
Proof.
  intros [d [Hacc Hled Hrefs Hlk Hop Hrd Hq]]. simpl in *. exists d.
  split; simpl; try done; [by destruct Hacc| |by intros q [= <-]].
  same_ledger.
  unfold live, owed, reading, waiting_closes, dirs. simpl. solve_Permutation.
Qed.

Lemma take_given_back g ev w : holds g ev w → holds g (set_read_free [] ev) w.
Proof.
  intros [d [Hacc Hled Hrefs Hlk Hop Hrd Hq]]. exists d. split; simpl in *; try done.
  destruct Hacc. split; try done. eexists. by rewrite app_nil_r.
Qed.

(** The order of the requests does not matter. *)
Lemma owned_flying done fl fl' kept lost sn pend ev w :
  fl ≡ₚ fl' → owned (base done fl kept lost sn pend) ev w → owned (base done fl' kept lost sn pend) ev w.
Proof.
  intros Hp [Hacc Hled Hrefs Hlk Hop Hrd Hq]. split; simpl in *; try done.
  - by eapply accounted_flying.
  - same_ledger.
    unfold live, owed, reading. simpl. by rewrite Hp.
  - intros Hsm. specialize (Hrefs Hsm). eapply counts_Permutation; [|exact Hrefs].
    unfold parents. by rewrite Hp.
Qed.

(** The loop looks at completions: the descriptors they bring are in hand. *)
Lemma completions_holds fl kept lost ev w :
  owned (base [] fl kept lost [] []) ev w →
  wp io_uring_completions w (upon (λ cqes w', ∃ rest,
    holds (base [] (cqes.*2 ++ rest) kept lost (cqes.*2) (opens cqes)) ev w')).
Proof.
  intros Ho. pose proof Ho as [Hacc [Hled Hnd] Hrefs Hlk Hop Hrd Hq]. simpl in *.
  pose proof (a_ok _ _ _ _ _ _ _ _ Hacc) as Hok. eapply wp_upon_mono.
  { apply wp_upon_and; [by apply completions_ring|by apply completions_history]. }
  intros cqes w' [(Hk & Hs & [rest Hrest]%submseteq_Permutation) (Hopen & Hcl & Hlk' & Hfresh)].
  assert (fl ≡ₚ cqes.*2 ++ rest) as Hfl.
  { rewrite <- Hrest, (ring_keeps_in _ _ Hk), (a_ring _ _ _ _ _ _ _ _ Hacc). done. }
  exists rest, []. unfold g_more. simpl. rewrite app_nil_r.
  apply (owned_flying _ fl); [done|]. split; simpl; try done.
  - apply (accounted_world N _ _ w') in Hacc; [|done]. destruct Hacc. by split.
  - split; [|unfold live; simpl; rewrite Permutation_app_comm; by apply Hfresh].
    rewrite Hopen, Hled, Hcl. unfold live. simpl. solve_Permutation.
Qed.

(** The completions are consumed. *)
Lemma advance_holds done fl kept lost ev w :
  holds (base done fl kept lost done []) ev w →
  wp (io_uring_cq_advance (lenZ done)) w (upon (λ _ w', holds (base [] fl kept lost [] []) ev w')).
Proof.
  intros [d [Hacc Hled Hrefs Hlk Hop Hrd Hq]]. simpl in *.
  pose proof (a_ok _ _ _ _ _ _ _ _ Hacc) as Hok. eapply wp_upon_mono.
  { apply wp_upon_and; [apply advance_ring; [done|apply Hacc]|].
    rewrite <- Hlk. by apply advance_history. }
  intros _ w' [(Hok' & Hring & Hseen) (Hopen & Hcl & Hlk')]. exists d. split; simpl; try done.
  - destruct Hacc as [? ? ? ? ? ? _ Hring0 _]. split; try done.
    rewrite Hring0 in Hring. symmetry. by apply Permutation_app_inv_l in Hring.
  - unfold ledger, live in *. simpl in *. by rewrite Hopen, Hcl.
Qed.

(** When nothing is in flight. *)
Definition at_end ev w : Prop :=
  in_flight_ ev = 0 ∧ overflow_done ev w ∧ ∃ fl kept lost, owned (reading_dirs fl kept lost []) ev w.

Lemma pump_round_holds ev w :
  at_rest ev w →
  wp (pump_round N h ev) w (upon (λ r w', match r with
    | inl ev' => at_rest ev' w'
    | inr (ev', Value _) => at_end ev' w'
    | inr (_, Unexpected _) => True
    end)).
Proof.
  intros (fl & kept & lost & Ho). unfold pump_round. apply wp_bind_upon.
  eapply wp_upon_mono; [by apply read_directories_moves; [|by apply take_directories]|].
  intros ev1 w1 Ho1. apply wp_bind_upon. eapply wp_upon_mono; [by apply overflow_holds|].
  intros ev2 w2 [Ho2 Hov]. pose proof Ho2 as [d2 [Hacc2 _ _ _ _ _ _]].
  destruct (a_free _ _ _ _ _ _ _ _ Hacc2) as [held Hheld]. simpl in Hheld. apply wp_bind_upon.
  eapply wp_upon_mono.
  { eapply (free_reads_holds _ _ _ (set_read_free [] ev2));
      [by apply take_given_back|done|exact Hheld|done|done]. }
  intros ev3 w3 [[d3 Ho3] Hov3]. specialize (Hov3 Hov). destruct (Z.eqb_spec (in_flight_ ev3) 0) as [Hz|Hz].
  { apply wp_ret. split_and!; [done|done|]. by exists (fl ++ d3), held, lost. }
  assert (holds (base [] fl held lost [] []) ev3 w3) as Ho4 by by exists d3; destruct Ho3; split.
  apply wp_bind_upon.
  eapply wp_upon_mono; [eapply holds_call; [apply submit_ring|apply submit_history|exact Ho4]|].
  intros res w4 [d4 Ho5]. destruct (res <? 0); [by apply wp_ret|]. apply wp_bind_upon.
  eapply wp_upon_mono; [by eapply (completions_holds (fl ++ d4))|]. intros cqes w5 (rest & Ho6).
  apply wp_bind_upon. eapply wp_upon_mono; [by eapply complete_all_holds|].
  intros [ev6 [[]|e]] w6; [|by intros; apply wp_ret].
  intros (kept' & lost' & Ho7). apply wp_bind_upon.
  assert (lenZ cqes = lenZ cqes.*2) as -> by (unfold lenZ; by rewrite length_fmap).
  eapply wp_upon_mono; [by apply (advance_holds _ rest kept' lost')|]. intros u w7 Ho8. apply wp_ret.
  by exists rest, kept', lost'.
Qed.

(** The requests that have been allocated. *)
Definition requests ev : Z :=
  4 * Z.of_nat N + lenZ (pool_overflow_ (openat_request_pool_ ev)) +
  lenZ (pool_overflow_ (close_request_pool_ ev)) + lenZ (pool_overflow_ (read_request_pool_ ev)) +
  lenZ (pool_overflow_ (write_request_pool_ ev)).

Lemma length_ptrs fl :
  lenZ fl = lenZ (ptrs OPENAT fl) + lenZ (ptrs CLOSE fl) + lenZ (ptrs READ fl) + lenZ (ptrs WRITE fl).
Proof.
  induction fl as [|[[] r] fl IH]; [done|..]; simpl; rewrite !lenZ_cons; lia.
Qed.

Lemma busy_bound {T} (p : RequestPool T) busy :
  pool_ok N p busy → lenZ busy ≤ Z.of_nat N + lenZ (pool_overflow_ p).
Proof.
  intros [_ Hp _ _]. apply Permutation_length in Hp. unfold places in Hp.
  rewrite !length_app, !length_fmap, !length_seq in Hp. unfold lenZ. lia.
Qed.

(** At the end nothing is open. *)
Lemma at_end_closed ev w :
  at_end ev w → requests ev + 2 < size_max → opened w ≡ₚ closes w.
Proof.
  intros (Hz & Hov & fl & kept & lost & [Hacc [Hled _] Hrefs _ _ _ Hq]) Hsz. simpl in *.
  assert (lenZ fl + lenZ lost ≤ requests ev) as Hb.
  { destruct Hacc as [Hbo Hbc Hbr Hbw _ _ _ _ _]. apply busy_bound in Hbo, Hbc, Hbr, Hbw.
    rewrite !lenZ_app in Hbr. rewrite (length_ptrs fl). unfold requests.
    pose proof (lenZ_nonneg kept). lia. }
  pose proof (lenZ_nonneg fl). pose proof (lenZ_nonneg lost).
  destruct Hacc as [_ _ _ _ Hn _ _ Hring _]. rewrite Hz, wrap64_small in Hn by lia.
  assert (fl = []) as -> by (apply lenZ_nil_inv; lia).
  assert (lost = []) as -> by (apply lenZ_nil_inv; lia).
  apply Permutation_nil_r in Hring. destruct (Hov Hring) as (Hso & Hsc & Hsr).
  assert (dirs ev = []) as Hdirs.
  { unfold dirs. assert (dir_ref_count_ ev = ∅) as ->; [|by rewrite dom_empty_L].
    apply map_empty. intros fd. rewrite Hrefs; [|unfold small, requests in *].
    - unfold parents. rewrite Hso. done.
    - pose proof (lenZ_nonneg (pool_overflow_ (close_request_pool_ ev))).
      pose proof (lenZ_nonneg (pool_overflow_ (read_request_pool_ ev))).
      pose proof (lenZ_nonneg (pool_overflow_ (write_request_pool_ ev))). lia. }
  rewrite Hled. unfold live, owed, reading, waiting_closes. simpl.
  by rewrite Hdirs, (Hq []), Hsr, Hsc.
Qed.

(** The whole loop. *)
Lemma pump_holds ev w :
  at_rest ev w →
  wp (pump N h ev) w (upon (λ '(ev', r) w', match r with
    | Value _ => requests ev' + 2 < size_max → opened w' ≡ₚ closes w'
    | Unexpected _ => True
    end)).
Proof.
  intros Ho. apply (wp_loop_upon _ at_rest); [|done]. clear ev w Ho. intros ev w Ho.
  eapply wp_upon_mono; [by apply pump_round_holds|]. intros [ev'|[ev' [u|e]]] w'; [done| |done].
  apply at_end_closed.
Qed.

(** A new loop. *)
Lemma new_loop_at_rest w :
  ring_ok w → in_ring w = [] → seen [] w → looked w = [] → opened w ≡ₚ closes w →
  at_rest (EventLoop_members N) w.
Proof.
  intros Hok Hring Hseen Hlk Hl. exists [], [], [], []. split; simpl; try done.
  - by apply new_loop_accounted.
  - split; [done|apply NoDup_nil_2].
  - by intros ? ? []%not_elem_of_nil.
  - by intros ? ? []%not_elem_of_nil.
Qed.

End descriptors.

(** The paths a run starts from. *)
Fixpoint queue_paths {W} `{Ring W} (paths : list (string * Z)) (ev : EventLoop) : M W EventLoop :=
  match paths with
  | [] => mret ev
  | (path, flags) :: paths => ev ← queue_openat AT_FDCWD path flags ev; queue_paths paths ev
  end.

Lemma queue_paths_rest {W} `{RingHistory W} N paths (ev : EventLoop) (w : W) :
  at_rest N ev w → wp (queue_paths paths ev) w (upon (at_rest N)).
Proof.
  revert ev w. induction paths as [|[path flags] paths IH]; intros ev w Ho; cbn [queue_paths].
  { by apply wp_ret. }
  destruct Ho as (fl & kept & lost & Ho). apply wp_bind_upon.
  eapply wp_upon_mono; [by apply (queue_openat_moves N _ _ _ (base [] fl kept lost [] []))|].
  intros ev' w' Ho'. apply IH. by exists fl, kept, lost.
Qed.

(** C24. The event loop closes what it opens. A new loop is given any paths to
    open, and handlers that hand on every descriptor they get to one of the
    loop's operations and put no directory into the queue while one is read.
    When [pump] then returns success, the descriptors that the openings have
    brought and those whose closing has been asked for are the same, each as
    often: nothing is left open and nothing is closed twice, however files are
    read in parts, directories are counted by the openings below them and
    requests wait for room in the ring. Assumed of the system is that an
    opening brings a descriptor that is not open, and of the sizes that the
    loop has not allocated [2^64] requests. *)
Theorem event_loop_closes_what_it_opens {W} `{Kernel W} `{RingHistory W} {F : Fuel} (N : nat)
    (h : handlers (W := W)) (paths : list (string * Z)) (w : W) :
  handlers_hand_on N h →
  ring_ok w → in_ring w = [] → seen [] w → looked w = [] → opened w ≡ₚ closes w →
  wp (ev ← queue_paths paths (EventLoop_members N); pump N h ev) w
    (upon (λ '(ev', r) w', match r with
     | Value _ => requests N ev' + 2 < size_max → opened w' ≡ₚ closes w'
     | Unexpected _ => True
     end)).
Proof.
  intros Hh Hok Hring Hseen Hlk Hl. apply wp_bind_upon.
  eapply wp_upon_mono; [by apply queue_paths_rest, new_loop_at_rest|].
  intros ev' w'. by apply pump_holds.
Qed.

(** ** An example *)

(** A system with room for [f_entries] more requests, the requests filled in,
    those whose completions have been looked at with their results, the next
    descriptor, the directories that have been listed, and the history. *)
Record files := Files {
  f_entries : nat; f_filled : list (sqe_op * (Op * ptr)); f_seen : list (Z * (Op * ptr));
  f_next : Z; f_listed : list Z; f_opened : list Z; f_closes : list Z
}.

#[local] Instance files_kernel : Kernel files := {|
  sys_write _ _ := undefined; sys_pread _ _ _ := undefined; sys_splice _ _ _ := undefined;
  sys_copy_file_range _ _ _ := undefined; sys_sendfile _ _ _ _ := undefined;
  sys_pipe := undefined; sys_setpipe_sz _ _ := undefined; sys_openat _ _ _ := undefined;
  sys_close _ := undefined; sys_statx _ := undefined; sys_fadvise _ _ _ _ := undefined;
  sys_isatty _ := undefined; sys_mmap _ _ := undefined; sys_munmap _ _ := undefined;
  std_cout _ := undefined; errno _ := 0; strerror _ := ""%string
|}.

(** Every directory holds two files. *)
Definition two_files : bytes :=
  encode [(Dirent 1 0 24 DT_REG (str "one"), str "x"); (Dirent 2 0 24 DT_REG (str "two"), str "x")].

#[local] Instance files_dirs : DirKernel files := {|
  sys_getdents64 fd _ w :=
    if bool_decide (fd ∈ f_listed w) then (Done (0, []), w)
    else (Done (lenZ two_files, two_files),
          Files (f_entries w) (f_filled w) (f_seen w) (f_next w) (fd :: f_listed w) (f_opened w)
            (f_closes w));
  println_cerr _ := mret ()
|}.

#[local] Instance files_ring : Ring files := {|
  RequestPool.io_uring_get_sqe w :=
    match f_entries w with
    | O => (Done None, w)
    | S n => (Done (Some (Z.of_nat n)),
              Files n (f_filled w) (f_seen w) (f_next w) (f_listed w) (f_opened w) (f_closes w))
    end;
  io_uring_prep _ o data w :=
    (Done (), Files (f_entries w) (f_filled w ++ [(o, data)]) (f_seen w) (f_next w) (f_listed w)
                (f_opened w) (f_closes w ++ close_of o))
|}.

(** An opening gets the next descriptor, and a file has three bytes. *)
Fixpoint perform (next : Z) (es : list (sqe_op * (Op * ptr))) : list (Z * (Op * ptr)) * Z :=
  match es with
  | [] => ([], next)
  | (o, d) :: es =>
      match d.1, o with
      | OPENAT, _ => let '(rs, next') := perform (next + 1) es in ((next, d) :: rs, next')
      | _, SqeRead _ _ offset => let '(rs, next') := perform next es in ((3 - offset, d) :: rs, next')
      | _, _ => let '(rs, next') := perform next es in ((0, d) :: rs, next')
      end
  end.

#[local] Instance files_queue : RingQueue files := {|
  io_uring_queue_init _ _ := mret 0;
  io_uring_submit w := (Done (lenZ (f_filled w)), w);
  io_uring_completions w :=
    let '(rs, next) := perform (f_next w) (f_filled w) in
    (Done (f_seen w ++ rs),
     Files (f_entries w) [] (f_seen w ++ rs) next (f_listed w) (f_opened w ++ opens rs) (f_closes w));
  io_uring_cq_advance n w :=
    (Done (), Files (f_entries w + Z.to_nat n) (f_filled w) (dropZ n (f_seen w)) (f_next w)
                (f_listed w) (f_opened w) (f_closes w))
|}.

#[local] Instance files_view : RingView files := {|
  ring_ok w := ((0 < f_entries w)%nat ∨ (f_seen w).*2 ++ (f_filled w).*2 ≠ []) ∧
               Forall (λ fd, fd < f_next w) (f_opened w);
  in_ring w := (f_seen w).*2 ++ (f_filled w).*2;
  seen sn w := sn `prefix_of` (f_seen w).*2
|}.

Lemma perform_law next es rs next' :
  perform next es = (rs, next') →
  next ≤ next' ∧ rs.*2 = es.*2 ∧ NoDup (opens rs) ∧ Forall (λ fd, next ≤ fd < next') (opens rs).
Proof.
  revert next rs. induction es as [|[o [p r]] es IH]; intros next rs Hp.
  { simplify_eq/=. split_and!; [lia|done|apply NoDup_nil_2|done]. }
  destruct p.
  { cbn in Hp. destruct (perform (next + 1) es) as [rs' n'] eqn:Hrs. simplify_eq.
    destruct (IH _ _ Hrs) as (Hle & Hd & Hnd & Hall). rewrite opens_cons, !fmap_cons, Hd.
    assert (Forall (λ fd, next ≤ fd < next') (opens rs')) as Hall'
      by (eapply Forall_impl; [exact Hall|]; simpl; lia).
    split_and!; [lia|done|..]; simpl; (destruct (0 <=? next); simpl; [|done]).
    - apply NoDup_cons. split; [|done]. rewrite Forall_forall in Hall. intros Hin%Hall. lia.
    - apply Forall_cons. split; [lia|done]. }
  all: destruct o; cbn in Hp; destruct (perform next es) as [rs' n'] eqn:Hrs; simplify_eq;
    destruct (IH _ _ Hrs) as (Hle & Hd & Hnd & Hall); rewrite opens_cons, !fmap_cons, Hd;
    by split_and!.
Qed.

#[local] Instance files_lawful : LawfulRing files.
Proof.
  refine {| ring_taken w sqe w' := ring_ok w ∧ f_filled w' = f_filled w ∧ f_seen w' = f_seen w ∧
              f_next w' = f_next w ∧ f_opened w' = f_opened w |}.
  - intros w Hok. unfold wp. cbn -[ring_ok]. destruct (f_entries w); [by apply ring_keeps_refl|done].
  - intros sqe o data w0 w ([_ Hall] & Hf & Hs & Hn & Hop). unfold wp. simpl.
    split; simpl; rewrite ?Hf, ?Hs, ?Hn, ?Hop, ?fmap_app; [|by rewrite (assoc_L (++))|done].
    split; [|done]. right. simpl. by destruct (f_seen w0), (f_filled w0).
Defined.

#[local] Instance files_queue_lawful : LawfulQueue files.
Proof.
  split; intros; unfold wp; simpl; try by apply ring_keeps_refl.
  - match goal with Hok : ring_ok w |- _ => destruct Hok as [Hroom Hall] end.
    destruct (perform (f_next w) (f_filled w)) as [rs next'] eqn:Hp. simpl.
    destruct (perform_law _ _ _ _ Hp) as (Hle & Hd & _ & Hnew). rewrite fmap_app, Hd, app_nil_r.
    split_and!; [|done|done]. split; simpl; rewrite ?fmap_app, ?Hd, ?app_nil_r; [|done|].
    + split; [done|]. apply Forall_app. split; eapply Forall_impl; [exact Hall| |exact Hnew|]; simpl; lia.
    + intros sn [l Hl]. exists (l ++ (f_filled w).*2). by rewrite Hl, (assoc_L (++)).
  - match goal with Hs : seen _ _, Hok : ring_ok w |- _ => destruct Hs as [l Hl], Hok as [Hroom Hall] end.
    rewrite dropZ_drop, fmap_drop, Hl. unfold lenZ. rewrite Nat2Z.id, drop_app_length.
    split; [|split; [by rewrite <- (assoc_L (++))|apply prefix_nil]]. split; [|done].
    rewrite Hl in Hroom. destruct sn; [|left; simpl; lia]. simpl in *. by rewrite Nat.add_0_r.
  - match goal with Hok : ring_ok w |- _ => pose proof Hok as Hok' end.
    case_bool_decide; simpl; [by apply ring_keeps_refl|].
    split; [done|by rewrite app_nil_r|done].
Defined.

#[local] Instance files_history : RingHistory files.
Proof.
  refine {| opened := f_opened; closes := f_closes; looked w := (f_seen w).*2 |}; intros; unfold wp; simpl.
  - match goal with Hok : ring_ok w |- _ => destruct Hok as [Hroom _] end.
    destruct (f_entries w); simpl; split_and!; try done. intros _. by destruct Hroom as [?%Nat.lt_irrefl|].
  - done.
  - done.
  - match goal with Hok : ring_ok w |- _ => destruct Hok as [_ Hall] end.
    destruct (perform (f_next w) (f_filled w)) as [rs next'] eqn:Hp. simpl.
    destruct (perform_law _ _ _ _ Hp) as (Hle & Hd & Hnd & Hnew).
    assert (f_seen w = []) as Hs by by destruct (f_seen w). rewrite Hs. simpl. split_and!; try done.
    intros live Hlive Hopen. apply NoDup_app. split_and!; [done| |done].
    intros fd Hin Hin'. rewrite Forall_forall in Hall, Hnew. apply Hnew in Hin'.
    assert (fd ∈ f_opened w) as ?%Hall by (rewrite Hopen; set_solver). lia.
  - split_and!; [done..|]. rewrite dropZ_drop, fmap_drop. unfold lenZ. rewrite Nat2Z.id. apply drop_all.
  - by case_bool_decide.
  - done.
Defined.

(** Handlers that read files and open what directories hold. *)
Definition walking_handlers {W} `{Ring W} : handlers (W := W) :=
  mkHandlers (λ ev fd is_file, if is_file then queue_read fd 0 ev else queue_getdents fd ev)
    (λ ev fd is_file name, queue_openat fd (String.string_of_list_byte name) 0 ev) (λ ev, mret ev)
    (λ ev r, ev ← free_read_request r ev; mret (ev, Value 1)) (λ ev _ _, mret ev).

Lemma walking_handlers_hand_on {W} `{RingHistory W} N : handlers_hand_on N (walking_handlers (W := W)).
Proof.
  split; simpl.
  - intros fd [] g Hq _; [apply queue_read_moves|by apply queue_getdents_moves].
  - intros. by apply queue_openat_moves.
  - intros. apply moves_ret.
  - intros r g ev w held _ _ [d [Hacc Hled Hrefs Hlk Hop Hrd Hq]] Hk. unfold wp. simpl in *. exists d.
    split; simpl; try done. destruct Hacc. split; simpl; try done. exists held. rewrite Hk. solve_Permutation.
  - intros. apply moves_ret.
Qed.

(** Witness: a directory that holds two files, and a file, through a ring that
    has room for one request. *)
Lemma event_loop_closes_what_it_opens_witness :
  let F := 40%nat : Fuel in
  let w := Files 1 [] [] 3 [] [] [] in
  let run : M files (EventLoop * expected unit) :=
    ev ← queue_paths [("dir", O_DIRECTORY); ("file", 0)] (EventLoop_members 2);
    pump 2 walking_handlers ev in
  wp run w (upon (λ '(ev', r) w', match r with
     | Value _ => requests 2 ev' + 2 < size_max → opened w' ≡ₚ closes w'
     | Unexpected _ => True
     end)) ∧
  match run w with
  | (Done (ev', Value _), w') =>
      f_opened w' = [3; 4; 5; 6] ∧ f_closes w' = [3; 4; 5; 6] ∧ requests 2 ev' = 11
  | _ => False
  end.
Proof.
  intros F w run. split; [|vm_compute; split_and!; reflexivity].
  refine (event_loop_closes_what_it_opens (F := F) 2 walking_handlers
            [("dir", O_DIRECTORY); ("file", 0)] w _ _ _ _ _ _).
  - apply walking_handlers_hand_on.
  - split; [left; simpl; lia|apply Forall_nil_2].
  - reflexivity.
  - apply prefix_nil.
  - reflexivity.
  - reflexivity.
Defined.
