(* ===== verification/RegexHandler.v ===== *)
(** utils/regex_handler.h: search threads for the event loop.

    Requests that have been read wait in a queue; worker threads take them,
    search them, collect what they find in a buffer of their own, and write the
    buffer to the standard output when it is large and when they leave. The
    model is one worker among others: whatever the other threads do to the
    shared members between two of its critical sections is a list of events. *)

From S2P Require Import Prelude Kernel SimKernel Lines Regex RequestPool.

(** [impl::Match] and [impl::Context] of this header *)
Record SpanMatch := mkSpanMatch { match_begin : Z; match_end : Z }.

(** The match callback of this header keeps both ends. *)
Definition on_span_match (ms : list SpanMatch) (from_to : Z * Z) : list SpanMatch :=
  ms ++ [mkSpanMatch from_to.1 from_to.2].

(** The text a match prints: from its start to its end, without line breaks in
    front. *)
Definition span_text (data : bytes) (m : SpanMatch) : bytes :=
  trim_front (takeZ (match_end m - match_begin m) (dropZ (match_begin m) data)).

Definition write_threshold : Z := 4096.

(** [hs_clone_scratch] *)
Class ScratchCloner (Scratch : Type) := hs_clone_scratch : option Scratch → Z * option Scratch.

(** The bound of the loop that starts the workers. *)
Definition worker_count (hardware_concurrency : Z) : Z := (hardware_concurrency -ₛ 1) `max` 4.

Section regex_handler.
Context {W DB Scratch : Type} `{Kernel W} `{Hyperscan DB Scratch} `{ScratchCloner Scratch} {F : Fuel}.

(** The members a worker reads and changes; [freed] are the requests it has
    given back to the event loop, [elsewhere] those another worker took. *)
Record RegexHandler := mkRegexHandler {
  rh_db : option DB;
  rh_scratch : option Scratch;
  to_process : list ReadRequest;
  rh_running : bool;
  freed : list ReadRequest;
  elsewhere : list ReadRequest
}.

(** [RegexHandler(ev, regex)]: the members, and how many workers it starts. *)
Definition RegexHandler_new (regex : string) (hardware_concurrency : Z) : M W (RegexHandler * Z) :=
  let '(res, db, message) :=
    hs_compile regex (Z.lor HS_FLAG_MULTILINE HS_FLAG_SOM_LEFTMOST) HS_MODE_BLOCK in
  if negb (res =? HS_SUCCESS) then
    throw ("failed to compile regex: " +:+ regex +:+ " [" +:+ message +:+ "]")
  else
    let '(res, scratch) := hs_alloc_scratch db in
    if negb (res =? HS_SUCCESS) then
      throw ("failed to create scratch space: " +:+ pretty res)
    else mret (mkRegexHandler db scratch [] true [] [], worker_count hardware_concurrency).

(** [operator()(ReadRequest *req)] *)
Definition RegexHandler_call (req : ReadRequest) (h : RegexHandler) : RegexHandler * expected Z :=
  (mkRegexHandler (rh_db h) (rh_scratch h) (to_process h ++ [req]) (rh_running h) (freed h)
     (elsewhere h), Value 1).

(** [~RegexHandler()] *)
Definition RegexHandler_stop (h : RegexHandler) : RegexHandler :=
  mkRegexHandler (rh_db h) (rh_scratch h) (to_process h) false (freed h) (elsewhere h).

(** What the other threads can do: the event loop passes on a request, the
    handler is destroyed, another worker takes the front of the queue. *)
Inductive event := Call (req : ReadRequest) | Stop | Taken.

Definition happen (h : RegexHandler) (e : event) : RegexHandler :=
  match e with
  | Call req => (RegexHandler_call req h).1
  | Stop => RegexHandler_stop h
  | Taken =>
      match to_process h with
      | [] => h
      | req :: rest =>
          mkRegexHandler (rh_db h) (rh_scratch h) rest (rh_running h) (freed h)
            (elsewhere h ++ [req])
      end
  end.

(** [cv.wait(lock, pred)]: the lock is given up and taken again until the
    predicate holds; [env] lists what happens before each time it is taken. A
    wait that nobody ends never returns. *)
Fixpoint cv_wait (env : list (list event)) (h : RegexHandler)
    : M W (list (list event) * RegexHandler) :=
  if negb (rh_running h) || negb (bool_decide (to_process h = [])) then mret (env, h)
  else
    match env with
    | [] => λ w, (Blocked, w)
    | es :: env => cv_wait env (foldl happen h es)
    end.

(** [for (const auto &[begin, end] : ctx.matches)]: the result of [write] is
    not looked at. *)
Fixpoint collect_matches (data : bytes) (ms : list SpanMatch) (write_buffer : bytes)
    : M W bytes :=
  match ms with
  | [] => mret write_buffer
  | m :: ms =>
      let write_buffer := write_buffer ++ span_text data m ++ [nl] in
      if write_threshold <? lenZ write_buffer then
        _ ← sys_write STDOUT_FILENO write_buffer;
        collect_matches data ms []
      else collect_matches data ms write_buffer
  end.

(** The search of one request. *)
Definition process_request (db : option DB) (local_scratch : option Scratch) (req : ReadRequest)
    (write_buffer : bytes) : M W bytes :=
  let data := takeZ (rd_res req) (rd_buffer req) in
  let '(res, events) := hs_scan db data local_scratch in
  if negb (res =? HS_SUCCESS) then throw "failed to parse input"
  else collect_matches data (foldl on_span_match [] events) write_buffer.

(** One round of [while (running)]. *)
Definition rx_round (local_scratch : option Scratch)
    (s : list (list event) * RegexHandler * bytes)
    : M W ((list (list event) * RegexHandler * bytes) + (RegexHandler * bytes)) :=
  let '(env, h, write_buffer) := s in
  if negb (rh_running h) then mret (inr (h, write_buffer))
  else
    '(env, h) ← (match env with
                 | [] => cv_wait [] h
                 | es :: env => cv_wait env (foldl happen h es)
                 end);
    if negb (rh_running h) then mret (inr (h, write_buffer))
    else
      match to_process h with
      | [] => undefined
      | req :: rest =>
          write_buffer ← process_request (rh_db h) local_scratch req write_buffer;
          mret (inl (env, mkRegexHandler (rh_db h) (rh_scratch h) rest (rh_running h)
                            (freed h ++ [req]) (elsewhere h), write_buffer))
      end.

(** The rest of [worker]: write what is left. *)
Definition rx_flush (write_buffer : bytes) : M W unit :=
  if bool_decide (write_buffer = []) then mret ()
  else _ ← sys_write STDOUT_FILENO write_buffer; mret ().

(** [worker()], while [env] happens around it *)
Definition rx_worker (env : list (list event)) (h : RegexHandler) : M W RegexHandler :=
  let '(scratch_res, local_scratch) := hs_clone_scratch (rh_scratch h) in
  if negb (scratch_res =? HS_SUCCESS) then
    throw ("failed to create local cratch space: " +:+ pretty scratch_res)
  else
    '(h, write_buffer) ← loop fuel (rx_round local_scratch) (env, h, []);
    _ ← rx_flush write_buffer;
    mret h.

End regex_handler.
Arguments RegexHandler : clear implicits.

(** ** What a worker prints *)

(** A kernel whose writes to the standard output are complete. *)
Definition FullWrite {W} `{LawfulKernel W} : Prop :=
  ∀ d (w : W), lenZ d < size_max → d ≠ [] →
    wp (sys_write STDOUT_FILENO d) w (returns (λ _ w', view_of w' = emit d (view_of w))).

(** The requests that events bring. *)
Definition calls (es : list event) : list ReadRequest :=
  omap (λ e, match e with Call req => Some req | _ => None end) es.

(** What is printed for a request. *)
Definition spans {DB Scratch} `{Hyperscan DB Scratch} (db : option DB) (sc : option Scratch)
    (req : ReadRequest) : bytes :=
  let data := takeZ (rd_res req) (rd_buffer req) in
  unlines (span_text data <$> ((λ m, mkSpanMatch m.1 m.2) <$> (hs_scan db data sc).2)).

Section events.
Context {DB Scratch : Type}.
Implicit Types h : RegexHandler DB Scratch.

(** Events lose no request and leave alone what this worker keeps. *)
Lemma happen_all h es :
  let h' := foldl happen h es in
  rh_db h' = rh_db h ∧ rh_scratch h' = rh_scratch h ∧ freed h' = freed h ∧
  elsewhere h' ++ to_process h' ≡ₚ elsewhere h ++ to_process h ++ calls es ∧
  (rh_running h' = false ↔ rh_running h = false ∨ Stop ∈ es).
Proof.
  revert h. induction es as [|e es IH]; intros h; simpl.
  { rewrite app_nil_r. set_solver. }
  destruct (IH (happen h e)) as (-> & -> & -> & -> & ->). rewrite elem_of_cons.
  destruct e as [req| |]; simpl.
  - split_and!; [done..| |naive_solver]. rewrite <- (assoc_L (++)). solve_Permutation.
  - split_and!; [done..|naive_solver].
  - destruct (to_process h) as [|q rest] eqn:Hq; simpl.
    + rewrite Hq. split_and!; [done..|naive_solver].
    + split_and!; [done..| |naive_solver]. by rewrite <- (assoc_L (++)).
Qed.

Lemma cv_wait_law {W} env h (w : W) :
  Stop ∈ concat env ∨ rh_running h = false →
  ∃ pre env' h', cv_wait env h w = (Done (env', h'), w) ∧ env = pre ++ env' ∧
    h' = foldl happen h (concat pre) ∧ (rh_running h' = false ∨ to_process h' ≠ []).
Proof.
  revert h. induction env as [|es env IH]; intros h Hstop; cbn [cv_wait];
    destruct (negb (rh_running h) || negb (bool_decide (to_process h = []))) eqn:Hp.
  1, 3: eexists [], _, h; split_and!; [done..|];
    apply orb_true_iff in Hp as [Hp%negb_true_iff|Hp%negb_true_iff%bool_decide_eq_false_1]; auto.
  - apply orb_false_iff in Hp as [Hp%negb_false_iff _]. rewrite Hp in Hstop.
    by destruct Hstop as [?%elem_of_nil|?].
  - apply orb_false_iff in Hp as [Hp%negb_false_iff _].
    destruct (happen_all h es) as (_ & _ & _ & _ & Hrun).
    destruct (IH (foldl happen h es)) as (pre & env' & h' & -> & -> & -> & Hh').
    { rewrite Hrun. simpl in Hstop. rewrite elem_of_app in Hstop. naive_solver. }
    exists (es :: pre), env'. eexists. split_and!; [done|done| |done]. simpl. by rewrite foldl_app.
Qed.

End events.

#[local] Instance lenZ_Permutation {A} : Proper ((≡ₚ) ==> (=)) (lenZ (A := A)).
Proof. intros l l' Hl. unfold lenZ. by rewrite Hl. Qed.

Section rx_laws.
Context {W DB Scratch : Type} `{LawfulKernel W} `{Hyperscan DB Scratch}.

Lemma foldl_on_span_match events ms :
  foldl on_span_match ms events = ms ++ ((λ m, mkSpanMatch m.1 m.2) <$> events).
Proof.
  revert ms. induction events as [|e events IH]; intros ms; simpl; [by rewrite app_nil_r|].
  rewrite IH. unfold on_span_match. by rewrite <- (assoc_L (++)).
Qed.

Lemma collect_matches_law data ms buf (w : W) :
  FullWrite (W := W) → lenZ buf + lenZ (unlines (span_text data <$> ms)) < size_max →
  wp (collect_matches data ms buf) w (returns (λ buf' w', ∃ bs,
    view_of w' = emit bs (view_of w) ∧ bs ++ buf' = buf ++ unlines (span_text data <$> ms))).
Proof.
  intros Hfull. revert buf w. induction ms as [|m ms IH]; intros buf w Hsz.
  { apply wp_ret. exists []. rewrite emit_nil. by rewrite app_nil_r. }
  rewrite fmap_cons, unlines_cons in *. cbn [collect_matches].
  assert (Heq : buf ++ span_text data m ++ nl :: unlines (span_text data <$> ms) =
                (buf ++ span_text data m ++ [nl]) ++ unlines (span_text data <$> ms))
    by by rewrite <- !(assoc_L (++)).
  rewrite <- lenZ_app, Heq, lenZ_app in Hsz. rewrite Heq.
  set (buf1 := buf ++ span_text data m ++ [nl]) in *.
  pose proof (lenZ_nonneg (unlines (span_text data <$> ms))). pose proof (lenZ_nonneg buf1).
  case_match.
  - apply wp_bind_returns. eapply wp_returns_mono.
    { apply Hfull; [lia|]. unfold buf1. destruct buf, (span_text data m); done. }
    intros z w1 Hv1. eapply wp_returns_mono; [apply IH; rewrite lenZ_nil; lia|].
    intros buf' w2 (bs & Hv2 & Hbs). exists (buf1 ++ bs).
    split; [by rewrite Hv2, Hv1, emit_emit|]. by rewrite <- (assoc_L (++)), Hbs.
  - apply IH. lia.
Qed.

Lemma process_request_law (db : option DB) (sc : option Scratch) req buf (w : W) :
  FullWrite (W := W) →
  (hs_scan db (takeZ (rd_res req) (rd_buffer req)) sc).1 = HS_SUCCESS →
  lenZ buf + lenZ (spans db sc req) < size_max →
  wp (process_request db sc req buf) w (returns (λ buf' w', ∃ bs,
    view_of w' = emit bs (view_of w) ∧ bs ++ buf' = buf ++ spans db sc req)).
Proof.
  intros Hfull Hok Hsz. unfold process_request, spans in *.
  destruct (hs_scan _ _ _) as [res events]. simpl in *. subst res. simpl.
  rewrite foldl_on_span_match. by apply collect_matches_law.
Qed.

Lemma rx_flush_law buf (w : W) :
  FullWrite (W := W) → lenZ buf < size_max →
  wp (rx_flush buf) w (returns (λ _ w', view_of w' = emit buf (view_of w))).
Proof.
  intros Hfull Hsz. unfold rx_flush. case_bool_decide as Hnil.
  - subst buf. apply wp_ret. by rewrite emit_nil.
  - apply wp_bind_returns. eapply wp_returns_mono; [by apply Hfull|].
    intros z w1 Hv. by apply wp_ret.
Qed.

(** ** The loop of a worker *)
Context `{ScratchCloner Scratch} {F : Fuel}.
Context (sc : option Scratch) (env0 : list (list event)) (h0 : RegexHandler DB Scratch) (w0 : W).
Context (Hfull : FullWrite (W := W)).
Context (Hscan : ∀ data, (hs_scan (rh_db h0) data sc).1 = HS_SUCCESS).

(** Every request the worker could see. *)
Definition all_requests : list ReadRequest :=
  elsewhere h0 ++ to_process h0 ++ calls (concat env0).

Context (Hsize : lenZ (concat (spans (rh_db h0) sc <$> all_requests)) < size_max).

(** The handler is what [env0] and this worker's own steps make of [h0], and
    what the worker has found so far is printed or in its buffer. *)
Record rx_inv (env : list (list event)) (h : RegexHandler DB Scratch) (done : list ReadRequest)
    : Prop := {
  rx_db : rh_db h = rh_db h0;
  rx_stop : Stop ∈ concat env ∨ rh_running h = false;
  rx_freed : freed h = freed h0 ++ done;
  rx_kept : ∃ used, concat env0 = used ++ concat env ∧
    done ++ elsewhere h ++ to_process h ≡ₚ elsewhere h0 ++ to_process h0 ++ calls used
}.

Definition rx_printed (done : list ReadRequest) (buf : bytes) (w : W) : Prop :=
  ∃ bs, view_of w = emit bs (view_of w0) ∧ bs ++ buf = concat (spans (rh_db h0) sc <$> done).

(** What has been taken is part of what could be seen. *)
Lemma rx_size env h done :
  rx_inv env h done → lenZ (concat (spans (rh_db h0) sc <$> done)) < size_max.
Proof.
  intros [_ _ _ (used & Henv & Hp)]. eapply Z.le_lt_trans; [|exact Hsize].
  assert (all_requests ≡ₚ done ++ elsewhere h ++ to_process h ++ calls (concat env)) as ->.
  { unfold all_requests. rewrite Henv. unfold calls in *. rewrite omap_app.
    rewrite !(assoc_L (++)) in *. by rewrite Hp. }
  rewrite fmap_app, concat_app, lenZ_app.
  match goal with |- _ ≤ _ + lenZ ?x => pose proof (lenZ_nonneg x) end. lia.
Qed.

(** The other threads do something. *)
Lemma rx_inv_happen pre env h done :
  rx_inv (pre ++ env) h done → rx_inv env (foldl happen h (concat pre)) done.
Proof.
  intros [Hdb Hstop Hfr (used & Henv & Hp)].
  destruct (happen_all h (concat pre)) as (Hdb' & _ & Hfr' & Hp' & Hrun).
  split; [congruence| |congruence|].
  - rewrite Hrun. rewrite concat_app, elem_of_app in Hstop. tauto.
  - exists (used ++ concat pre). rewrite concat_app in Henv. split; [by rewrite <- (assoc_L (++))|].
    rewrite Hp'. unfold calls in *. rewrite omap_app, !(assoc_L (++)) in *. by rewrite Hp.
Qed.

(** The worker takes the front of the queue. *)
Lemma rx_inv_take env h req rest done :
  to_process h = req :: rest → rx_inv env h done →
  rx_inv env (mkRegexHandler (rh_db h) (rh_scratch h) rest (rh_running h) (freed h ++ [req])
                (elsewhere h)) (done ++ [req]).
Proof.
  intros Hq [Hdb Hstop Hfr (used & Henv & Hp)]. split; simpl; try done.
  - by rewrite Hfr, (assoc_L (++)).
  - exists used. split; [done|]. rewrite <- Hp, Hq. solve_Permutation.
Qed.

Lemma rx_round_law env h done buf (w : W) :
  rx_inv env h done → rx_printed done buf w →
  wp (rx_round sc (env, h, buf)) w (returns (λ r w', match r with
    | inl (env', h', buf') => (length env' < length env)%nat ∧
        ∃ done', rx_inv env' h' done' ∧ rx_printed done' buf' w'
    | inr (h', buf') => rh_running h' = false ∧
        ∃ env' done', rx_inv env' h' done' ∧ rx_printed done' buf' w'
    end)).
Proof.
  intros Hinv Hpr. unfold rx_round. destruct (rh_running h) eqn:Hrun; simpl.
  2: { apply wp_ret. split; [done|]. by exists env, done. }
  destruct env as [|es env].
  { destruct (rx_stop _ _ _ Hinv) as [?%elem_of_nil|?]; [done|congruence]. }
  apply (rx_inv_happen [es]) in Hinv. simpl in Hinv. rewrite app_nil_r in Hinv.
  set (h1 := foldl happen h es) in *.
  destruct (cv_wait_law env h1 w) as (pre & env' & h' & Hw & -> & -> & Hready).
  { by apply rx_stop in Hinv. }
  apply rx_inv_happen in Hinv. set (h2 := foldl happen h1 (concat pre)) in *.
  apply wp_bind_returns. rewrite (wp_unfold _ _ _ _ _ Hw). simpl.
  destruct (rh_running h2) eqn:Hrun2; simpl.
  2: { apply wp_ret. split; [done|]. by exists env', done. }
  destruct Hready as [|Hq]; [congruence|].
  destruct (to_process h2) as [|req rest] eqn:Hq2; [done|].
  pose proof (rx_inv_take _ _ _ _ _ Hq2 Hinv) as Hinv'. rewrite Hrun2 in Hinv'.
  pose proof (rx_size _ _ _ Hinv') as Hsz. destruct Hpr as (bs & Hv & Hbs).
  rewrite fmap_app, concat_app, <- Hbs in Hsz. cbn in Hsz. rewrite app_nil_r, !lenZ_app in Hsz.
  pose proof (lenZ_nonneg bs). rewrite (rx_db _ _ _ Hinv) in *.
  apply wp_bind_returns. eapply wp_returns_mono; [apply process_request_law; [done|done|lia]|].
  intros buf' w' (bs' & Hv' & Hbs'). apply wp_ret. split; [rewrite length_app; simpl; lia|].
  exists (done ++ [req]). split; [done|]. exists (bs ++ bs').
  rewrite Hv', Hv, emit_emit. split; [done|].
  rewrite fmap_app, concat_app, <- Hbs. simpl. by rewrite app_nil_r, <- !(assoc_L (++)), Hbs'.
Qed.

(** A worker that will be stopped. *)
Lemma rx_worker_law :
  hs_clone_scratch (rh_scratch h0) = (HS_SUCCESS, sc) →
  Stop ∈ concat env0 → (length env0 < fuel)%nat →
  wp (rx_worker env0 h0) w0 (returns (λ h' w', rh_running h' = false ∧ ∃ env' done,
    rx_inv env' h' done ∧
    view_of w' = emit (concat (spans (rh_db h0) sc <$> done)) (view_of w0))).
Proof.
  intros Hclone Hstop Hfuel. unfold rx_worker. rewrite Hclone. simpl.
  apply wp_bind_returns.
  set (I := λ s (w : W), ∃ done, rx_inv s.1.1 s.1.2 done ∧ rx_printed done s.2 w).
  apply (wp_loop _ I (λ s _, length s.1.1)); [| |simpl; lia].
  - intros [[env h] buf] w (done & Hinv & Hpr). eapply wp_mono; [by apply (rx_round_law env h done)|].
    intros [r| | | |] w'; simpl; try done. destruct r as [[[env' h'] buf']|[h' buf']].
    + intros (Hlt & done' & Hinv' & Hpr'). split; [|done]. by exists done'.
    + intros (Hrun & env' & done' & Hinv' & bs & Hv & Hbs). simpl.
      pose proof (rx_size _ _ _ Hinv') as Hsz. rewrite <- Hbs, lenZ_app in Hsz.
      pose proof (lenZ_nonneg bs).
      apply wp_bind_returns. eapply wp_returns_mono; [apply rx_flush_law; [done|lia]|].
      intros u w2 Hv2. apply wp_ret. split; [done|]. exists env', done'. split; [done|].
      by rewrite Hv2, Hv, emit_emit, Hbs.
  - exists []. split.
    + split; simpl; [done|by left|by rewrite app_nil_r|]. exists []. by rewrite app_nil_r.
    + exists []. by rewrite emit_nil.
Qed.

End rx_laws.


Lemma eager_full_write : FullWrite (W := eager).
Proof.
  intros d w Hsz Hd. apply wp_eagerly. unfold wp. simpl. pose proof (lenZ_nonneg d).
  unfold granted, transfer, mbind, M_bind, next_limit, update, set_view. simpl.
  rewrite takeZ_all; [done|]. unfold size_max in *. lia.
Qed.

Definition demo_handler : RegexHandler byte unit :=
  mkRegexHandler (Some "n"%byte) (Some ()) [] true [] [].

#[local] Instance demo_cloner : ScratchCloner unit := λ sc, (HS_SUCCESS, sc).

Definition demo_request (s : string) : ReadRequest := mkRead READ None 3 0 (str s) (lenZ (str s)).


Lemma happen_calls {DB Scratch} (h : RegexHandler DB Scratch) reqs :
  foldl happen h (Call <$> reqs) =
    mkRegexHandler (rh_db h) (rh_scratch h) (to_process h ++ reqs) (rh_running h) (freed h)
      (elsewhere h).
Proof.
  revert h. induction reqs as [|req reqs IH]; intros h; simpl.
  - rewrite app_nil_r. by destruct h.
  - rewrite IH. simpl. by rewrite <- (assoc_L (++)).
Qed.

(** Requests that still wait when the handler is destroyed are not
    searched and not given back: a worker that waits, or starts to wait, when
    [running] has become false leaves without looking at the queue, whatever
    is in it. *)
Theorem regex_handler_drops_queued_requests {W DB Scratch} `{Kernel W} `{Hyperscan DB Scratch}
    `{ScratchCloner Scratch} {F : Fuel} (h : RegexHandler DB Scratch) (reqs : list ReadRequest)
    (env : list (list event)) (w : W) :
  (hs_clone_scratch (rh_scratch h)).1 = HS_SUCCESS → rh_running h = true → (0 < fuel)%nat →
  ∃ h', rx_worker (((Call <$> reqs) ++ [Stop]) :: env) h w = (Done h', w) ∧
        to_process h' = to_process h ++ reqs ∧ freed h' = freed h.
Proof.
  intros Hclone Hrun Hf.
  exists (RegexHandler_stop (mkRegexHandler (rh_db h) (rh_scratch h) (to_process h ++ reqs)
                               (rh_running h) (freed h) (elsewhere h))).
  split_and!; [|reflexivity|reflexivity]. unfold rx_worker.
  destruct (hs_clone_scratch (rh_scratch h)) as [res sc]. simpl in Hclone. subst res. simpl.
  destruct fuel as [|n]; [lia|]. cbn [loop]. unfold rx_round. rewrite Hrun.
  rewrite foldl_app, happen_calls. by destruct env.
Qed.

Lemma regex_handler_drops_queued_requests_witness :
  let F := 5%nat : Fuel in
  let w := Sim (View [] 8192 ∅ ∅ ∅) [] 0 0 in
  ∃ h', rx_worker [[Call (demo_request "banana"); Stop]] demo_handler w = (Done h', w) ∧
        to_process h' = [demo_request "banana"] ∧ freed h' = [].
Proof.
  intros F w.
  apply (regex_handler_drops_queued_requests (F := F) demo_handler [demo_request "banana"] [] w);
    [reflexivity|reflexivity|unfold fuel, F; lia].
Defined.

(** A short write loses text: the worker does not look at how much [write]
    has taken. *)
Theorem regex_handler_short_write_loses_text :
  let F := 5%nat : Fuel in
  let w := Sim (View [] 8192 ∅ ∅ ∅) [2] 0 0 in
  ∃ h' w', rx_worker [[Call (demo_request "banana")]; [Stop]] demo_handler w = (Done h', w') ∧
        v_out (view_of w') = str "ba" ∧ freed h' = [demo_request "banana"] ∧
        spans (rh_db demo_handler) (rh_scratch demo_handler) (demo_request "banana")
          = str "ban" ++ [nl] ++ str "banan" ++ [nl].
Proof. intros F w. do 2 eexists. split_and!; vm_compute; reflexivity. Qed.
