(* ===== verification/RegexThreads.v ===== *)
(** utils/regex_handler.h: all the threads of the handler together.

    RegexHandler.v follows one worker and what it prints. Here the thread that
    owns the handler (it constructs it, passes requests on and destroys it) and
    all the workers are a machine whose steps are single accesses to the shared
    members; a request is the pointer to it. What a search finds, and the second
    mutex around [write], are not part of it. *)

From S2P Require Import Prelude RequestPool RegexHandler.

(** Where the owner of the handler is, with the requests it has still to pass
    on. *)
Inductive owner_pc :=
  | OSpawn (i : Z) (reqs : list nat)        (* the loop of the constructor *)
  | OReady (reqs : list nat)                (* between two calls; with none left, destroys it *)
  | OPush (req : nat) (reqs : list nat)     (* [operator()], holding [mutex] *)
  | ONotify (reqs : list nat)               (* [cv.notify_one()], holding [mutex] *)
  | OUnlock (reqs : list nat)
  | ONotifyAll                              (* [~RegexHandler]: [cv.notify_all()] *)
  | OJoin                                   (* the members: [workers] joins *)
  | OGone.

(** Where a worker is. *)
Inductive worker_pc :=
  | WStart                                  (* clone the scratch space *)
  | WWhile                                  (* [while (running)] *)
  | WLock                                   (* [std::unique_lock(mutex)] *)
  | WPred                                   (* in [cv.wait], about to test the predicate *)
  | WPark                                   (* the predicate was false, still holding [mutex] *)
  | WAsleep                                 (* waiting for a notification *)
  | WRelock                                 (* woken up, taking [mutex] again *)
  | WTaken                                  (* [cv.wait] has returned *)
  | WScan (req : nat)                       (* search the request *)
  | WFree (req : nat)                       (* [ev.free_read_request(req)] *)
  | WFlush                                  (* write what is left *)
  | WExited.

(** The members, and beside them the requests given back, whether an exception
    has left a worker (which ends the process), and whether [front()] was called
    on an empty queue. The mutex is only free or taken. *)
Record handler := Handler {
  waiting : list nat;
  locked : bool;
  is_running : bool;
  owner : owner_pc;
  workers : list worker_pc;
  given_back : list nat;
  died : bool;
  bad_front : bool
}.

Definition set_owner (p : owner_pc) (h : handler) : handler :=
  Handler (waiting h) (locked h) (is_running h) p (workers h) (given_back h) (died h) (bad_front h).

Definition set_workers (ws : list worker_pc) (h : handler) : handler :=
  Handler (waiting h) (locked h) (is_running h) (owner h) ws (given_back h) (died h) (bad_front h).

Definition set_worker (t : nat) (p : worker_pc) (h : handler) : handler :=
  set_workers (<[t := p]> (workers h)) h.

Definition set_waiting (q : list nat) (h : handler) : handler :=
  Handler q (locked h) (is_running h) (owner h) (workers h) (given_back h) (died h) (bad_front h).

Definition set_locked (b : bool) (h : handler) : handler :=
  Handler (waiting h) b (is_running h) (owner h) (workers h) (given_back h) (died h) (bad_front h).

Definition stop_running (h : handler) : handler :=
  Handler (waiting h) (locked h) false (owner h) (workers h) (given_back h) (died h) (bad_front h).

Definition give_back (req : nat) (h : handler) : handler :=
  Handler (waiting h) (locked h) (is_running h) (owner h) (workers h) (given_back h ++ [req])
    (died h) (bad_front h).

Definition die (h : handler) : handler :=
  Handler (waiting h) (locked h) (is_running h) (owner h) (workers h) (given_back h) true
    (bad_front h).

Definition front_of_empty (h : handler) : handler :=
  Handler (waiting h) (locked h) (is_running h) (owner h) (workers h) (given_back h) (died h) true.

Definition sleeps (p : worker_pc) : bool := match p with WAsleep => true | _ => false end.

Definition has_exited (p : worker_pc) : bool := match p with WExited => true | _ => false end.

Definition wake_up (p : worker_pc) : worker_pc := match p with WAsleep => WRelock | p => p end.

(** Who takes a step; [w] is the worker that a [notify_one] wakes up. The last
    is a wake-up that nobody asked for. *)
Inductive who := Owner (w : nat) | Worker (t : nat) | Unasked (t : nat).

Section machine.
(** What [hardware_concurrency()] returns, and whether cloning the scratch space
    and searching a request succeed. *)
Context (hardware_concurrency : Z) (clone_ok : bool) (scan_ok : nat → bool).

(** The loop of the constructor that starts the workers. *)
Definition spawn_step (i : Z) (reqs : list nat) (h : handler) : handler :=
  if i <? worker_count hardware_concurrency
  then set_workers (workers h ++ [WStart]) (set_owner (OSpawn (i +ₛ 1) reqs) h)
  else set_owner (OReady reqs) h.

(** [operator()(ReadRequest *req)] *)
Definition call_step (w : nat) (h : handler) : option handler :=
  match owner h with
  | OReady (req :: reqs) =>
      if locked h then None else Some (set_locked true (set_owner (OPush req reqs) h))
  | OPush req reqs => Some (set_waiting (waiting h ++ [req]) (set_owner (ONotify reqs) h))
  | ONotify reqs =>
      if existsb sleeps (workers h) then
        match workers h !! w with
        | Some WAsleep => Some (set_worker w WRelock (set_owner (OUnlock reqs) h))
        | _ => None
        end
      else Some (set_owner (OUnlock reqs) h)
  | OUnlock reqs => Some (set_locked false (set_owner (OReady reqs) h))
  | _ => None
  end.

(** [~RegexHandler()], and the destruction of [workers], which joins them. *)
Definition destroy_step (h : handler) : option handler :=
  match owner h with
  | OReady [] => Some (stop_running (set_owner ONotifyAll h))
  | ONotifyAll => Some (set_workers (map wake_up (workers h)) (set_owner OJoin h))
  | OJoin => if forallb has_exited (workers h) then Some (set_owner OGone h) else None
  | _ => None
  end.

Definition owner_step (w : nat) (h : handler) : option handler :=
  match owner h with
  | OSpawn i reqs => Some (spawn_step i reqs h)
  | OReady [] | ONotifyAll | OJoin | OGone => destroy_step h
  | _ => call_step w h
  end.

(** [worker()] *)
Definition worker_step (t : nat) (p : worker_pc) (h : handler) : option handler :=
  match p with
  | WStart => Some (if clone_ok then set_worker t WWhile h else die h)
  | WWhile => Some (set_worker t (if is_running h then WLock else WFlush) h)
  | WLock | WRelock => if locked h then None else Some (set_locked true (set_worker t WPred h))
  | WPred =>
      Some (set_worker t (if negb (is_running h) || negb (bool_decide (waiting h = []))
                          then WTaken else WPark) h)
  | WPark => Some (set_locked false (set_worker t WAsleep h))
  | WAsleep => None
  | WTaken =>
      if is_running h then
        match waiting h with
        | req :: rest => Some (set_locked false (set_waiting rest (set_worker t (WScan req) h)))
        | [] => Some (front_of_empty h)
        end
      else Some (set_locked false (set_worker t WFlush h))
  | WScan req => Some (if scan_ok req then set_worker t (WFree req) h else die h)
  | WFree req => Some (give_back req (set_worker t WWhile h))
  | WFlush => Some (set_worker t WExited h)
  | WExited => None
  end.

Definition handler_step (l : who) (h : handler) : option handler :=
  if died h then None
  else match l with
       | Owner w => owner_step w h
       | Worker t => p ← workers h !! t; worker_step t p h
       | Unasked t =>
           p ← workers h !! t; if sleeps p then Some (set_worker t WRelock h) else None
       end.

Fixpoint handler_run (ls : list who) (h : handler) : option handler :=
  match ls with
  | [] => Some h
  | l :: ls => h ← handler_step l h; handler_run ls h
  end.

(** The constructor after the scratch space, for an owner that will pass on
    [reqs]. *)
Definition handler_init (reqs : list nat) : handler :=
  Handler [] false true (OSpawn 0 reqs) [] [] false false.

End machine.

(** ** The invariant *)

Abbreviation over f h := (sum_list_with f (workers h)).

Definition holding (p : worker_pc) : nat := match p with WPred | WPark | WTaken => 1 | _ => 0 end.

Definition parking (p : worker_pc) : nat := match p with WPark => 1 | _ => 0 end.

Definition taking (p : worker_pc) : nat := match p with WTaken => 1 | _ => 0 end.

Definition going (p : worker_pc) : nat := match p with WFlush | WExited => 1 | _ => 0 end.

Definition sleeping (p : worker_pc) : nat := match p with WAsleep => 1 | _ => 0 end.

(** Workers that will look at the queue again before they sleep. *)
Definition looking (p : worker_pc) : nat :=
  match p with WPark | WAsleep | WFlush | WExited => 0 | _ => 1 end.

(** How often a request is in the hands of a worker, and in a list. *)
Definition times (x : nat) (l : list nat) : nat := count_occ Nat.eq_dec l x.

Definition has (x : nat) (p : worker_pc) : nat :=
  match p with WScan req | WFree req => times x [req] | _ => 0 end.

Definition owner_holds (p : owner_pc) : nat :=
  match p with OPush _ _ | ONotify _ | OUnlock _ => 1 | _ => 0 end.

Definition owner_notifies (p : owner_pc) : nat := match p with ONotify _ => 1 | _ => 0 end.

(** The destructor has not begun. *)
Definition owner_uses (p : owner_pc) : nat :=
  match p with ONotifyAll | OJoin | OGone => 0 | _ => 1 end.

(** The requests not yet passed on. *)
Definition left_over (p : owner_pc) : list nat :=
  match p with
  | OSpawn _ reqs | OReady reqs | ONotify reqs | OUnlock reqs => reqs
  | OPush req reqs => req :: reqs
  | _ => []
  end.

Definition enough_workers (hc : Z) (h : handler) : Prop :=
  match owner h with
  | OSpawn i _ => lenZ (workers h) = i ∧ i ≤ worker_count hc
  | _ => lenZ (workers h) = worker_count hc
  end.

Record handler_inv (hc : Z) (reqs : list nat) (h : handler) : Prop := {
  hi_lock : (over holding h + owner_holds (owner h))%nat = Nat.b2n (locked h);
  hi_parking : (0 < over parking h)%nat → length (waiting h) = 0%nat;
  hi_taking : (0 < over taking h)%nat → length (waiting h) = 0%nat → Nat.b2n (is_running h) = 0%nat;
  hi_running : Nat.b2n (is_running h) = owner_uses (owner h);
  hi_going : (0 < over going h)%nat → Nat.b2n (is_running h) = 0%nat;
  hi_looking :
    Nat.b2n (is_running h) = 1%nat → (0 < length (waiting h))%nat →
    (0 < over looking h + owner_notifies (owner h))%nat;
  hi_workers : enough_workers hc h;
  hi_front : bad_front h = false;
  hi_requests x :
    (times x (given_back h) + times x (waiting h) + over (has x) h + times x (left_over (owner h)))%nat
      = times x reqs
}.

Lemma times_app x l k : times x (l ++ k) = (times x l + times x k)%nat.
Proof. apply count_occ_app. Qed.

Lemma times_cons x y l : times x (y :: l) = (times x [y] + times x l)%nat.
Proof. apply (times_app x [y] l). Qed.

Lemma parking_taking h : (over parking h + over taking h ≤ over holding h)%nat.
Proof. induction (workers h) as [|[] l IH]; simpl; lia. Qed.

Lemma all_workers h :
  (over sleeping h + over parking h + over going h + over looking h)%nat = length (workers h).
Proof. induction (workers h) as [|[] l IH]; simpl; lia. Qed.

Lemma nobody_sleeps ws : existsb sleeps ws = false → sum_list_with sleeping ws = O.
Proof. induction ws as [|[] ws IH]; simpl; done. Qed.

Lemma over_wake_up f ws :
  f WAsleep = f WRelock → sum_list_with f (map wake_up ws) = sum_list_with f ws.
Proof. intros Hf. induction ws as [|[] ws IH]; simpl; lia. Qed.

Lemma looking_wake_up ws :
  (sum_list_with looking ws ≤ sum_list_with looking (map wake_up ws))%nat.
Proof. induction ws as [|[] ws IH]; simpl; lia. Qed.

Lemma worker_count_range hc : 4 ≤ worker_count hc < size_max.
Proof.
  unfold worker_count. assert (0 ≤ hc -ₛ 1 < size_max) by by apply Z.mod_pos_bound.
  unfold size_max in *. lia.
Qed.

(** All the ways a step can go. *)
Ltac step_cases He :=
  repeat match type of He with
         | None = Some _ => discriminate He
         | context [if ?b then _ else _] => destruct b eqn:?; simpl in He
         | context [match ?x with _ => _ end] => destruct x eqn:?; simpl in He
         | Some _ = Some _ => injection He as <-
         end.

Ltac owner_cases He Eo :=
  unfold owner_step, spawn_step, call_step, destroy_step in He;
  match type of He with context [owner ?h] => destruct (owner h) eqn:Eo end; step_cases He.

Ltac members :=
  cbn [waiting locked is_running owner workers given_back died bad_front set_owner set_workers
       set_worker set_waiting set_locked stop_running give_back die front_of_empty
       owner_holds owner_notifies owner_uses left_over] in *.

(** The sums over the workers when worker [t] goes from [p] to [p']. *)
Ltac worker_sums Ht :=
  match goal with
  | |- context [set_worker ?t ?p' ?h] =>
      pose proof (λ f, sum_insert f (workers h) t _ p' Ht) as Hsum
  end.

Ltac all_worker_sums Hsum :=
  pose proof (Hsum holding); pose proof (Hsum parking); pose proof (Hsum taking);
  pose proof (Hsum going); pose proof (Hsum looking);
  cbn [holding parking taking going looking] in *.

Section steps.
Context (hc : Z) (clone_ok : bool) (scan_ok : nat → bool) (reqs : list nat).

(** A worker's step loses no request. *)
Lemma worker_step_requests h h' t p x :
  workers h !! t = Some p → worker_step clone_ok scan_ok t p h = Some h' →
  (times x (given_back h') + times x (waiting h') + over (has x) h')%nat =
  (times x (given_back h) + times x (waiting h) + over (has x) h)%nat ∧ owner h' = owner h.
Proof.
  intros Ht He. pose proof (sum_lookup (has x) _ _ _ Ht).
  destruct p; simpl in He; step_cases He.
  all: try (worker_sums Ht; specialize (Hsum (has x))); members; cbn [has] in *.
  all: try rename select (waiting h = _) into Eq; rewrite ?Eq, ?times_app in *; split; try done.
  all: try lia.
  rewrite (times_cons x n l) in *. lia.
Qed.

Lemma worker_step_inv h h' t p :
  handler_inv hc reqs h → workers h !! t = Some p →
  worker_step clone_ok scan_ok t p h = Some h' → died h' = false → handler_inv hc reqs h'.
Proof.
  intros [Il Ip It Ir Ig Ia Iw If Iq] Ht He Hd. pose proof (parking_taking h).
  assert (Hreq : ∀ x, (times x (given_back h') + times x (waiting h') + over (has x) h' +
                       times x (left_over (owner h')))%nat = times x reqs).
  { intros x. destruct (worker_step_requests h h' t p x Ht He) as [-> ->]. apply Iq. }
  clear Iq.
  pose proof (sum_lookup holding _ _ _ Ht). pose proof (sum_lookup going _ _ _ Ht).
  pose proof (sum_lookup parking _ _ _ Ht). pose proof (sum_lookup taking _ _ _ Ht).
  destruct p; simpl in He;
    destruct (waiting h) as [|q0 q] eqn:Eq, (is_running h) eqn:Er; simpl in He; step_cases He;
    try discriminate Hd.
  all: try (worker_sums Ht; all_worker_sums Hsum); cbn [holding parking taking going looking] in *.
  all: split; [..|exact Hreq]; clear Hreq; try (unfold enough_workers, lenZ; members; by rewrite length_insert).
  all: members; rewrite ?Eq, ?Er in *; cbn [length Nat.b2n] in *; try done; try lia.
  all: try (destruct (locked h); simpl in *; lia).
Qed.

(** Waking a worker up leaves the sums alone but for those that look. *)
Lemma wake_one_sums h t f :
  workers h !! t = Some WAsleep → f WAsleep = f WRelock →
  over f (set_worker t WRelock h) = over f h.
Proof. intros Ht Hf. pose proof (sum_insert f _ t _ WRelock Ht). simpl. lia. Qed.

Lemma wake_one_looking h t :
  workers h !! t = Some WAsleep → over looking (set_worker t WRelock h) = S (over looking h).
Proof. intros Ht. pose proof (sum_insert looking _ t _ WRelock Ht). simpl in *. lia. Qed.

Lemma owner_step_requests h h' w x :
  owner_step hc w h = Some h' →
  (times x (given_back h') + times x (waiting h') + over (has x) h' + times x (left_over (owner h')))%nat =
  (times x (given_back h) + times x (waiting h) + over (has x) h + times x (left_over (owner h)))%nat.
Proof.
  intros He. owner_cases He Eo.
  all: try rename select (workers h !! w = _) into Hw;
    try rewrite (wake_one_sums (set_owner _ h) w (has x) Hw eq_refl).
  all: members; rewrite ?over_wake_up, ?sum_list_with_app, ?times_app by done; simpl; try lia.
  destruct (Nat.eq_dec req x); lia.
Qed.

(** Between the push and the notification some worker is awake, or can be
    woken up. *)
Lemma notified_looking h l :
  handler_inv hc reqs h → owner h = ONotify l → existsb sleeps (workers h) = false →
  (0 < over looking h)%nat.
Proof.
  intros [Il _ _ Ir Ig _ Iw _ _] Eo Hs. pose proof (nobody_sleeps _ Hs). pose proof (all_workers h).
  pose proof (parking_taking h). pose proof (worker_count_range hc).
  unfold enough_workers, lenZ in Iw. rewrite Eo in *. simpl in *.
  destruct (locked h), (is_running h); simpl in *; lia.
Qed.

Lemma owner_step_inv h h' w :
  handler_inv hc reqs h → owner_step hc w h = Some h' → handler_inv hc reqs h'.
Proof.
  intros Hinv He. pose proof (parking_taking h).
  assert (Hreq : ∀ x, (times x (given_back h') + times x (waiting h') + over (has x) h' +
                       times x (left_over (owner h')))%nat = times x reqs).
  { intros x. rewrite (owner_step_requests h h' w x He). apply Hinv. }
  pose proof (λ l, notified_looking h l Hinv) as Hnl.
  destruct Hinv as [Il Ip It Ir Ig Ia Iw If _].
  owner_cases He Eo.
  all: try (rename select (workers h !! w = _) into Hw;
            pose proof (λ f, sum_insert f _ w _ WRelock Hw) as Hsum; all_worker_sums Hsum).
  all: pose proof (looking_wake_up (workers h)); pose proof (worker_count_range hc).
  all: split; [..|exact Hreq]; clear Hreq.
  all: unfold enough_workers in *; members; rewrite ?Eo in *; members; unfold lenZ in *.
  all: rewrite ?over_wake_up, ?sum_list_with_app, ?length_app, ?length_insert, ?length_map in * by done;
    cbn [length Nat.b2n sum_list_with holding parking taking going looking] in *; try done.
  all: try rename select (locked h = _) into El; rewrite ?El in *; cbn [Nat.b2n] in *; try lia.
  all: try (destruct (locked h); cbn [Nat.b2n] in *; lia).
  - destruct Iw as [Iw Hi]. apply Z.ltb_lt in Heqb. rewrite size_add_small by lia. lia.
  - specialize (Hnl _ eq_refl ltac:(done)). lia.
Qed.

Lemma unasked_inv h t :
  handler_inv hc reqs h → workers h !! t = Some WAsleep →
  handler_inv hc reqs (set_worker t WRelock h).
Proof.
  intros [Il Ip It Ir Ig Ia Iw If Iq] Ht.
  split; rewrite ?(wake_one_sums h t) by done; try done.
  - intros Hr Hq. rewrite wake_one_looking by done. lia.
  - unfold enough_workers, lenZ in *. simpl. by rewrite length_insert.
  - intros x. rewrite (wake_one_sums h t) by done. apply Iq.
Qed.

Lemma handler_step_inv l h h' :
  handler_inv hc reqs h → handler_step hc clone_ok scan_ok l h = Some h' → died h' = false →
  handler_inv hc reqs h'.
Proof.
  intros Hinv He Hd. unfold handler_step in He. destruct (died h); [done|]. destruct l as [w|t|t].
  - by eapply owner_step_inv.
  - destruct (workers h !! t) as [p|] eqn:Ht; simpl in He; [|done]. by eapply worker_step_inv.
  - destruct (workers h !! t) as [p|] eqn:Ht; simpl in He; [|done].
    destruct p; simplify_eq/=. by apply unasked_inv.
Qed.

Lemma handler_init_inv : handler_inv hc reqs (handler_init reqs).
Proof.
  pose proof (worker_count_range hc).
  split; try done; try (simpl; lia). unfold enough_workers. simpl. unfold lenZ. simpl. lia.
Qed.

Lemma died_stays l h h' :
  handler_step hc clone_ok scan_ok l h = Some h' → died h = false.
Proof. unfold handler_step. by destruct (died h). Qed.

(** ** The number of steps *)

(** What a worker has to go through before it sleeps or leaves. *)
Definition worker_cost (p : worker_pc) : nat :=
  match p with
  | WScan _ => 7 | WStart | WFree _ => 6 | WWhile => 5 | WLock | WRelock => 4 | WPred => 3
  | WTaken => 2 | WPark | WFlush => 1 | WAsleep | WExited => 0
  end%nat.

(** The requests that are to come, the workers that are to be started, and the
    last notification, which wakes every worker at most. *)
Definition script_cost (reqs : list nat) : nat :=
  (14 * length reqs + 3 + 4 * Z.to_nat (worker_count hc))%nat.

Definition owner_cost (p : owner_pc) : nat :=
  match p with
  | OSpawn i reqs => 7 * Z.to_nat (worker_count hc - i) + 1 + script_cost reqs
  | OReady reqs => script_cost reqs
  | OPush _ reqs => 13 + script_cost reqs
  | ONotify reqs => 6 + script_cost reqs
  | OUnlock reqs => 1 + script_cost reqs
  | ONotifyAll => 2 + 4 * Z.to_nat (worker_count hc)
  | OJoin => 1
  | OGone => 0
  end%nat.

Definition left_to_do (h : handler) : nat :=
  (6 * length (waiting h) + over worker_cost h + owner_cost (owner h) + (if died h then 0 else 1))%nat.

Lemma cost_wake_up ws :
  (sum_list_with worker_cost (map wake_up ws) ≤ sum_list_with worker_cost ws + 4 * length ws)%nat.
Proof. induction ws as [|[] ws IH]; simpl in *; lia. Qed.

Lemma worker_step_cost h h' t p :
  handler_inv hc reqs h → died h = false → workers h !! t = Some p →
  worker_step clone_ok scan_ok t p h = Some h' → (left_to_do h' < left_to_do h)%nat.
Proof.
  intros Hinv Hd Ht He. pose proof (hi_taking _ _ _ Hinv) as Htk.
  pose proof (sum_lookup taking _ _ _ Ht). unfold left_to_do. rewrite Hd.
  destruct p; simpl in He; step_cases He.
  all: try (worker_sums Ht; specialize (Hsum worker_cost)); members; cbn [worker_cost] in *.
  all: try rename select (waiting h = _) into Eq; rewrite ?Eq, ?Hd in *; cbn [length] in *; try lia.
  cbn [taking Nat.b2n] in *. lia.
Qed.

Lemma owner_step_cost h h' w :
  handler_inv hc reqs h → died h = false → owner_step hc w h = Some h' →
  (left_to_do h' < left_to_do h)%nat.
Proof.
  intros Hinv Hd He. pose proof (hi_workers _ _ _ Hinv) as Hw. unfold left_to_do. rewrite Hd.
  pose proof (cost_wake_up (workers h)). pose proof (worker_count_range hc).
  unfold enough_workers, lenZ in *. owner_cases He Eo.
  all: try (rename select (workers h !! w = _) into Ht;
            pose proof (sum_insert worker_cost _ w _ WRelock Ht)).
  all: members; cbn [owner_cost] in *; unfold script_cost in *; rewrite ?Hd, ?length_app, ?sum_list_with_app in *;
    cbn [length sum_list_with worker_cost] in *; try lia.
  destruct Hw as [Hw Hi]. apply Z.ltb_lt in Heqb. rewrite size_add_small by lia. lia.
Qed.

Definition is_unasked (l : who) : bool := match l with Unasked _ => true | _ => false end.

Lemma handler_step_cost l h h' :
  handler_inv hc reqs h → handler_step hc clone_ok scan_ok l h = Some h' →
  (S (left_to_do h') ≤ left_to_do h + (if is_unasked l then 5 else 0))%nat.
Proof.
  intros Hinv He. pose proof (died_stays l h h' He) as Hd.
  unfold handler_step in He. rewrite Hd in He. destruct l as [w|t|t]; simpl.
  - pose proof (owner_step_cost h h' w Hinv Hd He). lia.
  - destruct (workers h !! t) as [p|] eqn:Ht; simpl in He; [|done].
    pose proof (worker_step_cost h h' t p Hinv Hd Ht He). lia.
  - destruct (workers h !! t) as [p|] eqn:Ht; simpl in He; [|done].
    destruct p; simplify_eq/=. unfold left_to_do. members.
    pose proof (sum_insert worker_cost _ t _ WRelock Ht) as Hs. cbn [worker_cost] in Hs. lia.
Qed.

Lemma handler_run_law ls h h' :
  (died h = false → handler_inv hc reqs h) → handler_run hc clone_ok scan_ok ls h = Some h' →
  (died h' = false → handler_inv hc reqs h') ∧
  (length ls + left_to_do h' ≤ left_to_do h + 5 * length (filter is_unasked ls))%nat.
Proof.
  revert h. induction ls as [|l ls IH]; intros h Hinv Hrun; simpl in Hrun.
  { simplify_eq. simpl. split; [done|lia]. }
  destruct (handler_step _ _ _ l h) as [h1|] eqn:He; simpl in Hrun; [|done].
  pose proof (Hinv (died_stays l h h1 He)) as Hi.
  destruct (IH h1) as [Hinv' Hlen]; [by eapply handler_step_inv|done|].
  split; [done|]. pose proof (handler_step_cost l h h1 Hi He).
  rewrite filter_cons. destruct l; simpl in *; lia.
Qed.

Lemma reachable_inv ls h :
  handler_run hc clone_ok scan_ok ls (handler_init reqs) = Some h → died h = false →
  handler_inv hc reqs h.
Proof. intros Hrun. apply (handler_run_law ls (handler_init reqs) h); [|done]. intros _. apply handler_init_inv. Qed.

End steps.

(** ** What the threads guarantee *)

(** The requests the workers have in hand. *)
Definition in_hand (ws : list worker_pc) : list nat :=
  ws ≫= λ p, match p with WScan req | WFree req => [req] | _ => [] end.

Lemma times_in_hand x ws : times x (in_hand ws) = sum_list_with (has x) ws.
Proof.
  unfold in_hand. induction ws as [|p ws IH]; [done|]. cbn [mbind list_bind sum_list_with].
  rewrite times_app, IH. by destruct p.
Qed.

Lemma handler_requests hc reqs h :
  handler_inv hc reqs h →
  given_back h ++ waiting h ++ in_hand (workers h) ++ left_over (owner h) ≡ₚ reqs.
Proof.
  intros Hinv. apply (Permutation_count_occ Nat.eq_dec). intros x.
  pose proof (hi_requests _ _ _ Hinv x) as Hx. rewrite <- times_in_hand in Hx. unfold times in Hx.
  rewrite !count_occ_app. lia.
Qed.

(** A worker that cannot go on while the mutex is free and the handler is used
    sleeps. *)
Lemma idle_worker clone_ok scan_ok h t p :
  locked h = false → worker_step clone_ok scan_ok t p h = None → p = WAsleep ∨ p = WExited.
Proof.
  intros Hl Hs. destruct p; simpl in Hs; rewrite ?Hl in Hs; auto; try done.
  destruct (is_running h), (waiting h); done.
Qed.

(** C28. Any number of workers and any interleaving, spurious wake-ups included:
    as long as no exception has ended the process, every request is in exactly
    one place, given back, waiting, in the hands of one worker, or not yet passed
    on; so none is lost and none is searched twice, and [front()] is never
    called on an empty queue. *)
Theorem regex_threads_keep_requests hc clone_ok scan_ok (reqs : list nat) ls h :
  handler_run hc clone_ok scan_ok ls (handler_init reqs) = Some h → died h = false →
  bad_front h = false ∧
  given_back h ++ waiting h ++ in_hand (workers h) ++ left_over (owner h) ≡ₚ reqs.
Proof.
  intros Hrun Hd. pose proof (reachable_inv hc clone_ok scan_ok reqs ls h Hrun Hd) as Hinv.
  split; [apply Hinv|by eapply handler_requests].
Qed.

(** C29. No request is left behind while the handler is used: when no worker can
    take a step and the owner is between two calls, then every request it has
    passed on has been searched and given back. A notification for a new
    request is never lost, because [operator()] holds the mutex. *)
Theorem regex_threads_serve_all hc clone_ok scan_ok (reqs rest : list nat) ls h :
  handler_run hc clone_ok scan_ok ls (handler_init reqs) = Some h → died h = false →
  owner h = OReady rest → (∀ t, handler_step hc clone_ok scan_ok (Worker t) h = None) →
  given_back h ++ rest ≡ₚ reqs.
Proof.
  intros Hrun Hd Ho Hstuck. pose proof (reachable_inv hc clone_ok scan_ok reqs ls h Hrun Hd) as Hinv.
  assert (Hall : ∀ t p, workers h !! t = Some p → worker_step clone_ok scan_ok t p h = None).
  { intros t p Ht. specialize (Hstuck t). unfold handler_step in Hstuck. by rewrite Hd, Ht in Hstuck. }
  pose proof (hi_running _ _ _ Hinv) as Hr. rewrite Ho in Hr. simpl in Hr.
  assert (locked h = false) as Hl.
  { destruct (locked h) eqn:Hl; [|done]. exfalso.
    pose proof (hi_lock _ _ _ Hinv) as Hh. rewrite Ho, Hl in Hh. simpl in Hh.
    destruct (sum_pos holding (workers h)) as (t & p & Ht & Hp); [lia|].
    specialize (Hall t p Ht). destruct p; simpl in *; try lia; [done|done|].
    destruct (is_running h), (waiting h); done. }
  assert (Hasleep : ∀ t p, workers h !! t = Some p → p = WAsleep).
  { intros t p Ht. destruct (idle_worker clone_ok scan_ok h t p Hl (Hall t p Ht)) as [->| ->]; [done|].
    pose proof (hi_going _ _ _ Hinv). pose proof (sum_lookup going _ _ _ Ht). simpl in *. lia. }
  assert (Hzero : ∀ f : worker_pc → nat, f WAsleep = O → over f h = O).
  { intros f Hf. destruct (decide (over f h = O)) as [|Hne]; [done|].
    destruct (sum_pos f (workers h)) as (t & p & Ht & Hp); [lia|].
    rewrite (Hasleep t p Ht) in Hp. lia. }
  assert (waiting h = []) as Hw.
  { pose proof (hi_looking _ _ _ Hinv) as Hlk. rewrite (Hzero looking), Ho in Hlk by done.
    destruct (waiting h); simpl in *; [done|lia]. }
  pose proof (handler_requests _ _ _ Hinv) as Hp. rewrite Hw, Ho in Hp. simpl in Hp.
  assert (in_hand (workers h) = []) as Hi.
  { destruct (in_hand (workers h)) as [|x l] eqn:E; [done|].
    pose proof (times_in_hand x (workers h)) as Hx. rewrite E, (Hzero (has x)) in Hx by done.
    unfold times in Hx. simpl in Hx. by destruct (Nat.eq_dec x x). }
  by rewrite Hi in Hp.
Qed.

(** C30. The threads of the handler cannot go on for ever: a run has at most
    eleven steps for each worker and fourteen for each request, and five more
    for each wake-up that no notification caused. *)
Theorem regex_threads_terminate hc clone_ok scan_ok (reqs : list nat) ls h :
  handler_run hc clone_ok scan_ok ls (handler_init reqs) = Some h →
  (length ls ≤ 11 * Z.to_nat (worker_count hc) + 14 * length reqs + 5
               + 5 * length (filter is_unasked ls))%nat.
Proof.
  intros Hrun. destruct (handler_run_law hc clone_ok scan_ok reqs ls (handler_init reqs) h)
    as [_ Hlen]; [intros _; apply handler_init_inv|done|].
  assert (left_to_do hc (handler_init reqs)
          = 11 * Z.to_nat (worker_count hc) + 14 * length reqs + 5)%nat as Hbound.
  { unfold left_to_do, handler_init, owner_cost, script_cost.
    cbn [waiting workers owner died length sum_list_with]. rewrite Z.sub_0_r. lia. }
  lia.
Qed.

(** ** Concrete runs *)

Definition steps_of (n : nat) (l : who) : list who := replicate n l.

(** Four workers are started and one of them goes to sleep; two requests come,
    the first of them wakes it up, and it searches both. *)
Definition two_requests : list who :=
  steps_of 5 (Owner 0) ++ steps_of 5 (Worker 0) ++ steps_of 4 (Owner 0) ++ steps_of 5 (Worker 0)
  ++ steps_of 4 (Owner 0) ++ steps_of 10 (Worker 0)
  ++ steps_of 5 (Worker 1) ++ steps_of 5 (Worker 2) ++ steps_of 5 (Worker 3).

(** Witness: at the end of that run everything is given back. *)
Lemma regex_threads_keep_requests_witness :
  ∃ h, handler_run 1 true (λ _, true) two_requests (handler_init [7; 8]%nat) = Some h ∧
       given_back h = [7; 8]%nat ∧
       bad_front h = false ∧
       given_back h ++ waiting h ++ in_hand (workers h) ++ left_over (owner h) ≡ₚ [7; 8]%nat.
Proof.
  eexists. split; [vm_compute; reflexivity|]. split; [reflexivity|].
  refine (regex_threads_keep_requests 1 true (λ _, true) [7; 8]%nat two_requests _ _ _).
  - vm_compute. reflexivity.
  - reflexivity.
Defined.

(** Witness: the same run, in which the workers have nothing left to do. *)
Lemma regex_threads_serve_all_witness :
  ∃ h, handler_run 1 true (λ _, true) two_requests (handler_init [7; 8]%nat) = Some h ∧
       workers h = [WAsleep; WAsleep; WAsleep; WAsleep] ∧ given_back h ++ [] ≡ₚ [7; 8]%nat.
Proof.
  eexists. split; [vm_compute; reflexivity|]. split; [reflexivity|].
  apply (regex_threads_serve_all 1 true (λ _, true) [7; 8]%nat [] two_requests).
  - vm_compute. reflexivity.
  - reflexivity.
  - reflexivity.
  - by intros [|[|[|[|t]]]].
Defined.

(** Witness: the same run, with 48 of the 77 steps it could have. *)
Lemma regex_threads_terminate_witness :
  ∃ h, handler_run 1 true (λ _, true) two_requests (handler_init [7; 8]%nat) = Some h ∧
       length two_requests = 48%nat ∧
       (length two_requests ≤ 11 * Z.to_nat (worker_count 1) + 14 * length [7; 8] + 5
                              + 5 * length (filter is_unasked two_requests))%nat.
Proof.
  eexists. split; [vm_compute; reflexivity|]. split; [vm_compute; reflexivity|].
  refine (regex_threads_terminate 1 true (λ _, true) [7; 8]%nat two_requests _ _).
  vm_compute. reflexivity.
Defined.

(** A handler that is destroyed right away. The last worker has found the
    predicate false and still holds the mutex when the destructor stores
    [running = false] and notifies; it goes to sleep afterwards, and the others
    leave. *)
Definition lost_stop : list who :=
  steps_of 5 (Owner 0) ++ steps_of 5 (Worker 0) ++ steps_of 5 (Worker 1) ++ steps_of 5 (Worker 2)
  ++ steps_of 4 (Worker 3) ++ steps_of 2 (Owner 0) ++ [Worker 3]
  ++ steps_of 4 (Worker 0) ++ steps_of 4 (Worker 1) ++ steps_of 4 (Worker 2).

(** The destructor can wait for ever: [running] is stored and [notify_all]
    is called without the mutex, so both can fall between the moment a worker
    finds the predicate false and the moment it sleeps. There is such a run,
    without any request, after which one worker sleeps, the others have left,
    and no thread can ever take a step again. *)
Theorem regex_threads_can_lose_the_stop_signal :
  ∃ h, handler_run 1 true (λ _, true) lost_stop (handler_init []) = Some h ∧
       died h = false ∧ is_running h = false ∧ owner h = OJoin ∧
       workers h = [WExited; WExited; WExited; WAsleep] ∧
       (∀ w, handler_step 1 true (λ _, true) (Owner w) h = None) ∧
       (∀ t, handler_step 1 true (λ _, true) (Worker t) h = None).
Proof.
  eexists. split; [vm_compute; reflexivity|]. split_and!; try reflexivity.
  by intros [|[|[|[|t]]]].
Qed.
