(* ===== verification/Uring.v ===== *)
(** third_party/liburing: the rings the event loop submits to and reaps from.

    The submission and the completion queue are arrays whose length is a power
    of two, used as rings with 32-bit indices that run freely and wrap around;
    an index is turned into a place in the array with a mask. Modelled are the
    operations on the rings of src/include/liburing.h that the event loop calls,
    the flush of src/queue.c, and how src/setup.c computes the sizes. Pointers
    ([A]) and user data ([U]) are abstract. Memory ordering is not modelled: the
    kernel's side of the rings does not change during one of these calls. *)

From S2P Require Import Prelude Kernel.

(** ** [unsigned] *)

Definition uint_max : Z := 2 ^ 32.

Definition wrap32 (z : Z) : Z := z mod uint_max.

Definition uint_add (a b : Z) : Z := wrap32 (a + b).

Definition uint_sub (a b : Z) : Z := wrap32 (a - b).

Notation "a +ᵤ b" := (uint_add a b) (at level 50, left associativity) : omnipp_scope.
Notation "a -ᵤ b" := (uint_sub a b) (at level 50, left associativity) : omnipp_scope.

Definition IORING_SETUP_SQPOLL : Z := 2 ^ 1.
Definition IORING_SETUP_CQSIZE : Z := 2 ^ 3.
Definition IORING_SETUP_CLAMP : Z := 2 ^ 4.
Definition IORING_SETUP_SQE128 : Z := 2 ^ 10.
Definition IORING_SETUP_CQE32 : Z := 2 ^ 11.
Definition IORING_SETUP_NO_SQARRAY : Z := 2 ^ 16.
Definition IORING_SETUP_SQ_REWIND : Z := 2 ^ 20.
Definition IORING_CQE_F_32 : Z := 2 ^ 15.
Definition IORING_OP_OPENAT : Z := 18.
Definition IORING_OP_CLOSE : Z := 19.
Definition IORING_OP_READ : Z := 22.
Definition IORING_OP_WRITE : Z := 23.
Definition EINVAL : Z := 22.

(** [x & flag] as a condition *)
Definition has (x flag : Z) : bool := negb (Z.land x flag =? 0).

(** ** The structures *)
Section uring.
Context {A U : Type}.

(** The fields of an entry that these calls write; [open_flags] is in a union
    with [rw_flags]. *)
Record io_uring_sqe := mkSqe {
  opcode : Z; sqe_flags : Z; ioprio : Z; sqe_fd : Z; off : Z; addr : A; len : Z; rw_flags : Z;
  user_data : U; buf_index : Z; personality : Z; file_index : Z; addr3 : Z; pad2 : Z
}.

Record io_uring_cqe := mkCqe { cqe_user_data : U; cqe_res : Z; cqe_flags : Z }.

Record io_uring_sq := mkSq {
  sq_khead : Z; sq_ktail : Z; sqes : list io_uring_sqe; sqe_head : Z; sqe_tail : Z;
  sq_ring_mask : Z; sq_ring_entries : Z; sq_kflags : Z
}.

Record io_uring_cq := mkCq {
  cq_khead : Z; cq_ktail : Z; cqes : list io_uring_cqe; cq_ring_mask : Z; cq_ring_entries : Z
}.

Record io_uring := mkRing {
  sq : io_uring_sq; cq : io_uring_cq; ring_flags : Z; features : Z; int_flags : Z;
  enter_ring_fd : Z
}.

Definition set_sq (s : io_uring_sq) (r : io_uring) : io_uring :=
  mkRing s (cq r) (ring_flags r) (features r) (int_flags r) (enter_ring_fd r).

Definition set_cq (c : io_uring_cq) (r : io_uring) : io_uring :=
  mkRing (sq r) c (ring_flags r) (features r) (int_flags r) (enter_ring_fd r).

(** ** Filling in an entry *)

Definition io_uring_initialize_sqe (e : io_uring_sqe) : io_uring_sqe :=
  mkSqe (opcode e) 0 0 (sqe_fd e) (off e) (addr e) (len e) 0 (user_data e) 0 0 0 0 0.

(** [(__u8) op]; the parameter [len] is an [unsigned], [offset] a [__u64]. *)
Definition io_uring_prep_rw (op : Z) (fd : Z) (address : A) (length : Z) (offset : Z)
    (e : io_uring_sqe) : io_uring_sqe :=
  mkSqe (op mod 2 ^ 8) (sqe_flags e) (ioprio e) fd (wrap64 offset) address (wrap32 length)
    (rw_flags e) (user_data e) (buf_index e) (personality e) (file_index e) (addr3 e) (pad2 e).

Definition io_uring_prep_openat (dfd : Z) (path : A) (flags mode : Z) (e : io_uring_sqe)
    : io_uring_sqe :=
  let e := io_uring_prep_rw IORING_OP_OPENAT dfd path mode 0 e in
  mkSqe (opcode e) (sqe_flags e) (ioprio e) (sqe_fd e) (off e) (addr e) (len e) (wrap32 flags)
    (user_data e) (buf_index e) (personality e) (file_index e) (addr3 e) (pad2 e).

Definition io_uring_prep_close (null : A) (fd : Z) (e : io_uring_sqe) : io_uring_sqe :=
  io_uring_prep_rw IORING_OP_CLOSE fd null 0 0 e.

Definition io_uring_prep_read (fd : Z) (buf : A) (nbytes offset : Z) (e : io_uring_sqe)
    : io_uring_sqe :=
  io_uring_prep_rw IORING_OP_READ fd buf nbytes offset e.

Definition io_uring_prep_write (fd : Z) (buf : A) (nbytes offset : Z) (e : io_uring_sqe)
    : io_uring_sqe :=
  io_uring_prep_rw IORING_OP_WRITE fd buf nbytes offset e.

Definition io_uring_sqe_set_data (data : U) (e : io_uring_sqe) : io_uring_sqe :=
  mkSqe (opcode e) (sqe_flags e) (ioprio e) (sqe_fd e) (off e) (addr e) (len e) (rw_flags e)
    data (buf_index e) (personality e) (file_index e) (addr3 e) (pad2 e).

Definition io_uring_cqe_get_data (c : io_uring_cqe) : U := cqe_user_data c.

(** ** The submission ring *)

Definition io_uring_load_sq_head (r : io_uring) : Z := sq_khead (sq r).

Definition io_uring_sq_ready (r : io_uring) : Z := sqe_tail (sq r) -ᵤ io_uring_load_sq_head r.

Definition io_uring_sq_space_left (r : io_uring) : Z :=
  sq_ring_entries (sq r) -ᵤ io_uring_sq_ready r.

Definition io_uring_sqe_shift_from_flags (flags : Z) : Z :=
  Z.b2z (has flags IORING_SETUP_SQE128).

Definition io_uring_sqe_shift (r : io_uring) : Z := io_uring_sqe_shift_from_flags (ring_flags r).

(** [&array[(index & mask) << shift]] *)
Definition slot (mask shift index : Z) : nat := Z.to_nat (Z.shiftl (Z.land index mask) shift).

Definition set_sqes (l : list io_uring_sqe) (r : io_uring) : io_uring :=
  set_sq (mkSq (sq_khead (sq r)) (sq_ktail (sq r)) l (sqe_head (sq r)) (sqe_tail (sq r))
            (sq_ring_mask (sq r)) (sq_ring_entries (sq r)) (sq_kflags (sq r))) r.

Definition set_sqe_tail (t : Z) (r : io_uring) : io_uring :=
  set_sq (mkSq (sq_khead (sq r)) (sq_ktail (sq r)) (sqes (sq r)) (sqe_head (sq r)) t
            (sq_ring_mask (sq r)) (sq_ring_entries (sq r)) (sq_kflags (sq r))) r.

(** A store through a pointer to an entry. *)
Definition update_sqe (i : nat) (f : io_uring_sqe → io_uring_sqe) (r : io_uring) : io_uring :=
  set_sqes (alter f i (sqes (sq r))) r.

(** [_io_uring_get_sqe]: the place of the entry; [None] when the ring is full. *)
Definition io_uring_get_sqe : M io_uring (option nat) := λ r,
  let head := io_uring_load_sq_head r in
  let tail := sqe_tail (sq r) in
  if sq_ring_entries (sq r) <=? tail -ᵤ head then (Done None, r)
  else
    let i := slot (sq_ring_mask (sq r)) (io_uring_sqe_shift r) tail in
    match sqes (sq r) !! i with
    | None => (UB, r)
    | Some _ => (Done (Some i), update_sqe i io_uring_initialize_sqe (set_sqe_tail (tail +ᵤ 1) r))
    end.

(** [__io_uring_flush_sq] *)
Definition io_uring_flush_sq : M io_uring Z := λ r,
  let s := sq r in
  let tail := sqe_tail s in
  if has (ring_flags r) IORING_SETUP_SQ_REWIND then (Done tail, set_sqe_tail 0 r)
  else
    let s := if negb (sqe_head s =? tail) then
               mkSq (sq_khead s) tail (sqes s) tail (sqe_tail s) (sq_ring_mask s) (sq_ring_entries s)
                 (sq_kflags s)
             else s in
    (Done (tail -ᵤ sq_khead s), set_sq s r).

(** ** The completion ring *)

Definition io_uring_cqe_shift_from_flags (flags : Z) : Z := Z.b2z (has flags IORING_SETUP_CQE32).

Definition io_uring_cqe_shift (r : io_uring) : Z := io_uring_cqe_shift_from_flags (ring_flags r).

Definition io_uring_cqe_nr (c : io_uring_cqe) : Z :=
  Z.shiftl 1 (Z.b2z (has (cqe_flags c) IORING_CQE_F_32)).

Definition io_uring_cq_ready (r : io_uring) : Z := cq_ktail (cq r) -ᵤ cq_khead (cq r).

(** [struct io_uring_cqe_iter] *)
Record io_uring_cqe_iter := mkIter {
  it_cqes : list io_uring_cqe; it_mask : Z; it_shift : Z; it_head : Z; it_tail : Z
}.

Definition io_uring_cqe_iter_init (r : io_uring) : io_uring_cqe_iter :=
  mkIter (cqes (cq r)) (cq_ring_mask (cq r)) (io_uring_cqe_shift r) (cq_khead (cq r))
    (cq_ktail (cq r)).

Definition io_uring_cqe_iter_next {W} (it : io_uring_cqe_iter)
    : M W (option (io_uring_cqe * io_uring_cqe_iter)) :=
  if it_head it =? it_tail it then mret None
  else
    match it_cqes it !! slot (it_mask it) (it_shift it) (it_head it) with
    | None => undefined
    | Some c =>
        let head := it_head it +ᵤ 1 in
        let head := if has (cqe_flags c) IORING_CQE_F_32 then head +ᵤ 1 else head in
        mret (Some (c, mkIter (it_cqes it) (it_mask it) (it_shift it) head (it_tail it)))
    end.

(** [io_uring_for_each_cqe(ring, head, cqe) body], for a body that threads a
    state: one round, and the loop. *)
Definition for_each_round {W S} (body : io_uring_cqe → S → M W S) (v : io_uring_cqe_iter * S)
    : M W ((io_uring_cqe_iter * S) + S) :=
  n ← io_uring_cqe_iter_next v.1;
  match n with
  | None => mret (inr v.2)
  | Some (c, it) => s ← body c v.2; mret (inl (it, s))
  end.

Definition io_uring_for_each_cqe {W S} {F : Fuel} (r : io_uring)
    (body : io_uring_cqe → S → M W S) (s : S) : M W S :=
  loop fuel (for_each_round body) (io_uring_cqe_iter_init r, s).

Definition io_uring_cq_advance (nr : Z) (r : io_uring) : io_uring :=
  if negb (nr =? 0) then
    set_cq (mkCq (cq_khead (cq r) +ᵤ nr) (cq_ktail (cq r)) (cqes (cq r)) (cq_ring_mask (cq r))
              (cq_ring_entries (cq r))) r
  else r.

End uring.
Arguments io_uring_sqe : clear implicits.
Arguments io_uring_cqe : clear implicits.
Arguments io_uring_sq : clear implicits.
Arguments io_uring_cq : clear implicits.
Arguments io_uring : clear implicits.

(** ** Sizes: setup.c *)

Definition KERN_MAX_ENTRIES : Z := 32768.

Definition KERN_MAX_CQ_ENTRIES : Z := 2 * KERN_MAX_ENTRIES.

(** Leading zeros of a 32-bit value that is not zero. *)
Definition builtin_clz (x : Z) : Z := 31 - Z.log2 x.

Definition fls (x : Z) : Z := if x =? 0 then 0 else 8 * 4 - builtin_clz x.

(** [1U << __fls(depth - 1)]; a shift by 32 is undefined. *)
Definition roundup_pow2 (depth : Z) : option Z :=
  let n := fls (depth -ᵤ 1) in if n <? 32 then Some (wrap32 (Z.shiftl 1 n)) else None.

(** [get_sq_cq_entries(entries, p, sq, cq)] with [p->flags] and
    [p->cq_entries]: an error number, or the two sizes. *)
Definition get_sq_cq_entries (entries flags p_cq_entries : Z) : option (Z + Z * Z) :=
  if entries =? 0 then Some (inl (- EINVAL))
  else if (KERN_MAX_ENTRIES <? entries) && negb (has flags IORING_SETUP_CLAMP)
  then Some (inl (- EINVAL))
  else
    let entries := if KERN_MAX_ENTRIES <? entries then KERN_MAX_ENTRIES else entries in
    entries ← roundup_pow2 entries;
    if has flags IORING_SETUP_CQSIZE then
      if p_cq_entries =? 0 then Some (inl (- EINVAL))
      else if (KERN_MAX_CQ_ENTRIES <? p_cq_entries) && negb (has flags IORING_SETUP_CLAMP)
      then Some (inl (- EINVAL))
      else
        let cq_entries := if KERN_MAX_CQ_ENTRIES <? p_cq_entries then KERN_MAX_CQ_ENTRIES
                          else p_cq_entries in
        cq_entries ← roundup_pow2 cq_entries;
        if cq_entries <? entries then Some (inl (- EINVAL)) else Some (inr (entries, cq_entries))
    else Some (inr (entries, wrap32 (2 * entries))).

(** ** Windows of a ring

    What the ring holds between two indices, as a list. *)

Definition window {X} (arr : list X) (mask shift head : Z) (n : nat) : list X :=
  omap (λ k, arr !! slot mask shift (head +ᵤ Z.of_nat k)) (seq 0 n).

(** A ring of [2 ^ k] entries: its mask, and the length of its array. *)
Record ring_shape {X} (arr : list X) (entries mask shift : Z) : Prop := {
  shape_pow : ∃ k, 0 ≤ k ≤ 31 ∧ entries = 2 ^ k;
  shape_mask : mask = entries - 1;
  shape_shift : 0 ≤ shift;
  shape_length : lenZ arr = Z.shiftl entries shift
}.

Section window.
Context {X : Type} (arr : list X) (entries mask shift : Z).
Context (Hs : ring_shape arr entries mask shift).
Implicit Types head : Z.

Lemma slot_mod i : 0 ≤ i → Z.of_nat (slot mask shift i) = i mod entries * 2 ^ shift.
Proof.
  intros Hi. destruct Hs as [(k & Hk & ->) -> ? _]. unfold slot.
  replace (2 ^ k - 1) with (Z.ones k) by by rewrite Z.ones_equiv, Z.sub_1_r.
  rewrite Z.land_ones, Z.shiftl_mul_pow2 by lia.
  pose proof (Z.mod_pos_bound i (2 ^ k)). pose proof (Z.pow_pos_nonneg 2 shift). nia.
Qed.

(** Wrapping an index does not move its place. *)
Lemma wrap32_mod z : wrap32 z mod entries = z mod entries.
Proof.
  destruct Hs as [(k & Hk & ->) _ _ _]. unfold wrap32, uint_max.
  apply Z.mod_mod_divide. exists (2 ^ (32 - k)). rewrite <- Z.pow_add_r by lia. f_equal. lia.
Qed.

Lemma slot_wrap z : Z.of_nat (slot mask shift (wrap32 z)) = z mod entries * 2 ^ shift.
Proof. rewrite slot_mod, wrap32_mod; [done|]. apply Z.mod_pos_bound. done. Qed.

Lemma slot_lookup z : is_Some (arr !! slot mask shift (wrap32 z)).
Proof.
  apply lookup_lt_is_Some. pose proof (slot_wrap z) as Hz.
  destruct Hs as [(k & Hk & ->) _ ? Hl]. rewrite Z.shiftl_mul_pow2 in Hl by lia.
  pose proof (Z.mod_pos_bound z (2 ^ k)). pose proof (Z.pow_pos_nonneg 2 shift).
  unfold lenZ in Hl. nia.
Qed.

(** Two indices less than a ring apart have different places. *)
Lemma slot_ne head i j :
  0 ≤ i < j → j - i < entries →
  slot mask shift (wrap32 (head + i)) ≠ slot mask shift (wrap32 (head + j)).
Proof.
  intros Hij Hlt Heq. apply (f_equal Z.of_nat) in Heq. rewrite !slot_wrap in Heq.
  destruct Hs as [(k & Hk & ->) _ ? _].
  apply Z.mul_cancel_r in Heq; [|pose proof (Z.pow_pos_nonneg 2 shift); lia].
  assert ((head + j - (head + i)) mod 2 ^ k = 0) as Hm.
  { rewrite Zminus_mod, Heq, Z.sub_diag. apply Z.mod_0_l. lia. }
  replace (head + j - (head + i)) with (j - i) in Hm by lia.
  rewrite Z.mod_small in Hm by lia. lia.
Qed.

Lemma window_S head n :
  ∃ x, arr !! slot mask shift (head +ᵤ Z.of_nat n) = Some x ∧
       window arr mask shift head (S n) = window arr mask shift head n ++ [x].
Proof.
  destruct (slot_lookup (head + Z.of_nat n)) as [x Hx]. exists x. split; [done|].
  unfold window. rewrite seq_S, omap_app. simpl. unfold uint_add. by rewrite Hx.
Qed.

Lemma length_window head n : length (window arr mask shift head n) = n.
Proof.
  induction n as [|n IH]; [done|]. destruct (window_S head n) as (x & _ & ->).
  rewrite length_app, IH. simpl. lia.
Qed.

(** Moving the start of a window. *)
Lemma window_shift head m n :
  window arr mask shift head (m + n) =
    window arr mask shift head m ++ window arr mask shift (head +ᵤ Z.of_nat m) n.
Proof.
  induction n as [|n IH]; [by rewrite Nat.add_0_r, app_nil_r|].
  rewrite Nat.add_succ_r.
  destruct (window_S head (m + n)) as (x & Hx & ->).
  destruct (window_S (head +ᵤ Z.of_nat m) n) as (y & Hy & ->).
  rewrite IH, <- (assoc_L (++)). do 3 f_equal.
  enough (Some x = Some y) by congruence. rewrite <- Hx, <- Hy. f_equal. f_equal.
  unfold uint_add, wrap32. rewrite Zplus_mod_idemp_l. f_equal. lia.
Qed.

(** A store just behind a window, and one place further. *)
Lemma window_alter f head n j :
  (n ≤ j)%nat → Z.of_nat j < entries →
  window (alter f (slot mask shift (head +ᵤ Z.of_nat j)) arr) mask shift head n =
    window arr mask shift head n.
Proof.
  intros Hnj Hj. unfold window. apply list_omap_ext, Forall_Forall2_diag, Forall_forall. intros k Hk.
  apply elem_of_seq in Hk. apply list_lookup_alter_ne. intros Heq. symmetry in Heq.
  revert Heq. apply slot_ne; lia.
Qed.

End window.

Lemma shape_alter {X} (arr : list X) entries mask shift f i :
  ring_shape arr entries mask shift → ring_shape (alter f i arr) entries mask shift.
Proof. intros []. split; try done. unfold lenZ. by rewrite length_alter. Qed.

(** Index arithmetic: a tail that is [n] behind its head. *)
Lemma uint_sub_add head tail : 0 ≤ tail < uint_max → head +ᵤ (tail -ᵤ head) = tail.
Proof.
  intros Ht. unfold uint_add, uint_sub, wrap32. rewrite Zplus_mod_idemp_r.
  replace (head + (tail - head)) with tail by lia. by apply Z.mod_small.
Qed.

Lemma uint_sub_succ head tail :
  tail -ᵤ head + 1 < uint_max → (tail +ᵤ 1) -ᵤ head = tail -ᵤ head + 1.
Proof.
  intros Hlt. unfold uint_add, uint_sub, wrap32 in *. rewrite Zminus_mod_idemp_l.
  replace (tail + 1 - head) with ((tail - head) + 1) by lia. rewrite <- Zplus_mod_idemp_l.
  apply Z.mod_small. pose proof (Z.mod_pos_bound (tail - head) uint_max). unfold uint_max in *. lia.
Qed.

Lemma wrap_id z : 0 ≤ z < uint_max → z +ᵤ Z.of_nat 0 = z.
Proof. intros Hz. unfold uint_add, wrap32. rewrite Z.add_0_r. by apply Z.mod_small. Qed.

(** Moving the head forward. *)
Lemma uint_sub_advance head tail n :
  0 ≤ n ≤ tail -ᵤ head → tail -ᵤ (head +ᵤ n) = tail -ᵤ head - n.
Proof.
  intros Hn. unfold uint_add, uint_sub, wrap32 in *. rewrite Zminus_mod_idemp_r.
  replace (tail - (head + n)) with ((tail - head) - n) by lia. rewrite <- Zminus_mod_idemp_l.
  apply Z.mod_small. pose proof (Z.mod_pos_bound (tail - head) uint_max). unfold uint_max in *. lia.
Qed.

(** ** The submission ring is a bounded queue *)
Section sq_queue.
Context {A U : Type}.
Implicit Types r : io_uring A U.

Definition sq_pending r : list (io_uring_sqe A U) :=
  window (sqes (sq r)) (sq_ring_mask (sq r)) (io_uring_sqe_shift r) (sq_khead (sq r))
    (Z.to_nat (io_uring_sq_ready r)).

Record sq_ok r : Prop := {
  sq_shape : ring_shape (sqes (sq r)) (sq_ring_entries (sq r)) (sq_ring_mask (sq r))
               (io_uring_sqe_shift r);
  sq_tail_range : 0 ≤ sqe_tail (sq r) < uint_max;
  sq_fits : io_uring_sq_ready r ≤ sq_ring_entries (sq r)
}.

Lemma sq_ready_nonneg r : 0 ≤ io_uring_sq_ready r.
Proof. apply Z.mod_pos_bound. done. Qed.

Lemma entries_bound {X} (arr : list X) entries mask shift :
  ring_shape arr entries mask shift → 0 < entries ≤ 2 ^ 31.
Proof.
  intros [(k & Hk & ->) _ _ _]. split; [lia|]. apply Z.pow_le_mono_r; lia.
Qed.

Lemma length_sq_pending r : sq_ok r → lenZ (sq_pending r) = io_uring_sq_ready r.
Proof.
  intros [Hs _ _]. unfold lenZ, sq_pending. erewrite length_window by done.
  pose proof (sq_ready_nonneg r). lia.
Qed.

Lemma get_sqe_full r :
  sq_ring_entries (sq r) ≤ io_uring_sq_ready r → io_uring_get_sqe r = (Done None, r).
Proof.
  intros Hle. unfold io_uring_get_sqe. unfold io_uring_sq_ready in Hle.
  by rewrite (proj2 (Z.leb_le _ _)).
Qed.

(** Taking an entry and filling it in. *)
Lemma get_sqe_law r :
  sq_ok r → io_uring_sq_ready r < sq_ring_entries (sq r) →
  ∃ i e r', io_uring_get_sqe r = (Done (Some i), r') ∧ cq r' = cq r ∧
    ring_flags r' = ring_flags r ∧
    ∀ f, sq_ok (update_sqe i f r') ∧
         sq_pending (update_sqe i f r') = sq_pending r ++ [f (io_uring_initialize_sqe e)].
Proof.
  intros [Hs Ht Hf] Hroom. set (n := Z.to_nat (io_uring_sq_ready r)).
  pose proof (sq_ready_nonneg r) as Hnn. pose proof (entries_bound _ _ _ _ Hs) as Hb.
  assert (Htail : sq_khead (sq r) +ᵤ Z.of_nat n = sqe_tail (sq r)).
  { unfold n. rewrite Z2Nat.id by done. by apply uint_sub_add. }
  destruct (window_S _ _ _ _ Hs (sq_khead (sq r)) n) as (e & He & _). rewrite Htail in He.
  eexists _, e, _. split_and!.
  { unfold io_uring_get_sqe. unfold io_uring_sq_ready in Hroom.
    rewrite (proj2 (Z.leb_gt _ _)) by done. by rewrite He. }
  1, 2: done.
  intros f. set (i := slot _ _ _).
  assert (Hready : ∀ g h : io_uring_sqe A U → io_uring_sqe A U,
    io_uring_sq_ready (update_sqe i g (update_sqe i h (set_sqe_tail (sqe_tail (sq r) +ᵤ 1) r)))
      = io_uring_sq_ready r + 1).
  { intros. etransitivity; [apply (uint_sub_succ (sq_khead (sq r)) (sqe_tail (sq r)))|done].
    change (io_uring_sq_ready r + 1 < uint_max). unfold uint_max. lia. }
  pose proof (shape_alter _ _ _ _ io_uring_initialize_sqe i Hs) as Hs1.
  pose proof (shape_alter _ _ _ _ f i Hs1) as Hs2.
  split.
  - split; [exact Hs2|apply Z.mod_pos_bound; done|]. rewrite Hready. simpl. lia.
  - unfold sq_pending at 1. rewrite Hready. replace (Z.to_nat _) with (S n) by lia.
    edestruct (window_S _ _ _ _ Hs2 (sq_khead (sq r)) n) as (x & Hx & Hw).
    etransitivity; [exact Hw|]. rewrite Htail in Hx. fold i in Hx, He.
    rewrite !list_lookup_alter_eq, He in Hx. simpl in Hx. injection Hx as <-. f_equal.
    unfold i. rewrite <- Htail.
    rewrite (window_alter _ _ _ _ (shape_alter _ _ _ _ _ _ Hs)) by lia.
    by apply (window_alter _ _ _ _ Hs); lia.
Qed.

(** The flush publishes the tail and counts what is pending. *)
Lemma flush_sq_law r :
  sq_ok r → has (ring_flags r) IORING_SETUP_SQ_REWIND = false → sqe_head (sq r) = sq_ktail (sq r) →
  ∃ s, io_uring_flush_sq r = (Done (lenZ (sq_pending r)), set_sq s r) ∧ sq_ok (set_sq s r) ∧
       sq_pending (set_sq s r) = sq_pending r ∧ sq_ktail s = sqe_tail s ∧ sqe_head s = sqe_tail s ∧
       sq_khead s = sq_khead (sq r).
Proof.
  intros Hok Hrw Heq. rewrite length_sq_pending by done. unfold io_uring_flush_sq. rewrite Hrw.
  destruct Hok as [Hs Ht Hf]. destruct (Z.eqb_spec (sqe_head (sq r)) (sqe_tail (sq r))) as [He|He].
  - eexists. split; [done|]. destruct r as [[] ? ?]. simpl in *. split_and!; try done; congruence.
  - eexists. split; [done|]. split_and!; done.
Qed.

End sq_queue.

(** C38. The submission ring is a bounded first-in-first-out queue, also when
    its 32-bit indices wrap around. In a well-formed ring,
    [io_uring_get_sqe] fails exactly when as many entries are pending as the
    ring has; otherwise it gives out an entry that is none of the pending ones,
    and whatever is then stored through the pointer, the pending entries are
    those of before, unchanged and in their order, followed by the new one. The
    flush before a submission counts exactly the pending entries and publishes
    the tail behind the last of them. *)
Theorem uring_sq_is_a_queue {A U} (r : io_uring A U) :
  sq_ok r →
  (lenZ (sq_pending r) = sq_ring_entries (sq r) → io_uring_get_sqe r = (Done None, r)) ∧
  (lenZ (sq_pending r) ≠ sq_ring_entries (sq r) →
     ∃ i e r', io_uring_get_sqe r = (Done (Some i), r') ∧ cq r' = cq r ∧
       ring_flags r' = ring_flags r ∧
       ∀ f, sq_ok (update_sqe i f r') ∧
            sq_pending (update_sqe i f r') = sq_pending r ++ [f (io_uring_initialize_sqe e)]) ∧
  (has (ring_flags r) IORING_SETUP_SQ_REWIND = false → sqe_head (sq r) = sq_ktail (sq r) →
     ∃ r', io_uring_flush_sq r = (Done (lenZ (sq_pending r)), r') ∧ sq_ok r' ∧
       sq_pending r' = sq_pending r ∧ sq_ktail (sq r') = sqe_tail (sq r') ∧ cq r' = cq r).
Proof.
  intros Hok. rewrite length_sq_pending by done.
  split_and!; [intros Heq..|intros Hrw Heq; rewrite <- length_sq_pending by done].
  - apply get_sqe_full. lia.
  - apply get_sqe_law; [done|]. pose proof (sq_fits _ Hok). lia.
  - destruct (flush_sq_law r Hok Hrw Heq) as (s & Hs & Hok' & Hp & Ht & _). eauto 6.
Qed.

(** A ring of four entries whose indices are about to wrap around. *)
Definition demo_uring : io_uring unit Z :=
  let e k := mkSqe 0 1 1 0 0 () 0 1 k 1 1 1 1 1 in
  mkRing (mkSq (2 ^ 32 - 2) (2 ^ 32 - 2) [e 0; e 1; e 2; e 3] (2 ^ 32 - 2) 1 3 4 0)
    (mkCq (2 ^ 32 - 1) 2 [mkCqe 10 0 0; mkCqe 11 0 0; mkCqe 12 0 0; mkCqe 13 0 0] 3 4) 0 0 0 3.

Lemma demo_uring_sq_ok : sq_ok demo_uring.
Proof.
  split; [|done|done]. split; [exists 2; done|done|done|done].
Qed.

(** Witness: the tail has wrapped around and the head has not. *)
Lemma uring_sq_is_a_queue_witness :
  sq_ok demo_uring ∧ user_data <$> sq_pending demo_uring = [2; 3; 0] ∧
  ∃ i e r', io_uring_get_sqe demo_uring = (Done (Some i), r') ∧
    sq_pending (update_sqe i (io_uring_sqe_set_data 7) r')
      = sq_pending demo_uring ++ [io_uring_sqe_set_data 7 (io_uring_initialize_sqe e)].
Proof.
  split_and!; [apply demo_uring_sq_ok|vm_compute; reflexivity|].
  destruct (uring_sq_is_a_queue demo_uring demo_uring_sq_ok) as (_ & Hget & _).
  destruct Hget as (i & e & r' & Hr & _ & _ & Hf); [vm_compute; discriminate|].
  exists i, e, r'. split; [exact Hr|]. apply (Hf (io_uring_sqe_set_data 7)).
Defined.

(** ** The completion ring *)
Section cq_queue.
Context {A U : Type}.
Implicit Types r : io_uring A U.

(** The completions that have not been consumed. *)
Definition cq_list r : list (io_uring_cqe U) :=
  window (cqes (cq r)) (cq_ring_mask (cq r)) (io_uring_cqe_shift r) (cq_khead (cq r))
    (Z.to_nat (io_uring_cq_ready r)).

Record cq_ok r : Prop := {
  cq_shape : ring_shape (cqes (cq r)) (cq_ring_entries (cq r)) (cq_ring_mask (cq r))
               (io_uring_cqe_shift r);
  cq_tail_range : 0 ≤ cq_ktail (cq r) < uint_max;
  cq_head_range : 0 ≤ cq_khead (cq r) < uint_max;
  cq_fits : io_uring_cq_ready r ≤ cq_ring_entries (cq r)
}.

(** No completion takes two places. *)
Definition single (c : io_uring_cqe U) : Prop := has (cqe_flags c) IORING_CQE_F_32 = false.

Lemma length_cq_list r : cq_ok r → lenZ (cq_list r) = io_uring_cq_ready r.
Proof.
  intros [Hs _ _ _]. unfold lenZ, cq_list. erewrite length_window by done.
  pose proof (Z.mod_pos_bound (cq_ktail (cq r) - cq_khead (cq r)) uint_max). unfold io_uring_cq_ready,
    uint_sub, wrap32, uint_max in *. lia.
Qed.

(** The body for each completion of a list. *)
Fixpoint each {W T} (body : io_uring_cqe U → T → M W T) (l : list (io_uring_cqe U)) (s : T)
    : M W T :=
  match l with
  | [] => mret s
  | c :: l => s ← body c s; each body l s
  end.

(** The iterator at [head] with [n] completions before it. *)
Lemma iter_law {W T} (body : io_uring_cqe U → T → M W T) r n fuel' head s (w : W) :
  ring_shape (cqes (cq r)) (cq_ring_entries (cq r)) (cq_ring_mask (cq r)) (io_uring_cqe_shift r) →
  0 ≤ head < uint_max → Z.of_nat n < uint_max → (n < fuel')%nat →
  let l := window (cqes (cq r)) (cq_ring_mask (cq r)) (io_uring_cqe_shift r) head n in
  Forall single l →
  loop fuel' (for_each_round body)
         (mkIter (cqes (cq r)) (cq_ring_mask (cq r)) (io_uring_cqe_shift r) head
            (head +ᵤ Z.of_nat n), s) w = each body l s w.
Proof.
  intros Hs. revert fuel' head s w. induction n as [|n IH]; intros fuel' head s w Hh Hn Hf l Hl;
    (destruct fuel' as [|fuel']; [lia|]); cbn [loop].
  { rewrite wrap_id by done. unfold mbind, M_bind, for_each_round, io_uring_cqe_iter_next, mbind, M_bind. simpl.
    by rewrite Z.eqb_refl. }
  set (head' := head +ᵤ 1). assert (0 ≤ head' < uint_max) as Hh' by (apply Z.mod_pos_bound; done).
  assert (Hne : head ≠ head +ᵤ Z.of_nat (S n)).
  { unfold uint_add, wrap32. intros Heq.
    destruct (decide (head + Z.of_nat (S n) < uint_max)) as [Hlt|Hge].
    - rewrite Z.mod_small in Heq by lia. lia.
    - replace (head + Z.of_nat (S n)) with (head + Z.of_nat (S n) - uint_max + 1 * uint_max) in Heq by lia.
      rewrite Z_mod_plus_full, Z.mod_small in Heq by lia. lia. }
  destruct (window_S _ _ _ _ Hs head 0) as (c & Hc & Hw).
  assert (Hlist : l = c :: window (cqes (cq r)) (cq_ring_mask (cq r)) (io_uring_cqe_shift r) head' n).
  { unfold l. change (S n) with (1 + n)%nat. rewrite (window_shift _ _ _ _ Hs head 1 n), Hw. done. }
  rewrite Hlist in Hl |- *. apply Forall_cons in Hl as [Hc1 Hl]. unfold single in Hc1.
  rewrite wrap_id in Hc by done.
  set (it := mkIter _ _ _ _ _).
  assert (Hround : for_each_round body (it, s) w =
    (s' ← body c s; mret (inl (mkIter (it_cqes it) (it_mask it) (it_shift it) head' (it_tail it), s'))) w).
  { unfold for_each_round, io_uring_cqe_iter_next, it. cbn [fst snd it_head it_tail it_cqes it_mask it_shift].
    rewrite (proj2 (Z.eqb_neq _ _)) by done. rewrite Hc. unfold mbind at 1, M_bind at 1. simpl.
    by rewrite Hc1. }
  unfold mbind at 1, M_bind at 1. rewrite Hround. unfold mbind, M_bind. cbn [each].
  unfold mbind, M_bind. destruct (body c s w) as [[s'| | | |] w']; cbn [outcome_bind]; try done.
  unfold mret, M_ret. cbn [outcome_bind]. unfold it. cbn [it_cqes it_mask it_shift it_tail].
  replace (head +ᵤ Z.of_nat (S n)) with (head' +ᵤ Z.of_nat n).
  - apply IH; [done|lia|lia|done].
  - unfold head', uint_add, wrap32. rewrite Zplus_mod_idemp_l. f_equal. lia.
Qed.

Lemma for_each_law {W T} {F : Fuel} (body : io_uring_cqe U → T → M W T) r s (w : W) :
  cq_ok r → Forall single (cq_list r) → (length (cq_list r) < fuel)%nat →
  io_uring_for_each_cqe r body s w = each body (cq_list r) s w.
Proof.
  intros Hok Hl Hf. pose proof (length_cq_list _ Hok) as Hlen. destruct Hok as [Hs Ht Hh Hfit].
  pose proof (entries_bound _ _ _ _ Hs). unfold lenZ in Hlen.
  unfold io_uring_for_each_cqe, io_uring_cqe_iter_init.
  rewrite <- (uint_sub_add (cq_khead (cq r)) (cq_ktail (cq r))) by done.
  change (cq_ktail (cq r) -ᵤ cq_khead (cq r)) with (io_uring_cq_ready r).
  unfold cq_list in *. set (n := Z.to_nat (io_uring_cq_ready r)) in *.
  rewrite (length_window _ _ _ _ Hs) in *. rewrite <- Hlen.
  apply iter_law; [done|done|unfold uint_max; lia|done|done].
Qed.

(** Consuming completions. *)
Lemma cq_advance_law r nr :
  cq_ok r → 0 ≤ nr ≤ lenZ (cq_list r) →
  cq_ok (io_uring_cq_advance nr r) ∧ cq_list (io_uring_cq_advance nr r) = dropZ nr (cq_list r) ∧
  sq (io_uring_cq_advance nr r) = sq r.
Proof.
  intros Hok Hnr. pose proof (length_cq_list _ Hok) as Hlen. rewrite Hlen in Hnr.
  destruct Hok as [Hs Ht Hh Hfit]. pose proof (entries_bound _ _ _ _ Hs) as Hb.
  unfold io_uring_cq_advance. destruct (Z.eqb_spec nr 0) as [->|Hne].
  { split_and!; [done|by rewrite dropZ_0|done]. }
  simpl. set (r' := set_cq _ _).
  assert (Hready : io_uring_cq_ready r' = io_uring_cq_ready r - nr).
  { by apply uint_sub_advance. }
  split_and!; [|..|done].
  { split; [exact Hs|done|apply Z.mod_pos_bound; done|rewrite Hready; simpl; lia]. }
  unfold cq_list at 1. rewrite Hready. unfold cq_list.
  replace (Z.to_nat (io_uring_cq_ready r)) with
    (Z.to_nat nr + Z.to_nat (io_uring_cq_ready r - nr))%nat by lia.
  rewrite (window_shift _ _ _ _ Hs), dropZ_drop.
  rewrite drop_app_length' by by rewrite (length_window _ _ _ _ Hs).
  simpl. by rewrite Z2Nat.id by lia.
Qed.

End cq_queue.

(** C39. [io_uring_for_each_cqe] visits exactly the completions that are ready,
    once each and in the order the kernel posted them, also across the wrap of
    the indices, and [io_uring_cq_advance] consumes exactly the first [nr] of
    them. No completion is assumed to take two places, as on a ring without
    large completions. *)
Theorem uring_for_each_visits_completions {A U W T} {F : Fuel}
    (body : io_uring_cqe U → T → M W T) (r : io_uring A U) (s : T) (w : W) (nr : Z) :
  cq_ok r → Forall single (cq_list r) → (length (cq_list r) < fuel)%nat →
  0 ≤ nr ≤ lenZ (cq_list r) →
  io_uring_for_each_cqe r body s w = each body (cq_list r) s w ∧
  cq_ok (io_uring_cq_advance nr r) ∧ cq_list (io_uring_cq_advance nr r) = dropZ nr (cq_list r) ∧
  sq (io_uring_cq_advance nr r) = sq r.
Proof. intros Hok Hl Hf Hnr. split; [by apply for_each_law|by apply cq_advance_law]. Qed.

Lemma demo_uring_cq_ok : cq_ok demo_uring.
Proof. split; [|done..]. split; [exists 2; done|done|done|done]. Qed.

(** Witness: three completions, the first before the wrap. *)
Lemma uring_for_each_visits_completions_witness :
  let F := 9%nat : Fuel in
  let body c l : M unit (list Z) := mret (l ++ [io_uring_cqe_get_data c]) in
  io_uring_for_each_cqe demo_uring body [] () = each body (cq_list demo_uring) [] () ∧
  (io_uring_for_each_cqe demo_uring body [] ()).1 = Done [13; 10; 11] ∧
  cqe_user_data <$> cq_list (io_uring_cq_advance 2 demo_uring) = [11].
Proof.
  intros F body. split_and!; [|vm_compute; reflexivity|vm_compute; reflexivity].
  apply (uring_for_each_visits_completions body demo_uring [] () 2).
  - apply demo_uring_cq_ok.
  - repeat constructor.
  - unfold fuel, F. vm_compute. lia.
  - vm_compute. split; discriminate.
Defined.

(** ** Sizes *)

Lemma roundup_pow2_law d :
  1 ≤ d ≤ 2 ^ 31 → ∃ k, 0 ≤ k ≤ 31 ∧ roundup_pow2 d = Some (2 ^ k) ∧ d ≤ 2 ^ k < 2 * d.
Proof.
  intros Hd. assert (d -ᵤ 1 = d - 1) as Hd1 by (apply Z.mod_small; unfold uint_max; lia).
  unfold roundup_pow2. rewrite Hd1.
  assert (Hpow : ∀ k, 0 ≤ k ≤ 31 → wrap32 (Z.shiftl 1 k) = 2 ^ k).
  { intros k Hk. rewrite Z.shiftl_1_l. apply Z.mod_small. split; [lia|].
    apply Z.le_lt_trans with (2 ^ 31); [apply Z.pow_le_mono_r; lia|done]. }
  destruct (decide (d = 1)) as [->|Hne].
  { exists 0. split_and!; try done; lia. }
  unfold fls, builtin_clz. rewrite (proj2 (Z.eqb_neq (d - 1) 0)) by lia.
  replace (8 * 4 - (31 - Z.log2 (d - 1))) with (Z.succ (Z.log2 (d - 1))) by lia.
  pose proof (Z.log2_spec (d - 1) ltac:(lia)) as [Hlo Hhi]. pose proof (Z.log2_nonneg (d - 1)).
  assert (Z.log2 (d - 1) < 31) by (apply Z.log2_lt_pow2; lia).
  exists (Z.succ (Z.log2 (d - 1))). rewrite (proj2 (Z.ltb_lt _ _)) by lia. rewrite Hpow by lia.
  split_and!; [lia|lia|done|lia|]. rewrite Z.pow_succ_r by done. lia.
Qed.

(** A size that fits [2 ^ n] is rounded to one that does. *)
Lemma roundup_pow2_max d n :
  0 ≤ n ≤ 31 → 1 ≤ d ≤ 2 ^ n →
  ∃ k, 0 ≤ k ≤ n ∧ roundup_pow2 d = Some (2 ^ k) ∧ d ≤ 2 ^ k < 2 * d.
Proof.
  intros Hn Hd. destruct (roundup_pow2_law d) as (k & Hk & Hr & Hlo & Hhi).
  { split; [lia|]. apply Z.le_trans with (2 ^ n); [lia|]. apply Z.pow_le_mono_r; lia. }
  exists k. split_and!; [lia| |done..].
  destruct (decide (k ≤ n)); [done|]. assert (2 ^ Z.succ n ≤ 2 ^ k) by (apply Z.pow_le_mono_r; lia).
  rewrite Z.pow_succ_r in * by lia. lia.
Qed.

Lemma clamp_min a n : (if n <? a then n else a) = a `min` n.
Proof. destruct (Z.ltb_spec n a); lia. Qed.

(** The sizes liburing computes for its rings are powers of two, as the
    masking of indices needs: for any number of entries and any flags no shift
    is undefined, and either the call reports [-EINVAL], or both sizes are powers
    of two within the kernel's bounds, the submission ring is the smallest that
    holds the (clamped) number of entries, and the completion ring is at least as
    large; without an explicit completion size any number from 1 to 32768 is
    accepted and the completion ring is twice the other. *)
Theorem uring_sizes_are_powers_of_two (entries flags p_cq_entries : Z) :
  0 ≤ entries → 0 ≤ p_cq_entries →
  match get_sq_cq_entries entries flags p_cq_entries with
  | None => False
  | Some (inl err) => err = - EINVAL ∧
      (has flags IORING_SETUP_CQSIZE = false → entries = 0 ∨ KERN_MAX_ENTRIES < entries)
  | Some (inr (s, c)) => (∃ k m, 0 ≤ k ≤ m ∧ s = 2 ^ k ∧ c = 2 ^ m) ∧
      entries `min` KERN_MAX_ENTRIES ≤ s < 2 * (entries `min` KERN_MAX_ENTRIES) ∧
      c ≤ KERN_MAX_CQ_ENTRIES ∧ (has flags IORING_SETUP_CQSIZE = false → c = 2 * s)
  end.
Proof.
  intros He Hc. unfold get_sq_cq_entries. rewrite !clamp_min.
  destruct (Z.eqb_spec entries 0) as [->|Hne]; [by split; [|left]|].
  destruct (_ && _) eqn:Hbig.
  { apply andb_true_iff in Hbig as [Hbig%Z.ltb_lt _]. split; [done|]. by right. }
  destruct (roundup_pow2_max (entries `min` KERN_MAX_ENTRIES) 15) as (k & Hk & -> & Hs);
    [lia|unfold KERN_MAX_ENTRIES; lia|]. cbn [mbind option_bind].
  assert (2 ^ k ≤ 2 ^ 15) by (apply Z.pow_le_mono_r; lia).
  destruct (has flags IORING_SETUP_CQSIZE).
  - destruct (Z.eqb_spec p_cq_entries 0) as [->|Hne2]; [done|].
    destruct ((KERN_MAX_CQ_ENTRIES <? p_cq_entries) && negb (has flags IORING_SETUP_CLAMP)); [done|].
    destruct (roundup_pow2_max (p_cq_entries `min` KERN_MAX_CQ_ENTRIES) 16) as (m & Hm & -> & Hcs);
      [lia|unfold KERN_MAX_CQ_ENTRIES, KERN_MAX_ENTRIES; lia|]. cbn [mbind option_bind].
    assert (2 ^ m ≤ 2 ^ 16) by (apply Z.pow_le_mono_r; lia).
    destruct (Z.ltb_spec (2 ^ m) (2 ^ k)) as [Hlt|Hge]; [done|].
    split_and!; [|lia|lia|unfold KERN_MAX_CQ_ENTRIES, KERN_MAX_ENTRIES; lia|done].
    exists k, m. split_and!; [lia| |done|done]. apply (Z.pow_le_mono_r_iff 2) in Hge; lia.
  - assert (wrap32 (2 * 2 ^ k) = 2 * 2 ^ k) as -> by (apply Z.mod_small; unfold uint_max; lia).
    split_and!; [|lia|lia|unfold KERN_MAX_CQ_ENTRIES, KERN_MAX_ENTRIES; lia|done].
    exists k, (Z.succ k). rewrite Z.pow_succ_r by lia. split_and!; lia.
Qed.

(** Witness: the size the event loop asks for, and an odd one. *)
Lemma uring_sizes_are_powers_of_two_witness :
  get_sq_cq_entries 4096 0 0 = Some (inr (4096, 8192)) ∧
  match get_sq_cq_entries 100 0 0 with
  | None => False
  | Some (inl err) => err = - EINVAL ∧
      (has 0 IORING_SETUP_CQSIZE = false → 100 = 0 ∨ KERN_MAX_ENTRIES < 100)
  | Some (inr (s, c)) => (∃ k m, 0 ≤ k ≤ m ∧ s = 2 ^ k ∧ c = 2 ^ m) ∧
      100 `min` KERN_MAX_ENTRIES ≤ s < 2 * (100 `min` KERN_MAX_ENTRIES) ∧
      c ≤ KERN_MAX_CQ_ENTRIES ∧ (has 0 IORING_SETUP_CQSIZE = false → c = 2 * s)
  end.
Proof.
  split; [vm_compute; reflexivity|].
  apply (uring_sizes_are_powers_of_two 100 0 0); lia.
Defined.
