(* ===== verification/UringCalls.v ===== *)
(** third_party/liburing: submitting and waiting.

    The calls of src/queue.c and src/include/liburing.h that enter the kernel:
    [io_uring_submit], [io_uring_peek_cqe] and [io_uring_wait_cqe] with their
    helpers. The world is the ring (Uring.v), whose memory the kernel shares,
    and the kernel's own state [K]; [io_uring_enter] is a parameter, and what
    liburing's manual says of it is the class [LawfulUring]: it takes entries
    from the submission ring, and every request it has taken ends as exactly
    one completion in the completion ring. *)

From S2P Require Import Prelude Kernel Uring.

Definition IORING_SETUP_IOPOLL : Z := 2 ^ 0.
Definition IORING_SQ_NEED_WAKEUP : Z := 2 ^ 0.
Definition IORING_SQ_CQ_OVERFLOW : Z := 2 ^ 1.
Definition IORING_SQ_TASKRUN : Z := 2 ^ 2.
Definition IORING_ENTER_GETEVENTS : Z := 2 ^ 0.
Definition IORING_ENTER_SQ_WAKEUP : Z := 2 ^ 1.
Definition IORING_ENTER_REGISTERED_RING : Z := 2 ^ 4.
Definition IORING_ENTER_EXT_ARG_REG : Z := 2 ^ 6.
Definition IORING_ENTER_NO_IOWAIT : Z := 2 ^ 7.
Definition IORING_FEAT_EXT_ARG : Z := 2 ^ 8.
Definition IORING_CQE_F_SKIP : Z := 2 ^ 5.
Definition INT_FLAGS_MASK : Z := Z.lor IORING_ENTER_REGISTERED_RING IORING_ENTER_NO_IOWAIT.
Definition INT_FLAG_CQ_ENTER : Z := 4.
Definition EAGAIN : Z := 11.
Definition ETIME : Z := 62.

(** [int x = (unsigned) z] *)
Definition as_int (z : Z) : Z := if z <? 2 ^ 31 then z else z - uint_max.

(** The argument of [io_uring_enter]: a pointer to a signal mask, which may be
    null; a [struct io_uring_getevents_arg], of which only matters whether it
    has a timeout; or an offset. *)
Inductive enter_arg := NullSigmask | GeteventsArg (ts : bool) | RegOffset (offset : Z).

(** [_NSIG / 8] *)
Definition NSIG_bytes : Z := 64 / 8.

(** The kernel: [io_uring_enter(fd, to_submit, min_complete, flags, arg, sz)],
    a count or a negated error number, and the requests it has taken and not
    completed. *)
Class UringKernel (A U K : Type) := {
  sys_io_uring_enter2 : Z → Z → Z → Z → enter_arg → Z → M (io_uring A U * K) Z;
  accepted : K → list U
}.

(** Whether user data is [LIBURING_UDATA_TIMEOUT]. *)
Class UserData (U : Type) := is_udata_timeout : U → bool.

Section calls.
Context {A U K : Type} `{UringKernel A U K} `{UserData U} {F : Fuel}.

Abbreviation world := (io_uring A U * K)%type.

(** The ring, and an operation on the ring alone. *)
Definition the_ring : M world (io_uring A U) := λ w, (Done w.1, w).

Definition on_ring {X} (m : M (io_uring A U) X) : M world X := λ w,
  let '(o, r) := m w.1 in (o, (r, w.2)).

Definition sys_io_uring_enter (fd to_submit min_complete flags : Z) (sig : enter_arg) : M world Z :=
  sys_io_uring_enter2 fd to_submit min_complete flags sig NSIG_bytes.

(** ** Whether to enter *)

Definition ring_enter_flags (r : io_uring A U) : Z := Z.land (int_flags r) INT_FLAGS_MASK.

(** With the flags after the call. *)
Definition sq_ring_needs_enter (r : io_uring A U) (submit flags : Z) : bool * Z :=
  if submit =? 0 then (false, flags)
  else if negb (has (ring_flags r) IORING_SETUP_SQPOLL) then (true, flags)
  else if has (sq_kflags (sq r)) IORING_SQ_NEED_WAKEUP
  then (true, Z.lor flags IORING_ENTER_SQ_WAKEUP)
  else (false, flags).

Definition cq_ring_needs_flush (r : io_uring A U) : bool :=
  has (sq_kflags (sq r)) (Z.lor IORING_SQ_CQ_OVERFLOW IORING_SQ_TASKRUN).

Definition cq_ring_needs_enter (r : io_uring A U) : bool :=
  has (int_flags r) INT_FLAG_CQ_ENTER || cq_ring_needs_flush r.

(** ** Peeking *)

(** [io_uring_skip_cqe(ring, cqe, &err)]: its result and [err]. *)
Definition io_uring_skip_cqe (c : io_uring_cqe U) (err : Z) : M world (bool * Z) :=
  let out err :=
    on_ring (λ r, (Done (err =? 0, err), io_uring_cq_advance (io_uring_cqe_nr c) r)) in
  r ← the_ring;
  if has (cqe_flags c) IORING_CQE_F_SKIP then out err
  else if has (features r) IORING_FEAT_EXT_ARG then mret (false, err)
  else if negb (is_udata_timeout (cqe_user_data c)) then mret (false, err)
  else out (if cqe_res c <? 0 then cqe_res c else err).

(** [__io_uring_peek_cqe(ring, &cqe, &nr_available)]: its result, [cqe] and
    [nr_available]. *)
Definition peek_round (err : Z) : M world (Z + Z * option (io_uring_cqe U) * Z) :=
  r ← the_ring;
  let tail := cq_ktail (cq r) in
  let head := cq_khead (cq r) in
  let available := tail -ᵤ head in
  if available =? 0 then mret (inr (err, None, available))
  else
    match cqes (cq r) !! slot (cq_ring_mask (cq r)) (io_uring_cqe_shift r) head with
    | None => undefined
    | Some c =>
        '(skip, err) ← io_uring_skip_cqe c err;
        if negb skip
        then mret (inr (err, if negb (err =? 0) then None else Some c, available))
        else mret (inl err)
    end.

Definition io_uring_peek_cqe_ : M world (Z * option (io_uring_cqe U) * Z) :=
  loop fuel peek_round 0.

(** ** Getting a completion *)

Record get_data := mkGetData {
  gd_submit : Z; gd_wait_nr : Z; gd_get_flags : Z; gd_sz : Z; gd_has_ts : bool; gd_arg : enter_arg
}.

(** One round of [_io_uring_get_cqe]: [data->submit], [looped] and [err] go
    round; the results are the return value and [*cqe_ptr]. *)
Definition get_cqe_round (data : get_data) (v : Z * bool * Z)
    : M world (Z * bool * Z + Z * option (io_uring_cqe U)) :=
  let '(submit, looped, err) := v in
  r ← the_ring;
  let flags := ring_enter_flags r in
  '(ret, cqe, nr_available) ← io_uring_peek_cqe_;
  if negb (ret =? 0) then mret (inr (if err =? 0 then ret else err, cqe))
  else
    r ← the_ring;
    let nothing := bool_decide (cqe = None) && (gd_wait_nr data =? 0) && (submit =? 0) in
    if nothing && (looped || negb (cq_ring_needs_enter r))
    then mret (inr (if err =? 0 then - EAGAIN else err, cqe))
    else
      let need_enter := nothing in
      let '(flags, need_enter) :=
        if (nr_available <? gd_wait_nr data) || need_enter
        then (Z.lor flags (Z.lor IORING_ENTER_GETEVENTS (gd_get_flags data)), true)
        else (flags, need_enter) in
      let '(sq_needs, flags) := sq_ring_needs_enter r submit flags in
      let need_enter := sq_needs || need_enter in
      if negb need_enter then mret (inr (err, cqe))
      else if looped && gd_has_ts data then
        if negb (bool_decide (cqe = None)) then mret (inr (err, cqe))
        else if has (gd_get_flags data) IORING_ENTER_EXT_ARG_REG
        then mret (inr (if err =? 0 then - ETIME else err, cqe))
        else match gd_arg data with
             | GeteventsArg ts => mret (inr (if ts && (err =? 0) then - ETIME else err, cqe))
             | _ => undefined
             end
      else
        ret ← sys_io_uring_enter2 (enter_ring_fd r) submit (gd_wait_nr data) flags (gd_arg data) (gd_sz data);
        if ret <? 0 then mret (inr (if err =? 0 then ret else err, cqe))
        else if negb (bool_decide (cqe = None)) then mret (inr (err, cqe))
        else mret (inl (submit -ᵤ ret, true, if negb looped then ret else err)).

Definition io_uring_get_cqe_ (data : get_data) : M world (Z * option (io_uring_cqe U)) :=
  loop fuel (get_cqe_round data) (gd_submit data, false, 0).

(** [__io_uring_get_cqe], with a null signal mask. *)
Definition io_uring_get_cqe (submit wait_nr : Z) : M world (Z * option (io_uring_cqe U)) :=
  io_uring_get_cqe_ (mkGetData submit wait_nr 0 NSIG_bytes false NullSigmask).

Definition io_uring_wait_cqe_nr (wait_nr : Z) : M world (Z * option (io_uring_cqe U)) :=
  io_uring_get_cqe 0 wait_nr.

Definition io_uring_peek_cqe : M world (Z * option (io_uring_cqe U)) :=
  '(ret, cqe, _) ← io_uring_peek_cqe_;
  r ← the_ring;
  if (ret =? 0) && negb (bool_decide (cqe = None)) then mret (0, cqe)
  else if (ret =? 0) && negb (has (ring_flags r) IORING_SETUP_IOPOLL) &&
          negb (has (sq_kflags (sq r)) (Z.lor IORING_SQ_CQ_OVERFLOW IORING_SQ_TASKRUN))
  then mret (- EAGAIN, cqe)
  else io_uring_wait_cqe_nr 0.

Definition io_uring_wait_cqe : M world (Z * option (io_uring_cqe U)) :=
  '(ret, cqe, _) ← io_uring_peek_cqe_;
  if (ret =? 0) && negb (bool_decide (cqe = None)) then mret (0, cqe)
  else io_uring_wait_cqe_nr 1.

(** ** Submitting *)

(** [__io_uring_submit] *)
Definition io_uring_submit_ (submitted wait_nr : Z) (getevents : bool) : M world Z :=
  r ← the_ring;
  let cq_needs_enter := getevents || negb (wait_nr =? 0) || cq_ring_needs_enter r in
  let flags := ring_enter_flags r in
  let '(sq_needs, flags) := sq_ring_needs_enter r submitted flags in
  if sq_needs || cq_needs_enter then
    let flags := if cq_needs_enter then Z.lor flags IORING_ENTER_GETEVENTS else flags in
    sys_io_uring_enter (enter_ring_fd r) submitted wait_nr flags NullSigmask
  else mret (as_int submitted).

(** [__io_uring_submit_and_wait] *)
Definition io_uring_submit_and_wait (wait_nr : Z) : M world Z :=
  n ← on_ring io_uring_flush_sq;
  io_uring_submit_ n wait_nr false.

Definition io_uring_submit : M world Z := io_uring_submit_and_wait 0.

End calls.

(** ** What the kernel does *)

(** The memory the kernel writes: the head of the submission ring and its
    flags, and the tail and the entries of the completion ring. *)
Definition kernel_writes {A U} (khead kflags ktail : Z) (posted : list (io_uring_cqe U))
    (r : io_uring A U) : io_uring A U :=
  set_sq (mkSq khead (sq_ktail (sq r)) (sqes (sq r)) (sqe_head (sq r)) (sqe_tail (sq r))
            (sq_ring_mask (sq r)) (sq_ring_entries (sq r)) kflags)
    (set_cq (mkCq (cq_khead (cq r)) ktail posted (cq_ring_mask (cq r)) (cq_ring_entries (cq r))) r).

(** A completion of one place that stands for a request. *)
Definition plain {U} (c : io_uring_cqe U) : Prop :=
  single c ∧ has (cqe_flags c) IORING_CQE_F_SKIP = false.

(** A ring in order: neither polled by the kernel nor rewound, on a kernel with
    extended arguments; its entries ask for no special treatment. *)
Record uring_ok {A U} (r : io_uring A U) : Prop := {
  uok_sq : sq_ok r;
  uok_cq : cq_ok r;
  uok_khead : 0 ≤ sq_khead (sq r) < uint_max;
  uok_head : sqe_head (sq r) = sq_ktail (sq r);
  uok_published : sq_ktail (sq r) -ᵤ sq_khead (sq r) ≤ io_uring_sq_ready r;
  uok_flags : has (ring_flags r) IORING_SETUP_SQPOLL = false ∧
              has (ring_flags r) IORING_SETUP_SQ_REWIND = false;
  uok_features : has (features r) IORING_FEAT_EXT_ARG = true;
  uok_requests : Forall (λ e, sqe_flags e = 0) (sq_pending r);
  uok_completions : Forall plain (cq_list r)
}.

(** [P] of the result, when the call does not block forever. *)
Definition unless_blocked {W X} (P : X → W → Prop) : outcome X → W → Prop :=
  λ o w, match o with Done a => P a w | Blocked => True | _ => False end.

Section kernel.
Context {A U K : Type} `{UringKernel A U K}.
Implicit Types w : io_uring A U * K.

(** The kernel takes the first [m] published entries and posts completions:
    those it has taken and not completed are the same requests as before, with
    those it took and without those it completed. *)
Record kernel_step (m : nat) w w' : Prop := {
  ks_writes : ∃ kflags ktail posted,
    w'.1 = kernel_writes (sq_khead (sq w.1) +ᵤ Z.of_nat m) kflags ktail posted w.1;
  ks_published : Z.of_nat m ≤ sq_ktail (sq w.1) -ᵤ sq_khead (sq w.1);
  ks_cq : cq_ok w'.1;
  ks_posted : ∃ new, cq_list w'.1 = cq_list w.1 ++ new ∧ Forall plain new ∧
    (user_data <$> take m (sq_pending w.1)) ++ accepted w.2
      ≡ₚ accepted w'.2 ++ (cqe_user_data <$> new)
}.

End kernel.

(** [io_uring_enter] consumes no more than it was asked to and returns how many;
    asked only for completions, it returns when there are enough. *)
Class LawfulUring (A U K : Type) `{UringKernel A U K} := {
  enter_law fd to_submit min_complete flags arg sz (w : io_uring A U * K) :
    uring_ok w.1 → 0 ≤ to_submit →
    wp (sys_io_uring_enter2 fd to_submit min_complete flags arg sz) w (unless_blocked (λ ret w',
      ∃ m, Z.of_nat m ≤ to_submit ∧ kernel_step m w w' ∧
        (0 ≤ ret → ret = Z.of_nat m ∧
           (to_submit = 0 → has flags IORING_ENTER_GETEVENTS = true →
            min_complete ≤ lenZ (cq_list w'.1)))))
}.

(** ** Nothing is lost *)

Section unless_blocked.
Context {W : Type}.

Lemma wp_unless_mono {X} (m : M W X) w (P Q : X → W → Prop) :
  wp m w (unless_blocked P) → (∀ a w', P a w' → Q a w') → wp m w (unless_blocked Q).
Proof. intros Hm HPQ. eapply wp_mono; [done|]. intros [] w'; simpl; auto. Qed.

Lemma wp_bind_unless {X Y} (m : M W X) (f : X → M W Y) w (Q : Y → W → Prop) :
  wp m w (unless_blocked (λ a w', wp (f a) w' (unless_blocked Q))) →
  wp (m ≫= f) w (unless_blocked Q).
Proof. unfold wp, mbind, M_bind. by destruct (m w) as [[] w']. Qed.

Lemma wp_unless_upon {X} (m : M W X) w (P Q : X → W → Prop) :
  wp m w (unless_blocked P) → (∀ a w', P a w' → Q a w') → wp m w (upon Q).
Proof. intros Hm HPQ. eapply wp_mono; [done|]. intros [] w'; simpl; auto. Qed.

End unless_blocked.

Section conserves.
Context {A U K : Type} `{UringKernel A U K}.
Implicit Types w : io_uring A U * K.

(** The requests between being filled in and being consumed. *)
Definition requests w : list U :=
  (user_data <$> sq_pending w.1) ++ accepted w.2 ++ (cqe_user_data <$> cq_list w.1).

(** No request is lost or made up, and no completion is consumed. *)
Record conserves w w' : Prop := {
  cons_ok : uring_ok w'.1;
  cons_requests : requests w' ≡ₚ requests w;
  cons_completions : cq_list w.1 `prefix_of` cq_list w'.1;
  cons_size : cq_ring_entries (cq w'.1) = cq_ring_entries (cq w.1)
}.

Lemma conserves_refl w : uring_ok w.1 → conserves w w.
Proof. by split. Qed.

Lemma conserves_trans w1 w2 w3 : conserves w1 w2 → conserves w2 w3 → conserves w1 w3.
Proof.
  intros [_ H12 P12 S12] [? H23 P23 S23].
  split; [done|by rewrite H23|by trans (cq_list w2.1)|congruence].
Qed.

(** The submission ring after the kernel has taken [m] entries. *)
Lemma kernel_takes r m kflags ktail (posted : list (io_uring_cqe U)) :
  sq_ok r → Z.of_nat m ≤ io_uring_sq_ready r →
  let r' := kernel_writes (sq_khead (sq r) +ᵤ Z.of_nat m) kflags ktail posted r : io_uring A U in
  sq_ok r' ∧ sq_pending r' = drop m (sq_pending r) ∧
  io_uring_sq_ready r' = io_uring_sq_ready r - Z.of_nat m.
Proof.
  intros [Hs Ht Hf] Hm r'.
  assert (Hready : io_uring_sq_ready r' = io_uring_sq_ready r - Z.of_nat m)
    by (apply (uint_sub_advance (sq_khead (sq r)) (sqe_tail (sq r))); split; [lia|exact Hm]).
  split_and!; [split; [exact Hs|done|rewrite Hready; simpl; lia]| |done].
  unfold sq_pending at 1. rewrite Hready. unfold sq_pending.
  replace (Z.to_nat (io_uring_sq_ready r)) with
    (m + Z.to_nat (io_uring_sq_ready r - Z.of_nat m))%nat by lia.
  by rewrite (window_shift _ _ _ _ Hs), drop_app_length' by by rewrite (length_window _ _ _ _ Hs).
Qed.

Lemma kernel_step_conserves m w w' : uring_ok w.1 → kernel_step m w w' → conserves w w'.
Proof.
  intros [Hsq Hcq Hkh Hh Hp Hfl Hft Hreq Hcomp] [(kf & kt & cs & Hr) Hm Hcq' (new & Hnew & Hplain & Hcons)].
  destruct (kernel_takes w.1 m kf kt cs Hsq) as (Hsq' & Hpend & Hready); [lia|].
  rewrite <- Hr in Hsq', Hpend, Hready. split.
  - split; try done; try (rewrite Hr; done).
    + rewrite Hr. apply Z.mod_pos_bound. done.
    + rewrite Hready, Hr. simpl. rewrite uint_sub_advance by lia. lia.
    + rewrite Hpend. by apply Forall_drop.
    + rewrite Hnew. by apply Forall_app.
  - unfold requests. rewrite Hpend, Hnew, fmap_app.
    rewrite <- (take_drop m (sq_pending w.1)) at 2. rewrite fmap_app.
    transitivity ((user_data <$> drop m (sq_pending w.1)) ++
      (accepted w'.2 ++ (cqe_user_data <$> new)) ++ (cqe_user_data <$> cq_list w.1));
      [solve_Permutation|]. rewrite <- Hcons. solve_Permutation.
  - rewrite Hnew. by apply prefix_app_r.
  - by rewrite Hr.
Qed.

End conserves.

(** ** The calls *)

Section call_laws.
Context {A U K : Type} `{LawfulUring A U K} `{UserData U} {F : Fuel}.
Implicit Types w : io_uring A U * K.

Lemma wp_the_ring {X} (f : io_uring A U → M (io_uring A U * K) X) w Q :
  wp (f w.1) w Q → wp (the_ring ≫= f) w Q.
Proof. done. Qed.

(** The completion ring of a ring whose other half has changed. *)
Lemma cq_same (r r' : io_uring A U) :
  cq r' = cq r → ring_flags r' = ring_flags r →
  (cq_ok r → cq_ok r') ∧ cq_list r' = cq_list r.
Proof.
  intros Hcq Hfl. assert (io_uring_cqe_shift r' = io_uring_cqe_shift r) as Hshift
    by (unfold io_uring_cqe_shift; by rewrite Hfl).
  unfold cq_list, io_uring_cq_ready. rewrite Hshift, Hcq. split; [|done]. intros [].
  split; unfold io_uring_cq_ready in *; by rewrite ?Hshift, Hcq.
Qed.

(** The completion at the head of the ring. *)
Lemma cq_list_head (r : io_uring A U) :
  cq_ok r → io_uring_cq_ready r ≠ 0 → ∃ c,
    cqes (cq r) !! slot (cq_ring_mask (cq r)) (io_uring_cqe_shift r) (cq_khead (cq r)) = Some c ∧
    head (cq_list r) = Some c.
Proof.
  intros Hok Hne. pose proof (length_cq_list _ Hok) as Hlen. destruct Hok as [Hs Ht Hh _].
  destruct (window_S _ _ _ _ Hs (cq_khead (cq r)) 0) as (c & Hc & Hw).
  rewrite (wrap_id _ Hh) in Hc. exists c. split; [done|]. unfold cq_list in *.
  destruct (Z.to_nat (io_uring_cq_ready r)) as [|n]; [unfold lenZ in Hlen; simpl in Hlen; lia|].
  change (S n) with (1 + n)%nat. by rewrite (window_shift _ _ _ _ Hs), Hw.
Qed.

(** Peeking finds the first completion, and consumes nothing. *)
Lemma peek_round_law w :
  uring_ok w.1 →
  peek_round 0 w = (Done (inr (0, head (cq_list w.1), lenZ (cq_list w.1))), w).
Proof.
  intros Hok. rewrite length_cq_list by apply Hok.
  unfold peek_round, mbind, M_bind, the_ring. cbn [outcome_bind].
  change (cq_ktail (cq w.1) -ᵤ cq_khead (cq w.1)) with (io_uring_cq_ready w.1).
  destruct (Z.eqb_spec (io_uring_cq_ready w.1) 0) as [Hz|Hne].
  - unfold cq_list. by rewrite Hz.
  - destruct (cq_list_head w.1 (uok_cq _ Hok) Hne) as (c & Hc & Hhead). rewrite Hc.
    assert (plain c) as [_ Hskip].
    { pose proof (uok_completions _ Hok) as Hall. destruct (cq_list w.1); simplify_eq/=.
      by apply Forall_inv in Hall. }
    unfold io_uring_skip_cqe, mbind, M_bind, the_ring. cbn [outcome_bind].
    rewrite Hskip, (uok_features _ Hok). simpl. by rewrite Hhead.
Qed.

Lemma wp_peek {X} (f : Z * option (io_uring_cqe U) * Z → M (io_uring A U * K) X) w Q :
  uring_ok w.1 → (0 < fuel)%nat →
  wp (f (0, head (cq_list w.1), lenZ (cq_list w.1))) w Q → wp (io_uring_peek_cqe_ ≫= f) w Q.
Proof.
  intros Hok Hf HQ. unfold io_uring_peek_cqe_. destruct fuel as [|n]; [lia|]. cbn [loop].
  unfold wp, mbind, M_bind. rewrite peek_round_law by done. exact HQ.
Qed.

(** What getting a completion returns: the first one, or an error. *)
Definition got w (res : Z * option (io_uring_cqe U)) w' : Prop :=
  conserves w w' ∧
  (res.1 = 0 ∧ is_Some res.2 ∧ res.2 = head (cq_list w'.1) ∨ res.1 < 0 ∧ res.2 = None).

Lemma has_getevents x y : has (Z.lor x (Z.lor IORING_ENTER_GETEVENTS y)) IORING_ENTER_GETEVENTS = true.
Proof.
  unfold has. apply negb_true_iff, Z.eqb_neq. intros Hz%(f_equal (λ z, Z.testbit z 0)).
  rewrite Z.land_spec, !Z.lor_spec in Hz. simpl in Hz. by rewrite orb_true_r in Hz.
Qed.

(** Entering the kernel with nothing to submit. *)
Lemma enter_nothing fd wait x y arg' sz' w0 w :
  conserves w0 w →
  wp (sys_io_uring_enter2 fd 0 wait (Z.lor x (Z.lor IORING_ENTER_GETEVENTS y)) arg' sz') w
    (unless_blocked (λ ret w', conserves w0 w' ∧
      (ret < 0 ∨ ret = 0 ∧ wait ≤ lenZ (cq_list w'.1)))).
Proof.
  intros Hc. eapply wp_unless_mono; [apply enter_law; [apply Hc|lia]|].
  intros ret w' (m & Hm & Hstep & Hret).
  split; [eapply conserves_trans; [done|]; eapply kernel_step_conserves; [apply Hc|done]|].
  destruct (decide (ret < 0)); [by left|]. right.
  destruct Hret as [Hret Hlen]; [lia|]. split; [lia|]. by apply Hlen, has_getevents.
Qed.

(** One round, with nothing to submit and at most one completion to wait for. *)
Lemma get_cqe_round_law wait w0 w looped :
  0 ≤ wait ≤ 1 → (0 < fuel)%nat → conserves w0 w →
  (looped = true → wait ≤ lenZ (cq_list w.1)) →
  wp (get_cqe_round (mkGetData 0 wait 0 NSIG_bytes false NullSigmask) (0, looped, 0)) w
    (unless_blocked (λ r w', match r with
      | inl v => looped = false ∧ v = (0, true, 0) ∧ conserves w0 w' ∧ wait ≤ lenZ (cq_list w'.1)
      | inr res => got w0 res w'
      end)).
Proof.
  intros Hwait Hf Hc0 Hl. unfold get_cqe_round. apply wp_the_ring, wp_peek; [apply Hc0|done|].
  cbn [Z.eqb negb]. apply wp_the_ring. cbn [gd_wait_nr gd_get_flags gd_has_ts gd_arg gd_sz].
  destruct (cq_list w.1) as [|c l] eqn:Hcq; cbn [head].
  - rewrite bool_decide_true, !andb_true_r by done. cbn [andb].
    destruct ((wait =? 0) && (looped || negb (cq_ring_needs_enter w.1))) eqn:Hnone.
    { apply wp_ret. split; [done|]. by right. }
    destruct looped.
    { exfalso. specialize (Hl eq_refl). unfold lenZ in Hl. simpl in Hl.
      rewrite (proj2 (Z.eqb_eq wait 0)) in Hnone by lia. done. }
    assert ((lenZ (@nil (io_uring_cqe U)) <? wait) || (wait =? 0) = true) as ->.
    { change (lenZ (@nil (io_uring_cqe U))) with 0.
      destruct (Z.ltb_spec 0 wait), (Z.eqb_spec wait 0); try done; exfalso; lia. }
    cbn. apply wp_bind_unless. eapply wp_unless_mono; [by apply enter_nothing|].
    intros ret w' [Hc' [Hneg|[-> Hlen]]].
    + rewrite (proj2 (Z.ltb_lt _ _)) by done. apply wp_ret. split; [done|]. by right.
    + by apply wp_ret.
  - rewrite lenZ_cons. pose proof (lenZ_nonneg l). rewrite (proj2 (Z.ltb_ge _ _)) by lia. simpl.
    apply wp_ret. split; [done|]. left. rewrite Hcq. simpl. eauto.
Qed.

Lemma get_cqe_law wait w :
  0 ≤ wait ≤ 1 → (1 < fuel)%nat → uring_ok w.1 →
  wp (io_uring_get_cqe 0 wait) w (unless_blocked (got w)).
Proof.
  intros Hwait Hf Hok.
  apply (wp_loop _ (λ '(s, looped, err) w', s = 0 ∧ err = 0 ∧ conserves w w' ∧
           (looped = true → wait ≤ lenZ (cq_list w'.1)))
           (λ '(_, looped, _) _, if looped : bool then 0 else 1)%nat).
  - intros [[s looped] err] w' (-> & -> & Hc & Hl).
    eapply wp_mono; [apply (get_cqe_round_law wait w); [done|lia|done|done]|].
    intros [[v|res]| | | |] w2; simpl; try done. intros (-> & -> & Hc2 & Hw2). simpl. auto with lia.
  - split_and!; [done|done|by apply conserves_refl|done].
  - done.
Qed.

Lemma wait_cqe_law w :
  (1 < fuel)%nat → uring_ok w.1 → wp io_uring_wait_cqe w (unless_blocked (got w)).
Proof.
  intros Hf Hok. unfold io_uring_wait_cqe. apply wp_peek; [done|lia|]. cbn [Z.eqb andb].
  destruct (cq_list w.1) as [|c l] eqn:Hcq; cbn [head].
  - rewrite bool_decide_true by done. by apply get_cqe_law.
  - rewrite bool_decide_false by done. apply wp_ret. split; [by apply conserves_refl|].
    left. rewrite Hcq. simpl. eauto.
Qed.

Lemma peek_cqe_law w :
  (1 < fuel)%nat → uring_ok w.1 → wp io_uring_peek_cqe w (unless_blocked (got w)).
Proof.
  intros Hf Hok. unfold io_uring_peek_cqe. apply wp_peek; [done|lia|]. cbn [Z.eqb andb].
  apply wp_the_ring. destruct (cq_list w.1) as [|c l] eqn:Hcq; cbn [head].
  - rewrite bool_decide_true by done. cbn [negb]. destruct (_ && _); [|by apply get_cqe_law].
    apply wp_ret. split; [by apply conserves_refl|]. by right.
  - rewrite bool_decide_false by done. apply wp_ret. split; [by apply conserves_refl|].
    left. rewrite Hcq. simpl. eauto.
Qed.

(** Publishing the pending entries. *)
Lemma ring_flush_law w :
  uring_ok w.1 → ∃ r', on_ring io_uring_flush_sq w = (Done (lenZ (sq_pending w.1)), (r', w.2)) ∧
    conserves w (r', w.2) ∧ sq_pending r' = sq_pending w.1.
Proof.
  intros [Hsq Hcq Hkh Hh Hp [Hpoll Hrw] Hft Hreq Hcomp].
  destruct (flush_sq_law w.1 Hsq Hrw Hh) as (s & Hfl & Hsq' & Hpend & Htail & Hhead & Hskh).
  exists (set_sq s w.1). unfold on_ring. rewrite Hfl. split_and!; [done| |done]. split; simpl.
  - split; simpl; try done;
      [by eapply cq_same; [| |exact Hcq]|by rewrite Hskh|congruence|by rewrite Htail|by rewrite Hpend].
  - unfold requests. simpl. by rewrite Hpend.
  - done.
  - done.
Qed.

(** A submission hands over as many of the pending entries, from the first on,
    as it returns. *)
Definition submitted w (ret : Z) w' : Prop :=
  conserves w w' ∧ (0 ≤ ret → ret ≤ lenZ (sq_pending w.1) ∧
                              sq_pending w'.1 = dropZ ret (sq_pending w.1)).

Lemma enter_submits fd n flags arg' sz' w0 w :
  conserves w0 w → sq_pending w.1 = sq_pending w0.1 → 0 ≤ n ≤ lenZ (sq_pending w0.1) →
  wp (sys_io_uring_enter2 fd n 0 flags arg' sz') w (unless_blocked (submitted w0)).
Proof.
  intros Hc Hp Hn. eapply wp_unless_mono; [apply enter_law; [apply Hc|lia]|].
  intros ret w' (m & Hm & Hstep & Hret).
  split; [eapply conserves_trans; [done|]; eapply kernel_step_conserves; [apply Hc|done]|].
  intros [-> _]%Hret. split; [lia|]. destruct Hstep as [(kf & kt & cs & ->) Hpub _ _].
  destruct (kernel_takes w.1 m kf kt cs) as (_ & Hdrop & _);
    [apply Hc|pose proof (uok_published _ (cons_ok _ _ Hc)); lia|].
  rewrite Hdrop, Hp, dropZ_drop. by rewrite Nat2Z.id.
Qed.

Lemma uring_submit_law w :
  uring_ok w.1 → wp io_uring_submit w (unless_blocked (submitted w)).
Proof.
  intros Hok. unfold io_uring_submit, io_uring_submit_and_wait.
  destruct (ring_flush_law w Hok) as (r' & Hfl & Hc & Hp). apply wp_bind_unless. unfold wp. rewrite Hfl.
  simpl. unfold io_uring_submit_. apply wp_the_ring. simpl. pose proof (cons_ok _ _ Hc) as Hok'.
  assert (0 ≤ lenZ (sq_pending w.1)) by apply lenZ_nonneg.
  unfold sq_ring_needs_enter. rewrite (proj1 (uok_flags r' Hok')).
  destruct (Z.eqb_spec (lenZ (sq_pending w.1)) 0) as [Hz|Hne]; cbn [negb orb].
  - destruct (cq_ring_needs_enter r'); [by apply enter_submits|].
    apply wp_ret. split; [done|]. rewrite Hz. intros _. split; [done|].
    simpl. by rewrite dropZ_0, Hp.
  - by apply enter_submits.
Qed.

End call_laws.
