(* ===== verification/UringSim.v ===== *)
(** A kernel behind liburing's rings, to show that what UringCalls.v asks of
    [io_uring_enter] can be had: it performs every request as soon as it takes
    it, posts completions while the completion ring has room, and keeps the
    rest. *)

From S2P Require Import Prelude Kernel Uring UringCalls.

Section sim.
Context {A U : Type} (perform : io_uring_sqe A U → Z).
Implicit Types (r : io_uring A U) (k : list (U * Z)).

(** A request that has been performed, with its result, and its completion. *)
Definition performed (e : io_uring_sqe A U) : U * Z := (user_data e, perform e).

Definition completion (p : U * Z) : io_uring_cqe U := mkCqe p.1 p.2 0.

(** Store a completion behind the last one and move the tail. *)
Definition post_one (c : io_uring_cqe U) r : io_uring A U :=
  kernel_writes (sq_khead (sq r)) (sq_kflags (sq r)) (cq_ktail (cq r) +ᵤ 1)
    (alter (λ _, c) (slot (cq_ring_mask (cq r)) (io_uring_cqe_shift r) (cq_ktail (cq r)))
       (cqes (cq r))) r.

Fixpoint post k r : io_uring A U * list (U * Z) :=
  match k with
  | [] => (r, [])
  | c :: k' => if io_uring_cq_ready r <? cq_ring_entries (cq r) then post k' (post_one (completion c) r)
                else (r, k)
  end.

Definition sim_enter (to_submit min_complete flags : Z) : M (io_uring A U * list (U * Z)) Z :=
  λ '(r, k),
    let m := Z.to_nat (to_submit `min` (sq_ktail (sq r) -ᵤ sq_khead (sq r))) in
    let k := k ++ (performed <$> take m (sq_pending r)) in
    let r := kernel_writes (sq_khead (sq r) +ᵤ Z.of_nat m) (sq_kflags (sq r)) (cq_ktail (cq r))
               (cqes (cq r)) r in
    let w := post k r in
    if has flags IORING_ENTER_GETEVENTS && (lenZ (cq_list w.1) <? min_complete) then (Blocked, w)
    else (Done (Z.of_nat m), w).

Definition sim_kernel : UringKernel A U (list (U * Z)) := {|
  sys_io_uring_enter2 _ to_submit min_complete flags _ _ := sim_enter to_submit min_complete flags;
  accepted k := k.*1
|}.

(** One more completion. *)
Lemma post_one_law c r :
  cq_ok r → io_uring_cq_ready r < cq_ring_entries (cq r) →
  cq_ok (post_one c r) ∧ cq_list (post_one c r) = cq_list r ++ [c].
Proof.
  intros [Hs Ht Hh Hf] Hroom. set (n := Z.to_nat (io_uring_cq_ready r)).
  assert (0 ≤ io_uring_cq_ready r) by (apply Z.mod_pos_bound; done).
  pose proof (entries_bound _ _ _ _ Hs) as Hb.
  assert (Htail : cq_khead (cq r) +ᵤ Z.of_nat n = cq_ktail (cq r)).
  { unfold n. rewrite Z2Nat.id by done. by apply uint_sub_add. }
  assert (Hready : io_uring_cq_ready (post_one c r) = io_uring_cq_ready r + 1).
  { apply (uint_sub_succ (cq_khead (cq r)) (cq_ktail (cq r))).
    change (io_uring_cq_ready r + 1 < uint_max). unfold uint_max. lia. }
  set (i := slot (cq_ring_mask (cq r)) (io_uring_cqe_shift r) (cq_ktail (cq r))).
  pose proof (shape_alter _ _ _ _ (λ _, c) i Hs) as Hs'.
  split; [split; [exact Hs'|apply Z.mod_pos_bound; done|done|rewrite Hready; simpl; lia]|].
  unfold cq_list at 1. rewrite Hready. replace (Z.to_nat _) with (S n) by lia.
  destruct (window_S _ _ _ _ Hs' (cq_khead (cq r)) n) as (x & Hx & Hw).
  destruct (window_S _ _ _ _ Hs (cq_khead (cq r)) n) as (y & Hy & _).
  rewrite Htail in Hx, Hy. fold i in Hx, Hy. rewrite list_lookup_alter_eq, Hy in Hx. simpl in Hx. injection Hx as <-.
  etransitivity; [exact Hw|]. unfold i. rewrite <- Htail.
  by rewrite (window_alter _ _ _ _ Hs) by lia.
Qed.

Lemma post_law k r :
  cq_ok r → let '(r', k') := post k r in
  cq_ok r' ∧ (∃ new, k = new ++ k' ∧ cq_list r' = cq_list r ++ (completion <$> new)) ∧
  ∃ kt cs, r' = kernel_writes (sq_khead (sq r)) (sq_kflags (sq r)) kt cs r.
Proof.
  revert r. induction k as [|c k IH]; intros r Hok; simpl.
  { split_and!; [done|exists []; split; [done|]; simpl; by rewrite app_nil_r|].
    exists (cq_ktail (cq r)), (cqes (cq r)). by destruct r as [[] []]. }
  destruct (Z.ltb_spec (io_uring_cq_ready r) (cq_ring_entries (cq r))) as [Hlt|Hge].
  - destruct (post_one_law (completion c) r Hok Hlt) as [Hok1 Hl1]. specialize (IH _ Hok1).
    destruct (post k (post_one (completion c) r)) as [r' k'].
    destruct IH as (Hok' & (new & -> & Hl) & kt & cs & Hr). split_and!; [done| |by exists kt, cs].
    exists (c :: new). by rewrite Hl, Hl1, <- (assoc_L (++)).
  - split_and!; [done|exists []; split; [done|]; simpl; by rewrite app_nil_r|].
    exists (cq_ktail (cq r)), (cqes (cq r)). by destruct r as [[] []].
Qed.

(** The kernel keeps the law. *)
Lemma sim_enter_lawful : @LawfulUring A U (list (U * Z)) sim_kernel.
Proof.
  split. intros fd to_submit min_complete flags arg sz [r k] Hok Hsub. simpl in Hok. unfold wp. simpl.
  set (published := sq_ktail (sq r) -ᵤ sq_khead (sq r)).
  assert (0 ≤ published) by (apply Z.mod_pos_bound; done).
  set (m := Z.to_nat (to_submit `min` published)). set (r1 := kernel_writes _ _ _ _ _).
  set (k1 := k ++ _). assert (cq_ok r1) as Hok1.
  { by eapply cq_same; [..|apply Hok]; destruct r as [? []]. }
  assert (cq_list r1 = cq_list r) as Hl1 by (apply cq_same; by destruct r as [? []]).
  pose proof (post_law k1 r1 Hok1) as Hpost. destruct (post k1 r1) as [r2 k2] eqn:Hp.
  destruct Hpost as (Hok2 & (new & Hk & Hl2) & kt & cs & Hr2). simpl.
  destruct (_ && _) eqn:Hb; simpl; [done|].
  exists m. split_and!; [lia| |].
  - split; simpl; [by exists (sq_kflags (sq r)), kt, cs|lia|done|].
    exists (completion <$> new). split_and!.
    + by rewrite Hl2, Hl1.
    + by apply Forall_fmap, Forall_true.
    + rewrite <- list_fmap_compose. transitivity (k1.*1).
      * unfold k1. rewrite fmap_app, <- list_fmap_compose. solve_Permutation.
      * rewrite Hk, fmap_app. solve_Permutation.
  - intros _. split; [done|]. intros _ Hget. rewrite Hget in Hb. simpl in Hb.
    by apply Z.ltb_ge in Hb.
Qed.

End sim.

(** C26. liburing's calls neither lose nor make up a request. Over any kernel that
    keeps the law of [io_uring_enter], on a ring in order: [io_uring_submit]
    hands over, from the first on, as many of the pending entries as it
    returns; [io_uring_peek_cqe] and [io_uring_wait_cqe], unless the kernel makes
    them wait for ever, return after at most two rounds, with success and the
    first completion that is not consumed, or with an error and none; and all the while every request is
    pending, with the kernel or completed exactly as often as before, and no
    completion is consumed. *)
Theorem uring_calls_lose_nothing {A U K} `{LawfulUring A U K} `{UserData U} {F : Fuel}
    (w : io_uring A U * K) :
  uring_ok w.1 → (1 < fuel)%nat →
  wp io_uring_submit w (unless_blocked (λ ret w', conserves w w' ∧
    (0 ≤ ret → ret ≤ lenZ (sq_pending w.1) ∧ sq_pending w'.1 = dropZ ret (sq_pending w.1)))) ∧
  wp io_uring_peek_cqe w (unless_blocked (λ '(ret, c) w', conserves w w' ∧
    (ret = 0 ∧ is_Some c ∧ c = head (cq_list w'.1) ∨ ret < 0 ∧ c = None))) ∧
  wp io_uring_wait_cqe w (unless_blocked (λ '(ret, c) w', conserves w w' ∧
    (ret = 0 ∧ is_Some c ∧ c = head (cq_list w'.1) ∨ ret < 0 ∧ c = None))).
Proof.
  intros Hok Hf. split_and!; [by apply uring_submit_law|..].
  - eapply wp_unless_mono; [by apply peek_cqe_law|]. by intros [ret c] w'.
  - eapply wp_unless_mono; [by apply wait_cqe_law|]. by intros [ret c] w'.
Qed.

(** A new ring of four entries, and eight completions, with the flags and
    features the event loop's ring has. *)
Definition new_uring {A U} (e : io_uring_sqe A U) (c : io_uring_cqe U) : io_uring A U :=
  mkRing (mkSq 0 0 (replicate 4 e) 0 0 3 4 0) (mkCq 0 0 (replicate 8 c) 7 8)
    (Z.lor (2 ^ 8) (2 ^ 12)) IORING_FEAT_EXT_ARG 0 3.

Lemma new_uring_ok {A U} (e : io_uring_sqe A U) c : uring_ok (new_uring e c).
Proof.
  split; try done.
  - split; [|done|done]. split; [by exists 2|done|done|done].
  - split; [|done|done|done]. split; [by exists 3|done|done|done].
Qed.

(** Witness: two requests are submitted, performed and waited for. *)
Lemma uring_calls_lose_nothing_witness :
  let F := 3%nat : Fuel in
  let UD := (λ _, false) : UserData Z in
  let SK := sim_kernel (λ e, len e + 1) : UringKernel unit Z (list (Z * Z)) in
  let e := mkSqe 0 1 1 0 0 () 0 1 0 1 1 1 1 1 in
  let ask n : M (io_uring unit Z * list (Z * Z)) unit :=
    i ← on_ring io_uring_get_sqe;
    match i with
    | Some i => on_ring (λ r, (Done (), update_sqe i (λ e,
                  io_uring_sqe_set_data n (io_uring_prep_read 5 () n 0 e)) r))
    | None => undefined
    end in
  let w := (new_uring e (mkCqe 0 0 0), []) in
  let run : M (io_uring unit Z * list (Z * Z)) (Z * (Z * option (io_uring_cqe Z))) :=
    _ ← ask 10; _ ← ask 20; n ← io_uring_submit; c ← io_uring_wait_cqe; mret (n, c) in
  wp io_uring_submit w (unless_blocked (λ ret w', conserves w w' ∧
    (0 ≤ ret → ret ≤ lenZ (sq_pending w.1) ∧ sq_pending w'.1 = dropZ ret (sq_pending w.1)))) ∧
  (run w).1 = Done (2, (0, Some (mkCqe 10 11 0))) ∧
  cqe_user_data <$> cq_list (run w).2.1 = [10; 20].
Proof.
  intros F UD SK e ask w run. split_and!; [|vm_compute; reflexivity|vm_compute; reflexivity].
  pose proof (sim_enter_lawful (λ e, len e + 1) : @LawfulUring unit Z (list (Z * Z)) SK) as HL.
  apply (uring_calls_lose_nothing w); [apply new_uring_ok|unfold fuel, F; lia].
Defined.
