(* ===== verification/UringLoop.v ===== *)
(** The event loop over liburing's rings.

    RequestPool.v and Accounting.v state what the event loop relies on of its
    ring ([LawfulRing], [LawfulQueue]). This file shows that liburing, as
    modelled in Uring.v and UringCalls.v, provides it over any kernel that keeps
    the law of [io_uring_enter], and concludes what a successful return of
    [pump] means for the rings themselves. *)

From S2P Require Import Prelude Kernel Sinks Dirents RequestPool Grep EventLoop Accounting.
From S2P Require Import Uring UringCalls UringSim.

(** The addresses that requests put into an entry: none, the characters of a
    path, the buffer of a read request, and a place in the buffer of a write. *)
Inductive address :=
  | NullAddress
  | PathAddress (path : string)
  | ReadBuffer (req : Op * ptr)
  | WriteBuffer (buffer : bytes) (from : Z).

(** [prep] of a request and [io_uring_sqe_set_data(sqe, next)] *)
Definition prep_sqe (o : sqe_op) (data : Op * ptr) (e : io_uring_sqe address (Op * ptr))
    : io_uring_sqe address (Op * ptr) :=
  io_uring_sqe_set_data data
    match o with
    | SqeOpenat dfd path flags mode => io_uring_prep_openat dfd (PathAddress path) flags mode e
    | SqeClose fd => io_uring_prep_close NullAddress fd e
    | SqeRead fd nbytes offset => io_uring_prep_read fd (ReadBuffer data) nbytes offset e
    | SqeWrite fd buffer from nbytes offset =>
        io_uring_prep_write fd (WriteBuffer buffer from) nbytes offset e
    end.

(** A pointer to a request is not [LIBURING_UDATA_TIMEOUT]. *)
#[global] Instance request_data : UserData (Op * ptr) := λ _, false.

(** [io_uring_queue_init], which maps the rings. *)
Class UringSetup (K : Type) :=
  uring_setup : Z → Z → M (io_uring address (Op * ptr) * K) Z.

Section instances.
Context {K : Type} `{UringKernel address (Op * ptr) K} `{UringSetup K} {F : Fuel}.

Abbreviation world := (io_uring address (Op * ptr) * K)%type.

#[global] Instance uring_ring : Ring world := {|
  RequestPool.io_uring_get_sqe := i ← on_ring Uring.io_uring_get_sqe; mret (Z.of_nat <$> i);
  io_uring_prep sqe o data :=
    on_ring (λ r, (Done (), update_sqe (Z.to_nat sqe) (prep_sqe o data) r))
|}.

(** The completions: peek, wait when there is none, and look at all. *)
#[global] Instance uring_queue : RingQueue world := {|
  io_uring_queue_init := uring_setup;
  EventLoop.io_uring_submit := UringCalls.io_uring_submit;
  io_uring_completions :=
    '(ret, _) ← io_uring_peek_cqe;
    _ ← (if negb (ret =? 0) then _ ← io_uring_wait_cqe; mret () else mret ());
    r ← the_ring;
    io_uring_for_each_cqe r (λ c l, mret (l ++ [(cqe_res c, io_uring_cqe_get_data c)])) [];
  EventLoop.io_uring_cq_advance n := on_ring (λ r, (Done (), Uring.io_uring_cq_advance n r))
|}.

(** The rings as the event loop sees them; there is fuel to look at a full
    completion ring. *)
#[global] Instance uring_view : RingView world := {|
  ring_ok w := uring_ok w.1 ∧ cq_ring_entries (cq w.1) < Z.of_nat fuel;
  in_ring := requests;
  seen sn w := sn `prefix_of` (cqe_user_data <$> cq_list w.1)
|}.

Implicit Types w : world.

Lemma conserves_keeps w w' : ring_ok w → conserves w w' → ring_keeps w w'.
Proof.
  intros [_ Hfuel] [Hok Hreq [new Hcq] Hsize]. split; simpl.
  - by rewrite Hsize.
  - by rewrite app_nil_r.
  - intros sn Hsn. rewrite Hcq, fmap_app. by apply prefix_app_r.
Qed.

(** Taking an entry leaves what the kernel sees alone. *)
Lemma get_sqe_same {A U} (r r' : io_uring A U) i :
  Uring.io_uring_get_sqe r = (Done (Some i), r') →
  sq_khead (sq r') = sq_khead (sq r) ∧ sq_ktail (sq r') = sq_ktail (sq r) ∧
  sqe_head (sq r') = sqe_head (sq r) ∧ features r' = features r.
Proof. unfold Uring.io_uring_get_sqe. intros. by repeat case_match; simplify_eq. Qed.

Lemma prep_sqe_plain o data e :
  sqe_flags (prep_sqe o data (io_uring_initialize_sqe e)) = 0.
Proof. by destruct o. Qed.

(** Filling in an entry that was taken. *)
Lemma prep_ok (r r' : io_uring address (Op * ptr)) i (k : K) o data :
  uring_ok r → Uring.io_uring_get_sqe r = (Done (Some i), r') →
  let r2 := update_sqe i (prep_sqe o data) r' in
  uring_ok r2 ∧ cq r2 = cq r ∧ ring_flags r2 = ring_flags r ∧
  user_data <$> sq_pending r2 = (user_data <$> sq_pending r) ++ [data].
Proof.
  intros Hok Hget r2. destruct (get_sqe_same _ _ _ Hget) as (Hkh & Hkt & Hh & Hft).
  destruct (decide (sq_ring_entries (sq r) ≤ io_uring_sq_ready r)) as [Hfull|Hroom].
  { by rewrite get_sqe_full in Hget. }
  destruct (Uring.get_sqe_law r) as (i' & e & r1 & Hget' & Hcq & Hfl & Hf); [apply Hok|lia|].
  rewrite Hget in Hget'. injection Hget' as <- <-.
  destruct (Hf (prep_sqe o data)) as [Hsq Hpend]. fold r2 in Hsq, Hpend.
  pose proof (prep_sqe_plain o data e) as Hflags.
  destruct (cq_same r r2) as [Hcqok Hcql]; [done..|].
  assert (io_uring_sq_ready r2 = io_uring_sq_ready r + 1) as Hready.
  { rewrite <- !length_sq_pending, Hpend, lenZ_app by (done || apply Hok). done. }
  split_and!; [|done|done|by rewrite Hpend, fmap_app].
  destruct Hok as [_ Hcq0 Hkh0 Hh0 Hp0 Hfl0 Hft0 Hreq0 Hcomp0]. split; simpl; try done.
  - by apply Hcqok.
  - by rewrite Hkh.
  - congruence.
  - rewrite Hready, Hkt, Hkh. lia.
  - by rewrite Hfl.
  - by rewrite Hft.
  - rewrite Hpend. apply Forall_app. by repeat constructor.
  - by rewrite Hcql.
Qed.

#[global] Instance uring_lawful_ring : LawfulRing world.
Proof.
  refine {| ring_taken w0 sqe w := ring_ok w0 ∧ w.2 = w0.2 ∧ ∃ i, sqe = Z.of_nat i ∧
              Uring.io_uring_get_sqe w0.1 = (Done (Some i), w.1) |}.
  - intros w Hok. unfold wp. simpl. unfold mbind, M_bind, on_ring.
    destruct (decide (sq_ring_entries (sq w.1) ≤ io_uring_sq_ready w.1)) as [Hfull|Hroom].
    { rewrite get_sqe_full by done. simpl. destruct w. by apply ring_keeps_refl. }
    destruct (Uring.get_sqe_law w.1) as (i & e & r1 & -> & _); [apply Hok|lia|]. simpl. eauto.
  - intros sqe o data w0 w (Hok & Hk & i & -> & Hget). unfold wp. simpl. rewrite Nat2Z.id.
    destruct (prep_ok w0.1 w.1 i w.2 o data) as (Hok2 & Hcq & Hfl & Hpend); [apply Hok|done|].
    destruct (cq_same w0.1 (update_sqe i (prep_sqe o data) w.1)) as [_ Hcql]; [done..|].
    split; simpl.
    + split; [done|]. simpl in Hcq. rewrite Hcq. apply Hok.
    + unfold requests. simpl. rewrite Hpend, Hcql, Hk. solve_Permutation.
    + intros sn. by rewrite Hcql.
Defined.

(** Looking at all completions. *)
Lemma each_collect {U W X} (g : io_uring_cqe U → X) l s (w : W) :
  each (λ c l, mret (l ++ [g c])) l s w = (Done (s ++ (g <$> l)), w).
Proof.
  revert s. induction l as [|c l IH]; intros s; simpl; [by rewrite app_nil_r|].
  unfold mbind, M_bind, mret, M_ret. simpl. rewrite IH. by rewrite <- (assoc_L (++)).
Qed.

End instances.

(** The system calls of the loop that are not about the ring let the kernel do
    no more than post completions. *)
Class QuietDirs (K : Type) `{UringKernel address (Op * ptr) K}
    `{DirKernel (io_uring address (Op * ptr) * K)} := {
  getdents_quiet fd size (w : io_uring address (Op * ptr) * K) :
    uring_ok w.1 → wp (sys_getdents64 fd size) w (upon (λ _, kernel_step 0 w));
  println_quiet line (w : io_uring address (Op * ptr) * K) :
    uring_ok w.1 → wp (println_cerr line) w (upon (λ _, kernel_step 0 w))
}.

Section lawful.
Context {K : Type} `{LawfulUring address (Op * ptr) K} `{UringSetup K}.
Context `{!DirKernel (io_uring address (Op * ptr) * K)} `{!QuietDirs K} {F : Fuel}.
Implicit Types w : io_uring address (Op * ptr) * K.

Lemma ring_fuel w : ring_ok w → (1 < fuel)%nat ∧ (length (cq_list w.1) < fuel)%nat.
Proof.
  intros [Hok Hfuel]. pose proof (length_cq_list _ (uok_cq _ Hok)) as Hlen.
  destruct (uok_cq _ Hok) as [Hs _ _ Hfits]. pose proof (entries_bound _ _ _ _ Hs).
  unfold lenZ in Hlen. lia.
Qed.

(** After peeking and waiting, all completions are looked at, and there is one
    unless waiting has failed. *)
Lemma completions_law w :
  ring_ok w →
  wp io_uring_completions w (unless_blocked (λ cqes w',
    conserves w w' ∧ cqes = (λ c, (cqe_res c, cqe_user_data c)) <$> cq_list w'.1)).
Proof.
  intros Hok. destruct (ring_fuel w Hok) as [Hf _]. cbn [io_uring_completions uring_queue].
  apply wp_bind_unless. eapply wp_unless_mono; [apply peek_cqe_law; [done|apply Hok]|].
  intros [ret c] w1 [Hc1 _]. pose proof (conserves_keeps _ _ Hok Hc1) as [Hok1 _ _].
  apply wp_bind_unless.
  apply (wp_unless_mono _ _ (λ _ w2, conserves w w2)).
  { destruct (negb _); [|by apply wp_ret]. apply wp_bind_unless.
    eapply wp_unless_mono; [apply wait_cqe_law; [done|apply Hok1]|].
    intros [ret2 c2] w2 [Hc2 _]. apply wp_ret. by eapply conserves_trans. }
  intros _ w2 Hc2. pose proof (conserves_keeps _ _ Hok Hc2) as [Hok2 _ _].
  apply wp_the_ring. destruct (ring_fuel w2 Hok2) as [_ Hlen]. unfold wp.
  rewrite for_each_law; [|apply Hok2| |done]; [by rewrite each_collect|].
  eapply Forall_impl; [apply (uok_completions w2.1), Hok2|]. by intros ? [? _].
Qed.

Lemma quiet_keeps w w' : ring_ok w → kernel_step 0 w w' → ring_keeps w w'.
Proof.
  intros Hok Hstep. apply conserves_keeps; [done|]. eapply kernel_step_conserves; [apply Hok|done].
Qed.

(** Consuming what has been looked at. *)
Lemma advance_law sn w :
  ring_ok w → seen sn w →
  let w' := (Uring.io_uring_cq_advance (lenZ sn) w.1, w.2) in
  ring_ok w' ∧ in_ring w ≡ₚ sn ++ in_ring w'.
Proof.
  intros [Hok Hfuel] [l Hl] w'. simpl.
  assert (lenZ (cq_list w.1) = lenZ sn + lenZ l) as Hlen.
  { rewrite <- lenZ_app, <- Hl. unfold lenZ. by rewrite length_fmap. }
  pose proof (lenZ_nonneg sn). pose proof (lenZ_nonneg l).
  destruct (cq_advance_law w.1 (lenZ sn)) as (Hcq & Hlist & Hsq); [apply Hok|lia|].
  assert (sq_pending w'.1 = sq_pending w.1) as Hpend.
  { unfold w', Uring.io_uring_cq_advance. simpl. by case_match. }
  assert (cqe_user_data <$> cq_list w'.1 = l) as Hrest.
  { simpl. rewrite Hlist, dropZ_drop, fmap_drop, Hl. unfold lenZ. by rewrite Nat2Z.id, drop_app_length. }
  split.
  - destruct Hok as [Hsq0 _ Hkh Hh Hp Hfl Hft Hreq Hcomp].
    unfold w', Uring.io_uring_cq_advance in *. simpl in *. destruct (negb _); [|done].
    split; [|done]. split; try done; [by destruct Hsq0|]. rewrite Hlist, dropZ_drop. by apply Forall_drop.
  - unfold requests. rewrite Hpend, Hrest, Hl. simpl. solve_Permutation.
Qed.

#[global] Instance uring_lawful_queue : LawfulQueue (io_uring address (Op * ptr) * K).
Proof.
  split.
  - intros w Hok. eapply wp_unless_upon; [apply uring_submit_law, Hok|].
    intros ret w' [Hc _]. by apply conserves_keeps.
  - intros w Hok. eapply wp_unless_upon; [by apply completions_law|].
    intros cqes w' [Hc ->].
    assert (((λ c, (cqe_res c, cqe_user_data c)) <$> cq_list w'.1).*2
              = cqe_user_data <$> cq_list w'.1) as ->.
    { rewrite <- list_fmap_compose. by apply list_fmap_ext. }
    split_and!; [by apply conserves_keeps|simpl; reflexivity|]. simpl. unfold requests.
    by do 2 apply submseteq_inserts_l.
  - intros sn w Hok Hseen. unfold wp. simpl.
    destruct (advance_law sn w Hok Hseen) as [Hok' Hring]. split_and!; [apply Hok'..|done|].
    apply prefix_nil.
  - intros fd size w Hok. eapply wp_upon_mono; [apply getdents_quiet, Hok|]. intros ? w'.
    by apply quiet_keeps.
  - intros line w Hok. eapply wp_upon_mono; [apply println_quiet, Hok|]. intros ? w'.
    by apply quiet_keeps.
Defined.

End lawful.

(** C25. Success of the event loop means that liburing's rings and the kernel have
    nothing left. Over liburing and any kernel that keeps the law of
    [io_uring_enter], from an empty ring in order, for any first operation and
    any handlers that keep the loop's account: when [pump] returns success, the
    rings are in order, [in_flight_] is zero, and (unless there were [2^64]
    requests) no entry is pending in the submission ring, the kernel has no
    request that is not complete, every completion has been consumed, and no
    read has failed. *)
Theorem event_loop_over_liburing_completes {K} `{LawfulUring address (Op * ptr) K} `{UringSetup K}
    `{!Kernel (io_uring address (Op * ptr) * K)} `{!DirKernel (io_uring address (Op * ptr) * K)}
    `{!QuietDirs K} {F : Fuel} (N : nat)
    (h : handlers (W := io_uring address (Op * ptr) * K))
    (start : EventLoop → M (io_uring address (Op * ptr) * K) EventLoop)
    (w : io_uring address (Op * ptr) * K) :
  uring_ok w.1 → cq_ring_entries (cq w.1) < Z.of_nat fuel → requests w = [] →
  handlers_keep N h → keeps N start →
  wp (ev ← start (EventLoop_members N); pump N h ev) w (upon (λ '(ev', r) w', match r with
    | Value _ => uring_ok w'.1 ∧ in_flight_ ev' = 0 ∧ ∃ fl' kept' lost' sn',
        accounted N ev' w' [] fl' kept' lost' sn' ∧
        (lenZ fl' + lenZ lost' < size_max →
           lost' = [] ∧ sq_pending w'.1 = [] ∧ accepted w'.2 = [] ∧ cq_list w'.1 = [])
    | Unexpected _ => True
    end)).
Proof.
  intros Hok Hfuel Hempty Hh Hstart. apply wp_bind_upon. eapply wp_upon_mono.
  { apply Hstart, new_loop_accounted; [done|exact Hempty|apply prefix_nil]. }
  intros ev1 w1 [d Ha]. eapply wp_upon_mono; [by apply pump_accounted with (1 := Hh) (2 := Ha)|].
  intros [ev' [[]|e]] w'; [|done]. intros (Hz & fl & kept & lost & sn & Ha' & Hdone).
  split_and!; [apply (a_ok _ _ _ _ _ _ _ _ Ha')|done|]. exists fl, kept, lost, sn. split; [done|].
  intros Hsz. destruct (Hdone Hsz) as (_ & Hlost & Hring). simpl in Hring. unfold requests in Hring.
  apply app_nil in Hring as [Hp [Ha2 Hc]%app_nil].
  apply fmap_nil_inv in Hp, Hc. done.
Qed.

(** ** An example *)

(** Opening gives descriptor 5, a file has three bytes, and every write is
    performed in full. *)
Definition sim_perform (e : io_uring_sqe address (Op * ptr)) : Z :=
  if opcode e =? IORING_OP_OPENAT then 5
  else if opcode e =? IORING_OP_CLOSE then 0
  else if opcode e =? IORING_OP_READ then 3 - off e
  else len e.

Abbreviation sim_world := (io_uring address (Op * ptr) * list ((Op * ptr) * Z))%type.

#[local] Instance sim_uring : UringKernel address (Op * ptr) (list ((Op * ptr) * Z)) :=
  sim_kernel sim_perform.

#[local] Instance sim_uring_lawful : LawfulUring address (Op * ptr) (list ((Op * ptr) * Z)) :=
  sim_enter_lawful sim_perform.

#[local] Instance sim_setup : UringSetup (list ((Op * ptr) * Z)) := λ _ _, mret 0.

#[local] Instance sim_dirs : DirKernel sim_world := {|
  sys_getdents64 _ _ := mret (0, []);
  println_cerr _ := mret ()
|}.

Lemma kernel_step_0 (w : sim_world) : uring_ok w.1 → kernel_step 0 w w.
Proof.
  intros Hok. split.
  - exists (sq_kflags (sq w.1)), (cq_ktail (cq w.1)), (cqes (cq w.1)).
    rewrite wrap_id by apply Hok. by destruct w as [[[] []] ?].
  - apply Z.mod_pos_bound. done.
  - apply Hok.
  - exists []. by rewrite !app_nil_r.
Qed.

#[local] Instance sim_quiet : QuietDirs (list ((Op * ptr) * Z)).
Proof. split; intros; by apply wp_ret, kernel_step_0. Qed.

#[local] Instance sim_calls : Kernel sim_world := {|
  sys_write _ _ := undefined; sys_pread _ _ _ := undefined; sys_splice _ _ _ := undefined;
  sys_copy_file_range _ _ _ := undefined; sys_sendfile _ _ _ _ := undefined;
  sys_pipe := undefined; sys_setpipe_sz _ _ := undefined; sys_openat _ _ _ := undefined;
  sys_close _ := undefined; sys_statx _ := undefined; sys_fadvise _ _ _ _ := undefined;
  sys_isatty _ := undefined; sys_mmap _ _ := undefined; sys_munmap _ _ := undefined;
  std_cout _ := undefined; errno _ := 0; strerror _ := ""%string
|}.

(** Witness: a file is opened, read and closed through a ring of four entries. *)
Lemma event_loop_over_liburing_completes_witness :
  let F := 20%nat : Fuel in
  let e := mkSqe 0 0 0 0 0 NullAddress 0 0 (OPENAT, InPool 0) 0 0 0 0 0 in
  let w := (new_uring e (mkCqe (OPENAT, InPool 0) 0 0), []) : sim_world in
  let start := queue_openat (W := sim_world) AT_FDCWD "a" 0 in
  let run : M sim_world (EventLoop * expected unit) :=
    ev ← start (EventLoop_members 2); pump 2 reading_handlers ev in
  wp run w (upon (λ '(ev', r) w', match r with
    | Value _ => uring_ok w'.1 ∧ in_flight_ ev' = 0 ∧ ∃ fl' kept' lost' sn',
        accounted 2 ev' w' [] fl' kept' lost' sn' ∧
        (lenZ fl' + lenZ lost' < size_max →
           lost' = [] ∧ sq_pending w'.1 = [] ∧ accepted w'.2 = [] ∧ cq_list w'.1 = [])
    | Unexpected _ => True
    end)) ∧
  match run w with
  | (Done (ev', Value _), (r', k')) =>
      in_flight_ ev' = 0 ∧ k' = [] ∧ sq_pending r' = [] ∧ cq_list r' = [] ∧
      opcode <$> sqes (sq r') = [IORING_OP_OPENAT; IORING_OP_READ; IORING_OP_READ; IORING_OP_CLOSE]
  | _ => False
  end.
Proof.
  intros F e w start run. split; [|vm_compute; split_and!; reflexivity].
  apply (event_loop_over_liburing_completes 2 reading_handlers start w).
  - apply new_uring_ok.
  - vm_compute. reflexivity.
  - vm_compute. reflexivity.
  - apply reading_handlers_keep.
  - apply keeps_queue_openat.
Defined.
